(* ===== verification/_CoqProject ===== *)
-Q . S2P
Prelude.v
F64.v
Backoff.v
RetrySchedule.v
RetryState.v
Errors.v
WsRetry.v
WsOptions.v
Cancellation.v
WsTask.v
IndexedHeap.v
OperationControl.v
NativePending.v
PendingTheory.v
PriorityWriteQueue.v
QueueTheory.v
Termination.v
TerminationTheory.v
WsConfig.v
Heartbeat.v
Dispatch.v
EventStream.v
EventTheory.v
TaskObserver.v
TaskTheory.v
StateStream.v
StateTheory.v
ConnectionEvent.v
ConnectionHistory.v
ConnectionSession.v
HistoryTheory.v
SessionTheory.v
HttpTimeouts.v
HttpRetry.v
HttpConfig.v
RetryAfter.v
HttpCookies.v
HttpHops.v
HttpRequest.v
HttpRegistry.v
RegistryTheory.v
CookieTheory.v
HttpAuth.v
LanAddress.v
NetworkSource.v
NetworkEvents.v
NetworkTheory.v
