(* ===== verification/Prelude.v ===== *)
(** * open-net: a verification development

    open-net is an asynchronous networking library: WebSocket clients, HTTP
    clients, network status and the subscriptions through which an application
    observes them.  This library models the parts of it that decide something,
    as executable definitions translated from the sources, and proves what they
    promise.  Paths below are relative to the sources of the repository.

    ** The parts and the files

    The retry core (libs/retry) computes delays and counts attempts.
    - F64.v: [f64] arithmetic, the executable IEEE 754 specification, and the
      conversions of durations; [ln] and [powf] are the class [Libm].
    - Backoff.v, RetrySchedule.v, RetryState.v: backoff.rs, error.rs, schedule.rs,
      state.rs, observation.rs.

    Errors.v is [NetError] with its context (src/api/error/mod.rs).

    A WebSocket client takes messages from its callers, queues them by priority,
    writes them on the connection of its session and correlates responses.
    - WsRetry.v, WsOptions.v, WsTask.v, WsConfig.v: the policies, options,
      messages, task events and the validated configuration (src/api/ws).
    - Cancellation.v: cancellation trees (cancellation.rs).
    - OperationControl.v: the completion authority of one operation
      (operation_control.rs), one definition per lock scope.
    - IndexedHeap.v, PriorityWriteQueue.v, QueueTheory.v: the heap and the queue of
      outgoing messages (write/).
    - NativePending.v, PendingTheory.v: the table of pending requests
      (native_pending.rs, request_control.rs, response.rs, routing.rs).
    - Termination.v, TerminationTheory.v: how these meet when an operation ends.
    - Heartbeat.v: the control heartbeat (heartbeat_state.rs, heartbeat_schedule.rs).
    - TaskObserver.v, TaskTheory.v: terminal task events with reserved capacity
      (native_task_observer.rs).
    - ConnectionEvent.v, ConnectionHistory.v, HistoryTheory.v: connection facts and
      the history of them (connection.rs, connection_history.rs).
    - ConnectionSession.v, SessionTheory.v: the lifecycle of a session with its
      journal, history and state (connection_session.rs, transport/failure.rs).

    Subscriptions (src/api/subscription) carry values to receivers.
    - Dispatch.v: tickets of jobs given to an executor (dispatch.rs).
    - EventStream.v, EventTheory.v: bounded event streams (event.rs,
      event_registration.rs).
    - StateStream.v, StateTheory.v: observed states (source.rs, registration.rs).

    An HTTP client admits requests, runs their attempts and delivers their results.
    - HttpTimeouts.v: timeouts per phase and the absolute budget of a request
      (http_timeouts.rs, http_timeout.rs).
    - HttpRetry.v: causes and classification of failures, retry policies
      (http_failure.rs, api/http/retry.rs).
    - HttpConfig.v: configuration with the limits of cookies and the settings of
      HTTP/2, headers, request paths, redirect policy (http_config.rs, http2.rs,
      redirect.rs, auth.rs).
    - RetryAfter.v: the Retry-After header (retry_after.rs).
    - HttpHops.v: budgets around an exchange and its redirects, with the calls of
      the cookie store (http_client_inner.rs, response_hops.rs).
    - HttpRequest.v: attempts, retries, report of a buffered request
      (http_client_inner.rs, [run_request]).
    - HttpRegistry.v, RegistryTheory.v: identifiers, capacity, cancellation,
      completion and shutdown of the operations of a client (http_client_inner.rs,
      admission.rs, request_completion.rs).
    - HttpCookies.v, CookieTheory.v: the cookie jar, its scopes, limits and snapshots,
      and the cookie hooks that HttpHops.v calls (cookies.rs, cookie_hooks.rs).
    - HttpAuth.v: bearer credentials with one fetch in flight (auth.rs).

    Network status (src/module/net_status) observes the host.
    - LanAddress.v: the choice of a LAN address (lan_addr.rs, lan_snapshot.rs).
    - NetworkSource.v, NetworkEvents.v, NetworkTheory.v: the shared source of
      observations, its named views and the events of their observers
      (network_status_snapshot.rs, network_view.rs, coordinated_view.rs).

    ** How the code is modelled

    Integers are [Z] with the checks and saturations of the code written out; a
    [Duration] and an [Instant] are nanoseconds; a [HashMap] is a [gmap], a map that
    is iterated in order a list.  A [Result] is [Result], [?] is [let?], an
    assignment to a field a record update.  An object shared through [Arc] is
    passed and returned, or lives in a store and is referred to by its identity;
    upgrading a [Weak] is a lookup.  A function is one lock scope of the code and
    returns what the code does after releasing the lock as data or as a second
    function, so that concurrent calls are sequences of steps: the [*Op] types
    with their [*_step] and [*_run] functions.  A file [XTheory.v] holds the
    theorems about these runs.  What the code reads from outside, the clock, the
    allocator, an executor, the network, a user callback, is an argument or a
    class ([Clock], [Libm], [Semaphores], [Urls], [HttpDates], [ErrorGraph],
    [Surroundings], [CookieLibs], [EventLayout]); laws a theorem needs of another library are classes of
    documented behaviour ([SemaphoreLaws], [UrlLaws], [TransportLaws], [CookieLaws]), and each has
    a concrete instance in the examples that follow the theorems.

    ** What is proved

    - Operations: an operation selects its result once, never loses evidence of
      delivery, and its final error tells the truth (OperationControl.v); ending one
      always terminates, empties the queue of it and returns its capacity, and a
      cancelled group ends all its operations (TerminationTheory.v).
    - Queue and heap: the heap implements a priority bag, the queue neither loses
      nor duplicates a request and hands out the best ready one.
    - Pending requests: each admitted request is settled once, with what its
      operation ended with; stale registrations are inert; one grace is given.
    - Retries: delays stay in their bounds and the attempts in their budget.
    - Observation: an event receiver sees what was accepted, in order, once, with
      exact counts of what it missed; a state receiver sees committed values in
      order and converges; a reserved task event finds room; the history and
      the lossless journal of a session show its facts, which follow the lifecycle
      of attempts, connections and the end.
    - HTTP: a request ends within its attempts when its waits end, stays with its
      server and the allowed origins, carries credentials to its own origin only, but
      for the cookies the store releases to another one, is not repeated when it may
      not be, is repeated by default only on evidence that nothing was delivered, and
      is reported once; the registry holds exactly the live
      operations, capacity is conserved, a completion is published once, and an
      accepted cancellation is what is delivered.
    - Cookies and credentials: a jar holds only valid cookies within its limits, a
      request carries exactly the cookies in scope, longest paths first, a plain
      response cannot touch a secure cookie, the snapshot of a jar within the default
      limits restores what it saved; one token fetch is in flight at a time and every
      caller is answered by it.
    - Network status: the facts of the source are numbered without a gap, and their
      loss epoch rises with each that newly shows the network unavailable; an
      active view shows the facts of the source; an observer sees every
      event of its view in order, and the events tell the truth; a refresh takes
      effect only in the generations it was started in.  The address that is
      recommended is the first of the best.
    ** Fuel and bounds

    - [sift_up_loop], [sift_down_loop]: the number of nodes; [heap_validb] holds after.
    - [publication_dispatch]: one more than the queued requests
      ([dispatch_fuel_enough]).
    - [cancel_loop], [release_loop]: the nodes of the store ([cancel_loop_spec],
      [release_loop_wf]).
    - [visit_loop]: [CAUSE_BUDGET] turns, one per slot of the array of pending
      objects ([visit_causes_complete]).
    - [follow_loop]: [max_redirects + 1] responses, the range of the loop of the code.
    - [run_loop]: [enough], one more than [max_attempts]; [request_sends_confined]
      shows that [run_request] returns.
    - [next_free]: one more than the identifiers in use ([next_free_total]).
    - [decimal_loop]: 20 digits, enough for a 64-bit number.
    ** Not modelled

    - Network input and output: the read and write loops of a connection
      (ws_read.rs, ws_write.rs, network_io.rs), the worker that drives a session
      (ws_client_worker.rs, session_runtime.rs), TLS, proxies and sockets
      (module/transport, api/tls.rs), the connector with its timeout.  Their
      decisions are those of the modelled components; the rest is calls of other
      libraries whose interleaving is the scheduler's.
    - The front ends (client.rs, send.rs, request_operation.rs, http_client.rs and
      the request builders): futures that wait on the modelled components.
    - Streaming HTTP bodies, middleware, the HTTP/2 connection, network observation of
      HTTP clients: optional features around [run_request]; the model is that of a
      client without them.  Cookies are modelled, and of HTTP/2 its settings and the
      demand for TLS.
    - The monitors of the network (net_status/inner/shared.rs, facade.rs, refresh.rs,
      names.rs and the platform code): queries of the operating system and the tasks
      that call the modelled source.
    - Application heartbeats and the message sources of subscriptions built on the
      modelled streams, the registry of named clients (inner/net_impl), thread pools
      and runtimes (libs/common).
    - Logs, the quality diagnosis, test-only code; poisoned locks, which the code
      recovers from; wakers, since a poll may happen at any time. *)

From stdpp Require Export base tactics numbers list gmap option strings.
From coqutil Require Export Datatypes.RecordSetters.

#[global] Set Default Goal Selector "!".

(** ** Notations of the development *)

Declare Scope rust_scope.
Delimit Scope rust_scope with rust.
Open Scope rust_scope.

(** Record update, [r <| f := v; g ::= h |>], for the assignments to fields of
    a structure held by a mutable borrow or a lock guard. *)
Arguments constant {E} newValue _ /.

(** A record type lists its fields once; an update rebuilds the record from its
    projections, so that simplification leaves the projections folded. *)
Class Settable (R : Type) := rebuild : R -> R.
Notation "'fields!' mk [ f ; .. ; g ]" :=
  (fun r => .. (mk (f r)) .. (g r))
  (at level 0, mk at level 9, f at level 9, g at level 9, only parsing) : rust_scope.

Ltac derive_setter R getter :=
  let e := constr:(_ : Settable R) in
  let e := eval red in e in
  exact (fun update (r : R) => ltac:(
    let b := eval cbv beta in (e r) in
    match b with
    | context C [getter r] => let b' := context C [update (getter r)] in exact b'
    end)).
#[global] Hint Extern 0 (@Setter ?R _ ?getter) => derive_setter R getter : typeclass_instances.

Notation "x <| u |>" := (apply_update u x)
  (at level 1, left associativity, u custom field_update at level 1,
   format "x  <|  u  |>") : rust_scope.
Notation "x <| u ; .. ; v ; w |>" :=
  (apply_update w (apply_update v .. (apply_update u x) .. ))
  (at level 1, left associativity, u custom field_update at level 1,
   v custom field_update at level 1, w custom field_update at level 1) : rust_scope.

(** ** [Result] and the question mark operator *)

Inductive Result (T E : Type) : Type :=
| Ok (value : T)
| Err (error : E).
Arguments Ok {T E} value.
Arguments Err {T E} error.

Notation "'let?' x ':=' e 'in' k" :=
  (match e with Ok x => k | Err err => Err err end)
  (at level 10, x pattern, e at level 200, k at level 200) : rust_scope.

Definition is_ok {T E} (r : Result T E) : bool :=
  match r with Ok _ => true | Err _ => false end.

Definition is_err {T E} (r : Result T E) : bool := negb (is_ok r).

Definition map_err {T E F} (f : E -> F) (r : Result T E) : Result T F :=
  match r with Ok x => Ok x | Err e => Err (f e) end.

Definition ok_or {T E} (o : option T) (e : E) : Result T E :=
  match o with Some x => Ok x | None => Err e end.

(** [Option::is_some_and] and [Option::is_none_or]. *)
Definition is_some_and {A} (o : option A) (p : A -> bool) : bool :=
  match o with Some x => p x | None => false end.

Definition is_none_or {A} (o : option A) (p : A -> bool) : bool :=
  match o with Some x => p x | None => true end.

Definition is_some {A} (o : option A) : bool :=
  match o with Some _ => true | None => false end.

Definition is_none {A} (o : option A) : bool := negb (is_some o).

(** [Option::or]: the left value when there is one. *)
Definition option_or {A} (l r : option A) : option A :=
  match l with Some x => Some x | None => r end.

(** ** Machine integers *)

Open Scope Z_scope.

Definition u8_max : Z := 2 ^ 8 - 1.
Definition u16_max : Z := 2 ^ 16 - 1.
Definition u32_max : Z := 2 ^ 32 - 1.
Definition u64_max : Z := 2 ^ 64 - 1.
(** The supported platforms are 64-bit desktops. *)
Definition usize_max : Z := u64_max.
Definition isize_max : Z := 2 ^ 63 - 1.

(** [checked_add], [checked_sub] and [checked_mul] of an unsigned type whose
    largest value is [max]; [wrapping_add] and [wrapping_mul] of a [w]-bit one. *)
Definition checked_add (max a b : Z) : option Z :=
  if a + b <=? max then Some (a + b) else None.

Definition checked_sub (a b : Z) : option Z :=
  if b <=? a then Some (a - b) else None.

Definition checked_mul (max a b : Z) : option Z :=
  if a * b <=? max then Some (a * b) else None.

Definition saturating_sub (a b : Z) : Z := Z.max 0 (a - b).

Definition wrapping_add (w a b : Z) : Z := (a + b) mod 2 ^ w.

Definition wrapping_mul (w a b : Z) : Z := (a * b) mod 2 ^ w.

Definition in_u32 (z : Z) : Prop := 0 <= z <= u32_max.
Definition in_u64 (z : Z) : Prop := 0 <= z <= u64_max.

(** ** Time

    An [Instant] is a number of nanoseconds on the monotonic clock, a [Duration]
    a number of nanoseconds.  The last instant the platform can represent is
    not fixed by the language, so it is a parameter of the development. *)

Abbreviation Instant := Z (only parsing).
Abbreviation Duration := Z (only parsing).

Definition NANOS_PER_SEC : Z := 1000000000.
Definition duration_max : Z := (u64_max + 1) * NANOS_PER_SEC - 1.
Definition from_secs (s : Z) : Duration := s * NANOS_PER_SEC.

Class Clock : Type := { instant_max : Instant }.

(** A 64-bit platform with signed seconds, for the concrete instances. *)
Definition linux_clock : Clock := {| instant_max := (2 ^ 63 - 1) * NANOS_PER_SEC + 999999999 |}.

Definition instant_checked_add {clk : Clock} (t : Instant) (d : Duration) : option Instant :=
  if t + d <=? instant_max then Some (t + d) else None.

Definition saturating_duration_since (later earlier : Instant) : Duration :=
  Z.max 0 (later - earlier).

(** ** Automation *)

Create HintDb net.
#[export] Hint Unfold in_u32 in_u64 u8_max u16_max u32_max u64_max usize_max isize_max : net.

(** Turns the boolean comparisons of the code into propositions. *)
Ltac propify :=
  repeat match goal with
  | H : andb _ _ = true |- _ => apply andb_prop in H; destruct H
  | H : orb _ _ = false |- _ => apply orb_false_elim in H; destruct H
  | H : negb _ = true |- _ => apply negb_true_iff in H
  | H : negb _ = false |- _ => apply negb_false_iff in H
  | H : (_ <=? _) = true |- _ => apply Z.leb_le in H
  | H : (_ <=? _) = false |- _ => apply Z.leb_gt in H
  | H : (_ <? _) = true |- _ => apply Z.ltb_lt in H
  | H : (_ <? _) = false |- _ => apply Z.ltb_ge in H
  | H : (_ =? _) = true |- _ => apply Z.eqb_eq in H
  | H : (_ =? _) = false |- _ => apply Z.eqb_neq in H
  | H : bool_decide _ = true |- _ => apply bool_decide_eq_true in H
  | H : bool_decide _ = false |- _ => apply bool_decide_eq_false in H
  end.

(** Splits on every condition the goal is stuck on, keeping the equations. *)
Ltac cases :=
  repeat (case_match; simplify_eq/=; propify); simplify_eq/=.

Ltac machine := autounfold with net in *; lia.

(** ** Generic lemmas *)

Lemma checked_add_Some max a b c :
  checked_add max a b = Some c <-> c = a + b /\ a + b <= max.
Proof. unfold checked_add. cases; naive_solver lia. Qed.

Lemma checked_add_None max a b : checked_add max a b = None <-> max < a + b.
Proof. unfold checked_add. cases; naive_solver lia. Qed.

Lemma checked_sub_Some a b c : checked_sub a b = Some c <-> c = a - b /\ b <= a.
Proof. unfold checked_sub. cases; naive_solver lia. Qed.

Lemma instant_checked_add_Some {clk : Clock} t d u :
  instant_checked_add t d = Some u <-> u = t + d /\ t + d <= instant_max.
Proof. unfold instant_checked_add. cases; naive_solver lia. Qed.

Lemma instant_checked_add_None {clk : Clock} t d :
  instant_checked_add t d = None <-> instant_max < t + d.
Proof. unfold instant_checked_add. cases; naive_solver lia. Qed.

#[export] Hint Resolve <- checked_add_Some checked_sub_Some instant_checked_add_Some : net.

Lemma filter_all {A} (P : A -> Prop) `{forall x, Decision (P x)} (l : list A) :
  Forall P l -> filter P l = l.
Proof.
  induction 1 as [|x l Hx _ IH]; [done|]. by rewrite filter_cons_True, IH.
Qed.

Lemma alter_as_insert {A} (m : gmap positive A) k x f :
  m !! k = Some x -> alter f k m = <[k := f x]> m.
Proof.
  intros Hx. apply map_eq. intros j. destruct (decide (j = k)) as [->|Hn].
  - by rewrite lookup_alter_eq, lookup_insert_eq, Hx.
  - by rewrite lookup_alter_ne, lookup_insert_ne.
Qed.
