(* ===== verification/F64.v ===== *)
(** * Binary64 floating point and the [f64] view of a [Duration]

    The arithmetic of [f64] is the executable IEEE 754 specification of the
    standard library of Rocq ([SpecFloat]) at precision 53 and maximal exponent
    1024.  [ln] and [powf] have no specified precision in Rust, so they are the
    fields of the class [Libm], a parameter of whatever uses them.  The
    conversions [Duration::as_secs_f64] and [Duration::try_from_secs_f64] are
    those of the Rust standard library. *)

From Stdlib Require Import SpecFloat.
From S2P Require Import Prelude.

Definition f64 : Type := spec_float.

(** [u64 as f64] and [f64::from(u32)]: round to nearest, ties to even. *)
Definition f64_of_Z (n : Z) : f64 := binary_normalize 53 1024 n 0 false.

Definition f64_add : f64 -> f64 -> f64 := SFadd 53 1024.
Definition f64_sub : f64 -> f64 -> f64 := SFsub 53 1024.
Definition f64_mul : f64 -> f64 -> f64 := SFmul 53 1024.
Definition f64_div : f64 -> f64 -> f64 := SFdiv 53 1024.

Definition is_finite (x : f64) : bool :=
  match x with S754_zero _ | S754_finite _ _ _ => true | _ => false end.

Definition f64_one : f64 := f64_of_Z 1.
Definition f64_two : f64 := f64_of_Z 2.
Definition f64_zero : f64 := S754_zero false.

(** [(0.0..=1.0).contains(&x)] *)
Definition in_unit_range (x : f64) : bool := SFleb f64_zero x && SFleb x f64_one.

(** [f64::ln] and [f64::powf] come from the platform's mathematics library and are
    parameters; nothing is assumed of them. *)
Class Libm : Type := { ln : f64 -> f64; powf : f64 -> f64 -> f64 }.

(** A library for the concrete instances. *)
Definition sample_libm : Libm := {| ln := fun x => x; powf := fun x _ => x |}.

(** [Duration::as_secs_f64]: the seconds and the nanoseconds are converted and
    divided separately and then added, with one rounding each. *)
Definition as_secs_f64 (d : Duration) : f64 :=
  f64_add (f64_of_Z (d / NANOS_PER_SEC))
          (f64_div (f64_of_Z (d mod NANOS_PER_SEC)) (f64_of_Z NANOS_PER_SEC)).

(** [n / 2^k] rounded to the nearest integer, ties to even. *)
Definition round_shift (n k : Z) : Z :=
  let q := Z.shiftr n k in
  let r := n - Z.shiftl q k in
  let half := 2 ^ (k - 1) in
  if (half <? r) || ((half =? r) && negb (Z.even q)) then q + 1 else q.

(** [Duration::try_from_secs_f64]: negative values, infinities, NaN and values
    of at least [2^64] seconds are refused, every other value is rounded to the
    nearest nanosecond. *)
Definition try_from_secs_f64 (x : f64) : option Duration :=
  match x with
  | S754_zero _ => Some 0
  | S754_nan | S754_infinity _ | S754_finite true _ _ => None
  | S754_finite false m e =>
      let nanos :=
        if 0 <=? e then Z.shiftl (Z.pos m * NANOS_PER_SEC) e
        else round_shift (Z.pos m * NANOS_PER_SEC) (- e) in
      if (u64_max + 1) * NANOS_PER_SEC <=? nanos then None else Some nanos
  end.

Example as_secs_half : try_from_secs_f64 (as_secs_f64 500000000) = Some 500000000.
Proof. reflexivity. Qed.

Example secs_third :
  try_from_secs_f64 (f64_div f64_one (f64_of_Z 3)) = Some 333333333.
Proof. reflexivity. Qed.

(** ** Exact quotients by [2^53] *)

Lemma digits2_pos_iter m n :
  Z.pos (digits2_pos (Pos.iter xO m n)) = Z.pos (digits2_pos m) + Z.pos n.
Proof.
  induction n as [|n IH] using Pos.peano_ind; [simpl; lia|].
  rewrite Pos.iter_succ. simpl. lia.
Qed.

Lemma digits2_pos_bounds m :
  2 ^ (Z.pos (digits2_pos m) - 1) <= Z.pos m < 2 ^ Z.pos (digits2_pos m).
Proof.
  induction m as [m IH|m IH|]; simpl digits2_pos; [| |simpl; lia].
  all: rewrite Pos2Z.inj_succ.
  all: replace (Z.succ (Z.pos (digits2_pos m)) - 1) with (Z.succ (Z.pos (digits2_pos m) - 1)) by lia.
  all: rewrite !Z.pow_succ_r by lia; lia.
Qed.

Lemma digits2_pos_le m d : 0 < d -> Z.pos m < 2 ^ d -> Z.pos (digits2_pos m) <= d.
Proof.
  intros Hd Hm. destruct (digits2_pos_bounds m) as [Hl _].
  destruct (Z.le_gt_cases (Z.pos (digits2_pos m)) d) as [|Hgt]; [done|].
  assert (2 ^ d <= 2 ^ (Z.pos (digits2_pos m) - 1)) by (apply Z.pow_le_mono_r; lia). lia.
Qed.

Lemma fexp_canonical d e :
  -1074 <= e + d - 53 -> fexp 53 1024 (d + e) = e + d - 53.
Proof. intros. unfold fexp, emin. lia. Qed.

(** A canonical mantissa is not rounded. *)
Lemma binary_round_aux_canonical s m e :
  digits2_pos m = 53%positive -> -1074 <= e <= 971 ->
  binary_round_aux 53 1024 s (Z.pos m) e loc_Exact = S754_finite s m e.
Proof.
  intros Hm He. unfold binary_round_aux, shr_fexp, shr_record_of_loc, Zdigits2.
  rewrite Hm, fexp_canonical by lia.
  replace (e + 53 - 53 - e) with 0 by lia. simpl shr.
  cbn [loc_of_shr_record round_nearest_even shr_m shr_r shr_s].
  rewrite Hm, fexp_canonical by lia.
  replace (e + 53 - 53 - e) with 0 by lia. simpl shr. cbn [shr_m].
  replace (e <=? 1024 - 53) with true; [done|]. symmetry. apply Z.leb_le. lia.
Qed.

(** An integer of at most 53 bits converts without rounding to a canonical
    mantissa of exactly 53 digits. *)
Lemma f64_of_Z_exact (k : Z) :
  0 < k < 2 ^ 53 ->
  exists m e, f64_of_Z k = S754_finite false m e /\ digits2_pos m = 53%positive /\ -52 <= e <= 0.
Proof.
  intros [Hk0 Hk]. destruct k as [|p|p]; [lia| |lia].
  pose proof (digits2_pos_le p 53 ltac:(lia) Hk) as Hd.
  unfold f64_of_Z, binary_normalize, binary_round.
  rewrite fexp_canonical by lia. unfold shl_align.
  destruct (0 + Z.pos (digits2_pos p) - 53 - 0) as [|n|n] eqn:E; [| lia |].
  - exists p, 0. rewrite binary_round_aux_canonical by lia. repeat split; lia.
  - exists (Pos.iter xO p n), (0 + Z.pos (digits2_pos p) - 53).
    pose proof (digits2_pos_iter p n).
    rewrite binary_round_aux_canonical by lia. repeat split; lia.
Qed.

(** Dividing such an integer by [2^53] is exact too. *)
Lemma f64_div_2_53_exact m e :
  digits2_pos m = 53%positive -> -52 <= e <= 0 ->
  f64_div (S754_finite false m e) (f64_of_Z (2 ^ 53)) = S754_finite false m (e - 53).
Proof.
  intros Hm He. change (f64_of_Z (2 ^ 53)) with (S754_finite false 4503599627370496 1).
  unfold f64_div, SFdiv, SFdiv_core_binary, Zdigits2. rewrite Hm.
  replace (fexp 53 1024 _) with (e - 54)
    by (unfold fexp, emin; change (digits2_pos 4503599627370496) with 53%positive; lia).
  replace (Z.min (e - 54) (e - 1)) with (e - 54) by lia.
  replace (e - 1 - (e - 54)) with 53 by lia.
  cbn [xorb].
  assert (Z.shiftl (Z.pos m) 53 = 4503599627370496 * (Z.pos m~0)) as ->.
  { rewrite Z.shiftl_mul_pow2 by lia. change (2 ^ 53) with (4503599627370496 * 2). lia. }
  pose proof (Z.div_eucl_eq (4503599627370496 * Z.pos m~0) 4503599627370496 ltac:(lia)) as Hq.
  pose proof (Z.mod_mul (Z.pos m~0) 4503599627370496 ltac:(lia)) as Hr.
  rewrite Z.mul_comm in Hr. unfold Z.modulo in Hr.
  destruct (Z.div_eucl _ _) as [q r]. subst r.
  assert (q = Z.pos m~0) as -> by lia.
  change (new_location 4503599627370496 0) with loc_Exact.
  unfold binary_round_aux, shr_fexp, shr_record_of_loc, Zdigits2.
  cbn [digits2_pos]. rewrite Hm.
  replace (fexp 53 1024 _) with (e - 53) by (unfold fexp, emin; lia).
  replace (e - 53 - (e - 54)) with 1 by lia. cbn [shr SpecFloat.iter_pos shr_1 orb].
  cbn [loc_of_shr_record round_nearest_even shr_m shr_r shr_s].
  rewrite Hm. replace (fexp 53 1024 _) with (e - 53) by (unfold fexp, emin; lia).
  replace (e - 53 - (e - 54 + 1)) with 0 by lia. cbn [shr shr_m].
  replace (e - 54 + 1 <=? 1024 - 53) with true by (symmetry; apply Z.leb_le; lia).
  f_equal. lia.
Qed.

(** Every [k / 2^53] with [k < 2^53] is a finite number of [0, 1). *)
Lemma unit_quotient_range (k : Z) :
  0 <= k < 2 ^ 53 ->
  let u := f64_div (f64_of_Z k) (f64_of_Z (2 ^ 53)) in
  is_finite u = true /\ in_unit_range u = true /\ SFltb u f64_one = true.
Proof.
  intros [H0 Hk]. destruct (decide (k = 0)) as [->|Hnz]; [done|].
  destruct (f64_of_Z_exact k ltac:(lia)) as (m & e & -> & Hm & He).
  cbv zeta. rewrite f64_div_2_53_exact by lia.
  change f64_one with (S754_finite false 4503599627370496 (-52)).
  unfold in_unit_range, f64_zero, f64_one. change (f64_of_Z 1) with (S754_finite false 4503599627370496 (-52)).
  unfold is_finite, SFleb, SFltb, SFcompare.
  assert ((e - 53 ?= -52) = Lt) as -> by (apply Z.compare_lt_iff; lia). done.
Qed.

(** Clients reason about these operations through the lemmas above. *)
#[global] Arguments f64_of_Z : simpl never.
#[global] Arguments f64_add : simpl never.
#[global] Arguments f64_sub : simpl never.
#[global] Arguments f64_mul : simpl never.
#[global] Arguments f64_div : simpl never.
#[global] Arguments f64_one : simpl never.
#[global] Arguments in_unit_range : simpl never.
#[global] Arguments as_secs_f64 : simpl never.
#[global] Arguments try_from_secs_f64 : simpl never.
#[global] Arguments SFeqb : simpl never.
#[global] Arguments SFleb : simpl never.
#[global] Arguments SFltb : simpl never.
