(* ===== verification/Backoff.v ===== *)
(** * Retry delays: [Backoff] and [Jitter] (libs/retry/src/backoff.rs, error.rs)

    The functions that read [Instant::now()] take the reading as the argument
    [now]; one call uses one reading.  Durations are nanoseconds, the multiplier,
    the jitter ratio and the random sample are [f64] values. *)

From Stdlib Require Import SpecFloat.
From stdpp Require Import pretty.
From S2P Require Import Prelude F64.

(** ** Configuration errors *)

Record RetryConfigError := mkRetryConfigError { err_field : string; err_reason : string }.

Definition RetryConfigError_new (field reason : string) : RetryConfigError :=
  {| err_field := field; err_reason := reason |}.

(** ** Backoff rules *)

Inductive Backoff :=
| BackoffNone
| Constant (delay : Duration)
| Sequence (delays : list Duration)
| Exponential (initial : Duration) (multiplier : f64) (max : Duration).

Definition backoff_default : Backoff := BackoffNone.

Inductive Jitter :=
| JitterNone
| Full
| Proportional (ratio : f64).

Section Delays.
Context {clk : Clock} {libm : Libm}.

Definition validate_duration (now : Instant) (delay : Duration) (field : string) :
    Result () RetryConfigError :=
  match instant_checked_add now delay with
  | None => Err (RetryConfigError_new field "duration exceeds the monotonic clock range")
  | Some _ => Ok tt
  end.

Definition duration_from_seconds (now : Instant) (seconds : f64) (field : string) :
    Result Duration RetryConfigError :=
  let? delay := ok_or (try_from_secs_f64 seconds)
                      (RetryConfigError_new field "duration arithmetic overflowed") in
  let? _ := validate_duration now delay field in
  Ok delay.

Definition scale_duration (now : Instant) (delay : Duration) (factor : f64) (field : string) :
    Result Duration RetryConfigError :=
  if SFeqb factor f64_one then
    let? _ := validate_duration now delay field in Ok delay
  else duration_from_seconds now (f64_mul (as_secs_f64 delay) factor) field.

Definition exponential_delay (now : Instant) (initial : Duration) (multiplier : f64)
    (max : Duration) (ordinal : Z) : Result Duration RetryConfigError :=
  if (ordinal =? 1) || (initial =? 0) || SFeqb multiplier f64_one || (initial =? max)
  then Ok initial
  else
    let exponent := f64_of_Z (ordinal - 1) in
    let initial_seconds := as_secs_f64 initial in
    let maximum_seconds := as_secs_f64 max in
    let capped_exponent :=
      f64_div (ln (f64_div maximum_seconds initial_seconds)) (ln multiplier) in
    if SFleb capped_exponent exponent then Ok max
    else
      let seconds := f64_mul initial_seconds (powf multiplier exponent) in
      if SFleb maximum_seconds seconds then Ok max
      else duration_from_seconds now seconds "backoff.exponential".

Definition validate_values (now : Instant) (b : Backoff) : Result () RetryConfigError :=
  match b with
  | BackoffNone => Ok tt
  | Constant delay => validate_duration now delay "backoff.constant"
  | Sequence delays =>
      (fix go (ds : list Duration) : Result () RetryConfigError :=
         match ds with
         | [] => Ok tt
         | delay :: ds =>
             let? _ := validate_duration now delay "backoff.sequence" in go ds
         end) delays
  | Exponential initial multiplier max =>
      if negb (is_finite multiplier) || SFltb multiplier f64_one then
        Err (RetryConfigError_new "backoff.multiplier" "must be finite and at least one")
      else if max <? initial then
        Err (RetryConfigError_new "backoff.max" "must not be below the initial delay")
      else
        let? _ := validate_duration now initial "backoff.initial" in
        validate_duration now max "backoff.max"
  end.

(** [delays.get(index)] *)
Definition vec_get {A} (l : list A) (i : Z) : option A := l !! Z.to_nat i.

Definition delay_for_validated (now : Instant) (b : Backoff) (retry_ordinal : Z) :
    Result Duration RetryConfigError :=
  if retry_ordinal =? 0 then
    Err (RetryConfigError_new "retry_ordinal" "must be at least one")
  else
    let? delay :=
      match b with
      | BackoffNone => Ok 0
      | Constant delay => Ok delay
      | Sequence delays =>
          let? index :=
            (if retry_ordinal - 1 <=? usize_max then Ok (retry_ordinal - 1)
             else Err (RetryConfigError_new "retry_ordinal" "cannot be represented on this target")) in
          ok_or (vec_get delays index)
                (RetryConfigError_new "retry_ordinal" "exceeds the explicit delay sequence")
      | Exponential initial multiplier max =>
          exponential_delay now initial multiplier max retry_ordinal
      end in
    let? _ := validate_duration now delay "backoff.delay" in
    Ok delay.

Definition backoff_delay_for (now : Instant) (b : Backoff) (retry_ordinal : Z) :
    Result Duration RetryConfigError :=
  if retry_ordinal =? 0 then
    Err (RetryConfigError_new "retry_ordinal" "must be at least one")
  else
    let? _ := validate_values now b in
    delay_for_validated now b retry_ordinal.

Definition backoff_validate (now : Instant) (b : Backoff) (max_attempts : Z) :
    Result () RetryConfigError :=
  let? _ := validate_values now b in
  match b with
  | Sequence delays =>
      let expected := saturating_sub max_attempts 1 in
      if Z.of_nat (length delays) =? expected then Ok tt
      else Err (RetryConfigError_new "backoff.sequence"
             ("requires " +:+ pretty expected +:+ " delays, received "
              +:+ pretty (Z.of_nat (length delays))))
  | _ => Ok tt
  end.

(** [delays.iter().copied().max()] *)
Definition iter_max (delays : list Duration) : option Duration :=
  match delays with
  | [] => None
  | d :: ds => Some (foldl Z.max d ds)
  end.

Definition maximum_delay (b : Backoff) : Duration :=
  match b with
  | BackoffNone => 0
  | Constant delay => delay
  | Sequence delays => match iter_max delays with Some v => v | None => 0 end
  | Exponential _ _ max => max
  end.

(** ** Jitter *)

Definition is_exponential (b : Backoff) : bool :=
  match b with Exponential _ _ _ => true | _ => false end.

Definition jitter_validate (now : Instant) (j : Jitter) (b : Backoff) :
    Result () RetryConfigError :=
  match j with
  | Proportional ratio =>
      if negb (is_finite ratio) || negb (in_unit_range ratio) then
        Err (RetryConfigError_new "jitter.ratio" "must be finite and between zero and one")
      else if negb (is_exponential b) then
        let? _ := scale_duration now (maximum_delay b) (f64_add f64_one ratio) "jitter.delay" in
        Ok tt
      else Ok tt
  | _ => Ok tt
  end.

Definition jitter_apply (now : Instant) (j : Jitter) (delay : Duration) (unit : f64)
    (b : Backoff) : Result Duration RetryConfigError :=
  if negb (is_finite unit) || negb (in_unit_range unit) then
    Err (RetryConfigError_new "jitter.sample" "must be between zero and one")
  else
    let factor :=
      match j with
      | JitterNone => None
      | Full => Some unit
      | Proportional ratio =>
          Some (f64_add (f64_sub f64_one ratio) (f64_mul (f64_mul f64_two ratio) unit))
      end in
    match factor with
    | None => Ok delay
    | Some factor =>
        let seconds := f64_mul (as_secs_f64 delay) factor in
        match b with
        | Exponential _ _ max =>
            if SFleb (as_secs_f64 max) seconds then Ok max
            else scale_duration now delay factor "jitter.delay"
        | _ => scale_duration now delay factor "jitter.delay"
        end
    end.

(** ** Lemmas *)

Lemma validate_duration_ok now d f :
  validate_duration now d f = Ok tt <-> now + d <= instant_max.
Proof.
  unfold validate_duration. destruct (instant_checked_add now d) eqn:E.
  - apply instant_checked_add_Some in E. split; [lia|done].
  - apply instant_checked_add_None in E. split; [done|lia].
Qed.

Lemma validate_duration_Ok now d f u :
  validate_duration now d f = Ok u -> now + d <= instant_max.
Proof. destruct u. apply validate_duration_ok. Qed.

(** The delays a validated rule can produce before jitter are bounded by
    [maximum_delay] for the rules that do no floating-point arithmetic. *)
Lemma iter_max_ge delays d v : iter_max delays = Some v -> d ∈ delays -> d <= v.
Proof.
  destruct delays as [|x ds]; simpl; [done|]. intros [= <-].
  assert (forall y, y = x \/ y ∈ ds -> y <= foldl Z.max x ds) as H.
  { revert x. induction ds as [|z ds IH]; intros x y Hy; simpl.
    - destruct Hy as [->|Hy]; [lia|by apply not_elem_of_nil in Hy].
    - destruct Hy as [->|Hy].
      + trans (Z.max x z); [lia|]. apply IH. by left.
      + apply elem_of_cons in Hy as [->|Hy].
        * trans (Z.max x z); [lia|]. apply IH. by left.
        * apply IH. by right. }
  intros Hd. apply H. set_solver.
Qed.

Lemma vec_get_elem {A} (l : list A) i x : vec_get l i = Some x -> x ∈ l.
Proof. intros H. eapply list_elem_of_lookup_2. exact H. Qed.

Lemma vec_get_is_Some {A} (l : list A) i :
  0 <= i < Z.of_nat (length l) -> exists x, vec_get l i = Some x.
Proof. intros H. apply lookup_lt_is_Some_2. lia. Qed.

Lemma validate_duration_error now d f e :
  validate_duration now d f = Err e -> err_field e = f.
Proof. unfold validate_duration. destruct (instant_checked_add now d); by intros [= <-]. Qed.

Lemma scale_duration_error now d x f e :
  scale_duration now d x f = Err e -> err_field e = f.
Proof.
  unfold scale_duration, duration_from_seconds. destruct (SFeqb x f64_one).
  - destruct (validate_duration now d f) eqn:Hv; [done|]. intros [= <-].
    by eapply validate_duration_error.
  - destruct (try_from_secs_f64 _) as [d'|]; simpl; [|by intros [= <-]].
    destruct (validate_duration now d' f) eqn:Hv; [done|]. intros [= <-].
    by eapply validate_duration_error.
Qed.

(** A sample of the unit interval is never the reason for a failure. *)
Lemma jitter_apply_error now j d u b e :
  is_finite u = true -> in_unit_range u = true ->
  jitter_apply now j d u b = Err e -> err_field e = "jitter.delay".
Proof.
  intros Hf Hr. unfold jitter_apply. rewrite Hf, Hr. cbn [negb orb].
  destruct (match j with JitterNone => None | Full => _ | Proportional _ => _ end) as [x|];
    [|done].
  destruct b; try apply scale_duration_error.
  destruct (SFleb _ _); [done|apply scale_duration_error].
Qed.

End Delays.
