(* ===== verification/RetrySchedule.v ===== *)
(** * Retry schedules (libs/retry/src/schedule.rs)

    A validated combination of an attempt limit, a delay rule and a jitter,
    the builder that validates it, and the per-operation policy selection. *)

From Stdlib Require Import SpecFloat.
From S2P Require Import Prelude F64 Backoff.

Module RetrySetting.
Inductive RetrySetting (P : Type) :=
| Inherit
| Disabled
| Policy (policy : P).
Arguments Inherit {P}.
Arguments Disabled {P}.
Arguments Policy {P} policy.
End RetrySetting.
Abbreviation RetrySetting := RetrySetting.RetrySetting.

Definition resolve {P} (setting : RetrySetting P) (default disabled : P) : P :=
  match setting with
  | RetrySetting.Inherit => default
  | RetrySetting.Disabled => disabled
  | RetrySetting.Policy policy => policy
  end.

Module RetryDecision.
Inductive RetryDecision := Default | Retry | Stop.
End RetryDecision.
Abbreviation RetryDecision := RetryDecision.RetryDecision.

#[export] Instance RetryDecision_eq_dec : EqDecision RetryDecision.
Proof. solve_decision. Defined.

Record RetrySchedule := mkRetrySchedule {
  max_attempts : Z;
  backoff : Backoff;
  jitter : Jitter;
}.

Definition no_retry : RetrySchedule :=
  {| max_attempts := 1; backoff := BackoffNone; jitter := JitterNone |}.

Record RetryScheduleBuilder := mkRetryScheduleBuilder {
  b_max_attempts : Z;
  b_backoff : Backoff;
  b_jitter : Jitter;
}.

#[export] Instance RetryScheduleBuilder_settable : Settable RetryScheduleBuilder :=
  fields! mkRetryScheduleBuilder [ b_max_attempts; b_backoff; b_jitter ].

Definition builder : RetryScheduleBuilder :=
  {| b_max_attempts := 1; b_backoff := BackoffNone; b_jitter := JitterNone |}.

Definition set_max_attempts (b : RetryScheduleBuilder) (count : Z) : RetryScheduleBuilder :=
  b <| b_max_attempts := count |>.

Definition set_backoff (b : RetryScheduleBuilder) (v : Backoff) : RetryScheduleBuilder :=
  b <| b_backoff := v |>.

Definition set_jitter (b : RetryScheduleBuilder) (v : Jitter) : RetryScheduleBuilder :=
  b <| b_jitter := v |>.

Section Schedule.
Context {clk : Clock} {libm : Libm}.

Definition delay_for (now : Instant) (s : RetrySchedule) (retry_ordinal : Z) :
    Result Duration RetryConfigError :=
  if (retry_ordinal =? 0) || (max_attempts s <=? retry_ordinal) then
    Err (RetryConfigError_new "retry_ordinal" "must be between one and max_attempts - 1")
  else delay_for_validated now (backoff s) retry_ordinal.

Definition sampled_delay (now : Instant) (s : RetrySchedule) (retry_ordinal : Z) (unit : f64) :
    Result Duration RetryConfigError :=
  let? delay := delay_for now s retry_ordinal in
  jitter_apply now (jitter s) delay unit (backoff s).

Definition build (now : Instant) (b : RetryScheduleBuilder) :
    Result RetrySchedule RetryConfigError :=
  if b_max_attempts b =? 0 then
    Err (RetryConfigError_new "max_attempts" "must be at least one")
  else
    let? _ := backoff_validate now (b_backoff b) (b_max_attempts b) in
    let? _ := jitter_validate now (b_jitter b) (b_backoff b) in
    Ok {| max_attempts := b_max_attempts b; backoff := b_backoff b; jitter := b_jitter b |}.

(** ** Properties *)

(** What the builder establishes: at least one attempt, and one delay per retry
    when the delays are listed. *)
Definition schedule_wf (s : RetrySchedule) : Prop :=
  1 <= max_attempts s <= u32_max /\
  match backoff s with
  | Sequence delays => Z.of_nat (length delays) = max_attempts s - 1
  | _ => True
  end.

Lemma no_retry_wf : schedule_wf no_retry.
Proof. split; simpl; [machine|done]. Qed.

Lemma build_wf now b s :
  in_u32 (b_max_attempts b) -> build now b = Ok s ->
  schedule_wf s /\ max_attempts s = b_max_attempts b /\ backoff s = b_backoff b
  /\ jitter s = b_jitter b.
Proof.
  unfold build, backoff_validate, saturating_sub, schedule_wf. intros Hb H.
  cases; repeat split; try machine; try done.
Qed.

Lemma delay_for_non_exponential now s o :
  schedule_wf s -> is_exponential (backoff s) = false -> 1 <= o < max_attempts s ->
  now + maximum_delay (backoff s) <= instant_max ->
  exists d, delay_for now s o = Ok d /\ d <= maximum_delay (backoff s).
Proof.
  intros [Hwf Hseq] Hne Ho Hclk. unfold delay_for, delay_for_validated.
  rewrite (proj2 (Z.eqb_neq o 0)), (proj2 (Z.leb_gt _ _)) by lia. simpl.
  assert (forall d, d <= maximum_delay (backoff s) ->
          validate_duration now d "backoff.delay" = Ok tt) as Hval.
  { intros d Hd. apply validate_duration_ok. lia. }
  destruct (backoff s) as [|d|ds|] eqn:Hb; simpl in *; [..|done].
  - rewrite Hval by lia. eauto with lia.
  - rewrite Hval by lia. eauto with lia.
  - rewrite (proj2 (Z.leb_le (o - 1) usize_max)) by machine.
    destruct (vec_get_is_Some ds (o - 1)) as [x Hx]; [lia|]. rewrite Hx. simpl.
    destruct (iter_max ds) as [m|] eqn:Hm; [|by destruct ds].
    assert (x <= m) by eauto using iter_max_ge, vec_get_elem.
    rewrite Hval by lia. eauto.
Qed.

Lemma delay_for_out_of_range now s o :
  o = 0 \/ max_attempts s <= o ->
  delay_for now s o =
    Err (RetryConfigError_new "retry_ordinal" "must be between one and max_attempts - 1").
Proof.
  intros Ho. unfold delay_for. case_match eqn:E; [done|]. propify. lia.
Qed.

(** A schedule returned by the builder has a delay, no longer than the longest
    configured one, for exactly the retry ordinals 1 to [max_attempts - 1]; the
    other ordinals are refused.  The clock must still be able to represent the
    longest delay when the schedule is used. *)
Theorem build_delay_domain now0 b s now o :
  in_u32 (b_max_attempts b) -> build now0 b = Ok s -> is_exponential (b_backoff b) = false ->
  now + maximum_delay (b_backoff b) <= instant_max -> 0 <= o ->
  (1 <= o < b_max_attempts b ->
     exists d, delay_for now s o = Ok d /\ d <= maximum_delay (b_backoff b)) /\
  (~ 1 <= o < b_max_attempts b -> is_err (delay_for now s o) = true).
Proof.
  intros Hb H Hne Hclk Ho. destruct (build_wf _ _ _ Hb H) as (Hwf & Hm & Hbo & _).
  rewrite <- Hbo in *. rewrite <- Hm in *. split; intros Hr.
  - by apply delay_for_non_exponential.
  - rewrite delay_for_out_of_range; [done|lia].
Qed.

End Schedule.

(** Four attempts with the delays 1 s, 2 s and 5 s. *)
Definition sample_builder : RetryScheduleBuilder :=
  set_backoff (set_max_attempts builder 4) (Sequence [from_secs 1; from_secs 2; from_secs 5]).

Definition sample_schedule : RetrySchedule :=
  {| max_attempts := 4; backoff := Sequence [from_secs 1; from_secs 2; from_secs 5];
     jitter := JitterNone |}.

Lemma sample_build : build (clk := linux_clock) 0 sample_builder = Ok sample_schedule.
Proof. vm_compute. reflexivity. Qed.

Lemma build_delay_domain_witness :
  (exists d, delay_for (clk := linux_clock) (libm := sample_libm) 7 sample_schedule 3 = Ok d
             /\ d <= from_secs 5) /\
  is_err (delay_for (clk := linux_clock) (libm := sample_libm) 7 sample_schedule 4) = true.
Proof.
  split.
  - apply (build_delay_domain (clk := linux_clock) (libm := sample_libm) 0 sample_builder
             sample_schedule 7 3);
      [vm_compute; split; discriminate|exact sample_build|reflexivity|vm_compute; discriminate
      |discriminate|vm_compute; split; [discriminate|reflexivity]].
  - apply (build_delay_domain (clk := linux_clock) (libm := sample_libm) 0 sample_builder
             sample_schedule 7 4);
      [vm_compute; split; discriminate|exact sample_build|reflexivity|vm_compute; discriminate
      |discriminate|vm_compute; intros [_ H]; discriminate H].
Defined.
