(* ===== verification/RetryState.v ===== *)
(** * The state of one retried operation (libs/retry/src/state.rs, observation.rs)

    [with_seed] takes the seed as an argument; [RetryState::new] calls it with a
    seed drawn from the process's random hasher keys, so every statement
    quantifies over the seed. *)

From Stdlib Require Import SpecFloat.
From S2P Require Import Prelude F64 Backoff RetrySchedule.

(** ** Observations *)

Record RetryContext := mkRetryContext {
  ctx_attempt : Z;
  ctx_elapsed : Duration;
  ctx_remaining : option Duration;
}.

Module RetryStopReason.
Inductive RetryStopReason :=
| Completed | NotRetryable | ClassifierStopped | AttemptsExhausted | Disabled
| UnsafeToReplay | Cancelled | TimedOut | Shutdown | PolicyFailed.
End RetryStopReason.
Abbreviation RetryStopReason := RetryStopReason.RetryStopReason.

#[export] Instance RetryStopReason_eq_dec : EqDecision RetryStopReason.
Proof. solve_decision. Defined.

Record RetryReport := mkRetryReport {
  rep_attempts : Z;
  rep_retry_count : Z;
  rep_transport_sends : Z;
  rep_elapsed : Duration;
  rep_stop_reason : option RetryStopReason;
}.

Module RetryEvent.
Inductive RetryEvent :=
| AttemptStarted (attempt : Z)
| AttemptFinished (attempt : Z) (final_attempt : bool)
| RetryScheduled (attempt : Z) (delay : Duration)
| Completed (report : RetryReport).
End RetryEvent.
Abbreviation RetryEvent := RetryEvent.RetryEvent.

(** ** State *)

Record RetryState := mkRetryState {
  schedule : RetrySchedule;
  attempts : Z;
  transport_sends : Z;
  random : Z;
  pending_delay : option Duration;
  stop_reason : option RetryStopReason;
}.

#[export] Instance RetryState_settable : Settable RetryState :=
  fields! mkRetryState [ schedule; attempts; transport_sends; random; pending_delay; stop_reason ].

Module RetryStateError.
Inductive RetryStateError :=
| Finished
| AttemptsExhausted
| AttemptNotStarted
| TransportCountOverflow
| Schedule (error : RetryConfigError).
End RetryStateError.
Abbreviation RetryStateError := RetryStateError.RetryStateError.

Definition with_seed (sched : RetrySchedule) (seed : Z) : RetryState :=
  {| schedule := sched; attempts := 0; transport_sends := 0; random := seed;
     pending_delay := None; stop_reason := None |}.

Definition begin_attempt (st : RetryState) : RetryState * Result Z RetryStateError :=
  if is_some (stop_reason st) then (st, Err RetryStateError.Finished)
  else if max_attempts (schedule st) <=? attempts st then (st, Err RetryStateError.AttemptsExhausted)
  else
    match checked_add u32_max (attempts st) 1 with
    | None => (st, Err RetryStateError.AttemptsExhausted)
    | Some n => (st <| attempts := n; pending_delay := None |>, Ok n)
    end.

Definition can_retry (st : RetryState) : bool :=
  is_none (stop_reason st) && (0 <? attempts st) && (attempts st <? max_attempts (schedule st)).

(** The output function of SplitMix64 on the advanced stream position. *)
Definition splitmix_output (value : Z) : Z :=
  let value := wrapping_mul 64 (Z.lxor value (Z.shiftr value 30)) 0xBF58476D1CE4E5B9 in
  let value := wrapping_mul 64 (Z.lxor value (Z.shiftr value 27)) 0x94D049BB133111EB in
  Z.lxor value (Z.shiftr value 31).

Definition next_unit (st : RetryState) : RetryState * f64 :=
  let r := wrapping_add 64 (random st) 0x9E3779B97F4A7C15 in
  let value := splitmix_output r in
  (st <| random := r |>,
   f64_div (f64_of_Z (Z.shiftr value 11)) (f64_of_Z 9007199254740992)).

Section State.
Context {clk : Clock} {libm : Libm}.

Definition next_delay (now : Instant) (st : RetryState) :
    RetryState * Result (option Duration) RetryStateError :=
  if attempts st =? 0 then (st, Err RetryStateError.AttemptNotStarted)
  else if negb (can_retry st) then (st, Ok None)
  else
    match pending_delay st with
    | Some delay => (st, Ok (Some delay))
    | None =>
        let '(st, sample) := next_unit st in
        match sampled_delay now (schedule st) (attempts st) sample with
        | Err e => (st, Err (RetryStateError.Schedule e))
        | Ok delay => (st <| pending_delay := Some delay |>, Ok (Some delay))
        end
    end.

Definition record_transport_send (st : RetryState) : RetryState * Result () RetryStateError :=
  if is_some (stop_reason st) then (st, Err RetryStateError.Finished)
  else if attempts st =? 0 then (st, Err RetryStateError.AttemptNotStarted)
  else
    match checked_add u64_max (transport_sends st) 1 with
    | None => (st, Err RetryStateError.TransportCountOverflow)
    | Some n => (st <| transport_sends := n |>, Ok tt)
    end.

Definition finish (st : RetryState) (reason : RetryStopReason) : RetryState * bool :=
  if is_some (stop_reason st) then (st, false)
  else (st <| stop_reason := Some reason; pending_delay := None |>, true).

Definition report (st : RetryState) (elapsed : Duration) : RetryReport :=
  {| rep_attempts := attempts st;
     rep_retry_count := saturating_sub (attempts st) 1;
     rep_transport_sends := transport_sends st;
     rep_elapsed := elapsed;
     rep_stop_reason := stop_reason st |}.

Definition context (st : RetryState) (elapsed : Duration) (remaining : option Duration) :
    RetryContext :=
  {| ctx_attempt := attempts st; ctx_elapsed := elapsed; ctx_remaining := remaining |}.

(** ** Sequences of calls

    An executor drives one state by a sequence of calls; each call carries the
    clock reading it makes. *)

Inductive RetryOp :=
| OpBegin
| OpDelay (now : Instant)
| OpSend
| OpFinish (reason : RetryStopReason).

Inductive RetryOut :=
| OutBegin (r : Result Z RetryStateError)
| OutDelay (r : Result (option Duration) RetryStateError)
| OutSend (r : Result () RetryStateError)
| OutFinish (r : bool).

Definition retry_step (st : RetryState) (op : RetryOp) : RetryState * RetryOut :=
  match op with
  | OpBegin => let '(st, r) := begin_attempt st in (st, OutBegin r)
  | OpDelay now => let '(st, r) := next_delay now st in (st, OutDelay r)
  | OpSend => let '(st, r) := record_transport_send st in (st, OutSend r)
  | OpFinish reason => let '(st, r) := finish st reason in (st, OutFinish r)
  end.

Fixpoint retry_run (st : RetryState) (ops : list RetryOp) : RetryState * list RetryOut :=
  match ops with
  | [] => (st, [])
  | op :: ops =>
      let '(st, out) := retry_step st op in
      let '(st, outs) := retry_run st ops in
      (st, out :: outs)
  end.

(** The attempt numbers handed out, and the finish calls that were accepted. *)
Definition started (outs : list RetryOut) : list Z :=
  omap (fun o => match o with OutBegin (Ok n) => Some n | _ => None end) outs.

Definition sends (outs : list RetryOut) : list () :=
  omap (fun o => match o with OutSend (Ok u) => Some u | _ => None end) outs.

Definition finishes (outs : list RetryOut) : list () :=
  omap (fun o => match o with OutFinish true => Some () | _ => None end) outs.

(** ** Invariant *)

Record state_wf (st : RetryState) : Prop := {
  wf_schedule : schedule_wf (schedule st);
  wf_attempts : 0 <= attempts st <= max_attempts (schedule st);
  wf_sends : 0 <= transport_sends st <= u64_max;
  wf_sends_attempt : 0 < transport_sends st -> 0 < attempts st;
  wf_random : in_u64 (random st);
  wf_pending : is_Some (pending_delay st) -> can_retry st = true;
}.

Lemma with_seed_wf s seed : schedule_wf s -> in_u64 seed -> state_wf (with_seed s seed).
Proof.
  intros Hs Hseed. split; simpl; try done. destruct Hs. machine.
Qed.

Lemma can_retry_true st :
  can_retry st = true <->
  stop_reason st = None /\ 0 < attempts st < max_attempts (schedule st).
Proof.
  unfold can_retry. destruct (stop_reason st); simpl; [naive_solver|].
  rewrite andb_true_iff, !Z.ltb_lt. naive_solver.
Qed.

Lemma wrapping_add_u64 a b : in_u64 (wrapping_add 64 a b).
Proof. unfold wrapping_add. pose proof (Z.mod_pos_bound (a + b) (2 ^ 64)). machine. Qed.

Lemma wrapping_mul_u64 a b : in_u64 (wrapping_mul 64 a b).
Proof. unfold wrapping_mul. pose proof (Z.mod_pos_bound (a * b) (2 ^ 64)). machine. Qed.

Lemma in_u64_log2 a : 0 <= a -> in_u64 a <-> a = 0 \/ Z.log2 a < 64.
Proof.
  intros Ha. destruct (Z.eq_dec a 0) as [->|Hn]; [split; [by left|machine]|].
  unfold in_u64, u64_max. rewrite <- Z.log2_lt_pow2 by lia. lia.
Qed.

Lemma lxor_u64 a b : in_u64 a -> in_u64 b -> in_u64 (Z.lxor a b).
Proof.
  intros Ha Hb. assert (0 <= Z.lxor a b) by (apply Z.lxor_nonneg; machine).
  apply in_u64_log2; [done|].
  apply in_u64_log2 in Ha as Ha'; [|machine]. apply in_u64_log2 in Hb as Hb'; [|machine].
  pose proof (Z.log2_lxor a b ltac:(machine) ltac:(machine)).
  destruct Ha' as [->|]; destruct Hb' as [->|]; rewrite ?Z.lxor_0_l, ?Z.lxor_0_r in *; auto.
  right. lia.
Qed.

Lemma shiftr_u64 a n : 0 <= n -> in_u64 a -> in_u64 (Z.shiftr a n).
Proof.
  intros Hn Ha. rewrite Z.shiftr_div_pow2 by done.
  assert (0 < 2 ^ n) by lia.
  pose proof (Z.div_le_upper_bound a (2 ^ n) u64_max ltac:(lia) ltac:(destruct Ha; nia)).
  split; [apply Z.div_pos; [apply Ha|done]|done].
Qed.

Lemma splitmix_output_u64 v : in_u64 (splitmix_output v).
Proof.
  unfold splitmix_output. apply lxor_u64; [apply wrapping_mul_u64|].
  apply shiftr_u64; [lia|apply wrapping_mul_u64].
Qed.

(** The sampled unit is a finite number of [0, 1) whatever the stream position. *)
Lemma next_unit_range st :
  is_finite (next_unit st).2 = true /\ in_unit_range (next_unit st).2 = true.
Proof.
  unfold next_unit. cbn [snd]. set (v := splitmix_output _).
  assert (in_u64 v) by apply splitmix_output_u64.
  destruct (unit_quotient_range (Z.shiftr v 11)) as (? & ? & ?); [|auto].
  rewrite Z.shiftr_div_pow2 by lia. split; [apply Z.div_pos; machine|].
  apply Z.div_lt_upper_bound; machine.
Qed.

(** ** Effect of each call *)

Lemma begin_attempt_spec st :
  state_wf st ->
  begin_attempt st =
    if is_some (stop_reason st) then (st, Err RetryStateError.Finished)
    else if attempts st <? max_attempts (schedule st)
    then (st <| attempts ::= Z.add 1; pending_delay := None |>, Ok (1 + attempts st))
    else (st, Err RetryStateError.AttemptsExhausted).
Proof.
  intros [[Hs _] Ha _ _ _ _]. unfold begin_attempt. destruct (stop_reason st); [done|]. simpl.
  destruct (Z.leb_spec (max_attempts (schedule st)) (attempts st)).
  - by rewrite (proj2 (Z.ltb_ge _ _)) by done.
  - rewrite (proj2 (Z.ltb_lt _ _)) by done.
    rewrite (proj2 (checked_add_Some u32_max (attempts st) 1 (1 + attempts st))) by machine.
    by destruct st.
Qed.

Lemma retry_step_wf st op :
  state_wf st -> state_wf (retry_step st op).1.
Proof.
  intros Hwf. pose proof Hwf as [Hs Ha Hn Hna Hr Hp]. destruct op as [|now| |reason]; simpl.
  - rewrite begin_attempt_spec by done.
    destruct (stop_reason st) eqn:E; simpl; [done|].
    destruct (Z.ltb_spec (attempts st) (max_attempts (schedule st))); simpl; [|done].
    split; simpl; try done; lia.
  - unfold next_delay. destruct (Z.eqb_spec (attempts st) 0); simpl; [done|].
    destruct (can_retry st) eqn:Hc; simpl; [|done].
    destruct (pending_delay st) eqn:Hd; simpl; [done|].
    pose proof (wrapping_add_u64 (random st) 0x9E3779B97F4A7C15).
    destruct (sampled_delay _ _ _ _); split; simpl; try done.
  - unfold record_transport_send. destruct (stop_reason st) eqn:E; simpl; [done|].
    destruct (Z.eqb_spec (attempts st) 0); simpl; [done|].
    destruct (checked_add _ _ _) eqn:Hc; simpl; [|done]. apply checked_add_Some in Hc as [-> ?].
    split; simpl; try done; lia.
  - unfold finish. destruct (stop_reason st) eqn:E; simpl; [done|].
    split; simpl; try done.
Qed.

Lemma retry_run_wf st ops : state_wf st -> state_wf (retry_run st ops).1.
Proof.
  revert st. induction ops as [|op ops IH]; intros st Hwf; simpl; [done|].
  pose proof (retry_step_wf st op Hwf). destruct (retry_step st op) as [st' out].
  specialize (IH st' H). by destruct (retry_run st' ops).
Qed.

Lemma retry_step_schedule st op : schedule (retry_step st op).1 = schedule st.
Proof.
  destruct op; simpl;
    unfold begin_attempt, next_delay, next_unit, record_transport_send, finish;
    repeat (case_match; simplify_eq/=); done.
Qed.

(** What a run reports agrees with what the state counted. *)
Lemma retry_run_counts st ops st' outs :
  state_wf st -> retry_run st ops = (st', outs) ->
  schedule st' = schedule st /\
  started outs = seqZ (1 + attempts st) (attempts st' - attempts st) /\
  attempts st <= attempts st' /\
  Z.of_nat (length (sends outs)) = transport_sends st' - transport_sends st /\
  Z.of_nat (length (finishes outs)) =
    (if is_some (stop_reason st') then 1 else 0) - (if is_some (stop_reason st) then 1 else 0).
Proof.
  revert st outs. induction ops as [|op ops IH]; intros st outs Hwf; simpl.
  { intros [= <- <-]. simpl. rewrite !Z.sub_diag. repeat split; lia. }
  pose proof (retry_step_wf st op Hwf) as Hwf1. pose proof (retry_step_schedule st op) as Hs1.
  destruct (retry_step st op) as [st1 out] eqn:Hstep.
  destruct (retry_run st1 ops) as [st2 outs2] eqn:Hrun. intros [= <- <-].
  destruct (IH st1 outs2 Hwf1 Hrun) as (Hs & Hst & Hle & Hse & Hfi). simpl in Hs1, Hwf1.
  split; [congruence|]. clear IH Hrun Hs Hs1 Hwf1.
  destruct op as [|now| |reason]; simpl in Hstep.
  - rewrite begin_attempt_spec in Hstep by done.
    destruct (stop_reason st) eqn:E1; simplify_eq/=; [rewrite E1 in *; auto|].
    destruct (attempts st <? max_attempts (schedule st)); simplify_eq/=.
    + rewrite E1 in *. rewrite Hst. repeat split; try lia; try done.
      rewrite (seqZ_cons (1 + attempts st)) by lia. do 2 f_equal; lia.
    + rewrite E1 in *. auto.
  - unfold next_delay, next_unit in Hstep.
    repeat (case_match; simplify_eq/=); auto.
  - unfold record_transport_send in Hstep.
    destruct (stop_reason st) eqn:E1; simplify_eq/=; [rewrite E1 in *; auto|].
    destruct (attempts st =? 0); simplify_eq/=; [rewrite E1 in *; auto|].
    destruct (checked_add _ _ _) eqn:Hc; simplify_eq/=; rewrite E1 in *; [|auto].
    apply checked_add_Some in Hc as [-> ?]. repeat split; auto; lia.
  - unfold finish in Hstep. destruct (stop_reason st) eqn:E1; simplify_eq/=; rewrite ?E1 in *;
      repeat split; auto; lia.
Qed.

(** Once a stop reason is selected every call leaves the state unchanged. *)
Lemma retry_step_stopped st op r :
  stop_reason st = Some r -> (retry_step st op).1 = st.
Proof.
  intros Hr. destruct op; simpl; unfold begin_attempt, next_delay, record_transport_send, finish,
    can_retry; rewrite Hr; simpl; [done| |done|done].
  by destruct (attempts st =? 0).
Qed.

Lemma retry_step_refused st op r :
  stop_reason st = Some r ->
  match (retry_step st op).2 with
  | OutBegin x => x = Err RetryStateError.Finished
  | OutDelay x => x = Ok None \/ x = Err RetryStateError.AttemptNotStarted
  | OutSend x => x = Err RetryStateError.Finished
  | OutFinish x => x = false
  end.
Proof.
  intros Hr. destruct op; simpl; unfold begin_attempt, next_delay, record_transport_send, finish,
    can_retry; rewrite Hr; simpl; [done| |done|done].
  destruct (attempts st =? 0); simpl; auto.
Qed.

Lemma retry_run_stopped st ops r :
  stop_reason st = Some r ->
  (retry_run st ops).1 = st /\
  started (retry_run st ops).2 = [] /\ sends (retry_run st ops).2 = [] /\
  finishes (retry_run st ops).2 = [].
Proof.
  intros Hr. induction ops as [|op ops IH]; simpl; [done|].
  pose proof (retry_step_stopped st op r Hr) as Hst.
  pose proof (retry_step_refused st op r Hr) as Hout.
  destruct (retry_step st op) as [st' out]. simpl in Hst. subst st'.
  destruct (retry_run st ops) as [st' outs]. simpl in *.
  destruct out; naive_solver.
Qed.

Lemma jitter_apply_sample now j d st b e :
  jitter_apply now j d (next_unit st).2 b = Err e -> err_field e = "jitter.delay".
Proof.
  destruct (next_unit_range st) as [Hf Hr]. by apply jitter_apply_error.
Qed.

Lemma jitter_apply_none now d st b : jitter_apply now JitterNone d (next_unit st).2 b = Ok d.
Proof.
  destruct (next_unit_range st) as [Hf Hr]. unfold jitter_apply. by rewrite Hf, Hr.
Qed.

(** A sampled delay stays until the next attempt begins or the operation stops. *)
Definition has_sample (d : Duration) (st : RetryState) : Prop :=
  can_retry st = true /\ attempts st <> 0 /\ pending_delay st = Some d.

Definition keeps_sample (op : RetryOp) : Prop :=
  match op with OpDelay _ | OpSend => True | _ => False end.

Lemma next_delay_pending now st d :
  has_sample d st -> next_delay now st = (st, Ok (Some d)).
Proof.
  intros (Hc & Ha & Hp). unfold next_delay.
  by rewrite (proj2 (Z.eqb_neq _ _) Ha), Hc, Hp.
Qed.

Lemma next_delay_has_sample now st st' d :
  next_delay now st = (st', Ok (Some d)) -> has_sample d st'.
Proof.
  unfold next_delay, has_sample. destruct (Z.eqb_spec (attempts st) 0); [done|].
  destruct (can_retry st) eqn:Hc; [|done]. cbn [negb].
  destruct (pending_delay st) eqn:Hp; [by intros [= <- <-]|].
  cbn [next_unit schedule attempts]. destruct (sampled_delay _ _ _ _); by intros [= <- <-].
Qed.

Lemma retry_run_sampled st ops d :
  has_sample d st -> Forall keeps_sample ops ->
  has_sample d (retry_run st ops).1 /\ random (retry_run st ops).1 = random st.
Proof.
  intros Hs Hops. revert st Hs. induction Hops as [|op ops Hop _ IH]; intros st Hs; simpl; [done|].
  assert (has_sample d (retry_step st op).1 /\ random (retry_step st op).1 = random st) as [Hs' Hr].
  { destruct op; simpl in *; try done.
    - by rewrite (next_delay_pending now st d Hs).
    - unfold record_transport_send. destruct Hs as (Hc & Ha & Hp).
      repeat (case_match; simplify_eq/=); done. }
  destruct (retry_step st op) as [st' out]. specialize (IH st' Hs') as [IH1 IH2].
  destruct (retry_run st' ops). simpl in *. by rewrite IH2.
Qed.

(** ** Main results *)

(** C34.  Whatever an executor does, the attempts it is granted are numbered 1, 2, ...
    without gaps, there are never more than [max_attempts] of them, the reported
    counters are the numbers of granted attempts and recorded sends, and at most
    one stop reason is accepted. *)
Theorem retry_budget_respected s seed ops st outs elapsed :
  schedule_wf s -> in_u64 seed -> retry_run (with_seed s seed) ops = (st, outs) ->
  started outs = seqZ 1 (rep_attempts (report st elapsed)) /\
  Z.of_nat (length (started outs)) <= max_attempts s /\
  rep_retry_count (report st elapsed) = Z.max 0 (Z.of_nat (length (started outs)) - 1) /\
  rep_transport_sends (report st elapsed) = Z.of_nat (length (sends outs)) /\
  (length (finishes outs) <= 1)%nat /\
  (is_some (rep_stop_reason (report st elapsed)) = true <-> length (finishes outs) = 1%nat) /\
  (sends outs <> [] -> started outs <> []).
Proof.
  intros Hs Hseed Hrun. pose proof (with_seed_wf s seed Hs Hseed) as Hwf.
  pose proof (retry_run_wf _ ops Hwf) as Hwf'. rewrite Hrun in Hwf'.
  destruct (retry_run_counts _ _ _ _ Hwf Hrun) as (Hsch & Hst & _ & Hse & Hfi).
  destruct Hwf' as [_ Ha Hn Hna _ _]. simpl in *. rewrite Z.sub_0_r in *.
  rewrite Hsch in Ha. unfold saturating_sub.
  rewrite Hst, length_seqZ. repeat split; try lia.
  - destruct (is_some (stop_reason st)); lia.
  - destruct (is_some (stop_reason st)); [lia|done].
  - destruct (is_some (stop_reason st)); [done|lia].
  - intros Hne. destruct (sends outs); [done|]. simpl in Hse.
    rewrite seqZ_cons by lia. done.
Qed.

(** The first accepted stop reason is final: after it every call is refused and
    changes nothing, so a late cancellation cannot replace an existing result. *)
Theorem first_finish_is_final st reason st' ops :
  finish st reason = (st', true) ->
  (retry_run st' ops).1 = st' /\ stop_reason st' = Some reason /\
  started (retry_run st' ops).2 = [] /\ sends (retry_run st' ops).2 = [] /\
  finishes (retry_run st' ops).2 = [].
Proof.
  unfold finish. destruct (stop_reason st); intros [= <-].
  edestruct (retry_run_stopped) as (? & ? & ? & ?); [|eauto]. done.
Qed.

(** Reading the next delay again, after any number of reads and transport sends
    and at any later time, returns the delay that was sampled first. *)
Theorem next_delay_sampled_once st now d st1 ops now' :
  next_delay now st = (st1, Ok (Some d)) ->
  Forall keeps_sample ops ->
  let st2 := (retry_run st1 ops).1 in
  next_delay now' st2 = (st2, Ok (Some d)) /\ random st2 = random st1.
Proof.
  intros Hd Hops.
  destruct (retry_run_sampled st1 ops d) as [Hs Hr];
    [|done|split; [by apply next_delay_pending|done]].
  by eapply next_delay_has_sample.
Qed.

(** With a schedule the builder accepted, a running operation that may retry gets
    a delay; the only possible failure is a jittered delay the clock cannot
    represent, and without jitter the delay is exactly the configured one. *)
Theorem next_delay_defined st now :
  state_wf st -> can_retry st = true -> pending_delay st = None ->
  is_exponential (backoff (schedule st)) = false ->
  now + maximum_delay (backoff (schedule st)) <= instant_max ->
  match (next_delay now st).2 with
  | Ok (Some d) =>
      jitter (schedule st) = JitterNone -> delay_for now (schedule st) (attempts st) = Ok d
  | Err (RetryStateError.Schedule e) => jitter (schedule st) <> JitterNone /\ err_field e = "jitter.delay"
  | _ => False
  end.
Proof.
  intros Hwf Hc Hp Hne Hclk. apply can_retry_true in Hc as Hc'. destruct Hc' as [_ Ha].
  destruct (delay_for_non_exponential now (schedule st) (attempts st)) as (d & Hd & _);
    [apply Hwf|done|lia|done|].
  unfold next_delay. rewrite (proj2 (Z.eqb_neq _ 0)), Hc, Hp by lia. cbn [negb].
  rewrite (surjective_pairing (next_unit st)).
  change (schedule (next_unit st).1) with (schedule st).
  change (attempts (next_unit st).1) with (attempts st).
  unfold sampled_delay. rewrite Hd.
  destruct (jitter_apply _ _ _ _ _) as [d'|e] eqn:Hj; simpl.
  - intros Hn. rewrite Hn, jitter_apply_none in Hj. congruence.
  - split; [|by eapply jitter_apply_sample].
    intros Hn. by rewrite Hn, jitter_apply_none in Hj.
Qed.

End State.

(** ** Concrete instances *)

Definition sample_ops : list RetryOp :=
  [OpBegin; OpSend; OpDelay 10; OpDelay 20; OpBegin; OpSend;
   OpFinish RetryStopReason.Completed; OpFinish RetryStopReason.Cancelled; OpBegin].

Definition sample_run : RetryState * list RetryOut :=
  retry_run (clk := linux_clock) (libm := sample_libm) (with_seed sample_schedule 42) sample_ops.

Lemma sample_schedule_wf : schedule_wf sample_schedule.
Proof. split; [vm_compute; split; discriminate|reflexivity]. Qed.

Lemma seed_in_range : in_u64 42.
Proof. machine. Qed.

Lemma retry_budget_respected_witness :
  started sample_run.2 = [1; 2] /\ rep_transport_sends (report sample_run.1 9) = 2 /\
  started sample_run.2 = seqZ 1 (rep_attempts (report sample_run.1 9)).
Proof.
  split; [vm_compute; reflexivity|]. split; [vm_compute; reflexivity|].
  apply (retry_budget_respected (clk := linux_clock) (libm := sample_libm)
           sample_schedule 42 sample_ops sample_run.1 sample_run.2 9 sample_schedule_wf seed_in_range).
  apply surjective_pairing.
Defined.

Definition stopped_state : RetryState :=
  (finish (with_seed sample_schedule 42) RetryStopReason.TimedOut).1.

Lemma first_finish_is_final_witness :
  stop_reason stopped_state = Some RetryStopReason.TimedOut /\
  started (retry_run (clk := linux_clock) (libm := sample_libm) stopped_state sample_ops).2 = [].
Proof.
  destruct (first_finish_is_final (clk := linux_clock) (libm := sample_libm)
    (with_seed sample_schedule 42) RetryStopReason.TimedOut stopped_state sample_ops
    eq_refl) as (_ & Hs & Hb & _).
  exact (conj Hs Hb).
Defined.

Definition running_state : RetryState := (begin_attempt (with_seed sample_schedule 42)).1.

Definition sampled_state : RetryState :=
  (next_delay (clk := linux_clock) (libm := sample_libm) 10 running_state).1.

Lemma next_delay_sampled_once_witness :
  let st2 := (retry_run (clk := linux_clock) (libm := sample_libm) sampled_state
                [OpDelay 20; OpSend; OpDelay 30]).1 in
  next_delay (clk := linux_clock) (libm := sample_libm) 40 st2 = (st2, Ok (Some (from_secs 1))).
Proof.
  apply (next_delay_sampled_once (clk := linux_clock) (libm := sample_libm) running_state 10
           (from_secs 1) sampled_state [OpDelay 20; OpSend; OpDelay 30] 40).
  - vm_compute. reflexivity.
  - repeat constructor.
Defined.

Lemma running_state_wf : state_wf running_state.
Proof.
  assert (state_wf (with_seed sample_schedule 42)) as Hw
    by (apply with_seed_wf; [exact sample_schedule_wf|exact seed_in_range]).
  exact (retry_step_wf (clk := linux_clock) (libm := sample_libm) _ OpBegin Hw).
Qed.

Lemma next_delay_defined_witness :
  (next_delay (clk := linux_clock) (libm := sample_libm) 10 running_state).2 = Ok (Some (from_secs 1)) /\
  match (next_delay (clk := linux_clock) (libm := sample_libm) 10 running_state).2 with
  | Ok (Some d) => jitter (schedule running_state) = JitterNone ->
      delay_for (clk := linux_clock) (libm := sample_libm) 10 (schedule running_state)
        (attempts running_state) = Ok d
  | Err (RetryStateError.Schedule e) =>
      jitter (schedule running_state) <> JitterNone /\ err_field e = "jitter.delay"
  | _ => False
  end.
Proof.
  split; [vm_compute; reflexivity|].
  apply (next_delay_defined (clk := linux_clock) (libm := sample_libm) running_state 10
           running_state_wf); vm_compute; (reflexivity || discriminate).
Defined.
