(* ===== verification/Errors.v ===== *)
(** * Structured failures (src/api/error/mod.rs)

    A [NetError] carries a classification, a context and the retained source.  A
    source is any error value; [ErrorSource] has one constructor per kind of
    source the modelled code creates or inspects, [OtherError] standing for an
    error of the application or of another library.  The quality report reference
    is never inspected by the modelled code and is left out. *)

From S2P Require Import Prelude F64 Backoff RetrySchedule RetryState.

Module ErrorKind.
Inductive ErrorKind :=
| InvalidInput | InvalidConfig | Io | Dns | Tls | Protocol | HandshakeRejected
| ProviderFailed | CallbackPanicked | RuntimeUnavailable | ResourceExhausted
| QueueFull | QueueClosed | ItemTooLarge | PendingLimitReached
| SubscriptionLimitReached | CallbackOverflow | ControlOverflow | ObservationLagged
| NotConnected | NotRunning | Unsupported | SessionAlreadyExists | ConnectionClosing
| Closed | EngineDropped | Cancelled | TimedOut | DeadlineExceeded | DeliveryUnknown
| RetryExhausted | InvalidPolicy | BodyNotReplayable | DuplicateRequestId
| RoutingDisabled | RoutingModeMismatch | ClientAlreadyExists | ClientNotFound
| Internal | HttpStatus.
End ErrorKind.
Abbreviation ErrorKind := ErrorKind.ErrorKind.

#[export] Instance ErrorKind_eq_dec : EqDecision ErrorKind.
Proof. solve_decision. Defined.

Module ErrorStage.
Inductive ErrorStage :=
| Configuration | Provider | RequestBuild | Dns | Tcp | Proxy | ProxyTls | Tls | Upgrade
| Admission | Queue | Write | Response | Receive | Heartbeat | Close | Dispatch
| NetworkMonitor | Runtime.
End ErrorStage.
Abbreviation ErrorStage := ErrorStage.ErrorStage.

#[export] Instance ErrorStage_eq_dec : EqDecision ErrorStage.
Proof. solve_decision. Defined.

(** The budget of a WebSocket operation that expired (src/api/ws/retry.rs). *)
Module WsTimeoutPhase.
Inductive WsTimeoutPhase := Admission | Write | Response | Attempt | Total.
End WsTimeoutPhase.
Abbreviation WsTimeoutPhase := WsTimeoutPhase.WsTimeoutPhase.

#[export] Instance WsTimeoutPhase_eq_dec : EqDecision WsTimeoutPhase.
Proof. solve_decision. Defined.

(** The budget of an HTTP operation that expired (src/api/http/http_timeouts.rs). *)
Module TimeoutPhase.
Inductive TimeoutPhase := Admission | Connect | Headers | IdleRead | Attempt | Total.
End TimeoutPhase.
Abbreviation TimeoutPhase := TimeoutPhase.TimeoutPhase.

#[export] Instance TimeoutPhase_eq_dec : EqDecision TimeoutPhase.
Proof. solve_decision. Defined.

(** Identifiers: 64-bit counters and request names. *)
Abbreviation ClientId := Z (only parsing).
Abbreviation SessionId := Z (only parsing).
Abbreviation ConnectionId := Z (only parsing).
Abbreviation AttemptId := Z (only parsing).
Abbreviation RequestId := string (only parsing).

(** ** Diagnostics of handshakes and ended connections
    (src/api/ws/handshake_diagnostic.rs, close.rs) *)

(** The classification of an operating-system error ([std::io::ErrorKind]). *)
Abbreviation IoKind := positive (only parsing).

Module HandshakeDiagnosticKind.
Inductive HandshakeDiagnosticKind :=
| HttpRejected | Io (kind : IoKind) | TlsCertificate | TlsProtocol | Protocol | Timeout | Dns | Local | Other.
End HandshakeDiagnosticKind.
Abbreviation HandshakeDiagnosticKind := HandshakeDiagnosticKind.HandshakeDiagnosticKind.

Module HandshakeBodyCaptureState.
Inductive HandshakeBodyCaptureState :=
| Omitted | Unavailable | Incomplete | Unsupported | TooLarge | Unrecognized | Captured.
End HandshakeBodyCaptureState.
Abbreviation HandshakeBodyCaptureState := HandshakeBodyCaptureState.HandshakeBodyCaptureState.

Record HandshakeDiagnostic := mkHandshakeDiagnostic {
  diag_kind : HandshakeDiagnosticKind;
  diag_headers : list (string * string);
  body_summary : option string;
  body_capture_state : HandshakeBodyCaptureState;
}.

Record PeerClose := mkPeerClose { peer_code : option Z; peer_reason : string }.

Module IoEndKind.
Inductive IoEndKind := PeerClose | UnexpectedEof | ConnectionReset | ProtocolError | Other.
End IoEndKind.
Abbreviation IoEndKind := IoEndKind.IoEndKind.

Record ErrorContext := mkErrorContext {
  stage : option ErrorStage;
  client_id : option ClientId;
  session_id : option SessionId;
  connection_id : option ConnectionId;
  attempt_id : option AttemptId;
  request_id : option RequestId;
  ws_timeout_phase : option WsTimeoutPhase;
  http_status : option Z;
  http_request_id : option Z;
  http_timeout_phase : option TimeoutPhase;
  http_attempt : option Z;
  diagnostic : option HandshakeDiagnostic;
  peer_close : option PeerClose;
  io_end : option IoEndKind;
}.

#[export] Instance ErrorContext_settable : Settable ErrorContext :=
  fields! mkErrorContext [ stage; client_id; session_id; connection_id; attempt_id; request_id;
    ws_timeout_phase; http_status; http_request_id; http_timeout_phase; http_attempt;
    diagnostic; peer_close; io_end ].

Definition ErrorContext_default : ErrorContext :=
  mkErrorContext None None None None None None None None None None None None None None.

(** ** Evidence of HTTP failures (src/api/http/retry.rs, redirect.rs, http_response.rs) *)

(** A status code of the [http] crate. *)
Abbreviation StatusCode := Z (only parsing).

(** A header value with its [is_sensitive] mark, and a header map as its entries in order; names are
    lower case, as the [http] crate normalizes them. *)
Record HeaderValue := mkHeaderValue { hv_text : string; hv_sensitive : bool }.

Abbreviation HeaderMap := (list (string * HeaderValue)) (only parsing).

Record HttpResponseHead := mkHttpResponseHead { head_status : StatusCode; head_headers : HeaderMap }.

Module TransportErrorKind.
Inductive TransportErrorKind :=
| Dns | Connect | Tls | TimeoutBeforeSend | Write | ReadReset | BodyRead | Protocol | DeliveryUnknown.
End TransportErrorKind.
Abbreviation TransportErrorKind := TransportErrorKind.TransportErrorKind.

#[export] Instance TransportErrorKind_eq_dec : EqDecision TransportErrorKind.
Proof. solve_decision. Defined.

Module RetryReason.
Inductive RetryReason :=
| HttpStatus (status : StatusCode) | Transport (kind : TransportErrorKind) | BodyRead | Application | RetryAfter.
End RetryReason.
Abbreviation RetryReason := RetryReason.RetryReason.

#[export] Instance RetryReason_eq_dec : EqDecision RetryReason.
Proof. solve_decision. Defined.

Module HttpRedirectError.
Inductive HttpRedirectError := InsecureTarget | OriginNotAllowed | TooManyRedirects | InvalidLocation.
End HttpRedirectError.
Abbreviation HttpRedirectError := HttpRedirectError.HttpRedirectError.

#[export] Instance HttpRedirectError_eq_dec : EqDecision HttpRedirectError.
Proof. solve_decision. Defined.

Record ConfigError := mkConfigError { config_field : string; config_reason : string }.

Definition ConfigError_new (field reason : string) : ConfigError :=
  {| config_field := field; config_reason := reason |}.

Inductive ErrorSource :=
| NetSource (kind : ErrorKind) (context : ErrorContext) (config_error : option ConfigError)
    (source : option ErrorSource) (retry_report : option RetryReport)
| RetryStateSource (error : RetryStateError)
| RetryConfigSource (error : RetryConfigError)
| ConfigSource (error : ConfigError)
| IoSource (io : IoKind) (source : option ErrorSource)
| BudgetExpired (deadline : Instant) (phase : TimeoutPhase)
| RedirectSource (error : HttpRedirectError)
| ClassifiedHttpFailure (original : ErrorSource) (reason : RetryReason)
| OtherError (identity : positive) (source : option ErrorSource).

Record NetError := mkNetError {
  kind : ErrorKind;
  econtext : ErrorContext;
  config_error : option ConfigError;
  source : option ErrorSource;
  retry_report : option RetryReport;
  http_response_head : option HttpResponseHead;
}.

#[export] Instance NetError_settable : Settable NetError :=
  fields! mkNetError [ kind; econtext; config_error; source; retry_report; http_response_head ].

(** A [NetError] seen as the source of another one. *)
Definition net_source (e : NetError) : ErrorSource :=
  NetSource (kind e) (econtext e) (config_error e) (source e) (retry_report e).

(** [Error::source] of each kind of source. *)
Definition source_of (s : ErrorSource) : option ErrorSource :=
  match s with
  | NetSource _ _ _ source _ => source
  | RetryStateSource (RetryStateError.Schedule error) => Some (RetryConfigSource error)
  | RetryStateSource _ => None
  | RetryConfigSource _ => None
  | ConfigSource _ => None
  | IoSource _ source => source
  | BudgetExpired _ _ => None
  | RedirectSource _ => None
  | ClassifiedHttpFailure original _ => Some original
  | OtherError _ source => source
  end.

Definition NetError_new (k : ErrorKind) : NetError :=
  {| kind := k; econtext := ErrorContext_default; config_error := None; source := None;
     retry_report := None; http_response_head := None |}.

Definition with_source (k : ErrorKind) (s : ErrorSource) : NetError :=
  (NetError_new k) <| source := Some s |>.

Definition with_context (e : NetError) (context : ErrorContext) : NetError :=
  e <| econtext := context |>.

Definition with_stage (e : NetError) (s : ErrorStage) : NetError :=
  e <| econtext ::= fun c => c <| stage := Some s |> |>.

Definition with_http_attempt (e : NetError) (attempt : Z) : NetError :=
  e <| econtext ::= fun c => c <| http_attempt := Some attempt |> |>.

Definition with_http_request_id (e : NetError) (id : Z) : NetError :=
  e <| econtext ::= fun c => c <| http_request_id := Some id |> |>.

Definition with_http_response_head (e : NetError) (head : HttpResponseHead) : NetError :=
  e <| econtext ::= (fun c => c <| http_status := Some (head_status head) |>); http_response_head := Some head |>.

Definition with_timeout_phase (e : NetError) (phase : TimeoutPhase) : NetError :=
  e <| econtext ::= fun c => c <| http_timeout_phase := Some phase |> |>.

Definition with_ws_timeout_phase (e : NetError) (phase : WsTimeoutPhase) : NetError :=
  e <| econtext ::= fun c => c <| ws_timeout_phase := Some phase |> |>.

Definition with_retry_report (e : NetError) (report : RetryReport) : NetError :=
  e <| retry_report := Some report |>.

Definition from_http_status (status : Z) : NetError :=
  with_context (NetError_new ErrorKind.HttpStatus)
    (ErrorContext_default <| http_status := Some status |>).

Definition from_config_error (value : ConfigError) : NetError :=
  (with_stage (NetError_new ErrorKind.InvalidConfig) ErrorStage.Configuration)
    <| config_error := Some value; source := Some (ConfigSource value) |>.

Definition NetError_config (field reason : string) : NetError :=
  from_config_error (ConfigError_new field reason).

Definition NetError_input (field reason : string) : NetError :=
  (with_stage (NetError_new ErrorKind.InvalidInput) ErrorStage.RequestBuild)
    <| config_error := Some (ConfigError_new field reason) |>.

Definition from_retry_config_error (error : RetryConfigError) : NetError :=
  (with_stage (with_source ErrorKind.InvalidConfig (RetryConfigSource error))
              ErrorStage.Configuration)
    <| config_error := Some (ConfigError_new (err_field error) (err_reason error)) |>.

(** [NetError::io_kind]: at most 64 sources are inspected. *)
Fixpoint io_kind_loop (hops : nat) (current : option ErrorSource) : option IoKind :=
  match hops with
  | O => None
  | S hops =>
      match current with
      | None => None
      | Some (IoSource io _) => Some io
      | Some error => io_kind_loop hops (source_of error)
      end
  end.

Definition io_kind (e : NetError) : option IoKind := io_kind_loop 64 (source e).
