(* ===== verification/WsRetry.v ===== *)
(** * Replay permissions and retry classification of WebSocket sends
      (src/api/ws/retry.rs)

    A classifier is caller code: a function from the error and the timing context
    to a decision, or to nothing when it unwinds.  An observer is caller code that
    cannot influence the operation; it is kept as its identity. *)

From S2P Require Import Prelude F64 Backoff RetrySchedule RetryState Errors.

Module WsReplaySafety.
Inductive WsReplaySafety := Never | IdempotentByContract | IdempotencyKey.
End WsReplaySafety.
Abbreviation WsReplaySafety := WsReplaySafety.WsReplaySafety.

#[export] Instance WsReplaySafety_eq_dec : EqDecision WsReplaySafety.
Proof. solve_decision. Defined.

(** ** Timeout identity and terminal errors *)

(** The phase one [NetError] of the chain names. *)
Definition hop_phase (k : ErrorKind) (c : ErrorContext) : option WsTimeoutPhase :=
  match ws_timeout_phase c with
  | Some phase => Some phase
  | None =>
      if decide (k = ErrorKind.TimedOut) then
        match stage c with
        | Some ErrorStage.Write => Some WsTimeoutPhase.Write
        | Some ErrorStage.Response => Some WsTimeoutPhase.Response
        | Some ErrorStage.Admission => Some WsTimeoutPhase.Admission
        | _ => None
        end
      else None
  end.

Fixpoint timeout_phase_loop (hops : nat) (current : option ErrorSource) :
    option WsTimeoutPhase :=
  match hops with
  | O => None
  | S hops =>
      match current with
      | None => None
      | Some s =>
          match (match s with NetSource k c _ _ _ => hop_phase k c | _ => None end) with
          | Some phase => Some phase
          | None => timeout_phase_loop hops (source_of s)
          end
      end
  end.

Definition timeout_phase (error : NetError) : option WsTimeoutPhase :=
  timeout_phase_loop 32 (Some (net_source error)).

Definition terminal_kind (k : ErrorKind) : bool :=
  match k with
  | ErrorKind.Cancelled | ErrorKind.Closed | ErrorKind.EngineDropped
  | ErrorKind.InvalidConfig | ErrorKind.InvalidInput | ErrorKind.InvalidPolicy
  | ErrorKind.CallbackPanicked | ErrorKind.RuntimeUnavailable | ErrorKind.Internal => true
  | _ => false
  end.

Definition terminal_error (error : NetError) : bool :=
  match timeout_phase error with
  | Some (WsTimeoutPhase.Admission | WsTimeoutPhase.Total) => true
  | _ => false
  end
  || terminal_kind (kind error)
  || match stage (econtext error) with
     | Some (ErrorStage.RequestBuild | ErrorStage.Configuration) => true
     | _ => false
     end
  || bool_decide (stage (econtext error) = Some ErrorStage.Admission)
     && negb (bool_decide (timeout_phase error = Some WsTimeoutPhase.Attempt)).

(** ** Selected error categories *)

Record WsSendRetryOn := mkWsSendRetryOn {
  errors : list ErrorKind;
  write_timeout : bool;
}.

#[export] Instance WsSendRetryOn_settable : Settable WsSendRetryOn :=
  fields! mkWsSendRetryOn [ errors; write_timeout ].

Definition send_retry_none : WsSendRetryOn := {| errors := []; write_timeout := false |}.

Definition with_write_errors (on : WsSendRetryOn) (enabled : bool) : WsSendRetryOn :=
  on <| errors := if enabled
                  then [ErrorKind.Io; ErrorKind.DeliveryUnknown; ErrorKind.NotConnected]
                  else [] |>.

Definition with_errors (on : WsSendRetryOn) (es : list ErrorKind) : WsSendRetryOn :=
  on <| errors := es |>.

Definition with_write_timeout (on : WsSendRetryOn) (enabled : bool) : WsSendRetryOn :=
  on <| write_timeout := enabled |>.

Definition send_allows (on : WsSendRetryOn) (error : NetError) : bool :=
  if terminal_error error then false
  else
    match timeout_phase error with
    | Some WsTimeoutPhase.Write => write_timeout on
    | Some _ => false
    | None => bool_decide (kind error ∈ errors on)
    end.

Record WsRequestRetryOn := mkWsRequestRetryOn {
  write : WsSendRetryOn;
  response_timeout : bool;
  attempt_timeout : bool;
}.

#[export] Instance WsRequestRetryOn_settable : Settable WsRequestRetryOn :=
  fields! mkWsRequestRetryOn [ write; response_timeout; attempt_timeout ].

Definition request_retry_none : WsRequestRetryOn :=
  {| write := send_retry_none; response_timeout := false; attempt_timeout := false |}.

Definition request_allows (on : WsRequestRetryOn) (error : NetError) : bool :=
  if terminal_error error then false
  else
    match timeout_phase error with
    | Some WsTimeoutPhase.Attempt => attempt_timeout on
    | Some WsTimeoutPhase.Response => response_timeout on
    | Some (WsTimeoutPhase.Admission | WsTimeoutPhase.Total) => false
    | _ => send_allows (write on) error
    end.

(** ** Policies *)

Abbreviation ObserverId := positive (only parsing).

Record WsSendRetryPolicy := mkWsSendRetryPolicy {
  policy_schedule : RetrySchedule;
  retry_on : WsSendRetryOn;
  safety : WsReplaySafety;
  classifier : option (NetError -> RetryContext -> option RetryDecision);
  observer : option ObserverId;
}.

Definition send_policy_no_retry : WsSendRetryPolicy :=
  {| policy_schedule := no_retry; retry_on := send_retry_none; safety := WsReplaySafety.Never;
     classifier := None; observer := None |}.

Definition allows_replay (p : WsSendRetryPolicy) : bool :=
  negb (bool_decide (safety p = WsReplaySafety.Never)).

Definition should_retry_error (p : WsSendRetryPolicy) (error : NetError) : bool :=
  send_allows (retry_on p) error.

(** A callback that unwinds becomes an error of its own. *)
Definition isolate_classifier {T} (result : option T) : Result T NetError :=
  match result with
  | Some value => Ok value
  | None => Err (with_stage (NetError_new ErrorKind.CallbackPanicked) ErrorStage.Provider)
  end.

Definition classify (p : WsSendRetryPolicy) (error : NetError) (retry : RetryContext) :
    Result RetryDecision NetError :=
  match classifier p with
  | None => Ok RetryDecision.Default
  | Some f => isolate_classifier (f error retry)
  end.

(** ** Properties *)

#[global] Arguments timeout_phase : simpl never.
#[global] Opaque timeout_phase_loop.

Lemma timeout_phase_loop_first n k c config src rep p :
  hop_phase k c = Some p ->
  timeout_phase_loop (S n) (Some (NetSource k c config src rep)) = Some p.
Proof. Transparent timeout_phase_loop. simpl. by intros ->. Opaque timeout_phase_loop. Qed.

Lemma timeout_phase_first e p :
  hop_phase (kind e) (econtext e) = Some p -> timeout_phase e = Some p.
Proof. apply timeout_phase_loop_first. Qed.

Lemma send_allows_not_terminal on e : send_allows on e = true -> terminal_error e = false.
Proof. unfold send_allows. by destruct (terminal_error e). Qed.

Lemma request_allows_not_terminal on e : request_allows on e = true -> terminal_error e = false.
Proof. unfold request_allows. by destruct (terminal_error e). Qed.

(** A failure of an expired enclosing budget, of a cancelled, closed or
    misconfigured operation is never retried, whatever the caller selected. *)
Lemma terminal_error_cases e :
  terminal_error e = false ->
  terminal_kind (kind e) = false /\
  timeout_phase e <> Some WsTimeoutPhase.Admission /\
  timeout_phase e <> Some WsTimeoutPhase.Total /\
  stage (econtext e) <> Some ErrorStage.RequestBuild /\
  stage (econtext e) <> Some ErrorStage.Configuration /\
  (stage (econtext e) = Some ErrorStage.Admission ->
   timeout_phase e = Some WsTimeoutPhase.Attempt).
Proof.
  unfold terminal_error. intros H.
  apply orb_false_iff in H as [H H4]. apply orb_false_iff in H as [H H3].
  apply orb_false_iff in H as [H1 H2].
  repeat split; try done.
  - intros Ht. by rewrite Ht in H1.
  - intros Ht. by rewrite Ht in H1.
  - intros Ht. by rewrite Ht in H3.
  - intros Ht. by rewrite Ht in H3.
  - intros Ht. rewrite Ht in H4. simpl in H4. propify. done.
Qed.

(** Wrapping a failure keeps the identity of the expired budget when the wrapper
    keeps the context, as the DeliveryUnknown wrapper does. *)
Lemma timeout_phase_wrapped e k p :
  ws_timeout_phase (econtext e) = Some p ->
  timeout_phase e = Some p /\
  timeout_phase (with_context (with_source k (net_source e)) (econtext e)) = Some p.
Proof.
  intros Hp. split; apply timeout_phase_first; unfold hop_phase; simpl; by rewrite Hp.
Qed.
