(* ===== verification/WsOptions.v ===== *)
(** * Send options, operation snapshots and timeout budgets
      (src/api/ws/options.rs, operation.rs, task.rs, value_limits.rs,
       src/module/ws_client/timeout_budget.rs)

    [Metadata] is a map ordered by key; it is the list of its entries in key
    order, the order in which the code iterates it.  A cancellation group is the
    identity of its node (Cancellation.v). *)

From S2P Require Import Prelude F64 Backoff RetrySchedule RetryState Errors WsRetry.

Module MessageLane.
Inductive MessageLane := Normal | Urgent.
End MessageLane.
Abbreviation MessageLane := MessageLane.MessageLane.

Module Priority.
Inductive Priority := Low | Normal | High.
End Priority.
Abbreviation Priority := Priority.Priority.

Module DisconnectedPolicy.
Inductive DisconnectedPolicy := Reject | WaitForReconnect.
End DisconnectedPolicy.
Abbreviation DisconnectedPolicy := DisconnectedPolicy.DisconnectedPolicy.

Module ResponseTimeoutOrigin.
Inductive ResponseTimeoutOrigin := Registered | Written.
End ResponseTimeoutOrigin.
Abbreviation ResponseTimeoutOrigin := ResponseTimeoutOrigin.ResponseTimeoutOrigin.

#[export] Instance MessageLane_eq_dec : EqDecision MessageLane.
Proof. solve_decision. Defined.
#[export] Instance Priority_eq_dec : EqDecision Priority.
Proof. solve_decision. Defined.
#[export] Instance DisconnectedPolicy_eq_dec : EqDecision DisconnectedPolicy.
Proof. solve_decision. Defined.
#[export] Instance ResponseTimeoutOrigin_eq_dec : EqDecision ResponseTimeoutOrigin.
Proof. solve_decision. Defined.

Abbreviation Metadata := (list (string * string)) (only parsing).
Abbreviation GroupId := positive (only parsing).

Record SendOptions := mkSendOptions {
  lane : MessageLane;
  priority : Priority;
  enqueue_timeout : option Duration;
  opt_write_timeout : Duration;
  opt_deadline : option Instant;
  retry_setting : RetrySetting WsSendRetryPolicy;
  disconnected : DisconnectedPolicy;
  cancellation : option GroupId;
  metadata : Metadata;
}.

#[export] Instance SendOptions_settable : Settable SendOptions :=
  fields! mkSendOptions [ lane; priority; enqueue_timeout; opt_write_timeout; opt_deadline;
    retry_setting; disconnected; cancellation; metadata ].

Definition SendOptions_default : SendOptions :=
  {| lane := MessageLane.Normal; priority := Priority.Normal; enqueue_timeout := None;
     opt_write_timeout := from_secs 10; opt_deadline := None;
     retry_setting := RetrySetting.Inherit; disconnected := DisconnectedPolicy.Reject;
     cancellation := None; metadata := [] |}.

Record RequestOptions := mkRequestOptions {
  send : SendOptions;
  req_response_timeout : Duration;
  response_timeout_origin : ResponseTimeoutOrigin;
  registration_deadline : option Instant;
}.

Definition RequestOptions_default : RequestOptions :=
  {| send := SendOptions_default; req_response_timeout := from_secs 30;
     response_timeout_origin := ResponseTimeoutOrigin.Written; registration_deadline := None |}.

(** ** Value limits *)

Definition MAX_METADATA_BYTES : Z := 16 * 1024.
Definition MAX_CREDENTIAL_VERSION_BYTES : Z := 256.

Definition metadata_error : NetError :=
  NetError_config "metadata" "keys and values must total at most 16384 UTF-8 bytes".

Fixpoint validate_metadata_lengths (total : Z) (lengths : list (Z * Z)) : Result () NetError :=
  match lengths with
  | [] => Ok tt
  | (key_bytes, value_bytes) :: rest =>
      match (checked_add usize_max key_bytes value_bytes ≫= fun entry_bytes =>
             checked_add usize_max total entry_bytes ≫= fun total =>
             if total <=? MAX_METADATA_BYTES then Some total else None) with
      | Some total => validate_metadata_lengths total rest
      | None => Err metadata_error
      end
  end.

Definition byte_len (s : string) : Z := Z.of_nat (String.length s).

Definition validate_metadata (m : Metadata) : Result () NetError :=
  validate_metadata_lengths 0 (map (fun '(k, v) => (byte_len k, byte_len v)) m).

Definition validate_credential_version (version : string) : Result () NetError :=
  if MAX_CREDENTIAL_VERSION_BYTES <? byte_len version then
    Err (NetError_config "credential_version" "must contain at most 256 UTF-8 bytes")
  else Ok tt.

Section Options.
Context {clk : Clock}.

(** [config::deadline] *)
Definition config_deadline (now : Instant) (value : Duration) (field : string)
    (allow_zero : bool) : Result () NetError :=
  let? _ := (if negb allow_zero then
               (if value =? 0 then Err (NetError_config field "must be greater than zero") else Ok tt)
             else Ok tt) in
  match instant_checked_add now value with
  | None => Err (NetError_config field "must fit a monotonic Instant deadline")
  | Some _ => Ok tt
  end.

Definition send_validate (now : Instant) (o : SendOptions) : Result () NetError :=
  if bool_decide (lane o = MessageLane.Urgent) && negb (bool_decide (priority o = Priority.Normal))
  then Err (NetError_config "priority" "must be Normal for the Urgent lane")
  else
    let? _ := match enqueue_timeout o with
              | Some timeout => config_deadline now timeout "enqueue_timeout" true
              | None => Ok tt
              end in
    let? _ := config_deadline now (opt_write_timeout o) "write_timeout" true in
    validate_metadata (metadata o).

Definition request_validate (now : Instant) (o : RequestOptions) : Result () NetError :=
  if negb (bool_decide (lane (send o) = MessageLane.Normal)) then
    Err (NetError_config "send.lane" "tracked requests require the Normal lane")
  else
    let? _ := map_err (fun error =>
                match config_error error with
                | Some detail =>
                    NetError_config ("send." +:+ config_field detail) (config_reason detail)
                | None => error
                end) (send_validate now (send o)) in
    config_deadline now (req_response_timeout o) "response_timeout" true.

End Options.

(** ** Operation snapshots *)

Module OperationPhase.
Inductive OperationPhase :=
| WaitingForCapacity | Prepared | Queued | Writing | AwaitingResponse | Finished.
End OperationPhase.
Abbreviation OperationPhase := OperationPhase.OperationPhase.

Module DeliveryEvidence.
Inductive DeliveryEvidence := NotStarted | Unknown | Written | ResponseConfirmed.
End DeliveryEvidence.
Abbreviation DeliveryEvidence := DeliveryEvidence.DeliveryEvidence.

Module TaskSuccess.
Inductive TaskSuccess := Written | ResponseReceived.
End TaskSuccess.
Abbreviation TaskSuccess := TaskSuccess.TaskSuccess.

Module TerminationOutcome.
Inductive TerminationOutcome :=
| TerminatedBeforeWrite | TerminatedAfterWrite | DeliveryUnknown | AlreadyFinished.
End TerminationOutcome.
Abbreviation TerminationOutcome := TerminationOutcome.TerminationOutcome.

Module WriteOutcome.
Inductive WriteOutcome := Written | ResponseConfirmed.
End WriteOutcome.
Abbreviation WriteOutcome := WriteOutcome.WriteOutcome.

Module TaskEndCause.
Inductive TaskEndCause := Completed | Cancelled | Expired | Disconnected | Shutdown | Failed.
End TaskEndCause.
Abbreviation TaskEndCause := TaskEndCause.TaskEndCause.

#[export] Instance OperationPhase_eq_dec : EqDecision OperationPhase.
Proof. solve_decision. Defined.
#[export] Instance DeliveryEvidence_eq_dec : EqDecision DeliveryEvidence.
Proof. solve_decision. Defined.
#[export] Instance TaskSuccess_eq_dec : EqDecision TaskSuccess.
Proof. solve_decision. Defined.
#[export] Instance TaskEndCause_eq_dec : EqDecision TaskEndCause.
Proof. solve_decision. Defined.
#[export] Instance TerminationOutcome_eq_dec : EqDecision TerminationOutcome.
Proof. solve_decision. Defined.

Record OperationSnapshot := mkOperationSnapshot {
  phase : OperationPhase;
  delivery : DeliveryEvidence;
  result : option (Result TaskSuccess NetError);
}.

#[export] Instance OperationSnapshot_settable : Settable OperationSnapshot :=
  fields! mkOperationSnapshot [ phase; delivery; result ].

(** ** Timeout budgets *)

Record TimeoutBudget := mkTimeoutBudget { at_ : Instant; budget_phase : WsTimeoutPhase }.

(** The left budget wins equal deadlines. *)
Definition budget_earlier (left right : option TimeoutBudget) : option TimeoutBudget :=
  match left, right with
  | Some l, Some r => Some (if at_ l <=? at_ r then l else r)
  | l, r => option_or l r
  end.

Definition budget_timeout_error (b : TimeoutBudget) : NetError :=
  with_ws_timeout_phase (NetError_new ErrorKind.TimedOut) (budget_phase b).

(** ** Properties *)

Lemma validate_metadata_lengths_ok total lengths :
  0 <= total -> Forall (fun '(k, v) => 0 <= k /\ 0 <= v) lengths ->
  validate_metadata_lengths total lengths = Ok tt <->
  total + foldr (fun '(k, v) acc => k + v + acc) 0 lengths <= MAX_METADATA_BYTES
  \/ lengths = [].
Proof.
  revert total. induction lengths as [|[k v] rest IH]; intros total Ht Hl; simpl; [naive_solver|].
  apply Forall_cons in Hl as [[Hk Hv] Hl].
  assert (0 <= foldr (fun '(k, v) acc => k + v + acc) 0 rest).
  { clear IH. induction Hl as [|[k' v'] rest' [? ?] _ IH]; simpl; lia. }
  unfold checked_add, MAX_METADATA_BYTES in *. simpl.
  destruct (Z.leb_spec (k + v) usize_max); simpl.
  2: { split; [done|]. intros [?|?]; [machine|done]. }
  destruct (Z.leb_spec (total + (k + v)) usize_max); simpl.
  2: { split; [done|]. intros [?|?]; [machine|done]. }
  destruct (Z.leb_spec (total + (k + v)) (16 * 1024)).
  - rewrite IH by (lia || done). split; intros [Hx|Hx]; try done; left; [lia| |lia].
    subst rest. simpl. lia.
  - split; [done|]. intros [?|?]; [lia|done].
Qed.

(** The metadata of a message is accepted exactly when all its keys and values
    together take at most 16384 bytes; the running sum cannot overflow. *)
Theorem validate_metadata_bound m :
  validate_metadata m = Ok tt <->
  foldr (fun '(k, v) acc => byte_len k + byte_len v + acc) 0 m <= MAX_METADATA_BYTES.
Proof.
  unfold validate_metadata. rewrite validate_metadata_lengths_ok; [|done|].
  - rewrite Z.add_0_l.
    assert (foldr (fun '(k, v) acc => k + v + acc) 0 (map (fun '(k, v) => (byte_len k, byte_len v)) m)
            = foldr (fun '(k, v) acc => byte_len k + byte_len v + acc) 0 m) as ->.
    { induction m as [|[k v] m IH]; simpl; [done|by rewrite IH]. }
    split; [|auto]. intros [?|Hm]; [done|]. by destruct m.
  - apply Forall_map, Forall_true. intros [k v]. unfold byte_len. lia.
Qed.

Lemma budget_earlier_spec l r b :
  budget_earlier l r = Some b ->
  (Some b = l \/ Some b = r) /\
  (forall x, l = Some x -> at_ b <= at_ x) /\ (forall x, r = Some x -> at_ b <= at_ x).
Proof.
  unfold budget_earlier. destruct l as [l|], r as [r|]; simpl; intros; simplify_eq; try naive_solver lia.
  destruct (Z.leb_spec (at_ l) (at_ r)); naive_solver lia.
Qed.
