(* ===== verification/Cancellation.v ===== *)
(** * Cancellation groups (src/api/ws/cancellation.rs)

    The nodes of all cancellation trees live in one store, as the [Arc]s of the
    program do.  A node is present while it has an owner: [handles] counts the
    group handles and hook guards outside the tree, and a live child owns its
    parent.  [children] holds the weak references of the parent, so an entry is
    upgraded by looking the child up.  A hook is the identity of its callback;
    [cancel] returns the callbacks to run, in the order the code runs them after
    it has released the gate. *)

From stdpp Require Import gmap sets.
From S2P Require Import Prelude F64 Backoff RetrySchedule RetryState Errors.

Abbreviation NodeId := positive (only parsing).
Abbreviation HookId := positive (only parsing).

Record CancellationState := mkCancellationState {
  cancelled : bool;
  notification : bool;
  parent : option NodeId;
  children : gset NodeId;
  hooks : gset HookId;
  handles : nat;
}.

#[export] Instance CancellationState_settable : Settable CancellationState :=
  fields! mkCancellationState [ cancelled; notification; parent; children; hooks; handles ].

Record Trees := mkTrees { nodes : gmap NodeId CancellationState; next_node : NodeId }.

#[export] Instance Trees_settable : Settable Trees := fields! mkTrees [ nodes; next_node ].

Definition update_node (t : Trees) (n : NodeId) (f : CancellationState -> CancellationState) :
    Trees :=
  t <| nodes ::= alter f n |>.

Definition is_cancelled (t : Trees) (n : NodeId) : bool :=
  match nodes t !! n with Some s => cancelled s | None => false end.

(** ** Construction *)

Definition alloc_node (t : Trees) (s : CancellationState) : Trees * NodeId :=
  (t <| nodes ::= <[next_node t := s]>; next_node ::= Pos.succ |>, next_node t).

Definition cancellation_new (t : Trees) : Trees * NodeId :=
  alloc_node t {| cancelled := false; notification := false; parent := None;
                  children := ∅; hooks := ∅; handles := 1 |}.

Definition cancellation_child (t : Trees) (n : NodeId) : Trees * NodeId :=
  let c := is_cancelled t n in
  let '(t, child) :=
    alloc_node t {| cancelled := c; notification := false; parent := Some n;
                    children := ∅; hooks := ∅; handles := 1 |} in
  let t := update_node t n (fun s => s <| children ::= union {[child]} |>) in
  let t := if c then update_node t child (fun s => s <| notification := true |>) else t in
  (t, child).

(** ** Cancellation

    The loop pops the last node of [pending], closes it, schedules its children
    and takes its hooks.  Its fuel is the number of live nodes, see
    [cancel_loop_spec]. *)

Record CancelWork := mkCancelWork {
  trees : Trees;
  pending : list NodeId;
  closed : list NodeId;
  fired : list HookId;
}.

(** One iteration for the popped node [domain]; the stack is kept with its top
    first. *)
Definition cancel_visit (t : Trees) (rest : list NodeId) (closed : list NodeId)
    (fired : list HookId) (domain : NodeId) : CancelWork :=
  match nodes t !! domain with
  | None => mkCancelWork t rest closed fired
  | Some s =>
      let live := filter (fun c => is_Some (nodes t !! c)) (elements (children s)) in
      mkCancelWork
        (update_node t domain (fun s => s <| cancelled := true; hooks := ∅ |>))
        (reverse live ++ rest) (closed ++ [domain]) (fired ++ elements (hooks s))
  end.

Fixpoint cancel_loop (fuel : nat) (w : CancelWork) : CancelWork :=
  match fuel, pending w with
  | S fuel, domain :: rest =>
      cancel_loop fuel (cancel_visit (trees w) rest (closed w) (fired w) domain)
  | _, _ => w
  end.

Definition notify_all (t : Trees) (ns : list NodeId) : Trees :=
  foldl (fun t n => update_node t n (fun s => s <| notification := true |>)) t ns.

Definition cancellation_cancel (t : Trees) (n : NodeId) : Trees * list HookId :=
  let w := cancel_loop (size (nodes t)) (mkCancelWork t [n] [] []) in
  (notify_all (trees w) (closed w), fired w).

(** ** Admission *)

(** The gate guard; poisoning is not modelled, the guarded code does not panic. *)
Definition lock_if_active (t : Trees) (n : NodeId) : Result () NetError :=
  if is_cancelled t n then Err (NetError_new ErrorKind.Cancelled) else Ok tt.

(** [hook] is the fresh identity of the callback, [reserve] the outcome of
    [try_reserve]; the returned guard owns the node. *)
Definition bind_cancel_hook (reserve : bool) (t : Trees) (n : NodeId) (hook : HookId) :
    Trees * Result () NetError :=
  match lock_if_active t n with
  | Err e => (t, Err e)
  | Ok _ =>
      if negb reserve then (t, Err (NetError_new ErrorKind.Internal))
      else (update_node t n (fun s => s <| hooks ::= union {[hook]}; handles ::= S |>), Ok tt)
  end.

(** ** Release

    Dropping the last owner removes the node, then every ancestor that loses its
    last owner by it. *)

Definition owned (s : CancellationState) : bool :=
  (0 <? handles s)%nat || negb (bool_decide (children s = ∅)).

Fixpoint release_loop (fuel : nat) (t : Trees) (n : NodeId) : Trees :=
  match fuel with
  | O => t
  | S fuel =>
      match nodes t !! n with
      | None => t
      | Some s =>
          if owned s then t
          else
            let t := t <| nodes ::= delete n |> in
            match parent s with
            | None => t
            | Some p =>
                let t := update_node t p (fun s => s <| children ::= fun c => c ∖ {[n]} |>) in
                release_loop fuel t p
            end
      end
  end.

Definition drop_handle (t : Trees) (n : NodeId) : Trees :=
  let t := update_node t n (fun s => s <| handles ::= pred |>) in
  release_loop (size (nodes t)) t n.

Definition clone_handle (t : Trees) (n : NodeId) : Trees :=
  update_node t n (fun s => s <| handles ::= S |>).

(** Dropping a hook guard removes the callback and gives its handle back. *)
Definition drop_hook_guard (t : Trees) (n : NodeId) (hook : HookId) : Trees :=
  drop_handle (update_node t n (fun s => s <| hooks ::= fun h => h ∖ {[hook]} |>)) n.

(** ** Invariant *)

(** Nodes are allocated in increasing order below [next_node]; the weak child
    references and the strong parent references agree; cancellation is closed
    under descendants; every node is owned. *)
Record trees_wf (t : Trees) : Prop := {
  wf_fresh n : is_Some (nodes t !! n) -> (n < next_node t)%positive;
  wf_parent n s p : nodes t !! n = Some s -> parent s = Some p ->
    (p < n)%positive /\ exists ps, nodes t !! p = Some ps /\ n ∈ children ps;
  wf_child n s c : nodes t !! n = Some s -> c ∈ children s ->
    exists cs, nodes t !! c = Some cs /\ parent cs = Some n;
  wf_closed n s c cs : nodes t !! n = Some s -> c ∈ children s -> nodes t !! c = Some cs ->
    cancelled s = true -> cancelled cs = true;
  wf_owned n s : nodes t !! n = Some s -> owned s = true;
}.

(** [descendant t a n]: [n] is [a] or below it. *)
Inductive descendant (t : Trees) (a : NodeId) : NodeId -> Prop :=
| desc_self : is_Some (nodes t !! a) -> descendant t a a
| desc_child n s c :
    descendant t a n -> nodes t !! n = Some s -> c ∈ children s -> descendant t a c.

(** ** Cancelling reaches exactly the descendants *)

Definition close_node (s : CancellationState) : CancellationState :=
  s <| cancelled := true; hooks := ∅ |>.

(** The state of the loop after visiting the nodes of [closed w]. *)
Record cancel_inv (t : Trees) (r : NodeId) (w : CancelWork) : Prop := {
  ci_nodup : NoDup (pending w ++ closed w);
  ci_desc n : n ∈ pending w ++ closed w -> descendant t r n;
  ci_root : r ∈ pending w ++ closed w;
  ci_next : next_node (trees w) = next_node t;
  ci_nodes n : nodes (trees w) !! n =
    (if decide (n ∈ closed w) then close_node else id) <$> nodes t !! n;
  ci_children n s c : n ∈ closed w -> nodes t !! n = Some s -> c ∈ children s ->
    c ∈ pending w ++ closed w;
  ci_parent n : n ∈ pending w ++ closed w -> n <> r ->
    exists s p, nodes t !! n = Some s /\ parent s = Some p /\ p ∈ closed w;
  ci_fired h : h ∈ fired w <-> exists n s, n ∈ closed w /\ nodes t !! n = Some s /\ h ∈ hooks s;
}.

Lemma descendant_alive t a n :
  trees_wf t -> descendant t a n -> is_Some (nodes t !! n).
Proof.
  intros Hwf. induction 1 as [|n s c _ _ Hn Hc]; [done|].
  destruct (wf_child _ Hwf _ _ _ Hn Hc) as (cs & Hcs & _). by rewrite Hcs.
Qed.

Lemma descendant_le t a n : trees_wf t -> descendant t a n -> (a <= n)%positive.
Proof.
  intros Hwf. induction 1 as [|n s c _ IH Hn Hc]; [lia|].
  destruct (wf_child _ Hwf _ _ _ Hn Hc) as (cs & Hcs & Hp).
  destruct (wf_parent _ Hwf _ _ _ Hcs Hp) as [? _]. lia.
Qed.

Lemma cancel_inv_start t r :
  is_Some (nodes t !! r) -> cancel_inv t r (mkCancelWork t [r] [] []).
Proof.
  intros Hr. split; simpl.
  - apply NoDup_singleton.
  - intros n ->%list_elem_of_singleton. by constructor.
  - by left.
  - done.
  - intros n. by destruct (nodes t !! n).
  - intros n s c Hn. by apply not_elem_of_nil in Hn.
  - intros n ->%list_elem_of_singleton. done.
  - intros h. split; [by intros ?%not_elem_of_nil|]. intros (n & s & Hn & _).
    by apply not_elem_of_nil in Hn.
Qed.

Lemma cancel_inv_visit t r w x rest :
  trees_wf t -> cancel_inv t r w -> pending w = x :: rest ->
  exists s, nodes t !! x = Some s /\ (x ∉ closed w) /\
    cancel_visit (trees w) rest (closed w) (fired w) x =
      mkCancelWork (update_node (trees w) x close_node)
        (reverse (elements (children s)) ++ rest) (closed w ++ [x]) (fired w ++ elements (hooks s)).
Proof.
  intros Hwf Hi Hp. pose proof (ci_nodup _ _ _ Hi) as Hnd. rewrite Hp in Hnd.
  simpl in Hnd. apply NoDup_cons in Hnd as [Hxn _].
  assert (x ∉ closed w) as Hx by set_solver.
  destruct (descendant_alive t r x Hwf) as [s Hs]; [apply (ci_desc _ _ _ Hi); rewrite Hp; by left|].
  exists s. split; [done|]. split; [done|].
  pose proof (ci_nodes _ _ _ Hi x) as Hn. rewrite decide_False, Hs in Hn by done. simpl in Hn.
  unfold cancel_visit. rewrite Hn. rewrite filter_all; [done|].
  apply Forall_forall. intros c Hc%elem_of_elements.
  destruct (wf_child _ Hwf _ _ _ Hs Hc) as (cs & Hcs & _).
  rewrite (ci_nodes _ _ _ Hi c), Hcs. simpl. done.
Qed.

Lemma cancel_inv_step t r w x rest :
  trees_wf t -> cancel_inv t r w -> pending w = x :: rest ->
  cancel_inv t r (cancel_visit (trees w) rest (closed w) (fired w) x).
Proof.
  intros Hwf Hi Hp. destruct (cancel_inv_visit t r w x rest Hwf Hi Hp) as (s & Hs & Hx & ->).
  destruct Hi as [Hnd Hd Hr Hnext Hn Hc Hpar Hf]. rewrite Hp in *.
  assert (forall c, c ∈ children s -> c ∉ x :: rest ++ closed w) as Hnew.
  { intros c Hcs Hin. destruct (wf_child _ Hwf _ _ _ Hs Hcs) as (cs & Hcs' & Hpc).
    destruct (wf_parent _ Hwf _ _ _ Hcs' Hpc) as [Hlt _].
    destruct (decide (c = r)) as [->|Hne].
    - pose proof (descendant_le t r x Hwf (Hd x ltac:(by left))). lia.
    - destruct (Hpar c Hin Hne) as (s' & p & Hs' & Hp' & Hin'). by simplify_eq. }
  assert (forall n, n ∈ (reverse (elements (children s)) ++ rest) ++ closed w ++ [x] <->
    n ∈ children s \/ n ∈ x :: rest ++ closed w) as Hin.
  { intros n. rewrite !elem_of_app, elem_of_reverse, elem_of_elements. set_solver. }
  split; simpl.
  - assert ((reverse (elements (children s)) ++ rest) ++ closed w ++ [x] ≡ₚ
      elements (children s) ++ (x :: rest ++ closed w)) as ->.
    { rewrite reverse_Permutation. solve_Permutation. }
    apply NoDup_app. split; [apply NoDup_elements|]. split; [|done].
    intros c Hcs%elem_of_elements. by apply Hnew.
  - intros n [Hcs|Hn']%Hin; [|by apply Hd]. eapply desc_child; [|exact Hs|done].
    apply Hd. by left.
  - apply Hin. by right.
  - done.
  - intros n. destruct (decide (n = x)) as [->|Hne].
    + rewrite lookup_alter_eq, Hn, decide_False, Hs by done. simpl.
      rewrite decide_True by (apply elem_of_app; right; by left). done.
    + rewrite lookup_alter_ne, Hn by done.
      destruct (decide (n ∈ closed w)) as [Hc'|Hc'].
      * by rewrite decide_True by (apply elem_of_app; by left).
      * by rewrite decide_False by set_solver.
  - intros n s' c Hn' Hs' Hcs. apply Hin. apply elem_of_app in Hn' as [Hn'| ->%list_elem_of_singleton].
    + right. by eapply Hc.
    + simplify_eq. by left.
  - intros n [Hcs|Hn']%Hin Hne.
    + destruct (wf_child _ Hwf _ _ _ Hs Hcs) as (cs & Hcs' & Hpc). exists cs, x.
      split; [done|]. split; [done|]. apply elem_of_app. right. by left.
    + destruct (Hpar n Hn' Hne) as (s' & p & ? & ? & ?). exists s', p. set_solver.
  - intros h. rewrite elem_of_app, elem_of_elements, Hf. split.
    + intros [(n & s' & Hn' & Hs' & Hh)|Hh].
      * exists n, s'. set_solver.
      * exists x, s. set_solver.
    + intros (n & s' & Hn' & Hs' & Hh). apply elem_of_app in Hn' as [Hn'| ->%list_elem_of_singleton].
      * left. eauto.
      * simplify_eq. by right.
Qed.

Lemma alive_length t l :
  NoDup l -> (forall n, n ∈ l -> is_Some (nodes t !! n)) -> (length l <= size (nodes t))%nat.
Proof.
  intros Hnd Hal. rewrite <- (size_list_to_set (C := gset NodeId) l) by done.
  rewrite <- size_dom. apply subseteq_size. intros n Hn%elem_of_list_to_set.
  by apply elem_of_dom, Hal.
Qed.

Lemma cancel_loop_spec t r fuel w :
  trees_wf t -> cancel_inv t r w -> (size (nodes t) <= fuel + length (closed w))%nat ->
  cancel_inv t r (cancel_loop fuel w) /\ pending (cancel_loop fuel w) = [].
Proof.
  intros Hwf. revert w. induction fuel as [|fuel IH]; intros w Hi Hfuel; simpl;
    destruct (pending w) as [|x rest] eqn:Hp; try done.
  - assert (length (pending w ++ closed w) <= size (nodes t))%nat as Hlen.
    { apply alive_length; [apply Hi|]. intros n Hn. eapply descendant_alive; [done|].
      by apply (ci_desc _ _ _ Hi). }
    rewrite Hp, length_app in Hlen. simpl in Hlen. lia.
  - pose proof (cancel_inv_step t r w x rest Hwf Hi Hp) as Hi'.
    destruct (cancel_inv_visit t r w x rest Hwf Hi Hp) as (s & _ & _ & Hv).
    apply IH; [done|]. rewrite Hv. simpl. rewrite length_app. simpl. lia.
Qed.

Lemma notify_all_lookup t ns n :
  nodes (notify_all t ns) !! n =
    (if decide (n ∈ ns) then (fun s => s <| notification := true |>) else id) <$> nodes t !! n.
Proof.
  unfold notify_all. revert t. induction ns as [|m ns IH]; intros t; simpl.
  { by destruct (nodes t !! n). }
  rewrite IH. unfold update_node. simpl. destruct (decide (n = m)) as [->|Hne].
  - rewrite lookup_alter_eq, (decide_True (P := m ∈ m :: ns)) by (by left).
    destruct (nodes t !! m); simpl; [|done]. by destruct (decide (m ∈ ns)).
  - rewrite lookup_alter_ne by done. destruct (decide (n ∈ ns)).
    + by rewrite decide_True by (by right).
    + by rewrite decide_False by set_solver.
Qed.

Lemma notify_all_next t ns : next_node (notify_all t ns) = next_node t.
Proof. unfold notify_all. revert t. induction ns as [|m ns IH]; intros t; simpl; [done|]. by rewrite IH. Qed.

Definition cancel_node (s : CancellationState) : CancellationState :=
  s <| cancelled := true; notification := true; hooks := ∅ |>.

(** Cancelling [r] closes and notifies every node at or below [r], takes all their
    hooks, and leaves the other nodes as they are. *)
Lemma cancel_effect t r t' hs :
  trees_wf t -> is_Some (nodes t !! r) -> cancellation_cancel t r = (t', hs) ->
  exists vs, NoDup vs /\ (forall n, n ∈ vs <-> descendant t r n) /\
    next_node t' = next_node t /\
    (forall n, nodes t' !! n = (if decide (n ∈ vs) then cancel_node else id) <$> nodes t !! n) /\
    (forall h, h ∈ hs <-> exists n s, descendant t r n /\ nodes t !! n = Some s /\ h ∈ hooks s).
Proof.
  intros Hwf Hr. unfold cancellation_cancel. intros [= <- <-].
  destruct (cancel_loop_spec t r (size (nodes t)) (mkCancelWork t [r] [] [])) as [Hi Hp];
    [done|by apply cancel_inv_start|simpl; lia|].
  set (w := cancel_loop _ _) in *. clearbody w.
  destruct Hi as [Hnd Hd Hroot Hnext Hn Hc Hpar Hf]. rewrite Hp in *. simpl in *.
  assert (forall n, n ∈ closed w <-> descendant t r n) as Hvs.
  { intros n. split; [by apply Hd|]. induction 1 as [|n s c _ IH Hs Hcs]; [done|]. by eapply Hc. }
  exists (closed w). split; [done|]. split; [done|].
  split; [by rewrite notify_all_next|]. split.
  - intros n. rewrite notify_all_lookup, Hn. destruct (nodes t !! n) as [s|]; simpl; [|done].
    by destruct (decide (n ∈ closed w)).
  - intros h. rewrite Hf. by setoid_rewrite Hvs.
Qed.

Lemma cancel_wf t r t' hs :
  trees_wf t -> is_Some (nodes t !! r) -> cancellation_cancel t r = (t', hs) -> trees_wf t'.
Proof.
  intros Hwf Hr Hc. destruct (cancel_effect t r t' hs Hwf Hr Hc) as (vs & _ & Hvs & Hnext & Hn & _).
  assert (forall n s', nodes t' !! n = Some s' -> exists s, nodes t !! n = Some s /\
    s' = (if decide (n ∈ vs) then cancel_node else id) s) as Hinv.
  { intros n s'. rewrite Hn. intros (s & Hs & ->)%fmap_Some. eauto. }
  assert (forall n s, nodes t !! n = Some s ->
    nodes t' !! n = Some ((if decide (n ∈ vs) then cancel_node else id) s)) as Hfw.
  { intros n s Hs. by rewrite Hn, Hs. }
  split.
  - intros n [s' (s & Hs & _)%Hinv]. rewrite Hnext. apply (wf_fresh _ Hwf). by rewrite Hs.
  - intros n s' p (s & Hs & ->)%Hinv Hp.
    assert (parent s = Some p) as Hp' by (by destruct (decide (n ∈ vs))).
    destruct (wf_parent _ Hwf _ _ _ Hs Hp') as (Hlt & ps & Hps & Hin). split; [done|].
    eexists. split; [by apply Hfw|]. by destruct (decide (p ∈ vs)).
  - intros n s' c (s & Hs & ->)%Hinv Hin.
    assert (c ∈ children s) as Hin' by (by destruct (decide (n ∈ vs))).
    destruct (wf_child _ Hwf _ _ _ Hs Hin') as (cs & Hcs & Hp).
    eexists. split; [by apply Hfw|]. by destruct (decide (c ∈ vs)).
  - intros n s' c cs' (s & Hs & ->)%Hinv Hin (cs & Hcs & ->)%Hinv Hcan.
    assert (c ∈ children s) as Hin' by (by destruct (decide (n ∈ vs))).
    destruct (decide (c ∈ vs)) as [|Hc']; [done|].
    destruct (decide (n ∈ vs)) as [Hnv|].
    + destruct Hc'. apply Hvs. eapply desc_child; [by apply Hvs|exact Hs|done].
    + by eapply (wf_closed _ Hwf n s c cs).
  - intros n s' (s & Hs & ->)%Hinv. pose proof (wf_owned _ Hwf _ _ Hs). by destruct (decide (n ∈ vs)).
Qed.

(** ** The other operations keep the invariant *)

Lemma empty_wf : trees_wf {| nodes := ∅; next_node := 1%positive |}.
Proof. split; simpl; intros *; rewrite lookup_empty; done. Qed.

Lemma next_node_fresh t : trees_wf t -> nodes t !! next_node t = None.
Proof.
  intros Hwf. destruct (nodes t !! next_node t) eqn:E; [|done].
  pose proof (wf_fresh _ Hwf (next_node t) ltac:(by rewrite E)). lia.
Qed.

Lemma new_wf t t' n : trees_wf t -> cancellation_new t = (t', n) -> trees_wf t'.
Proof.
  intros Hwf [= <- <-]. pose proof (next_node_fresh t Hwf) as Hfresh.
  split; simpl.
  - intros n. rewrite lookup_insert_is_Some. intros [<-|[_ Hn]]; [lia|].
    pose proof (wf_fresh _ Hwf n Hn). lia.
  - intros n s p [[<- <-]|[Hne Hn]]%lookup_insert_Some Hp; [done|].
    destruct (wf_parent _ Hwf _ _ _ Hn Hp) as (? & ps & Hps & ?). split; [done|].
    exists ps. split; [|done]. by rewrite lookup_insert_ne by congruence.
  - intros n s c [[<- <-]|[Hne Hn]]%lookup_insert_Some Hc; [set_solver|].
    destruct (wf_child _ Hwf _ _ _ Hn Hc) as (cs & Hcs & ?). exists cs. split; [|done].
    by rewrite lookup_insert_ne by congruence.
  - intros n s c cs [[<- <-]|[Hne Hn]]%lookup_insert_Some Hc; [set_solver|].
    intros [[<- <-]|[_ Hcs]]%lookup_insert_Some; [|by eapply (wf_closed _ Hwf)].
    destruct (wf_child _ Hwf _ _ _ Hn Hc) as (cs & Hcs & ?). congruence.
  - intros n s [[<- <-]|[Hne Hn]]%lookup_insert_Some; [done|]. by eapply (wf_owned _ Hwf).
Qed.

(** Changing the flags, hooks or handles of one node. *)
Lemma update_wf t n f :
  trees_wf t ->
  (forall s, nodes t !! n = Some s ->
     parent (f s) = parent s /\ children (f s) = children s /\
     cancelled (f s) = cancelled s /\ owned (f s) = true) ->
  trees_wf (update_node t n f).
Proof.
  intros Hwf Hf.
  assert (forall m s', nodes (update_node t n f) !! m = Some s' ->
    exists s, nodes t !! m = Some s /\ parent s' = parent s /\ children s' = children s /\
      cancelled s' = cancelled s /\ owned s' = true) as Hinv.
  { intros m s'. simpl. destruct (decide (m = n)) as [->|].
    - rewrite lookup_alter_eq. intros (s & Hs & ->)%fmap_Some. exists s. by destruct (Hf s Hs) as (?&?&?&?).
    - rewrite lookup_alter_ne by done. intros Hs. exists s'. split_and!; try done.
      by eapply (wf_owned _ Hwf). }
  assert (forall m s, nodes t !! m = Some s -> exists s', nodes (update_node t n f) !! m = Some s' /\
    parent s' = parent s /\ children s' = children s) as Hfw.
  { intros m s Hs. simpl. destruct (decide (m = n)) as [->|].
    - rewrite lookup_alter_eq, Hs. destruct (Hf s Hs) as (?&?&?&?). eauto.
    - rewrite lookup_alter_ne by done. eauto. }
  split.
  - intros m [s' (s & Hs & _)%Hinv]. apply (wf_fresh _ Hwf). by rewrite Hs.
  - intros m s' p (s & Hs & -> & _)%Hinv Hp. destruct (wf_parent _ Hwf _ _ _ Hs Hp) as (? & ps & Hps & ?).
    split; [done|]. destruct (Hfw p ps Hps) as (ps' & Hps' & _ & Hch). exists ps'. by rewrite Hch.
  - intros m s' c (s & Hs & _ & -> & _)%Hinv Hc. destruct (wf_child _ Hwf _ _ _ Hs Hc) as (cs & Hcs & ?).
    destruct (Hfw c cs Hcs) as (cs' & Hcs' & Hpar & _). exists cs'. by rewrite Hpar.
  - intros m s' c cs' (s & Hs & _ & -> & -> & _)%Hinv Hc (cs & Hcs & _ & _ & -> & _)%Hinv.
    by eapply (wf_closed _ Hwf).
  - intros m s' (s & Hs & _ & _ & _ & ?)%Hinv. done.
Qed.

Lemma owned_handles s : owned (s <| handles ::= S |>) = true.
Proof. done. Qed.

Lemma clone_wf t n : trees_wf t -> trees_wf (clone_handle t n).
Proof. intros Hwf. apply update_wf; [done|]. by intros s _. Qed.

Lemma bind_wf r t n h t' res :
  trees_wf t -> bind_cancel_hook r t n h = (t', res) -> trees_wf t'.
Proof.
  intros Hwf. unfold bind_cancel_hook. repeat case_match; intros; simplify_eq; try done.
  apply update_wf; [done|]. by intros s _.
Qed.

Lemma child_lookup t n s t' c :
  trees_wf t -> nodes t !! n = Some s -> cancellation_child t n = (t', c) ->
  c = next_node t /\ c <> n /\ next_node t' = Pos.succ c /\ nodes t !! c = None /\
  nodes t' = <[n := s <| children ::= union {[c]} |>]>
    (<[c := {| cancelled := cancelled s; notification := cancelled s; parent := Some n;
               children := ∅; hooks := ∅; handles := 1 |}]> (nodes t)).
Proof.
  intros Hwf Hn. unfold cancellation_child, is_cancelled. rewrite Hn.
  pose proof (next_node_fresh t Hwf) as Hfresh.
  assert (next_node t <> n) as Hne by congruence.
  intros [= <- <-]. split; [done|]. split; [done|]. split; [by destruct (cancelled s)|].
  split; [done|]. apply map_eq. intros m.
  destruct (decide (m = n)) as [->|Hmn]; [|destruct (decide (m = next_node t)) as [->|]];
    destruct (cancelled s) eqn:Hc; simpl;
    repeat first [rewrite lookup_insert_eq|rewrite lookup_insert_ne by done
                 |rewrite lookup_alter_eq|rewrite lookup_alter_ne by done]; rewrite ?Hn; done.
Qed.

Lemma child_wf t n t' c :
  trees_wf t -> is_Some (nodes t !! n) -> cancellation_child t n = (t', c) -> trees_wf t'.
Proof.
  intros Hwf [s Hs] Hch.
  destruct (child_lookup t n s t' c Hwf Hs Hch) as (Hc & Hcn & Hnext & Hfresh & Hn).
  assert (n < c)%positive as Hlt. { subst c. apply (wf_fresh _ Hwf). by rewrite Hs. }
  assert (forall m x, nodes t !! m = Some x -> m <> c) as Hold by (intros m x Hm ->; congruence).
  assert (forall m x, nodes t' !! m = Some x ->
    (m = c /\ parent x = Some n /\ children x = ∅ /\ cancelled x = cancelled s /\ owned x = true) \/
    exists x0, nodes t !! m = Some x0 /\ parent x = parent x0 /\ cancelled x = cancelled x0 /\
      owned x = true /\ (forall d, d ∈ children x -> d ∈ children x0 \/ (m = n /\ d = c))) as Hview.
  { intros m x. rewrite Hn.
    intros [[<- <-]|[_ [[<- <-]|[_ Hm]]%lookup_insert_Some]]%lookup_insert_Some; [right|by left|right].
    - exists s. split_and!; try done; [|set_solver]. unfold owned. simpl.
      apply orb_true_iff. right. rewrite bool_decide_eq_false_2; [done|set_solver].
    - exists x. split_and!; try done; [by eapply (wf_owned _ Hwf)|auto]. }
  assert (forall m x0, nodes t !! m = Some x0 -> exists x, nodes t' !! m = Some x /\
    parent x = parent x0 /\ cancelled x = cancelled x0 /\ children x0 ⊆ children x) as Hfw.
  { intros m x0 Hm. rewrite Hn. destruct (decide (m = n)) as [->|].
    - rewrite lookup_insert_eq. eexists. split; [done|]. simplify_eq. set_solver.
    - rewrite !lookup_insert_ne by (done || by apply not_eq_sym, (Hold m x0)). eauto. }
  assert (exists x, nodes t' !! c = Some x /\ parent x = Some n /\ cancelled x = cancelled s) as Hnew.
  { rewrite Hn, lookup_insert_ne, lookup_insert_eq by done. eauto. }
  split.
  - intros m [x [[-> _]|(x0 & Hm & _)]%Hview]; rewrite Hnext; [lia|].
    pose proof (wf_fresh _ Hwf m ltac:(by rewrite Hm)). lia.
  - intros m x p [(-> & Hp & _)|(x0 & Hm & Hp & _)]%Hview Hpar; rewrite Hp in Hpar.
    + simplify_eq. split; [done|]. rewrite Hn, lookup_insert_eq. eexists. split; [done|]. set_solver.
    + destruct (wf_parent _ Hwf _ _ _ Hm Hpar) as (? & ps & Hps & Hin). split; [done|].
      destruct (Hfw p ps Hps) as (x' & Hx' & _ & _ & Hsub). exists x'. split; [done|set_solver].
  - intros m x d [(_ & _ & -> & _)|(x0 & Hm & _ & _ & _ & Hsub)]%Hview Hd; [set_solver|].
    destruct (Hsub d Hd) as [Hd'|[-> ->]]; [|naive_solver].
    destruct (wf_child _ Hwf _ _ _ Hm Hd') as (cs & Hcs & Hp).
    destruct (Hfw d cs Hcs) as (x' & Hx' & Hp' & _). exists x'. by rewrite Hp'.
  - intros m x d dx [(_ & _ & -> & _)|(x0 & Hm & _ & -> & _ & Hsub)]%Hview Hd; [set_solver|].
    intros Hdx Hcan. destruct (Hsub d Hd) as [Hd'|[-> ->]].
    + destruct (wf_child _ Hwf _ _ _ Hm Hd') as (cs & Hcs & Hp).
      destruct (Hfw d cs Hcs) as (x' & Hx' & _ & Hc' & _). simplify_eq. rewrite Hc'.
      by eapply (wf_closed _ Hwf m x0 d cs).
    + destruct Hnew as (x' & Hx' & _ & Hc'). simplify_eq. congruence.
  - intros m x [(_ & _ & _ & _ & ?)|(x0 & _ & _ & _ & ? & _)]%Hview; done.
Qed.

(** ** Releasing nodes

    [trees_wf (clone_handle t n)] is the invariant without the ownership of [n]. *)

Lemma lookup_clone t n m :
  nodes (clone_handle t n) !! m =
    (if decide (m = n) then (fun s => s <| handles ::= S |>) else id) <$> nodes t !! m.
Proof.
  simpl. destruct (decide (m = n)) as [->|].
  - by rewrite lookup_alter_eq.
  - rewrite lookup_alter_ne by done. by destruct (nodes t !! m).
Qed.

Lemma release_kept t n s :
  trees_wf (clone_handle t n) -> nodes t !! n = Some s -> owned s = true -> trees_wf t.
Proof.
  intros Hwf Hs Ho.
  assert (t = update_node (clone_handle t n) n (fun s => s <| handles ::= pred |>)) as Heq.
  { destruct t as [ns nx]. unfold clone_handle, update_node. simpl. f_equal.
    apply map_eq. intros m. simpl in Hs. destruct (decide (m = n)) as [->|].
    - rewrite !lookup_alter_eq, Hs. by destruct s.
    - by rewrite !lookup_alter_ne. }
  rewrite Heq. apply update_wf; [done|]. intros s'. rewrite lookup_clone, decide_True, Hs by done.
  simpl. intros [= <-]. by destruct s.
Qed.

Lemma release_absent t n : trees_wf (clone_handle t n) -> nodes t !! n = None -> trees_wf t.
Proof.
  intros Hwf Hn. assert (clone_handle t n = t) as <-; [|done].
  destruct t as [ns nx]. unfold clone_handle, update_node. simpl in *. f_equal.
  apply map_eq. intros m. destruct (decide (m = n)) as [->|].
  - by rewrite lookup_alter_eq, Hn.
  - by rewrite lookup_alter_ne.
Qed.

(** Removing the unowned node [n] and its entry in the parent. *)
Definition unlink (t : Trees) (n : NodeId) (p : option NodeId) : Trees :=
  let t := t <| nodes ::= delete n |> in
  match p with
  | None => t
  | Some p => update_node t p (fun s => s <| children ::= fun c => c ∖ {[n]} |>)
  end.

Lemma unlink_lookup t n p m :
  p <> Some n ->
  nodes (unlink t n p) !! m =
    if decide (m = n) then None
    else (if decide (p = Some m) then (fun s => s <| children ::= fun c => c ∖ {[n]} |>) else id)
         <$> nodes t !! m.
Proof.
  intros Hp. unfold unlink. destruct p as [p|]; simpl.
  - destruct (decide (m = n)) as [->|Hmn].
    + rewrite lookup_alter_ne by congruence. by rewrite lookup_delete_eq.
    + destruct (decide (Some p = Some m)) as [[= ->]|].
      * by rewrite lookup_alter_eq, lookup_delete_ne by done.
      * rewrite lookup_alter_ne, lookup_delete_ne by congruence. by destruct (nodes t !! m).
  - destruct (decide (m = n)) as [->|Hmn]; [by rewrite lookup_delete_eq|].
    rewrite lookup_delete_ne by done. by destruct (nodes t !! m).
Qed.

Definition reclaim (t : Trees) (n : NodeId) (p : option NodeId) : Trees :=
  match p with Some p => clone_handle (unlink t n (Some p)) p | None => unlink t n None end.

Lemma reclaim_lookup t n p m :
  p <> Some n ->
  nodes (reclaim t n p) !! m =
    if decide (m = n) then None
    else (if decide (p = Some m)
          then (fun s => s <| children ::= (fun c => c ∖ {[n]}); handles ::= S |>) else id)
         <$> nodes t !! m.
Proof.
  intros Hp. unfold reclaim. destruct p as [p|].
  - rewrite lookup_clone, unlink_lookup by done. destruct (decide (m = n)) as [->|].
    + by destruct (decide (n = p)).
    + destruct (nodes t !! m); simpl; [|by destruct (decide (m = p))].
      destruct (decide (m = p)) as [->|], (decide (Some p = Some _)); simplify_eq; done.
  - by rewrite unlink_lookup.
Qed.

Lemma unlink_wf t n s :
  trees_wf (clone_handle t n) -> nodes t !! n = Some s -> owned s = false ->
  trees_wf (reclaim t n (parent s)).
Proof.
  intros Hwf Hs Ho. set (p := parent s).
  assert (children s = ∅) as Hnoc.
  { unfold owned in Ho. apply orb_false_iff in Ho as [_ Ho].
    apply negb_false_iff, bool_decide_eq_true in Ho. done. }
  assert (nodes (clone_handle t n) !! n = Some (s <| handles ::= S |>)) as Hs'.
  { by rewrite lookup_clone, decide_True, Hs. }
  assert (p <> Some n) as Hpn.
  { intros Hp. destruct (wf_parent _ Hwf n _ n Hs' Hp) as [? _]. lia. }
  assert (forall m x0, m <> n -> nodes t !! m = Some x0 -> nodes (clone_handle t n) !! m = Some x0) as Hold.
  { intros m x0 Hmn Hm. by rewrite lookup_clone, decide_False, Hm. }
  assert (forall m x, nodes (reclaim t n p) !! m = Some x -> m <> n /\
    exists x0, nodes (clone_handle t n) !! m = Some x0 /\ parent x = parent x0 /\
      cancelled x = cancelled x0 /\ owned x = true /\
      (forall d, d ∈ children x <-> d ∈ children x0 /\ d <> n)) as Hview.
  { intros m x. rewrite reclaim_lookup by done. destruct (decide (m = n)) as [|Hmn]; [done|].
    intros (x0 & Hm & ->)%fmap_Some. split; [done|]. apply Hold in Hm; [|done]. exists x0.
    split; [done|]. destruct (decide (p = Some m)) as [Hpm|Hpm].
    - split_and!; try done. simpl. set_solver.
    - split_and!; try done; [by eapply (wf_owned _ Hwf)|]. simpl. intros d.
      split; [|tauto]. intros Hd. split; [done|]. intros ->.
      destruct (wf_child _ Hwf _ _ _ Hm Hd) as (cs & Hcs & Hp).
      rewrite Hs' in Hcs. by simplify_eq. }
  assert (forall m x0, m <> n -> nodes (clone_handle t n) !! m = Some x0 ->
    exists x, nodes (reclaim t n p) !! m = Some x) as Hfw.
  { intros m x0 Hmn. rewrite lookup_clone, decide_False by done. intros (x1 & Hm & ->)%fmap_Some.
    rewrite reclaim_lookup, decide_False, Hm by done. simpl. eauto. }
  split.
  - intros m [x (_ & x0 & Hm & _)%Hview].
    assert (next_node (reclaim t n p) = next_node (clone_handle t n)) as -> by (by destruct p).
    apply (wf_fresh _ Hwf). by rewrite Hm.
  - intros m x q (Hmn & x0 & Hm & -> & _)%Hview Hp.
    destruct (wf_parent _ Hwf _ _ _ Hm Hp) as (Hlt & qs & Hqs & Hin). split; [done|].
    assert (q <> n) as Hqn by (intros ->; rewrite Hs' in Hqs; simplify_eq/=; set_solver).
    destruct (Hfw q qs Hqn Hqs) as [qx Hqx]. exists qx. split; [done|].
    destruct (Hview q qx Hqx) as (_ & q0 & Hq0 & _ & _ & _ & Hch). simplify_eq. by apply Hch.
  - intros m x d (_ & x0 & Hm & _ & _ & _ & Hch)%Hview [Hd Hdn]%Hch.
    destruct (wf_child _ Hwf _ _ _ Hm Hd) as (cs & Hcs & Hp).
    destruct (Hfw d cs Hdn Hcs) as [dx Hdx]. exists dx. split; [done|].
    destruct (Hview d dx Hdx) as (_ & d0 & Hd0 & -> & _). by simplify_eq.
  - intros m x d dx (_ & x0 & Hm & _ & -> & _ & Hch)%Hview [Hd Hdn]%Hch
      (_ & d0 & Hd0 & _ & -> & _)%Hview. by eapply (wf_closed _ Hwf).
  - by intros m x (_ & x0 & _ & _ & _ & ? & _)%Hview.
Qed.

Lemma size_alter {A} (f : A -> A) (k : NodeId) (m : gmap NodeId A) :
  size (alter f k m) = size m.
Proof. rewrite <- !(size_dom (D := gset NodeId)), dom_alter_L. done. Qed.

Lemma release_loop_wf fuel t n :
  trees_wf (clone_handle t n) -> (size (nodes t) <= fuel)%nat -> trees_wf (release_loop fuel t n).
Proof.
  revert t n. induction fuel as [|fuel IH]; intros t n Hwf Hsize; simpl.
  { apply release_absent with n; [done|]. assert (nodes t = ∅) as ->; [|done].
    apply map_size_empty_iff. lia. }
  destruct (nodes t !! n) as [s|] eqn:Hs; [|by eapply release_absent].
  destruct (owned s) eqn:Ho; [by eapply release_kept|].
  pose proof (unlink_wf t n s Hwf Hs Ho) as Hu.
  assert (size (nodes t) = S (size (delete n (nodes t)))) as Hsz.
  { by rewrite map_size_delete, Hs; destruct (size (nodes t)) eqn:E;
      [apply map_size_empty_iff in E; rewrite E in Hs|simpl]. }
  unfold reclaim, unlink in Hu. destruct (parent s) as [p|]; [|done].
  apply IH; [done|]. simpl. rewrite size_alter. lia.
Qed.

Lemma drop_handle_wf t n s :
  trees_wf t -> nodes t !! n = Some s -> (0 < handles s)%nat -> trees_wf (drop_handle t n).
Proof.
  intros Hwf Hs Hh. unfold drop_handle. apply release_loop_wf; [|done].
  assert (clone_handle (update_node t n (fun s => s <| handles ::= pred |>)) n = t) as ->; [|done].
  destruct t as [ns nx]. unfold clone_handle, update_node. simpl in *. f_equal. apply map_eq.
  intros m. destruct (decide (m = n)) as [->|].
  - rewrite !lookup_alter_eq, Hs. destruct s as [? ? ? ? ? k]. simpl in *. do 2 f_equal.
    by destruct k; [lia|].
  - by rewrite !lookup_alter_ne.
Qed.

Lemma drop_hook_guard_wf t n s h :
  trees_wf t -> nodes t !! n = Some s -> (0 < handles s)%nat -> trees_wf (drop_hook_guard t n h).
Proof.
  intros Hwf Hs Hh. unfold drop_hook_guard.
  eapply drop_handle_wf; [|simpl; by rewrite lookup_alter_eq, Hs|done].
  apply update_wf; [done|]. intros s' Hs'. simplify_eq. split_and!; try done. unfold owned. simpl.
  by rewrite (proj2 (Nat.ltb_lt _ _) Hh).
Qed.

(** Flags are never cleared: a node of the new state was there before with the
    same flag, unless the step created or closed it. *)
Definition flags_kept (t t' : Trees) : Prop :=
  forall m x, nodes t' !! m = Some x -> exists x0, nodes t !! m = Some x0 /\ cancelled x = cancelled x0.

#[local] Instance flags_kept_preorder : PreOrder flags_kept.
Proof.
  split.
  - intros t m x Hx. eauto.
  - intros t1 t2 t3 H12 H23 m x Hx. destruct (H23 m x Hx) as (x1 & Hx1 & ->). by apply H12.
Qed.

Lemma update_flags t n f :
  (forall s, cancelled (f s) = cancelled s) -> flags_kept t (update_node t n f).
Proof.
  intros Hf m x. simpl. destruct (decide (m = n)) as [->|].
  - rewrite lookup_alter_eq. intros (s & Hs & ->)%fmap_Some. eauto.
  - rewrite lookup_alter_ne by done. eauto.
Qed.

Lemma release_loop_flags fuel t n : flags_kept t (release_loop fuel t n).
Proof.
  revert t n. induction fuel as [|fuel IH]; intros t n; simpl; [done|].
  destruct (nodes t !! n) as [s|]; [|done]. destruct (owned s); [done|].
  assert (flags_kept t (t <| nodes ::= delete n |>)) as Hd.
  { intros m x. simpl. intros [_ ?]%lookup_delete_Some. eauto. }
  destruct (parent s) as [p|]; [|done].
  etrans; [exact Hd|]. etrans; [|apply IH]. by apply update_flags.
Qed.

Lemma drop_handle_flags t n : flags_kept t (drop_handle t n).
Proof.
  unfold drop_handle. etrans; [|apply release_loop_flags]. by apply update_flags.
Qed.

Lemma release_loop_keeps fuel t n m ms :
  nodes t !! m = Some ms -> (0 < handles ms)%nat -> is_Some (nodes (release_loop fuel t n) !! m).
Proof.
  revert t n ms. induction fuel as [|fuel IH]; intros t n ms Hm Hh; simpl; [by rewrite Hm|].
  destruct (nodes t !! n) as [s|] eqn:Hs; [|by rewrite Hm].
  destruct (owned s) eqn:Ho; [by rewrite Hm|].
  assert (m <> n) as Hne.
  { intros ->. simplify_eq. unfold owned in Ho. by rewrite (proj2 (Nat.ltb_lt _ _) Hh) in Ho. }
  destruct (parent s) as [p|]; simpl; [|by rewrite lookup_delete_ne, Hm].
  destruct (decide (m = p)) as [->|Hmp].
  - eapply IH; [simpl; by rewrite lookup_alter_eq, lookup_delete_ne, Hm by done|done].
  - eapply IH; [simpl; by rewrite lookup_alter_ne, lookup_delete_ne by done|done].
Qed.

(** ** Reachable states *)

Inductive tree_step : Trees -> Trees -> Prop :=
| step_new t t' n : cancellation_new t = (t', n) -> tree_step t t'
| step_child t n t' c :
    is_Some (nodes t !! n) -> cancellation_child t n = (t', c) -> tree_step t t'
| step_cancel t n t' hs :
    is_Some (nodes t !! n) -> cancellation_cancel t n = (t', hs) -> tree_step t t'
| step_bind t n r h t' res : bind_cancel_hook r t n h = (t', res) -> tree_step t t'
| step_clone t n : tree_step t (clone_handle t n)
| step_drop t n s :
    nodes t !! n = Some s -> (0 < handles s)%nat -> tree_step t (drop_handle t n)
| step_drop_hook t n s h :
    nodes t !! n = Some s -> (0 < handles s)%nat -> tree_step t (drop_hook_guard t n h).

Definition trees_empty : Trees := {| nodes := ∅; next_node := 1%positive |}.

Definition reachable (t : Trees) : Prop := rtc tree_step trees_empty t.

Lemma tree_step_wf t t' : trees_wf t -> tree_step t t' -> trees_wf t'.
Proof.
  intros Hwf. destruct 1; eauto using new_wf, child_wf, cancel_wf, bind_wf, clone_wf,
    drop_handle_wf, drop_hook_guard_wf.
Qed.

Lemma reachable_wf t : reachable t -> trees_wf t.
Proof.
  unfold reachable. assert (trees_wf trees_empty) as Hwf by apply empty_wf. revert Hwf.
  generalize trees_empty. intros t0 Hwf Hr. revert Hwf.
  induction Hr as [|x y z Hxy _ IH]; [done|]. intros Hwf. by apply IH, (tree_step_wf x y).
Qed.

Lemma tree_step_irreversible t t' n :
  trees_wf t -> tree_step t t' -> is_cancelled t n = true -> is_Some (nodes t' !! n) ->
  is_cancelled t' n = true.
Proof.
  intros Hwf Hstep. unfold is_cancelled at 1. destruct (nodes t !! n) as [s|] eqn:Hs; [|done].
  intros Hc Hal.
  assert (flags_kept t t' -> is_cancelled t' n = true) as Hkept.
  { intros Hk. destruct Hal as [x Hx]. destruct (Hk n x Hx) as (x0 & Hx0 & Hcx).
    unfold is_cancelled. rewrite Hx. simplify_eq. congruence. }
  destruct Hstep as [t t' m Hn|t m t' c [sm Hm] Hch|t m t' hs Hm Hcan|t m r h t' res Hb|t m|t m sm Hm Hh|t m sm h Hm Hh].
  - unfold cancellation_new, alloc_node in Hn. simplify_eq/=. unfold is_cancelled. simpl.
    rewrite lookup_insert_ne, Hs; [done|]. pose proof (next_node_fresh t Hwf). congruence.
  - destruct (child_lookup t m sm t' c Hwf Hm Hch) as (_ & Hcm & _ & Hfresh & Hn).
    unfold is_cancelled. rewrite Hn. destruct (decide (n = m)) as [->|].
    + rewrite lookup_insert_eq. simplify_eq. done.
    + rewrite !lookup_insert_ne, Hs; [done|congruence|done].
  - destruct (cancel_effect t m t' hs Hwf Hm Hcan) as (vs & _ & _ & _ & Hn & _).
    unfold is_cancelled. rewrite Hn, Hs. simpl. by destruct (decide (n ∈ vs)).
  - apply Hkept. unfold bind_cancel_hook in Hb. repeat case_match; simplify_eq; try done.
    by apply update_flags.
  - apply Hkept. by apply update_flags.
  - apply Hkept, drop_handle_flags.
  - apply Hkept. unfold drop_hook_guard. etrans; [|apply drop_handle_flags]. by apply update_flags.
Qed.

Lemma descendant_cancelled t a n :
  trees_wf t -> descendant t a n -> is_cancelled t a = true -> is_cancelled t n = true.
Proof.
  intros Hwf Hd Ha. induction Hd as [|n s c Hd IH Hs Hc]; [done|].
  destruct (wf_child _ Hwf _ _ _ Hs Hc) as (cs & Hcs & _). unfold is_cancelled in IH |- *.
  rewrite Hs in IH. rewrite Hcs. by eapply (wf_closed _ Hwf n s c cs).
Qed.

(** ** Main results *)

(** C29.  In every reachable state the admission of an operation below a cancelled
    group is refused, however deep the group is nested and whenever the child
    groups were created; and no step reopens a cancelled group. *)
Theorem cancelled_subtree_refuses_admission t a n t' :
  reachable t -> descendant t a n -> is_cancelled t a = true ->
  lock_if_active t n = Err (NetError_new ErrorKind.Cancelled) /\
  (tree_step t t' -> is_Some (nodes t' !! n) ->
   lock_if_active t' n = Err (NetError_new ErrorKind.Cancelled)).
Proof.
  intros Hr%reachable_wf Hd Ha. pose proof (descendant_cancelled t a n Hr Hd Ha) as Hn.
  unfold lock_if_active. rewrite Hn. split; [done|]. intros Hs Hal.
  by rewrite (tree_step_irreversible t t' n Hr Hs Hn Hal).
Qed.

(** Cancelling a group cancels and notifies exactly the group and its
    descendants, leaves every other group as it was, and hands out exactly the
    cleanup hooks registered in the cancelled groups, which are unregistered. *)
Theorem cancel_reaches_exactly_descendants t r t' hs :
  reachable t -> is_Some (nodes t !! r) -> cancellation_cancel t r = (t', hs) ->
  (forall n s, nodes t !! n = Some s -> descendant t r n -> nodes t' !! n = Some (cancel_node s)) /\
  (forall n, ~ descendant t r n -> nodes t' !! n = nodes t !! n) /\
  (forall h, h ∈ hs <-> exists n s, descendant t r n /\ nodes t !! n = Some s /\ h ∈ hooks s).
Proof.
  intros Hr%reachable_wf Hal Hc.
  destruct (cancel_effect t r t' hs Hr Hal Hc) as (vs & _ & Hvs & _ & Hn & Hh).
  split_and!; [| |done].
  - intros n s Hs Hd%Hvs. by rewrite Hn, Hs, decide_True.
  - intros n Hnd. rewrite Hn, decide_False by (by rewrite Hvs). by destruct (nodes t !! n).
Qed.

(** Dropping the last handle of a group frees it and every ancestor that has
    no other owner, and nothing else: a group that is still held by a handle or
    by a live child stays, with its cancellation flag unchanged. *)
Theorem drop_keeps_owned_groups t n s :
  reachable t -> nodes t !! n = Some s -> (0 < handles s)%nat ->
  trees_wf (drop_handle t n) /\ flags_kept t (drop_handle t n) /\
  (forall m ms, nodes t !! m = Some ms -> m <> n -> (0 < handles ms)%nat ->
     is_Some (nodes (drop_handle t n) !! m)).
Proof.
  intros Hr%reachable_wf Hs Hh. split_and!; [by eapply drop_handle_wf|apply drop_handle_flags|].
  intros m ms Hm Hne Hmh. unfold drop_handle. eapply release_loop_keeps; [|exact Hmh].
  simpl. by rewrite lookup_alter_ne.
Qed.

(** ** Concrete instance: a root with a child and a grandchild *)

Definition sample_root : Trees := (cancellation_new trees_empty).1.
Definition sample_child : Trees := (cancellation_child sample_root 1).1.
Definition sample_family : Trees := (cancellation_child sample_child 2).1.
Definition sample_hooked : Trees := (bind_cancel_hook true sample_family 3 7).1.
Definition sample_cancelled : Trees := (cancellation_cancel sample_hooked 1).1.

Lemma sample_hooked_reachable : reachable sample_hooked.
Proof.
  eapply rtc_l; [apply (step_new trees_empty sample_root 1%positive); reflexivity|].
  eapply rtc_l; [apply (step_child sample_root 1 sample_child 2%positive); [by eexists|reflexivity]|].
  eapply rtc_l; [apply (step_child sample_child 2 sample_family 3%positive); [by eexists|reflexivity]|].
  eapply rtc_l; [apply (step_bind sample_family 3 true 7 sample_hooked (Ok tt)); reflexivity|].
  apply rtc_refl.
Qed.

Lemma sample_cancelled_reachable : reachable sample_cancelled.
Proof.
  eapply rtc_r; [exact sample_hooked_reachable|].
  apply (step_cancel sample_hooked 1 sample_cancelled [7%positive]); [by eexists|].
  vm_compute. reflexivity.
Qed.

Lemma sample_descends t s1 s2 :
  nodes t !! 1%positive = Some s1 -> nodes t !! 2%positive = Some s2 ->
  2%positive ∈ children s1 -> 3%positive ∈ children s2 -> descendant t 1 3.
Proof.
  intros H1 H2 Hc1 Hc2. eapply desc_child; [|exact H2|done].
  eapply desc_child; [|exact H1|done]. constructor. by rewrite H1.
Qed.

Lemma sample_cancelled_descends : descendant sample_cancelled 1 3.
Proof.
  destruct (nodes sample_cancelled !! 1%positive) as [s1|] eqn:H1; [|vm_compute in H1; discriminate].
  destruct (nodes sample_cancelled !! 2%positive) as [s2|] eqn:H2; [|vm_compute in H2; discriminate].
  apply (sample_descends _ s1 s2 H1 H2); vm_compute in H1, H2; simplify_eq; set_solver.
Qed.

Lemma sample_hooked_descends : descendant sample_hooked 1 3.
Proof.
  destruct (nodes sample_hooked !! 1%positive) as [s1|] eqn:H1; [|vm_compute in H1; discriminate].
  destruct (nodes sample_hooked !! 2%positive) as [s2|] eqn:H2; [|vm_compute in H2; discriminate].
  apply (sample_descends _ s1 s2 H1 H2); vm_compute in H1, H2; simplify_eq; set_solver.
Qed.

Lemma cancelled_subtree_refuses_admission_witness :
  lock_if_active sample_cancelled 3 = Err (NetError_new ErrorKind.Cancelled).
Proof.
  exact (proj1 (cancelled_subtree_refuses_admission sample_cancelled 1 3 sample_cancelled
    sample_cancelled_reachable sample_cancelled_descends (ltac:(vm_compute; reflexivity)))).
Defined.

Lemma cancel_reaches_exactly_descendants_witness :
  cancellation_cancel sample_hooked 1 = (sample_cancelled, [7%positive]) /\
  (forall n s, nodes sample_hooked !! n = Some s -> descendant sample_hooked 1 n ->
     nodes sample_cancelled !! n = Some (cancel_node s)).
Proof.
  assert (cancellation_cancel sample_hooked 1 = (sample_cancelled, [7%positive])) as Hc
    by (vm_compute; reflexivity).
  split; [exact Hc|].
  exact (proj1 (cancel_reaches_exactly_descendants sample_hooked 1 sample_cancelled [7%positive]
    sample_hooked_reachable (ltac:(vm_compute; by eexists)) Hc)).
Defined.

(** Dropping the child's own handle keeps it alive through the grandchild. *)
Lemma drop_keeps_owned_groups_witness :
  is_Some (nodes (drop_handle sample_hooked 2) !! 2%positive) /\
  is_Some (nodes (drop_handle sample_hooked 2) !! 3%positive).
Proof.
  split; [vm_compute; by eexists|].
  destruct (nodes sample_hooked !! 2%positive) as [s2|] eqn:H2; [|vm_compute in H2; discriminate].
  destruct (nodes sample_hooked !! 3%positive) as [s3|] eqn:H3; [|vm_compute in H3; discriminate].
  assert (0 < handles s2)%nat as Hh2 by (vm_compute in H2; simplify_eq; simpl; lia).
  assert (0 < handles s3)%nat as Hh3 by (vm_compute in H3; simplify_eq; simpl; lia).
  exact (proj2 (proj2 (drop_keeps_owned_groups sample_hooked 2 s2 sample_hooked_reachable H2 Hh2))
    3%positive s3 H3 ltac:(discriminate) Hh3).
Defined.
