(* ===== verification/WsTask.v ===== *)
(** * Messages, requests and task events
      (src/api/ws/message.rs, request.rs, task.rs) *)

From Stdlib Require Import Strings.Byte.
From S2P Require Import Prelude F64 Backoff RetrySchedule RetryState Errors WsRetry WsOptions.

Module Message.
Inductive Message := Text (text : string) | Binary (bytes : list Byte.byte).
End Message.
Abbreviation Message := Message.Message.

(** A [String] is its UTF-8 bytes. *)
Definition as_bytes (m : Message) : list Byte.byte :=
  match m with
  | Message.Text value => String.list_byte_of_string value
  | Message.Binary value => value
  end.

Definition message_len (m : Message) : Z := Z.of_nat (length (as_bytes m)).

Record Request := mkRequest {
  req_id : RequestId;
  req_message : Message;
  req_metadata : Metadata;
}.

Module TaskSource.
Inductive TaskSource :=
| RequestOperation (metadata : Metadata)
| Message (message : Message)
| Request (request : Request).
End TaskSource.
Abbreviation TaskSource := TaskSource.TaskSource.

Definition item_too_large : NetError := NetError_new ErrorKind.ItemTooLarge.

(** Adds the lengths of all keys and values to [bytes]. *)
Fixpoint add_metadata_bytes (bytes : Z) (m : Metadata) : Result Z NetError :=
  match m with
  | [] => Ok bytes
  | (key, value) :: rest =>
      let? bytes := ok_or (checked_add usize_max bytes (byte_len key) ≫= fun size =>
                           checked_add usize_max size (byte_len value)) item_too_large in
      add_metadata_bytes bytes rest
  end.

Definition payload_bytes (s : TaskSource) : Result Z NetError :=
  match s with
  | TaskSource.RequestOperation m => add_metadata_bytes 0 m
  | TaskSource.Message message => Ok (message_len message)
  | TaskSource.Request request =>
      let? bytes := ok_or (checked_add usize_max (message_len (req_message request))
                                       (byte_len (req_id request))) item_too_large in
      add_metadata_bytes bytes (req_metadata request)
  end.

(** ** Task events *)

Abbreviation OperationId := Z (only parsing).

Record TaskEvent := mkTaskEvent {
  ev_client_id : ClientId;
  ev_session_id : SessionId;
  ev_operation_id : OperationId;
  ev_connection_id : option ConnectionId;
  ev_source : TaskSource;
  ev_lane : MessageLane;
  ev_phase : OperationPhase;
  ev_delivery : DeliveryEvidence;
  ev_cause : TaskEndCause;
  ev_result : Result TaskSuccess NetError;
}.

(** ** Properties *)

Definition metadata_bytes (m : Metadata) : Z :=
  foldr (fun '(k, v) acc => byte_len k + byte_len v + acc) 0 m.

(** The exact size of the variable-size input. *)
Definition source_bytes (s : TaskSource) : Z :=
  match s with
  | TaskSource.RequestOperation m => metadata_bytes m
  | TaskSource.Message message => message_len message
  | TaskSource.Request r =>
      message_len (req_message r) + byte_len (req_id r) + metadata_bytes (req_metadata r)
  end.

Lemma byte_len_nonneg s : 0 <= byte_len s.
Proof. unfold byte_len. lia. Qed.

Lemma metadata_bytes_nonneg m : 0 <= metadata_bytes m.
Proof.
  induction m as [|[k v] m IH]; simpl; [done|].
  pose proof (byte_len_nonneg k). pose proof (byte_len_nonneg v). unfold metadata_bytes in *. lia.
Qed.

Lemma add_metadata_bytes_spec bytes m :
  0 <= bytes <= usize_max ->
  add_metadata_bytes bytes m =
    if bytes + metadata_bytes m <=? usize_max then Ok (bytes + metadata_bytes m)
    else Err item_too_large.
Proof.
  revert bytes. induction m as [|[k v] m IH]; intros bytes Hb; simpl.
  { rewrite Z.add_0_r. by rewrite (proj2 (Z.leb_le _ _)) by lia. }
  pose proof (byte_len_nonneg k). pose proof (byte_len_nonneg v).
  pose proof (metadata_bytes_nonneg m) as Hm. unfold metadata_bytes in *. simpl.
  set (rest := foldr _ 0 m) in *. unfold checked_add.
  destruct (Z.leb_spec (bytes + byte_len k) usize_max); simpl.
  2: { by rewrite (proj2 (Z.leb_gt _ _)) by lia. }
  destruct (Z.leb_spec (bytes + byte_len k + byte_len v) usize_max); simpl.
  2: { by rewrite (proj2 (Z.leb_gt _ _)) by lia. }
  rewrite IH by lia.
  by replace (bytes + (byte_len k + byte_len v + rest)) with (bytes + byte_len k + byte_len v + rest)
    by lia.
Qed.

(** The charge of a task is the exact size of its input, or the task is refused
    when that size does not fit a [usize]; it never wraps around. *)
Theorem payload_bytes_exact s :
  match s with TaskSource.Message m => message_len m <= usize_max | _ => True end ->
  match s with TaskSource.Request r => message_len (req_message r) <= usize_max | _ => True end ->
  payload_bytes s = if source_bytes s <=? usize_max then Ok (source_bytes s) else Err item_too_large.
Proof.
  intros Hm Hr. destruct s as [m|m|r]; simpl.
  - rewrite add_metadata_bytes_spec by machine. done.
  - by rewrite (proj2 (Z.leb_le _ _)).
  - pose proof (byte_len_nonneg (req_id r)). pose proof (metadata_bytes_nonneg (req_metadata r)).
    assert (0 <= message_len (req_message r)) by (unfold message_len; lia).
    unfold checked_add. destruct (Z.leb_spec (message_len (req_message r) + byte_len (req_id r)) usize_max);
      simpl.
    + by rewrite add_metadata_bytes_spec by lia.
    + by rewrite (proj2 (Z.leb_gt _ _)) by lia.
Qed.

Lemma payload_bytes_exact_witness :
  payload_bytes (TaskSource.Request (mkRequest "id-1" (Message.Text "hello") [("k", "value")])) = Ok 15.
Proof.
  exact (payload_bytes_exact (TaskSource.Request (mkRequest "id-1" (Message.Text "hello") [("k", "value")]))
    I (ltac:(vm_compute; discriminate))).
Defined.
