(* ===== verification/IndexedHeap.v ===== *)
(** * The indexed max-heap of pending sends
      (src/module/ws_client/write/indexed_heap.rs)

    The heap is generic in the request type through [HeapItem]: the identity of
    the dispatch token and the comparison [left > right] of the scheduling key.
    PriorityWriteQueue.v provides the instance the program uses.  The nodes are a
    list, the index a finite map from token identity to position.  Whether
    [try_reserve] finds memory is an input of [push].  The test-only counters
    ([#[cfg(test)]]) are left out. *)

From Stdlib Require Import Zify ZifyNat Sorted.
From S2P Require Import Prelude.

(** The identity of a cancellation token: clones share it. *)
Abbreviation Token := positive (only parsing).

Class HeapItem (R : Type) := {
  item_token : R -> Token;
  item_gt : R -> R -> bool;
}.

(** What the heap relies on: the key order is a strict weak order. *)
Class HeapItemLaws (R : Type) {item : HeapItem R} : Prop := {
  item_gt_asym x y : item_gt x y = true -> item_gt y x = false;
  item_le_trans x y z : item_gt x y = false -> item_gt y z = false -> item_gt x z = false;
}.

Record IndexedHeap (R : Type) := mkIndexedHeap {
  items : list R;
  positions : gmap Token nat;
}.
Arguments mkIndexedHeap {R} items positions.
Arguments items {R} _.
Arguments positions {R} _.

#[export] Instance IndexedHeap_settable R : Settable (IndexedHeap R) :=
  fields! mkIndexedHeap [ items; positions ].

Definition usize_checked_sub (a b : nat) : option nat :=
  if (b <=? a)%nat then Some (a - b)%nat else None.

Definition usize_checked_add (a b : nat) : option nat :=
  if Z.of_nat (a + b) <=? usize_max then Some (a + b)%nat else None.

Definition usize_checked_mul (a b : nat) : option nat :=
  if Z.of_nat (a * b) <=? usize_max then Some (a * b)%nat else None.

Section Heap.
Context {R : Type} {item : HeapItem R}.
Implicit Types (h : IndexedHeap R) (x y : R).

Definition heap_new : IndexedHeap R := {| items := []; positions := ∅ |}.

Definition heap_len h : nat := length (items h).

Definition peek h : option R := head (items h).

Definition heap_contains h (token : Token) : bool := is_some (positions h !! token).

Definition greater h (left right : nat) : bool :=
  match items h !! left, items h !! right with
  | Some l, Some r => item_gt l r
  | _, _ => false
  end.

Definition swap h (left right : nat) : IndexedHeap R * bool :=
  if (left =? right)%nat then (h, true)
  else
    match items h !! left, items h !! right with
    | Some l, Some r =>
        (* the slots now hold each other's request *)
        let left_item := r in
        let right_item := l in
        let h := h <| items := <[left := left_item]> (<[right := right_item]> (items h)) |> in
        let h := h <| positions ::= alter (fun _ => left) (item_token left_item) |> in
        let h := h <| positions ::= alter (fun _ => right) (item_token right_item) |> in
        (h, true)
    | _, _ => (h, false)
    end.

(** The loops carry fuel; [sift_up] and [sift_down] supply enough of it for the
    loop to leave through its own exit (see [sift_up_unroll], [sift_down_unroll]). *)
Fixpoint sift_up_loop (fuel : nat) h (index : nat) : IndexedHeap R :=
  match fuel with
  | O => h
  | S fuel =>
      match usize_checked_sub index 1 with
      | None => h
      | Some value =>
          let parent := (value / 2)%nat in
          if negb (greater h index parent) then h
          else
            let '(h, swapped) := swap h index parent in
            if negb swapped then h else sift_up_loop fuel h parent
      end
  end.

Definition sift_up h (index : nat) : IndexedHeap R := sift_up_loop (S index) h index.

(** The child compared with [index]: the right one when it exists and is greater. *)
Definition larger_child h (left : nat) : nat :=
  match usize_checked_add left 1 with
  | Some right' =>
      if is_some (items h !! right') && greater h right' left then right' else left
  | None => left
  end.

Fixpoint sift_down_loop (fuel : nat) h (index : nat) : IndexedHeap R :=
  match fuel with
  | O => h
  | S fuel =>
      match usize_checked_mul index 2 ≫= (fun value => usize_checked_add value 1) with
      | None => h
      | Some left' =>
          if is_none (items h !! left') then h
          else
            let larger := larger_child h left' in
            if negb (greater h larger index) then h
            else
              let '(h, swapped) := swap h index larger in
              if negb swapped then h else sift_down_loop fuel h larger
      end
  end.

Definition sift_down h (index : nat) : IndexedHeap R :=
  sift_down_loop (S (length (items h))) h index.

Definition heap_push (reserve_items reserve_positions : bool) h (request : R) :
    IndexedHeap R * Result () R :=
  if heap_contains h (item_token request) || negb reserve_items || negb reserve_positions
  then (h, Err request)
  else
    let index := length (items h) in
    let h := h <| positions ::= <[item_token request := index]> |> in
    let h := h <| items ::= fun l => l ++ [request] |> in
    (sift_up h index, Ok tt).

(** [Vec::pop] *)
Definition vec_pop {A} (l : list A) : option (list A * A) :=
  match last l with Some x => Some (take (length l - 1) l, x) | None => None end.

Definition heap_remove h (token : Token) : IndexedHeap R * option R :=
  match positions h !! token with
  | None => (h, None)
  | Some index =>
      if negb (is_some_and (items h !! index)
                 (fun x => bool_decide (item_token x = token)))
      then (h, None)
      else
        match usize_checked_sub (length (items h)) 1 with
        | None => (h, None)
        | Some last_index =>
            match vec_pop (items h) with
            | None => (h, None)
            | Some (rest, last) =>
                let h := h <| items := rest |> in
                if (index =? last_index)%nat
                then (h <| positions ::= delete token |>, Some last)
                else
                  match items h !! index with
                  | None => (h <| items ::= fun l => l ++ [last] |>, None)
                  | Some removed =>
                      let h := h <| items ::= <[index := last]> |> in
                      let h := h <| positions ::= delete token |> in
                      let h :=
                        match positions h !! item_token last with
                        | Some _ => h <| positions ::= alter (fun _ => index) (item_token last) |>
                        | None => h <| positions ::= <[item_token last := index]> |>
                        end in
                      let h :=
                        if is_some_and (usize_checked_sub index 1)
                             (fun parent => greater h index (parent / 2))
                        then sift_up h index
                        else sift_down h index in
                      (h, Some removed)
                  end
            end
        end
  end.

Definition heap_pop h : IndexedHeap R * option R :=
  match head (items h) with
  | None => (h, None)
  | Some x => heap_remove h (item_token x)
  end.

Definition heap_drain h : IndexedHeap R * list R :=
  let h' := h <| positions := ∅ |> in
  (h' <| items := [] |>, items h').

(** ** Invariant

    [index_ok]: nodes and index entries agree in both directions, hence the
    tokens are pairwise distinct.  [heap_ok]: no node is greater than its parent.
    Together they are the [valid] predicate of the test build. *)

Definition parent_of (p j : nat) : Prop := (0 < j)%nat /\ p = ((j - 1) / 2)%nat.

Definition index_ok h : Prop :=
  (forall i x, items h !! i = Some x -> positions h !! item_token x = Some i) /\
  (forall t i, positions h !! t = Some i -> exists x, items h !! i = Some x /\ item_token x = t).

Definition node_le h (i j : nat) : Prop :=
  forall x y, items h !! i = Some x -> items h !! j = Some y -> item_gt x y = false.

Definition heap_ok h : Prop := forall p j, parent_of p j -> node_le h j p.

(** The vector of a running process holds at most [isize::MAX] bytes. *)
Definition fits h : Prop := Z.of_nat (length (items h)) <= isize_max.

Record heap_valid h : Prop := {
  valid_index : index_ok h;
  valid_heap : heap_ok h;
  valid_fits : fits h;
}.

(** The invariants of the two repair loops: the order may be broken only between
    [i] and its parent, or only between [i] and its children. *)
Definition heap_up h (i : nat) : Prop :=
  (forall p j, parent_of p j -> j <> i -> node_le h j p) /\
  (forall p c, parent_of p i -> parent_of i c -> node_le h c p).

Definition heap_down h (i : nat) : Prop :=
  (forall p j, parent_of p j -> p <> i -> node_le h j p) /\
  (forall p c, parent_of p i -> parent_of i c -> node_le h c p).

(** The predicate of the test build, [valid]. *)
Definition heap_validb h : bool :=
  (length (items h) =? size (positions h))%nat &&
  forallb (fun '(index, x) =>
    bool_decide (positions h !! item_token x = Some index) &&
    match usize_checked_sub index 1 ≫= (fun value => items h !! (value / 2)%nat) with
    | Some parent => negb (item_gt x parent)
    | None => (index =? 0)%nat
    end) (imap pair (items h)).

(** ** Sequences of operations and the abstract priority bag *)

Inductive HeapOp :=
| HPush (reserve_items reserve_positions : bool) (request : R)
| HRemove (token : Token)
| HPop
| HDrain.

Inductive HeapOut :=
| OPush (r : Result () R)
| ORemove (r : option R)
| OPop (r : option R)
| ODrain (r : list R).

Definition heap_step h (op : HeapOp) : IndexedHeap R * HeapOut :=
  match op with
  | HPush ri rp x => let '(h, r) := heap_push ri rp h x in (h, OPush r)
  | HRemove t => let '(h, r) := heap_remove h t in (h, ORemove r)
  | HPop => let '(h, r) := heap_pop h in (h, OPop r)
  | HDrain => let '(h, r) := heap_drain h in (h, ODrain r)
  end.

Fixpoint heap_run h (ops : list HeapOp) : IndexedHeap R * list HeapOut :=
  match ops with
  | [] => (h, [])
  | op :: ops =>
      let '(h, out) := heap_step h op in
      let '(h, outs) := heap_run h ops in
      (h, out :: outs)
  end.

(** The contract: a bag of requests with distinct tokens, from which [pop] takes a
    greatest one. *)
Inductive bag_step : list R -> HeapOp -> HeapOut -> list R -> Prop :=
| bag_push b x :
    Forall (fun y => item_token y <> item_token x) b ->
    bag_step b (HPush true true x) (OPush (Ok tt)) (x :: b)
| bag_push_refused b ri rp x :
    Exists (fun y => item_token y = item_token x) b \/ ri = false \/ rp = false ->
    bag_step b (HPush ri rp x) (OPush (Err x)) b
| bag_remove b x b' :
    b ≡ₚ x :: b' -> bag_step b (HRemove (item_token x)) (ORemove (Some x)) b'
| bag_remove_absent b t :
    Forall (fun y => item_token y <> t) b -> bag_step b (HRemove t) (ORemove None) b
| bag_pop b x b' :
    b ≡ₚ x :: b' -> (forall y, y ∈ b -> item_gt y x = false) -> bag_step b HPop (OPop (Some x)) b'
| bag_pop_empty : bag_step [] HPop (OPop None) []
| bag_drain b xs : xs ≡ₚ b -> bag_step b HDrain (ODrain xs) [].

Inductive bag_run : list R -> list HeapOp -> list HeapOut -> list R -> Prop :=
| bag_run_nil b : bag_run b [] [] b
| bag_run_cons b op out b1 b1' ops outs b2 :
    bag_step b op out b1 -> b1 ≡ₚ b1' -> bag_run b1' ops outs b2 ->
    bag_run b (op :: ops) (out :: outs) b2.

(** ** Exchanging two nodes *)

Context {laws : HeapItemLaws R}.

Lemma item_gt_irrefl x : item_gt x x = false.
Proof. destruct (item_gt x x) eqn:E; [|done]. by rewrite (item_gt_asym x x) in E. Qed.

Lemma item_gt_le_trans x y z : item_gt x y = true -> item_gt z y = false -> item_gt z x = false.
Proof. intros Hxy Hzy. eapply item_le_trans; [exact Hzy|]. by apply item_gt_asym. Qed.

Lemma swap_spec h l r x y :
  l <> r -> items h !! l = Some x -> items h !! r = Some y ->
  exists h', swap h l r = (h', true) /\
    (forall j, items h' !! j = if decide (j = l) then Some y
                             else if decide (j = r) then Some x else items h !! j) /\
    items h' ≡ₚ items h /\ length (items h') = length (items h) /\
    positions h' = alter (fun _ => r) (item_token x) (alter (fun _ => l) (item_token y) (positions h)).
Proof.
  intros Hne Hx Hy. unfold swap. rewrite (proj2 (Nat.eqb_neq l r) Hne), Hx, Hy.
  eexists. split; [done|]. simpl.
  apply lookup_lt_Some in Hx as Hlx. apply lookup_lt_Some in Hy as Hly.
  repeat split.
  - intros j. destruct (decide (j = l)) as [->|Hjl].
    { rewrite list_lookup_insert_eq; [done|by rewrite length_insert]. }
    rewrite list_lookup_insert_ne by done. destruct (decide (j = r)) as [->|Hjr].
    { by rewrite list_lookup_insert_eq. }
    by rewrite list_lookup_insert_ne.
  - by apply Permutation_insert_swap.
  - by rewrite !length_insert.
Qed.

Lemma swap_index_ok h l r h' :
  index_ok h -> swap h l r = (h', true) -> index_ok h'.
Proof.
  intros Hi Hs. destruct (decide (l = r)) as [->|Hne].
  { unfold swap in Hs. rewrite Nat.eqb_refl in Hs. by simplify_eq. }
  destruct (items h !! l) as [x|] eqn:Hx, (items h !! r) as [y|] eqn:Hy;
    try (unfold swap in Hs; rewrite (proj2 (Nat.eqb_neq l r) Hne), ?Hx, ?Hy in Hs; by simplify_eq).
  destruct (swap_spec h l r x y Hne Hx Hy) as (h2 & Hs2 & Hl & _ & _ & Hp).
  assert (h2 = h') as -> by congruence. destruct Hi as [H1 H2].
  pose proof (H1 _ _ Hx) as Hpx. pose proof (H1 _ _ Hy) as Hpy.
  assert (item_token x <> item_token y) as Hxy by congruence.
  assert (forall t, positions h' !! t =
    if decide (t = item_token x) then Some r
    else if decide (t = item_token y) then Some l else positions h !! t) as Hpos.
  { intros t. rewrite Hp. destruct (decide (t = item_token x)) as [->|].
    - rewrite lookup_alter_eq, lookup_alter_ne by done. by rewrite Hpx.
    - rewrite lookup_alter_ne by done. destruct (decide (t = item_token y)) as [->|].
      + rewrite lookup_alter_eq. by rewrite Hpy.
      + by rewrite lookup_alter_ne. }
  split.
  - intros i z. rewrite Hl, Hpos. intros Hz.
    destruct (decide (i = l)) as [->|]; simplify_eq.
    { rewrite decide_False, decide_True by congruence. done. }
    destruct (decide (i = r)) as [->|]; simplify_eq.
    { by rewrite decide_True by done. }
    pose proof (H1 _ _ Hz). rewrite !decide_False by congruence. done.
  - intros t i. rewrite Hpos. setoid_rewrite Hl. intros Ht.
    destruct (decide (t = item_token x)) as [->|]; simplify_eq.
    { exists x. by rewrite decide_False, decide_True by done. }
    destruct (decide (t = item_token y)) as [->|]; simplify_eq.
    { exists y. by rewrite decide_True by done. }
    destruct (H2 _ _ Ht) as (z & Hz & <-). exists z.
    rewrite !decide_False; [done|congruence..].
Qed.

(** ** The repair loops *)

Lemma greater_true h i j :
  greater h i j = true <->
  exists x y, items h !! i = Some x /\ items h !! j = Some y /\ item_gt x y = true.
Proof.
  unfold greater. destruct (items h !! i), (items h !! j); naive_solver.
Qed.

Lemma greater_false h i j : greater h i j = false <-> node_le h i j.
Proof.
  unfold greater, node_le. destruct (items h !! i), (items h !! j); naive_solver.
Qed.

Lemma usize_sub_parent i :
  usize_checked_sub i 1 = if decide (i = 0%nat) then None else Some (i - 1)%nat.
Proof.
  unfold usize_checked_sub. destruct (Nat.leb_spec 1 i), (decide (i = 0%nat)); done || lia.
Qed.

(** What one exchange of the loops does to the node contents. *)
Definition exchanged h h' (i j : nat) : Prop :=
  (forall k, items h' !! k = if decide (k = i) then items h !! j
                           else if decide (k = j) then items h !! i else items h !! k) /\
  items h' ≡ₚ items h /\ length (items h') = length (items h) /\
  (index_ok h -> index_ok h').

Lemma greater_swap h i j :
  greater h i j = true \/ greater h j i = true ->
  i <> j /\ exists h', swap h i j = (h', true) /\ exchanged h h' i j.
Proof.
  intros Hg. assert (exists x y, items h !! i = Some x /\ items h !! j = Some y /\ i <> j)
    as (x & y & Hx & Hy & Hne).
  { destruct Hg as [(x & y & Hx & Hy & Hg)%greater_true|(x & y & Hx & Hy & Hg)%greater_true];
      do 2 eexists; (split; [done|split; [done|]]);
      intros ->; simplify_eq; by rewrite item_gt_irrefl in Hg. }
  split; [done|]. destruct (swap_spec h i j x y Hne Hx Hy) as (h' & Hs & Hl & Hp & Hlen & _).
  exists h'. split; [done|]. split; [|split; [done|split; [done|]]].
  - intros k. rewrite Hl, Hx, Hy. done.
  - intros Hi. by eapply swap_index_ok.
Qed.

Lemma heap_up_step h h' i p :
  heap_up h i -> parent_of p i -> greater h i p = true -> exchanged h h' i p -> heap_up h' p.
Proof.
  unfold heap_up, node_le. intros [Hup Hgap] Hpi Hg (Hl & _).
  apply greater_true in Hg as (x & y & Hx & Hy & Hg). pose proof (item_gt_asym _ _ Hg) as Hle.
  assert (forall q c, parent_of q p -> parent_of p c -> forall z w, items h' !! c = Some z ->
            items h !! q = Some w -> item_gt z w = false) as Hgap'.
  { intros q c Hq Hc z w. rewrite Hl. intros Hz Hw.
    assert (item_gt y w = false) as Hyw.
    { eapply (Hup q p); try done. unfold parent_of in *. lia. }
    destruct (decide (c = i)) as [->|]; [by simplify_eq|].
    rewrite decide_False in Hz by (unfold parent_of in *; lia).
    eapply item_le_trans; [|exact Hyw]. by eapply (Hup p c). }
  split.
  - intros q j Hqj Hjp z w. rewrite !Hl. rewrite (decide_False (P := j = p)) by done.
    intros Hz Hw. destruct (decide (j = i)) as [->|Hji].
    { assert (q = p) as -> by (unfold parent_of in *; lia).
      rewrite decide_False in Hw by (unfold parent_of in *; lia).
      rewrite decide_True in Hw by done. by simplify_eq. }
    destruct (decide (q = i)) as [->|Hqi].
    { rewrite Hy in Hw. simplify_eq. by eapply (Hgap p j). }
    destruct (decide (q = p)) as [->|Hqp]; simplify_eq.
    { eapply item_le_trans; [by eapply (Hup p j)|done]. }
    by eapply (Hup q j).
  - intros q c Hq Hc z w Hz Hw. rewrite Hl in Hw.
    rewrite !decide_False in Hw by (unfold parent_of in *; lia). by eapply Hgap'.
Qed.

Lemma heap_down_step h h' i L :
  heap_down h i -> parent_of i L -> greater h L i = true ->
  (forall c, parent_of i c -> node_le h c L) -> exchanged h h' i L -> heap_down h' L.
Proof.
  unfold heap_down, node_le. intros [Hdn Hgap] HiL Hg Hmax (Hl & _).
  apply greater_true in Hg as (x & y & Hx & Hy & Hg). pose proof (item_gt_asym _ _ Hg) as Hle.
  split.
  - intros q j Hqj HqL z w. rewrite !Hl. rewrite (decide_False (P := q = L)) by done.
    intros Hz Hw. destruct (decide (j = i)) as [->|Hji].
    { rewrite decide_False in Hw by (unfold parent_of in *; lia). by eapply (Hgap q L). }
    destruct (decide (q = i)) as [->|Hqi].
    { destruct (decide (j = L)) as [->|HjL]; simplify_eq; [done|]. by eapply (Hmax j). }
    rewrite decide_False in Hz by (unfold parent_of in *; lia). by eapply (Hdn q j).
  - intros q c Hq Hc z w. rewrite !Hl.
    assert (q = i) as -> by (unfold parent_of in *; lia).
    rewrite (decide_True (P := i = i)) by done.
    rewrite !(decide_False (P := c = _)) by (unfold parent_of in *; lia).
    intros Hz Hw. eapply (Hdn L c); try done. unfold parent_of in *; lia.
Qed.

Lemma heap_up_done h i p : heap_up h i -> parent_of p i -> greater h i p = false -> heap_ok h.
Proof.
  intros [Hup _] Hpi Hg%greater_false q j Hqj. destruct (decide (j = i)) as [->|]; [|by apply Hup].
  assert (q = p) as -> by (unfold parent_of in *; lia). done.
Qed.

Lemma heap_up_root h : heap_up h 0 -> heap_ok h.
Proof. intros [Hup _] q j Hqj. apply Hup; [done|]. unfold parent_of in *; lia. Qed.

Lemma heap_down_done h i :
  heap_down h i -> (forall c, parent_of i c -> node_le h c i) -> heap_ok h.
Proof.
  intros [Hdn _] Hc q j Hqj. destruct (decide (q = i)) as [->|]; [by apply Hc|by apply Hdn].
Qed.

(** A rearrangement keeps the requests and the agreement of the index. *)
Definition rearranged h h' : Prop :=
  items h' ≡ₚ items h /\ length (items h') = length (items h) /\ (index_ok h -> index_ok h').

#[local] Instance rearranged_preorder : PreOrder rearranged.
Proof.
  split; [by intros h|]. intros h1 h2 h3 (Hp & Hl & Hi) (Hp' & Hl' & Hi').
  split; [by etrans|split; [congruence|auto]].
Qed.

Lemma exchanged_rearranged h h' i j : exchanged h h' i j -> rearranged h h'.
Proof. by intros (_ & ?). Qed.

Lemma sift_up_loop_spec fuel h i :
  (i < fuel)%nat -> heap_up h i ->
  rearranged h (sift_up_loop fuel h i) /\ heap_ok (sift_up_loop fuel h i).
Proof.
  revert h i. induction fuel as [|fuel IH]; intros h i Hi Hup; [lia|]. cbn [sift_up_loop].
  rewrite usize_sub_parent. destruct (decide (i = 0%nat)) as [->|Hnz].
  { split; [done|by apply heap_up_root]. }
  assert (parent_of ((i - 1) / 2) i) as Hp by (unfold parent_of; lia).
  destruct (greater h i ((i - 1) / 2)) eqn:Hg; cbn [negb].
  - destruct (greater_swap h i ((i - 1) / 2)) as (_ & h' & -> & He); [by left|]. cbn [negb].
    destruct (IH h' ((i - 1) / 2)%nat) as [Hr Hok]; [lia|by eapply heap_up_step|].
    split; [|done]. etrans; [by eapply exchanged_rearranged|done].
  - split; [done|by eapply heap_up_done].
Qed.

Lemma sift_up_spec h i :
  heap_up h i -> rearranged h (sift_up h i) /\ heap_ok (sift_up h i).
Proof. apply sift_up_loop_spec. lia. Qed.

Lemma larger_child_spec h i left' :
  fits h -> left' = (2 * i + 1)%nat -> is_Some (items h !! left') ->
  parent_of i (larger_child h left') /\
  (larger_child h left' < length (items h))%nat /\
  (forall c, parent_of i c -> node_le h c (larger_child h left')).
Proof.
  intros Hf Hleft Hsome. pose proof Hsome as Hlt. apply lookup_lt_is_Some_1 in Hlt.
  assert (usize_checked_add left' 1 = Some (left' + 1)%nat) as Hadd.
  { unfold usize_checked_add, fits in *. rewrite (proj2 (Z.leb_le _ _)); [done|machine]. }
  assert (forall c, parent_of i c -> c = left' \/ c = (left' + 1)%nat) as Hch.
  { unfold parent_of. intros. lia. }
  unfold larger_child. rewrite Hadd.
  destruct (items h !! (left' + 1)%nat) as [y|] eqn:Hy; simpl.
  - apply lookup_lt_Some in Hy as Hlt'.
    destruct (greater h (left' + 1) left') eqn:Hg.
    + split; [unfold parent_of; lia|split; [done|]]. intros c [-> | ->]%Hch.
      * apply greater_true in Hg as (x & z & Hx & Hz & Hg). intros a b Ha Hb. simplify_eq.
        by apply item_gt_asym.
      * intros a b Ha Hb. simplify_eq. apply item_gt_irrefl.
    + split; [unfold parent_of; lia|split; [done|]]. intros c [-> | ->]%Hch.
      * intros a b Ha Hb. simplify_eq. apply item_gt_irrefl.
      * by apply greater_false.
  - split; [unfold parent_of; lia|split; [done|]]. intros c [-> | ->]%Hch.
    + intros a b Ha Hb. simplify_eq. apply item_gt_irrefl.
    + intros a b Ha. by rewrite Hy in Ha.
Qed.

Lemma left_child_index h i :
  fits h -> (i < length (items h))%nat ->
  usize_checked_mul i 2 ≫= (fun value => usize_checked_add value 1) = Some (2 * i + 1)%nat.
Proof.
  unfold fits, usize_checked_mul, usize_checked_add. intros Hf Hi.
  rewrite (proj2 (Z.leb_le _ _)) by machine. simpl.
  rewrite (proj2 (Z.leb_le _ _)) by machine. f_equal. lia.
Qed.

Lemma sift_down_loop_spec fuel h i :
  fits h -> (i < length (items h))%nat -> (length (items h) - i <= fuel)%nat -> heap_down h i ->
  rearranged h (sift_down_loop fuel h i) /\ heap_ok (sift_down_loop fuel h i).
Proof.
  revert h i. induction fuel as [|fuel IH]; intros h i Hf Hi Hfuel Hdn; [lia|]. cbn [sift_down_loop].
  rewrite (left_child_index h i) by done.
  destruct (items h !! (2 * i + 1)%nat) as [l|] eqn:Hl; cbn [is_none is_some negb].
  - destruct (larger_child_spec h i (2 * i + 1)) as (Hp & Hlt & Hmax); [done..|by rewrite Hl|].
    set (L := larger_child h (2 * i + 1)) in *.
    destruct (greater h L i) eqn:Hg; cbn [negb].
    + destruct (greater_swap h i L) as (_ & h' & -> & He); [by right|]. cbn [negb].
      pose proof He as (_ & _ & Hlen & _). unfold fits in *.
      destruct (IH h' L) as [Hr Hok]; [by rewrite Hlen..| |by eapply heap_down_step|].
      { unfold parent_of in Hp. lia. }
      split; [|done]. etrans; [by eapply exchanged_rearranged|done].
    + split; [done|]. apply greater_false in Hg. eapply heap_down_done; [done|].
      intros c Hc x y Hx Hy. destruct (lookup_lt_is_Some_2 (items h) L Hlt) as [z Hz].
      eapply item_le_trans; [by eapply Hmax|by eapply Hg].
  - split; [done|]. eapply heap_down_done; [done|]. intros c Hc x y Hx.
    apply lookup_lt_Some in Hx. apply lookup_ge_None in Hl. unfold parent_of in Hc. lia.
Qed.

Lemma sift_down_spec h i :
  fits h -> (i < length (items h))%nat -> heap_down h i ->
  rearranged h (sift_down h i) /\ heap_ok (sift_down h i).
Proof. intros. apply sift_down_loop_spec; [done..|lia|done]. Qed.

(** ** Fuel is not observable *)

Lemma sift_up_loop_fuel n m h i :
  (i < n)%nat -> (i < m)%nat -> sift_up_loop n h i = sift_up_loop m h i.
Proof.
  revert m h i. induction n as [|n IH]; intros [|m] h i Hn Hm; try lia. cbn [sift_up_loop].
  rewrite usize_sub_parent. destruct (decide (i = 0%nat)); [done|].
  destruct (negb (greater h i ((i - 1) / 2))); [done|].
  destruct (swap h i ((i - 1) / 2)) as [h' []]; [|done]. apply IH; lia.
Qed.

Lemma sift_up_unroll h i :
  sift_up h i =
    match usize_checked_sub i 1 with
    | None => h
    | Some value =>
        if negb (greater h i (value / 2)) then h
        else let '(h', swapped) := swap h i (value / 2) in
             if negb swapped then h' else sift_up h' (value / 2)
    end.
Proof.
  unfold sift_up at 1. cbn [sift_up_loop]. rewrite usize_sub_parent.
  destruct (decide (i = 0%nat)); [done|].
  destruct (negb (greater h i ((i - 1) / 2))); [done|].
  destruct (swap h i ((i - 1) / 2)) as [h' []]; [|done]. apply sift_up_loop_fuel; lia.
Qed.

Lemma swap_length h i j : length (items (swap h i j).1) = length (items h).
Proof.
  unfold swap. repeat case_match; simpl; try done. by rewrite !length_insert.
Qed.

Lemma larger_child_bounds h i left' v :
  usize_checked_mul i 2 = Some v -> usize_checked_add v 1 = Some left' ->
  is_none (items h !! left') = false ->
  (i < larger_child h left' < length (items h))%nat.
Proof.
  unfold usize_checked_mul, usize_checked_add. intros Hv Hl Hn.
  destruct (items h !! left') as [x|] eqn:Hx; [|done]. apply lookup_lt_Some in Hx.
  assert (left' = (2 * i + 1)%nat) by (repeat (case_match; simplify_eq); lia). clear Hv Hl.
  unfold larger_child. destruct (usize_checked_add left' 1) as [r|] eqn:Hr; [|lia].
  unfold usize_checked_add in Hr. case_match; simplify_eq.
  destruct (items h !! _) eqn:Hy; [|simpl; lia]. apply lookup_lt_Some in Hy.
  simpl. case_match; lia.
Qed.

Lemma sift_down_loop_fuel n m h i :
  (length (items h) - i < n)%nat -> (length (items h) - i < m)%nat ->
  sift_down_loop n h i = sift_down_loop m h i.
Proof.
  revert m h i. induction n as [|n IH]; intros [|m] h i Hn Hm; try lia. cbn [sift_down_loop].
  destruct (usize_checked_mul i 2) as [v|] eqn:Hv; [|done]. cbn.
  destruct (usize_checked_add v 1) as [left'|] eqn:Hl; [|done].
  destruct (is_none (items h !! left')) eqn:Hno; [done|].
  pose proof (larger_child_bounds h i left' v Hv Hl Hno).
  destruct (negb (greater h _ _)); [done|].
  pose proof (swap_length h i (larger_child h left')) as Hlen.
  destruct (swap h i (larger_child h left')) as [h' []]; [|done]. simpl in *.
  apply IH; lia.
Qed.

Lemma sift_down_unroll h i :
  sift_down h i =
    match usize_checked_mul i 2 ≫= (fun value => usize_checked_add value 1) with
    | None => h
    | Some left' =>
        if is_none (items h !! left') then h
        else
          let larger := larger_child h left' in
          if negb (greater h larger i) then h
          else let '(h', swapped) := swap h i larger in
               if negb swapped then h' else sift_down h' larger
    end.
Proof.
  unfold sift_down at 1. cbn [sift_down_loop].
  destruct (usize_checked_mul i 2) as [v|] eqn:Hv; [|done]. cbn [mbind option_bind].
  destruct (usize_checked_add v 1) as [left'|] eqn:Hl; [|done].
  destruct (is_none (items h !! left')) eqn:Hno; [done|].
  pose proof (larger_child_bounds h i left' v Hv Hl Hno).
  destruct (negb (greater h _ _)); [done|].
  pose proof (swap_length h i (larger_child h left')) as Hlen.
  destruct (swap h i (larger_child h left')) as [h' []]; [|done]. simpl in Hlen. cbn [negb].
  apply sift_down_loop_fuel; lia.
Qed.

(** ** Adding and removing requests *)

Lemma vec_pop_snoc {A} (l : list A) (x : A) : vec_pop (l ++ [x]) = Some (l, x).
Proof.
  unfold vec_pop. rewrite last_snoc, length_app, Nat.add_sub. by rewrite take_app_length.
Qed.

Lemma node_le_mono h h' i j :
  (forall k x, items h' !! k = Some x -> items h !! k = Some x) -> node_le h i j -> node_le h' i j.
Proof. unfold node_le. eauto. Qed.

Lemma insert_cons_Permutation {A} (l : list A) i (x y : A) :
  l !! i = Some x -> x :: <[i := y]> l ≡ₚ l ++ [y].
Proof.
  intros (l1 & l2 & -> & ->)%list_elem_of_split_length.
  rewrite insert_app_r_alt, Nat.sub_diag by lia. simpl. solve_Permutation.
Qed.

Lemma push_index_ok h x :
  index_ok h -> positions h !! item_token x = None ->
  index_ok {| items := items h ++ [x];
              positions := <[item_token x := length (items h)]> (positions h) |}.
Proof.
  intros [H1 H2] Hn. split; simpl.
  - intros i y [Hy|[Hi Hy]]%lookup_app_Some.
    + pose proof (H1 _ _ Hy). rewrite lookup_insert_ne by congruence. done.
    + apply list_lookup_singleton_Some in Hy as [? ->].
      rewrite lookup_insert_eq. f_equal. lia.
  - intros t i Ht. apply lookup_insert_Some in Ht as [[<- <-]|[Hne Ht]].
    + exists x. split; [|done]. by rewrite lookup_app_r, Nat.sub_diag.
    + destruct (H2 _ _ Ht) as (y & Hy & <-). exists y. split; [|done].
      by apply lookup_app_l_Some.
Qed.

Lemma push_heap_up h x ps :
  heap_ok h -> heap_up {| items := items h ++ [x]; positions := ps |} (length (items h)).
Proof.
  intros Hok. split.
  - intros p j Hpj Hne a b. simpl. intros Ha Hb.
    assert (j < length (items h))%nat. { apply lookup_lt_Some in Ha. rewrite length_app in Ha. simpl in Ha. lia. }
    rewrite lookup_app_l in Ha by done. rewrite lookup_app_l in Hb by (unfold parent_of in Hpj; lia).
    by eapply Hok.
  - intros p c Hp Hc a b. simpl. intros Ha. apply lookup_lt_Some in Ha.
    rewrite length_app in Ha. simpl in Ha. unfold parent_of in *. lia.
Qed.

Lemma heap_push_spec ri rp h x :
  heap_valid h -> Z.of_nat (length (items h)) < isize_max ->
  match heap_push ri rp h x with
  | (h', Ok _) => ri = true /\ rp = true /\ heap_contains h (item_token x) = false /\
                  items h' ≡ₚ x :: items h /\ heap_valid h'
  | (h', Err y) => y = x /\ h' = h /\
                   (heap_contains h (item_token x) = true \/ ri = false \/ rp = false)
  end.
Proof.
  intros [Hi Hok Hf] Hlen. unfold heap_push, heap_contains.
  destruct (positions h !! item_token x) as [i|] eqn:Hn; simpl; [by auto|].
  destruct ri; simpl; [|by auto]. destruct rp; simpl; [|by auto].
  repeat (split; [done|]).
  destruct (sift_up_spec {| items := items h ++ [x];
    positions := <[item_token x := length (items h)]> (positions h) |} (length (items h)))
    as [(Hp & Hl & Hix) Hok']; [by apply push_heap_up|].
  simpl in Hp, Hl. split; [rewrite Hp; solve_Permutation|].
  split; [by apply Hix, push_index_ok|done|].
  unfold fits. rewrite Hl, length_app. simpl. lia.
Qed.

(** Filling the hole left at [index] with the last request. *)
Definition refill h (rest : list R) (index : nat) (token : Token) (last : R) : IndexedHeap R :=
  {| items := <[index := last]> rest;
     positions := <[item_token last := index]> (delete token (positions h)) |}.

Lemma refill_lookup h rest index token last j :
  (index < length rest)%nat ->
  items (refill h rest index token last) !! j =
    if decide (j = index) then Some last else rest !! j.
Proof.
  intros Hlt. simpl. destruct (decide (j = index)) as [->|].
  - by apply list_lookup_insert_eq.
  - by rewrite list_lookup_insert_ne.
Qed.

Lemma refill_index_ok h rest index x last :
  items h = rest ++ [last] -> rest !! index = Some x -> index_ok h ->
  index_ok (refill h rest index (item_token x) last).
Proof.
  intros Hit Hx [H1 H2]. apply lookup_lt_Some in Hx as Hlt.
  assert (forall i y, rest !! i = Some y -> positions h !! item_token y = Some i) as H1'.
  { intros i y Hy. apply H1. rewrite Hit. by apply lookup_app_l_Some. }
  assert (positions h !! item_token last = Some (length rest)) as Hl.
  { apply H1. by rewrite Hit, lookup_app_r, Nat.sub_diag. }
  pose proof (H1' _ _ Hx) as Hpx. split.
  - intros i y. rewrite refill_lookup by done. simpl.
    destruct (decide (i = index)) as [->|Hne]; intros Hy; simplify_eq.
    { by rewrite lookup_insert_eq. }
    pose proof (H1' _ _ Hy). apply lookup_lt_Some in Hy as Hlt'.
    rewrite lookup_insert_ne by (intros ?; assert (i = length rest) by congruence; lia).
    by rewrite lookup_delete_ne by congruence.
  - intros t i. simpl. intros [[<- <-]|[Hne Ht]]%lookup_insert_Some.
    { exists last. split; [|done]. by apply list_lookup_insert_eq. }
    apply lookup_delete_Some in Ht as [Hne' Ht]. destruct (H2 _ _ Ht) as (y & Hy & <-).
    exists y. split; [|done]. rewrite Hit in Hy. apply lookup_app_Some in Hy as [Hy|[Hi Hy]].
    + rewrite list_lookup_insert_ne by congruence. done.
    + apply list_lookup_singleton_Some in Hy as [_ ->]. done.
Qed.

Lemma refill_heap h rest index x last :
  items h = rest ++ [last] -> rest !! index = Some x -> heap_ok h ->
  let h1 := refill h rest index (item_token x) last in
  if is_some_and (usize_checked_sub index 1) (fun parent => greater h1 index (parent / 2))
  then heap_up h1 index else heap_down h1 index.
Proof.
  intros Hit Hx Hok h1. apply lookup_lt_Some in Hx as Hlt.
  assert (forall i y, rest !! i = Some y -> items h !! i = Some y) as Hrest.
  { intros i y Hy. rewrite Hit. by apply lookup_app_l_Some. }
  assert (forall j, items h1 !! j = if decide (j = index) then Some last else rest !! j) as Hl.
  { intros j. by apply refill_lookup. }
  clearbody h1. unfold heap_up, heap_down, node_le, heap_ok, node_le in *.
  assert (forall p c, parent_of p index -> parent_of index c -> forall a b,
    items h1 !! c = Some a -> items h1 !! p = Some b -> item_gt a b = false) as Hgap.
  { intros p c Hp Hc a b. rewrite !Hl. rewrite !decide_False by (unfold parent_of in *; lia).
    intros Ha Hb. eapply item_le_trans; [eapply (Hok index c)|eapply (Hok p index)]; eauto. }
  assert (forall p j, parent_of p j -> j <> index -> p <> index -> forall a b,
    items h1 !! j = Some a -> items h1 !! p = Some b -> item_gt a b = false) as Hother.
  { intros p j Hp Hj Hpi a b. rewrite !Hl, !decide_False by done. eauto. }
  rewrite usize_sub_parent. destruct (decide (index = 0%nat)) as [->|Hnz]; cbn [is_some_and].
  - split; [|done]. intros p j Hp Hne. apply Hother; [done|unfold parent_of in Hp; lia|done].
  - assert (parent_of ((index - 1) / 2) index) as Hpar by (unfold parent_of; lia).
    destruct (greater h1 index ((index - 1) / 2)) eqn:Hg; (split; [|done]).
    + intros p j Hp Hj a b Ha Hb. destruct (decide (p = index)) as [->|]; [|by eapply Hother].
      apply greater_true in Hg as (u & v & Hu & Hv & Hg). rewrite Hl, decide_True in Hu, Hb by done.
      simplify_eq. eapply item_le_trans; [by eapply (Hgap _ j Hpar Hp)|by apply item_gt_asym].
    + intros p j Hp Hpi. destruct (decide (j = index)) as [->|]; [|by apply Hother].
      assert (p = ((index - 1) / 2)%nat) as -> by (unfold parent_of in Hp; lia).
      by apply greater_false.
Qed.

(** The repair [remove] chooses restores the heap. *)
Lemma refill_repaired h rest index x last :
  items h = rest ++ [last] -> rest !! index = Some x -> heap_valid h ->
  let h1 := refill h rest index (item_token x) last in
  let h2 := if is_some_and (usize_checked_sub index 1)
                 (fun parent => greater h1 index (parent / 2))
            then sift_up h1 index else sift_down h1 index in
  items h ≡ₚ x :: items h2 /\ heap_valid h2.
Proof.
  intros Hit Hx [Hi Hok Hf] h1 h2.
  pose proof (refill_heap h rest index x last Hit Hx Hok) as Hh. cbn zeta in Hh. fold h1 in Hh.
  pose proof (refill_index_ok h rest index x last Hit Hx Hi) as Hri. fold h1 in Hri.
  pose proof (insert_cons_Permutation rest index x last Hx) as Hperm.
  apply lookup_lt_Some in Hx as Hlt.
  assert (length (items h1) = length rest) as Hlen1 by apply length_insert.
  assert (fits h1) as Hf1.
  { unfold fits in *. rewrite Hit, length_app in Hf. simpl in Hf. lia. }
  assert (rearranged h1 h2 /\ heap_ok h2) as [(Hp & Hl & Hix) Hok2].
  { subst h2. destruct (is_some_and _ _); [by apply sift_up_spec|].
    apply sift_down_spec; [done|lia|done]. }
  split; [by rewrite Hit, Hp|].
  split; [by apply Hix|done|]. unfold fits in *. by rewrite Hl.
Qed.

Lemma shrink_valid h rest last :
  items h = rest ++ [last] -> heap_valid h ->
  heap_valid {| items := rest; positions := delete (item_token last) (positions h) |}.
Proof.
  intros Hit [[H1 H2] Hok Hf].
  assert (forall i y, rest !! i = Some y -> items h !! i = Some y) as Hrest.
  { intros i y Hy. rewrite Hit. by apply lookup_app_l_Some. }
  assert (positions h !! item_token last = Some (length rest)) as Hl.
  { apply H1. by rewrite Hit, lookup_app_r, Nat.sub_diag. }
  split; [split|..]; simpl.
  - intros i y Hy. pose proof (H1 _ _ (Hrest _ _ Hy)). apply lookup_lt_Some in Hy.
    rewrite lookup_delete_ne; [done|]. intros ?. assert (i = length rest) by congruence. lia.
  - intros t i [Hne Ht]%lookup_delete_Some. destruct (H2 _ _ Ht) as (y & Hy & <-).
    exists y. split; [|done]. rewrite Hit in Hy. apply lookup_app_Some in Hy as [Hy|[_ Hy]]; [done|].
    by apply list_lookup_singleton_Some in Hy as [_ ->].
  - intros p j Hp. eapply node_le_mono; [|by apply Hok]. done.
  - unfold fits in *. rewrite Hit, length_app in Hf. simpl in *. lia.
Qed.

Lemma heap_remove_spec h token :
  heap_valid h ->
  match heap_remove h token with
  | (h', Some x) => item_token x = token /\ items h ≡ₚ x :: items h' /\ heap_valid h'
  | (h', None) => h' = h /\ Forall (fun x => item_token x <> token) (items h)
  end.
Proof.
  intros Hv. pose proof Hv as [Hi Hok Hf]. unfold heap_remove.
  destruct (positions h !! token) as [index|] eqn:Hpos.
  2: { split; [done|]. apply Forall_lookup. intros i x Hx <-.
       by rewrite (proj1 Hi _ _ Hx) in Hpos. }
  destruct (proj2 Hi _ _ Hpos) as (x & Hx & Htok). rewrite Hx. cbn [is_some_and].
  rewrite bool_decide_eq_true_2 by done. cbn [negb].
  destruct (items h) as [|last rest _] eqn:Hit using rev_ind; [done|].
  unfold usize_checked_sub at 1. rewrite vec_pop_snoc, length_app. cbn [length].
  rewrite (proj2 (Nat.leb_le _ _)), Nat.add_sub by lia.
  destruct (Nat.eqb_spec index (length rest)) as [->|Hne].
  - rewrite lookup_app_r, Nat.sub_diag in Hx by done. simplify_eq/=.
    split; [done|]. split; [solve_Permutation|]. by apply shrink_valid.
  - apply lookup_app_Some in Hx as [Hx|[? Hx]].
    2: { apply list_lookup_singleton_Some in Hx as [? _]. lia. }
    cbn [apply_update constant items positions]. rewrite Hx. subst token.
    match goal with |- context [if is_some_and _ (fun parent => greater ?h1 _ _) then _ else _] =>
      replace h1 with (refill h rest index (item_token x) last) end.
    2: { unfold refill. simpl. destruct (delete _ _ !! _) eqn:Hd; [|done]. f_equal.
         apply map_eq. intros t. destruct (decide (t = item_token last)) as [->|].
         - by rewrite lookup_insert_eq, lookup_alter_eq, Hd.
         - by rewrite lookup_insert_ne, lookup_alter_ne. }
    split; [done|]. rewrite <- Hit in *. by apply refill_repaired with (rest := rest).
Qed.

Lemma heap_root_max h x y :
  heap_ok h -> items h !! 0%nat = Some x -> y ∈ items h -> item_gt y x = false.
Proof.
  intros Hok Hx [i Hy]%list_elem_of_lookup. revert y Hy.
  induction (lt_wf i) as [i _ IH]. intros y Hy. destruct (decide (i = 0%nat)) as [->|Hnz].
  { simplify_eq. apply item_gt_irrefl. }
  assert (parent_of ((i - 1) / 2) i) as Hp by (unfold parent_of; lia).
  apply lookup_lt_Some in Hy as Hlt.
  destruct (lookup_lt_is_Some_2 (items h) ((i - 1) / 2)) as [z Hz]; [lia|].
  eapply item_le_trans; [by eapply (Hok _ _ Hp)|]. eapply IH; [|done]. lia.
Qed.

Lemma heap_pop_spec h :
  heap_valid h ->
  match heap_pop h with
  | (h', Some x) =>
      peek h = Some x /\ items h ≡ₚ x :: items h' /\
      (forall y, y ∈ items h -> item_gt y x = false) /\ heap_valid h'
  | (h', None) => h' = h /\ items h = []
  end.
Proof.
  intros Hv. unfold heap_pop. destruct (items h) as [|x l] eqn:Hit; [done|]. cbn [head].
  pose proof (heap_remove_spec h (item_token x) Hv) as Hr.
  assert (items h !! 0%nat = Some x) as Hx by by rewrite Hit.
  destruct (heap_remove h (item_token x)) as [h' [y|]].
  - destruct Hr as (Hy & Hp & Hv'). assert (y = x) as ->.
    { assert (y ∈ items h) as [j Hj]%list_elem_of_lookup by (rewrite Hp; by left).
      destruct Hv as [[H1 _] _ _]. pose proof (H1 _ _ Hj). pose proof (H1 _ _ Hx). congruence. }
    split; [unfold peek; by rewrite Hit|]. rewrite Hit in Hp. split; [done|]. split; [|done].
    rewrite <- Hit. intros z Hz. by eapply heap_root_max; [apply Hv|..].
  - destruct Hr as [_ Hr]. rewrite Hit in Hr. apply Forall_cons in Hr as [Hr _]. done.
Qed.

(** ** Main results *)

(** Taking requests out until the heap is empty. *)
Fixpoint heap_pops (n : nat) h : IndexedHeap R * list R :=
  match n with
  | O => (h, [])
  | S n =>
      match heap_pop h with
      | (h, None) => (h, [])
      | (h, Some x) => let '(h, xs) := heap_pops n h in (h, x :: xs)
      end
  end.

Lemma heap_pops_spec n h :
  heap_valid h -> n = length (items h) ->
  (heap_pops n h).2 ≡ₚ items h /\ items (heap_pops n h).1 = [] /\
  StronglySorted (fun x y => item_gt y x = false) (heap_pops n h).2.
Proof.
  revert h. induction n as [|n IH]; intros h Hv Hn; simpl.
  { destruct (items h); [|done]. split; [done|split; [done|constructor]]. }
  pose proof (heap_pop_spec h Hv) as Hpop. destruct (heap_pop h) as [h' [x|]].
  - destruct Hpop as (_ & Hp & Hmax & Hv').
    destruct (IH h' Hv') as (IHp & IHe & IHs).
    { apply Permutation_length in Hp. simpl in Hp. lia. }
    destruct (heap_pops n h') as [h2 xs]. simpl in *. split; [by rewrite Hp, IHp|].
    split; [done|]. constructor; [done|]. apply Forall_forall. intros y Hy.
    apply Hmax. rewrite Hp, <- IHp. by right.
  - destruct Hpop as [_ He]. by rewrite He in Hn.
Qed.

Lemma heap_new_valid : heap_valid heap_new.
Proof.
  split; [split|..]; simpl; done.
Qed.

Lemma heap_contains_spec h t :
  index_ok h -> heap_contains h t = true <-> Exists (fun y => item_token y = t) (items h).
Proof.
  intros [H1 H2]. unfold heap_contains. rewrite Exists_exists. split.
  - destruct (positions h !! t) eqn:Ht; [|done]. intros _. destruct (H2 _ _ Ht) as (x & Hx & Hxt).
    exists x. split; [|done]. by eapply list_elem_of_lookup_2.
  - intros (x & [i Hi]%list_elem_of_lookup & <-). by rewrite (H1 _ _ Hi).
Qed.

(** Every operation behaves as on the abstract bag and keeps the index consistent. *)
Lemma heap_step_refines h op h' out :
  heap_valid h -> Z.of_nat (length (items h)) < isize_max -> heap_step h op = (h', out) ->
  heap_valid h' /\ exists b, bag_step (items h) op out b /\ b ≡ₚ items h'.
Proof.
  intros Hv Hlen Hs. pose proof (valid_index _ Hv) as Hi.
  destruct op as [ri rp x|t| |]; simpl in Hs.
  - pose proof (heap_push_spec ri rp h x Hv Hlen) as Hp.
    destruct (heap_push ri rp h x) as [h1 [[]|y]]; simplify_eq.
    + destruct Hp as (-> & -> & Hc & Hp & Hv'). split; [done|]. eexists. split; [|symmetry; exact Hp].
      constructor. apply Forall_Exists_neg. rewrite <- heap_contains_spec by done. congruence.
    + destruct Hp as (-> & -> & Hc). split; [done|]. eexists. split; [|done].
      constructor. by rewrite <- heap_contains_spec.
  - pose proof (heap_remove_spec h t Hv) as Hr. destruct (heap_remove h t) as [h1 [x|]]; simplify_eq.
    + destruct Hr as (<- & Hp & Hv'). split; [done|]. eexists. split; [by constructor|done].
    + destruct Hr as [-> Hr]. split; [done|]. eexists. split; [by constructor|done].
  - pose proof (heap_pop_spec h Hv) as Hr. destruct (heap_pop h) as [h1 [x|]]; simplify_eq.
    + destruct Hr as (_ & Hp & Hmax & Hv'). split; [done|]. eexists. split; [by constructor|done].
    + destruct Hr as [-> Hr]. split; [done|]. rewrite Hr. eexists. split; [constructor|done].
  - simplify_eq. split; [apply heap_new_valid|]. eexists. split; [by constructor|done].
Qed.

Lemma bag_step_length b op out b' :
  bag_step b op out b' -> (length b' <= S (length b))%nat.
Proof.
  destruct 1 as [| |? ? ? Hp| |? ? ? Hp| |]; simpl; try lia;
    apply Permutation_length in Hp; simpl in Hp; lia.
Qed.

Lemma heap_run_refines h ops h' outs :
  heap_valid h -> Z.of_nat (length (items h) + length ops) <= isize_max ->
  heap_run h ops = (h', outs) ->
  heap_valid h' /\ exists b, bag_run (items h) ops outs b /\ b ≡ₚ items h'.
Proof.
  revert h outs. induction ops as [|op ops IH]; intros h outs Hv Hlen Hrun; simpl in *.
  { simplify_eq. split; [done|]. eexists. split; [constructor|done]. }
  destruct (heap_step h op) as [h1 out] eqn:Hs. destruct (heap_run h1 ops) as [h2 outs2] eqn:Hr.
  simplify_eq. destruct (heap_step_refines h op h1 out) as [Hv1 (b1 & Hb1 & Hp1)]; [done|lia|done|].
  pose proof (bag_step_length _ _ _ _ Hb1). pose proof (Permutation_length Hp1).
  destruct (IH h1 outs2) as [Hv2 (b2 & Hb2 & Hp2)]; [done|lia|done|].
  split; [done|]. exists b2. split; [|done]. by econstructor.
Qed.

(** The test-build predicate decides the invariant. *)
Lemma nodes_check_spec h :
  forallb (fun '(index, x) =>
    bool_decide (positions h !! item_token x = Some index) &&
    match usize_checked_sub index 1 ≫= (fun value => items h !! (value / 2)%nat) with
    | Some parent => negb (item_gt x parent)
    | None => (index =? 0)%nat
    end) (imap pair (items h)) = true <->
  (forall i x, items h !! i = Some x -> positions h !! item_token x = Some i) /\ heap_ok h.
Proof.
  rewrite forallb_forall.
  assert (forall i x, items h !! i = Some x ->
    match usize_checked_sub i 1 ≫= (fun value => items h !! (value / 2)%nat) with
    | Some parent => negb (item_gt x parent)
    | None => (i =? 0)%nat
    end = true <-> (forall p, parent_of p i -> node_le h i p)) as Hnode.
  { intros i x Hx. rewrite usize_sub_parent. apply lookup_lt_Some in Hx as Hlt.
    destruct (decide (i = 0%nat)) as [->|Hnz]; cbn [mbind option_bind].
    { split; [|done]. intros _ p. unfold parent_of. lia. }
    destruct (lookup_lt_is_Some_2 (items h) ((i - 1) / 2)) as [z Hz]; [lia|]. rewrite Hz.
    rewrite negb_true_iff. split.
    - intros Hle p [_ ->] a b Ha Hb. congruence.
    - intros Hp. eapply (Hp ((i - 1) / 2)%nat); [unfold parent_of; lia|done|done]. }
  split.
  - intros Hall. assert (forall i x, items h !! i = Some x -> positions h !! item_token x = Some i
      /\ forall p, parent_of p i -> node_le h i p) as H.
    { intros i x Hx. specialize (Hall (i, x)). simpl in Hall.
      apply andb_prop in Hall as [H1 H2].
      2: { apply list_elem_of_In, elem_of_lookup_imap. eauto. }
      apply bool_decide_eq_true in H1. split; [done|]. by apply (Hnode i x). }
    split; [intros i x Hx; by apply H|].
    intros p j Hp x y Hx Hy. by eapply (proj2 (H j x Hx)).
  - intros [Hix Hok] [i x] (i' & x' & [= -> ->] & Hx)%list_elem_of_In%elem_of_lookup_imap.
    apply andb_true_intro.
    split; [by apply bool_decide_eq_true, Hix|]. apply (Hnode i' x' Hx). intros p Hp. by apply Hok.
Qed.

Lemma heap_validb_spec h :
  heap_validb h = true <-> index_ok h /\ heap_ok h.
Proof.
  unfold heap_validb. rewrite andb_true_iff, Nat.eqb_eq, nodes_check_spec.
  set (m := list_to_map (imap (fun i x => (item_token x, i)) (items h)) : gmap Token nat).
  assert ((forall i x, items h !! i = Some x -> positions h !! item_token x = Some i) ->
    size m = length (items h) /\
    forall t i, m !! t = Some i <-> exists x, items h !! i = Some x /\ item_token x = t) as Hm.
  { intros H1. assert (NoDup (imap (fun i x => (item_token x, i)) (items h)).*1) as Hnd.
    { apply NoDup_alt. intros i j t. rewrite !list_lookup_fmap, !list_lookup_imap.
      destruct (items h !! i) eqn:Hi, (items h !! j) eqn:Hj; simpl; try done.
      intros [= <-] [= Ht]. pose proof (H1 _ _ Hi). pose proof (H1 _ _ Hj). congruence. }
    split.
    - unfold m. rewrite map_size_list_to_map by done. by rewrite length_imap.
    - intros t i. unfold m. rewrite <- elem_of_list_to_map by done.
      rewrite list_elem_of_lookup. setoid_rewrite list_lookup_imap.
      setoid_rewrite fmap_Some. split.
      + intros (k & x & Hx & [= -> ->]). eauto.
      + intros (x & Hx & <-). eauto. }
  split.
  - intros (Hsize & H1 & Hok). split; [|done]. split; [done|]. destruct (Hm H1) as [Hsm Hlm].
    assert (m = positions h) as Heq.
    { apply map_subseteq_size_eq; [|lia]. apply map_subseteq_spec. intros t i Ht.
      apply Hlm in Ht as (x & Hx & <-). by apply H1. }
    intros t i Ht. rewrite <- Heq in Ht. by apply Hlm.
  - intros [[H1 H2] Hok]. split; [|done]. destruct (Hm H1) as [Hsm Hlm]. rewrite <- Hsm.
    f_equal. apply map_eq. intros t. apply option_eq. intros i. rewrite Hlm. split.
    + intros (x & Hx & <-). by apply H1.
    + by apply H2.
Qed.

(** C8.  Any sequence of operations on the indexed heap behaves as on an abstract
    bag with distinct tokens: an accepted push adds the request, a refused one
    (duplicate token or no memory) hands it back and changes nothing, [remove]
    takes out the request of the token wherever it is, [pop] takes out a greatest
    one, [drain] hands out all of them; and the test-build predicate [valid]
    holds of the result. *)
Theorem heap_implements_priority_bag ops h outs :
  Z.of_nat (length ops) <= isize_max -> heap_run heap_new ops = (h, outs) ->
  heap_validb h = true /\ exists b, bag_run [] ops outs b /\ b ≡ₚ items h.
Proof.
  intros Hlen Hrun.
  destruct (heap_run_refines heap_new ops h outs heap_new_valid Hlen Hrun) as [[Hi Ho _] Hb].
  split; [by apply heap_validb_spec|done].
Qed.

(** Popping a valid heap until it is empty hands out every request exactly
    once, in non-increasing order of the scheduling key. *)
Theorem heap_pops_in_order h :
  heap_validb h = true -> Z.of_nat (length (items h)) <= isize_max ->
  let '(h', xs) := heap_pops (length (items h)) h in
  xs ≡ₚ items h /\ items h' = [] /\ StronglySorted (fun x y => item_gt y x = false) xs.
Proof.
  intros [Hi Ho]%heap_validb_spec Hf.
  pose proof (heap_pops_spec (length (items h)) h (Build_heap_valid h Hi Ho Hf) eq_refl) as Hs.
  by destruct (heap_pops (length (items h)) h).
Qed.

End Heap.

(** ** Concrete instance: requests with a numeric key and their own token *)

#[local] Instance sample_item : HeapItem (positive * Z) :=
  {| item_token := fst; item_gt x y := y.2 <? x.2 |}.

#[local] Instance sample_item_laws : HeapItemLaws (positive * Z).
Proof. split; simpl; intros *; rewrite ?Z.ltb_lt, ?Z.ltb_ge; lia. Qed.

Definition sample_heap_ops : list (HeapOp (R := positive * Z)) :=
  [HPush true true (1%positive, 3); HPush true true (2%positive, 9); HPush true false (3%positive, 4);
   HPush true true (4%positive, 5); HPush true true (2%positive, 1); HRemove 1%positive; HPop].

Definition sample_heap : IndexedHeap (positive * Z) := (heap_run heap_new sample_heap_ops).1.

Lemma heap_implements_priority_bag_witness :
  (heap_run heap_new sample_heap_ops).2 =
    [OPush (Ok tt); OPush (Ok tt); OPush (Err (3%positive, 4)); OPush (Ok tt);
     OPush (Err (2%positive, 1)); ORemove (Some (1%positive, 3)); OPop (Some (2%positive, 9))] /\
  exists b, bag_run [] sample_heap_ops (heap_run heap_new sample_heap_ops).2 b /\ b ≡ₚ items sample_heap.
Proof.
  split; [vm_compute; reflexivity|].
  apply (heap_implements_priority_bag sample_heap_ops sample_heap).
  - vm_compute. discriminate.
  - apply surjective_pairing.
Defined.

Definition full_heap : IndexedHeap (positive * Z) :=
  (heap_run heap_new (map (HPush true true) [(1%positive, 3); (2%positive, 9); (4%positive, 5)])).1.

Lemma heap_pops_in_order_witness :
  (heap_pops (length (items full_heap)) full_heap).2 = [(2%positive, 9); (4%positive, 5); (1%positive, 3)] /\
  (let '(h', xs) := heap_pops (length (items full_heap)) full_heap in
   xs ≡ₚ items full_heap /\ items h' = [] /\ StronglySorted (fun x y => item_gt y x = false) xs).
Proof.
  split; [vm_compute; reflexivity|].
  apply (heap_pops_in_order full_heap); vm_compute; (reflexivity || discriminate).
Defined.
