(* ===== verification/OperationControl.v ===== *)
(** * The completion authority of one operation
      (src/module/ws_client/operation_control.rs)

    One [OperationControl] is shared by the sender, the writer, the response table
    and the receipts.  The value here is the shared object: every function takes
    it and returns it changed, one function per lock scope of the code.  What the
    functions read besides the object is the environment [Env] (the cancellation
    trees and the set of cancelled tokens) and the clock reading [now].  Side
    effects that run after the lock is released are data: an
    [OperationPublication], dispatched by Termination.v.

    [Weak] references to the queue and to the response table are identities.
    Mutex poisoning is recovered by the code and is not modelled.  The hooks of
    the quality-doctor feature are left out. *)

From S2P Require Import Prelude F64 Backoff RetrySchedule RetryState Errors WsRetry WsOptions Cancellation WsTask IndexedHeap.

Abbreviation QueueId := positive (only parsing).
Abbreviation TableId := positive (only parsing).
Abbreviation ReservationId := positive (only parsing).

Record Env := mkEnv { env_trees : Trees; env_tokens : gset Token }.

Definition token_cancelled (env : Env) (t : Token) : bool := bool_decide (t ∈ env_tokens env).

Record Observation := mkObservation { obs_source : TaskSource; reservation : ReservationId }.

Record PendingIdentity := mkPendingIdentity {
  pi_table : TableId;
  pi_id : RequestId;
  pi_token : Z;
}.

Record OperationState := mkOperationState {
  snapshot : OperationSnapshot;
  connection : option ConnectionId;
  response_deadline : option Instant;
  observation : option Observation;
  queue : option QueueId;
  pending_identity : option PendingIdentity;
  retirement : option Token;
  hook : option (NodeId * HookId);
  data_in_flight : bool;
  retry : RetryState;
  retry_started : Instant;
  saved_report : option RetryReport;
  retry_stop : option RetryStopReason;
  retry_attempt_open : bool;
}.

#[export] Instance OperationState_settable : Settable OperationState :=
  fields! mkOperationState [ snapshot; connection; response_deadline; observation; queue;
    pending_identity; retirement; hook; data_in_flight; retry; retry_started; saved_report;
    retry_stop; retry_attempt_open ].

Record OperationControl := mkOperationControl {
  oc_client_id : ClientId;
  oc_session_id : SessionId;
  oc_id : OperationId;
  oc_lane : MessageLane;
  tracked : bool;
  retry_policy : option WsSendRetryPolicy;
  absolute_deadline : option Instant;
  deadline_phase : WsTimeoutPhase;
  group : option NodeId;
  state : OperationState;
  cancelled_token : Token;
  written_token : Token;
}.

#[export] Instance OperationControl_settable : Settable OperationControl :=
  fields! mkOperationControl [ oc_client_id; oc_session_id; oc_id; oc_lane; tracked; retry_policy;
    absolute_deadline; deadline_phase; group; state; cancelled_token; written_token ].

Record OperationPublication := mkOperationPublication {
  task : option (ReservationId * TaskEvent);
  pub_cancelled : option Token;
  pub_written : option Token;
  pub_retirement : option Token;
  pub_queue : option (option QueueId * Token * NetError);
  pub_hook : option (NodeId * HookId);
  retired_error : option NetError;
  pub_retry : option (ObserverId * option RetryEvent * RetryEvent);
}.

#[export] Instance OperationPublication_settable : Settable OperationPublication :=
  fields! mkOperationPublication [ task; pub_cancelled; pub_written; pub_retirement; pub_queue;
    pub_hook; retired_error; pub_retry ].

Definition publication_default : OperationPublication :=
  mkOperationPublication None None None None None None None None.

(** ** Construction *)

(** [seed] is the random stream of the retry state, the tokens are fresh. *)
Definition new_with_deadline_phase (seed : Z) (cancelled written : Token) (now : Instant)
    (client_id : ClientId) (session_id : SessionId) (id : OperationId) (options : SendOptions)
    (tracked : bool) (source : TaskSource) (reservation : ReservationId)
    (deadline_phase : WsTimeoutPhase) : OperationControl :=
  let retry_policy :=
    match retry_setting options with
    | RetrySetting.Policy policy => if negb tracked then Some policy else None
    | _ => None
    end in
  let schedule :=
    match retry_policy with Some policy => policy_schedule policy | None => no_retry end in
  {| oc_client_id := client_id; oc_session_id := session_id; oc_id := id;
     oc_lane := lane options; tracked := tracked; retry_policy := retry_policy;
     absolute_deadline := opt_deadline options; deadline_phase := deadline_phase;
     group := cancellation options;
     state := {| snapshot := {| phase := OperationPhase.WaitingForCapacity;
                                delivery := DeliveryEvidence.NotStarted; result := None |};
                 connection := None; response_deadline := None;
                 observation := Some {| obs_source := source; reservation := reservation |};
                 queue := None; pending_identity := None; retirement := None; hook := None;
                 data_in_flight := false; retry := with_seed schedule seed; retry_started := now;
                 saved_report := None; retry_stop := None; retry_attempt_open := false |};
     cancelled_token := cancelled; written_token := written |}.

Definition operation_new (seed : Z) (cancelled written : Token) (now : Instant)
    (client_id : ClientId) (session_id : SessionId) (id : OperationId) (options : SendOptions)
    (tracked : bool) (source : TaskSource) (reservation : ReservationId) : OperationControl :=
  new_with_deadline_phase seed cancelled written now client_id session_id id options tracked source
    reservation WsTimeoutPhase.Total.

(** ** Deadlines and activity *)

Definition earliest (left right : option Instant) : option Instant :=
  match left, right with
  | Some l, Some r => Some (Z.min l r)
  | l, r => option_or l r
  end.

Definition timeout_error_until (c : OperationControl) (s : OperationState)
    (deadline : option Instant) : NetError :=
  let phase :=
    match deadline, response_deadline s with
    | Some deadline, Some response =>
        if (deadline =? response) && is_none_or (absolute_deadline c) (fun absolute => response <? absolute)
        then WsTimeoutPhase.Response
        else deadline_phase c
    | _, _ => deadline_phase c
    end in
  with_ws_timeout_phase (NetError_new ErrorKind.TimedOut) phase.

Definition deadline_error (c : OperationControl) : NetError :=
  timeout_error_until c (state c) (earliest (absolute_deadline c) (response_deadline (state c))).

(** [result.as_ref().err().cloned()] *)
Definition result_err (r : Result TaskSuccess NetError) : option NetError :=
  match r with Ok _ => None | Err e => Some e end.

Definition check_active_until (c : OperationControl) (env : Env) (now : Instant)
    (s : OperationState) (deadline : option Instant) : Result () NetError :=
  match result (snapshot s) with
  | Some r =>
      Err (match result_err r with Some e => e | None => NetError_new ErrorKind.Closed end)
  | None =>
      if is_some_and (group c) (is_cancelled (env_trees env)) || token_cancelled env (cancelled_token c)
      then Err (NetError_new ErrorKind.Cancelled)
      else if is_some_and deadline (fun deadline => deadline <=? now)
      then Err (timeout_error_until c s deadline)
      else Ok tt
  end.

Definition check_active (c : OperationControl) (env : Env) (now : Instant) (s : OperationState) :
    Result () NetError :=
  check_active_until c env now s (earliest (absolute_deadline c) (response_deadline s)).

Definition deadline (c : OperationControl) : option Instant :=
  earliest (absolute_deadline c) (response_deadline (state c)).

Definition absolute_budget (c : OperationControl) : option TimeoutBudget :=
  (fun at_ => mkTimeoutBudget at_ (deadline_phase c)) <$> absolute_deadline c.

Definition budget (c : OperationControl) : option TimeoutBudget :=
  budget_earlier (absolute_budget c)
    ((fun at_ => mkTimeoutBudget at_ WsTimeoutPhase.Response) <$> response_deadline (state c)).

(** The gate of the cancellation group, if the operation has one. *)
Definition lock_group (c : OperationControl) (env : Env) : Result () NetError :=
  match group c with
  | None => Ok tt
  | Some g => lock_if_active (env_trees env) g
  end.

(** ** Retry bookkeeping *)

Definition set_state (c : OperationControl) (s : OperationState) : OperationControl :=
  c <| state := s |>.

(** [started.elapsed()] *)
Definition elapsed (now started : Instant) : Duration := saturating_duration_since now started.

Definition set_retry_started (c : OperationControl) (started : Instant) : OperationControl :=
  let s := state c in
  if (attempts (retry s) =? 0) && is_none (saved_report s)
  then set_state c (s <| retry_started := started |>) else c.

Definition operation_retry_report (c : OperationControl) (now : Instant) : RetryReport :=
  match saved_report (state c) with
  | Some r => r
  | None => report (retry (state c)) (elapsed now (retry_started (state c)))
  end.

Definition raw_replay_allowed (c : OperationControl) : bool :=
  negb (tracked c) && is_some_and (retry_policy c) allows_replay.

Definition invalid_policy (e : RetryStateError) : NetError :=
  with_source ErrorKind.InvalidPolicy (RetryStateSource e).

Section Retry.
Context {clk : Clock} {libm : Libm}.

(** The stop reason the policy selects for a failed write attempt. *)
Definition raw_retry_stop (policy : WsSendRetryPolicy) (s : OperationState) (error : NetError)
    (decision : Result RetryDecision NetError) : option RetryStopReason :=
  match decision with
  | Err _ => Some RetryStopReason.PolicyFailed
  | Ok RetryDecision.Stop => Some RetryStopReason.ClassifierStopped
  | Ok d =>
      if bool_decide (d = RetryDecision.Default) && negb (should_retry_error policy error)
      then Some RetryStopReason.NotRetryable
      else if negb (can_retry (retry s)) then Some RetryStopReason.AttemptsExhausted
      else if negb (allows_replay policy) then Some RetryStopReason.UnsafeToReplay
      else None
  end.

(** The first lock scope: refuse at once, or hand the policy and the timing to
    the classifier, which runs without locks. *)
Definition raw_retry_begin (c : OperationControl) (env : Env) (now : Instant) (error : NetError) :
    OperationControl * Result (option (WsSendRetryPolicy * RetryContext)) NetError :=
  let s := state c in
  match check_active c env now s with
  | Err e => (c, Err e)
  | Ok _ =>
      if tracked c || (attempts (retry s) =? 0) then (c, Ok None)
      else
        match retry_policy c with
        | None => (set_state c (s <| retry_stop := Some RetryStopReason.Disabled |>), Ok None)
        | Some policy =>
            if terminal_error error then
              (set_state c (s <| retry_stop := Some RetryStopReason.NotRetryable |>), Ok None)
            else
              (c, Ok (Some (policy,
                 context (retry s) (elapsed now (retry_started s))
                   ((fun deadline => saturating_duration_since deadline now) <$> absolute_deadline c))))
        end
  end.

(** The second lock scope: the decision and the delay.  The result carries the
    attempt number and whether its end is announced. *)
Definition raw_retry_decide (c : OperationControl) (env : Env) (now : Instant) (error : NetError)
    (policy : WsSendRetryPolicy) (decision : Result RetryDecision NetError) :
    OperationControl * Result (option (option Duration * Z * bool)) NetError :=
  let s := state c in
  match check_active c env now s with
  | Err e => (c, Err e)
  | Ok _ =>
      match raw_retry_stop policy s error decision with
      | Some stop => (set_state c (s <| retry_stop := Some stop |>), Ok None)
      | None =>
          let '(r, delay) := next_delay now (retry s) in
          let s := s <| retry := r |> in
          match delay with
          | Err e => (set_state c s, Err (invalid_policy e))
          | Ok delay =>
              let notify_attempt := retry_attempt_open s in
              (set_state c (s <| retry_attempt_open := false |>),
               Ok (Some (delay, attempts (retry s), notify_attempt)))
          end
      end
  end.

(** The whole call when no other thread runs between its lock scopes, with the
    observations it makes.  The re-checks around the notifications read the same
    state. *)
Definition raw_retry_after (c : OperationControl) (env : Env) (now : Instant) (error : NetError) :
    OperationControl * Result (option Duration) NetError * list (ObserverId * RetryEvent) :=
  match raw_retry_begin c env now error with
  | (c, Err e) => (c, Err e, [])
  | (c, Ok None) => (c, Ok None, [])
  | (c, Ok (Some (policy, ctx))) =>
      match raw_retry_decide c env now error policy (classify policy error ctx) with
      | (c, Err e) => (c, Err e, [])
      | (c, Ok None) => (c, Ok None, [])
      | (c, Ok (Some (delay, attempt, notify_attempt))) =>
          match observer policy, delay with
          | Some o, Some d =>
              let first := if notify_attempt
                           then [(o, RetryEvent.AttemptFinished attempt false)] else [] in
              match check_active c env now (state c) with
              | Err e => (c, Err e, first)
              | Ok _ => (c, Ok delay, first ++ [(o, RetryEvent.RetryScheduled attempt d)])
              end
          | _, _ => (c, Ok delay, [])
          end
      end
  end.

(** ** Binding *)

Definition has_request_registration (c : OperationControl) : bool :=
  is_some (pending_identity (state c)).

Definition set_response_deadline (c : OperationControl) (deadline : option Instant) :
    OperationControl :=
  set_state c ((state c) <| response_deadline := deadline |>).

Definition bind_request (c : OperationControl) (env : Env) (now : Instant) (table : TableId)
    (id : RequestId) (token : Z) : OperationControl * Result () NetError :=
  let s := state c in
  match check_active c env now s with
  | Err e => (c, Err e)
  | Ok _ =>
      if is_some (pending_identity s) then (c, Err (NetError_new ErrorKind.Internal))
      else (set_state c (s <| pending_identity := Some (mkPendingIdentity table id token) |>), Ok tt)
  end.

Definition bind_queue (c : OperationControl) (q : QueueId) : OperationControl :=
  set_state c ((state c) <| queue := Some q |>).

(** [fresh] is the identity of the new callback; the guard that is not kept is
    dropped. *)
Definition bind_cancellation (reserve : bool) (c : OperationControl) (env : Env) (fresh : HookId) :
    OperationControl * Env * Result () NetError :=
  match group c with
  | None => (c, env, Ok tt)
  | Some g =>
      match bind_cancel_hook reserve (env_trees env) g fresh with
      | (t, Err e) => (c, mkEnv t (env_tokens env), Err e)
      | (t, Ok _) =>
          let s := state c in
          let '(c, retired) :=
            if is_none (result (snapshot s))
            then (set_state c (s <| hook := Some (g, fresh) |>), hook s)
            else (c, Some (g, fresh)) in
          let t := match retired with
                   | Some (n, h) => drop_hook_guard t n h
                   | None => t
                   end in
          (c, mkEnv t (env_tokens env), Ok tt)
      end
  end.

Definition is_finished (c : OperationControl) : bool := is_some (result (snapshot (state c))).

Definition response_confirmed (c : OperationControl) : bool :=
  bool_decide (delivery (snapshot (state c)) = DeliveryEvidence.ResponseConfirmed).

Definition selected_error (c : OperationControl) : option NetError :=
  result (snapshot (state c)) ≫= result_err.

(** ** Phases before and during the write *)

Definition set_phase (s : OperationState) (p : OperationPhase) : OperationState :=
  s <| snapshot ::= fun sn => sn <| phase := p |> |>.

Definition prepare (c : OperationControl) (env : Env) (now : Instant) :
    OperationControl * Result () NetError :=
  let s := state c in
  match check_active c env now s with
  | Err e => (c, Err e)
  | Ok _ =>
      if negb (bool_decide (phase (snapshot s) = OperationPhase.WaitingForCapacity))
      then (c, Err (NetError_new ErrorKind.Internal))
      else (set_state c (set_phase s OperationPhase.Prepared), Ok tt)
  end.

Definition enqueue (c : OperationControl) (env : Env) (now : Instant) :
    OperationControl * Result () NetError :=
  let s := state c in
  match check_active c env now s with
  | Err e => (c, Err e)
  | Ok _ =>
      match phase (snapshot s) with
      | OperationPhase.Prepared | OperationPhase.WaitingForCapacity =>
          (set_state c (set_phase s OperationPhase.Queued), Ok tt)
      | _ => (c, Err (NetError_new ErrorKind.InvalidInput))
      end
  end.

Definition mark_writing (c : OperationControl) (env : Env) (now : Instant)
    (connection_ : ConnectionId) : OperationControl * bool :=
  let s := state c in
  if is_err (check_active c env now s)
     || negb (bool_decide (phase (snapshot s) = OperationPhase.Queued))
  then (c, false)
  else (set_state c ((set_phase s OperationPhase.Writing) <| connection := Some connection_ |>), true).

(** Announces a started attempt to the policy's observer. *)
Definition attempt_started (c : OperationControl) (attempt : Z) : list (ObserverId * RetryEvent) :=
  match retry_policy c ≫= observer with
  | Some o => [(o, RetryEvent.AttemptStarted attempt)]
  | None => []
  end.

Definition begin_write_attempt (c : OperationControl) (env : Env) (now : Instant) :
    OperationControl * Result () NetError * list (ObserverId * RetryEvent) :=
  let s := state c in
  if tracked c || retry_attempt_open s || is_some (result (snapshot s)) then (c, Ok tt, [])
  else
    match check_active_until c env now s (absolute_deadline c) with
    | Err e => (c, Err e, [])
    | Ok _ =>
        match begin_attempt (retry s) with
        | (r, Err e) => (set_state c (s <| retry := r |>), Err (invalid_policy e), [])
        | (r, Ok attempt) =>
            (set_state c (s <| retry := r; retry_attempt_open := true |>), Ok tt,
             attempt_started c attempt)
        end
    end.

(** The request whose response deadline must be refreshed before data is written. *)
Definition expired_response (c : OperationControl) (now : Instant) : option PendingIdentity :=
  let s := state c in
  if is_none (result (snapshot s))
     && is_some_and (response_deadline s) (fun deadline => deadline <=? now)
  then pending_identity s else None.

Definition confirmed_continuation (s : OperationState) (continuation : bool) : bool :=
  continuation
  && bool_decide (delivery (snapshot s) = DeliveryEvidence.ResponseConfirmed)
  && match result (snapshot s) with
     | Some (Ok TaskSuccess.ResponseReceived) => true
     | _ => false
     end.

(** The attempt and the send of the first frame of a message. *)
Definition account_write (s : OperationState) :
    OperationState * Result (option Z) RetryStateError :=
  let '(s, started) :=
    if negb (retry_attempt_open s) then
      match begin_attempt (retry s) with
      | (r, Err e) => (s <| retry := r |>, Err e)
      | (r, Ok attempt) => (s <| retry := r; retry_attempt_open := true |>, Ok (Some attempt))
      end
    else (s, Ok None) in
  match started with
  | Err e => (s, Err e)
  | Ok started =>
      match record_transport_send (retry s) with
      | (r, Err e) => (s <| retry := r |>, Err e)
      | (r, Ok _) => (s <| retry := r |>, Ok started)
      end
  end.

(** From here on the data may reach the peer. *)
Definition mark_in_flight (s : OperationState) : OperationState :=
  let s := s <| data_in_flight := true |> in
  if bool_decide (delivery (snapshot s) = DeliveryEvidence.NotStarted)
  then s <| snapshot ::= fun sn => sn <| delivery := DeliveryEvidence.Unknown |> |>
  else s.

(** The gated part of [start_data_write], after the response deadline of
    [expired_response] has been refreshed. *)
Definition start_data_write_gated (c : OperationControl) (env : Env) (now : Instant)
    (continuation : bool) :
    OperationControl * Result bool NetError * list (ObserverId * RetryEvent) :=
  match lock_group c env with
  | Err _ => (c, Ok false, [])
  | Ok _ =>
      let s := state c in
      let confirmed := confirmed_continuation s continuation in
      let active := confirmed
        || is_ok (check_active_until c env now s (absolute_deadline c))
           && bool_decide (phase (snapshot s) = OperationPhase.Writing) in
      if negb active then (c, Ok false, [])
      else
        let '(s, started) :=
          if negb (data_in_flight s) && negb confirmed then account_write s else (s, Ok None) in
        match started with
        | Err e => (set_state c s, Err (invalid_policy e), [])
        | Ok started =>
            (set_state c (mark_in_flight s), Ok true,
             match started with Some attempt => attempt_started c attempt | None => [] end)
        end
  end.

End Retry.

Definition data_write_started (c : OperationControl) : bool := data_in_flight (state c).

Definition has_in_flight_data (c : OperationControl) : bool :=
  let s := state c in
  data_in_flight s
  && negb (bool_decide (delivery (snapshot s) = DeliveryEvidence.ResponseConfirmed))
  && negb (bool_decide (delivery (snapshot s) = DeliveryEvidence.Written)).

(** [token.cancel()] *)
Definition cancel_token (env : Env) (t : Token) : Env :=
  mkEnv (env_trees env) ({[t]} ∪ env_tokens env).

Definition bind_write_retirement (c : OperationControl) (env : Env) (token : Token) :
    OperationControl * Env :=
  let s := state c in
  let cancelled := data_in_flight s && is_some_and (result (snapshot s)) is_err in
  (set_state c (s <| retirement := Some token |>),
   if cancelled then cancel_token env token else env).

Definition retire_write (c : OperationControl) (env : Env) : Env :=
  match retirement (state c) with Some token => cancel_token env token | None => env end.

Definition requeue (c : OperationControl) (env : Env) (now : Instant) : OperationControl * bool :=
  let s := state c in
  if is_err (check_active c env now s)
     || negb (bool_decide (phase (snapshot s) = OperationPhase.Writing))
  then (c, false)
  else
    (set_state c ((set_phase s OperationPhase.Queued)
                    <| data_in_flight := false; retirement := None |>), true).

(** ** Selecting the terminal result *)

Definition finish_stop (c : OperationControl) (s : OperationState) (now : Instant)
    (cause : TaskEndCause) : RetryStopReason :=
  match cause with
  | TaskEndCause.Completed => RetryStopReason.Completed
  | TaskEndCause.Cancelled => RetryStopReason.Cancelled
  | TaskEndCause.Expired =>
      if is_some_and (absolute_deadline c) (fun deadline => deadline <=? now)
      then RetryStopReason.TimedOut
      else match retry_stop s with Some stop => stop | None => RetryStopReason.TimedOut end
  | TaskEndCause.Shutdown => RetryStopReason.Shutdown
  | _ => match retry_stop s with Some stop => stop | None => RetryStopReason.NotRetryable end
  end.

Definition finish_locked (c : OperationControl) (now : Instant) (s : OperationState)
    (res : Result TaskSuccess NetError) (cause : TaskEndCause) (p : OperationPublication) :
    OperationState * OperationPublication :=
  let old_phase := phase (snapshot s) in
  let s := s <| retry := (finish (retry s) (finish_stop c s now cause)).1 |> in
  let report := report (retry s) (elapsed now (retry_started s)) in
  let res := map_err (fun error => with_retry_report error report) res in
  let '(s, p) :=
    match retry_policy c ≫= observer with
    | Some o =>
        let attempt := if retry_attempt_open s
                       then Some (RetryEvent.AttemptFinished (rep_attempts report) true) else None in
        (s <| retry_attempt_open := false |>,
         p <| pub_retry := Some (o, attempt, RetryEvent.Completed report) |>)
    | None => (s, p)
    end in
  let s := s <| saved_report := Some report |> in
  let s := s <| snapshot ::= fun sn => sn <| result := Some res; phase := OperationPhase.Finished |> |> in
  let '(s, p) :=
    match observation s with
    | Some o =>
        (s <| observation := None |>,
         p <| task := Some (reservation o,
           {| ev_client_id := oc_client_id c; ev_session_id := oc_session_id c;
              ev_operation_id := oc_id c; ev_connection_id := connection s;
              ev_source := obs_source o; ev_lane := oc_lane c; ev_phase := old_phase;
              ev_delivery := delivery (snapshot s); ev_cause := cause; ev_result := res |}) |>)
    | None => (s, p)
    end in
  (s <| hook := None |>, p <| pub_hook := hook s |>).

Definition failure_outcome (d : DeliveryEvidence) : TerminationOutcome :=
  match d with
  | DeliveryEvidence.NotStarted => TerminationOutcome.TerminatedBeforeWrite
  | DeliveryEvidence.Unknown => TerminationOutcome.DeliveryUnknown
  | DeliveryEvidence.Written | DeliveryEvidence.ResponseConfirmed =>
      TerminationOutcome.TerminatedAfterWrite
  end.

Definition phase_stage (p : OperationPhase) : ErrorStage :=
  match p with
  | OperationPhase.WaitingForCapacity => ErrorStage.Admission
  | OperationPhase.Prepared | OperationPhase.Queued => ErrorStage.Queue
  | OperationPhase.Writing => ErrorStage.Write
  | OperationPhase.AwaitingResponse => ErrorStage.Response
  | OperationPhase.Finished => ErrorStage.Dispatch
  end.

(** The error an operation ends with: the identities of the operation are added
    to the context and uncertain delivery becomes the classification. *)
Definition located_error (c : OperationControl) (s : OperationState) (error : NetError) : NetError :=
  let ctx := econtext error in
  let ctx := ctx <| client_id := Some (oc_client_id c); session_id := Some (oc_session_id c) |> in
  let ctx := ctx <| connection_id := option_or (connection s) (connection_id ctx) |> in
  let ctx := match pending_identity s with
             | Some identity => ctx <| request_id := Some (pi_id identity) |>
             | None => ctx
             end in
  let ctx := if is_none (stage ctx)
             then ctx <| stage := Some (phase_stage (phase (snapshot s))) |> else ctx in
  let error := with_context error ctx in
  if bool_decide (delivery (snapshot s) = DeliveryEvidence.Unknown)
     && negb (bool_decide (kind error = ErrorKind.DeliveryUnknown))
  then with_context (with_source ErrorKind.DeliveryUnknown (net_source error)) (econtext error)
  else error.

Definition select_failure_locked (c : OperationControl) (now : Instant) (error : NetError)
    (cause : TaskEndCause) (p : OperationPublication) :
    OperationControl * TerminationOutcome * OperationPublication :=
  let s := state c in
  if is_some (result (snapshot s)) then (c, TerminationOutcome.AlreadyFinished, p)
  else
    let outcome := failure_outcome (delivery (snapshot s)) in
    let error := located_error c s error in
    let p := if data_in_flight s then p <| pub_retirement := retirement s |> else p in
    let p := p <| pub_cancelled := Some (cancelled_token c);
                  pub_queue := Some (queue s, cancelled_token c, error);
                  pub_written := Some (written_token c) |> in
    let '(s, p) := finish_locked c now s (Err error) cause p in
    (set_state c s, outcome, p).

Definition select_failure (c : OperationControl) (now : Instant) (error : NetError)
    (cause : TaskEndCause) : OperationControl * TerminationOutcome * OperationPublication :=
  select_failure_locked c now error cause (publication_default <| retired_error := Some error |>).

Definition select_written (c : OperationControl) (env : Env) (now : Instant) :
    OperationControl * bool * OperationPublication :=
  match lock_group c env with
  | Err error =>
      let '(c, _, p) := select_failure c now error TaskEndCause.Cancelled in (c, false, p)
  | Ok _ =>
      let s := state c in
      if is_some (result (snapshot s)) then
        (c, bool_decide (delivery (snapshot s) = DeliveryEvidence.ResponseConfirmed),
         publication_default)
      else
        match check_active c env now s with
        | Err error =>
            let '(c, _, p) := select_failure c now error TaskEndCause.Expired in (c, false, p)
        | Ok _ =>
            let s := s <| snapshot ::= (fun sn => sn <| delivery := DeliveryEvidence.Written |>);
                          data_in_flight := false |> in
            let p := publication_default <| pub_written := Some (written_token c) |> in
            if tracked c then (set_state c (set_phase s OperationPhase.AwaitingResponse), true, p)
            else
              let '(s, p) := finish_locked c now s (Ok TaskSuccess.Written) TaskEndCause.Completed p in
              (set_state c s, true, p)
        end
  end.

Definition select_response (c : OperationControl) (env : Env) (now : Instant) :
    OperationControl * bool * OperationPublication :=
  match lock_group c env with
  | Err error =>
      let '(c, _, p) := select_failure c now error TaskEndCause.Cancelled in (c, false, p)
  | Ok _ =>
      let s := state c in
      if is_some (result (snapshot s)) then (c, false, publication_default)
      else
        match check_active c env now s with
        | Err error =>
            let '(c, _, p) := select_failure c now error TaskEndCause.Expired in (c, false, p)
        | Ok _ =>
            let s := s <| snapshot ::= (fun sn => sn <| delivery := DeliveryEvidence.ResponseConfirmed |>);
                          data_in_flight := false |> in
            let p := publication_default <| pub_written := Some (written_token c) |> in
            let '(s, p) := finish_locked c now s (Ok TaskSuccess.ResponseReceived)
                             TaskEndCause.Completed p in
            (set_state c s, true, p)
        end
  end.

(** What a waiter on [written] reads once the written token is cancelled. *)
Definition written_outcome (c : OperationControl) : Result WriteOutcome NetError :=
  match delivery (snapshot (state c)) with
  | DeliveryEvidence.ResponseConfirmed => Ok WriteOutcome.ResponseConfirmed
  | DeliveryEvidence.Written => Ok WriteOutcome.Written
  | _ => Err (match result (snapshot (state c)) ≫= result_err with
              | Some e => e
              | None => NetError_new ErrorKind.Internal
              end)
  end.

(** ** The operations as steps *)

Inductive ControlOp :=
| OpPrepare | OpEnqueue
| OpMarkWriting (c : ConnectionId)
| OpBeginWrite
| OpStartWrite (continuation : bool)
| OpBindRetirement (t : Token)
| OpRequeue
| OpRetryBegin (e : NetError)
| OpRetryDecide (e : NetError) (d : Result RetryDecision NetError)
| OpSetRetryStarted (at_ : Instant)
| OpSetResponseDeadline (d : option Instant)
| OpBindRequest (t : TableId) (id : RequestId) (token : Z)
| OpBindQueue (q : QueueId)
| OpBindCancellation (reserve : bool) (h : HookId)
| OpSelectWritten | OpSelectResponse
| OpSelectFailure (e : NetError) (cause : TaskEndCause).

Section Steps.
Context {clk : Clock} {libm : Libm}.

(** One call on the shared object, with the publication it hands out. *)
Definition control_step (c : OperationControl) (env : Env) (now : Instant) (op : ControlOp) :
    OperationControl * OperationPublication :=
  match op with
  | OpPrepare => ((prepare c env now).1, publication_default)
  | OpEnqueue => ((enqueue c env now).1, publication_default)
  | OpMarkWriting conn => ((mark_writing c env now conn).1, publication_default)
  | OpBeginWrite => ((begin_write_attempt c env now).1.1, publication_default)
  | OpStartWrite k => ((start_data_write_gated c env now k).1.1, publication_default)
  | OpBindRetirement t => ((bind_write_retirement c env t).1, publication_default)
  | OpRequeue => ((requeue c env now).1, publication_default)
  | OpRetryBegin e => ((raw_retry_begin c env now e).1, publication_default)
  | OpRetryDecide e d =>
      match retry_policy c with
      | Some policy => ((raw_retry_decide c env now e policy d).1, publication_default)
      | None => (c, publication_default)
      end
  | OpSetRetryStarted at_ => (set_retry_started c at_, publication_default)
  | OpSetResponseDeadline d => (set_response_deadline c d, publication_default)
  | OpBindRequest t id token => ((bind_request c env now t id token).1, publication_default)
  | OpBindQueue q => (bind_queue c q, publication_default)
  | OpBindCancellation r h => ((bind_cancellation r c env h).1.1, publication_default)
  | OpSelectWritten => let '(c, _, p) := select_written c env now in (c, p)
  | OpSelectResponse => let '(c, _, p) := select_response c env now in (c, p)
  | OpSelectFailure e cause => let '(c, _, p) := select_failure c now e cause in (c, p)
  end.

(** Calls by any threads in any order, each under its own environment and clock. *)
Fixpoint control_run (c : OperationControl) (ops : list (Env * Instant * ControlOp)) :
    OperationControl * list OperationPublication :=
  match ops with
  | [] => (c, [])
  | (env, now, op) :: ops =>
      let '(c, p) := control_step c env now op in
      let '(c, ps) := control_run c ops in
      (c, p :: ps)
  end.

(** ** Invariant *)

Definition control_schedule (c : OperationControl) : RetrySchedule :=
  match retry_policy c with Some policy => policy_schedule policy | None => no_retry end.

Record control_inv (c : OperationControl) : Prop := {
  inv_retry : state_wf (retry (state c));
  inv_schedule : schedule (retry (state c)) = control_schedule c;
  inv_open : result (snapshot (state c)) = None ->
    phase (snapshot (state c)) <> OperationPhase.Finished /\
    is_Some (observation (state c)) /\ saved_report (state c) = None /\
    stop_reason (retry (state c)) = None;
  inv_done r : result (snapshot (state c)) = Some r ->
    phase (snapshot (state c)) = OperationPhase.Finished /\
    observation (state c) = None /\ hook (state c) = None /\
    is_Some (stop_reason (retry (state c)));
  inv_error e : result (snapshot (state c)) = Some (Err e) ->
    retry_report e = saved_report (state c) /\ is_Some (saved_report (state c)) /\
    client_id (econtext e) = Some (oc_client_id c) /\
    session_id (econtext e) = Some (oc_session_id c) /\ is_Some (stage (econtext e)) /\
    (delivery (snapshot (state c)) = DeliveryEvidence.Unknown ->
     kind e = ErrorKind.DeliveryUnknown);
  inv_ok r : result (snapshot (state c)) = Some (Ok r) ->
    match r with
    | TaskSuccess.Written =>
        delivery (snapshot (state c)) = DeliveryEvidence.Written /\ tracked c = false
    | TaskSuccess.ResponseReceived =>
        delivery (snapshot (state c)) = DeliveryEvidence.ResponseConfirmed
    end;
  inv_confirmed : delivery (snapshot (state c)) = DeliveryEvidence.ResponseConfirmed ->
    result (snapshot (state c)) = Some (Ok TaskSuccess.ResponseReceived);
  inv_sent : 0 < transport_sends (retry (state c)) ->
    delivery (snapshot (state c)) <> DeliveryEvidence.NotStarted;
  inv_written : delivery (snapshot (state c)) = DeliveryEvidence.Written ->
    phase (snapshot (state c)) = OperationPhase.AwaitingResponse \/
    is_Some (result (snapshot (state c)));
}.

(** The evidence order of [DeliveryEvidence]. *)
Definition evidence_rank (d : DeliveryEvidence) : nat :=
  match d with
  | DeliveryEvidence.NotStarted => 0
  | DeliveryEvidence.Unknown => 1
  | DeliveryEvidence.Written => 2
  | DeliveryEvidence.ResponseConfirmed => 3
  end.

Lemma new_inv seed ct wt now cl se id options tr src res ph :
  (forall p, retry_setting options = RetrySetting.Policy p -> schedule_wf (policy_schedule p)) ->
  in_u64 seed ->
  control_inv (new_with_deadline_phase seed ct wt now cl se id options tr src res ph).
Proof.
  intros Hp Hs. split; simpl; try done.
  apply with_seed_wf; [|done].
  destruct (retry_setting options) as [| |p]; simpl; try apply no_retry_wf.
  destruct tr; simpl; [apply no_retry_wf|]. by apply Hp.
Qed.

(** A finished operation: no check passes, so no call can change its snapshot. *)
Lemma check_active_until_done c env now s d r :
  result (snapshot s) = Some r -> exists e, check_active_until c env now s d = Err e.
Proof. unfold check_active_until. intros ->. eauto. Qed.

Lemma check_active_ok_open c env now s d :
  is_ok (check_active_until c env now s d) = true -> result (snapshot s) = None.
Proof.
  destruct (result (snapshot s)) eqn:Hr; [|done].
  destruct (check_active_until_done c env now s d _ Hr) as [e ->]. done.
Qed.

(** What [finish_locked] leaves in the state. *)
Lemma finish_locked_spec c now s res cause p s' p' :
  finish_locked c now s res cause p = (s', p') ->
  let rep := report (finish (retry s) (finish_stop c s now cause)).1 (elapsed now (retry_started s)) in
  result (snapshot s') = Some (map_err (fun e => with_retry_report e rep) res) /\
  phase (snapshot s') = OperationPhase.Finished /\
  delivery (snapshot s') = delivery (snapshot s) /\
  observation s' = None /\ hook s' = None /\ saved_report s' = Some rep /\
  retry s' = (finish (retry s) (finish_stop c s now cause)).1 /\
  connection s' = connection s /\ pending_identity s' = pending_identity s /\
  data_in_flight s' = data_in_flight s /\
  pub_cancelled p' = pub_cancelled p /\ pub_written p' = pub_written p /\
  pub_queue p' = pub_queue p /\ pub_retirement p' = pub_retirement p /\
  retired_error p' = retired_error p /\
  match observation s with
  | Some o => exists ev, task p' = Some (reservation o, ev) /\ ev_operation_id ev = oc_id c /\
      ev_cause ev = cause /\ ev_phase ev = phase (snapshot s) /\
      ev_delivery ev = delivery (snapshot s) /\ Some (ev_result ev) = result (snapshot s')
  | None => task p' = task p
  end.
Proof.
  intros H rep. unfold finish_locked in H. subst rep. destruct s, c; simpl in *.
  destruct (_ ≫= observer) as [o|]; destruct observation0 as [ob|]; simplify_eq/=;
    split_and!; try done; eexists; split_and!; done.
Qed.

(** ** Preservation *)

Lemma begin_attempt_kept r r' a :
  state_wf r -> begin_attempt r = (r', a) ->
  state_wf r' /\ stop_reason r' = stop_reason r /\ transport_sends r' = transport_sends r /\
  schedule r' = schedule r.
Proof.
  intros Hwf Hb. pose proof (retry_step_wf r OpBegin Hwf) as Hw. simpl in Hw. rewrite Hb in Hw.
  split; [done|]. unfold begin_attempt in Hb. repeat case_match; by simplify_eq/=.
Qed.

Lemma next_delay_kept now r r' a :
  state_wf r -> next_delay now r = (r', a) ->
  state_wf r' /\ stop_reason r' = stop_reason r /\ transport_sends r' = transport_sends r /\
  schedule r' = schedule r.
Proof.
  intros Hwf Hb. pose proof (retry_step_wf r (OpDelay now) Hwf) as Hw. simpl in Hw. rewrite Hb in Hw.
  split; [done|]. unfold next_delay, next_unit in Hb. repeat case_match; by simplify_eq/=.
Qed.

Lemma record_kept r r' a :
  state_wf r -> record_transport_send r = (r', a) ->
  state_wf r' /\ stop_reason r' = stop_reason r /\ schedule r' = schedule r.
Proof.
  intros Hwf Hb. pose proof (retry_step_wf r OpSend Hwf) as Hw. simpl in Hw. rewrite Hb in Hw.
  split; [done|]. unfold record_transport_send in Hb. repeat case_match; by simplify_eq/=.
Qed.

Lemma finish_kept r reason :
  state_wf r -> state_wf (finish r reason).1 /\ is_Some (stop_reason (finish r reason).1) /\
  transport_sends (finish r reason).1 = transport_sends r /\
  schedule (finish r reason).1 = schedule r.
Proof.
  intros Hwf. pose proof (retry_step_wf r (OpFinish reason) Hwf) as Hw. simpl in Hw.
  destruct (finish r reason) as [r' b] eqn:Hf. simpl in *. split; [done|].
  unfold finish in Hf. destruct (stop_reason r) eqn:E; simplify_eq/=; rewrite ?E; done.
Qed.

(** An open operation stays open. *)
Lemma inv_open_update c s :
  control_inv c -> result (snapshot (state c)) = None ->
  result (snapshot s) = None -> phase (snapshot s) <> OperationPhase.Finished ->
  observation s = observation (state c) -> saved_report s = saved_report (state c) ->
  state_wf (retry s) -> schedule (retry s) = control_schedule c -> stop_reason (retry s) = None ->
  delivery (snapshot s) <> DeliveryEvidence.ResponseConfirmed ->
  (0 < transport_sends (retry s) -> delivery (snapshot s) <> DeliveryEvidence.NotStarted) ->
  (delivery (snapshot s) = DeliveryEvidence.Written ->
   phase (snapshot s) = OperationPhase.AwaitingResponse) ->
  control_inv (set_state c s).
Proof.
  intros Hi Hr Hr' Hp Ho Hs Hw Hsch Hst Hd Hsent Hwr. destruct (inv_open _ Hi Hr) as (_ & Ho' & Hs' & _).
  split; simpl; try done; rewrite ?Hr'; try done; rewrite ?Ho, ?Hs; auto.
Qed.

(** Fields the invariant does not constrain. *)
Lemma inv_same c s :
  control_inv c -> snapshot s = snapshot (state c) -> observation s = observation (state c) ->
  saved_report s = saved_report (state c) -> retry s = retry (state c) ->
  (is_Some (result (snapshot (state c))) -> hook s = hook (state c)) ->
  control_inv (set_state c s).
Proof.
  intros Hi Hsn Ho Hs Hr Hh. split; simpl; rewrite ?Hsn, ?Ho, ?Hs, ?Hr; try apply Hi.
  intros r Hr'. rewrite Hh by (by rewrite Hr'). exact (inv_done _ Hi r Hr').
Qed.

Lemma located_error_context c s e :
  client_id (econtext (located_error c s e)) = Some (oc_client_id c) /\
  session_id (econtext (located_error c s e)) = Some (oc_session_id c) /\
  is_Some (stage (econtext (located_error c s e))) /\
  (delivery (snapshot s) = DeliveryEvidence.Unknown ->
   kind (located_error c s e) = ErrorKind.DeliveryUnknown).
Proof.
  unfold located_error. destruct e as [k [st] cfg src rep]. simpl.
  destruct (pending_identity s), st; simpl;
    destruct (delivery (snapshot s)); simpl;
    repeat case_bool_decide; simpl; split_and!; try done; by eexists.
Qed.

Lemma failure_inv c now e cause p :
  control_inv c -> control_inv (select_failure_locked c now e cause p).1.1.
Proof.
  intros Hi. unfold select_failure_locked.
  destruct (result (snapshot (state c))) as [r|] eqn:Hr; simpl; [done|].
  destruct (finish_locked _ _ _ _ _ _) as [s' p'] eqn:Hf. simpl.
  destruct (finish_locked_spec _ _ _ _ _ _ _ _ Hf)
    as (Hr' & Hp & Hd & Ho & Hh & Hs & Hre & _).
  destruct (finish_kept (retry (state c)) (finish_stop c (state c) now cause) (inv_retry _ Hi))
    as (Hw & Hst & Hsends & Hsch).
  destruct (located_error_context c (state c) e) as (Hc1 & Hc2 & Hc3 & Hc4).
  simpl in Hr'.
  split; simpl; rewrite ?Hr', ?Hd, ?Hre; try done.
  - rewrite Hsch. apply Hi.
  - intros e' [= <-]. rewrite Hs. by split_and!.
  - intros Hdc. pose proof (inv_confirmed _ Hi Hdc). congruence.
  - rewrite Hsends. apply (inv_sent _ Hi).
  - intros _. right. by eexists.
Qed.

Lemma select_failure_inv c now e cause :
  control_inv c -> control_inv (select_failure c now e cause).1.1.
Proof. apply failure_inv. Qed.

(** The success path of [select_written] and [select_response]. *)
Lemma success_inv c now s d r p s' p' :
  control_inv c -> result (snapshot (state c)) = None ->
  s = (state c) <| snapshot ::= (fun sn => sn <| delivery := d |>); data_in_flight := false |> ->
  match r with
  | TaskSuccess.Written => d = DeliveryEvidence.Written /\ tracked c = false
  | TaskSuccess.ResponseReceived => d = DeliveryEvidence.ResponseConfirmed
  end ->
  finish_locked c now s (Ok r) TaskEndCause.Completed p = (s', p') ->
  control_inv (set_state c s').
Proof.
  intros Hi Hr -> Hd Hf.
  destruct (finish_locked_spec _ _ _ _ _ _ _ _ Hf)
    as (Hr' & Hp & Hd' & Ho & Hh & Hs & Hre & _). simpl in *.
  match type of Hre with _ = (finish _ ?stop).1 =>
    destruct (finish_kept (retry (state c)) stop (inv_retry _ Hi)) as (Hw & Hst & Hsends & Hsch) end.
  split; simpl; rewrite ?Hr', ?Hd', ?Hre; try done.
  - rewrite Hsch. apply Hi.
  - intros r' [= <-]. by destruct r.
  - intros ->. destruct r; naive_solver.
  - intros _. destruct r; [destruct Hd as [-> _]|rewrite Hd]; done.
  - intros _. right. by eexists.
Qed.

Lemma select_written_inv c env now :
  control_inv c -> control_inv (select_written c env now).1.1.
Proof.
  intros Hi. unfold select_written. destruct (lock_group c env) as [[]|e].
  2: { pose proof (select_failure_inv c now e TaskEndCause.Cancelled Hi) as Hf.
       by destruct (select_failure c now e TaskEndCause.Cancelled) as [[c' ?] ?]. }
  destruct (result (snapshot (state c))) as [r|] eqn:Hr; [done|]. cbn [is_some].
  destruct (check_active c env now (state c)) as [[]|e].
  2: { pose proof (select_failure_inv c now e TaskEndCause.Expired Hi) as Hf.
       by destruct (select_failure c now e TaskEndCause.Expired) as [[c' ?] ?]. }
  destruct (tracked c) eqn:Ht.
  - cbn [fst]. pose proof (inv_open _ Hi Hr) as (Hp & Ho & Hs & Hst).
    apply inv_open_update; simpl; try done; apply Hi.
  - destruct (finish_locked _ _ _ _ _ _) as [s' p'] eqn:Hf. cbn [fst].
    eapply success_inv; [done|done|done| |exact Hf]. done.
Qed.

Lemma select_response_inv c env now :
  control_inv c -> control_inv (select_response c env now).1.1.
Proof.
  intros Hi. unfold select_response. destruct (lock_group c env) as [[]|e].
  2: { pose proof (select_failure_inv c now e TaskEndCause.Cancelled Hi) as Hf.
       by destruct (select_failure c now e TaskEndCause.Cancelled) as [[c' ?] ?]. }
  destruct (result (snapshot (state c))) as [r|] eqn:Hr; [done|]. cbn [is_some].
  destruct (check_active c env now (state c)) as [[]|e].
  2: { pose proof (select_failure_inv c now e TaskEndCause.Expired Hi) as Hf.
       by destruct (select_failure c now e TaskEndCause.Expired) as [[c' ?] ?]. }
  destruct (finish_locked _ _ _ _ _ _) as [s' p'] eqn:Hf. cbn [fst].
  eapply success_inv; [done|done|done| |exact Hf]. done.
Qed.

Lemma check_active_open c env now s u : check_active c env now s = Ok u -> result (snapshot s) = None.
Proof. intros H. eapply check_active_ok_open. unfold check_active in H. by rewrite H. Qed.

(** The phase changes of the sender and the writer. *)
Lemma phase_update_inv c s ph :
  control_inv c -> result (snapshot (state c)) = None -> ph <> OperationPhase.Finished ->
  delivery (snapshot (state c)) <> DeliveryEvidence.Written ->
  snapshot s = (snapshot (state c)) <| phase := ph |> ->
  observation s = observation (state c) -> saved_report s = saved_report (state c) ->
  retry s = retry (state c) -> control_inv (set_state c s).
Proof.
  intros Hi Hr Hph Hw Hsn Ho Hs Hre. pose proof (inv_open _ Hi Hr) as (Hp & _ & _ & Hst).
  apply inv_open_update; rewrite ?Hsn, ?Hre; simpl; try done; try apply Hi.
  intros Hd. pose proof (inv_confirmed _ Hi Hd). congruence.
Qed.

Lemma open_phase_not_written c :
  control_inv c -> result (snapshot (state c)) = None ->
  phase (snapshot (state c)) <> OperationPhase.AwaitingResponse ->
  delivery (snapshot (state c)) <> DeliveryEvidence.Written.
Proof.
  intros Hi Hr Hp Hd. destruct (inv_written _ Hi Hd) as [?|[? ?]]; congruence.
Qed.

Lemma account_write_inv s s' a :
  state_wf (retry s) -> account_write s = (s', a) ->
  state_wf (retry s') /\ schedule (retry s') = schedule (retry s) /\
  stop_reason (retry s') = stop_reason (retry s) /\
  snapshot s' = snapshot s /\ observation s' = observation s /\ saved_report s' = saved_report s /\
  (is_err a = true -> transport_sends (retry s') = transport_sends (retry s)).
Proof.
  intros Hw. unfold account_write.
  destruct (retry_attempt_open s); cbn [negb].
  - destruct (record_transport_send (retry s)) as [r [[]|e]] eqn:Hs; intros [= <- <-]; simpl.
    + destruct (record_kept _ _ _ Hw Hs) as (? & ? & ?). done.
    + destruct (record_kept _ _ _ Hw Hs) as (? & ? & ?). split_and!; try done. intros _.
      unfold record_transport_send in Hs. repeat case_match; by simplify_eq.
  - destruct (begin_attempt (retry s)) as [r [n|e]] eqn:Hb;
      destruct (begin_attempt_kept _ _ _ Hw Hb) as (Hw' & Hst & Hse & Hsch).
    + cbn [retry apply_update]. simpl.
      destruct (record_transport_send r) as [r2 [[]|e]] eqn:Hs; intros [= <- <-]; simpl;
        destruct (record_kept _ _ _ Hw' Hs) as (? & Hst' & Hsch'); split_and!; try done; try congruence.
      intros _. unfold record_transport_send in Hs. repeat case_match; simplify_eq; congruence.
    + intros [= <- <-]. simpl. split_and!; done.
Qed.

Lemma mark_in_flight_spec s :
  result (snapshot (mark_in_flight s)) = result (snapshot s) /\
  phase (snapshot (mark_in_flight s)) = phase (snapshot s) /\
  observation (mark_in_flight s) = observation s /\
  saved_report (mark_in_flight s) = saved_report s /\
  retry (mark_in_flight s) = retry s /\ hook (mark_in_flight s) = hook s /\
  delivery (snapshot (mark_in_flight s)) =
    match delivery (snapshot s) with
    | DeliveryEvidence.NotStarted => DeliveryEvidence.Unknown | d => d
    end.
Proof.
  unfold mark_in_flight. destruct s as [[ph d r]]. simpl. destruct d; by case_bool_decide.
Qed.

(** Business data handed to the transport for an open operation. *)
Lemma in_flight_inv c s :
  control_inv c -> result (snapshot (state c)) = None ->
  phase (snapshot (state c)) = OperationPhase.Writing ->
  snapshot s = snapshot (state c) -> observation s = observation (state c) ->
  saved_report s = saved_report (state c) -> state_wf (retry s) ->
  schedule (retry s) = schedule (retry (state c)) -> stop_reason (retry s) = None ->
  control_inv (set_state c (mark_in_flight s)).
Proof.
  intros Hi Hr Hph Hsn Ho Hsr Hw Hsch Hst.
  pose proof (open_phase_not_written c Hi Hr ltac:(congruence)) as Hnw.
  assert (delivery (snapshot (state c)) <> DeliveryEvidence.ResponseConfirmed) as Hnc.
  { intros Hd. pose proof (inv_confirmed _ Hi Hd). congruence. }
  destruct (mark_in_flight_spec s) as (Hr' & Hp' & Ho' & Hs' & Hre' & _ & Hd').
  rewrite Hsn in *.
  rewrite (inv_schedule _ Hi) in Hsch.
  apply inv_open_update; rewrite ?Hr', ?Hp', ?Ho', ?Hs', ?Hre', ?Hd'; try done; try congruence;
    by destruct (delivery (snapshot (state c))).
Qed.

Lemma start_data_write_inv c env now k :
  control_inv c -> control_inv (start_data_write_gated c env now k).1.1.
Proof.
  intros Hi. unfold start_data_write_gated. destruct (lock_group c env); [|done].
  destruct (confirmed_continuation (state c) k) eqn:Hcc.
  - cbn [orb negb andb]. rewrite andb_false_r. cbn [fst].
    assert (delivery (snapshot (state c)) = DeliveryEvidence.ResponseConfirmed) as Hd.
    { unfold confirmed_continuation in Hcc. destruct k; [|done]. simpl in Hcc.
      apply andb_prop in Hcc as [Hcc _]. by apply bool_decide_eq_true in Hcc. }
    destruct (mark_in_flight_spec (state c)) as (Hr & Hp & Ho & Hs & Hre & Hh & Hd').
    rewrite Hd in Hd'. apply inv_same; try done.
    destruct (snapshot (mark_in_flight (state c))), (snapshot (state c)). by simplify_eq/=.
  - cbn [orb]. destruct (is_ok _ && _) eqn:Hact; cbn [negb]; [|done].
    apply andb_prop in Hact as [Hok Hph]. apply bool_decide_eq_true in Hph.
    apply check_active_ok_open in Hok as Hr. destruct (inv_open _ Hi Hr) as (Hnf & Ho & Hsr & Hst).
    destruct (data_in_flight (state c)); cbn [negb andb].
    + cbn [fst]. apply in_flight_inv; try done. apply Hi.
    + destruct (account_write (state c)) as [s' a] eqn:Ha.
      destruct (account_write_inv _ _ _ (inv_retry _ Hi) Ha) as (Hw & Hsch & Hst' & Hsn & Ho' & Hsr' & Hse).
      destruct a as [started|e]; cbn [fst]; [apply in_flight_inv; congruence || done|].
      apply inv_open_update; rewrite ?Hsn, ?Hst'; try done.
      * rewrite Hsch. apply Hi.
      * intros Hd. pose proof (inv_confirmed _ Hi Hd). congruence.
      * rewrite Hse by done. apply Hi.
      * intros Hd. by destruct (open_phase_not_written c Hi Hr ltac:(congruence)).
Qed.

Lemma raw_retry_inv c env now e policy d :
  control_inv c -> control_inv (raw_retry_decide c env now e policy d).1.
Proof.
  intros Hi. unfold raw_retry_decide.
  destruct (check_active c env now (state c)) as [u|] eqn:Hc; [|done].
  apply check_active_open in Hc as Hr. pose proof (inv_open _ Hi Hr) as (Hnf & Ho & Hsr & Hst).
  destruct (raw_retry_stop _ _ _ _) as [stop|]; [by apply inv_same|].
  destruct (next_delay now (retry (state c))) as [r delay] eqn:Hn.
  destruct (next_delay_kept _ _ _ _ (inv_retry _ Hi) Hn) as (Hw & Hst' & Hse & Hsch).
  assert (delivery (snapshot (state c)) <> DeliveryEvidence.ResponseConfirmed) as Hnc.
  { intros Hd. pose proof (inv_confirmed _ Hi Hd). congruence. }
  assert (delivery (snapshot (state c)) = DeliveryEvidence.Written ->
          phase (snapshot (state c)) = OperationPhase.AwaitingResponse) as Hwr.
  { intros Hd. destruct (inv_written _ Hi Hd) as [?|[? ?]]; congruence. }
  destruct delay as [delay|err]; cbn [fst]; apply inv_open_update; simpl; rewrite ?Hst', ?Hse, ?Hsch; try done;
    apply Hi.
Qed.

Lemma check_active_err_false c env now s :
  is_err (check_active c env now s) = false -> result (snapshot s) = None.
Proof.
  destruct (check_active c env now s) eqn:Hc; [|done]. intros _. by eapply check_active_open.
Qed.

Lemma control_step_inv c env now op :
  control_inv c -> control_inv (control_step c env now op).1.
Proof.
  intros Hi.
  assert (forall ph, ph <> OperationPhase.Finished -> result (snapshot (state c)) = None ->
    phase (snapshot (state c)) <> OperationPhase.AwaitingResponse ->
    forall s, snapshot s = (snapshot (state c)) <| phase := ph |> ->
    observation s = observation (state c) -> saved_report s = saved_report (state c) ->
    retry s = retry (state c) -> control_inv (set_state c s)) as Hphase.
  { intros ph Hph Hr Hp s Hsn Ho Hs Hre. eapply phase_update_inv; try done.
    by apply open_phase_not_written. }
  destruct op as [| |conn| |k|t| |e|e d|at_|d|t id token|q|r h| | |e cause]; cbn [control_step fst].
  - unfold prepare. destruct (check_active c env now (state c)) eqn:Hc; [|done].
    apply check_active_open in Hc. case_bool_decide as Hp; cbn; [|done].
    eapply (Hphase OperationPhase.Prepared); try done. congruence.
  - unfold enqueue. destruct (check_active c env now (state c)) eqn:Hc; [|done].
    apply check_active_open in Hc. destruct (phase (snapshot (state c))) eqn:Hp; cbn; try done;
      (eapply (Hphase OperationPhase.Queued); try done; congruence).
  - unfold mark_writing. destruct (is_err _) eqn:Hc; [done|]. apply check_active_err_false in Hc.
    case_bool_decide as Hp; cbn; [|done].
    eapply (Hphase OperationPhase.Writing); try done. congruence.
  - unfold begin_write_attempt.
    destruct (tracked c || retry_attempt_open (state c) || is_some (result (snapshot (state c)))) eqn:Hg; [done|].
    apply orb_false_iff in Hg as [_ Hr]. destruct (result (snapshot (state c))) eqn:Hr'; [done|].
    destruct (check_active_until _ _ _ _ _); [|done].
    pose proof (inv_open _ Hi Hr') as (Hnf & Ho & Hsr & Hst).
    destruct (begin_attempt (retry (state c))) as [rt [n|e]] eqn:Hb;
      destruct (begin_attempt_kept _ _ _ (inv_retry _ Hi) Hb) as (Hw & Hst' & Hse & Hsch); cbn [fst];
      apply inv_open_update; simpl; rewrite ?Hst', ?Hse, ?Hsch; try done; try apply Hi;
      intros Hd; first [by pose proof (inv_confirmed _ Hi Hd); congruence
                       |destruct (inv_written _ Hi Hd) as [?|[? ?]]; congruence].
  - by apply start_data_write_inv.
  - unfold bind_write_retirement. cbn [fst]. by apply inv_same.
  - unfold requeue. destruct (is_err _) eqn:Hc; [done|]. apply check_active_err_false in Hc.
    case_bool_decide as Hp; cbn; [|done].
    eapply (Hphase OperationPhase.Queued); try done. congruence.
  - unfold raw_retry_begin. destruct (check_active _ _ _ _); [|done].
    destruct (tracked c || _); [done|]. destruct (retry_policy c) as [pol|]; [|by apply inv_same].
    destruct (terminal_error e); [by apply inv_same|done].
  - destruct (retry_policy c); [|done]. by apply raw_retry_inv.
  - unfold set_retry_started. case_match; [by apply inv_same|done].
  - by apply inv_same.
  - unfold bind_request. destruct (check_active _ _ _ _); [|done].
    destruct (is_some _); [done|by apply inv_same].
  - by apply inv_same.
  - unfold bind_cancellation. destruct (group c) as [g|]; [|done].
    destruct (bind_cancel_hook r (env_trees env) g h) as [t [u|e]]; [|done].
    destruct (result (snapshot (state c))) eqn:Hr; cbn [is_none is_some negb fst]; [done|].
    apply inv_same; try done. rewrite Hr. by intros [? ?].
  - pose proof (select_written_inv c env now Hi) as H.
    by destruct (select_written c env now) as [[? ?] ?].
  - pose proof (select_response_inv c env now Hi) as H.
    by destruct (select_response c env now) as [[? ?] ?].
  - pose proof (select_failure_inv c now e cause Hi) as H.
    by destruct (select_failure c now e cause) as [[? ?] ?].
Qed.

(** ** Transitions of the terminal result *)

Definition rank (c : OperationControl) : nat := evidence_rank (delivery (snapshot (state c))).

(** A call that selects nothing: an open operation stays open, a finished one
    keeps its snapshot and its retry state. *)
Definition quiet (c c' : OperationControl) : Prop :=
  result (snapshot (state c')) = result (snapshot (state c)) /\ (rank c <= rank c')%nat /\
  observation (state c') = observation (state c) /\
  (is_Some (result (snapshot (state c))) ->
   snapshot (state c') = snapshot (state c) /\ saved_report (state c') = saved_report (state c) /\
   retry (state c') = retry (state c)).

Lemma quiet_refl c : quiet c c.
Proof. done. Qed.

Lemma quiet_same c s :
  snapshot s = snapshot (state c) -> saved_report s = saved_report (state c) ->
  observation s = observation (state c) -> retry s = retry (state c) -> quiet c (set_state c s).
Proof. intros Hs Hr Ho Hre. unfold quiet, rank. simpl. by rewrite Hs, Hr, Ho, Hre. Qed.

Lemma quiet_open c s :
  result (snapshot (state c)) = None -> result (snapshot s) = None ->
  observation s = observation (state c) ->
  (rank c <= evidence_rank (delivery (snapshot s)))%nat -> quiet c (set_state c s).
Proof. intros Hr Hr' Ho Hd. unfold quiet. rewrite Hr. split_and!; [done..|]. by intros [? ?]. Qed.

Definition selects (op : ControlOp) : bool :=
  match op with OpSelectWritten | OpSelectResponse | OpSelectFailure _ _ => true | _ => false end.

Lemma start_data_write_quiet c env now k :
  control_inv c -> quiet c (start_data_write_gated c env now k).1.1.
Proof.
  intros Hi. unfold start_data_write_gated. destruct (lock_group c env); [|apply quiet_refl].
  destruct (confirmed_continuation (state c) k) eqn:Hcc.
  - cbn [orb negb andb]. rewrite andb_false_r. cbn [fst].
    assert (delivery (snapshot (state c)) = DeliveryEvidence.ResponseConfirmed) as Hd.
    { unfold confirmed_continuation in Hcc. destruct k; [|done]. simpl in Hcc.
      apply andb_prop in Hcc as [Hcc _]. by apply bool_decide_eq_true in Hcc. }
    destruct (mark_in_flight_spec (state c)) as (Hr & Hp & Ho & Hs & Hre & Hh & Hd').
    rewrite Hd in Hd'. apply quiet_same; try done.
    destruct (snapshot (mark_in_flight (state c))), (snapshot (state c)). by simplify_eq/=.
  - cbn [orb]. destruct (is_ok _ && _) eqn:Hact; cbn [negb]; [|apply quiet_refl].
    apply andb_prop in Hact as [Hok _]. apply check_active_ok_open in Hok as Hr.
    assert (forall s, snapshot s = snapshot (state c) -> observation s = observation (state c) ->
      quiet c (set_state c (mark_in_flight s))) as Hq.
    { intros s Hs Ho. destruct (mark_in_flight_spec s) as (Hr' & _ & Ho' & _ & _ & _ & Hd).
      apply quiet_open; [done|congruence..|]. rewrite Hd, Hs. unfold rank.
      destruct (delivery (snapshot (state c))); simpl; lia. }
    destruct (data_in_flight (state c)); cbn [negb andb]; [by apply Hq|].
    destruct (account_write (state c)) as [s' a] eqn:Ha.
    destruct (account_write_inv _ _ _ (inv_retry _ Hi) Ha) as (_ & _ & _ & Hsn & Hob & _).
    destruct a; cbn [fst]; [by apply Hq|]. apply quiet_open; rewrite ?Hsn; done.
Qed.

Lemma quiet_step c env now op :
  control_inv c -> selects op = false -> quiet c (control_step c env now op).1.
Proof.
  intros Hi Hs.
  destruct op as [| |conn| |k|t| |e|e d|at_|d|t id token|q|r h| | |e cause]; try discriminate Hs;
    cbn [control_step fst].
  - unfold prepare. destruct (check_active c env now (state c)) eqn:Hc; [|apply quiet_refl].
    apply check_active_open in Hc. case_match; [apply quiet_refl|by apply quiet_open].
  - unfold enqueue. destruct (check_active c env now (state c)) eqn:Hc; [|apply quiet_refl].
    apply check_active_open in Hc. case_match; try apply quiet_refl; by apply quiet_open.
  - unfold mark_writing. destruct (is_err _) eqn:Hc; [apply quiet_refl|].
    apply check_active_err_false in Hc. case_match; [apply quiet_refl|by apply quiet_open].
  - unfold begin_write_attempt. destruct (_ || is_some _) eqn:Hg; [apply quiet_refl|].
    apply orb_false_iff in Hg as [_ Hr]. destruct (result (snapshot (state c))) eqn:Hr'; [done|].
    destruct (check_active_until _ _ _ _ _); [|apply quiet_refl].
    destruct (begin_attempt _) as [rt [n|e]]; by apply quiet_open.
  - by apply start_data_write_quiet.
  - unfold bind_write_retirement. cbn [fst]. apply quiet_same; done.
  - unfold requeue. destruct (is_err _) eqn:Hc; [apply quiet_refl|].
    apply check_active_err_false in Hc. case_match; [apply quiet_refl|by apply quiet_open].
  - unfold raw_retry_begin. destruct (check_active _ _ _ _); [|apply quiet_refl].
    destruct (tracked c || _); [apply quiet_refl|].
    destruct (retry_policy c) as [pol|]; [|by apply quiet_same].
    destruct (terminal_error e); [by apply quiet_same|apply quiet_refl].
  - destruct (retry_policy c) as [policy|]; [|apply quiet_refl]. unfold raw_retry_decide.
    destruct (check_active c env now (state c)) eqn:Hc; [|apply quiet_refl].
    apply check_active_open in Hc. destruct (raw_retry_stop _ _ _ _); [by apply quiet_same|].
    destruct (next_delay _ _) as [rt [delay|e']]; by apply quiet_open.
  - unfold set_retry_started. case_match; [by apply quiet_same|apply quiet_refl].
  - unfold set_response_deadline. by apply quiet_same.
  - unfold bind_request. destruct (check_active _ _ _ _); [|apply quiet_refl].
    destruct (is_some _); [apply quiet_refl|by apply quiet_same].
  - unfold bind_queue. by apply quiet_same.
  - unfold bind_cancellation. destruct (group c) as [g|]; [|apply quiet_refl].
    destruct (bind_cancel_hook r (env_trees env) g h) as [t [u|e]]; [|apply quiet_refl].
    destruct (is_none _); [by apply quiet_same|apply quiet_refl].
Qed.

(** The one call that selects the result: it publishes the task event, with the
    result it stored, and wakes the writer's waiters. *)
Definition selected (c c' : OperationControl) (p : OperationPublication) : Prop :=
  result (snapshot (state c)) = None /\ (rank c <= rank c')%nat /\
  exists r o ev, result (snapshot (state c')) = Some r /\ observation (state c) = Some o /\
    task p = Some (reservation o, ev) /\ ev_result ev = r /\ ev_operation_id ev = oc_id c /\
    ev_delivery ev = delivery (snapshot (state c')) /\ pub_written p = Some (written_token c).

Definition transition (c c' : OperationControl) (p : OperationPublication) : Prop :=
  (quiet c c' /\ task p = None) \/ selected c c' p.

Lemma finish_selected c now s res cause p s' p' :
  control_inv c -> result (snapshot (state c)) = None ->
  observation s = observation (state c) ->
  (rank c <= evidence_rank (delivery (snapshot s)))%nat ->
  pub_written p = Some (written_token c) ->
  finish_locked c now s res cause p = (s', p') -> selected c (set_state c s') p'.
Proof.
  intros Hi Hr Ho Hd Hp Hf.
  destruct (finish_locked_spec _ _ _ _ _ _ _ _ Hf)
    as (Hr' & _ & Hd' & _ & _ & _ & _ & _ & _ & _ & _ & Hw & _ & _ & _ & Hev).
  destruct (inv_open _ Hi Hr) as (_ & [o Hobs] & _). rewrite Ho, Hobs in Hev.
  destruct Hev as (ev & Ht & Hid & _ & _ & Hde & Hre).
  split; [done|]. split; [unfold rank in *; simpl; by rewrite Hd'|].
  exists (ev_result ev), o, ev. simpl. split_and!; try done; congruence.
Qed.

Lemma select_failure_transition c now e cause :
  control_inv c ->
  transition c (select_failure c now e cause).1.1 (select_failure c now e cause).2.
Proof.
  intros Hi. unfold select_failure, select_failure_locked.
  destruct (result (snapshot (state c))) as [r|] eqn:Hr; cbn [is_some fst snd].
  { left. split; [apply quiet_refl|done]. }
  destruct (finish_locked _ _ _ _ _ _) as [s' p'] eqn:Hf. cbn [fst snd]. right.
  eapply finish_selected; [done|done| | | |exact Hf]; done.
Qed.

Lemma select_written_transition c env now :
  control_inv c -> transition c (select_written c env now).1.1 (select_written c env now).2.
Proof.
  intros Hi. unfold select_written. destruct (lock_group c env) as [[]|e].
  2: { pose proof (select_failure_transition c now e TaskEndCause.Cancelled Hi) as Hf.
       by destruct (select_failure c now e TaskEndCause.Cancelled) as [[c' ?] ?]. }
  destruct (result (snapshot (state c))) as [r|] eqn:Hr; cbn [is_some fst snd].
  { left. split; [apply quiet_refl|done]. }
  destruct (check_active c env now (state c)) as [[]|e].
  2: { pose proof (select_failure_transition c now e TaskEndCause.Expired Hi) as Hf.
       by destruct (select_failure c now e TaskEndCause.Expired) as [[c' ?] ?]. }
  assert (rank c <= 2)%nat as Hrank.
  { unfold rank. destruct (delivery (snapshot (state c))) eqn:Hd; simpl; try lia.
    pose proof (inv_confirmed _ Hi Hd). congruence. }
  destruct (tracked c).
  - left. split; [|done]. by apply quiet_open.
  - destruct (finish_locked _ _ _ _ _ _) as [s' p'] eqn:Hf. cbn [fst snd]. right.
    eapply finish_selected; [done|done| | | |exact Hf]; done.
Qed.

Lemma select_response_transition c env now :
  control_inv c -> transition c (select_response c env now).1.1 (select_response c env now).2.
Proof.
  intros Hi. unfold select_response. destruct (lock_group c env) as [[]|e].
  2: { pose proof (select_failure_transition c now e TaskEndCause.Cancelled Hi) as Hf.
       by destruct (select_failure c now e TaskEndCause.Cancelled) as [[c' ?] ?]. }
  destruct (result (snapshot (state c))) as [r|] eqn:Hr; cbn [is_some fst snd].
  { left. split; [apply quiet_refl|done]. }
  destruct (check_active c env now (state c)) as [[]|e].
  2: { pose proof (select_failure_transition c now e TaskEndCause.Expired Hi) as Hf.
       by destruct (select_failure c now e TaskEndCause.Expired) as [[c' ?] ?]. }
  destruct (finish_locked _ _ _ _ _ _) as [s' p'] eqn:Hf. cbn [fst snd]. right.
  eapply finish_selected; [done|done| | | |exact Hf]; simpl; try done.
  unfold rank. destruct (delivery (snapshot (state c))); simpl; lia.
Qed.

Lemma control_step_transition c env now op :
  control_inv c -> transition c (control_step c env now op).1 (control_step c env now op).2.
Proof.
  intros Hi. destruct (selects op) eqn:Hs.
  - destruct op; try discriminate Hs; cbn [control_step].
    + pose proof (select_written_transition c env now Hi) as H.
      by destruct (select_written c env now) as [[? ?] ?].
    + pose proof (select_response_transition c env now Hi) as H.
      by destruct (select_response c env now) as [[? ?] ?].
    + pose proof (select_failure_transition c now e cause Hi) as H.
      by destruct (select_failure c now e cause) as [[? ?] ?].
  - left. split; [by apply quiet_step|]. destruct op; try discriminate Hs; try done. simpl.
    by destruct (retry_policy c).
Qed.

(** ** Whole runs *)

Lemma control_run_inv c ops : control_inv c -> control_inv (control_run c ops).1.
Proof.
  revert c. induction ops as [|[[env now] op] ops IH]; intros c Hi; simpl; [done|].
  pose proof (control_step_inv c env now op Hi) as Hi'.
  destruct (control_step c env now op) as [c' p]. specialize (IH c' Hi').
  by destruct (control_run c' ops).
Qed.

Definition tasks (ps : list OperationPublication) : list (ReservationId * TaskEvent) :=
  omap task ps.

Lemma control_run_finished c ops r :
  control_inv c -> result (snapshot (state c)) = Some r ->
  snapshot (state (control_run c ops).1) = snapshot (state c) /\
  saved_report (state (control_run c ops).1) = saved_report (state c) /\
  tasks (control_run c ops).2 = [].
Proof.
  revert c. induction ops as [|[[env now] op] ops IH]; intros c Hi Hr; simpl; [done|].
  pose proof (control_step_inv c env now op Hi) as Hi'.
  pose proof (control_step_transition c env now op Hi) as Ht.
  destruct (control_step c env now op) as [c' p]. simpl in *.
  destruct Ht as [[(Hres & _ & _ & Hq) Hp]|[Hno _]]; [|congruence].
  destruct Hq as (Hsn & Hsr & _); [by rewrite Hr|].
  destruct (IH c' Hi') as (IH1 & IH2 & IH3); [congruence|].
  destruct (control_run c' ops) as [c'' ps]. simpl in *. unfold tasks. simpl. rewrite Hp.
  split_and!; [congruence..|done].
Qed.

Lemma control_run_rank c ops : control_inv c -> (rank c <= rank (control_run c ops).1)%nat.
Proof.
  revert c. induction ops as [|[[env now] op] ops IH]; intros c Hi; simpl; [done|].
  pose proof (control_step_inv c env now op Hi) as Hi'.
  pose proof (control_step_transition c env now op Hi) as Ht.
  destruct (control_step c env now op) as [c' p]. specialize (IH c' Hi').
  destruct (control_run c' ops). simpl in *.
  assert (rank c <= rank c')%nat by (destruct Ht as [[(_ & ? & _) _]|(_ & ? & _)]; done). lia.
Qed.

(** Calls never replace the policy of the operation. *)
Lemma control_step_policy c env now op :
  retry_policy (control_step c env now op).1 = retry_policy c.
Proof.
  destruct op as [| |conn| |k|t| |e|e d|at_|d|t id token|q|r h| | |e cause]; cbn [control_step];
    unfold prepare, enqueue, mark_writing, begin_write_attempt, start_data_write_gated,
      bind_write_retirement, requeue, raw_retry_begin, raw_retry_decide, set_retry_started,
      bind_request, bind_cancellation, select_written, select_response, select_failure,
      select_failure_locked;
    repeat (case_match; simplify_eq/=); done.
Qed.

Lemma control_run_policy c ops : retry_policy (control_run c ops).1 = retry_policy c.
Proof.
  revert c. induction ops as [|[[env now] op] ops IH]; intros c; simpl; [done|].
  pose proof (control_step_policy c env now op) as Hp.
  destruct (control_step c env now op) as [c' p]. specialize (IH c').
  destruct (control_run c' ops). simpl in *. congruence.
Qed.

(** The events published by a run of an open operation: none while it stays open,
    exactly one, carrying the stored result, when it finishes. *)
Lemma control_run_tasks c ops o :
  control_inv c -> result (snapshot (state c)) = None -> observation (state c) = Some o ->
  match result (snapshot (state (control_run c ops).1)) with
  | None => tasks (control_run c ops).2 = []
  | Some r => exists ev, tasks (control_run c ops).2 = [(reservation o, ev)] /\ ev_result ev = r
  end.
Proof.
  revert c. induction ops as [|[[env now] op] ops IH]; intros c Hi Hr Ho; simpl; [by rewrite Hr|].
  pose proof (control_step_inv c env now op Hi) as Hi'.
  pose proof (control_step_transition c env now op Hi) as Ht.
  destruct (control_step c env now op) as [c' p]. simpl in *.
  destruct Ht as [[(Hres & _ & Hob & _) Hp]|(_ & _ & r & o' & ev & Hr' & Ho' & Ht & Hev & _)].
  - specialize (IH c' Hi' ltac:(congruence) ltac:(congruence)).
    destruct (control_run c' ops) as [c'' ps]. simpl in *. unfold tasks. simpl. by rewrite Hp.
  - destruct (control_run_finished c' ops r Hi' Hr') as (Hsn & _ & Hts).
    destruct (control_run c' ops) as [c'' ps]. simpl in *. unfold tasks in *. simpl.
    rewrite Hsn, Hr', Ht, Hts. exists ev. split; [congruence|done].
Qed.

(** ** Main results *)

(** The options of an operation whose retry policy, if any, has a built schedule. *)
Definition options_wf (options : SendOptions) : Prop :=
  forall p, retry_setting options = RetrySetting.Policy p -> schedule_wf (policy_schedule p).

(** C1.  An operation completes exactly once.  Whatever calls the sender, the
    writer, the response table and cancellation make, and in whatever order: while
    the operation is open no task event is published; when it finishes exactly one
    is, on the reservation taken at admission, carrying the result the snapshot
    shows; and after that no call changes the snapshot or publishes again. *)
Theorem operation_completes_once seed ct wt now cl se id options tr src res ph ops1 ops2 :
  options_wf options -> in_u64 seed ->
  let c0 := new_with_deadline_phase seed ct wt now cl se id options tr src res ph in
  let '(c1, ps1) := control_run c0 ops1 in
  let '(c2, ps2) := control_run c1 ops2 in
  match result (snapshot (state c1)) with
  | None => tasks ps1 = []
  | Some r =>
      (exists ev, tasks ps1 = [(res, ev)] /\ ev_result ev = r) /\
      snapshot (state c2) = snapshot (state c1) /\ tasks ps2 = []
  end.
Proof.
  intros Hp Hs c0. pose proof (new_inv seed ct wt now cl se id options tr src res ph Hp Hs) as Hi.
  fold c0 in Hi. pose proof (control_run_inv c0 ops1 Hi) as Hi1.
  pose proof (control_run_tasks c0 ops1 (mkObservation src res) Hi eq_refl eq_refl) as Ht.
  destruct (control_run c0 ops1) as [c1 ps1]. simpl in Hi1, Ht.
  destruct (result (snapshot (state c1))) as [r|] eqn:Hr; [|by destruct (control_run c1 ops2)].
  destruct (control_run_finished c1 ops2 r Hi1 Hr) as (Hsn & _ & Hts).
  by destruct (control_run c1 ops2).
Qed.

(** C9.  Delivery evidence only grows, across retries and requeues too, and a
    termination reported as "before write" is true: no business data was ever
    handed to the transport. *)
Theorem delivery_evidence_sound seed ct wt now cl se id options tr src res ph ops1 ops2 at_ e cause :
  options_wf options -> in_u64 seed ->
  let c0 := new_with_deadline_phase seed ct wt now cl se id options tr src res ph in
  let c1 := (control_run c0 ops1).1 in
  (evidence_rank (delivery (snapshot (state c1))) <=
   evidence_rank (delivery (snapshot (state (control_run c1 ops2).1))))%nat /\
  ((select_failure c1 at_ e cause).1.2 = TerminationOutcome.TerminatedBeforeWrite ->
   rep_transport_sends (operation_retry_report c1 at_) = 0).
Proof.
  intros Hp Hs c0 c1. pose proof (new_inv seed ct wt now cl se id options tr src res ph Hp Hs) as Hi.
  pose proof (control_run_inv c0 ops1 Hi) as Hi1. fold c1 in Hi1.
  split; [by apply control_run_rank|].
  unfold select_failure, select_failure_locked.
  destruct (result (snapshot (state c1))) as [r|] eqn:Hr; [done|]. cbn [is_some].
  destruct (finish_locked _ _ _ _ _ _) as [s' p']. cbn [fst snd]. intros Ho.
  assert (delivery (snapshot (state c1)) = DeliveryEvidence.NotStarted) as Hd.
  { by destruct (delivery (snapshot (state c1))). }
  destruct (inv_open _ Hi1 Hr) as (_ & _ & Hsr & _). unfold operation_retry_report. rewrite Hsr. simpl.
  destruct (Z.eq_dec (transport_sends (retry (state c1))) 0) as [|Hne]; [done|].
  destruct (inv_retry _ Hi1) as [_ _ [Hlo _] _ _ _].
  destruct (inv_sent _ Hi1); [lia|done].
Qed.

(** C18.  The error of a failed operation names the client, the session and a stage,
    carries the retry report the operation shows, and says DeliveryUnknown whenever
    data may have reached the peer unconfirmed; a success has the evidence it claims. *)
Theorem terminal_result_truthful seed ct wt now cl se id options tr src res ph ops r :
  options_wf options -> in_u64 seed ->
  let c0 := new_with_deadline_phase seed ct wt now cl se id options tr src res ph in
  let c := (control_run c0 ops).1 in
  result (snapshot (state c)) = Some r ->
  phase (snapshot (state c)) = OperationPhase.Finished /\
  match r with
  | Ok TaskSuccess.Written => delivery (snapshot (state c)) = DeliveryEvidence.Written
  | Ok TaskSuccess.ResponseReceived =>
      delivery (snapshot (state c)) = DeliveryEvidence.ResponseConfirmed
  | Err e =>
      client_id (econtext e) = Some (oc_client_id c) /\
      session_id (econtext e) = Some (oc_session_id c) /\ is_Some (stage (econtext e)) /\
      (forall at_, retry_report e = Some (operation_retry_report c at_)) /\
      (delivery (snapshot (state c)) = DeliveryEvidence.Unknown -> kind e = ErrorKind.DeliveryUnknown)
  end.
Proof.
  intros Hp Hs c0 c Hr. pose proof (new_inv seed ct wt now cl se id options tr src res ph Hp Hs) as Hi0.
  pose proof (control_run_inv c0 ops Hi0) as Hi. fold c in Hi.
  destruct (inv_done _ Hi r Hr) as (Hph & _). split; [done|]. destruct r as [[]|e].
  - by apply (inv_ok _ Hi) in Hr as [? _].
  - by apply (inv_ok _ Hi) in Hr.
  - destruct (inv_error _ Hi e Hr) as (Hrep & [rep Hsr] & ? & ? & ? & ?). split_and!; try done.
    intros at_. unfold operation_retry_report. by rewrite Hrep, Hsr.
Qed.

(** The attempts of an operation stay within its budget: at most the
    [max_attempts] of its own retry policy, and a single one when the operation is
    tracked, inherits or disables retries. *)
Theorem write_attempts_bounded seed ct wt now cl se id options tr src res ph ops at_ :
  options_wf options -> in_u64 seed ->
  let c := (control_run (new_with_deadline_phase seed ct wt now cl se id options tr src res ph) ops).1 in
  result (snapshot (state c)) = None ->
  rep_attempts (operation_retry_report c at_) <=
    match retry_setting options with
    | RetrySetting.Policy p => if tr then 1 else max_attempts (policy_schedule p)
    | _ => 1
    end.
Proof.
  intros Hp Hs c Hr. pose proof (new_inv seed ct wt now cl se id options tr src res ph Hp Hs) as Hi0.
  pose proof (control_run_inv _ ops Hi0) as Hi. fold c in Hi.
  destruct (inv_open _ Hi Hr) as (_ & _ & Hsr & _). unfold operation_retry_report. rewrite Hsr. simpl.
  destruct (inv_retry _ Hi) as [_ [_ Ha] _ _ _ _]. rewrite (inv_schedule _ Hi) in Ha.
  assert (retry_policy c = retry_policy (new_with_deadline_phase seed ct wt now cl se id options tr src res ph))
    as Hpol by apply control_run_policy.
  unfold control_schedule in Ha. rewrite Hpol in Ha. simpl in Ha.
  destruct (retry_setting options) as [| |p]; simpl in Ha; [done|done|]. by destruct tr.
Qed.

End Steps.

(** ** Concrete instances *)

Definition sample_env : Env := mkEnv trees_empty ∅.

(** An untracked message that is queued, written and acknowledged locally. *)
Definition sample_message_ops : list (Env * Instant * ControlOp) :=
  map (fun op => (sample_env, 5, op))
    [OpPrepare; OpEnqueue; OpMarkWriting 3; OpStartWrite false; OpSelectWritten;
     OpSelectFailure (NetError_new ErrorKind.Cancelled) TaskEndCause.Cancelled].

Definition sample_source : TaskSource := TaskSource.Message (Message.Text "hello").

Definition sample_control : OperationControl :=
  new_with_deadline_phase 42 1 2 0 10 11 12 SendOptions_default false sample_source 9
    WsTimeoutPhase.Total.

Definition sample_finished : OperationControl :=
  (control_run (clk := linux_clock) (libm := sample_libm) sample_control sample_message_ops).1.

Lemma default_options_wf : options_wf SendOptions_default.
Proof. intros p [=]. Qed.

Lemma operation_completes_once_witness :
  result (snapshot (state sample_finished)) = Some (Ok TaskSuccess.Written) /\
  (let '(c1, ps1) := control_run (clk := linux_clock) (libm := sample_libm) sample_control
                       sample_message_ops in
   let '(c2, ps2) := control_run (clk := linux_clock) (libm := sample_libm) c1 sample_message_ops in
   match result (snapshot (state c1)) with
   | None => tasks ps1 = []
   | Some r => (exists ev, tasks ps1 = [(9%positive, ev)] /\ ev_result ev = r) /\
               snapshot (state c2) = snapshot (state c1) /\ tasks ps2 = []
   end).
Proof.
  split; [vm_compute; reflexivity|].
  exact (operation_completes_once (clk := linux_clock) (libm := sample_libm) 42 1 2 0 10 11 12
    SendOptions_default false sample_source 9 WsTimeoutPhase.Total sample_message_ops
    sample_message_ops default_options_wf seed_in_range).
Defined.

(** Cancelled while it waits in the queue. *)
Definition sample_queued : OperationControl :=
  (control_run (clk := linux_clock) (libm := sample_libm) sample_control
     (take 2 sample_message_ops)).1.

Lemma delivery_evidence_sound_witness :
  (select_failure sample_queued 6 (NetError_new ErrorKind.Cancelled) TaskEndCause.Cancelled).1.2
    = TerminationOutcome.TerminatedBeforeWrite /\
  rep_transport_sends (operation_retry_report sample_queued 6) = 0.
Proof.
  split; [vm_compute; reflexivity|].
  apply (delivery_evidence_sound (clk := linux_clock) (libm := sample_libm) 42 1 2 0 10 11 12
    SendOptions_default false sample_source 9 WsTimeoutPhase.Total (take 2 sample_message_ops) [] 6
    (NetError_new ErrorKind.Cancelled) TaskEndCause.Cancelled default_options_wf seed_in_range).
  vm_compute. reflexivity.
Defined.

(** Cancelled after its data was handed to the transport. *)
Definition sample_uncertain_ops : list (Env * Instant * ControlOp) :=
  map (fun op => (sample_env, 5, op))
    [OpPrepare; OpEnqueue; OpMarkWriting 3; OpStartWrite false;
     OpSelectFailure (NetError_new ErrorKind.Cancelled) TaskEndCause.Cancelled].

Lemma terminal_result_truthful_witness :
  let c := (control_run (clk := linux_clock) (libm := sample_libm) sample_control
              sample_uncertain_ops).1 in
  exists e, result (snapshot (state c)) = Some (Err e) /\ kind e = ErrorKind.DeliveryUnknown /\
    retry_report e = Some (operation_retry_report c 77).
Proof.
  intros c.
  assert (exists e, result (snapshot (state c)) = Some (Err e)) as [e Hr]
    by (eexists; vm_compute; reflexivity).
  assert (delivery (snapshot (state c)) = DeliveryEvidence.Unknown) as Hd
    by (vm_compute; reflexivity).
  pose proof (terminal_result_truthful (clk := linux_clock) (libm := sample_libm) 42 1 2 0 10 11 12
    SendOptions_default false sample_source 9 WsTimeoutPhase.Total sample_uncertain_ops (Err e)
    default_options_wf seed_in_range) as H.
  fold sample_control in H. fold c in H.
  destruct (H Hr) as (_ & _ & _ & _ & Hrep & Hk).
  exists e. split; [exact Hr|]. split; [exact (Hk Hd)|exact (Hrep 77)].
Defined.

Lemma write_attempts_bounded_witness :
  result (snapshot (state sample_queued)) = None /\
  rep_attempts (operation_retry_report sample_queued 6) <= 1.
Proof.
  split; [vm_compute; reflexivity|].
  apply (write_attempts_bounded (clk := linux_clock) (libm := sample_libm) 42 1 2 0 10 11 12
    SendOptions_default false sample_source 9 WsTimeoutPhase.Total (take 2 sample_message_ops) 6
    default_options_wf seed_in_range).
  vm_compute. reflexivity.
Defined.
