(* ===== verification/NativePending.v ===== *)
(** * The table of pending requests
      (src/module/ws_client/native_pending.rs, src/api/ws/request_control.rs,
       incoming.rs, response.rs, routing.rs)

    The table correlates responses with requests.  Its entries share one
    [OperationControl] each with the writer and the handles, so the controls live
    in a store [Controls] and an entry holds a reference into it.  One function
    here is one lock scope of the table: it returns the store, the table and the
    effects that the code runs after it has released the lock.

    A clock reading [now] stands for all readings inside one lock scope.  The
    [Arc<RegistrationTiming>] of a request is written through its entry only and
    is the field [timing] of the entry.  Lock poisoning is not modelled. *)

From S2P Require Import Prelude F64 Backoff RetrySchedule RetryState Errors WsRetry WsOptions Cancellation WsTask IndexedHeap OperationControl.

Abbreviation OpRef := positive (only parsing).
Abbreviation LeaseId := positive (only parsing).
Abbreviation SenderId := positive (only parsing).
Abbreviation Controls := (gmap OpRef OperationControl) (only parsing).

(** ** Incoming messages and responses *)

Module IncomingPayload.
Inductive IncomingPayload :=
| Message (message : Message)
| Ping (bytes : list Byte.byte)
| Pong (bytes : list Byte.byte)
| Close (code : option Z) (reason : string).
End IncomingPayload.
Abbreviation IncomingPayload := IncomingPayload.IncomingPayload.

Record IncomingOrigin := mkIncomingOrigin {
  origin_client : ClientId; origin_session : SessionId; origin_connection : ConnectionId }.

Record IncomingDispatch := mkIncomingDispatch { dispatch_table : TableId; dispatch_id : Z }.

Record IncomingMessage := mkIncomingMessage {
  origin : IncomingOrigin;
  payload : IncomingPayload;
  incoming_at : Z;
  dispatch : option IncomingDispatch;
}.

#[export] Instance IncomingMessage_settable : Settable IncomingMessage :=
  fields! mkIncomingMessage [ origin; payload; incoming_at; dispatch ].

Definition incoming_new (o : IncomingOrigin) (p : IncomingPayload) (received_at : Z) :
    IncomingMessage := mkIncomingMessage o p received_at None.

Definition incoming_message (i : IncomingMessage) : option Message :=
  match payload i with IncomingPayload.Message m => Some m | _ => None end.

Definition bind_dispatch (i : IncomingMessage) (table : TableId) (id : Z) : IncomingMessage :=
  i <| dispatch := Some (mkIncomingDispatch table id) |>.

Definition incoming_connection (i : IncomingMessage) : ConnectionId := origin_connection (origin i).

Record Response := mkResponse {
  resp_request_id : RequestId;
  resp_message : Message;
  resp_received_at : Z;
  resp_connection_id : ConnectionId;
  resp_retry_report : option RetryReport;
}.

Definition from_incoming (id : RequestId) (i : IncomingMessage) : Result Response NetError :=
  match incoming_message i with
  | None => Err (NetError_new ErrorKind.InvalidInput)
  | Some message =>
      Ok {| resp_request_id := id; resp_message := message; resp_received_at := incoming_at i;
            resp_connection_id := incoming_connection i; resp_retry_report := None |}
  end.

Module ResolveOutcome.
Inductive ResolveOutcome := Resolved | StaleOrFinished | ForeignOrigin.
End ResolveOutcome.
Abbreviation ResolveOutcome := ResolveOutcome.ResolveOutcome.

(** ** The table *)

Record RequestRegistration := mkRequestRegistration {
  reg_request_id : RequestId;
  reg_session_id : SessionId;
  registered_at : Instant;
  reg_token : Z;
  reg_table : TableId;
}.

Record PendingEntry := mkPendingEntry {
  request : Request;
  core : OpRef;
  registration : RequestRegistration;
  timing : option Instant;
  entry_connection : option ConnectionId;
  bound_at : option Instant;
  response_timeout : Duration;
  timeout_origin : ResponseTimeoutOrigin;
  entry_absolute : option Instant;
  entry_grace : option Instant;
  grace_used : bool;
  deferred_error : option NetError;
  deferred_cause : option TaskEndCause;
  response_sender : SenderId;
  permit : LeaseId;
  entry_retirement : option (OperationPublication * NetError);
}.

#[export] Instance PendingEntry_settable : Settable PendingEntry :=
  fields! mkPendingEntry [ request; core; registration; timing; entry_connection; bound_at;
    response_timeout; timeout_origin; entry_absolute; entry_grace; grace_used; deferred_error;
    deferred_cause; response_sender; permit; entry_retirement ].

Record DispatchRecord := mkDispatchRecord {
  rec_connection : ConnectionId;
  token_watermark : Z;
  rec_received_at : Instant;
  expires_at : Instant;
}.

Record NativePending := mkNativePending {
  table_id : TableId;
  np_client_id : ClientId;
  np_session_id : SessionId;
  grace : Duration;
  max_dispatches : Z;
  admission_closed : Token;
  entries : gmap string PendingEntry;
  dispatches : gmap Z DispatchRecord;
  next_token : Z;
  next_dispatch : Z;
  active : option ConnectionId;
  closed : bool;
}.

#[export] Instance NativePending_settable : Settable NativePending :=
  fields! mkNativePending [ table_id; np_client_id; np_session_id; grace; max_dispatches;
    admission_closed; entries; dispatches; next_token; next_dispatch; active; closed ].

Record Completion := mkCompletion {
  cmp_entry : PendingEntry;
  cmp_publication : OperationPublication;
  cmp_response : Result Response NetError;
}.

Record DeferredTermination := mkDeferredTermination {
  outcome : option TerminationOutcome;
  def_publication : option OperationPublication;
  def_completion : option Completion;
  def_pending : option TableId;
  def_retired_error : option NetError;
}.

#[export] Instance DeferredTermination_settable : Settable DeferredTermination :=
  fields! mkDeferredTermination [ outcome; def_publication; def_completion; def_pending;
    def_retired_error ].

Definition deferred_default : DeferredTermination := mkDeferredTermination None None None None None.

(** What the code does after it has released the lock of the table, in order. *)
Inductive Effect :=
| EffComplete (c : Completion)
| EffPublish (p : OperationPublication)
| EffCancel (t : Token)
| EffNotify (t : TableId)
| EffDropLease (l : LeaseId).

(** [DeferredTermination::dispatch] *)
Definition deferred_effects (d : DeferredTermination) : list Effect :=
  match def_completion d with Some c => [EffComplete c] | None => [] end
  ++ match def_publication d with Some p => [EffPublish p] | None => [] end
  ++ match def_pending d with Some t => [EffNotify t] | None => [] end.

(** ** Calls on the shared controls *)

Definition core_select_failure (cs : Controls) (now : Instant) (r : OpRef) (error : NetError)
    (cause : TaskEndCause) : Controls * TerminationOutcome * OperationPublication :=
  match cs !! r with
  | Some c =>
      let '(c, o, p) := select_failure c now error cause in (<[r := c]> cs, o, p)
  | None => (cs, TerminationOutcome.AlreadyFinished, publication_default)
  end.

(** [selected_error(&entry.core, fallback)] *)
Definition core_selected_error (cs : Controls) (r : OpRef) (fallback : NetError) : NetError :=
  match cs !! r ≫= selected_error with Some error => error | None => fallback end.

Definition core_set_response_deadline (cs : Controls) (r : OpRef) (d : option Instant) : Controls :=
  alter (fun c => set_response_deadline c d) r cs.

Definition core_select_written (cs : Controls) (env : Env) (now : Instant) (r : OpRef) :
    Controls * bool * OperationPublication :=
  match cs !! r with
  | Some c => let '(c, w, p) := select_written c env now in (<[r := c]> cs, w, p)
  | None => (cs, false, publication_default)
  end.

Definition core_select_response (cs : Controls) (env : Env) (now : Instant) (r : OpRef) :
    Controls * bool * OperationPublication :=
  match cs !! r with
  | Some c => let '(c, w, p) := select_response c env now in (<[r := c]> cs, w, p)
  | None => (cs, false, publication_default)
  end.

Definition core_requeue (cs : Controls) (env : Env) (now : Instant) (r : OpRef) : Controls * bool :=
  match cs !! r with
  | Some c => let '(c, b) := requeue c env now in (<[r := c]> cs, b)
  | None => (cs, false)
  end.

(** ** Deadlines of an entry *)

(** [earlier] of native_pending.rs *)
Definition earlier (left right : option Instant) : option Instant :=
  match left, right with
  | Some l, Some r => Some (Z.min l r)
  | l, r => option_or l r
  end.

Definition response_timed_out : NetError :=
  with_ws_timeout_phase (with_stage (NetError_new ErrorKind.TimedOut) ErrorStage.Response)
    WsTimeoutPhase.Response.

Definition entry_response_deadline (e : PendingEntry) : option Instant :=
  option_or (entry_grace e) (timing e).

Definition entry_budget (cs : Controls) (e : PendingEntry) : option TimeoutBudget :=
  budget_earlier (cs !! core e ≫= absolute_budget)
    ((fun at_ => mkTimeoutBudget at_ WsTimeoutPhase.Response) <$> entry_response_deadline e).

Definition entry_deadline (cs : Controls) (e : PendingEntry) : option Instant :=
  at_ <$> entry_budget cs e.

Definition entry_timeout_error (cs : Controls) (e : PendingEntry) : NetError :=
  let deferred :=
    match deferred_error e with Some error => error | None => response_timed_out end in
  match entry_budget cs e with
  | Some b => if negb (bool_decide (budget_phase b = WsTimeoutPhase.Response))
              then budget_timeout_error b else deferred
  | None => deferred
  end.

Definition entry_expired (cs : Controls) (now : Instant) (e : PendingEntry) : bool :=
  is_some_and (entry_deadline cs e) (fun deadline => deadline <=? now).

Definition matching_entry (p : NativePending) (id : RequestId) (token : Z) : option PendingEntry :=
  match entries p !! id with
  | Some e => if reg_token (registration e) =? token then Some e else None
  | None => None
  end.

Definition set_entry (p : NativePending) (id : RequestId) (e : PendingEntry) : NativePending :=
  p <| entries := <[id := e]> (entries p) |>.

Definition remove_entry (p : NativePending) (id : RequestId) : NativePending :=
  p <| entries := delete id (entries p) |>.

Section Table.
Context {clk : Clock}.

(** [add] of native_pending.rs *)
Definition add_timeout (at_ : Instant) (d : Duration) : Result Instant NetError :=
  ok_or (instant_checked_add at_ d)
    (NetError_config "response_timeout" "exceeds monotonic clock range").

(** A dispatched message the entry may still be answered by. *)
Definition dispatch_eligible (e : PendingEntry) (at_ : Instant) (r : DispatchRecord) : bool :=
  bool_decide (entry_connection e = Some (rec_connection r))
  && is_some_and (bound_at e) (fun bound => bound <=? rec_received_at r)
  && (reg_token (registration e) <=? token_watermark r)
  && (at_ <? expires_at r)
  && is_none_or (timing e) (fun deadline => rec_received_at r <=? deadline).

Definition grace_deadline (e : PendingEntry) (ds : gmap Z DispatchRecord) (at_ : Instant)
    (grace : Duration) (disconnected : bool) : option Instant :=
  if grace_used e || is_some_and (entry_absolute e) (fun deadline => deadline <=? at_) then None
  else
    match iter_max (expires_at <$> filter (dispatch_eligible e at_) ((map_to_list ds).*2)) with
    | None => None
    | Some deadline =>
        let base := if disconnected then at_
                    else match timing e with Some d => d | None => at_ end in
        match instant_checked_add base grace with
        | None => None
        | Some bound =>
            match earlier (Some (Z.min deadline bound)) (entry_absolute e) with
            | Some d => if at_ <? d then Some d else None
            | None => None
            end
        end
    end.

(** The entry waits for the application until [deadline] before [error] is
    selected. *)
Definition grant_grace (e : PendingEntry) (deadline : Instant) (error : NetError)
    (cause : TaskEndCause) : PendingEntry :=
  e <| grace_used := true; entry_grace := Some deadline; deferred_error := Some error;
       deferred_cause := Some cause |>.

(** ** Construction *)

Record RequestLimits := mkRequestLimits { max_pending : Z; manual_response_grace : Duration }.

Definition config_positive (value : Z) (field : string) : Result () NetError :=
  if value =? 0 then Err (NetError_config field "must be greater than zero") else Ok tt.

(** [max_permits] is the bound of the semaphore implementation. *)
Definition config_permits (max_permits : Z) (value : Z) (field : string) : Result () NetError :=
  let? _ := config_positive value field in
  if max_permits <? value
  then Err (NetError_config field "must not exceed Tokio Semaphore::MAX_PERMITS")
  else Ok tt.

Definition limits_validate (max_permits : Z) (now : Instant) (l : RequestLimits) :
    Result () NetError :=
  let? _ := config_permits max_permits (max_pending l) "requests.max_pending" in
  config_deadline now (manual_response_grace l) "requests.manual_response_grace" true.

(** [id] and [admission_closed] are the identities of the new table and token. *)
Definition pending_new (max_permits : Z) (now : Instant) (id : TableId) (admission_closed : Token)
    (client : ClientId) (session : SessionId) (limits : RequestLimits) (max_dispatches : Z) :
    Result NativePending NetError :=
  let? _ := limits_validate max_permits now limits in
  if max_permits <? max_pending limits
  then Err (NetError_config "requests.max_pending" "exceeds semaphore capacity")
  else if max_dispatches =? 0
  then Err (NetError_config "dispatch.incoming.max_items" "must be greater than zero")
  else
    Ok {| table_id := id; np_client_id := client; np_session_id := session;
          grace := manual_response_grace limits; max_dispatches := max_dispatches;
          admission_closed := admission_closed; entries := ∅; dispatches := ∅; next_token := 0;
          next_dispatch := 0; active := None; closed := false |}.

(** ** Registration and writing *)

(** The checks of [register]: the token and the response deadline of the request.
    [reserve] is the answer of the allocator. *)
Definition register_admit (reserve : bool) (now : Instant) (cs : Controls) (p : NativePending)
    (req : Request) (options : RequestOptions) (r : OpRef) :
    Result (Z * option Instant) NetError :=
  let? _ := request_validate now options in
  let? _ := validate_metadata (req_metadata req) in
  let? _ := (if bool_decide (oc_session_id <$> cs !! r = Some (np_session_id p)) then Ok tt
             else Err (NetError_new ErrorKind.Closed)) in
  let? _ := (if closed p then Err (NetError_new ErrorKind.Closed) else Ok tt) in
  let? _ := (if is_some (entries p !! req_id req)
             then Err (NetError_new ErrorKind.DuplicateRequestId) else Ok tt) in
  let? _ := match cs !! r ≫= fun c => result (snapshot (state c)) with
            | Some (Ok _) => Err (NetError_new ErrorKind.Closed)
            | Some (Err error) => Err error
            | None => Ok tt
            end in
  let? _ := (if negb reserve then Err (NetError_new ErrorKind.ResourceExhausted) else Ok tt) in
  let? token := ok_or (checked_add u64_max (next_token p) 1)
                      (NetError_new ErrorKind.ResourceExhausted) in
  let? _ := match budget_earlier (cs !! r ≫= absolute_budget)
                    ((fun at_ => mkTimeoutBudget at_ WsTimeoutPhase.Admission)
                       <$> registration_deadline options) with
            | Some b => if at_ b <=? now then Err (budget_timeout_error b) else Ok tt
            | None => Ok tt
            end in
  let? deadline := match response_timeout_origin options with
                   | ResponseTimeoutOrigin.Registered =>
                       let? d := add_timeout now (req_response_timeout options) in Ok (Some d)
                   | ResponseTimeoutOrigin.Written => Ok None
                   end in
  Ok (token, deadline).

(** [sender] is the fresh response channel.  The slot [lease] belongs to the
    entry, or is dropped with an error. *)
Definition register (reserve : bool) (now : Instant) (env : Env) (cs : Controls)
    (p : NativePending) (req : Request) (options : RequestOptions) (r : OpRef) (lease : LeaseId)
    (sender : SenderId) :
    Controls * NativePending * Result RequestRegistration NetError * list Effect :=
  match register_admit reserve now cs p req options r, cs !! r with
  | Ok (token, deadline), Some c =>
      match bind_request c env now (table_id p) (req_id req) token with
      | (c, Err e) => (<[r := c]> cs, p, Err e, [EffDropLease lease])
      | (c, Ok _) =>
          let reg := {| reg_request_id := req_id req; reg_session_id := np_session_id p;
                        registered_at := now; reg_token := token; reg_table := table_id p |} in
          let e := {| request := req; core := r; registration := reg; timing := deadline;
                      entry_connection := None; bound_at := None;
                      response_timeout := req_response_timeout options;
                      timeout_origin := response_timeout_origin options;
                      entry_absolute := opt_deadline (send options); entry_grace := None;
                      grace_used := false; deferred_error := None; deferred_cause := None;
                      response_sender := sender; permit := lease; entry_retirement := None |} in
          (<[r := set_response_deadline c deadline]> cs,
           (set_entry p (req_id req) e) <| next_token := token |>, Ok reg,
           [EffNotify (table_id p)])
      end
  | Err e, _ => (cs, p, Err e, [EffDropLease lease])
  | Ok _, None => (cs, p, Err (NetError_new ErrorKind.Closed), [EffDropLease lease])
  end.

Definition activate_connection (p : NativePending) (connection_ : ConnectionId) :
    NativePending * Result () NetError :=
  if closed p then (p, Err (NetError_new ErrorKind.Closed))
  else (p <| active := Some connection_ |>, Ok tt).

(** [registration.belongs_to(self)] *)
Definition belongs_to (reg : RequestRegistration) (p : NativePending) : bool :=
  bool_decide (reg_table reg = table_id p).

Definition bind_connection (now : Instant) (p : NativePending) (reg : RequestRegistration)
    (connection_ : ConnectionId) : NativePending * Result bool NetError :=
  if negb (belongs_to reg p) then (p, Err (NetError_new ErrorKind.InvalidInput))
  else if negb (bool_decide (active p = Some connection_))
  then (p, Err (NetError_new ErrorKind.NotConnected))
  else
    match matching_entry p (reg_request_id reg) (reg_token reg) with
    | None => (p, Ok false)
    | Some e =>
        (if negb (bool_decide (entry_connection e = Some connection_))
         then set_entry p (reg_request_id reg)
                (e <| bound_at := Some now; entry_connection := Some connection_ |>)
         else p, Ok true)
    end.

(** The response deadline of a request counted from its write is set once. *)
Definition establish (e : PendingEntry) (written_at : Instant) : Result PendingEntry NetError :=
  match timeout_origin e with
  | ResponseTimeoutOrigin.Written =>
      let? d := add_timeout written_at (response_timeout e) in
      Ok (e <| timing := option_or (timing e) (Some d) |>)
  | ResponseTimeoutOrigin.Registered => Ok e
  end.

Definition mark_written (cs : Controls) (env : Env) (now : Instant) (p : NativePending)
    (reg : RequestRegistration) (written_at : Instant) :
    Controls * NativePending * Result bool NetError * list Effect :=
  let id := reg_request_id reg in
  if negb (belongs_to reg p) then (cs, p, Err (NetError_new ErrorKind.InvalidInput), [])
  else
    match matching_entry p id (reg_token reg) with
    | None => (cs, p, Ok false, [])
    | Some e =>
        match establish e written_at with
        | Err error => (cs, p, Err error, [])
        | Ok e =>
            let e :=
              if entry_expired cs now e then
                match grace_deadline e (dispatches p) now (grace p) false with
                | Some deadline => grant_grace e deadline response_timed_out TaskEndCause.Expired
                | None => e
                end
              else e in
            let p := set_entry p id e in
            let cs := core_set_response_deadline cs (core e) (entry_response_deadline e) in
            let '(cs, written, publication) := core_select_written cs env now (core e) in
            let terminal_error :=
              if negb written then cs !! core e ≫= selected_error else None in
            match terminal_error with
            | Some error =>
                (cs, remove_entry p id, Ok written,
                 [EffComplete (mkCompletion e publication (Err error)); EffNotify (table_id p)])
            | None => (cs, p, Ok written, [EffPublish publication; EffNotify (table_id p)])
            end
        end
    end.

(** Applies a due response timeout before the writer admits a frame. *)
Definition refresh_response_deadline (cs : Controls) (now : Instant) (p : NativePending)
    (id : RequestId) (token : Z) : Controls * NativePending * list Effect :=
  match matching_entry p id token with
  | None => (cs, p, [])
  | Some e =>
      if negb (entry_expired cs now e) then (cs, p, [])
      else
        match grace_deadline e (dispatches p) now (grace p) false with
        | Some deadline =>
            (core_set_response_deadline cs (core e) (Some deadline),
             set_entry p id (grant_grace e deadline response_timed_out TaskEndCause.Expired),
             [EffNotify (table_id p)])
        | None =>
            let error := entry_timeout_error cs e in
            let cause := match deferred_cause e with
                         | Some cause => cause | None => TaskEndCause.Expired end in
            let '(cs, _, publication) := core_select_failure cs now (core e) error cause in
            (cs, remove_entry p id,
             [EffComplete (mkCompletion e publication (Err (core_selected_error cs (core e) error)));
              EffNotify (table_id p)])
        end
  end.

(** The request returns to the queue of the next connection, unless a message
    that may answer it has been handed to the application. *)
Definition pending_requeue (cs : Controls) (env : Env) (now : Instant) (p : NativePending)
    (reg : RequestRegistration) : Controls * NativePending * Result bool NetError :=
  let id := reg_request_id reg in
  if negb (belongs_to reg p) then (cs, p, Err (NetError_new ErrorKind.InvalidInput))
  else
    match matching_entry p id (reg_token reg) with
    | None => (cs, p, Ok false)
    | Some e =>
        if is_some (grace_deadline e (dispatches p) now (grace p) true) then (cs, p, Ok false)
        else if is_some (deferred_error e) then (cs, p, Ok false)
        else
          let '(cs, requeued) := core_requeue cs env now (core e) in
          if negb requeued then (cs, p, Ok false)
          else (cs, set_entry p id (e <| entry_connection := None; bound_at := None |>), Ok true)
    end.

(** ** Termination *)

Definition table_prepare_termination (cs : Controls) (now : Instant) (p : NativePending)
    (id : RequestId) (token : Z) (error : NetError) (cause : TaskEndCause)
    (original : option OpRef) : Controls * NativePending * DeferredTermination :=
  let deferred := deferred_default <| def_retired_error := Some error |> in
  match matching_entry p id token with
  | None =>
      match original with
      | Some original =>
          let '(cs, o, publication) :=
            core_select_failure cs now original (NetError_new ErrorKind.EngineDropped)
              TaskEndCause.Shutdown in
          (cs, p, deferred <| outcome := Some o; def_publication := Some publication |>)
      | None => (cs, p, deferred <| outcome := Some TerminationOutcome.AlreadyFinished |>)
      end
  | Some e =>
      let '(cs, o, publication) := core_select_failure cs now (core e) error cause in
      let response_error := core_selected_error cs (core e) error in
      (cs, remove_entry p id,
       deferred <| outcome := Some o;
                   def_completion := Some (mkCompletion e publication (Err response_error)) |>)
  end.

Definition table_terminate (cs : Controls) (now : Instant) (p : NativePending) (id : RequestId)
    (token : Z) (error : NetError) (cause : TaskEndCause) :
    Controls * NativePending * Result TerminationOutcome NetError * list Effect :=
  let '(cs, p, deferred) := table_prepare_termination cs now p id token error cause None in
  (cs, p, ok_or (outcome deferred) (NetError_new ErrorKind.Internal), deferred_effects deferred).

(** ** Responses *)

Definition matches_origin (p : NativePending) (i : IncomingMessage) : bool :=
  (origin_client (origin i) =? np_client_id p) && (origin_session (origin i) =? np_session_id p).

(** The response wins, or the request has already ended. *)
Definition settle_response (cs : Controls) (env : Env) (now : Instant) (r : OpRef)
    (response : Response) :
    Controls * bool * OperationPublication * Result Response NetError :=
  let '(cs, won, publication) := core_select_response cs env now r in
  (cs, won, publication,
   if won then Ok response
   else Err (core_selected_error cs r (NetError_new ErrorKind.Closed))).

Definition complete_response (cs : Controls) (env : Env) (now : Instant) (p : NativePending)
    (id : RequestId) (i : IncomingMessage) :
    Controls * NativePending * Result bool NetError * list Effect :=
  if negb (matches_origin p i) then (cs, p, Ok false, [])
  else
    match from_incoming id i with
    | Err error => (cs, p, Err error, [])
    | Ok response =>
        if negb (bool_decide (active p = Some (incoming_connection i))) then (cs, p, Ok false, [])
        else
          match entries p !! id with
          | None => (cs, p, Ok false, [])
          | Some e =>
              if negb (bool_decide (entry_connection e = Some (incoming_connection i)))
              then (cs, p, Ok false, [])
              else
                let '(cs, won, publication, res) :=
                  if entry_expired cs now e then
                    let error := entry_timeout_error cs e in
                    let '(cs, _, publication) :=
                      core_select_failure cs now (core e) error TaskEndCause.Expired in
                    (cs, false, publication, Err (core_selected_error cs (core e) error))
                  else settle_response cs env now (core e) response in
                (cs, remove_entry p id, Ok won,
                 [EffComplete (mkCompletion e publication res); EffNotify (table_id p)])
          end
    end.

(** ** Manual dispatch *)

(** When the latest request on the connection stops waiting for the message. *)
Fixpoint dispatch_expiry (received_at : Instant) (grace : Duration) (connection_ : ConnectionId)
    (es : list PendingEntry) (latest : option Instant) : Result (option Instant) NetError :=
  match es with
  | [] => Ok latest
  | e :: es =>
      if negb (bool_decide (entry_connection e = Some connection_))
      then dispatch_expiry received_at grace connection_ es latest
      else
        let? base := match timing e with
                     | Some deadline => Ok deadline
                     | None => add_timeout received_at (response_timeout e)
                     end in
        let? extended := add_timeout base grace in
        let latest :=
          match earlier (Some extended) (entry_absolute e) with
          | Some end_ =>
              if received_at <? end_
              then Some (match latest with Some prior => Z.max prior end_ | None => end_ end)
              else latest
          | None => latest
          end in
        dispatch_expiry received_at grace connection_ es latest
  end.

(** [self.dispatches.retain(|_, record| record.expires_at > at)] *)
Definition retain_dispatches (at_ : Instant) (ds : gmap Z DispatchRecord) : gmap Z DispatchRecord :=
  filter (fun '(_, r) => at_ < expires_at r) ds.

(** Also returns the message, which carries the dispatch from then on. *)
Definition register_dispatch (reserve : bool) (now : Instant) (p : NativePending)
    (i : IncomingMessage) :
    NativePending * IncomingMessage * Result () NetError * list Effect :=
  if is_none (incoming_message i) then (p, i, Ok tt, [])
  else
    match dispatch i with
    | Some identity =>
        (p, i, if bool_decide (dispatch_table identity = table_id p) then Ok tt
               else Err (NetError_new ErrorKind.InvalidInput), [])
    | None =>
        if negb (matches_origin p i) then (p, i, Err (NetError_new ErrorKind.InvalidInput), [])
        else if closed p || negb (bool_decide (active p = Some (incoming_connection i)))
        then (p, i, Err (NetError_new ErrorKind.Closed), [])
        else
          let p := p <| dispatches := retain_dispatches now (dispatches p) |> in
          match dispatch_expiry now (grace p) (incoming_connection i)
                  ((map_to_list (entries p)).*2) None with
          | Err error => (p, i, Err error, [])
          | Ok None => (p, i, Ok tt, [])
          | Ok (Some expires_at) =>
              if max_dispatches p <=? Z.of_nat (size (dispatches p)) then
                (p, i, Err (with_stage (NetError_new ErrorKind.CallbackOverflow)
                              ErrorStage.Dispatch), [])
              else if negb reserve then (p, i, Err (NetError_new ErrorKind.ResourceExhausted), [])
              else
                match checked_add u64_max (next_dispatch p) 1 with
                | None => (p, i, Err (NetError_new ErrorKind.ResourceExhausted), [])
                | Some id =>
                    let record := {| rec_connection := incoming_connection i;
                                     token_watermark := next_token p; rec_received_at := now;
                                     expires_at := expires_at |} in
                    (p <| dispatches := <[id := record]> (dispatches p); next_dispatch := id |>,
                     bind_dispatch i (table_id p) id, Ok tt, [EffNotify (table_id p)])
                end
          end
    end.

(** Whether a dispatched message may still answer the entry although its response
    deadline has passed, and the deadline it then runs under. *)
Definition late_claim (p : NativePending) (e : PendingEntry) (record : DispatchRecord)
    (now : Instant) : option (option Instant) :=
  let eligible := is_some_and (timing e) (fun deadline => rec_received_at record <=? deadline) in
  let response_bound := timing e ≫= fun deadline => instant_checked_add deadline (grace p) in
  let bound := earlier (Some (expires_at record)) response_bound in
  let bounded := earlier bound (entry_absolute e) in
  if negb eligible || grace_used e || is_none_or bounded (fun deadline => deadline <=? now)
  then None else Some bound.

Definition resolve (cs : Controls) (env : Env) (now : Instant) (p : NativePending)
    (reg : RequestRegistration) (i : IncomingMessage) :
    Controls * NativePending * Result ResolveOutcome NetError * list Effect :=
  let refuse o := (cs, p, Ok o, []) in
  if is_none (incoming_message i) then
    (cs, p, Err (NetError_input "incoming" "control frames cannot complete a request"), [])
  else if negb (belongs_to reg p) || negb (matches_origin p i)
  then refuse ResolveOutcome.ForeignOrigin
  else
    match dispatch i with
    | None => refuse ResolveOutcome.ForeignOrigin
    | Some identity =>
        if negb (bool_decide (dispatch_table identity = table_id p))
        then refuse ResolveOutcome.ForeignOrigin
        else
          match from_incoming (reg_request_id reg) i, dispatches p !! dispatch_id identity,
                entries p !! reg_request_id reg with
          | Err error, _, _ => (cs, p, Err error, [])
          | Ok _, None, _ => refuse ResolveOutcome.StaleOrFinished
          | Ok response, Some record, found =>
              if expires_at record <=? now then refuse ResolveOutcome.StaleOrFinished
              else if negb (rec_connection record =? incoming_connection i)
                      || (token_watermark record <? reg_token reg)
              then refuse ResolveOutcome.ForeignOrigin
              else
                match found with
                | None => refuse ResolveOutcome.StaleOrFinished
                | Some e =>
                    if negb (reg_token (registration e) =? reg_token reg)
                    then refuse ResolveOutcome.StaleOrFinished
                    else if negb (bool_decide (entry_connection e = Some (incoming_connection i)))
                    then refuse ResolveOutcome.ForeignOrigin
                    else if is_none_or (bound_at e) (fun bound => rec_received_at record <? bound)
                    then refuse ResolveOutcome.ForeignOrigin
                    else if is_some_and (entry_absolute e) (fun deadline => deadline <=? now)
                    then refuse ResolveOutcome.StaleOrFinished
                    else if negb (bool_decide (active p = entry_connection e))
                            && is_none (deferred_error e)
                    then refuse ResolveOutcome.StaleOrFinished
                    else
                      let claim := if entry_expired cs now e
                                   then late_claim p e record now ≫= fun d => Some (Some d)
                                   else Some None in
                      match claim with
                      | None => refuse ResolveOutcome.StaleOrFinished
                      | Some extension =>
                          let cs := match extension with
                                    | Some d => core_set_response_deadline cs (core e) d
                                    | None => cs
                                    end in
                          let '(cs, won, publication, res) :=
                            settle_response cs env now (core e) response in
                          (cs,
                           (remove_entry p (reg_request_id reg))
                             <| dispatches := delete (dispatch_id identity) (dispatches p) |>,
                           Ok (if won then ResolveOutcome.Resolved
                               else ResolveOutcome.StaleOrFinished),
                           [EffComplete (mkCompletion e publication res);
                            EffNotify (table_id p)])
                      end
                end
          end
    end.

Definition discard_dispatch (p : NativePending) (i : IncomingMessage) :
    NativePending * Result () NetError * list Effect :=
  if negb (matches_origin p i) then (p, Err (NetError_new ErrorKind.InvalidInput), [])
  else
    match dispatch i with
    | None => (p, Ok tt, [])
    | Some identity =>
        if negb (bool_decide (dispatch_table identity = table_id p))
        then (p, Err (NetError_new ErrorKind.InvalidInput), [])
        else if is_some_and (dispatches p !! dispatch_id identity)
                  (fun record => negb (rec_connection record =? incoming_connection i))
        then (p, Err (NetError_new ErrorKind.InvalidInput), [])
        else (p <| dispatches := delete (dispatch_id identity) (dispatches p) |>, Ok tt,
              [EffNotify (table_id p)])
    end.

(** ** Connection loss, expiry and shutdown *)

(** The request ends with [error], or with the error deferred for it. *)
Definition fail_entry (cs : Controls) (now : Instant) (p : NativePending) (id : RequestId)
    (e : PendingEntry) (error : NetError) (cause : TaskEndCause) :
    Controls * NativePending * Completion :=
  let selected := match deferred_error e with Some deferred => deferred | None => error end in
  let cause := match deferred_cause e with Some deferred => deferred | None => cause end in
  let '(cs, _, publication) := core_select_failure cs now (core e) selected cause in
  (cs, remove_entry p id,
   mkCompletion e publication (Err (core_selected_error cs (core e) selected))).

(** One turn of the loop of [fail_connection]. *)
Definition disconnect_entry (cs : Controls) (now : Instant) (p : NativePending) (error : NetError)
    (id : RequestId) : Controls * NativePending * list Completion :=
  match entries p !! id with
  | None => (cs, p, [])
  | Some e =>
      if is_some_and (entry_grace e) (fun deadline => now <? deadline) && is_some (deferred_error e)
      then (cs, p, [])
      else
        match (if negb (grace_used e)
               then grace_deadline e (dispatches p) now (grace p) true else None) with
        | Some deadline =>
            (core_set_response_deadline cs (core e) (Some deadline),
             set_entry p id (grant_grace e deadline error TaskEndCause.Disconnected), [])
        | None =>
            let '(cs, p, completion) := fail_entry cs now p id e error TaskEndCause.Disconnected in
            (cs, p, [completion])
        end
  end.

(** A [for id in ids] loop that collects completions. *)
Fixpoint for_ids (step : Controls -> NativePending -> RequestId ->
                         Controls * NativePending * list Completion)
    (cs : Controls) (p : NativePending) (ids : list string) :
    Controls * NativePending * list Completion :=
  match ids with
  | [] => (cs, p, [])
  | id :: ids =>
      let '(cs, p, done) := step cs p id in
      let '(cs, p, rest) := for_ids step cs p ids in
      (cs, p, done ++ rest)
  end.

Definition select_ids (f : PendingEntry -> bool) (p : NativePending) : list string :=
  (filter (fun '(_, e) => f e) (map_to_list (entries p))).*1.

Definition fail_connection (reserve : bool) (cs : Controls) (now : Instant) (p : NativePending)
    (connection_ : ConnectionId) (error : NetError) :
    Controls * NativePending * Result () NetError * list Effect :=
  let p := if bool_decide (active p = Some connection_) then p <| active := None |> else p in
  let ids := select_ids (fun e => bool_decide (entry_connection e = Some connection_)) p in
  if negb reserve then (cs, p, Err (NetError_new ErrorKind.ResourceExhausted), [])
  else
    let '(cs, p, completions) :=
      for_ids (fun cs p id => disconnect_entry cs now p error id) cs p ids in
    (cs, p, Ok tt, (EffComplete <$> completions) ++ [EffNotify (table_id p)]).

Definition table_close (cs : Controls) (now : Instant) (p : NativePending) (error : NetError)
    (cause : TaskEndCause) : Controls * NativePending * list Effect :=
  let p := p <| closed := true; active := None |> in
  let '(cs, p, completions) :=
    for_ids (fun cs p id =>
               match entries p !! id with
               | None => (cs, p, [])
               | Some e =>
                   let '(cs, p, completion) := fail_entry cs now p id e error cause in
                   (cs, p, [completion])
               end) cs p (select_ids (fun _ => true) p) in
  (cs, p <| dispatches := ∅ |>,
   EffCancel (admission_closed p) :: (EffComplete <$> completions) ++ [EffNotify (table_id p)]).

(** Only requests inside a granted grace survive. *)
Definition retained (now : Instant) (e : PendingEntry) : bool :=
  is_some (deferred_error e)
  && is_some_and (entry_grace e) (fun deadline => now <? deadline)
  && is_none_or (entry_absolute e) (fun deadline => now <? deadline).

Definition close_disconnected (reserve : bool) (cs : Controls) (now : Instant) (p : NativePending)
    (error : NetError) : Controls * NativePending * Result () NetError * list Effect :=
  if negb reserve then (cs, p, Err (NetError_new ErrorKind.ResourceExhausted), [])
  else
    let ids := select_ids (fun e => negb (retained now e)) p in
    let p := p <| closed := true; active := None |> in
    let '(cs, p, completions) :=
      for_ids (fun cs p id =>
                 match entries p !! id with
                 | None => (cs, p, [])
                 | Some e =>
                     let '(cs, p, completion) :=
                       fail_entry cs now p id e error TaskEndCause.Disconnected in
                     (cs, p, [completion])
                 end) cs p ids in
    let p := if bool_decide (entries p = ∅) then p <| dispatches := ∅ |> else p in
    (cs, p, Ok tt,
     EffCancel (admission_closed p) :: (EffComplete <$> completions) ++ [EffNotify (table_id p)]).

Definition iter_min (l : list Z) : option Z :=
  match l with [] => None | x :: l => Some (foldl Z.min x l) end.

Definition next_deadline (cs : Controls) (p : NativePending) :
    NativePending * (bool * option Instant) :=
  if closed p && bool_decide (entries p = ∅) then (p <| dispatches := ∅ |>, (true, None))
  else
    (p, (closed p && bool_decide (entries p = ∅),
         foldl (fun deadline e => earlier deadline (entry_deadline cs e))
               (iter_min (expires_at <$> (map_to_list (dispatches p)).*2))
               ((map_to_list (entries p)).*2))).

(** One turn of the loop of [expire_due]. *)
Definition expire_entry (cs : Controls) (now : Instant) (p : NativePending) (id : RequestId) :
    Controls * NativePending * list Completion :=
  match entries p !! id with
  | None => (cs, p, [])
  | Some e =>
      match (if negb (grace_used e)
             then grace_deadline e (dispatches p) now (grace p) false else None) with
      | Some deadline =>
          (core_set_response_deadline cs (core e) (Some deadline),
           set_entry p id (grant_grace e deadline response_timed_out TaskEndCause.Expired), [])
      | None =>
          let error := entry_timeout_error cs e in
          let cause := match deferred_cause e with
                       | Some cause => cause | None => TaskEndCause.Expired end in
          let '(cs, _, publication) := core_select_failure cs now (core e) error cause in
          (cs, remove_entry p id,
           [mkCompletion e publication (Err (core_selected_error cs (core e) error))])
      end
  end.

Definition expire_due (reserve : bool) (cs : Controls) (now : Instant) (p : NativePending) :
    Controls * NativePending * Result () NetError * list Effect :=
  let p := p <| dispatches := retain_dispatches now (dispatches p) |> in
  let ids := select_ids (entry_expired cs now) p in
  if negb reserve then (cs, p, Err (NetError_new ErrorKind.ResourceExhausted), [])
  else
    let '(cs, p, completions) := for_ids (fun cs p id => expire_entry cs now p id) cs p ids in
    (cs, p, Ok tt, EffComplete <$> completions).

(** [Drop for NativePending]: the deferred errors are not consulted. *)
Definition table_drop (cs : Controls) (now : Instant) (p : NativePending) :
    Controls * NativePending * list Effect :=
  let '(cs, p, completions) :=
    for_ids (fun cs p id =>
               match entries p !! id with
               | None => (cs, p, [])
               | Some e =>
                   let error := NetError_new ErrorKind.EngineDropped in
                   let '(cs, _, publication) :=
                     core_select_failure cs now (core e) error TaskEndCause.Shutdown in
                   (cs, remove_entry p id,
                    [mkCompletion e publication (Err (core_selected_error cs (core e) error))])
               end) cs p (select_ids (fun _ => true) p) in
  (cs, p, EffCancel (admission_closed p) :: EffNotify (table_id p) :: (EffComplete <$> completions)).

(** One turn of the timer task: it ends, or it waits for a change, for the
    shutdown and for the instant given. *)
Inductive TimerNext := TimerEnds | TimerWaits (deadline : option Instant).

Definition timer_turn (reserve : bool) (shutdown : bool) (cs : Controls) (now : Instant)
    (p : NativePending) : Controls * NativePending * TimerNext * list Effect :=
  if shutdown then
    let '(cs, p, effects) :=
      table_close cs now p (NetError_new ErrorKind.Closed) TaskEndCause.Shutdown in
    (cs, p, TimerEnds, effects)
  else
    match expire_due reserve cs now p with
    | (cs, p, Err _, effects) => (cs, p, TimerEnds, effects)
    | (cs, p, Ok _, effects) =>
        let '(p, (finished, deadline)) := next_deadline cs p in
        (cs, p, if finished then TimerEnds else TimerWaits deadline, effects)
    end.

(** [Drop for TimerRetirement], run when the timer task ends or is destroyed. *)
Definition timer_retire (shutdown : bool) (cs : Controls) (now : Instant) (p : NativePending) :
    Controls * NativePending * list Effect :=
  table_close cs now p
    (NetError_new (if shutdown then ErrorKind.Closed else ErrorKind.EngineDropped))
    TaskEndCause.Shutdown.

End Table.

(** ** The operations as steps *)

Inductive TableOp :=
| TRegister (reserve : bool) (req : Request) (options : RequestOptions) (r : OpRef)
    (lease : LeaseId) (sender : SenderId)
| TActivate (connection_ : ConnectionId)
| TBind (reg : RequestRegistration) (connection_ : ConnectionId)
| TMarkWritten (reg : RequestRegistration) (written_at : Instant)
| TRefresh (id : RequestId) (token : Z)
| TRequeue (reg : RequestRegistration)
| TTerminate (id : RequestId) (token : Z) (error : NetError) (cause : TaskEndCause)
    (original : option OpRef)
| TComplete (id : RequestId) (i : IncomingMessage)
| TRegisterDispatch (reserve : bool) (i : IncomingMessage)
| TResolve (reg : RequestRegistration) (i : IncomingMessage)
| TDiscard (i : IncomingMessage)
| TFail (reserve : bool) (connection_ : ConnectionId) (error : NetError)
| TClose (error : NetError) (cause : TaskEndCause)
| TCloseDisconnected (reserve : bool) (error : NetError)
| TTimer (reserve shutdown : bool)
| TDrop
| TCore (r : OpRef) (op : ControlOp).

(** What the caller of [register] entrusts to the table, and the token it gets. *)
Definition Ticket : Type := Z * RequestId * OpRef * SenderId * LeaseId.

Definition ticket (e : PendingEntry) : Ticket :=
  (reg_token (registration e), reg_request_id (registration e), core e, response_sender e, permit e).

Definition tickets (p : NativePending) : list Ticket := ticket <$> (map_to_list (entries p)).*2.

Definition completions (effects : list Effect) : list Completion :=
  omap (fun eff => match eff with EffComplete c => Some c | _ => None end) effects.

Section Steps.
Context {clk : Clock} {libm : Libm}.

(** One call of any thread on the table or on a control, with the effects it
    leaves and the tickets it admits. *)
Definition table_step (cs : Controls) (env : Env) (now : Instant) (p : NativePending)
    (op : TableOp) : Controls * NativePending * list Effect * list Ticket :=
  match op with
  | TRegister reserve req options r lease sender =>
      match register reserve now env cs p req options r lease sender with
      | (cs, p, Ok reg, eff) => (cs, p, eff, [(reg_token reg, reg_request_id reg, r, sender, lease)])
      | (cs, p, Err _, eff) => (cs, p, eff, [])
      end
  | TActivate conn => (cs, (activate_connection p conn).1, [], [])
  | TBind reg conn => (cs, (bind_connection now p reg conn).1, [], [])
  | TMarkWritten reg at_ =>
      let '(cs, p, _, eff) := mark_written cs env now p reg at_ in (cs, p, eff, [])
  | TRefresh id token =>
      let '(cs, p, eff) := refresh_response_deadline cs now p id token in (cs, p, eff, [])
  | TRequeue reg => let '(cs, p, _) := pending_requeue cs env now p reg in (cs, p, [], [])
  | TTerminate id token error cause original =>
      let '(cs, p, d) := table_prepare_termination cs now p id token error cause original in
      (cs, p, deferred_effects d, [])
  | TComplete id i => let '(cs, p, _, eff) := complete_response cs env now p id i in (cs, p, eff, [])
  | TRegisterDispatch reserve i =>
      let '(p, _, _, eff) := register_dispatch reserve now p i in (cs, p, eff, [])
  | TResolve reg i => let '(cs, p, _, eff) := resolve cs env now p reg i in (cs, p, eff, [])
  | TDiscard i => let '(p, _, eff) := discard_dispatch p i in (cs, p, eff, [])
  | TFail reserve conn error =>
      let '(cs, p, _, eff) := fail_connection reserve cs now p conn error in (cs, p, eff, [])
  | TClose error cause => let '(cs, p, eff) := table_close cs now p error cause in (cs, p, eff, [])
  | TCloseDisconnected reserve error =>
      let '(cs, p, _, eff) := close_disconnected reserve cs now p error in (cs, p, eff, [])
  | TTimer reserve shutdown =>
      let '(cs, p, _, eff) := timer_turn reserve shutdown cs now p in (cs, p, eff, [])
  | TDrop => let '(cs, p, eff) := table_drop cs now p in (cs, p, eff, [])
  | TCore r op =>
      (alter (fun c => (control_step c env now op).1) r cs, p, [], [])
  end.

Fixpoint table_run (cs : Controls) (p : NativePending) (ops : list (Env * Instant * TableOp)) :
    Controls * NativePending * list Effect * list Ticket :=
  match ops with
  | [] => (cs, p, [], [])
  | (env, now, op) :: ops =>
      let '(cs, p, eff, adm) := table_step cs env now p op in
      let '(cs, p, effs, adms) := table_run cs p ops in
      (cs, p, eff ++ effs, adm ++ adms)
  end.

End Steps.
