(* ===== verification/PendingTheory.v ===== *)
(** * Theorems about the table of pending requests

    Every admitted request is settled once, what it is told agrees with the
    terminal result of its operation, stale registrations are inert, and the
    grace for manual responses is granted once and within the deadlines. *)

From S2P Require Import Prelude F64 Backoff RetrySchedule RetryState Errors WsRetry WsOptions Cancellation WsTask IndexedHeap OperationControl NativePending.

Section Theory.
Context {clk : Clock} {libm : Libm}.

(** ** Elementary changes

    Every call is a sequence of the changes below; an invariant is proved for the
    changes once and holds for all calls. *)

(** The calls on a control that threads other than the table make; binding a
    request and selecting its response are the table's. *)
Definition shared_call (op : ControlOp) : bool :=
  match op with OpSelectResponse | OpBindRequest _ _ _ => false | _ => true end.

Definition legal (op : TableOp) : bool :=
  match op with TCore _ op => shared_call op | _ => true end.

(** Changes of the fields beside the entries. *)
Inductive field_change (now : Instant) (p : NativePending) : NativePending -> Prop :=
| field_active a : (a = None \/ closed p = false) -> field_change now p (p <| active := a |>)
| field_close : field_change now p (p <| closed := true; active := None |>)
| field_drop_dispatches ds : ds ⊆ dispatches p -> field_change now p (p <| dispatches := ds |>)
| field_add_dispatch conn expires :
    Z.of_nat (size (dispatches p)) < max_dispatches p -> next_dispatch p + 1 <= u64_max ->
    closed p = false -> active p = Some conn -> now < expires ->
    field_change now p
      (p <| dispatches := <[next_dispatch p + 1 :=
              mkDispatchRecord conn (next_token p) now expires]> (dispatches p);
            next_dispatch := next_dispatch p + 1 |>).

(** Changes of one entry in place. *)
Inductive entry_change (now : Instant) (p : NativePending) (e : PendingEntry) :
    PendingEntry -> Prop :=
| entry_bind conn : entry_change now p e (e <| bound_at := Some now; entry_connection := Some conn |>)
| entry_unbind :
    deferred_error e = None ->
    entry_change now p e (e <| entry_connection := None; bound_at := None |>)
| entry_establish written_at e' : establish e written_at = Ok e' -> entry_change now p e e'
| entry_grant d disconnected error cause :
    grace_deadline e (dispatches p) now (grace p) disconnected = Some d ->
    entry_change now p e (grant_grace e d error cause).

Inductive change (env : Env) (now : Instant) (cs : Controls) (p : NativePending) :
    Controls -> NativePending -> list Completion -> list Ticket -> Prop :=
| change_field p' : field_change now p p' -> change env now cs p cs p' [] []
| change_core r op :
    shared_call op = true ->
    change env now cs p (alter (fun c => (control_step c env now op).1) r cs) p [] []
| change_entry id e e' :
    entries p !! id = Some e -> entry_change now p e e' ->
    change env now cs p cs (set_entry p id e') [] []
| change_fail id e error cause cs' o pub :
    entries p !! id = Some e ->
    core_select_failure cs now (core e) error cause = (cs', o, pub) ->
    change env now cs p cs' (remove_entry p id)
      [mkCompletion e pub (Err (core_selected_error cs' (core e) error))] []
| change_unwritten id e cs' pub error :
    entries p !! id = Some e ->
    core_select_written cs env now (core e) = (cs', false, pub) ->
    cs' !! core e ≫= selected_error = Some error ->
    change env now cs p cs' (remove_entry p id) [mkCompletion e pub (Err error)] []
| change_settle id e response cs' won pub res :
    entries p !! id = Some e -> resp_request_id response = id ->
    settle_response cs env now (core e) response = (cs', won, pub, res) ->
    change env now cs p cs' (remove_entry p id) [mkCompletion e pub res] []
| change_register r c c' req e token :
    cs !! r = Some c -> entries p !! req_id req = None -> closed p = false ->
    next_token p < token <= u64_max ->
    oc_session_id c = np_session_id p ->
    bind_request c env now (table_id p) (req_id req) token = (c', Ok tt) ->
    core e = r -> request e = req -> entry_grace e = None -> grace_used e = false ->
    deferred_error e = None ->
    registration e = mkRequestRegistration (req_id req) (np_session_id p) now token (table_id p) ->
    change env now cs p (<[r := c']> cs) ((set_entry p (req_id req) e) <| next_token := token |>)
      [] [ticket e].

Inductive changes (env : Env) (now : Instant) :
    Controls -> NativePending -> Controls -> NativePending -> list Completion -> list Ticket -> Prop :=
| changes_nil cs p : changes env now cs p cs p [] []
| changes_cons cs1 p1 cs2 p2 cs3 p3 d1 d2 a1 a2 :
    change env now cs1 p1 cs2 p2 d1 a1 -> changes env now cs2 p2 cs3 p3 d2 a2 ->
    changes env now cs1 p1 cs3 p3 (d1 ++ d2) (a1 ++ a2).

Lemma changes_one env now cs p cs' p' d a :
  change env now cs p cs' p' d a -> changes env now cs p cs' p' d a.
Proof.
  intros H. rewrite <- (right_id_L [] (++) d), <- (right_id_L [] (++) a).
  econstructor; [exact H|constructor].
Qed.

Lemma changes_app env now cs1 p1 cs2 p2 cs3 p3 d1 d2 a1 a2 :
  changes env now cs1 p1 cs2 p2 d1 a1 -> changes env now cs2 p2 cs3 p3 d2 a2 ->
  changes env now cs1 p1 cs3 p3 (d1 ++ d2) (a1 ++ a2).
Proof.
  induction 1 as [|? ? ? ? ? ? ? ? ? ? Hc _ IH]; intros H2; [done|].
  rewrite <- !(assoc_L (++)). econstructor; [exact Hc|by apply IH].
Qed.

(** A silent change before others. *)
Lemma changes_step env now cs1 p1 cs2 p2 cs3 p3 d a :
  change env now cs1 p1 cs2 p2 [] [] -> changes env now cs2 p2 cs3 p3 d a ->
  changes env now cs1 p1 cs3 p3 d a.
Proof. intros H1 H2. exact (changes_cons _ _ _ _ _ _ _ _ _ _ _ _ H1 H2). Qed.

Lemma changes_for_ids env now step cs p ids cs' p' done :
  (forall cs p id cs' p' done, step cs p id = (cs', p', done) ->
     changes env now cs p cs' p' done []) ->
  for_ids step cs p ids = (cs', p', done) -> changes env now cs p cs' p' done [].
Proof.
  intros Hstep. revert cs p cs' p' done.
  induction ids as [|id ids IH]; intros cs p cs' p' done; simpl; [intros [= <- <- <-]; constructor|].
  destruct (step cs p id) as [[cs1 p1] d1] eqn:H1.
  destruct (for_ids step cs1 p1 ids) as [[cs2 p2] d2] eqn:H2. intros [= <- <- <-].
  exact (changes_app _ _ _ _ _ _ _ _ _ _ [] [] (Hstep _ _ _ _ _ _ H1) (IH _ _ _ _ _ H2)).
Qed.

Lemma completions_complete done : completions (EffComplete <$> done) = done.
Proof. induction done as [|c done IH]; simpl; [done|]. by f_equal. Qed.

Lemma completions_app l1 l2 : completions (l1 ++ l2) = completions l1 ++ completions l2.
Proof. apply omap_app. Qed.

Lemma completions_notify done t : completions ((EffComplete <$> done) ++ [EffNotify t]) = done.
Proof. rewrite completions_app, completions_complete. apply (right_id_L [] (++)). Qed.

Lemma fail_entry_changes env cs now p id e error cause cs' p' c :
  entries p !! id = Some e -> fail_entry cs now p id e error cause = (cs', p', c) ->
  changes env now cs p cs' p' [c] [].
Proof.
  intros He. unfold fail_entry. destruct (core_select_failure _ _ _ _ _) as [[cs1 o] pub] eqn:Hf.
  intros [= <- <- <-]. apply changes_one. by eapply change_fail.
Qed.

Lemma response_deadline_change env cs now p r d :
  change env now cs p (core_set_response_deadline cs r d) p [] [].
Proof. by apply (change_core env now cs p r (OpSetResponseDeadline d)). Qed.

Lemma matching_entry_Some p id token e :
  matching_entry p id token = Some e <-> entries p !! id = Some e /\ reg_token (registration e) = token.
Proof.
  unfold matching_entry. destruct (entries p !! id) as [e'|]; [|naive_solver].
  destruct (reg_token (registration e') =? token) eqn:E.
  - apply Z.eqb_eq in E. naive_solver.
  - apply Z.eqb_neq in E. naive_solver.
Qed.

(** ** The calls as sequences of changes *)

Lemma register_admit_Ok reserve now cs p req options r token deadline :
  register_admit reserve now cs p req options r = Ok (token, deadline) ->
  exists c, cs !! r = Some c /\ oc_session_id c = np_session_id p /\ closed p = false /\
    entries p !! req_id req = None /\ result (snapshot (state c)) = None /\
    token = next_token p + 1 /\ token <= u64_max.
Proof.
  unfold register_admit. intros H.
  destruct (request_validate now options); [|done]. simpl in H.
  destruct (validate_metadata (req_metadata req)); [|done]. simpl in H.
  case_bool_decide as Hsess; [|done]. simpl in H.
  destruct (cs !! r) as [c|]; [|done]. exists c. simpl in *. injection Hsess as Hsess.
  destruct (closed p); [done|]. simpl in H.
  destruct (entries p !! req_id req); [done|]. simpl in H.
  destruct (result (snapshot (state c))) as [[]|]; [done..|]. simpl in H.
  destruct reserve; [|done]. simpl in H.
  destruct (checked_add u64_max (next_token p) 1) as [t|] eqn:Ht; [|done]. simpl in H.
  apply checked_add_Some in Ht as [-> ?].
  do 2 (match type of H with context [let? _ := ?b in _] => destruct b; [|done]; simpl in H end).
  by simplify_eq.
Qed.

Lemma register_changes reserve now env cs p req options r lease sender cs' p' res eff :
  register reserve now env cs p req options r lease sender = (cs', p', res, eff) ->
  completions eff = [] /\
  changes env now cs p cs' p' []
    match res with
    | Ok reg => [(reg_token reg, reg_request_id reg, r, sender, lease)]
    | Err _ => []
    end.
Proof.
  unfold register.
  destruct (register_admit _ _ _ _ _ _ _) as [[token deadline]|e] eqn:Ha;
    [|intros [= <- <- <- <-]; split; [done|apply changes_nil]].
  destruct (register_admit_Ok _ _ _ _ _ _ _ _ _ Ha) as (c & Hc & Hs & Hcl & He & Hr & Ht & Hm).
  rewrite Hc.
  destruct (bind_request c env now (table_id p) (req_id req) token) as [c' [[]|e]] eqn:Hb;
    intros [= <- <- <- <-]; split; try done.
  - match goal with |- context [<[req_id req := ?e]> (entries p)] =>
      eapply (changes_cons _ _ _ _ _ _ _ _ [] [] [ticket e] []) end.
    + eapply change_register; try done; lia.
    + apply changes_one.
      replace (<[r := set_response_deadline c' deadline]> cs)
        with (core_set_response_deadline (<[r := c']> cs) r deadline); [apply response_deadline_change|].
      unfold core_set_response_deadline.
      rewrite (alter_as_insert _ _ c') by apply lookup_insert_eq. by rewrite insert_insert_eq.
  - assert (c' = c) as -> by (unfold bind_request in Hb; repeat case_match; by simplify_eq).
    rewrite insert_id by done. apply changes_nil.
Qed.

Lemma set_entry_twice p id e1 e2 : set_entry (set_entry p id e1) id e2 = set_entry p id e2.
Proof. unfold set_entry. destruct p; simpl. by rewrite insert_insert_eq. Qed.

Lemma remove_set_entry p id e : remove_entry (set_entry p id e) id = remove_entry p id.
Proof. unfold set_entry, remove_entry. destruct p; simpl. by rewrite delete_insert_eq. Qed.

Lemma core_select_written_change env now cs p r cs' w pub :
  core_select_written cs env now r = (cs', w, pub) -> change env now cs p cs' p [] [].
Proof.
  unfold core_select_written. destruct (cs !! r) as [c|] eqn:Hc.
  - pose proof (change_core env now cs p r OpSelectWritten eq_refl) as Hch.
    rewrite (alter_as_insert _ _ _ _ Hc) in Hch. cbn [control_step] in Hch.
    destruct (select_written c env now) as [[c' w'] p']. by intros [= <- <- <-].
  - intros [= <- <- <-]. pose proof (change_core env now cs p r OpPrepare eq_refl) as Hch.
    replace (alter _ r cs) with cs in Hch; [done|]. apply map_eq. intros j.
    destruct (decide (j = r)) as [->|]; [by rewrite lookup_alter_eq, Hc|by rewrite lookup_alter_ne].
Qed.

Lemma mark_written_changes cs env now p reg at_ cs' p' res eff :
  mark_written cs env now p reg at_ = (cs', p', res, eff) ->
  changes env now cs p cs' p' (completions eff) [].
Proof.
  unfold mark_written. destruct (belongs_to reg p); cbn [negb]; [|intros [= <- <- _ <-]; apply changes_nil].
  destruct (matching_entry p _ _) as [e|] eqn:Hm; [|intros [= <- <- _ <-]; apply changes_nil].
  apply matching_entry_Some in Hm as [He _].
  destruct (establish e at_) as [e1|err] eqn:Hes; [|intros [= <- <- _ <-]; apply changes_nil].
  set (e2 := if entry_expired cs now e1 then _ else e1).
  assert (changes env now cs p cs (set_entry p (reg_request_id reg) e2) [] []) as H1.
  { eapply changes_step; [eapply change_entry; [done|by eapply entry_establish]|].
    subst e2. destruct (entry_expired cs now e1); [|apply changes_nil].
    destruct (grace_deadline e1 (dispatches p) now (grace p) false) as [d|] eqn:Hg; [|apply changes_nil].
    rewrite <- (set_entry_twice p (reg_request_id reg) e1 (grant_grace e1 _ _ _)). apply changes_one.
    eapply change_entry; [apply lookup_insert_eq|by eapply entry_grant]. }
  assert (core e2 = core e) as Hcore.
  { assert (core e1 = core e) as <- by (unfold establish in Hes; repeat case_match; by simplify_eq/=).
    subst e2. by repeat case_match. }
  set (csd := core_set_response_deadline cs (core e2) (entry_response_deadline e2)).
  set (p2 := set_entry p (reg_request_id reg) e2).
  assert (changes env now cs p csd p2 [] []) as H2.
  { eapply (changes_app _ _ _ _ _ _ _ _ [] _ [] []); [exact H1|].
    apply changes_one, response_deadline_change. }
  destruct (core_select_written csd env now (core e2)) as [[csw written] pub] eqn:Hw.
  destruct (if negb written then csw !! core e2 ≫= selected_error else None) as [error|] eqn:Herr;
    intros [= <- <- _ <-]; eapply (changes_app _ _ _ _ _ _ _ _ [] _ [] []); try exact H2.
  - destruct written; [done|]. apply changes_one.
    eapply change_unwritten; [apply lookup_insert_eq|done|done].
  - apply changes_one. by eapply core_select_written_change.
Qed.

Lemma refresh_changes env cs now p id token cs' p' eff :
  refresh_response_deadline cs now p id token = (cs', p', eff) ->
  changes env now cs p cs' p' (completions eff) [].
Proof.
  unfold refresh_response_deadline.
  destruct (matching_entry p _ _) as [e|] eqn:Hm; [|intros [= <- <- <-]; apply changes_nil].
  apply matching_entry_Some in Hm as [He _].
  destruct (entry_expired cs now e); cbn [negb]; [|intros [= <- <- <-]; apply changes_nil].
  destruct (grace_deadline _ _ _ _ _) as [d|] eqn:Hg.
  - intros [= <- <- <-]. eapply changes_step; [apply response_deadline_change|].
    apply changes_one. eapply change_entry; [done|by eapply entry_grant].
  - destruct (core_select_failure _ _ _ _ _) as [[cs1 o] pub] eqn:Hf.
    intros [= <- <- <-]. apply changes_one. by eapply change_fail.
Qed.

Lemma requeue_changes cs env now p reg cs' p' res :
  pending_requeue cs env now p reg = (cs', p', res) -> changes env now cs p cs' p' [] [].
Proof.
  unfold pending_requeue.
  destruct (belongs_to reg p); cbn [negb]; [|intros [= <- <- _]; apply changes_nil].
  destruct (matching_entry p _ _) as [e|] eqn:Hm; [|intros [= <- <- _]; apply changes_nil].
  apply matching_entry_Some in Hm as [He _].
  destruct (is_some _); [intros [= <- <- _]; apply changes_nil|].
  destruct (deferred_error e) eqn:Hd; [intros [= <- <- _]; apply changes_nil|]. cbn [is_some].
  unfold core_requeue. destruct (cs !! core e) as [c|] eqn:Hc.
  - pose proof (change_core env now cs p (core e) OpRequeue eq_refl) as Hch.
    rewrite (alter_as_insert _ _ _ _ Hc) in Hch. cbn [control_step] in Hch.
    destruct (requeue c env now) as [c' b]. destruct b; cbn [negb]; intros [= <- <- _].
    + eapply changes_step; [exact Hch|]. apply changes_one.
      eapply change_entry; [done|by apply entry_unbind].
    + by apply changes_one.
  - cbn [negb]. intros [= <- <- _]; apply changes_nil.
Qed.

Lemma core_select_failure_change env now cs p r error cause cs' o pub :
  core_select_failure cs now r error cause = (cs', o, pub) -> changes env now cs p cs' p [] [].
Proof.
  unfold core_select_failure. destruct (cs !! r) as [c|] eqn:Hc; [|intros [= <- <- <-]; apply changes_nil].
  pose proof (change_core env now cs p r (OpSelectFailure error cause) eq_refl) as Hch.
  rewrite (alter_as_insert _ _ _ _ Hc) in Hch. cbn [control_step] in Hch.
  destruct (select_failure c now error cause) as [[c' o'] p']. intros [= <- <- <-].
  by apply changes_one.
Qed.

Lemma terminate_changes env cs now p id token error cause original cs' p' d :
  table_prepare_termination cs now p id token error cause original = (cs', p', d) ->
  changes env now cs p cs' p' (completions (deferred_effects d)) [].
Proof.
  unfold table_prepare_termination. destruct (matching_entry p id token) as [e|] eqn:Hm.
  - apply matching_entry_Some in Hm as [He _].
    destruct (core_select_failure _ _ _ _ _) as [[cs1 o] pub] eqn:Hf.
    intros [= <- <- <-]. apply changes_one. by eapply change_fail.
  - destruct original as [r|]; [|intros [= <- <- <-]; apply changes_nil].
    destruct (core_select_failure _ _ _ _ _) as [[cs1 o] pub] eqn:Hf.
    intros [= <- <- <-]. by eapply core_select_failure_change.
Qed.

Lemma from_incoming_id id i response :
  from_incoming id i = Ok response -> resp_request_id response = id.
Proof. unfold from_incoming. case_match; [|done]. by intros [= <-]. Qed.

Lemma complete_response_changes cs env now p id i cs' p' res eff :
  complete_response cs env now p id i = (cs', p', res, eff) ->
  changes env now cs p cs' p' (completions eff) [].
Proof.
  unfold complete_response.
  destruct (matches_origin p i); cbn [negb]; [|intros [= <- <- _ <-]; apply changes_nil].
  destruct (from_incoming id i) as [response|] eqn:Hfi; [|intros [= <- <- _ <-]; apply changes_nil].
  destruct (bool_decide (active p = _)); cbn [negb]; [|intros [= <- <- _ <-]; apply changes_nil].
  destruct (entries p !! id) as [e|] eqn:He; [|intros [= <- <- _ <-]; apply changes_nil].
  destruct (bool_decide (entry_connection e = _)); cbn [negb]; [|intros [= <- <- _ <-]; apply changes_nil].
  destruct (entry_expired cs now e).
  - destruct (core_select_failure _ _ _ _ _) as [[cs1 o] pub] eqn:Hf.
    intros [= <- <- _ <-]. apply changes_one. by eapply change_fail.
  - destruct (settle_response cs env now (core e) response) as [[[cs1 won] pub] r] eqn:Hse.
    intros [= <- <- _ <-]. apply changes_one.
    eapply change_settle; [done|by eapply from_incoming_id|done].
Qed.

Lemma retain_dispatches_subseteq at_ ds : retain_dispatches at_ ds ⊆ ds.
Proof. apply map_filter_subseteq. Qed.

Lemma field_dispatches_changes env now cs p ds :
  ds ⊆ dispatches p -> changes env now cs p cs (p <| dispatches := ds |>) [] [].
Proof. intros H. by apply changes_one, change_field, field_drop_dispatches. Qed.

Lemma dispatch_expiry_later at_ g conn es latest expires :
  (forall d, latest = Some d -> at_ < d) ->
  dispatch_expiry at_ g conn es latest = Ok (Some expires) -> at_ < expires.
Proof.
  revert latest. induction es as [|e es IH]; intros latest Hl; simpl.
  { intros [= ->]. by apply Hl. }
  destruct (bool_decide _); cbn [negb]; [|by apply IH].
  match goal with |- context [let? _ := ?b in _] => destruct b; [|done]; simpl end.
  match goal with |- context [let? _ := ?b in _] => destruct b as [ext|]; [|done]; simpl end.
  apply IH. intros d. destruct (entry_absolute e) as [a|]; simpl; case_match eqn:Hd; try apply Hl;
    intros [= <-]; propify; destruct latest as [prior|]; try specialize (Hl prior eq_refl); lia.
Qed.

Lemma register_dispatch_changes reserve env now cs p i p' i' res eff :
  register_dispatch reserve now p i = (p', i', res, eff) ->
  completions eff = [] /\ changes env now cs p cs p' [] [].
Proof.
  unfold register_dispatch.
  destruct (is_none _); [intros [= <- _ _ <-]; split; [done|apply changes_nil]|].
  destruct (dispatch i); [intros [= <- _ _ <-]; split; [done|apply changes_nil]|].
  destruct (matches_origin p i); cbn [negb]; [|intros [= <- _ _ <-]; split; [done|apply changes_nil]].
  destruct (closed p) eqn:Hcl; cbn [orb]; [intros [= <- _ _ <-]; split; [done|apply changes_nil]|].
  case_bool_decide as Hact; cbn [negb]; [|intros [= <- _ _ <-]; split; [done|apply changes_nil]].
  set (p1 := p <| dispatches := retain_dispatches now (dispatches p) |>).
  assert (changes env now cs p cs p1 [] []) as H1
    by apply field_dispatches_changes, retain_dispatches_subseteq.
  destruct (dispatch_expiry _ _ _ _ _) as [[expires|]|] eqn:Hexp;
    [|intros [= <- _ _ <-]; by split..].
  apply dispatch_expiry_later in Hexp; [|done].
  destruct (max_dispatches p1 <=? _) eqn:Hmax; [intros [= <- _ _ <-]; by split|].
  destruct reserve; cbn [negb]; [|intros [= <- _ _ <-]; by split].
  destruct (checked_add u64_max (next_dispatch p1) 1) as [n|] eqn:Hn;
    [|intros [= <- _ _ <-]; by split].
  apply checked_add_Some in Hn as [-> Hn]. intros [= <- _ _ <-]. split; [done|].
  eapply (changes_app _ _ _ _ _ _ _ _ [] [] [] []); [exact H1|].
  apply changes_one, change_field.
  refine (field_add_dispatch now p1 (incoming_connection i) expires _ _ _ _ _); try done.
  propify. lia.
Qed.

Lemma resolve_changes cs env now p reg i cs' p' res eff :
  resolve cs env now p reg i = (cs', p', res, eff) ->
  changes env now cs p cs' p' (completions eff) [].
Proof.
  unfold resolve. intros H.
  destruct (is_none _); [by injection H as <- <- _ <-; apply changes_nil|].
  destruct (_ || _); [by injection H as <- <- _ <-; apply changes_nil|].
  destruct (dispatch i) as [identity|]; [|by injection H as <- <- _ <-; apply changes_nil].
  destruct (negb _); [by injection H as <- <- _ <-; apply changes_nil|].
  destruct (from_incoming _ i) as [response|] eqn:Hfi; [|by injection H as <- <- _ <-; apply changes_nil].
  destruct (dispatches p !! _) as [record|]; [|by injection H as <- <- _ <-; apply changes_nil].
  do 2 (match type of H with context [if ?b then _ else _] =>
          destruct b; [by injection H as <- <- _ <-; apply changes_nil|] end).
  destruct (entries p !! reg_request_id reg) as [e|] eqn:He;
    [|by injection H as <- <- _ <-; apply changes_nil].
  do 5 (match type of H with context [if ?b then _ else _] =>
          destruct b; [by injection H as <- <- _ <-; apply changes_nil|] end).
  destruct (if entry_expired cs now e then _ else _) as [extension|];
    [|by injection H as <- <- _ <-; apply changes_nil].
  destruct (settle_response _ _ _ _ _) as [[[cs1 won] pub] r] eqn:Hse.
  injection H as <- <- _ <-.
  match type of Hse with settle_response ?csx _ _ _ _ = _ =>
    assert (changes env now cs p csx p [] []) as H1 end.
  { destruct extension; [apply changes_one, response_deadline_change|apply changes_nil]. }
  eapply (changes_app _ _ _ _ _ _ _ _ [] _ [] []); [exact H1|].
  eapply (changes_app _ _ _ _ _ _ _ _ [_] [] [] []).
  - apply changes_one. eapply change_settle; [done|by eapply from_incoming_id|done].
  - exact (field_dispatches_changes env now cs1 (remove_entry p (reg_request_id reg)) _
             (delete_subseteq (dispatches p) (dispatch_id identity))).
Qed.

Lemma discard_changes env now cs p i p' res eff :
  discard_dispatch p i = (p', res, eff) ->
  completions eff = [] /\ changes env now cs p cs p' [] [].
Proof.
  unfold discard_dispatch. intros H.
  destruct (negb _); [by injection H as <- _ <-; split; [|apply changes_nil]|].
  destruct (dispatch i) as [identity|]; [|by injection H as <- _ <-; split; [|apply changes_nil]].
  destruct (negb _); [by injection H as <- _ <-; split; [|apply changes_nil]|].
  destruct (is_some_and _ _); [by injection H as <- _ <-; split; [|apply changes_nil]|].
  injection H as <- _ <-. split; [done|].
  exact (field_dispatches_changes env now cs p _ (delete_subseteq (dispatches p) (dispatch_id identity))).
Qed.

Lemma disconnect_entry_changes env now error cs p id cs' p' done :
  disconnect_entry cs now p error id = (cs', p', done) -> changes env now cs p cs' p' done [].
Proof.
  unfold disconnect_entry. destruct (entries p !! id) as [e|] eqn:He; [|intros [= <- <- <-]; apply changes_nil].
  destruct (_ && _); [intros [= <- <- <-]; apply changes_nil|].
  destruct (if negb (grace_used e) then _ else None) as [d|] eqn:Hg.
  - intros [= <- <- <-]. eapply changes_step; [apply response_deadline_change|].
    apply changes_one. eapply change_entry; [done|]. eapply (entry_grant _ _ _ d true).
    by destruct (grace_used e).
  - destruct (fail_entry _ _ _ _ _ _ _) as [[cs1 p1] c] eqn:Hf. intros [= <- <- <-].
    by eapply fail_entry_changes.
Qed.

Lemma expire_entry_changes env now cs p id cs' p' done :
  expire_entry cs now p id = (cs', p', done) -> changes env now cs p cs' p' done [].
Proof.
  unfold expire_entry. destruct (entries p !! id) as [e|] eqn:He; [|intros [= <- <- <-]; apply changes_nil].
  destruct (if negb (grace_used e) then _ else None) as [d|] eqn:Hg.
  - intros [= <- <- <-]. eapply changes_step; [apply response_deadline_change|].
    apply changes_one. eapply change_entry; [done|]. eapply (entry_grant _ _ _ d false).
    by destruct (grace_used e).
  - destruct (core_select_failure _ _ _ _ _) as [[cs1 o] pub] eqn:Hf.
    intros [= <- <- <-]. apply changes_one. by eapply change_fail.
Qed.

Lemma active_none_changes env now cs p (b : bool) :
  changes env now cs p cs (if b then p <| active := None |> else p) [] [].
Proof.
  destruct b; [|apply changes_nil]. apply changes_one, change_field, field_active. by left.
Qed.

Lemma fail_connection_changes reserve env cs now p conn error cs' p' res eff :
  fail_connection reserve cs now p conn error = (cs', p', res, eff) ->
  changes env now cs p cs' p' (completions eff) [].
Proof.
  unfold fail_connection.
  pose proof (active_none_changes env now cs p (bool_decide (active p = Some conn))) as H1.
  set (p1 := if bool_decide _ then _ else p) in *.
  destruct reserve; cbn [negb]; [|by intros [= <- <- _ <-]].
  destruct (for_ids _ cs p1 _) as [[cs2 p2] done] eqn:Hf. intros [= <- <- _ <-].
  rewrite completions_notify.
  eapply (changes_app _ _ _ _ _ _ _ _ [] _ [] []); [exact H1|].
  eapply changes_for_ids; [|exact Hf]. intros ? ? ? ? ? ? Hd.
  exact (disconnect_entry_changes env now error _ _ _ _ _ _ Hd).
Qed.

(** The loops that fail every chosen entry. *)
Lemma fail_all_changes env now error cause cs p ids cs' p' done :
  for_ids (fun cs p id =>
             match entries p !! id with
             | None => (cs, p, [])
             | Some e =>
                 let '(cs, p, completion) := fail_entry cs now p id e error cause in
                 (cs, p, [completion])
             end) cs p ids = (cs', p', done) ->
  changes env now cs p cs' p' done [].
Proof.
  apply changes_for_ids. clear cs p ids cs' p' done. intros cs p id cs' p' done.
  destruct (entries p !! id) as [e|] eqn:He; [|intros [= <- <- <-]; apply changes_nil].
  destruct (fail_entry _ _ _ _ _ _ _) as [[cs1 p1] c] eqn:Hf. intros [= <- <- <-].
  by eapply fail_entry_changes.
Qed.

Lemma close_changes env cs now p error cause cs' p' eff :
  table_close cs now p error cause = (cs', p', eff) ->
  changes env now cs p cs' p' (completions eff) [].
Proof.
  unfold table_close. destruct (for_ids _ cs _ _) as [[cs2 p2] done] eqn:Hf. intros [= <- <- <-].
  match goal with |- context [completions (_ :: ?l)] =>
    change (completions (_ :: l)) with (completions l) end. rewrite completions_notify.
  eapply changes_step; [apply change_field, field_close|].
  rewrite <- (right_id_L [] (++) done).
  eapply (changes_app _ _ _ _ _ _ _ _ done [] [] []); [by eapply fail_all_changes|].
  exact (field_dispatches_changes env now cs2 p2 ∅ (map_empty_subseteq _)).
Qed.

Lemma close_disconnected_changes reserve env cs now p error cs' p' res eff :
  close_disconnected reserve cs now p error = (cs', p', res, eff) ->
  changes env now cs p cs' p' (completions eff) [].
Proof.
  unfold close_disconnected. destruct reserve; cbn [negb]; [|intros [= <- <- _ <-]; apply changes_nil].
  destruct (for_ids _ cs _ _) as [[cs2 p2] done] eqn:Hf. intros [= <- <- _ <-].
  match goal with |- context [completions (_ :: ?l)] =>
    change (completions (_ :: l)) with (completions l) end. rewrite completions_notify.
  eapply changes_step; [apply change_field, field_close|].
  rewrite <- (right_id_L [] (++) done).
  eapply (changes_app _ _ _ _ _ _ _ _ done [] [] []); [by eapply fail_all_changes|].
  case_bool_decide; [|apply changes_nil].
  exact (field_dispatches_changes env now cs2 p2 ∅ (map_empty_subseteq _)).
Qed.

Lemma expire_due_changes reserve env cs now p cs' p' res eff :
  expire_due reserve cs now p = (cs', p', res, eff) ->
  changes env now cs p cs' p' (completions eff) [].
Proof.
  unfold expire_due.
  pose proof (field_dispatches_changes env now cs p _ (retain_dispatches_subseteq now (dispatches p))) as H1.
  set (p1 := p <| dispatches := _ |>) in *.
  destruct reserve; cbn [negb]; [|by intros [= <- <- _ <-]].
  destruct (for_ids _ cs p1 _) as [[cs2 p2] done] eqn:Hf. intros [= <- <- _ <-].
  rewrite completions_complete.
  eapply (changes_app _ _ _ _ _ _ _ _ [] _ [] []); [exact H1|].
  eapply changes_for_ids; [|exact Hf]. intros ? ? ? ? ? ? Hd.
  exact (expire_entry_changes env now _ _ _ _ _ _ Hd).
Qed.

Lemma drop_changes env cs now p cs' p' eff :
  table_drop cs now p = (cs', p', eff) -> changes env now cs p cs' p' (completions eff) [].
Proof.
  unfold table_drop. destruct (for_ids _ cs p _) as [[cs2 p2] done] eqn:Hf. intros [= <- <- <-].
  match goal with |- context [completions (?a :: ?b :: ?l)] =>
    change (completions (a :: b :: l)) with (completions l) end. rewrite completions_complete.
  eapply changes_for_ids; [|exact Hf]. clear. intros cs p id cs' p' done. cbn beta.
  destruct (entries p !! id) as [e|] eqn:He; [|intros [= <- <- <-]; apply changes_nil].
  destruct (core_select_failure _ _ _ _ _) as [[cs1 o] pub] eqn:Hf. intros [= <- <- <-].
  apply changes_one. by eapply change_fail.
Qed.

Lemma timer_changes reserve shutdown env cs now p cs' p' next eff :
  timer_turn reserve shutdown cs now p = (cs', p', next, eff) ->
  changes env now cs p cs' p' (completions eff) [].
Proof.
  unfold timer_turn. destruct shutdown.
  { destruct (table_close _ _ _ _ _) as [[cs1 p1] eff1] eqn:Hc. intros [= <- <- _ <-].
    by eapply close_changes. }
  destruct (expire_due reserve cs now p) as [[[cs1 p1] res] eff1] eqn:He.
  apply (expire_due_changes _ env) in He. destruct res; [|by intros [= <- <- _ <-]].
  destruct (next_deadline cs1 p1) as [p2 [finished d]] eqn:Hn. intros [= <- <- _ <-].
  rewrite <- (right_id_L [] (++) (completions eff1)).
  eapply (changes_app _ _ _ _ _ _ _ _ _ [] [] []); [exact He|].
  unfold next_deadline in Hn. destruct (_ && _); injection Hn as <- _ _; [|apply changes_nil].
  exact (field_dispatches_changes env now cs1 p1 ∅ (map_empty_subseteq _)).
Qed.

(** Every call is a sequence of elementary changes. *)
Lemma table_step_changes cs env now p op cs' p' eff adm :
  legal op = true -> table_step cs env now p op = (cs', p', eff, adm) ->
  changes env now cs p cs' p' (completions eff) adm.
Proof.
  intros Hl. destruct op; cbn [table_step].
  - destruct (register _ _ _ _ _ _ _ _ _ _) as [[[cs1 p1] res] eff1] eqn:Hr.
    apply register_changes in Hr as [Hnil Hr]. destruct res; intros [= <- <- <- <-]; by rewrite Hnil.
  - intros [= <- <- <- <-]. unfold activate_connection. destruct (closed p) eqn:Hc; [apply changes_nil|].
    apply changes_one, change_field, field_active. by right.
  - intros [= <- <- <- <-]. unfold bind_connection.
    destruct (negb _); [apply changes_nil|]. destruct (negb _); [apply changes_nil|].
    destruct (matching_entry _ _ _) as [e|] eqn:Hm; [|apply changes_nil].
    apply matching_entry_Some in Hm as [He _]. destruct (negb _); [|apply changes_nil].
    apply changes_one. eapply change_entry; [done|constructor].
  - destruct (mark_written _ _ _ _ _ _) as [[[cs1 p1] res] eff1] eqn:Hm. intros [= <- <- <- <-].
    by eapply mark_written_changes.
  - destruct (refresh_response_deadline _ _ _ _ _) as [[cs1 p1] eff1] eqn:Hm. intros [= <- <- <- <-].
    by eapply refresh_changes.
  - destruct (pending_requeue _ _ _ _ _) as [[cs1 p1] res] eqn:Hm. intros [= <- <- <- <-].
    by eapply requeue_changes.
  - destruct (table_prepare_termination _ _ _ _ _ _ _ _) as [[cs1 p1] d] eqn:Hm.
    intros [= <- <- <- <-]. by eapply terminate_changes.
  - destruct (complete_response _ _ _ _ _ _) as [[[cs1 p1] res] eff1] eqn:Hm. intros [= <- <- <- <-].
    by eapply complete_response_changes.
  - destruct (register_dispatch _ _ _ _) as [[[p1 i1] res] eff1] eqn:Hm. intros [= <- <- <- <-].
    apply (register_dispatch_changes _ env _ cs) in Hm as [-> Hm]. done.
  - destruct (resolve _ _ _ _ _ _) as [[[cs1 p1] res] eff1] eqn:Hm. intros [= <- <- <- <-].
    by eapply resolve_changes.
  - destruct (discard_dispatch _ _) as [[p1 res] eff1] eqn:Hm. intros [= <- <- <- <-].
    apply (discard_changes env now cs) in Hm as [-> Hm]. done.
  - destruct (fail_connection _ _ _ _ _ _) as [[[cs1 p1] res] eff1] eqn:Hm. intros [= <- <- <- <-].
    by eapply fail_connection_changes.
  - destruct (table_close _ _ _ _ _) as [[cs1 p1] eff1] eqn:Hm. intros [= <- <- <- <-].
    by eapply close_changes.
  - destruct (close_disconnected _ _ _ _ _) as [[[cs1 p1] res] eff1] eqn:Hm. intros [= <- <- <- <-].
    by eapply close_disconnected_changes.
  - destruct (timer_turn _ _ _ _ _) as [[[cs1 p1] res] eff1] eqn:Hm. intros [= <- <- <- <-].
    by eapply timer_changes.
  - destruct (table_drop _ _ _) as [[cs1 p1] eff1] eqn:Hm. intros [= <- <- <- <-].
    by eapply drop_changes.
  - intros [= <- <- <- <-]. by apply changes_one, change_core.
Qed.

(** ** Every admitted request is settled once *)

(** [p] and what was admitted is [p'] and what was completed. *)
Definition conserves (p p' : NativePending) (done : list Completion) (admitted : list Ticket) :=
  tickets p ++ admitted ≡ₚ (ticket ∘ cmp_entry <$> done) ++ tickets p'.

Lemma tickets_entries p p' : entries p = entries p' -> tickets p = tickets p'.
Proof. unfold tickets. by intros ->. Qed.

Lemma conserves_same p p' : entries p = entries p' -> conserves p p' [] [].
Proof. intros H. unfold conserves. by rewrite (tickets_entries _ _ H), (right_id_L [] (++)). Qed.

Lemma tickets_remove p id e :
  entries p !! id = Some e -> tickets p ≡ₚ ticket e :: tickets (remove_entry p id).
Proof.
  intros He. unfold tickets, remove_entry; simpl.
  rewrite <- (insert_delete_id _ _ _ He) at 1.
  by rewrite map_to_list_insert by apply lookup_delete_eq.
Qed.

Lemma tickets_set p id e0 e :
  entries p !! id = Some e0 -> ticket e0 = ticket e -> tickets (set_entry p id e) ≡ₚ tickets p.
Proof.
  intros He Ht. rewrite (tickets_remove _ _ _ He).
  assert (entries (set_entry p id e) !! id = Some e) as He' by (apply lookup_insert_eq).
  rewrite (tickets_remove _ _ _ He'), Ht. f_equiv.
  apply reflexive_eq, tickets_entries. unfold remove_entry, set_entry; simpl.
  by rewrite delete_insert_eq.
Qed.

Lemma tickets_insert p id e :
  entries p !! id = None -> tickets (set_entry p id e) ≡ₚ ticket e :: tickets p.
Proof. intros He. unfold tickets, set_entry; simpl. by rewrite map_to_list_insert. Qed.

Lemma conserves_remove p id e pub res p' :
  entries p !! id = Some e -> entries p' = delete id (entries p) ->
  conserves p p' [mkCompletion e pub res] [].
Proof.
  intros He Hp. unfold conserves. rewrite (tickets_remove _ _ _ He), (right_id_L [] (++)).
  simpl. f_equiv. by apply reflexive_eq, tickets_entries.
Qed.

Lemma conserves_set p id e0 e p' :
  entries p !! id = Some e0 -> ticket e0 = ticket e -> entries p' = <[id := e]> (entries p) ->
  conserves p p' [] [].
Proof.
  intros He Ht Hp. unfold conserves. rewrite (right_id_L [] (++)). simpl.
  rewrite <- (tickets_set p id e0 e He Ht). by apply reflexive_eq, tickets_entries.
Qed.

Lemma conserves_trans p1 p2 p3 d1 d2 a1 a2 :
  conserves p1 p2 d1 a1 -> conserves p2 p3 d2 a2 -> conserves p1 p3 (d1 ++ d2) (a1 ++ a2).
Proof.
  unfold conserves. intros H1 H2.
  rewrite (assoc_L (++)), H1, fmap_app, <- !(assoc_L (++)), H2. done.
Qed.

Lemma change_conserves env now cs p cs' p' d a :
  change env now cs p cs' p' d a -> conserves p p' d a.
Proof.
  destruct 1 as [? Hf|?|? ? ? He Hc|? ? ? ? ? ? ? He|? ? ? ? ? He|? ? ? ? ? ? ? He
                |? ? ? req e token Hc He ? ? ? ? ? ? ? ? ? Hreg].
  - destruct Hf; by apply conserves_same.
  - by apply conserves_same.
  - eapply conserves_set; [done| |done]. destruct Hc as [| |? ? Hes|]; try done.
    unfold establish in Hes. repeat case_match; by simplify_eq/=.
  - by eapply conserves_remove.
  - by eapply conserves_remove.
  - by eapply conserves_remove.
  - unfold conserves.
    etrans; [|apply reflexive_eq; exact (tickets_entries (set_entry p (req_id req) e) _ eq_refl)].
    rewrite (tickets_insert _ _ _ He). apply Permutation_app_comm.
Qed.

Lemma changes_conserves env now cs p cs' p' d a :
  changes env now cs p cs' p' d a -> conserves p p' d a.
Proof.
  induction 1 as [|? ? ? ? ? ? ? ? ? ? Hc _ IH]; [by apply conserves_same|].
  eapply conserves_trans; [by eapply change_conserves|done].
Qed.

Definition ticket_token (t : Ticket) : Z := t.1.1.1.1.

(** Tokens are issued in increasing order. *)
Definition issues (p p' : NativePending) (a : list Ticket) : Prop :=
  next_token p <= next_token p' /\ NoDup (ticket_token <$> a) /\
  Forall (fun t => next_token p < ticket_token t <= next_token p') a.

Lemma issues_trans p1 p2 p3 a1 a2 : issues p1 p2 a1 -> issues p2 p3 a2 -> issues p1 p3 (a1 ++ a2).
Proof.
  intros (Hn1 & Hd1 & Hf1) (Hn2 & Hd2 & Hf2). split; [lia|]. split.
  - rewrite fmap_app. apply NoDup_app. split_and!; [done| |done].
    intros k (t1 & -> & Ht1)%list_elem_of_fmap (t2 & Hk & Ht2)%list_elem_of_fmap.
    rewrite Forall_forall in Hf1, Hf2. specialize (Hf1 _ Ht1). specialize (Hf2 _ Ht2). lia.
  - apply Forall_app. split; eapply Forall_impl; try done; simpl; lia.
Qed.

Lemma change_issues env now cs p cs' p' d a : change env now cs p cs' p' d a -> issues p p' a.
Proof.
  assert (forall q, next_token q = next_token p -> issues p q []) as Hsame.
  { intros q Hq. split_and!; [lia|constructor|constructor]. }
  destruct 1 as [? Hf| | | | | |? ? ? req e token ? ? ? Ht ? ? ? ? ? ? ? Hreg]; try by apply Hsame.
  - destruct Hf; by apply Hsame.
  - unfold issues, ticket_token, ticket. simpl. rewrite Hreg. simpl. split_and!; [lia| |].
    + apply NoDup_singleton.
    + repeat constructor; simpl; lia.
Qed.

Lemma changes_issues env now cs p cs' p' d a : changes env now cs p cs' p' d a -> issues p p' a.
Proof.
  induction 1 as [|? ? ? ? ? ? ? ? ? ? Hc _ IH].
  - split_and!; [lia|constructor|constructor].
  - eapply issues_trans; [by eapply change_issues|done].
Qed.

Definition legal_run (ops : list (Env * Instant * TableOp)) : bool := forallb (legal ∘ snd) ops.

Lemma table_run_settles cs p ops cs' p' effs adms :
  legal_run ops = true -> table_run cs p ops = (cs', p', effs, adms) ->
  conserves p p' (completions effs) adms /\ issues p p' adms.
Proof.
  revert cs p effs adms. induction ops as [|[[env now] op] ops IH]; intros cs p effs adms; simpl.
  { intros _ [= <- <- <- <-]. split; [by apply conserves_same|].
    split_and!; [lia|constructor|constructor]. }
  intros [Hl Hls]%andb_prop.
  destruct (table_step cs env now p op) as [[[cs1 p1] eff] adm] eqn:Hs.
  apply table_step_changes in Hs; [|done].
  destruct (table_run cs1 p1 ops) as [[[cs2 p2] effs2] adms2] eqn:Hr. intros [= <- <- <- <-].
  destruct (IH _ _ _ _ Hls Hr) as [Hc Hi]. rewrite completions_app. split.
  - eapply conserves_trans; [by eapply changes_conserves|done].
  - eapply issues_trans; [by eapply changes_issues|done].
Qed.

(** C3.  Every admitted request is settled exactly once.  Starting from an empty
    table, whatever the callers, the writer, the reader, the timer and shutdown do
    and in whatever order: the requests admitted so far are, each with its own
    response channel, operation and capacity lease, exactly the requests completed
    once plus the requests still pending; no two of them share a token. *)
Theorem requests_settle_once cs p ops :
  entries p = ∅ -> legal_run ops = true ->
  let '(_, p', effs, admitted) := table_run cs p ops in
  admitted ≡ₚ (ticket ∘ cmp_entry <$> completions effs) ++ tickets p' /\
  NoDup (ticket_token <$> admitted).
Proof.
  intros He Hl. destruct (table_run cs p ops) as [[[cs' p'] effs] adms] eqn:Hr.
  destruct (table_run_settles _ _ _ _ _ _ _ Hl Hr) as [Hc (_ & Hd & _)].
  split; [|done]. unfold conserves, tickets at 1 in Hc. by rewrite He, map_to_list_empty in Hc.
Qed.

(** ** What a request is told is its terminal result *)

(** Calls keep the identity of the operation. *)
Definition same_identity (c c' : OperationControl) : Prop :=
  tracked c' = tracked c /\ oc_session_id c' = oc_session_id c /\
  absolute_deadline c' = absolute_deadline c /\
  pending_identity (state c') = pending_identity (state c).

Lemma same_identity_state c s :
  pending_identity s = pending_identity (state c) -> same_identity c (set_state c s).
Proof. by intros H. Qed.

Lemma finish_identity c now s res cause p s' p' :
  finish_locked c now s res cause p = (s', p') ->
  pending_identity s = pending_identity (state c) -> same_identity c (set_state c s').
Proof.
  intros Hf Hs. apply same_identity_state.
  by destruct (finish_locked_spec _ _ _ _ _ _ _ _ Hf) as (_ & _ & _ & _ & _ & _ & _ & _ & -> & _).
Qed.

Lemma select_failure_identity c now e cause : same_identity c (select_failure c now e cause).1.1.
Proof.
  unfold select_failure, select_failure_locked. destruct (is_some _); [done|].
  destruct (finish_locked _ _ _ _ _ _) as [s' p'] eqn:Hf. by eapply finish_identity.
Qed.

Lemma select_response_identity c env now : same_identity c (select_response c env now).1.1.
Proof.
  unfold select_response. destruct (lock_group c env) as [|e].
  2: { pose proof (select_failure_identity c now e TaskEndCause.Cancelled).
       by destruct (select_failure c now e _) as [[? ?] ?]. }
  destruct (is_some _); [done|]. destruct (check_active c env now (state c)) as [|e].
  2: { pose proof (select_failure_identity c now e TaskEndCause.Expired).
       by destruct (select_failure c now e _) as [[? ?] ?]. }
  destruct (finish_locked _ _ _ _ _ _) as [s' p'] eqn:Hf. by eapply finish_identity.
Qed.

Lemma select_written_identity c env now : same_identity c (select_written c env now).1.1.
Proof.
  unfold select_written. destruct (lock_group c env) as [|e].
  2: { pose proof (select_failure_identity c now e TaskEndCause.Cancelled).
       by destruct (select_failure c now e _) as [[? ?] ?]. }
  destruct (is_some _); [done|]. destruct (check_active c env now (state c)) as [|e].
  2: { pose proof (select_failure_identity c now e TaskEndCause.Expired).
       by destruct (select_failure c now e _) as [[? ?] ?]. }
  destruct (tracked c) eqn:Ht; [by apply same_identity_state|].
  destruct (finish_locked _ _ _ _ _ _) as [s' p'] eqn:Hf. by eapply finish_identity.
Qed.

Lemma start_data_write_identity c env now k :
  same_identity c (start_data_write_gated c env now k).1.1.
Proof.
  assert (forall s, pending_identity (mark_in_flight s) = pending_identity s) as Hm.
  { intros s. unfold mark_in_flight. by case_bool_decide. }
  unfold start_data_write_gated. destruct (lock_group c env); [|done].
  destruct (negb (_ || _)); [done|].
  assert (forall s s' a, account_write s = (s', a) -> pending_identity s' = pending_identity s) as Ha.
  { intros s s' a. unfold account_write. repeat case_match; intros; simplify_eq/=; done. }
  destruct (if _ && _ then _ else _) as [s' a] eqn:Hs.
  assert (pending_identity s' = pending_identity (state c)) as Hp.
  { destruct (_ && _); [by eapply Ha|by injection Hs as <- _]. }
  destruct a; cbn [fst]; apply same_identity_state; by rewrite ?Hm.
Qed.

Lemma control_step_identity c env now op :
  shared_call op = true -> same_identity c (control_step c env now op).1.
Proof.
  intros Hs. destruct op as [| |conn| |k|t| |e|e d|at_|d|t id token|q|r h| | |e cause];
    try discriminate Hs; cbn [control_step fst].
  - unfold prepare. by repeat case_match.
  - unfold enqueue. by repeat case_match.
  - unfold mark_writing. by repeat case_match.
  - unfold begin_write_attempt. repeat case_match; simplify_eq/=; by apply same_identity_state.
  - apply start_data_write_identity.
  - by apply same_identity_state.
  - unfold requeue. by repeat case_match.
  - unfold raw_retry_begin. by repeat case_match.
  - destruct (retry_policy c); [|done]. unfold raw_retry_decide.
    repeat case_match; simplify_eq/=; by apply same_identity_state.
  - unfold set_retry_started. by case_match.
  - by apply same_identity_state.
  - by apply same_identity_state.
  - unfold bind_cancellation. repeat case_match; simplify_eq/=; done.
  - pose proof (select_written_identity c env now).
    by destruct (select_written c env now) as [[? ?] ?].
  - pose proof (select_failure_identity c now e cause).
    by destruct (select_failure c now e cause) as [[? ?] ?].
Qed.

Definition terminal (c : OperationControl) : option (Result TaskSuccess NetError) :=
  result (snapshot (state c)).

Definition not_ok (c : OperationControl) : Prop := forall r, terminal c <> Some (Ok r).

Lemma select_failure_result c now e cause :
  not_ok c -> exists e', terminal (select_failure c now e cause).1.1 = Some (Err e').
Proof.
  unfold not_ok, terminal, select_failure, select_failure_locked.
  destruct (result (snapshot (state c))) as [[r|e1]|] eqn:Hr; cbn [is_some].
  - intros H. by destruct (H r).
  - intros _. exists e1. done.
  - intros _. destruct (finish_locked _ _ _ _ _ _) as [s' p'] eqn:Hf.
    destruct (finish_locked_spec _ _ _ _ _ _ _ _ Hf) as (Hr' & _). eexists. exact Hr'.
Qed.

(** The two ways a selection fails. *)
Lemma select_failure_fst c now e cause c' (w : bool) o p :
  not_ok c -> (let '(c, _, p) := select_failure c now e cause in (c, w, p)) = (c', o, p) ->
  o = w /\ exists e', terminal c' = Some (Err e').
Proof.
  intros Hn. pose proof (select_failure_result c now e cause Hn) as Hr.
  destruct (select_failure c now e cause) as [[c1 ?] ?]. by intros [= <- <- <-].
Qed.

Lemma select_response_result c env now c' won p :
  not_ok c -> select_response c env now = (c', won, p) ->
  if won then terminal c' = Some (Ok TaskSuccess.ResponseReceived)
  else exists e, terminal c' = Some (Err e).
Proof.
  intros Hn. unfold select_response. destruct (lock_group c env) as [|e].
  2: { intros H. by apply select_failure_fst in H as [-> ?]. }
  destruct (result (snapshot (state c))) as [[r|e1]|] eqn:Hr; cbn [is_some].
  { by destruct (Hn r). }
  { intros [= <- <- <-]. by exists e1. }
  destruct (check_active c env now (state c)) as [|e].
  2: { intros H. by apply select_failure_fst in H as [-> ?]. }
  destruct (finish_locked _ _ _ _ _ _) as [s' p'] eqn:Hf. intros [= <- <- <-].
  by destruct (finish_locked_spec _ _ _ _ _ _ _ _ Hf) as (Hr' & _).
Qed.

Lemma select_written_not_ok c env now c' w p :
  tracked c = true -> not_ok c -> select_written c env now = (c', w, p) -> not_ok c'.
Proof.
  intros Ht Hn. unfold select_written. destruct (lock_group c env) as [|e].
  2: { intros H r. apply select_failure_fst in H as [_ [e' He]]; [|done]. by rewrite He. }
  destruct (is_some _) eqn:Hr; [by intros [= <- <- <-]|].
  destruct (check_active c env now (state c)) as [|e].
  2: { intros H r. apply select_failure_fst in H as [_ [e' He]]; [|done]. by rewrite He. }
  rewrite Ht. by intros [= <- <- <-].
Qed.

Lemma control_step_not_ok c env now op :
  control_inv c -> tracked c = true -> not_ok c -> shared_call op = true ->
  not_ok (control_step c env now op).1.
Proof.
  intros Hi Ht Hn Hs. destruct (selects op) eqn:Hse.
  - destruct op; try discriminate; cbn [control_step].
    + destruct (select_written c env now) as [[c' w] p] eqn:Hw. by eapply select_written_not_ok.
    + destruct (select_failure_result c now e cause Hn) as [e' He].
      destruct (select_failure c now e cause) as [[c' o] p]. intros r. simpl in *. by rewrite He.
  - destruct (quiet_step c env now op Hi Hse) as [Hr _]. intros r. unfold terminal. rewrite Hr. apply Hn.
Qed.

Lemma control_step_terminal c env now op x :
  control_inv c -> terminal c = Some x -> terminal (control_step c env now op).1 = Some x.
Proof.
  intros Hi Hx. destruct (control_step_transition c env now op Hi) as [[(Hr & _) _]|[Hno _]].
  - unfold terminal. by rewrite Hr.
  - unfold terminal in Hx. congruence.
Qed.

(** The controls a table shares, and its entries.  An entry belongs to a tracked
    operation that is bound to it and has not succeeded. *)
Record entry_inv (cs : Controls) (p : NativePending) (id : RequestId) (e : PendingEntry) : Prop := {
  ei_id : reg_request_id (registration e) = id;
  ei_table : reg_table (registration e) = table_id p;
  ei_token : 0 < reg_token (registration e) <= next_token p;
  ei_core : exists c, cs !! core e = Some c /\ not_ok c /\
    pending_identity (state c) =
      Some (mkPendingIdentity (table_id p) id (reg_token (registration e)));
  ei_grace d : entry_grace e = Some d ->
    grace_used e = true /\ is_Some (deferred_error e) /\
    forall a, entry_absolute e = Some a -> d <= a;
}.

Record table_inv (cs : Controls) (p : NativePending) : Prop := {
  ti_store r c : cs !! r = Some c -> control_inv c /\ tracked c = true;
  ti_next : 0 <= next_token p;
  ti_entries id e : entries p !! id = Some e -> entry_inv cs p id e;
}.

Lemma core_distinct cs p id1 e1 id2 e2 :
  table_inv cs p -> entries p !! id1 = Some e1 -> entries p !! id2 = Some e2 ->
  core e1 = core e2 -> id1 = id2.
Proof.
  intros Hi H1 H2 Heq.
  destruct (ei_core _ _ _ _ (ti_entries _ _ Hi _ _ H1)) as (c1 & Hc1 & _ & Hp1).
  destruct (ei_core _ _ _ _ (ti_entries _ _ Hi _ _ H2)) as (c2 & Hc2 & _ & Hp2).
  rewrite Heq in Hc1. simplify_eq. congruence.
Qed.

Lemma entry_inv_core cs p id e r c :
  entry_inv cs p id e -> (core e = r -> not_ok c /\ forall c0, cs !! r = Some c0 ->
    pending_identity (state c) = pending_identity (state c0)) ->
  entry_inv (<[r := c]> cs) p id e.
Proof.
  intros [? ? ? (c0 & Hc0 & Hn & Hp) ?] Hr. split; try done.
  destruct (decide (core e = r)) as [<-|Hne].
  - destruct (Hr eq_refl) as [Hn' Hp']. exists c. rewrite lookup_insert_eq, (Hp' _ Hc0). done.
  - exists c0. by rewrite lookup_insert_ne.
Qed.

Lemma store_insert (cs : Controls) r c :
  (forall r c, cs !! r = Some c -> control_inv c /\ tracked c = true) ->
  control_inv c -> tracked c = true ->
  forall r' c', <[r := c]> cs !! r' = Some c' -> control_inv c' /\ tracked c' = true.
Proof. intros Hs Hi Ht r' c' [[<- <-]|[_ H]]%lookup_insert_Some; [done|by eapply Hs]. Qed.

Lemma inv_core cs p r c c' :
  table_inv cs p -> cs !! r = Some c -> control_inv c' -> same_identity c c' ->
  (not_ok c -> not_ok c') -> table_inv (<[r := c']> cs) p.
Proof.
  intros [Hs Hn He] Hc Hi (Ht & _ & _ & Hp) Hok. destruct (Hs _ _ Hc) as [_ Ht'].
  split; [by apply store_insert; [| |congruence]|done|].
  intros id e Hid. apply entry_inv_core; [by apply He|]. intros <-.
  destruct (ei_core _ _ _ _ (He _ _ Hid)) as (c0 & Hc0 & Hn0 & _). simplify_eq.
  split; [by apply Hok|]. intros. by simplify_eq.
Qed.

Lemma remove_entry_lookup p id id' e :
  entries (remove_entry p id) !! id' = Some e <-> id <> id' /\ entries p !! id' = Some e.
Proof. apply lookup_delete_Some. Qed.

Lemma set_entry_lookup p id id' e e' :
  entries (set_entry p id e) !! id' = Some e' <->
  (id = id' /\ e = e') \/ (id <> id' /\ entries p !! id' = Some e').
Proof. apply lookup_insert_Some. Qed.

(** The entry leaves the table together with the selection for its operation. *)
Lemma inv_settled cs p id e c c' :
  table_inv cs p -> entries p !! id = Some e -> cs !! core e = Some c ->
  control_inv c' -> same_identity c c' -> table_inv (<[core e := c']> cs) (remove_entry p id).
Proof.
  intros Hinv Hid Hc Hi (Ht & _). pose proof Hinv as [Hs Hn He]. destruct (Hs _ _ Hc) as [_ Ht'].
  split; [by apply store_insert; [| |congruence]|done|].
  intros id' e' [Hne Hid']%remove_entry_lookup. apply entry_inv_core.
  - destruct (He _ _ Hid') as [? ? ? ? ?]. by split.
  - intros Hcore. by destruct (core_distinct _ _ _ _ _ _ Hinv Hid' Hid Hcore).
Qed.

Lemma iter_max_elem l v : iter_max l = Some v -> v ∈ l.
Proof.
  destruct l as [|x l]; simpl; [done|]. intros [= <-].
  revert x. induction l as [|y l IH]; intros x; simpl; [by left|].
  specialize (IH (Z.max x y)). apply elem_of_cons in IH as [IH|IH]; rewrite ?IH; [|by do 2 right].
  destruct (Z.max_spec x y) as [[_ ->]|[_ ->]]; [right; left|left].
Qed.

Lemma grace_deadline_Some e ds at_ g b d :
  grace_deadline e ds at_ g b = Some d ->
  grace_used e = false /\ at_ < d /\ (forall a, entry_absolute e = Some a -> d <= a) /\
  d <= (if b then at_ else match timing e with Some t => t | None => at_ end) + g /\
  exists k r, ds !! k = Some r /\ dispatch_eligible e at_ r = true /\ d <= expires_at r.
Proof.
  unfold grace_deadline. destruct (grace_used e); cbn [orb]; [done|].
  destruct (is_some_and _ _); [done|].
  destruct (iter_max _) as [m|] eqn:Hm; [|done].
  destruct (instant_checked_add _ g) as [bound|] eqn:Hb; [|done].
  apply instant_checked_add_Some in Hb as [-> _].
  assert (exists k r, ds !! k = Some r /\ dispatch_eligible e at_ r = true /\ m = expires_at r)
    as (k & r & Hk & He & Hx).
  { apply iter_max_elem, list_elem_of_fmap in Hm as (r & -> & Hr).
    apply list_elem_of_filter in Hr as [He (kr & -> & Hkr)%list_elem_of_fmap].
    destruct kr as [k r]. apply elem_of_map_to_list in Hkr. exists k, r. split; [done|].
    split; [by apply Is_true_true|done]. }
  destruct (entry_absolute e) as [a|]; simpl; case_match eqn:Hlt; intros [= <-]; propify;
    (split; [done|]; split; [lia|]; split; [intros ? [= <-]; lia||done|];
     split; [lia|]; exists k, r; split_and!; [done|done|lia]).
Qed.

(** What the requester receives against the terminal result of the operation. *)
Definition truthful (cs : Controls) (c : Completion) : Prop :=
  exists ctl, cs !! core (cmp_entry c) = Some ctl /\
  match cmp_response c with
  | Ok response =>
      terminal ctl = Some (Ok TaskSuccess.ResponseReceived) /\
      resp_request_id response = reg_request_id (registration (cmp_entry c))
  | Err error => terminal ctl = Some (Err error)
  end.

Lemma entry_change_inv now cs p id e e' :
  entry_inv cs p id e -> entry_change now p e e' -> entry_inv cs p id e'.
Proof.
  intros [? ? ? ? Hg] Hc. destruct Hc as [conn|Hd|at_ e' Hes|d b error cause Hgr].
  - by split.
  - by split.
  - unfold establish in Hes. destruct (timeout_origin e); [by injection Hes as <-; split|].
    destruct (add_timeout _ _); [|done]. by injection Hes as <-; split.
  - destruct (grace_deadline_Some _ _ _ _ _ _ Hgr) as (_ & _ & Ha & _).
    split; try done. intros d' [= <-]. by split_and!.
Qed.

Lemma core_select_failure_Some cs now r error cause cs' o pub c :
  cs !! r = Some c -> core_select_failure cs now r error cause = (cs', o, pub) ->
  exists c', cs' = <[r := c']> cs /\ select_failure c now error cause = (c', o, pub).
Proof.
  intros Hc. unfold core_select_failure. rewrite Hc.
  destruct (select_failure c now error cause) as [[c' ?] ?]. intros [= <- <- <-]. by exists c'.
Qed.

Lemma settle_response_Some cs env now r response cs' won pub res c :
  cs !! r = Some c -> settle_response cs env now r response = (cs', won, pub, res) ->
  exists c', cs' = <[r := c']> cs /\ select_response c env now = (c', won, pub) /\
    res = (if won then Ok response
           else Err (core_selected_error cs' r (NetError_new ErrorKind.Closed))).
Proof.
  intros Hc. unfold settle_response, core_select_response. rewrite Hc.
  destruct (select_response c env now) as [[c' ?] ?]. intros [= <- <- <- <-]. by exists c'.
Qed.

Lemma core_select_written_Some cs env now r cs' w pub c :
  cs !! r = Some c -> core_select_written cs env now r = (cs', w, pub) ->
  exists c', cs' = <[r := c']> cs /\ select_written c env now = (c', w, pub).
Proof.
  intros Hc. unfold core_select_written. rewrite Hc.
  destruct (select_written c env now) as [[c' ?] ?]. intros [= <- <- <-]. by exists c'.
Qed.

(** The invariant as the specification of one change: it is kept, what is
    completed is told the truth, and terminal results stay. *)
Definition sound (cs : Controls) (cs' : Controls) (p' : NativePending) (d : list Completion) : Prop :=
  table_inv cs' p' /\ Forall (truthful cs') d /\
  forall r c x, cs !! r = Some c -> terminal c = Some x ->
    exists c', cs' !! r = Some c' /\ terminal c' = Some x.

Lemma keeps_insert (cs : Controls) r c c' :
  cs !! r = Some c -> (forall x, terminal c = Some x -> terminal c' = Some x) ->
  forall r1 c1 x, cs !! r1 = Some c1 -> terminal c1 = Some x ->
    exists c2, <[r := c']> cs !! r1 = Some c2 /\ terminal c2 = Some x.
Proof.
  intros Hc Hx r1 c1 x H1 Ht. destruct (decide (r1 = r)) as [->|Hne].
  - exists c'. rewrite lookup_insert_eq. simplify_eq. auto.
  - exists c1. by rewrite lookup_insert_ne.
Qed.

Lemma keeps_same (cs : Controls) r c x :
  cs !! r = Some c -> terminal c = Some x -> exists c', cs !! r = Some c' /\ terminal c' = Some x.
Proof. intros. by exists c. Qed.

Lemma fail_sound cs p id e c c' o pub now error cause :
  table_inv cs p -> entries p !! id = Some e -> cs !! core e = Some c -> not_ok c ->
  select_failure c now error cause = (c', o, pub) ->
  let cs' := <[core e := c']> cs in
  sound cs cs' (remove_entry p id)
    [mkCompletion e pub (Err (core_selected_error cs' (core e) error))].
Proof.
  intros Hinv Hid Hc Hn Hf. cbn zeta. destruct (ti_store _ _ Hinv _ _ Hc) as [Hi _].
  pose proof (select_failure_inv c now error cause Hi) as Hi'.
  pose proof (select_failure_identity c now error cause) as Hsame.
  pose proof (select_failure_result c now error cause Hn) as [e' He'].
  pose proof (control_step_terminal c (mkEnv trees_empty ∅) now (OpSelectFailure error cause)) as Hk.
  cbn [control_step] in Hk. rewrite Hf in *. simpl in *. split_and!.
  - by eapply inv_settled.
  - constructor; [|constructor]. exists c'. unfold truthful, core_selected_error. simpl.
    rewrite lookup_insert_eq. split; [done|]. simpl. unfold selected_error, terminal in *.
    by rewrite He'.
  - eapply keeps_insert; [done|]. auto.
Qed.

Lemma settle_sound env cs p id e c c' won pub now response :
  table_inv cs p -> entries p !! id = Some e -> cs !! core e = Some c -> not_ok c ->
  resp_request_id response = id -> select_response c env now = (c', won, pub) ->
  let cs' := <[core e := c']> cs in
  sound cs cs' (remove_entry p id)
    [mkCompletion e pub (if won then Ok response
       else Err (core_selected_error cs' (core e) (NetError_new ErrorKind.Closed)))].
Proof.
  intros Hinv Hid Hc Hn Hresp Hf. cbn zeta. destruct (ti_store _ _ Hinv _ _ Hc) as [Hi _].
  pose proof (select_response_inv c env now Hi) as Hi'.
  pose proof (select_response_identity c env now) as Hsame.
  pose proof (select_response_result c env now c' won pub Hn Hf) as Hres.
  pose proof (control_step_terminal c env now OpSelectResponse) as Hk.
  cbn [control_step] in Hk. rewrite Hf in *. simpl in *. split_and!.
  - by eapply inv_settled.
  - constructor; [|constructor]. exists c'. unfold core_selected_error. simpl.
    rewrite lookup_insert_eq. split; [done|]. destruct won; simpl.
    + split; [done|]. by rewrite (ei_id _ _ _ _ (ti_entries _ _ Hinv _ _ Hid)).
    + destruct Hres as [e' He']. unfold selected_error, terminal in *. by rewrite He'.
  - eapply keeps_insert; [done|]. auto.
Qed.

Lemma unwritten_sound env cs p id e c c' pub now error :
  table_inv cs p -> entries p !! id = Some e -> cs !! core e = Some c ->
  select_written c env now = (c', false, pub) -> selected_error c' = Some error ->
  sound cs (<[core e := c']> cs) (remove_entry p id) [mkCompletion e pub (Err error)].
Proof.
  intros Hinv Hid Hc Hf Herr. destruct (ti_store _ _ Hinv _ _ Hc) as [Hi _].
  pose proof (select_written_inv c env now Hi) as Hi'.
  pose proof (select_written_identity c env now) as Hsame.
  pose proof (control_step_terminal c env now OpSelectWritten) as Hk.
  cbn [control_step] in Hk. rewrite Hf in *. simpl in *. split_and!.
  - by eapply inv_settled.
  - constructor; [|constructor]. exists c'. simpl. rewrite lookup_insert_eq. split; [done|].
    unfold selected_error, terminal in *. destruct (result _) as [[]|]; by simplify_eq/=.
  - eapply keeps_insert; [done|]. auto.
Qed.

Lemma core_sound env now cs p r op :
  table_inv cs p -> shared_call op = true ->
  sound cs (alter (fun c => (control_step c env now op).1) r cs) p [].
Proof.
  intros Hinv Hs. destruct (cs !! r) as [c|] eqn:Hc.
  - rewrite (alter_as_insert _ _ _ _ Hc). destruct (ti_store _ _ Hinv _ _ Hc) as [Hi Ht]. split_and!.
    + eapply inv_core; [done|done|by apply control_step_inv|by apply control_step_identity|].
      intros. by apply control_step_not_ok.
    + constructor.
    + eapply keeps_insert; [done|]. intros. by apply control_step_terminal.
  - replace (alter _ r cs) with cs.
    { split_and!; [done|constructor|]. apply keeps_same. }
    apply map_eq. intros j. destruct (decide (j = r)) as [->|].
    + by rewrite lookup_alter_eq, Hc.
    + by rewrite lookup_alter_ne.
Qed.

Lemma field_sound now cs p p' : table_inv cs p -> field_change now p p' -> sound cs cs p' [].
Proof.
  intros [Hs Hn He] Hf. split_and!; [|constructor|apply keeps_same].
  destruct Hf; (split; [done|done|]; intros id e Hid; destruct (He id e Hid) as [? ? ? ? ?]; by split).
Qed.

Lemma register_sound env now cs p r c c' req e token :
  table_inv cs p -> cs !! r = Some c -> entries p !! req_id req = None ->
  next_token p < token ->
  bind_request c env now (table_id p) (req_id req) token = (c', Ok tt) ->
  core e = r -> entry_grace e = None ->
  registration e = mkRequestRegistration (req_id req) (np_session_id p) now token (table_id p) ->
  sound cs (<[r := c']> cs) ((set_entry p (req_id req) e) <| next_token := token |>) [].
Proof.
  intros Hinv Hc Hid Ht Hb Hcore Hg Hreg. pose proof Hinv as [Hs Hn He].
  pose proof (Hs _ _ Hc) as [Hi Htr].
  pose proof (control_step_inv c env now (OpBindRequest (table_id p) (req_id req) token) Hi) as Hi'.
  pose proof (fun x => control_step_terminal c env now (OpBindRequest (table_id p) (req_id req) token) x Hi) as Hk.
  simpl in Hi', Hk. rewrite Hb in Hi', Hk. simpl in Hi', Hk.
  unfold bind_request in Hb. destruct (check_active c env now (state c)) eqn:Hact; [|done].
  apply check_active_open in Hact.
  destruct (pending_identity (state c)) eqn:Hpi; [done|]. injection Hb as <-.
  split_and!; [|constructor|by eapply keeps_insert].
  split; [by apply store_insert|simpl; lia|].
  intros id e' [[<- <-]|[Hne Hid']]%set_entry_lookup.
  - split; rewrite ?Hreg; simpl; try done; [lia| |by rewrite Hg].
    rewrite Hcore, lookup_insert_eq. eexists. split_and!; [done| |done].
    unfold not_ok, terminal. simpl. by rewrite Hact.
  - destruct (He _ _ Hid') as [? ? ? (c0 & Hc0 & Hn0 & Hp0) ?]. split; simpl; try done; [lia|].
    exists c0. rewrite lookup_insert_ne; [done|]. intros Heq. rewrite <- Heq in Hc0. congruence.
Qed.

Lemma change_sound env now cs p cs' p' d a :
  table_inv cs p -> change env now cs p cs' p' d a -> sound cs cs' p' d.
Proof.
  intros Hinv Hch. destruct Hch as [? Hf|r op Hs|id e e' Hid Hc|id e error cause cs' o pub Hid Hf
    |id e cs' pub error Hid Hw Herr|id e response cs' won pub res Hid Hr Hf
    |r c c' req e token Hc Hid Hcl Ht Hses Hb Hcore Hreq Hg Hgu Hd Hreg].
  - by eapply field_sound.
  - by apply core_sound.
  - split_and!; [|constructor|apply keeps_same]. pose proof Hinv as [Hs Hn He]. split; [done|done|].
    intros id' e1 [[<- <-]|[_ Hid']]%set_entry_lookup.
    + destruct (entry_change_inv _ _ _ _ _ _ (He _ _ Hid) Hc) as [? ? ? ? ?]. by split.
    + destruct (He _ _ Hid') as [? ? ? ? ?]. by split.
  - destruct (ei_core _ _ _ _ (ti_entries _ _ Hinv _ _ Hid)) as (c & Hc & Hn & _).
    destruct (core_select_failure_Some _ _ _ _ _ _ _ _ _ Hc Hf) as (c' & -> & Hsel).
    by eapply fail_sound.
  - destruct (ei_core _ _ _ _ (ti_entries _ _ Hinv _ _ Hid)) as (c & Hc & Hn & _).
    destruct (core_select_written_Some _ _ _ _ _ _ _ _ Hc Hw) as (c' & -> & Hsel).
    rewrite lookup_insert_eq in Herr. by eapply unwritten_sound.
  - destruct (ei_core _ _ _ _ (ti_entries _ _ Hinv _ _ Hid)) as (c & Hc & Hn & _).
    destruct (settle_response_Some _ _ _ _ _ _ _ _ _ _ Hc Hf) as (c' & -> & Hsel & ->).
    by eapply settle_sound.
  - eapply register_sound; try done. lia.
Qed.

Lemma sound_trans cs1 cs2 p2 d1 cs3 p3 d2 :
  sound cs1 cs2 p2 d1 -> sound cs2 cs3 p3 d2 -> sound cs1 cs3 p3 (d1 ++ d2).
Proof.
  intros (_ & Ht1 & Hk1) (Hi2 & Ht2 & Hk2). split_and!; [done| |].
  - apply Forall_app. split; [|done]. eapply Forall_impl; [exact Ht1|].
    intros c (ctl & Hctl & Hres). unfold truthful.
    destruct (cmp_response c) as [response|error].
    + destruct Hres as [Hres Hid]. destruct (Hk2 _ _ _ Hctl Hres) as (ctl' & ? & ?). by exists ctl'.
    + destruct (Hk2 _ _ _ Hctl Hres) as (ctl' & ? & ?). by exists ctl'.
  - intros r c x Hc Hx. destruct (Hk1 _ _ _ Hc Hx) as (c' & Hc' & Hx'). by eapply Hk2.
Qed.

Lemma changes_sound env now cs p cs' p' d a :
  changes env now cs p cs' p' d a -> table_inv cs p -> sound cs cs' p' d.
Proof.
  induction 1 as [|? ? ? ? ? ? ? ? ? ? Hc _ IH]; intros Hinv.
  - split_and!; [done|constructor|apply keeps_same].
  - pose proof (change_sound _ _ _ _ _ _ _ _ Hinv Hc) as Hs1.
    eapply sound_trans; [exact Hs1|]. apply IH. apply Hs1.
Qed.

Lemma table_run_sound cs p ops cs' p' effs adms :
  legal_run ops = true -> table_run cs p ops = (cs', p', effs, adms) -> table_inv cs p ->
  sound cs cs' p' (completions effs).
Proof.
  revert cs p effs adms. induction ops as [|[[env now] op] ops IH]; intros cs p effs adms; simpl.
  { intros _ [= <- <- <- <-] ?. split_and!; [done|constructor|apply keeps_same]. }
  intros [Hl Hls]%andb_prop.
  destruct (table_step cs env now p op) as [[[cs1 p1] eff] adm] eqn:Hs.
  apply table_step_changes in Hs; [|done].
  destruct (table_run cs1 p1 ops) as [[[cs2 p2] effs2] adms2] eqn:Hr. intros [= <- <- <- <-] Hinv.
  pose proof (changes_sound _ _ _ _ _ _ _ _ Hs Hinv) as Hs1. rewrite completions_app.
  eapply sound_trans; [exact Hs1|]. eapply IH; [done|exact Hr|apply Hs1].
Qed.

(** The controls of the requests: tracked operations as admission creates them. *)
Definition fresh_controls (cs : Controls) : Prop :=
  forall r c, cs !! r = Some c ->
  exists seed ct wt now cl se id options src res ph,
    options_wf options /\ in_u64 seed /\
    c = new_with_deadline_phase seed ct wt now cl se id options true src res ph.

Lemma fresh_inv cs p :
  fresh_controls cs -> entries p = ∅ -> 0 <= next_token p -> table_inv cs p.
Proof.
  intros Hf He Hn. split; [|done|by rewrite He].
  intros r c Hc. destruct (Hf _ _ Hc) as (? & ? & ? & ? & ? & ? & ? & ? & ? & ? & ? & Ho & Hs & ->).
  split; [by apply new_inv|done].
Qed.

(** The requester is told the terminal result of the operation.  A completion
    with a response is sent only when the operation has ended as
    [ResponseReceived], and carries a response for that request; a completion with
    an error carries the very error the operation ended with, which is also what
    its snapshot and its task event show.  It stays so: later calls never change
    the terminal result. *)
Theorem completion_matches_operation cs p ops :
  fresh_controls cs -> entries p = ∅ -> 0 <= next_token p -> legal_run ops = true ->
  let '(cs', _, effs, _) := table_run cs p ops in
  forall c, c ∈ completions effs ->
  exists ctl, cs' !! core (cmp_entry c) = Some ctl /\
  match cmp_response c with
  | Ok response =>
      result (snapshot (state ctl)) = Some (Ok TaskSuccess.ResponseReceived) /\
      resp_request_id response = reg_request_id (registration (cmp_entry c))
  | Err error => result (snapshot (state ctl)) = Some (Err error)
  end.
Proof.
  intros Hf He Hn Hl. destruct (table_run cs p ops) as [[[cs' p'] effs] adms] eqn:Hr.
  destruct (table_run_sound _ _ _ _ _ _ _ Hl Hr (fresh_inv _ _ Hf He Hn)) as (_ & Ht & _).
  rewrite Forall_forall in Ht. exact Ht.
Qed.

(** ** Stale registrations *)

(** A registration that has been settled, or whose request identifier has been
    registered again, is inert: acting on it changes neither the table nor any
    operation, completes nothing and reports that nothing was done. *)
Theorem stale_registration_inert cs env now p reg at_ error cause i conn :
  matching_entry p (reg_request_id reg) (reg_token reg) = None ->
  (mark_written cs env now p reg at_).1.1 = (cs, p) /\
  (mark_written cs env now p reg at_).2 = [] /\
  (pending_requeue cs env now p reg).1 = (cs, p) /\
  refresh_response_deadline cs now p (reg_request_id reg) (reg_token reg) = (cs, p, []) /\
  table_terminate cs now p (reg_request_id reg) (reg_token reg) error cause =
    (cs, p, Ok TerminationOutcome.AlreadyFinished, []) /\
  (resolve cs env now p reg i).1.1 = (cs, p) /\ (resolve cs env now p reg i).2 = [] /\
  (resolve cs env now p reg i).1.2 <> Ok ResolveOutcome.Resolved /\
  (bind_connection now p reg conn).1 = p.
Proof.
  intros Hm.
  assert ((resolve cs env now p reg i).1.1 = (cs, p) /\ (resolve cs env now p reg i).2 = [] /\
          (resolve cs env now p reg i).1.2 <> Ok ResolveOutcome.Resolved) as (Hr1 & Hr2 & Hr3).
  { unfold resolve. unfold matching_entry in Hm.
    repeat (case_match; try done); simplify_eq/=; propify; congruence. }
  unfold mark_written, pending_requeue, refresh_response_deadline, table_terminate,
    table_prepare_termination, bind_connection. rewrite Hm.
  destruct (belongs_to reg p); cbn; split_and!; try done; by repeat case_match.
Qed.

(** ** The grace for manual responses *)

Definition entry_token (e : PendingEntry) : Z := reg_token (registration e).

(** What may happen to the grace of an entry at [now]: nothing, or the first and
    only grant, bounded by the absolute deadline and by the configured grace. *)
Definition grace_step (now : Instant) (g : Duration) (e e' : PendingEntry) : Prop :=
  entry_absolute e' = entry_absolute e /\ (forall t, timing e = Some t -> timing e' = Some t) /\
  ((grace_used e' = grace_used e /\ entry_grace e' = entry_grace e) \/
   (grace_used e = false /\ grace_used e' = true /\
    exists d base, entry_grace e' = Some d /\ now < d /\ d <= base + g /\
      (base = now \/ timing e' = Some base) /\
      forall a, entry_absolute e' = Some a -> d <= a)).

Definition evolves (now : Instant) (p p' : NativePending) : Prop :=
  grace p' = grace p /\ next_token p <= next_token p' /\
  forall id e', entries p' !! id = Some e' -> entry_token e' <= next_token p ->
  exists e, entries p !! id = Some e /\ entry_token e = entry_token e' /\
    grace_step now (grace p) e e'.

Lemma grace_step_refl now g e : grace_step now g e e.
Proof. split_and!; [done|done|]. by left. Qed.

Lemma grace_step_trans now g e1 e2 e3 :
  grace_step now g e1 e2 -> grace_step now g e2 e3 -> grace_step now g e1 e3.
Proof.
  intros (Ha1 & Ht1 & H1) (Ha2 & Ht2 & H2). split; [congruence|]. split; [auto|].
  destruct H1 as [[Hu1 Hg1]|(Hu1 & Hu1' & d & base & Hg1 & Hd & Hb & Hbase & Habs)].
  - destruct H2 as [[Hu2 Hg2]|(Hu2 & Hu2' & Hrest)]; [left; split; congruence|].
    right. split_and!; [congruence|done|exact Hrest].
  - destruct H2 as [[Hu2 Hg2]|(Hu2 & _)]; [|congruence].
    right. split_and!; [done|congruence|]. exists d, base. split_and!; [congruence|done|done| |].
    + destruct Hbase as [->|Hbase]; [by left|right; by apply Ht2].
    + intros a Ha. apply Habs. congruence.
Qed.

Lemma entry_change_grace now p e e' :
  entry_change now p e e' -> entry_token e' = entry_token e /\ grace_step now (grace p) e e'.
Proof.
  destruct 1 as [conn|Hd|at_ e' Hes|d b error cause Hgr].
  - split; [done|]. split_and!; [done|done|by left].
  - split; [done|]. split_and!; [done|done|by left].
  - unfold establish in Hes.
    destruct (timeout_origin e); [injection Hes as <-; split; [done|apply grace_step_refl]|].
    destruct (add_timeout _ _) as [t|]; [|done]. injection Hes as <-. split; [done|].
    split_and!; [done| |by left]. intros t' Ht'. simpl. by rewrite Ht'.
  - destruct (grace_deadline_Some _ _ _ _ _ _ Hgr) as (Hu & Hlt & Ha & Hb & _).
    split; [done|]. split_and!; [done|done|]. right. split_and!; [done|done|].
    eexists d, _. split_and!; [done|done|exact Hb| |exact Ha].
    simpl. destruct b; [by left|]. destruct (timing e); [by right|by left].
Qed.

Lemma change_evolves env now cs p cs' p' d a :
  change env now cs p cs' p' d a -> evolves now p p'.
Proof.
  assert (forall q, grace q = grace p -> next_token q = next_token p -> entries q = entries p ->
    evolves now p q) as Hsame.
  { intros q Hg Hn He. split_and!; [done|lia|]. rewrite He. intros id e Hid _. exists e.
    split_and!; [done|done|apply grace_step_refl]. }
  assert (forall id, evolves now p (remove_entry p id)) as Hrem.
  { intros id. split_and!; [done|simpl; lia|]. intros id' e [_ Hid]%remove_entry_lookup _. exists e.
    split_and!; [done|done|apply grace_step_refl]. }
  destruct 1 as [? Hf|r op Hs|id e e' Hid Hc| | | |r c c' req e token Hc Hid Hcl Ht ? ? ? ? ? ? ? Hreg];
    try apply Hrem; try by apply Hsame.
  - destruct Hf; by apply Hsame.
  - split_and!; [done|simpl; lia|]. intros id' e1 [[<- <-]|[_ Hid']]%set_entry_lookup _.
    + destruct (entry_change_grace _ _ _ _ Hc) as [Htok Hgs]. by exists e.
    + exists e1. split_and!; [done|done|apply grace_step_refl].
  - split_and!; [done|simpl; lia|]. intros id' e1 [[<- <-]|[_ Hid']]%set_entry_lookup Htok.
    + unfold entry_token in Htok. rewrite Hreg in Htok. simpl in Htok. lia.
    + exists e1. split_and!; [done|done|apply grace_step_refl].
Qed.

Lemma changes_evolves env now cs p cs' p' d a :
  changes env now cs p cs' p' d a -> evolves now p p'.
Proof.
  induction 1 as [cs p|? p1 ? p2 ? p3 ? ? ? ? Hc _ (Hg2 & Hn2 & He2)].
  - split_and!; [done|lia|]. intros id e Hid _. exists e. split_and!; [done|done|apply grace_step_refl].
  - destruct (change_evolves _ _ _ _ _ _ _ _ Hc) as (Hg1 & Hn1 & He1).
    split_and!; [congruence|lia|]. intros id e3 Hid Htok.
    destruct (He2 _ _ Hid) as (e2 & Hid2 & Ht2 & Hs2); [lia|].
    destruct (He1 _ _ Hid2) as (e1 & Hid1 & Ht1 & Hs1); [lia|].
    exists e1. split_and!; [done|congruence|]. rewrite Hg1 in Hs2. by eapply grace_step_trans.
Qed.

(** A request gets at most one grace for a manually dispatched response, and
    it cannot outlive the request.  Any call keeps the grace of a request that has
    used it; a grace granted by the call at [now] ends after [now], at most the
    configured grace after [now] or after the response deadline, and never after
    the absolute deadline. *)
Theorem grace_granted_once cs env now p op :
  legal op = true ->
  let '(_, p', _, _) := table_step cs env now p op in
  forall id e', entries p' !! id = Some e' -> entry_token e' <= next_token p ->
  exists e, entries p !! id = Some e /\ entry_token e = entry_token e' /\
  ((grace_used e' = grace_used e /\ entry_grace e' = entry_grace e) \/
   (grace_used e = false /\ grace_used e' = true /\
    exists d base, entry_grace e' = Some d /\ now < d /\ d <= base + grace p /\
      (base = now \/ timing e' = Some base) /\
      forall a, entry_absolute e' = Some a -> d <= a)).
Proof.
  intros Hl. destruct (table_step cs env now p op) as [[[cs' p'] eff] adm] eqn:Hs.
  apply table_step_changes in Hs; [|done]. destruct (changes_evolves _ _ _ _ _ _ _ _ Hs) as (_ & _ & He).
  intros id e' Hid Htok. destruct (He _ _ Hid Htok) as (e & Hid' & Ht & _ & _ & Hg). by exists e.
Qed.

(** ** Shutdown and expiry *)

(** A loop that removes each entry it visits leaves only the entries it skipped. *)
Lemma for_ids_remove step cs p ids cs' p' done :
  (forall cs p id cs' p' done, step cs p id = (cs', p', done) ->
     entries p' = delete id (entries p) /\ closed p' = closed p /\ dispatches p' = dispatches p) ->
  for_ids step cs p ids = (cs', p', done) ->
  closed p' = closed p /\ dispatches p' = dispatches p /\
  forall id e, entries p' !! id = Some e -> (id ∉ ids) /\ entries p !! id = Some e.
Proof.
  intros Hstep. revert cs p cs' p' done. induction ids as [|id ids IH]; intros cs p cs' p' done; simpl.
  { intros [= <- <- <-]. split_and!; [done|done|]. intros id e He. split; [apply not_elem_of_nil|done]. }
  destruct (step cs p id) as [[cs1 p1] d1] eqn:H1. destruct (Hstep _ _ _ _ _ _ H1) as (He1 & Hc1 & Hd1).
  destruct (for_ids step cs1 p1 ids) as [[cs2 p2] d2] eqn:H2. intros [= <- <- <-].
  destruct (IH _ _ _ _ _ H2) as (Hc2 & Hd2 & He2). split_and!; [congruence|congruence|].
  intros id' e Hid. destruct (He2 _ _ Hid) as [Hnot Hid1]. rewrite He1 in Hid1.
  apply lookup_delete_Some in Hid1 as [Hne Hid1]. split; [|done]. by apply not_elem_of_cons.
Qed.

Lemma select_all_ids p id e : entries p !! id = Some e -> id ∈ select_ids (fun _ => true) p.
Proof.
  intros He. unfold select_ids. apply list_elem_of_fmap. exists (id, e). split; [done|].
  apply list_elem_of_filter. split; [done|]. by apply elem_of_map_to_list.
Qed.

Lemma remove_missing p id : entries p !! id = None -> entries p = delete id (entries p).
Proof. intros H. by rewrite delete_id. Qed.

(** Closing the table settles everything: no request and no dispatch is left,
    every pending request is completed exactly once, and every later registration
    is refused. *)
Theorem close_settles_everything cs now p error cause :
  let '(cs', p', eff) := table_close cs now p error cause in
  entries p' = ∅ /\ dispatches p' = ∅ /\
  (ticket ∘ cmp_entry <$> completions eff) ≡ₚ tickets p /\
  forall reserve now' env cs'' req options r lease sender,
    exists e, (register reserve now' env cs'' p' req options r lease sender).1.2 = Err e.
Proof.
  destruct (table_close cs now p error cause) as [[cs' p'] eff] eqn:Hc.
  pose proof (changes_conserves _ _ _ _ _ _ _ _
    (close_changes (mkEnv trees_empty ∅) _ _ _ _ _ _ _ _ Hc)) as Hcons.
  unfold table_close in Hc. destruct (for_ids _ cs _ _) as [[cs2 p2] done] eqn:Hf.
  injection Hc as <- <- <-. apply for_ids_remove in Hf as (Hcl & _ & Hent).
  2: { clear. intros cs p id cs' p' done. cbn beta.
       destruct (entries p !! id) as [e|] eqn:He.
       - unfold fail_entry. destruct (core_select_failure _ _ _ _ _) as [[? ?] ?].
         by intros [= <- <- <-].
       - intros [= <- <- <-]. split; [by apply remove_missing|done]. }
  assert (entries p2 = ∅) as Hemp.
  { apply map_eq. intros id. rewrite lookup_empty. apply eq_None_not_Some. intros [e He].
    destruct (Hent _ _ He) as [Hnot He']. by destruct Hnot; eapply select_all_ids. }
  split_and!; [done|done| |].
  - symmetry. unfold conserves in Hcons. rewrite (right_id_L [] (++)) in Hcons.
    etrans; [exact Hcons|]. unfold tickets. simpl. rewrite Hemp, map_to_list_empty.
    apply reflexive_eq, (right_id_L [] (++)).
  - intros reserve now' env cs'' req options r lease sender. unfold register.
    destruct (register_admit _ _ _ _ _ _ _) as [[token deadline]|e] eqn:Ha; [|by exists e].
    destruct (register_admit_Ok _ _ _ _ _ _ _ _ _ Ha) as (c & _ & _ & Hno & _). simpl in *. congruence.
Qed.

Definition same_deadlines (cs cs' : Controls) : Prop :=
  forall r, (absolute_deadline <$> cs' !! r) = (absolute_deadline <$> cs !! r).

(** Entry and operation were admitted under the same absolute deadline. *)
Definition deadlines_agree (cs : Controls) (p : NativePending) : Prop :=
  forall id e, entries p !! id = Some e ->
  absolute_deadline <$> cs !! core e = Some (entry_absolute e).

Lemma entry_deadline_value cs e :
  absolute_deadline <$> cs !! core e = Some (entry_absolute e) ->
  entry_deadline cs e = earlier (entry_absolute e) (entry_response_deadline e).
Proof.
  unfold entry_deadline, entry_budget, absolute_budget.
  destruct (cs !! core e) as [c|]; [|done]. intros [= <-]. simpl.
  destruct (absolute_deadline c) as [a|]; destruct (entry_response_deadline e) as [d|]; simpl; try done.
  f_equal. case_match; propify; simpl; lia.
Qed.

Lemma core_select_failure_deadlines cs now r error cause cs' o pub :
  core_select_failure cs now r error cause = (cs', o, pub) -> same_deadlines cs cs'.
Proof.
  unfold core_select_failure. destruct (cs !! r) as [c|] eqn:Hc; [|by intros [= <- <- <-]].
  destruct (select_failure_identity c now error cause) as (_ & _ & Ha & _).
  destruct (select_failure c now error cause) as [[c' ?] ?]. intros [= <- <- <-] r'.
  destruct (decide (r' = r)) as [->|Hne].
  - rewrite lookup_insert_eq, Hc. simpl in *. by rewrite Ha.
  - by rewrite lookup_insert_ne.
Qed.

Lemma response_deadline_deadlines cs r d :
  same_deadlines cs (core_set_response_deadline cs r d).
Proof.
  intros r'. unfold core_set_response_deadline. destruct (decide (r' = r)) as [->|Hne].
  - rewrite lookup_alter_eq. by destruct (cs !! r).
  - by rewrite lookup_alter_ne.
Qed.

(** Not due at [now]. *)
Definition waits (now : Instant) (e : PendingEntry) : Prop :=
  forall d, earlier (entry_absolute e) (entry_response_deadline e) = Some d -> now < d.

Lemma expire_entry_spec cs now p id cs' p' done :
  expire_entry cs now p id = (cs', p', done) ->
  same_deadlines cs cs' /\ dispatches p' = dispatches p /\
  (forall id', id' <> id -> entries p' !! id' = entries p !! id') /\
  (forall e', entries p' !! id = Some e' -> waits now e' /\
     exists e, entries p !! id = Some e /\ core e' = core e /\ entry_absolute e' = entry_absolute e).
Proof.
  unfold expire_entry. destruct (entries p !! id) as [e|] eqn:He.
  2: { intros [= <- <- <-]. split_and!; [done|done|done|]. by rewrite He. }
  destruct (if negb (grace_used e) then _ else None) as [d|] eqn:Hg.
  - intros [= <- <- <-]. destruct (grace_used e); [done|]. simpl in Hg.
    destruct (grace_deadline_Some _ _ _ _ _ _ Hg) as (_ & Hlt & Ha & _).
    split_and!; [apply response_deadline_deadlines|done| |].
    + intros id' Hne. by apply lookup_insert_ne.
    + intros e' He'. simpl in He'. rewrite lookup_insert_eq in He'. injection He' as <-.
      split; [|by exists e]. intros d'. unfold entry_response_deadline. simpl.
      destruct (entry_absolute e) as [a|]; simpl; intros [= <-]; [|done].
      specialize (Ha a eq_refl). lia.
  - destruct (core_select_failure _ _ _ _ _) as [[cs1 o] pub] eqn:Hf. intros [= <- <- <-].
    split_and!; [by eapply core_select_failure_deadlines|done| |].
    + intros id' Hne. by apply lookup_delete_ne.
    + intros e' He'. simpl in He'. by rewrite lookup_delete_eq in He'.
Qed.

Lemma expire_loop now cs p ids cs' p' done :
  for_ids (fun cs p id => expire_entry cs now p id) cs p ids = (cs', p', done) ->
  deadlines_agree cs p -> (forall id e, entries p !! id = Some e -> id ∈ ids \/ waits now e) ->
  deadlines_agree cs' p' /\ dispatches p' = dispatches p /\
  forall id e, entries p' !! id = Some e -> waits now e.
Proof.
  revert cs p cs' p' done. induction ids as [|id ids IH]; intros cs p cs' p' done; simpl.
  { intros [= <- <- <-] Ha Hw. split_and!; [done|done|]. intros id e He.
    destruct (Hw _ _ He) as [Hin|]; [by apply not_elem_of_nil in Hin|done]. }
  destruct (expire_entry cs now p id) as [[cs1 p1] d1] eqn:H1.
  destruct (expire_entry_spec _ _ _ _ _ _ _ H1) as (Hd1 & Hds1 & Hother & Hself).
  destruct (for_ids _ cs1 p1 ids) as [[cs2 p2] d2] eqn:H2. intros [= <- <- <-] Ha Hw.
  destruct (IH _ _ _ _ _ H2) as (Ha2 & Hds2 & Hw2).
  - intros id' e' He'. rewrite Hd1. destruct (decide (id' = id)) as [->|Hne].
    + destruct (Hself _ He') as (_ & e & He & -> & ->). by eapply Ha.
    + apply (Ha id'). by rewrite <- Hother.
  - intros id' e' He'. destruct (decide (id' = id)) as [->|Hne].
    + right. by apply Hself.
    + rewrite Hother in He' by done. destruct (Hw _ _ He') as [[->|Hin]%elem_of_cons|]; [done|by left|by right].
  - split_and!; [done|congruence|done].
Qed.

Lemma earlier_Some l r d : earlier l r = Some d -> l = Some d \/ r = Some d.
Proof.
  destruct l as [a|], r as [b|]; simpl; intros [= <-]; auto.
  destruct (Z.min_spec a b) as [[_ ->]|[_ ->]]; auto.
Qed.

Lemma iter_min_elem l v : iter_min l = Some v -> v ∈ l.
Proof.
  destruct l as [|x l]; simpl; [done|]. intros [= <-].
  revert x. induction l as [|y l IH]; intros x; simpl; [by left|].
  specialize (IH (Z.min x y)). apply elem_of_cons in IH as [IH|IH]; rewrite ?IH; [|by do 2 right].
  destruct (Z.min_spec x y) as [[_ ->]|[_ ->]]; [left|right; left].
Qed.

Lemma next_deadline_sources cs p d :
  (next_deadline cs p).2.2 = Some d ->
  (exists k r, dispatches p !! k = Some r /\ d = expires_at r) \/
  (exists id e, entries p !! id = Some e /\ entry_deadline cs e = Some d).
Proof.
  unfold next_deadline. destruct (_ && _); [done|]. simpl.
  assert (forall es init, foldl (fun deadline e => earlier deadline (entry_deadline cs e)) init es = Some d ->
    init = Some d \/ exists e, e ∈ es /\ entry_deadline cs e = Some d) as Hfold.
  { induction es as [|e es IH]; intros init; simpl; [by left|]. intros H.
    destruct (IH _ H) as [[Hi|He]%earlier_Some|(e' & He' & Hd)].
    - by left.
    - right. exists e. split; [by left|done].
    - right. exists e'. split; [by right|done]. }
  intros [Hi|(e & He & Hd)]%Hfold.
  - left. apply iter_min_elem in Hi as Hin.
    apply list_elem_of_fmap in Hin as (r' & -> & ([k r''] & -> & Hk)%list_elem_of_fmap).
    apply elem_of_map_to_list in Hk. by exists k, r''.
  - right. apply list_elem_of_fmap in He as ([id e'] & -> & Hid). apply elem_of_map_to_list in Hid.
    by exists id, e'.
Qed.

(** The timer makes progress.  After a turn at [now] no pending request is due
    any more, each has been completed or moved to a later deadline, and the task
    sleeps until an instant after [now]: it cannot spin on an expired request. *)
Theorem timer_makes_progress cs now p :
  deadlines_agree cs p ->
  let '(cs', p', next, _) := timer_turn true false cs now p in
  (forall id e, entries p' !! id = Some e -> entry_expired cs' now e = false) /\
  (forall d, next = TimerWaits (Some d) -> now < d).
Proof.
  intros Ha. unfold timer_turn, expire_due. cbn [negb].
  set (p0 := p <| dispatches := retain_dispatches now (dispatches p) |>).
  destruct (for_ids _ cs p0 _) as [[cs1 p1] done] eqn:Hf.
  apply expire_loop in Hf as (Ha1 & Hd1 & Hw1); [|done|].
  2: { intros id e He. destruct (entry_expired cs now e) eqn:Hx.
       - left. apply list_elem_of_fmap. exists (id, e). split; [done|].
         apply list_elem_of_filter. split; [by rewrite Hx|]. by apply elem_of_map_to_list.
       - right. intros d Hd. unfold entry_expired in Hx.
         rewrite (entry_deadline_value cs e (Ha _ _ He)), Hd in Hx. simpl in Hx. by propify. }
  destruct (next_deadline cs1 p1) as [p2 [finished deadline]] eqn:Hn.
  assert (entries p2 = entries p1) as He2.
  { unfold next_deadline in Hn. destruct (_ && _); by injection Hn as <- _ _. }
  split.
  - rewrite He2. intros id e He. unfold entry_expired. rewrite (entry_deadline_value _ _ (Ha1 _ _ He)).
    destruct (earlier _ _) as [d|] eqn:Hd; [|done]. specialize (Hw1 _ _ He _ Hd). simpl.
    by apply Z.leb_gt.
  - intros d Hnext. destruct finished; [done|]. injection Hnext as ->.
    destruct (next_deadline_sources cs1 p1 d) as [(k & r & Hk & ->)|(id & e & He & Hd)].
    + by rewrite Hn.
    + rewrite Hd1 in Hk. by apply map_lookup_filter_Some in Hk as [_ Hk].
    + rewrite (entry_deadline_value _ _ (Ha1 _ _ He)) in Hd. by eapply Hw1.
Qed.

End Theory.

(** ** Concrete instances *)

Definition sample_request : Request := mkRequest "r1" (Message.Text "ping") [].

Definition sample_tracked : OperationControl :=
  new_with_deadline_phase 42 1 2 0 10 11 12 SendOptions_default true
    (TaskSource.Request sample_request) 9 WsTimeoutPhase.Total.

Definition sample_controls : Controls := {[ 1%positive := sample_tracked ]}.

Definition sample_table : NativePending :=
  {| table_id := 5; np_client_id := 10; np_session_id := 11; grace := from_secs 2;
     max_dispatches := 4; admission_closed := 3; entries := ∅; dispatches := ∅; next_token := 0;
     next_dispatch := 0; active := None; closed := false |}.

Definition sample_registration : RequestRegistration := mkRequestRegistration "r1" 11 5 1 5.

Definition sample_incoming : IncomingMessage :=
  incoming_new (mkIncomingOrigin 10 11 3) (IncomingPayload.Message (Message.Text "pong")) 77.

(** A request is registered, written and answered. *)
Definition sample_answered_ops : list (Env * Instant * TableOp) :=
  map (fun op => (sample_env, 5, op))
    [TRegister true sample_request RequestOptions_default 1 7 8; TActivate 3;
     TCore 1 OpPrepare; TCore 1 OpEnqueue; TCore 1 (OpMarkWriting 3); TBind sample_registration 3;
     TCore 1 (OpStartWrite false); TMarkWritten sample_registration 5;
     TComplete "r1" sample_incoming].

Definition sample_answered :=
  table_run (clk := linux_clock) (libm := sample_libm) sample_controls sample_table
    sample_answered_ops.

Lemma sample_controls_fresh : fresh_controls sample_controls.
Proof.
  intros r c H. unfold sample_controls in H. apply lookup_singleton_Some in H as [<- <-].
  exists 42, 1%positive, 2%positive, 0, 10, 11, 12, SendOptions_default,
    (TaskSource.Request sample_request), 9%positive, WsTimeoutPhase.Total.
  split; [apply default_options_wf|]. split; [apply seed_in_range|done].
Qed.

Lemma requests_settle_once_witness :
  let '(_, p', effs, admitted) := sample_answered in
  admitted = [(1, "r1", 1%positive, 8%positive, 7%positive)] /\ length (completions effs) = 1%nat /\
  admitted ≡ₚ (ticket ∘ cmp_entry <$> completions effs) ++ tickets p'.
Proof.
  pose proof (requests_settle_once (clk := linux_clock) (libm := sample_libm) sample_controls
    sample_table sample_answered_ops eq_refl eq_refl) as H. fold sample_answered in H.
  assert (let '(_, _, effs, admitted) := sample_answered in
    admitted = [(1, "r1", 1%positive, 8%positive, 7%positive)] /\
    length (completions effs) = 1%nat) as H0 by (vm_compute; split; reflexivity).
  destruct sample_answered as [[[cs' p'] effs] adm]. destruct H0 as [H1 H2]. destruct H as [H _]. done.
Defined.

Lemma completion_matches_operation_witness :
  let '(cs', _, effs, _) := sample_answered in
  exists c ctl response, c ∈ completions effs /\ cmp_response c = Ok response /\
    cs' !! core (cmp_entry c) = Some ctl /\
    result (snapshot (state ctl)) = Some (Ok TaskSuccess.ResponseReceived).
Proof.
  pose proof (completion_matches_operation (clk := linux_clock) (libm := sample_libm)
    sample_controls sample_table sample_answered_ops sample_controls_fresh eq_refl
    (Z.le_refl 0) eq_refl) as H. fold sample_answered in H.
  assert (let '(_, _, effs, _) := sample_answered in
    match completions effs with [c] => is_ok (cmp_response c) | _ => false end = true) as H0
    by (vm_compute; reflexivity).
  destruct sample_answered as [[[cs' p'] effs] adm].
  destruct (completions effs) as [|c [|? ?]]; [discriminate H0| |discriminate H0].
  destruct (cmp_response c) as [response|] eqn:Hr; [|discriminate H0].
  assert (c ∈ [c]) as Hin by apply list_elem_of_here.
  destruct (H c Hin) as (ctl & Hctl & Hres). rewrite Hr in Hres. destruct Hres as [Hres _].
  exists c, ctl, response. split; [exact Hin|]. split; [exact Hr|]. split; [exact Hctl|exact Hres].
Defined.

Lemma stale_registration_inert_witness :
  table_terminate sample_controls 6 sample_table "r1" 1 (NetError_new ErrorKind.Cancelled)
    TaskEndCause.Cancelled = (sample_controls, sample_table,
    Ok TerminationOutcome.AlreadyFinished, []).
Proof.
  destruct (stale_registration_inert (clk := linux_clock) sample_controls sample_env 6 sample_table
    sample_registration 5 (NetError_new ErrorKind.Cancelled) TaskEndCause.Cancelled sample_incoming 3
    eq_refl) as (_ & _ & _ & _ & H & _). exact H.
Defined.

(** A message is handed to the application; then the connection is lost. *)
Definition sample_dispatched_ops : list (Env * Instant * TableOp) :=
  take 8 sample_answered_ops ++ [(sample_env, 6, TRegisterDispatch true sample_incoming)].

Definition sample_dispatched : Controls * NativePending :=
  (table_run (clk := linux_clock) (libm := sample_libm) sample_controls sample_table
     sample_dispatched_ops).1.1.

Lemma grace_granted_once_witness :
  let '(_, p', _, _) := table_step (clk := linux_clock) (libm := sample_libm) sample_dispatched.1
    sample_env 7 sample_dispatched.2 (TFail true 3 (NetError_new ErrorKind.NotConnected)) in
  exists e', entries p' !! "r1" = Some e' /\ grace_used e' = true /\
  exists d, entry_grace e' = Some d /\ 7 < d.
Proof.
  pose proof (grace_granted_once (clk := linux_clock) (libm := sample_libm) sample_dispatched.1
    sample_env 7 sample_dispatched.2 (TFail true 3 (NetError_new ErrorKind.NotConnected)) eq_refl) as H.
  assert (let '(_, p', _, _) := table_step (clk := linux_clock) (libm := sample_libm)
      sample_dispatched.1 sample_env 7 sample_dispatched.2
      (TFail true 3 (NetError_new ErrorKind.NotConnected)) in
    exists e', entries p' !! "r1" = Some e' /\ grace_used e' = true /\ entry_token e' = 1) as H0
    by (vm_compute; eexists; split_and!; reflexivity).
  assert (next_token sample_dispatched.2 = 1) as Hn by (vm_compute; reflexivity).
  assert (grace_used <$> entries sample_dispatched.2 !! "r1" = Some false) as Hu
    by (vm_compute; reflexivity).
  destruct (table_step _ _ _ _ _) as [[[cs' p'] eff] adm]. destruct H0 as (e' & He' & Hg & Ht).
  exists e'. split; [done|]. split; [done|].
  destruct (H "r1" e' He') as (e & He & _ & [[Hs _]|(_ & _ & d & base & Hd & Hlt & _)]).
  - rewrite Ht, Hn. done.
  - rewrite He in Hu. simpl in Hu. congruence.
  - exists d. split; [exact Hd|exact Hlt].
Defined.

Lemma timer_makes_progress_witness :
  let '(_, p', next, eff) := timer_turn (clk := linux_clock) true false sample_dispatched.1
    (from_secs 31) sample_dispatched.2 in
  size (entries p') = 1%nat /\ eff = [] /\ exists d, next = TimerWaits (Some d) /\ from_secs 31 < d.
Proof.
  assert (deadlines_agree sample_dispatched.1 sample_dispatched.2) as Ha.
  { intros id e He. assert (id = "r1") as ->.
    { assert (dom (entries sample_dispatched.2) = {[ "r1" ]}) as Hd by (vm_compute; reflexivity).
      apply elem_of_dom_2 in He. rewrite Hd in He. by apply elem_of_singleton in He. }
    assert ((fun e => (core e, entry_absolute e)) <$> entries sample_dispatched.2 !! "r1" =
      Some (1%positive, None)) as Hc by (vm_compute; reflexivity).
    rewrite He in Hc. simpl in Hc. injection Hc as -> ->. vm_compute. reflexivity. }
  pose proof (timer_makes_progress (clk := linux_clock) sample_dispatched.1 (from_secs 31)
    sample_dispatched.2 Ha) as H.
  assert (let '(_, p', next, eff) := timer_turn (clk := linux_clock) true false sample_dispatched.1
    (from_secs 31) sample_dispatched.2 in
    size (entries p') = 1%nat /\ eff = [] /\ exists d, next = TimerWaits (Some d)) as H0
    by (vm_compute; split_and!; [reflexivity|reflexivity|eexists; reflexivity]).
  destruct (timer_turn _ _ _ _ _) as [[[cs' p'] next] eff]. destruct H0 as (H1 & H2 & d & H3).
  destruct H as [_ H]. split; [done|]. split; [done|]. exists d. split; [done|]. by apply H.
Defined.
