(* ===== verification/PriorityWriteQueue.v ===== *)
(** * The queue of outgoing messages
      (src/module/ws_client/write/priority_write_queue.rs, queued_request.rs)

    Requests wait in one of three containers: [prepared] (admitted, not yet
    committed), the heap (ready), [delayed] (waiting for a retry).  Functions
    here are the parts of the code that run under the lock of the queue and touch
    only the queue and the controls; what needs the response tables and the
    dispatch of publications is in Termination.v.

    The counting semaphores of the tokio crate are a class with the documented
    laws the queue relies on.  Waiting for capacity ([reserve]) and for the next
    request ([next]) is the polling of [try_reserve] and [pop_ready]. *)

From S2P Require Import Prelude F64 Backoff RetrySchedule RetryState Errors WsRetry WsOptions Cancellation WsTask IndexedHeap OperationControl NativePending.

(** ** Counting semaphores *)

Module TryAcquireError.
Inductive TryAcquireError := Closed | NoPermits.
End TryAcquireError.
Abbreviation TryAcquireError := TryAcquireError.TryAcquireError.

Class Semaphores := {
  Sem : Type;
  sem_new : Z -> Sem;
  available : Sem -> Z;
  sem_closed : Sem -> bool;
  try_acquire_many : Sem -> Z -> Result Sem TryAcquireError;
  sem_release : Sem -> Z -> Sem;
  sem_close : Sem -> Sem;
}.

Class SemaphoreLaws {sem : Semaphores} : Prop := {
  new_available n : available (sem_new n) = n;
  new_open n : sem_closed (sem_new n) = false;
  acquire_closed s n : sem_closed s = true -> try_acquire_many s n = Err TryAcquireError.Closed;
  acquire_empty s n : sem_closed s = false -> available s < n ->
    try_acquire_many s n = Err TryAcquireError.NoPermits;
  acquire_ok s n : sem_closed s = false -> n <= available s ->
    exists s', try_acquire_many s n = Ok s' /\ available s' = available s - n /\
      sem_closed s' = false;
  release_available s n : available (sem_release s n) = available s + n;
  release_closed s n : sem_closed (sem_release s n) = sem_closed s;
  close_available s : available (sem_close s) = available s;
  close_closed s : sem_closed (sem_close s) = true;
}.

(** ** Queued requests *)

(** An owned permit: the queue whose semaphore it returns to and its size. *)
Record Permit := mkPermit { permit_queue : QueueId; permit_count : Z }.

Record QueuedRequest := mkQueuedRequest {
  qr_registration : option RequestRegistration;
  message : Message;
  config : SendOptions;
  attempt : Z;
  ready_at : option Instant;
  dispatch_cancel : Token;
  dispatch_phase : OpRef;
  admission_cancel : option Token;
  sequence : Z;
  slot_permit : option Permit;
  byte_permit : option Permit;
  completed : bool;
  qr_retirement : option DeferredTermination;
}.

#[export] Instance QueuedRequest_settable : Settable QueuedRequest :=
  fields! mkQueuedRequest [ qr_registration; message; config; attempt; ready_at; dispatch_cancel;
    dispatch_phase; admission_cancel; sequence; slot_permit; byte_permit; completed; qr_retirement ].

(** The [Ord] instance: higher priority first, then the earlier request. *)
Definition priority_rank (p : Priority) : Z :=
  match p with Priority.Low => 0 | Priority.Normal => 1 | Priority.High => 2 end.

Definition request_cmp (left right : QueuedRequest) : comparison :=
  match priority_rank (priority (config left)) ?= priority_rank (priority (config right)) with
  | Eq => sequence right ?= sequence left
  | c => c
  end.

#[export] Instance queued_item : HeapItem QueuedRequest :=
  {| item_token := dispatch_cancel;
     item_gt l r := match request_cmp l r with Gt => true | _ => false end |}.

Definition can_wait_for_reconnect (cs : Controls) (r : QueuedRequest) : bool :=
  bool_decide (disconnected (config r) = DisconnectedPolicy.WaitForReconnect)
  || ((0 <? attempt r) && is_some_and (cs !! dispatch_phase r) raw_replay_allowed).

(** [QueuedRequest::terminal_error] *)
Definition request_terminal_error (cs : Controls) (r : QueuedRequest) (fallback : NetError) : NetError :=
  core_selected_error cs (dispatch_phase r) fallback.

(** ** The queue *)

Section Queue.
Context {sem : Semaphores}.

Record PriorityWriteQueue := mkPriorityWriteQueue {
  heap : IndexedHeap QueuedRequest;
  prepared : gmap Token QueuedRequest;
  delayed : gmap Token QueuedRequest;
  q_closed : bool;
  task_slots : Sem;
  byte_slots : Sem;
  max_bytes : Z;
}.

#[export] Instance PriorityWriteQueue_settable : Settable PriorityWriteQueue :=
  fields! mkPriorityWriteQueue [ heap; prepared; delayed; q_closed; task_slots; byte_slots;
    max_bytes ].

(** All requests of the queue. *)
Definition values (m : gmap Token QueuedRequest) : list QueuedRequest := (map_to_list m).*2.

Definition requests (q : PriorityWriteQueue) : list QueuedRequest :=
  items (heap q) ++ values (prepared q) ++ values (delayed q).

(** [QueueLimit::validate_fields] *)
Definition limit_validate (max_permits : Z) (max_items max_bytes : Z)
    (items_field bytes_field : string) : Result () NetError :=
  let? _ := config_permits max_permits max_items items_field in
  let? _ := config_permits max_permits max_bytes bytes_field in
  if u32_max <? max_bytes
  then Err (NetError_config bytes_field "must fit a u32 byte allowance") else Ok tt.

Definition queue_new (max_permits : Z) (max_tasks max_bytes : Z) :
    Result PriorityWriteQueue NetError :=
  let? _ := limit_validate max_permits max_tasks max_bytes "max_items" "max_bytes" in
  Ok {| heap := heap_new; prepared := ∅; delayed := ∅; q_closed := false;
        task_slots := sem_new max_tasks; byte_slots := sem_new max_bytes;
        max_bytes := max_bytes mod 2 ^ 32 |}.

(** The process-wide sequence counter: the new counter and the number drawn. *)
Definition next_sequence (counter : Z) : Z * Result Z NetError :=
  match checked_add u64_max counter 1 with
  | Some next => (next, Ok counter)
  | None => (counter, Err (NetError_new ErrorKind.ResourceExhausted))
  end.

Definition byte_count (q : PriorityWriteQueue) (bytes : Z) : Result Z NetError :=
  let bytes := Z.max bytes 1 in
  if max_bytes q <? bytes then Err (NetError_new ErrorKind.ItemTooLarge)
  else Ok (bytes mod 2 ^ 32).

Definition capacity_error (e : TryAcquireError) : NetError :=
  NetError_new (match e with
                | TryAcquireError.Closed => ErrorKind.QueueClosed
                | TryAcquireError.NoPermits => ErrorKind.QueueFull
                end).

(** The item permit is dropped when the bytes are refused. *)
Definition try_reserve (id : QueueId) (q : PriorityWriteQueue) (bytes : Z) :
    PriorityWriteQueue * Result (Permit * Permit) NetError :=
  match byte_count q bytes with
  | Err e => (q, Err e)
  | Ok bytes =>
      match try_acquire_many (task_slots q) 1 with
      | Err e => (q, Err (capacity_error e))
      | Ok tasks =>
          match try_acquire_many (byte_slots q) bytes with
          | Err e => (q <| task_slots := sem_release tasks 1 |>, Err (capacity_error e))
          | Ok slots =>
              (q <| task_slots := tasks; byte_slots := slots |>,
               Ok (mkPermit id 1, mkPermit id bytes))
          end
      end
  end.

(** ** Admission *)

Definition can_admit (cs : Controls) (env : Env) (now : Instant) (q : PriorityWriteQueue)
    (r : QueuedRequest) : Result () NetError :=
  if q_closed q then Err (NetError_new ErrorKind.QueueClosed)
  else if is_some_and (cs !! dispatch_phase r) is_finished
          || token_cancelled env (dispatch_cancel r)
  then Err (request_terminal_error cs r (NetError_new ErrorKind.Cancelled))
  else if is_some_and (admission_cancel r) (token_cancelled env)
  then Err (NetError_new ErrorKind.Closed)
  else if is_some_and (cs !! dispatch_phase r ≫= deadline) (fun deadline => deadline <=? now)
  then Err (NetError_new ErrorKind.TimedOut)
  else Ok tt.

(** The gate of the request's cancellation group. *)
Definition request_gate (cs : Controls) (env : Env) (r : QueuedRequest) : Result () NetError :=
  match cs !! dispatch_phase r with Some c => lock_group c env | None => Ok tt end.

Definition queue_contains (q : PriorityWriteQueue) (t : Token) : bool :=
  heap_contains (heap q) t || is_some (prepared q !! t) || is_some (delayed q !! t).

(** [reserve] is the answer of the allocator for the container that grows. *)
Definition queue_push (reserve : bool) (cs : Controls) (env : Env) (now : Instant)
    (q : PriorityWriteQueue) (r : QueuedRequest) (to_prepared : bool) :
    Controls * PriorityWriteQueue * Result () (QueuedRequest * NetError) :=
  match request_gate cs env r with
  | Err error => (cs, q, Err (r, error))
  | Ok _ =>
      match can_admit cs env now q r with
      | Err error => (cs, q, Err (r, error))
      | Ok _ =>
          if queue_contains q (dispatch_cancel r)
          then (cs, q, Err (r, NetError_new ErrorKind.Internal))
          else if to_prepared then
            if negb reserve then (cs, q, Err (r, NetError_new ErrorKind.ResourceExhausted))
            else
              match cs !! dispatch_phase r with
              | None => (cs, q, Err (r, NetError_new ErrorKind.Internal))
              | Some c =>
                  match prepare c env now with
                  | (c, Err error) => (<[dispatch_phase r := c]> cs, q, Err (r, error))
                  | (c, Ok _) =>
                      (<[dispatch_phase r := c]> cs,
                       q <| prepared ::= <[dispatch_cancel r := r]> |>, Ok tt)
                  end
              end
          else if is_some_and (ready_at r) (fun ready => now <? ready) then
            if negb reserve then (cs, q, Err (r, NetError_new ErrorKind.ResourceExhausted))
            else (cs, q <| delayed ::= <[dispatch_cancel r := r]> |>, Ok tt)
          else
            match heap_push reserve reserve (heap q) r with
            | (h, Err r) => (cs, q <| heap := h |>, Err (r, NetError_new ErrorKind.ResourceExhausted))
            | (h, Ok _) => (cs, q <| heap := h |>, Ok tt)
            end
      end
  end.

(** [commit_prepared] under the lock: a prepared request becomes ready.  A request that is refused
    has left the queue and is handed back. *)
Definition queue_commit (reserve : bool) (cs : Controls) (env : Env) (now : Instant)
    (q : PriorityWriteQueue) (t : Token) :
    Controls * PriorityWriteQueue * Result () (option QueuedRequest * NetError) :=
  match prepared q !! t with
  | None => (cs, q, Err (None, NetError_new ErrorKind.Cancelled))
  | Some r =>
      let q := q <| prepared ::= delete t |> in
      match request_gate cs env r with
      | Err error => (cs, q, Err (Some r, error))
      | Ok _ =>
          match can_admit cs env now q r with
          | Err error => (cs, q, Err (Some r, error))
          | Ok _ =>
              match cs !! dispatch_phase r with
              | None => (cs, q, Err (Some r, NetError_new ErrorKind.Internal))
              | Some c =>
                  let '(c, admission) := enqueue c env now in
                  let cs := <[dispatch_phase r := c]> cs in
                  match admission with
                  | Err error => (cs, q, Err (Some r, error))
                  | Ok _ =>
                      match heap_push reserve reserve (heap q) r with
                      | (h, Err r) => (cs, q <| heap := h |>, Err (Some r, NetError_new ErrorKind.ResourceExhausted))
                      | (h, Ok _) => (cs, q <| heap := h |>, Ok tt)
                      end
                  end
              end
          end
      end
  end.

(** ** Removal *)

(** [cancel_queued_with_error] looks in the containers in this order. *)
Definition take_queued (q : PriorityWriteQueue) (t : Token) :
    PriorityWriteQueue * option QueuedRequest :=
  match prepared q !! t with
  | Some r => (q <| prepared ::= delete t |>, Some r)
  | None =>
      match heap_remove (heap q) t with
      | (h, Some r) => (q <| heap := h |>, Some r)
      | (h, None) =>
          (q <| heap := h; delayed ::= delete t |>, delayed q !! t)
      end
  end.

Definition wake_at (cs : Controls) (r : QueuedRequest) : option Instant :=
  earliest (ready_at r) (cs !! dispatch_phase r ≫= deadline).

(** A delayed request whose retry delay or deadline has passed. *)
Definition due (cs : Controls) (now : Instant) (r : QueuedRequest) : bool :=
  is_none_or (wake_at cs r) (fun ready => ready <=? now).

(** [Iterator::max_by] *)
Definition max_by (rs : list QueuedRequest) : option QueuedRequest :=
  match rs with
  | [] => None
  | r :: rs => Some (foldl (fun best r => if item_gt best r then best else r) r rs)
  end.

Definition pop_ready (cs : Controls) (now : Instant) (q : PriorityWriteQueue) :
    PriorityWriteQueue * option QueuedRequest :=
  let best := max_by (filter (fun r => due cs now r) ((map_to_list (delayed q)).*2)) in
  let chosen :=
    match best with
    | Some r => if is_none_or (peek (heap q)) (fun ready => item_gt r ready) then Some r else None
    | None => None
    end in
  match chosen with
  | Some r => (q <| delayed ::= delete (dispatch_cancel r) |>, delayed q !! dispatch_cancel r)
  | None => let '(h, r) := heap_pop (heap q) in (q <| heap := h |>, r)
  end.

(** When the loop of [next] looks again if nothing is ready. *)
Definition next_wake (cs : Controls) (q : PriorityWriteQueue) : option Instant :=
  iter_min (omap (wake_at cs) ((map_to_list (delayed q)).*2)).

Definition queue_drain (q : PriorityWriteQueue) : PriorityWriteQueue * list QueuedRequest :=
  let '(h, rs) := heap_drain (heap q) in
  (q <| heap := h; prepared := ∅; delayed := ∅ |>,
   rs ++ (map_to_list (prepared q)).*2 ++ (map_to_list (delayed q)).*2).

(** Requests that survive the loss of the connection. *)
Definition survives (cs : Controls) (r : QueuedRequest) : bool :=
  can_wait_for_reconnect cs r && negb (is_some_and (cs !! dispatch_phase r) is_finished).

(** The request is no longer tied to the connection it was admitted on. *)
Definition detach (r : QueuedRequest) : QueuedRequest := r <| admission_cancel := None |>.

(** The heap is rebuilt from the requests that survive; [reserve] is the answer of the allocator
    when the request is put back. *)
Fixpoint refill_heap (reserve : QueuedRequest -> bool) (cs : Controls) (h : IndexedHeap QueuedRequest)
    (rs : list QueuedRequest) : IndexedHeap QueuedRequest * list QueuedRequest :=
  match rs with
  | [] => (h, [])
  | r :: rs =>
      let '(h, rejected) :=
        if survives cs r then
          match heap_push (reserve r) (reserve r) h (detach r) with
          | (h, Ok _) => (h, [])
          | (h, Err r) => (h, [r])
          end
        else (h, [r]) in
      let '(h, rest) := refill_heap reserve cs h rs in
      (h, rejected ++ rest)
  end.

Definition retain_map (reserve : QueuedRequest -> bool) (cs : Controls) (m : gmap Token QueuedRequest) :
    gmap Token QueuedRequest * list QueuedRequest :=
  let keep r := survives cs r && reserve r in
  (detach <$> filter (fun '(_, r) => keep r) m,
   filter (fun r => negb (keep r)) ((map_to_list m).*2)).

Definition drain_rejected (reserve : QueuedRequest -> bool) (cs : Controls) (q : PriorityWriteQueue) :
    PriorityWriteQueue * list QueuedRequest :=
  let '(h, rs) := heap_drain (heap q) in
  let '(h, rejected) := refill_heap reserve cs h rs in
  let '(p, rejected_p) := retain_map reserve cs (prepared q) in
  let '(d, rejected_d) := retain_map reserve cs (delayed q) in
  (q <| heap := h; prepared := p; delayed := d |>, rejected ++ rejected_p ++ rejected_d).

Definition queue_close (q : PriorityWriteQueue) : PriorityWriteQueue :=
  q <| q_closed := true; task_slots ::= sem_close; byte_slots ::= sem_close |>.

(** ** Calls as steps *)

Inductive QueueOp :=
| QReserve (bytes : Z)
| QPush (reserve : bool) (r : QueuedRequest) (to_prepared : bool)
| QCommit (reserve : bool) (t : Token)
| QTake (t : Token)
| QPop
| QDrain
| QDrainRejected (reserve : QueuedRequest -> bool)
| QClose.

(** One call under the lock of the queue [id]: the requests it accepts and the
    requests it hands out.  A refused push is both; a refused commit hands its request out. *)
Definition queue_step (id : QueueId) (cs : Controls) (env : Env) (now : Instant)
    (q : PriorityWriteQueue) (op : QueueOp) :
    Controls * PriorityWriteQueue * list QueuedRequest * list QueuedRequest :=
  match op with
  | QReserve bytes => (cs, (try_reserve id q bytes).1, [], [])
  | QPush reserve r to_prepared =>
      match queue_push reserve cs env now q r to_prepared with
      | (cs, q, Ok _) => (cs, q, [r], [])
      | (cs, q, Err (r', _)) => (cs, q, [r], [r'])
      end
  | QCommit reserve t =>
      match queue_commit reserve cs env now q t with
      | (cs, q, Err (Some r, _)) => (cs, q, [], [r])
      | (cs, q, _) => (cs, q, [], [])
      end
  | QTake t => let '(q, out) := take_queued q t in (cs, q, [], option_list out)
  | QPop => let '(q, out) := pop_ready cs now q in (cs, q, [], option_list out)
  | QDrain => let '(q, out) := queue_drain q in (cs, q, [], out)
  | QDrainRejected reserve => let '(q, out) := drain_rejected reserve cs q in (cs, q, [], out)
  | QClose => (cs, queue_close q, [], [])
  end.

Fixpoint queue_run (id : QueueId) (cs : Controls) (q : PriorityWriteQueue)
    (ops : list (Env * Instant * QueueOp)) :
    Controls * PriorityWriteQueue * list QueuedRequest * list QueuedRequest :=
  match ops with
  | [] => (cs, q, [], [])
  | (env, now, op) :: ops =>
      let '(cs, q, accepted, out) := queue_step id cs env now q op in
      let '(cs, q, accepted', out') := queue_run id cs q ops in
      (cs, q, accepted ++ accepted', out ++ out')
  end.

End Queue.
