(* ===== verification/QueueTheory.v ===== *)
(** * Theorems about the queue of outgoing messages

    The queue neither loses nor duplicates a request, a token is in at most one of
    its containers, the next request is the best one that is ready, and a failed
    reservation keeps the capacity. *)

From Stdlib Require Import Sorted.
From S2P Require Import Prelude F64 Backoff RetrySchedule RetryState Errors WsRetry WsOptions Cancellation WsTask IndexedHeap OperationControl NativePending PriorityWriteQueue.

(** ** The scheduling order *)

Lemma item_gt_spec (l r : QueuedRequest) :
  item_gt l r = true <->
  priority_rank (priority (config r)) < priority_rank (priority (config l)) \/
  (priority_rank (priority (config r)) = priority_rank (priority (config l)) /\
   sequence l < sequence r).
Proof.
  simpl. unfold request_cmp.
  destruct (Z.compare_spec (priority_rank (priority (config l))) (priority_rank (priority (config r)))).
  - destruct (Z.compare_spec (sequence r) (sequence l)); split; try lia; try done.
  - split; [done|lia].
  - split; [lia|done].
Qed.

Lemma item_gt_false (l r : QueuedRequest) :
  item_gt l r = false <->
  priority_rank (priority (config l)) < priority_rank (priority (config r)) \/
  (priority_rank (priority (config r)) = priority_rank (priority (config l)) /\
   sequence r <= sequence l).
Proof.
  destruct (item_gt l r) eqn:E.
  - apply item_gt_spec in E. split; [done|lia].
  - split; [|done]. intros _.
    destruct (decide (item_gt l r = true)) as [|Hn]; [congruence|].
    rewrite item_gt_spec in Hn. lia.
Qed.

#[local] Arguments item_gt : simpl never.

#[export] Instance queued_item_laws : HeapItemLaws QueuedRequest.
Proof.
  split.
  - intros x y H%item_gt_spec. apply item_gt_false. lia.
  - intros x y z H1%item_gt_false H2%item_gt_false. apply item_gt_false. lia.
Qed.

Section Theory.
Context {sem : Semaphores}.
Implicit Types (q : PriorityWriteQueue).

(** ** Contents and invariant *)

Definition keyed (m : gmap Token QueuedRequest) : Prop :=
  forall t r, m !! t = Some r -> dispatch_cancel r = t.

Record queue_wf q : Prop := {
  wf_heap : heap_valid (heap q);
  wf_prepared : keyed (prepared q);
  wf_delayed : keyed (delayed q);
  wf_tokens : NoDup (dispatch_cancel <$> requests q);
}.

Lemma elem_of_values m r : r ∈ values m <-> exists t, m !! t = Some r.
Proof.
  unfold values. rewrite list_elem_of_fmap. split.
  - intros ([t r'] & -> & H). exists t. by apply elem_of_map_to_list.
  - intros [t H]. exists (t, r). split; [done|by apply elem_of_map_to_list].
Qed.

Lemma values_insert m t r : m !! t = None -> values (<[t := r]> m) ≡ₚ r :: values m.
Proof. intros H. unfold values. by rewrite map_to_list_insert. Qed.

Lemma values_delete m t r : m !! t = Some r -> values m ≡ₚ r :: values (delete t m).
Proof.
  intros H. rewrite <- (insert_delete_id m t r H) at 1. by rewrite values_insert by apply lookup_delete_eq.
Qed.

Lemma keyed_insert m r : keyed m -> keyed (<[dispatch_cancel r := r]> m).
Proof. intros Hm t r' [[<- <-]|[_ H]]%lookup_insert_Some; [done|by apply Hm]. Qed.

Lemma keyed_delete m t : keyed m -> keyed (delete t m).
Proof. intros Hm t' r [_ H]%lookup_delete_Some. by apply Hm. Qed.

Lemma keyed_lookup m r : keyed m -> r ∈ values m <-> m !! dispatch_cancel r = Some r.
Proof.
  intros Hm. rewrite elem_of_values. split.
  - intros [t Ht]. by rewrite (Hm _ _ Ht).
  - intros H. by eexists.
Qed.

Lemma heap_contains_token q t :
  heap_valid (heap q) -> heap_contains (heap q) t = true <-> t ∈ dispatch_cancel <$> items (heap q).
Proof.
  intros [[H1 H2] _ _]. unfold heap_contains. rewrite list_elem_of_fmap. split.
  - destruct (positions (heap q) !! t) as [i|] eqn:Hp; [|done]. intros _.
    destruct (H2 _ _ Hp) as (r & Hr & <-). exists r. split; [done|]. by eapply list_elem_of_lookup_2.
  - intros (r & -> & [i Hi]%list_elem_of_lookup). specialize (H1 _ _ Hi). simpl in H1. by rewrite H1.
Qed.

Lemma keyed_contains m t : keyed m -> is_some (m !! t) = true <-> t ∈ dispatch_cancel <$> values m.
Proof.
  intros Hm. rewrite list_elem_of_fmap. split.
  - destruct (m !! t) as [r|] eqn:Hr; [|done]. intros _. exists r. split; [by rewrite (Hm _ _ Hr)|].
    apply elem_of_values. by eexists.
  - intros (r & -> & Hr). apply keyed_lookup in Hr; [|done]. by rewrite Hr.
Qed.

Lemma queue_contains_spec q t :
  queue_wf q -> queue_contains q t = true <-> t ∈ dispatch_cancel <$> requests q.
Proof.
  intros [Hh Hp Hd _]. unfold queue_contains, requests.
  rewrite !orb_true_iff, !fmap_app, !elem_of_app, (heap_contains_token q t Hh),
    (keyed_contains _ t Hp), (keyed_contains _ t Hd). tauto.
Qed.

Lemma queue_contains_false q t :
  queue_wf q -> queue_contains q t = false -> t ∉ dispatch_cancel <$> requests q.
Proof. intros Hw Hc. rewrite <- queue_contains_spec by done. congruence. Qed.

(** Moving requests between the containers keeps the tokens distinct. *)
Lemma tokens_perm (l l' : list QueuedRequest) :
  l ≡ₚ l' -> NoDup (dispatch_cancel <$> l) -> NoDup (dispatch_cancel <$> l').
Proof. intros Hp. by rewrite Hp. Qed.

Lemma tokens_cons (l : list QueuedRequest) r :
  (dispatch_cancel r ∉ dispatch_cancel <$> l) -> NoDup (dispatch_cancel <$> l) ->
  NoDup (dispatch_cancel <$> r :: l).
Proof. intros H1 H2. simpl. by constructor. Qed.

Lemma tokens_uncons (l : list QueuedRequest) r :
  NoDup (dispatch_cancel <$> r :: l) -> NoDup (dispatch_cancel <$> l).
Proof. simpl. by inversion 1. Qed.

(** ** Operations *)

Lemma try_reserve_requests id q bytes : requests (try_reserve id q bytes).1 = requests q.
Proof. unfold try_reserve. by repeat case_match. Qed.

Lemma try_reserve_wf id q bytes : queue_wf q -> queue_wf (try_reserve id q bytes).1.
Proof. intros [? ? ? ?]. unfold try_reserve. repeat case_match; by split. Qed.

Lemma queue_push_spec reserve cs env now q r to_prepared :
  queue_wf q -> Z.of_nat (length (requests q)) < isize_max ->
  match queue_push reserve cs env now q r to_prepared with
  | (_, q', Ok _) =>
      requests q' ≡ₚ r :: requests q /\ queue_wf q' /\ q_closed q = false /\
      task_slots q' = task_slots q /\ byte_slots q' = byte_slots q
  | (_, q', Err (r', _)) => q' = q /\ r' = r
  end.
Proof.
  intros Hw Hlen. unfold queue_push.
  destruct (request_gate cs env r); [|done].
  destruct (can_admit cs env now q r) eqn:Hadm; [|done].
  assert (q_closed q = false) as Hopen by (unfold can_admit in Hadm; by destruct (q_closed q)).
  destruct (queue_contains q (dispatch_cancel r)) eqn:Hc; [done|].
  pose proof (queue_contains_false _ _ Hw Hc) as Hfresh. pose proof Hw as [Hh Hp Hd Hn].
  pose proof (tokens_cons _ _ Hfresh Hn) as Hn'.
  assert (prepared q !! dispatch_cancel r = None /\ delayed q !! dispatch_cancel r = None) as [Hpn Hdn].
  { unfold queue_contains in Hc. apply orb_false_iff in Hc as [Hc Hc2]. apply orb_false_iff in Hc as [_ Hc1].
    by destruct (prepared q !! _), (delayed q !! _). }
  destruct to_prepared.
  - destruct reserve; [|done]. cbn [negb]. destruct (cs !! dispatch_phase r) as [c|]; [|done].
    destruct (prepare c env now) as [c' [u|error]]; [|done].
    assert (requests (q <| prepared ::= <[dispatch_cancel r := r]> |>) ≡ₚ r :: requests q) as Hperm.
    { unfold requests. simpl. rewrite (values_insert _ _ _ Hpn). solve_Permutation. }
    split_and!; try done. split; simpl; [done|by apply keyed_insert|done|].
    by eapply tokens_perm; [symmetry; exact Hperm|].
  - destruct (is_some_and _ _).
    + destruct reserve; [|done]. cbn [negb].
      assert (requests (q <| delayed ::= <[dispatch_cancel r := r]> |>) ≡ₚ r :: requests q) as Hperm.
      { unfold requests. simpl. rewrite (values_insert _ _ _ Hdn). solve_Permutation. }
      split_and!; try done. split; simpl; [done|done|by apply keyed_insert|].
      by eapply tokens_perm; [symmetry; exact Hperm|].
    + assert (Z.of_nat (length (items (heap q))) < isize_max) as Hlen'.
      { unfold requests in Hlen. rewrite length_app in Hlen. lia. }
      pose proof (heap_push_spec reserve reserve (heap q) r Hh Hlen') as Hpush.
      destruct (heap_push reserve reserve (heap q) r) as [h [u|r']].
      * destruct Hpush as (_ & _ & _ & Hpm & Hv).
        assert (requests (q <| heap := h |>) ≡ₚ r :: requests q) as Hperm.
        { unfold requests. simpl. rewrite Hpm. solve_Permutation. }
        split_and!; try done. split; simpl; [done|done|done|].
        by eapply tokens_perm; [symmetry; exact Hperm|].
      * destruct Hpush as (-> & -> & _). split; [|done]. by destruct q.
Qed.

(** A commit moves a request, or hands it back. *)
Lemma queue_commit_spec reserve cs env now q t :
  queue_wf q -> Z.of_nat (length (requests q)) <= isize_max ->
  match queue_commit reserve cs env now q t with
  | (_, q', Ok _) => requests q' ≡ₚ requests q /\ queue_wf q'
  | (_, q', Err (Some r, _)) => requests q ≡ₚ r :: requests q' /\ queue_wf q'
  | (_, q', Err (None, _)) => q' = q
  end.
Proof.
  intros Hw Hlen. pose proof Hw as [Hh Hp Hd Hn]. unfold queue_commit.
  destruct (prepared q !! t) as [r|] eqn:Hpt; [|done]. set (q1 := q <| prepared ::= delete t |>).
  assert (requests q ≡ₚ r :: requests q1) as Hperm.
  { unfold requests. simpl. rewrite (values_delete _ _ _ Hpt). solve_Permutation. }
  assert (queue_wf q1) as Hw1.
  { split; simpl; [done|by apply keyed_delete|done|]. eapply tokens_uncons, tokens_perm; [exact Hperm|done]. }
  destruct (request_gate cs env r); [|done]. destruct (can_admit cs env now q1 r); [|done].
  destruct (cs !! dispatch_phase r) as [c|]; [|done]. destruct (enqueue c env now) as [c' [u|error]]; [|done].
  assert (Z.of_nat (length (items (heap q1))) < isize_max) as Hlen'.
  { rewrite Hperm in Hlen. unfold requests in Hlen. simpl in *. rewrite length_app in Hlen. lia. }
  pose proof (heap_push_spec reserve reserve (heap q1) r (wf_heap _ Hw1) Hlen') as Hpush.
  destruct (heap_push reserve reserve (heap q1) r) as [h [v|r']].
  - destruct Hpush as (_ & _ & _ & Hpm & Hv).
    assert (requests (q1 <| heap := h |>) ≡ₚ requests q) as Hperm'.
    { rewrite Hperm. unfold requests. simpl. rewrite Hpm. solve_Permutation. }
    split; [done|]. split; simpl; [done|apply Hw1|done|]. by eapply tokens_perm; [symmetry; exact Hperm'|].
  - destruct Hpush as (-> & -> & _). by destruct q.
Qed.

Lemma take_queued_spec q t :
  queue_wf q ->
  match take_queued q t with
  | (q', Some r) => dispatch_cancel r = t /\ requests q ≡ₚ r :: requests q' /\ queue_wf q'
  | (q', None) => q' = q /\ (t ∉ dispatch_cancel <$> requests q)
  end.
Proof.
  intros Hw. pose proof Hw as [Hh Hp Hd Hn]. unfold take_queued.
  destruct (prepared q !! t) as [r|] eqn:Hpt.
  { assert (requests q ≡ₚ r :: requests (q <| prepared ::= delete t |>)) as Hperm.
    { unfold requests. simpl. rewrite (values_delete _ _ _ Hpt). solve_Permutation. }
    split_and!; [by apply Hp|done|]. split; simpl; [done|by apply keyed_delete|done|].
    eapply tokens_uncons, tokens_perm; [exact Hperm|done]. }
  pose proof (heap_remove_spec (heap q) t Hh) as Hr.
  destruct (heap_remove (heap q) t) as [h [r|]].
  { destruct Hr as (Ht & Hpm & Hv).
    assert (requests q ≡ₚ r :: requests (q <| heap := h |>)) as Hperm.
    { unfold requests. simpl. rewrite Hpm. solve_Permutation. }
    split_and!; [done|done|]. split; simpl; [done|done|done|].
    eapply tokens_uncons, tokens_perm; [exact Hperm|done]. }
  destruct Hr as [-> Hno]. destruct (delayed q !! t) as [r|] eqn:Hdt.
  { assert (requests q ≡ₚ r :: requests (q <| heap := heap q; delayed ::= delete t |>)) as Hperm.
    { unfold requests. simpl. rewrite (values_delete _ _ _ Hdt). solve_Permutation. }
    split_and!; [by apply Hd|done|]. split; simpl; [done|done|by apply keyed_delete|].
    eapply tokens_uncons, tokens_perm; [exact Hperm|done]. }
  split.
  - destruct q; simpl in *. by rewrite delete_id.
  - rewrite <- queue_contains_spec by done. unfold queue_contains. rewrite Hpt, Hdt. simpl.
    rewrite !orb_false_r, (heap_contains_token q t Hh), list_elem_of_fmap.
    intros (r & -> & Hr). rewrite Forall_forall in Hno. by apply (Hno _ Hr).
Qed.

Lemma max_by_spec rs r :
  max_by rs = Some r -> r ∈ rs /\ forall r', r' ∈ rs -> item_gt r' r = false.
Proof.
  destruct rs as [|x rs]; [done|]. cbn [max_by]. intros [= <-].
  assert (forall x0, item_gt x0 x0 = false) as Hirr.
  { intros x0. apply item_gt_false. right. split; [done|lia]. }
  revert x. induction rs as [|y rs IH]; intros x; cbn [foldl].
  { split; [by left|]. intros r' ->%list_elem_of_singleton. apply Hirr. }
  set (b := if item_gt x y then x else y).
  destruct (IH b) as [Hin Hmax]. split.
  - apply elem_of_cons in Hin as [->|Hin]; [|by do 2 right]. subst b. destruct (item_gt x y); [left|right; left].
  - assert (item_gt b (foldl (fun best r => if item_gt best r then best else r) b rs) = false) as Hb
      by (apply Hmax; by left).
    assert (item_gt x b = false /\ item_gt y b = false) as [Hx Hy].
    { subst b. destruct (item_gt x y) eqn:E; [|by auto]. split; [done|]. by apply item_gt_asym. }
    intros r' Hr'. apply elem_of_cons in Hr' as [->|[->|Hr']%elem_of_cons].
    + by eapply item_le_trans.
    + by eapply item_le_trans.
    + apply Hmax. by right.
Qed.

(** The requests the writer may take at [now]. *)
Definition ready (cs : Controls) (now : Instant) q : list QueuedRequest :=
  items (heap q) ++ filter (fun r => due cs now r) (values (delayed q)).

Lemma heap_peek_max q r :
  heap_valid (heap q) -> peek (heap q) = Some r ->
  forall r', r' ∈ items (heap q) -> item_gt r' r = false.
Proof.
  intros Hv Hp. pose proof (heap_pop_spec (heap q) Hv) as H.
  destruct (heap_pop (heap q)) as [h [x|]].
  - destruct H as (Hp' & _ & Hm & _). by simplify_eq.
  - destruct H as [_ He]. unfold peek in Hp. by rewrite He in Hp.
Qed.

Lemma pop_ready_spec cs now q :
  queue_wf q ->
  match pop_ready cs now q with
  | (q', Some r) =>
      r ∈ ready cs now q /\ (forall r', r' ∈ ready cs now q -> item_gt r' r = false) /\
      requests q ≡ₚ r :: requests q' /\ queue_wf q' /\ task_slots q' = task_slots q /\
      byte_slots q' = byte_slots q
  | (q', None) => q' = q /\ ready cs now q = []
  end.
Proof.
  intros Hw. pose proof Hw as [Hh Hp Hd Hn]. unfold pop_ready.
  change ((map_to_list (delayed q)).*2) with (values (delayed q)).
  set (late := filter (fun r => due cs now r) (values (delayed q))).
  destruct (match max_by late with Some r => _ | None => None end) as [r|] eqn:Hch.
  - destruct (max_by late) as [r'|] eqn:Hm; [|done].
    destruct (is_none_or _ _) eqn:Hpk; [|done]. injection Hch as ->.
    destruct (max_by_spec _ _ Hm) as [Hin Hmax].
    assert (r ∈ values (delayed q)) as Hv by (by apply list_elem_of_filter in Hin as [_ ?]).
    apply keyed_lookup in Hv as Hl; [|done]. rewrite Hl.
    assert (requests q ≡ₚ r :: requests (q <| delayed ::= delete (dispatch_cancel r) |>)) as Hperm.
    { unfold requests. simpl. rewrite (values_delete _ _ _ Hl). solve_Permutation. }
    split_and!; try done.
    + apply elem_of_app. by right.
    + intros r' [Hr'|Hr']%elem_of_app; [|by apply Hmax].
      destruct (peek (heap q)) as [top|] eqn:Hpeek.
      * simpl in Hpk. eapply item_le_trans; [by eapply heap_peek_max|]. by apply item_gt_asym.
      * unfold peek in Hpeek. destruct (items (heap q)); [by apply not_elem_of_nil in Hr'|done].
    + split; simpl; [done|done|by apply keyed_delete|].
      eapply tokens_uncons, tokens_perm; [exact Hperm|done].
  - assert (forall top r', peek (heap q) = Some top -> r' ∈ late -> item_gt r' top = false) as Hlate.
    { intros top r' Hpk Hr'. destruct (max_by late) as [b|] eqn:Hm.
      - rewrite Hpk in Hch. simpl in Hch. destruct (item_gt b top) eqn:Hb; [done|].
        eapply item_le_trans; [by apply (max_by_spec _ _ Hm)|done].
      - destruct late; [by apply not_elem_of_nil in Hr'|done]. }
    pose proof (heap_pop_spec (heap q) Hh) as Hpop. destruct (heap_pop (heap q)) as [h [r|]].
    + destruct Hpop as (Hpk & Hpm & Hmax & Hv).
      assert (requests q ≡ₚ r :: requests (q <| heap := h |>)) as Hperm.
      { unfold requests. simpl. rewrite Hpm. solve_Permutation. }
      split_and!; try done.
      * apply elem_of_app. left. rewrite Hpm. by left.
      * intros r' [Hr'|Hr']%elem_of_app; [by apply Hmax|by eapply Hlate].
      * split; simpl; [done|done|done|]. eapply tokens_uncons, tokens_perm; [exact Hperm|done].
    + destruct Hpop as [-> He]. split; [by destruct q|]. unfold ready. rewrite He. simpl.
      fold late. destruct (max_by late) as [b|] eqn:Hm; [|by destruct late].
      unfold peek in Hch. by rewrite He in Hch.
Qed.

Lemma queue_drain_spec q :
  let '(q', rs) := queue_drain q in rs = requests q /\ requests q' = [] /\ queue_wf q' /\
    task_slots q' = task_slots q /\ byte_slots q' = byte_slots q.
Proof.
  unfold queue_drain, heap_drain. simpl. split_and!; try done.
  split; simpl; [|intros ? ? ?; by simplify_map_eq..|constructor].
  apply heap_new_valid.
Qed.

(** ** Loss of the connection *)

Lemma survives_detach cs r : survives cs (detach r) = survives cs r.
Proof. done. Qed.

Lemma detach_tokens (rs : list QueuedRequest) : dispatch_cancel <$> (detach <$> rs) = dispatch_cancel <$> rs.
Proof. rewrite <- list_fmap_compose. done. Qed.

(** What stays: the survivors for which there is memory. *)
Definition kept (reserve : QueuedRequest -> bool) (cs : Controls) (r : QueuedRequest) : bool := survives cs r && reserve r.

Lemma refill_heap_spec reserve cs h rs h' rejected :
  heap_valid h -> NoDup (dispatch_cancel <$> rs ++ items h) ->
  Z.of_nat (length rs + length (items h)) <= isize_max ->
  refill_heap reserve cs h rs = (h', rejected) ->
  heap_valid h' /\ items h' ≡ₚ (detach <$> filter (fun r => kept reserve cs r) rs) ++ items h /\
  dispatch_cancel <$> rejected = dispatch_cancel <$> filter (fun r => negb (kept reserve cs r)) rs.
Proof.
  revert h h' rejected. induction rs as [|r rs IH]; intros h h' rejected Hv Hn Hlen; cbn [refill_heap].
  { by intros [= <- <-]. }
  cbn [length] in Hlen.
  assert (forall h2 rest r', kept reserve cs r = false -> dispatch_cancel r' = dispatch_cancel r ->
    refill_heap reserve cs h rs = (h2, rest) -> heap_valid h2 /\
    items h2 ≡ₚ (detach <$> filter (fun r => kept reserve cs r) (r :: rs)) ++ items h /\
    dispatch_cancel <$> r' :: rest = dispatch_cancel <$> filter (fun r => negb (kept reserve cs r)) (r :: rs)) as Hout.
  { intros h2 rest r' Hk Hr' Hr. destruct (IH h h2 rest Hv (tokens_uncons _ _ Hn) ltac:(lia) Hr) as (Hv2 & Hp & Ht).
    rewrite filter_cons_False by (rewrite Hk; by intros []). rewrite filter_cons_True by (by rewrite Hk).
    split_and!; [done|done|]. by rewrite !fmap_cons, Hr', Ht. }
  destruct (survives cs r) eqn:Hs.
  2: { destruct (refill_heap reserve cs h rs) as [h2 rest] eqn:Hr. intros [= <- <-]. apply Hout; [|done|done].
       unfold kept. by rewrite Hs. }
  pose proof (heap_push_spec (reserve r) (reserve r) h (detach r) Hv ltac:(lia)) as Hpush.
  assert (heap_contains h (item_token (detach r)) = false) as Hfresh.
  { unfold heap_contains. destruct (positions h !! _) as [i|] eqn:Hi; [|done]. exfalso.
    destruct Hv as [[_ H2] _ _]. destruct (H2 _ _ Hi) as (x & Hx & Htx). simpl in Hn, Htx.
    apply NoDup_cons in Hn as [Hn _]. apply Hn. rewrite fmap_app, elem_of_app. right.
    apply list_elem_of_fmap. exists x. split; [done|]. by eapply list_elem_of_lookup_2. }
  destruct (heap_push (reserve r) (reserve r) h (detach r)) as [h1 [u|r1]].
  - destruct Hpush as (Hres & _ & _ & Hpm & Hv1).
    destruct (refill_heap reserve cs h1 rs) as [h2 rest] eqn:Hr. intros [= <- <-].
    destruct (IH h1 h2 rest Hv1) as (Hv2 & Hp & Ht); [| |done|].
    + assert (dispatch_cancel <$> rs ++ items h1 ≡ₚ dispatch_cancel <$> (r :: rs) ++ items h) as ->.
      { rewrite !fmap_app, Hpm, !fmap_cons. by rewrite <- Permutation_middle. }
      exact Hn.
    + assert (length (items h1) = S (length (items h))) as -> by (by rewrite Hpm). lia.
    + assert (kept reserve cs r = true) as Hk by (unfold kept; by rewrite Hs, Hres).
      split; [done|]. rewrite filter_cons_True by (by rewrite Hk).
      rewrite filter_cons_False by (rewrite Hk; by intros []). simpl. split; [|done].
      rewrite Hp, Hpm. by rewrite <- Permutation_middle.
  - destruct Hpush as (-> & -> & Hwhy).
    assert (reserve r = false) as Hres by (destruct Hwhy as [?|[?|?]]; congruence).
    destruct (refill_heap reserve cs h rs) as [h2 rest] eqn:Hr. intros [= <- <-]. apply Hout; [|done|done].
    unfold kept. by rewrite Hs, Hres.
Qed.

Lemma values_filter (f : QueuedRequest -> bool) m :
  values (filter (fun '(_, r) => f r) m) ≡ₚ filter (fun r => f r) (values m).
Proof.
  induction m as [|t r m Hm IH] using map_ind; [done|]. rewrite (values_insert _ _ _ Hm).
  destruct (f r) eqn:Hf.
  - rewrite map_filter_insert_True by (by rewrite Hf).
    rewrite filter_cons_True by (by rewrite Hf). rewrite values_insert, IH; [done|].
    apply map_lookup_filter_None. by left.
  - rewrite map_filter_insert_False by (rewrite Hf; by intros []).
    rewrite filter_cons_False by (rewrite Hf; by intros []). by rewrite delete_id.
Qed.

Lemma values_fmap (g : QueuedRequest -> QueuedRequest) m : values (g <$> m) = g <$> values m.
Proof.
  unfold values. rewrite map_to_list_fmap, <- !list_fmap_compose. apply list_fmap_ext.
  by intros ? [? ?] _.
Qed.

Lemma retain_map_spec reserve cs m m' rejected :
  keyed m -> retain_map reserve cs m = (m', rejected) ->
  keyed m' /\ values m' ≡ₚ detach <$> filter (fun r => kept reserve cs r) (values m) /\
  rejected = filter (fun r => negb (kept reserve cs r)) (values m).
Proof.
  intros Hk. unfold retain_map. intros [= <- <-]. fold (values m). split_and!; [|by rewrite values_fmap, (values_filter (kept reserve cs))|done].
  intros t r. rewrite lookup_fmap, fmap_Some. intros (r' & [Hr' _]%map_lookup_filter_Some & ->). by apply (Hk t r').
Qed.

Lemma tokens_filter (f : QueuedRequest -> bool) (l : list QueuedRequest) :
  NoDup (dispatch_cancel <$> l) -> NoDup (dispatch_cancel <$> filter (fun r => f r) l).
Proof.
  induction l as [|r l IH]; [done|]. rewrite fmap_cons. intros [Hr Hl]%NoDup_cons.
  destruct (f r) eqn:Hf.
  - rewrite filter_cons_True by (by rewrite Hf). rewrite fmap_cons. constructor; [|by apply IH].
    intros (r' & Heq & [_ Hr']%list_elem_of_filter)%list_elem_of_fmap. apply Hr.
    rewrite Heq. apply list_elem_of_fmap. by exists r'.
  - rewrite filter_cons_False by (rewrite Hf; by intros []). by apply IH.
Qed.

(** What stays and what is returned when the connection is lost. *)
Lemma drain_rejected_spec reserve cs q q' rejected :
  queue_wf q -> Z.of_nat (length (requests q)) <= isize_max ->
  drain_rejected reserve cs q = (q', rejected) ->
  queue_wf q' /\ task_slots q' = task_slots q /\ byte_slots q' = byte_slots q /\
  requests q' ≡ₚ detach <$> filter (fun r => kept reserve cs r) (requests q) /\
  dispatch_cancel <$> rejected = dispatch_cancel <$> filter (fun r => negb (kept reserve cs r)) (requests q).
Proof.
  intros [Hh Hp Hd Hn] Hlen. unfold drain_rejected.
  change (heap_drain (heap q)) with (heap_new (R := QueuedRequest), items (heap q)). cbn beta iota.
  set (h0 := heap_new). destruct (refill_heap reserve cs h0 (items (heap q))) as [h rh] eqn:Hrh.
  destruct (retain_map reserve cs (prepared q)) as [p rp] eqn:Hrp.
  destruct (retain_map reserve cs (delayed q)) as [d rd] eqn:Hrd. intros [= <- <-].
  assert (heap_valid h0) as Hv0 by apply heap_new_valid.
  pose proof Hn as Hn0. unfold requests in Hn0, Hlen. rewrite !length_app in Hlen.
  destruct (refill_heap_spec reserve cs h0 (items (heap q)) h rh Hv0) as (Hv & H1 & R1); [| |done|].
  { simpl. rewrite (right_id_L [] (++)). rewrite fmap_app in Hn0. by apply NoDup_app in Hn0 as [? _]. }
  { simpl. lia. }
  destruct (retain_map_spec _ _ _ _ _ Hp Hrp) as (Hkp & H2 & ->).
  destruct (retain_map_spec _ _ _ _ _ Hd Hrd) as (Hkd & H3 & ->).
  assert (items h ++ values p ++ values d ≡ₚ detach <$> filter (fun r => kept reserve cs r) (requests q)) as Hperm.
  { unfold requests. rewrite !filter_app, !fmap_app, H1, H2, H3. simpl. by rewrite (right_id_L [] (++)). }
  split_and!; [|done|done|done|unfold requests; by rewrite !filter_app, !fmap_app, R1].
  split; [done..|]. unfold requests at 1. simpl. rewrite Hperm, detach_tokens. by apply tokens_filter.
Qed.

(** ** Whole runs *)

Definition tokens (rs : list QueuedRequest) : list Token := dispatch_cancel <$> rs.

Lemma filter_split (f : QueuedRequest -> bool) (l : list QueuedRequest) :
  filter (fun r => negb (f r)) l ++ filter (fun r => f r) l ≡ₚ l.
Proof.
  induction l as [|r l IH]; [done|]. destruct (f r) eqn:Hf.
  - rewrite filter_cons_False by (rewrite Hf; by intros []).
    rewrite filter_cons_True by (by rewrite Hf). by rewrite <- Permutation_middle, IH.
  - rewrite filter_cons_True by (by rewrite Hf).
    rewrite filter_cons_False by (rewrite Hf; by intros []). simpl. by rewrite IH.
Qed.

Lemma queue_step_spec id cs env now q op cs' q' accepted out :
  queue_wf q -> Z.of_nat (length (requests q)) < isize_max ->
  queue_step id cs env now q op = (cs', q', accepted, out) ->
  queue_wf q' /\ tokens accepted ++ tokens (requests q) ≡ₚ tokens out ++ tokens (requests q') /\
  (length (requests q') <= S (length (requests q)))%nat.
Proof.
  intros Hw Hlen Hs. unfold tokens.
  assert (forall l l' : list QueuedRequest, dispatch_cancel <$> l ≡ₚ dispatch_cancel <$> l' ->
    length l = length l') as Hl.
  { intros l l' H%Permutation_length. by rewrite !length_fmap in H. }
  destruct op as [bytes|reserve r to_p|reserve t|t| | |reserve|]; cbn [queue_step] in Hs.
  - injection Hs as <- <- <- <-. rewrite try_reserve_requests.
    split; [by apply try_reserve_wf|]. split; [done|lia].
  - pose proof (queue_push_spec reserve cs env now q r to_p Hw Hlen) as Hp.
    destruct (queue_push _ _ _ _ _ _ _) as [[cs1 q1] [u|[r' e]]]; injection Hs as <- <- <- <-.
    + destruct Hp as (Hp & Hw' & _). split; [done|]. rewrite Hp. split; [done|simpl; lia].
    + destruct Hp as [-> ->]. split; [done|]. split; [done|lia].
  - pose proof (queue_commit_spec reserve cs env now q t Hw ltac:(lia)) as Hp.
    destruct (queue_commit _ _ _ _ _ _) as [[cs1 q1] [u|[[r|] e]]]; injection Hs as <- <- <- <-.
    + destruct Hp as [Hp Hw']. split; [done|]. rewrite Hp. split; [done|lia].
    + destruct Hp as [Hp Hw']. split; [done|]. rewrite Hp. split; [done|simpl; lia].
    + subst q1. split; [done|]. split; [done|lia].
  - pose proof (take_queued_spec q t Hw) as Ht. destruct (take_queued q t) as [q1 [r|]];
      injection Hs as <- <- <- <-.
    + destruct Ht as (_ & Hp & Hw'). split; [done|]. rewrite Hp. split; [done|simpl; lia].
    + destruct Ht as [-> _]. split; [done|]. split; [done|lia].
  - pose proof (pop_ready_spec cs now q Hw) as Ht. destruct (pop_ready cs now q) as [q1 [r|]];
      injection Hs as <- <- <- <-.
    + destruct Ht as (_ & _ & Hp & Hw' & _). split; [done|]. rewrite Hp. split; [done|simpl; lia].
    + destruct Ht as [-> _]. split; [done|]. split; [done|lia].
  - pose proof (queue_drain_spec q) as Hd. destruct (queue_drain q) as [q1 rs].
    injection Hs as <- <- <- <-. destruct Hd as (-> & He & Hw' & _). split; [done|].
    rewrite He. simpl. rewrite (right_id_L [] (++)). split; [done|lia].
  - destruct (drain_rejected reserve cs q) as [q1 rs] eqn:Hd. injection Hs as <- <- <- <-.
    apply drain_rejected_spec in Hd as (Hw' & _ & _ & Hk & Ht); [|done|lia]. split; [done|].
    assert (dispatch_cancel <$> requests q ≡ₚ (dispatch_cancel <$> rs) ++
      (dispatch_cancel <$> requests q1)) as Hperm.
    { by rewrite Hk, Ht, detach_tokens, <- fmap_app, filter_split. }
    split; [exact Hperm|]. rewrite <- fmap_app in Hperm. apply Hl in Hperm.
    rewrite length_app in Hperm. lia.
  - injection Hs as <- <- <- <-. destruct Hw as [? ? ? ?]. split; [by split|]. split; [done|].
    unfold requests. simpl. lia.
Qed.

Lemma queue_run_spec id cs q ops cs' q' accepted out :
  queue_wf q -> Z.of_nat (length (requests q) + length ops) <= isize_max ->
  queue_run id cs q ops = (cs', q', accepted, out) ->
  queue_wf q' /\ tokens accepted ++ tokens (requests q) ≡ₚ tokens out ++ tokens (requests q').
Proof.
  revert cs q cs' q' accepted out.
  induction ops as [|[[env now] op] ops IH]; intros cs q cs' q' accepted out Hw Hlen;
    cbn [queue_run length] in *; [by intros [= <- <- <- <-]|].
  destruct (queue_step id cs env now q op) as [[[cs1 q1] acc1] out1] eqn:Hs.
  destruct (queue_step_spec _ _ _ _ _ _ _ _ _ _ Hw ltac:(lia) Hs) as (Hw1 & Hp1 & Hl1).
  destruct (queue_run id cs1 q1 ops) as [[[cs2 q2] acc2] out2] eqn:Hr. intros [= <- <- <- <-].
  destruct (IH _ _ _ _ _ _ Hw1 ltac:(lia) Hr) as [Hw2 Hp2]. split; [done|].
  unfold tokens in *. rewrite !fmap_app, <- !(assoc_L (++)), <- Hp2.
  rewrite (Permutation_app_swap_app (dispatch_cancel <$> out1)), <- Hp1. solve_Permutation.
Qed.

Lemma queue_new_wf max_permits tasks bytes q :
  queue_new max_permits tasks bytes = Ok q -> queue_wf q /\ requests q = [].
Proof.
  unfold queue_new. destruct (limit_validate _ _ _ _ _); [|done]. simpl. intros [= <-].
  split; [|done]. split; simpl; [apply heap_new_valid|intros ? ? ?; by simplify_map_eq..|constructor].
Qed.

(** C11.  The queue neither loses nor duplicates a request.  For any sequence of
    calls on a new queue, commits of prepared requests included (at most as many
    calls as a [Vec] can hold), the dispatch tokens
    offered to it are exactly the tokens it has handed out or refused plus the
    tokens it holds, and it holds no token twice, so a request is in at most one
    of the prepared, ready and delayed containers. *)
Theorem queue_conserves_requests max_permits tasks bytes q0 id cs ops :
  queue_new max_permits tasks bytes = Ok q0 -> Z.of_nat (length ops) <= isize_max ->
  let '(_, q, accepted, out) := queue_run id cs q0 ops in
  tokens accepted ≡ₚ tokens out ++ tokens (requests q) /\
  NoDup (tokens (requests q)) /\ heap_validb (heap q) = true.
Proof.
  intros [Hw He]%queue_new_wf Hlen.
  destruct (queue_run id cs q0 ops) as [[[cs' q] accepted] out] eqn:Hr.
  assert (Z.of_nat (length (requests q0) + length ops) <= isize_max) as Hl by (by rewrite He).
  destruct (queue_run_spec _ _ _ _ _ _ _ _ Hw Hl Hr) as [Hw' Hp].
  rewrite He in Hp. unfold tokens at 2 in Hp. simpl in Hp. rewrite (right_id_L [] (++)) in Hp.
  split; [done|]. split; [apply Hw'|]. apply heap_validb_spec. split; apply (wf_heap _ Hw').
Qed.

(** The writer gets the best request that is ready.  In a well-formed queue
    [pop_ready] hands out a request exactly when one is ready (in the heap, or
    delayed and due); it has the highest priority among the ready requests and,
    within that priority, the lowest sequence number; and nothing else changes. *)
Theorem next_request_is_best cs now q :
  queue_wf q ->
  match pop_ready cs now q with
  | (q', Some r) =>
      r ∈ ready cs now q /\ requests q ≡ₚ r :: requests q' /\
      forall r', r' ∈ ready cs now q ->
        priority_rank (priority (config r')) < priority_rank (priority (config r)) \/
        (priority_rank (priority (config r')) = priority_rank (priority (config r)) /\
         sequence r <= sequence r')
  | (q', None) => q' = q /\ ready cs now q = []
  end.
Proof.
  intros Hw. pose proof (pop_ready_spec cs now q Hw) as H.
  destruct (pop_ready cs now q) as [q' [r|]]; [|done]. destruct H as (Hin & Hmax & Hp & _).
  split; [done|]. split; [done|]. intros r' Hr'. specialize (Hmax _ Hr').
  apply item_gt_false in Hmax. lia.
Qed.

(** ** Capacity *)

Context {laws : SemaphoreLaws}.

Lemma try_acquire_spec s n :
  match try_acquire_many s n with
  | Ok s' => sem_closed s = false /\ available s' = available s - n /\ sem_closed s' = false /\
             n <= available s
  | Err e => if sem_closed s then e = TryAcquireError.Closed
             else e = TryAcquireError.NoPermits /\ available s < n
  end.
Proof.
  destruct (sem_closed s) eqn:Hc; [by rewrite acquire_closed|].
  destruct (Z.le_gt_cases n (available s)) as [Hle|Hgt].
  - destruct (acquire_ok s n Hc Hle) as (s' & -> & Ha & Hcl). done.
  - by rewrite acquire_empty.
Qed.

(** A reservation is exact and all or nothing.  It succeeds exactly when the
    queue is open, the message fits the byte allowance at all, and one slot and
    the bytes of the message (at least one) are available; it then takes just
    these.  When it fails both semaphores keep their permits, and the error says
    whether the message can never fit, the queue is closed or it is full. *)
Theorem try_reserve_exact id q bytes :
  0 <= bytes -> 0 < max_bytes q < 2 ^ 32 -> sem_closed (task_slots q) = sem_closed (byte_slots q) ->
  let n := Z.max bytes 1 in
  let '(q', res) := try_reserve id q bytes in
  match res with
  | Ok (slot, byte) =>
      n <= max_bytes q /\ 1 <= available (task_slots q) /\ n <= available (byte_slots q) /\
      sem_closed (task_slots q) = false /\ slot = mkPermit id 1 /\ byte = mkPermit id n /\
      available (task_slots q') = available (task_slots q) - 1 /\
      available (byte_slots q') = available (byte_slots q) - n
  | Err e =>
      available (task_slots q') = available (task_slots q) /\
      available (byte_slots q') = available (byte_slots q) /\
      e = (if max_bytes q <? n then NetError_new ErrorKind.ItemTooLarge
           else NetError_new (if sem_closed (task_slots q) then ErrorKind.QueueClosed
                              else ErrorKind.QueueFull)) /\
      (max_bytes q < n \/ sem_closed (task_slots q) = true \/
       available (task_slots q) < 1 \/ available (byte_slots q) < n)
  end.
Proof.
  intros Hb Hm Hcl n. unfold try_reserve, byte_count. fold n.
  destruct (Z.ltb_spec (max_bytes q) n) as [Hlt|Hle]; [simpl; auto|].
  rewrite Z.mod_small by lia.
  pose proof (try_acquire_spec (task_slots q) 1) as Ht.
  destruct (try_acquire_many (task_slots q) 1) as [ts|e1].
  2: { destruct (sem_closed (task_slots q)); [subst e1|destruct Ht as [-> Ht]]; simpl; auto 10. }
  destruct Ht as (Ho & Hts & Htc & Hta). rewrite Ho in *.
  pose proof (try_acquire_spec (byte_slots q) n) as Hbs. rewrite <- Hcl in Hbs.
  destruct (try_acquire_many (byte_slots q) n) as [bs|e2].
  - destruct Hbs as (_ & Hbs & _ & Hba). simpl. split_and!; try done; lia.
  - destruct Hbs as [-> Hba]. simpl. rewrite release_available. split_and!; try done; [lia|auto].
Qed.

End Theory.

(** ** Concrete instances *)

(** A counting semaphore, the documented behaviour as a definition. *)
Definition counting_semaphores : Semaphores :=
  {| Sem := Z * bool; sem_new n := (n, false); available := fst; sem_closed := snd;
     try_acquire_many s n :=
       if s.2 then Err TryAcquireError.Closed
       else if s.1 <? n then Err TryAcquireError.NoPermits else Ok (s.1 - n, false);
     sem_release s n := (s.1 + n, s.2); sem_close s := (s.1, true) |}.

Lemma counting_laws : @SemaphoreLaws counting_semaphores.
Proof.
  split; simpl; try done.
  - by intros [? ?] n ->.
  - intros [a b] n; simpl; intros -> H. by rewrite (proj2 (Z.ltb_lt a n)).
  - intros [a b] n; simpl; intros -> H. exists (a - n, false).
    by rewrite (proj2 (Z.ltb_ge a n)) by lia.
Qed.

Definition sample_queue : @PriorityWriteQueue counting_semaphores :=
  @mkPriorityWriteQueue counting_semaphores heap_new ∅ ∅ false (4, false) (100, false) 100.

Definition sample_queued_request (t : Token) (p : Priority) (seq : Z) (at_ : option Instant) :
    QueuedRequest :=
  {| qr_registration := None; message := Message.Text "m"; config := SendOptions_default <| priority := p |>;
     attempt := 0; ready_at := at_; dispatch_cancel := t; dispatch_phase := t;
     admission_cancel := None; sequence := seq; slot_permit := None; byte_permit := None;
     completed := false; qr_retirement := None |}.

(** Two normal requests, an urgent one delayed until 10, and the connection lost. *)
Definition sample_queue_ops : list (Env * Instant * QueueOp) :=
  [(sample_env, 5, QPush true (sample_queued_request 1 Priority.Normal 1 None) false);
   (sample_env, 5, QPush true (sample_queued_request 2 Priority.Normal 2 None) false);
   (sample_env, 5, QPush true (sample_queued_request 2 Priority.High 2 None) false);
   (sample_env, 5, QPush true (sample_queued_request 3 Priority.High 3 (Some 10)) false);
   (sample_env, 6, QPop); (sample_env, 7, QTake 9)].

Definition sample_queue_run := queue_run (sem := counting_semaphores) 1 ∅ sample_queue sample_queue_ops.

Lemma queue_conserves_requests_witness :
  let '(_, q, accepted, out) := sample_queue_run in
  tokens out = [2%positive; 1%positive] /\ tokens accepted ≡ₚ tokens out ++ tokens (requests q).
Proof.
  pose proof (queue_conserves_requests (sem := counting_semaphores) 1000 4 100 sample_queue 1 ∅
    sample_queue_ops eq_refl ltac:(vm_compute; discriminate)) as H. fold sample_queue_run in H.
  assert (let '(_, _, _, out) := sample_queue_run in tokens out = [2%positive; 1%positive]) as H0
    by (vm_compute; reflexivity).
  destruct sample_queue_run as [[[cs q] acc] out]. destruct H as [H _]. split; [exact H0|exact H].
Defined.

Definition sample_waiting : @PriorityWriteQueue counting_semaphores := sample_queue_run.1.1.2.

Lemma sample_waiting_wf : queue_wf sample_waiting.
Proof.
  destruct (queue_new_wf (sem := counting_semaphores) 1000 4 100 sample_queue eq_refl) as [Hw He].
  unfold sample_waiting. destruct sample_queue_run as [[[cs q] acc] out] eqn:Hr.
  apply (queue_run_spec (sem := counting_semaphores) _ _ _ _ _ _ _ _ Hw) in Hr as [Hw' _]; [done|].
  vm_compute. discriminate.
Qed.

(** At 12 the delayed urgent request is due and goes first. *)
Lemma next_request_is_best_witness :
  match pop_ready (sem := counting_semaphores) ∅ 12 sample_waiting with
  | (q', Some r) => dispatch_cancel r = 3%positive /\
      forall r', r' ∈ ready ∅ 12 sample_waiting ->
        priority_rank (priority (config r')) <= priority_rank (priority (config r))
  | _ => False
  end.
Proof.
  pose proof (next_request_is_best (sem := counting_semaphores) ∅ 12 sample_waiting sample_waiting_wf) as H.
  assert (dispatch_cancel <$> (pop_ready (sem := counting_semaphores) ∅ 12 sample_waiting).2 =
    Some 3%positive) as H0 by (vm_compute; reflexivity).
  destruct (pop_ready ∅ 12 sample_waiting) as [q' [r|]]; [|discriminate H0].
  injection H0 as H0. split; [exact H0|]. intros r' Hr'. destruct H as (_ & _ & H).
  specialize (H r' Hr'). lia.
Defined.

Lemma try_reserve_exact_witness :
  available (task_slots (try_reserve (sem := counting_semaphores) 1 sample_queue 30).1) = 3 /\
  available (byte_slots (try_reserve (sem := counting_semaphores) 1 sample_queue 30).1) = 70.
Proof.
  pose proof (try_reserve_exact (sem := counting_semaphores) (laws := counting_laws) 1 sample_queue 30
    ltac:(lia) ltac:(simpl; lia) eq_refl) as H. vm_compute in H.
  destruct H as (_ & _ & _ & _ & _ & _ & H1 & H2). split; [exact H1|exact H2].
Defined.
