(* ===== verification/Termination.v ===== *)
(** * Ending operations: publications, queue retirement and the response table
      (src/module/ws_client/operation_control.rs, native_pending.rs,
       write/queued_request.rs, write/priority_write_queue.rs)

    The components meet when an operation ends: its publication retires the
    queued request, which ends the operation through the response table, whose
    completion publishes in turn.  [World] holds the shared objects the [Arc]s
    and [Weak]s of the code refer to; upgrading a [Weak] is a lookup.  Every
    function is a call of the code with the side effects it runs after its
    locks are released.

    A publication can retire a request and so lead to further publications;
    [publication_dispatch] carries fuel, and [dispatch] supplies one more than
    the number of queued requests, which is enough because every nested
    publication has taken a request out of a queue ([dispatch_fuel_enough]). *)

From S2P Require Import Prelude F64 Backoff RetrySchedule RetryState Errors WsRetry WsOptions Cancellation WsTask IndexedHeap OperationControl NativePending PriorityWriteQueue.

(** ** The shared objects *)

(** A capacity lease of the response table: its owners and whether it still
    holds its permit. *)
Record PendingLease := mkPendingLease { holders : nat; holds : bool }.

(** What leaves the client. *)
Inductive Output :=
| OutTask (r : ReservationId) (e : TaskEvent)
| OutResponse (s : SenderId) (r : Result Response NetError)
| OutRetry (o : ObserverId) (e : RetryEvent)
| OutWakeTable (t : TableId)
| OutWakeQueue (q : QueueId).

Section World.
Context {sem : Semaphores}.

Record World := mkWorld {
  controls : Controls;
  tables : gmap TableId NativePending;
  queues : gmap QueueId PriorityWriteQueue;
  env : Env;
  slots : Sem;
  leases : gmap LeaseId PendingLease;
  hook_owner : gmap HookId OpRef;
  outputs : list Output;
}.

#[export] Instance World_settable : Settable World :=
  fields! mkWorld [ controls; tables; queues; env; slots; leases; hook_owner; outputs ].

Definition emit (w : World) (o : Output) : World := w <| outputs ::= fun l => l ++ [o] |>.

(** ** Permits and leases *)

Definition drop_slot_permit (w : World) (p : option Permit) : World :=
  match p with
  | Some p => w <| queues ::= alter (fun q => q <| task_slots ::= fun s => sem_release s (permit_count p) |>)
                                (permit_queue p) |>
  | None => w
  end.

Definition drop_byte_permit (w : World) (p : option Permit) : World :=
  match p with
  | Some p => w <| queues ::= alter (fun q => q <| byte_slots ::= fun s => sem_release s (permit_count p) |>)
                                (permit_queue p) |>
  | None => w
  end.

(** [drop((self.slot_permit.take(), self.byte_permit.take()))] *)
Definition drop_permits (w : World) (r : QueuedRequest) : World * QueuedRequest :=
  (drop_byte_permit (drop_slot_permit w (slot_permit r)) (byte_permit r),
   r <| slot_permit := None; byte_permit := None |>).

(** [PendingLease::release] *)
Definition lease_release (w : World) (l : LeaseId) : World :=
  match leases w !! l with
  | Some lease =>
      if holds lease
      then w <| leases := <[l := mkPendingLease (holders lease) false]> (leases w);
                slots ::= fun s => sem_release s 1 |>
      else w
  | None => w
  end.

(** Dropping one owner; the last one returns the permit. *)
Definition drop_lease (w : World) (l : LeaseId) : World :=
  match leases w !! l with
  | Some lease =>
      if (1 <? holders lease)%nat
      then w <| leases := <[l := mkPendingLease (holders lease - 1) (holds lease)]> (leases w) |>
      else
        let w := lease_release w l in w <| leases := delete l (leases w) |>
  | None => w
  end.

(** ** Publications *)

Definition cancel_world_token (w : World) (t : option Token) : World :=
  match t with Some t => w <| env := cancel_token (env w) t |> | None => w end.

(** [OperationPublication::dispatch] after the queue has been served. *)
Definition publish_rest (w : World) (p : OperationPublication) : World :=
  let w := match pub_hook p with
           | Some (n, h) =>
               w <| env := mkEnv (drop_hook_guard (env_trees (env w)) n h) (env_tokens (env w)) |>
           | None => w
           end in
  let w := cancel_world_token w (pub_retirement p) in
  let w := cancel_world_token w (pub_cancelled p) in
  let w := match task p with Some (r, ev) => emit w (OutTask r ev) | None => w end in
  let w := cancel_world_token w (pub_written p) in
  match pub_retry p with
  | Some (o, attempt, done) =>
      let w := match attempt with Some ev => emit w (OutRetry o ev) | None => w end in
      emit w (OutRetry o done)
  | None => w
  end.

(** [Completion::dispatch], given how to dispatch a publication. *)
Definition completion_dispatch (publish : World -> OperationPublication -> option World)
    (w : World) (c : Completion) : option World :=
  let w := drop_lease w (permit (cmp_entry c)) in
  w ← publish w (cmp_publication c);
  Some (emit w (OutResponse (response_sender (cmp_entry c)) (cmp_response c))).

Definition effect_dispatch (publish : World -> OperationPublication -> option World)
    (w : World) (e : Effect) : option World :=
  match e with
  | EffComplete c => completion_dispatch publish w c
  | EffPublish p => publish w p
  | EffCancel t => Some (w <| env := cancel_token (env w) t |>)
  | EffNotify t => Some (emit w (OutWakeTable t))
  | EffDropLease l => Some (drop_lease w l)
  end.

Fixpoint effects_dispatch (publish : World -> OperationPublication -> option World)
    (w : World) (es : list Effect) : option World :=
  match es with
  | [] => Some w
  | e :: es => w ← effect_dispatch publish w e; effects_dispatch publish w es
  end.

(** [OperationControl::prepare_termination] *)
Definition prepare_termination (w : World) (now : Instant) (r : OpRef) (error : NetError)
    (cause : TaskEndCause) : World * DeferredTermination :=
  match controls w !! r ≫= fun c => pending_identity (state c) with
  | Some who =>
      match tables w !! pi_table who with
      | Some table =>
          let '(cs, table, deferred) :=
            table_prepare_termination (controls w) now table (pi_id who) (pi_token who)
              error cause (Some r) in
          (w <| controls := cs; tables ::= <[pi_table who := table]> |>,
           deferred <| def_pending := Some (pi_table who) |>)
      | None =>
          let '(cs, _, publication) :=
            core_select_failure (controls w) now r (NetError_new ErrorKind.EngineDropped)
              TaskEndCause.Shutdown in
          (w <| controls := cs |>,
           deferred_default <| def_publication := Some publication;
                               def_retired_error := Some error |>)
      end
  | None =>
      let '(cs, o, publication) := core_select_failure (controls w) now r error cause in
      (w <| controls := cs |>,
       deferred_default <| outcome := Some o; def_publication := Some publication |>)
  end.

Definition retirement_cause (error : NetError) : TaskEndCause :=
  match kind error with
  | ErrorKind.Cancelled => TaskEndCause.Cancelled
  | ErrorKind.TimedOut => TaskEndCause.Expired
  | ErrorKind.Closed | ErrorKind.NotConnected => TaskEndCause.Disconnected
  | ErrorKind.EngineDropped => TaskEndCause.Shutdown
  | _ => TaskEndCause.Failed
  end.

(** [QueuedRequest::prepare_retirement] *)
Definition prepare_retirement (w : World) (now : Instant) (r : QueuedRequest) (error : NetError) :
    World * QueuedRequest :=
  if is_none (qr_retirement r) && negb (completed r) then
    let '(w, deferred) :=
      prepare_termination w now (dispatch_phase r) error (retirement_cause error) in
    (w, r <| qr_retirement := Some deferred |>)
  else (w, r).

(** [QueuedRequest::dispatch_retirement] *)
Definition dispatch_retirement (publish : World -> OperationPublication -> option World)
    (w : World) (r : QueuedRequest) : option (World * QueuedRequest) :=
  match qr_retirement r with
  | Some retirement =>
      let r := r <| qr_retirement := None; completed := true |> in
      let '(w, r) := drop_permits w r in
      w ← effects_dispatch publish w (deferred_effects retirement);
      Some (w, r)
  | None => Some (w, r)
  end.

(** [OperationControl::terminate] *)
Definition terminate_with (publish : World -> OperationPublication -> option World)
    (w : World) (now : Instant) (r : OpRef) (error : NetError) (cause : TaskEndCause) :
    option (World * Result TerminationOutcome NetError) :=
  match controls w !! r ≫= fun c => pending_identity (state c) with
  | Some who =>
      match tables w !! pi_table who with
      | Some table =>
          let '(cs, table, res, effects) :=
            table_terminate (controls w) now table (pi_id who) (pi_token who)
              error cause in
          w ← effects_dispatch publish
                (w <| controls := cs; tables ::= <[pi_table who := table]> |>) effects;
          Some (w, res)
      | None =>
          let '(cs, o, publication) := core_select_failure (controls w) now r error cause in
          w ← publish (w <| controls := cs |>) publication;
          Some (w, Ok o)
      end
  | None =>
      let '(cs, o, publication) := core_select_failure (controls w) now r error cause in
      w ← publish (w <| controls := cs |>) publication;
      Some (w, Ok o)
  end.

(** Dropping a request: a completed one only returns what it still holds. *)
Definition drop_request_with (publish : World -> OperationPublication -> option World)
    (w : World) (now : Instant) (r : QueuedRequest) : option World :=
  let '(w, r) := drop_permits w r in
  if completed r then Some w
  else
    '(w, _) ← terminate_with publish w now (dispatch_phase r)
                (NetError_new ErrorKind.EngineDropped) TaskEndCause.Shutdown;
    Some w.

(** [PriorityWriteQueue::cancel_queued_with_error] *)
Definition cancel_queued_with (publish : World -> OperationPublication -> option World)
    (w : World) (now : Instant) (id : QueueId) (token : Token) (error : NetError) :
    option (World * bool) :=
  match queues w !! id with
  | None => Some (w, false)
  | Some q =>
      let '(q, removed) := take_queued q token in
      let w := w <| queues ::= <[id := q]> |> in
      match removed with
      | None => Some (w, false)
      | Some r =>
          let '(w, r) := prepare_retirement w now r error in
          '(w, r) ← dispatch_retirement publish w r;
          w ← drop_request_with publish w now r;
          Some (w, true)
      end
  end.

(** [OperationPublication::dispatch]; no answer when the fuel is spent. *)
Fixpoint publication_dispatch (fuel : nat) (now : Instant) (w : World) (p : OperationPublication) :
    option World :=
  match pub_queue p with
  | Some (Some id, token, error) =>
      match fuel with
      | O => None
      | S fuel =>
          '(w, _) ← cancel_queued_with (publication_dispatch fuel now) w now id token error;
          Some (publish_rest w p)
      end
  | _ => Some (publish_rest w p)
  end.

(** The requests of all queues. *)
Definition all_requests (w : World) : list QueuedRequest :=
  mjoin (requests <$> (map_to_list (queues w)).*2).

Definition queued (w : World) : nat := length (all_requests w).

Definition dispatch_fuel (w : World) : nat := S (queued w).

(** The dispatch of the program: the fuel is always enough. *)
Definition dispatch (now : Instant) (w : World) (p : OperationPublication) : option World :=
  publication_dispatch (dispatch_fuel w) now w p.

(** ** Calls *)

Definition publisher (now : Instant) (w : World) : World -> OperationPublication -> option World :=
  publication_dispatch (dispatch_fuel w) now.

Definition terminate (w : World) (now : Instant) (r : OpRef) (error : NetError)
    (cause : TaskEndCause) : option (World * Result TerminationOutcome NetError) :=
  terminate_with (publisher now w) w now r error cause.

(** [OperationControl::cancel] *)
Definition cancel (w : World) (now : Instant) (r : OpRef) :
    option (World * Result TerminationOutcome NetError) :=
  terminate w now r (NetError_new ErrorKind.Cancelled) TaskEndCause.Cancelled.

(** [OperationControl::expire] *)
Definition expire (w : World) (now : Instant) (r : OpRef) :
    option (World * Result TerminationOutcome NetError) :=
  match controls w !! r with
  | Some c => terminate w now r (deadline_error c) TaskEndCause.Expired
  | None => Some (w, Ok TerminationOutcome.AlreadyFinished)
  end.

Definition cancel_queued_with_error (w : World) (now : Instant) (id : QueueId) (token : Token)
    (error : NetError) : option (World * bool) :=
  cancel_queued_with (publisher now w) w now id token error.

(** The table calls together with their effects. *)
Definition with_table (w : World) (now : Instant) (t : TableId)
    (call : Controls -> NativePending -> Controls * NativePending * list Effect) : option World :=
  match tables w !! t with
  | Some table =>
      let '(cs, table, effects) := call (controls w) table in
      effects_dispatch (publisher now w) (w <| controls := cs; tables ::= <[t := table]> |>) effects
  | None => Some w
  end.

Section Calls.
Context {clk : Clock} {libm : Libm}.

(** [OperationControl::start_data_write], the refresh of a due response included. *)
Definition start_data_write (w : World) (now : Instant) (r : OpRef) (continuation : bool) :
    option (World * Result bool NetError * list (ObserverId * RetryEvent)) :=
  match controls w !! r with
  | None => Some (w, Ok false, [])
  | Some c =>
      refreshed ← match expired_response c now with
                  | Some who =>
                      match tables w !! pi_table who with
                      | None => Some (w, false)
                      | Some _ =>
                          w ← with_table w now (pi_table who) (fun cs table =>
                                refresh_response_deadline cs now table (pi_id who)
                                  (pi_token who));
                          Some (w, true)
                      end
                  | None => Some (w, true)
                  end;
      let '(w, alive) := refreshed in
      if negb alive then Some (w, Err (NetError_new ErrorKind.EngineDropped), [])
      else
        match controls w !! r with
        | None => Some (w, Ok false, [])
        | Some c =>
            let '(c, res, events) := start_data_write_gated c (env w) now continuation in
            Some (w <| controls ::= <[r := c]> |>, res, events)
        end
  end.

Definition completion_cause (error : NetError) : TaskEndCause :=
  match kind error with
  | ErrorKind.Cancelled => TaskEndCause.Cancelled
  | ErrorKind.TimedOut => TaskEndCause.Expired
  | ErrorKind.Closed => TaskEndCause.Disconnected
  | ErrorKind.EngineDropped => TaskEndCause.Shutdown
  | _ => TaskEndCause.Failed
  end.

(** The written message is recorded in the table, or in the operation itself. *)
Definition settle_write (w : World) (now : Instant) (r : QueuedRequest)
    (res : Result () NetError) : option (World * Result () NetError) :=
  match res, qr_registration r with
  | Ok _, Some registration =>
      match tables w !! reg_table registration with
      | Some table =>
          let '(cs, table, written, effects) :=
            mark_written (controls w) (env w) now table registration now in
          w ← effects_dispatch (publisher now w)
                (w <| controls := cs; tables ::= <[reg_table registration := table]> |>) effects;
          Some (w, match written with Ok _ => Ok tt | Err error => Err error end)
      | None =>
          Some (w, if is_some_and (controls w !! dispatch_phase r) response_confirmed then Ok tt
                   else Err (NetError_new ErrorKind.EngineDropped))
      end
  | Ok _, None =>
      let '(cs, _, publication) := core_select_written (controls w) (env w) now (dispatch_phase r) in
      w ← dispatch now (w <| controls := cs |>) publication;
      Some (w, Ok tt)
  | Err error, _ => Some (w, Err error)
  end.

(** [QueuedRequest::complete], which consumes the request. *)
Definition request_complete (w : World) (now : Instant) (r : QueuedRequest)
    (res : Result () NetError) : option World :=
  '(w, r) ← dispatch_retirement (publisher now w) w r;
  if completed r then Some (drop_permits w r).1
  else
    let '(w, r) := drop_permits w r in
    '(w, res) ← settle_write w now r res;
    match res with
    | Ok _ => Some w
    | Err error =>
        '(w, _) ← terminate w now (dispatch_phase r) error (completion_cause error);
        Some w
    end.

(** [QueuedRequest::release] *)
Definition request_release (w : World) (r : QueuedRequest) : World := (drop_permits w r).1.

Definition request_drop (w : World) (now : Instant) (r : QueuedRequest) : option World :=
  drop_request_with (publisher now w) w now r.

(** The refusal of [commit_prepared]: the request ends with [error]. *)
Definition refuse_commit (w : World) (now : Instant) (r : QueuedRequest) (error : NetError) :
    option (World * Result () NetError) :=
  let '(w, r) := prepare_retirement w now r error in
  w ← request_complete w now r (Err error);
  Some (w, Err error).

Definition commit_prepared (reserve : bool) (w : World) (now : Instant) (id : QueueId)
    (token : Token) : option (World * Result () NetError) :=
  match queues w !! id with
  | None => Some (w, Err (NetError_new ErrorKind.Cancelled))
  | Some q =>
      let '(cs, q, res) := queue_commit reserve (controls w) (env w) now q token in
      let w := w <| controls := cs; queues ::= <[id := q]> |> in
      match res with
      | Ok _ => Some (emit w (OutWakeQueue id), Ok tt)
      | Err (None, error) => Some (w, Err error)
      | Err (Some r, error) => refuse_commit w now r error
      end
  end.

Fixpoint prepare_retirements (w : World) (now : Instant) (rs : list QueuedRequest)
    (error : NetError) : World * list QueuedRequest :=
  match rs with
  | [] => (w, [])
  | r :: rs =>
      let '(w, r) := prepare_retirement w now r error in
      let '(w, rs) := prepare_retirements w now rs error in
      (w, r :: rs)
  end.

Fixpoint dispatch_retirements (publish : World -> OperationPublication -> option World)
    (w : World) (rs : list QueuedRequest) : option (World * list QueuedRequest) :=
  match rs with
  | [] => Some (w, [])
  | r :: rs =>
      '(w, r) ← dispatch_retirement publish w r;
      '(w, rs) ← dispatch_retirements publish w rs;
      Some (w, r :: rs)
  end.

(** The requests a drain took out of the queue are retired and returned. *)
Definition retire_all (w : World) (now : Instant) (rs : list QueuedRequest) (error : NetError) :
    option (World * list QueuedRequest) :=
  let '(w, rs) := prepare_retirements w now rs error in
  dispatch_retirements (publisher now w) w rs.

Definition drain_with_error (w : World) (now : Instant) (id : QueueId) (error : NetError) :
    option (World * list QueuedRequest) :=
  match queues w !! id with
  | None => Some (w, [])
  | Some q =>
      let '(q, rs) := queue_drain q in
      retire_all (w <| queues ::= <[id := q]> |>) now rs error
  end.

Definition drain_rejected_on_disconnect_with_error (reserve : QueuedRequest -> bool) (w : World) (now : Instant)
    (id : QueueId) (error : NetError) : option (World * list QueuedRequest) :=
  match queues w !! id with
  | None => Some (w, [])
  | Some q =>
      let '(q, rs) := drain_rejected reserve (controls w) q in
      retire_all (w <| queues ::= <[id := q]> |>) now rs error
  end.

(** Binding an operation to its cancellation group: the callback cancels it. *)
Definition world_bind_cancellation (reserve : bool) (w : World) (r : OpRef) (fresh : HookId) :
    World * Result () NetError :=
  match controls w !! r with
  | None => (w, Ok tt)
  | Some c =>
      let '(c, env', res) := bind_cancellation reserve c (env w) fresh in
      (w <| controls ::= <[r := c]>; env := env'; hook_owner ::= <[fresh := r]> |>, res)
  end.

Fixpoint run_hooks (w : World) (now : Instant) (hooks : list HookId) : option World :=
  match hooks with
  | [] => Some w
  | h :: hooks =>
      match hook_owner w !! h with
      | Some r => '(w, _) ← cancel w now r; run_hooks w now hooks
      | None => run_hooks w now hooks
      end
  end.

(** [CancellationState::cancel] with its callbacks. *)
Definition group_cancel (w : World) (now : Instant) (n : NodeId) : option World :=
  let '(t, hooks) := cancellation_cancel (env_trees (env w)) n in
  run_hooks (w <| env := mkEnv t (env_tokens (env w)) |>) now hooks.

End Calls.

End World.
