(* ===== verification/TerminationTheory.v ===== *)
(** * Theorems about the end of operations

    Dispatching a publication always finishes; it returns the capacity of every
    request it retires and keeps the rest of the queues; a terminated operation is
    finished and no longer queued; a cancelled group ends all its operations. *)

From S2P Require Import Prelude F64 Backoff RetrySchedule RetryState Errors WsRetry WsOptions Cancellation WsTask IndexedHeap OperationControl NativePending PendingTheory PriorityWriteQueue QueueTheory Termination.

Section Theory.
Context {sem : Semaphores} {laws : SemaphoreLaws}.

(** ** Contents of the queues *)

Abbreviation QueueMap := (gmap QueueId PriorityWriteQueue) (only parsing).

Definition total (m : QueueMap) : list QueuedRequest := mjoin (requests <$> (map_to_list m).*2).

Lemma total_insert (m : QueueMap) id q :
  m !! id = None -> total (<[id := q]> m) ≡ₚ requests q ++ total m.
Proof. intros H. unfold total. by rewrite map_to_list_insert. Qed.

Lemma total_delete (m : QueueMap) id q :
  m !! id = Some q -> total m ≡ₚ requests q ++ total (delete id m).
Proof.
  intros H. rewrite <- (insert_delete_id m id q H) at 1. by rewrite total_insert by apply lookup_delete_eq.
Qed.

Lemma total_update (m : QueueMap) id q :
  total (<[id := q]> m) ≡ₚ requests q ++ total (delete id m).
Proof.
  rewrite (total_delete _ id q) by apply lookup_insert_eq. by rewrite delete_insert_eq.
Qed.

Lemma total_alter (m : QueueMap) id f :
  (forall q, requests (f q) = requests q) -> total (alter f id m) ≡ₚ total m.
Proof.
  intros Hf. destruct (m !! id) as [q|] eqn:Hq.
  - rewrite (alter_as_insert _ _ _ _ Hq), total_update, Hf. symmetry. by apply total_delete.
  - apply reflexive_eq. f_equal. apply map_eq. intros j. destruct (decide (j = id)) as [->|].
    + by rewrite lookup_alter_eq, Hq.
    + by rewrite lookup_alter_ne.
Qed.

(** ** Capacity

    The permits of a queue are available or held by a queued request. *)

Inductive Capacity := CapSlots | CapBytes.

Definition cap_sem (k : Capacity) (q : PriorityWriteQueue) : Sem :=
  match k with CapSlots => task_slots q | CapBytes => byte_slots q end.

Definition cap_permit (k : Capacity) (r : QueuedRequest) : option Permit :=
  match k with CapSlots => slot_permit r | CapBytes => byte_permit r end.

Definition permit_for (id : QueueId) (p : option Permit) : Z :=
  match p with
  | Some p => if bool_decide (permit_queue p = id) then permit_count p else 0
  | None => 0
  end.

Definition held (k : Capacity) (id : QueueId) (rs : list QueuedRequest) : Z :=
  foldr (fun r acc => permit_for id (cap_permit k r) + acc) 0 rs.

#[export] Instance held_proper k id : Proper ((≡ₚ) ==> (=)) (held k id).
Proof. induction 1; simpl in *; lia. Qed.

Lemma held_app k id l1 l2 : held k id (l1 ++ l2) = held k id l1 + held k id l2.
Proof. induction l1; simpl in *; lia. Qed.

(** The permits of queue [id] that are available or held by queued requests. *)
Definition capacity (k : Capacity) (w : World) (id : QueueId) : option Z :=
  (fun q => available (cap_sem k q) + held k id (total (queues w))) <$> queues w !! id.

Definition world_wf (w : World) : Prop := forall id q, queues w !! id = Some q -> queue_wf q.

(** An unfinished operation that is bound to a table is in that table. *)
Definition linked_table (cs : Controls) (tid : TableId) (p : NativePending) : Prop :=
  forall r c id token, cs !! r = Some c -> terminal c = None ->
  pending_identity (state c) = Some (mkPendingIdentity tid id token) ->
  exists e, matching_entry p id token = Some e /\ core e = r.

Definition linked (w : World) : Prop :=
  forall tid p, tables w !! tid = Some p -> linked_table (controls w) tid p.

(** Operations keep their identity and their terminal result. *)
Definition keeps (cs cs' : Controls) : Prop :=
  (forall r c, cs !! r = Some c -> exists c', cs' !! r = Some c' /\ same_identity c c' /\
    forall x, terminal c = Some x -> terminal c' = Some x) /\
  (forall r, is_Some (cs' !! r) -> is_Some (cs !! r)).

(** What a dispatch leaves: the same queues, perhaps with fewer requests, and the
    same operations, perhaps with more of them finished. *)
Record shrinks (w w' : World) : Prop := {
  sh_wf : world_wf w';
  sh_queue id q : queues w !! id = Some q -> exists q', queues w' !! id = Some q' /\
    requests q' ⊆+ requests q;
  sh_back id q' : queues w' !! id = Some q' -> is_Some (queues w !! id);
  sh_length : (queued w' <= queued w)%nat;
  sh_controls : keeps (controls w) (controls w');
  sh_linked : linked w -> linked w';
  sh_hooks : hook_owner w' = hook_owner w;
}.

(** ... and all capacity is accounted for. *)
Definition calm (w w' : World) : Prop :=
  shrinks w w' /\ forall k id, capacity k w' id = capacity k w id.

Lemma keeps_refl cs : keeps cs cs.
Proof. split; [|done]. intros r c Hc. by exists c. Qed.

Lemma keeps_trans cs1 cs2 cs3 : keeps cs1 cs2 -> keeps cs2 cs3 -> keeps cs1 cs3.
Proof.
  intros [H1 B1] [H2 B2]. split; [|by auto]. intros r c Hc.
  destruct (H1 _ _ Hc) as (c1 & Hc1 & (I1 & I2 & I3 & I4) & Hx1).
  destruct (H2 _ _ Hc1) as (c2 & Hc2 & (J1 & J2 & J3 & J4) & Hx2).
  exists c2. split_and!; [done| |by auto]. unfold same_identity. split_and!; congruence.
Qed.

Lemma shrinks_trans w1 w2 w3 : shrinks w1 w2 -> shrinks w2 w3 -> shrinks w1 w3.
Proof.
  intros [_ Hq1 Hb1 Hl1 Hc1 Hk1 Hh1] [Hw Hq2 Hb2 Hl2 Hc2 Hk2 Hh2]. split; [done| | |lia| |by auto|congruence].
  - intros id q Hq. destruct (Hq1 _ _ Hq) as (q1 & H1 & Hs1).
    destruct (Hq2 _ _ H1) as (q2 & H2 & Hs2). exists q2. split; [done|]. by etrans.
  - intros id q Hq. destruct (Hb2 _ _ Hq) as [q1 H1]. by eapply Hb1.
  - by eapply keeps_trans.
Qed.

Lemma calm_trans w1 w2 w3 : calm w1 w2 -> calm w2 w3 -> calm w1 w3.
Proof.
  intros [Hs1 Hc1] [Hs2 Hc2]. split; [by eapply shrinks_trans|]. intros. by rewrite Hc2, Hc1.
Qed.

(** [t] names no request of queue [id]. *)
Definition absent (w : World) (id : QueueId) (t : Token) : Prop :=
  forall q, queues w !! id = Some q -> t ∉ dispatch_cancel <$> requests q.

Lemma shrinks_absent w w' id t : shrinks w w' -> absent w id t -> absent w' id t.
Proof.
  intros Hs Ha q' Hq' Hin. destruct (sh_back _ _ Hs _ _ Hq') as [q Hq].
  destruct (sh_queue _ _ Hs _ _ Hq) as (q2 & Hq2 & Hsub). simplify_eq.
  apply (Ha _ Hq). apply list_elem_of_fmap in Hin as (x & -> & Hx). apply list_elem_of_fmap.
  exists x. split; [done|]. by eapply elem_of_submseteq.
Qed.

(** Steps that leave the queues alone. *)
Lemma calm_same w w' :
  world_wf w -> queues w' = queues w -> hook_owner w' = hook_owner w ->
  keeps (controls w) (controls w') -> (linked w -> linked w') -> calm w w'.
Proof.
  intros Hw Hq Hh Hk Hl. split; [|intros k id; unfold capacity; by rewrite Hq]. split; try done.
  - intros id q. rewrite Hq. apply Hw.
  - intros id q H. exists q. by rewrite Hq.
  - intros id q. rewrite Hq. by eexists.
  - unfold queued, all_requests. rewrite Hq. lia.
Qed.

(** Steps that only touch the queues. *)
Lemma shrinks_queues w f :
  world_wf (w <| queues ::= f |>) ->
  (forall id q, queues w !! id = Some q -> exists q', f (queues w) !! id = Some q' /\
    requests q' ⊆+ requests q) ->
  (forall id q', f (queues w) !! id = Some q' -> is_Some (queues w !! id)) ->
  (length (total (f (queues w))) <= length (total (queues w)))%nat ->
  shrinks w (w <| queues ::= f |>).
Proof. intros. split; try done. apply keeps_refl. Qed.

(** Returning permits. *)
Definition returns (w : World) (r : QueuedRequest) (w' : World) : Prop :=
  shrinks w w' /\ forall k id,
    capacity k w' id = (fun z => z + permit_for id (cap_permit k r)) <$> capacity k w id.

Lemma alter_shrinks w id f :
  world_wf w -> (forall q, requests (f q) = requests q) -> (forall q, queue_wf q -> queue_wf (f q)) ->
  shrinks w (w <| queues ::= alter f id |>).
Proof.
  intros Hw Hr Hf. apply shrinks_queues.
  - intros j q. simpl. destruct (decide (j = id)) as [->|].
    + rewrite lookup_alter_eq. destruct (queues w !! id) as [q0|] eqn:H0; simpl; [|done].
      intros [= <-]. apply Hf. by eapply Hw.
    + rewrite lookup_alter_ne by done. apply Hw.
  - intros j q Hj. destruct (decide (j = id)) as [->|].
    + rewrite lookup_alter_eq, Hj. simpl. exists (f q). by rewrite Hr.
    + rewrite lookup_alter_ne by done. by exists q.
  - intros j q. rewrite <- (lookup_alter_is_Some f _ id j). by eexists.
  - by rewrite (total_alter _ _ _ Hr).
Qed.

Lemma capacity_alter w j f k id :
  (forall q, requests (f q) = requests q) ->
  capacity k (w <| queues ::= alter f j |>) id =
    (fun q => available (cap_sem k (if decide (j = id) then f q else q)) +
              held k id (total (queues w))) <$> queues w !! id.
Proof.
  intros Hr. unfold capacity. change (queues (w <| queues ::= alter f j |>)) with (alter f j (queues w)).
  rewrite (held_proper k id _ _ (total_alter (queues w) j f Hr)).
  destruct (decide (j = id)) as [->|Hne].
  - rewrite lookup_alter_eq. by destruct (queues w !! id).
  - by rewrite lookup_alter_ne.
Qed.

Lemma drop_slot_spec w p :
  world_wf w -> shrinks w (drop_slot_permit w p) /\
  forall k id, capacity k (drop_slot_permit w p) id =
    (fun z => z + match k with CapSlots => permit_for id p | CapBytes => 0 end) <$> capacity k w id.
Proof.
  intros Hw. destruct p as [p|]; simpl.
  2: { split; [by apply calm_same; try done; apply keeps_refl|].
       intros k id. destruct (capacity k w id); simpl; [f_equal; destruct k; lia|done]. }
  split; [apply alter_shrinks; [done..|]; by intros q []|].
  intros k id. etrans; [by apply capacity_alter|]. unfold capacity. rewrite <- option_fmap_compose.
  apply option_fmap_ext. intros q. simpl. unfold permit_for.
  destruct k, (decide (permit_queue p = id)) as [Heq|Hne]; simpl;
    rewrite ?bool_decide_eq_true_2, ?release_available by done;
    rewrite ?bool_decide_eq_false_2 by done; lia.
Qed.

Lemma drop_byte_spec w p :
  world_wf w -> shrinks w (drop_byte_permit w p) /\
  forall k id, capacity k (drop_byte_permit w p) id =
    (fun z => z + match k with CapSlots => 0 | CapBytes => permit_for id p end) <$> capacity k w id.
Proof.
  intros Hw. destruct p as [p|]; simpl.
  2: { split; [by apply calm_same; try done; apply keeps_refl|].
       intros k id. destruct (capacity k w id); simpl; [f_equal; destruct k; lia|done]. }
  split; [apply alter_shrinks; [done..|]; by intros q []|].
  intros k id. etrans; [by apply capacity_alter|]. unfold capacity. rewrite <- option_fmap_compose.
  apply option_fmap_ext. intros q. simpl. unfold permit_for.
  destruct k, (decide (permit_queue p = id)) as [Heq|Hne]; simpl;
    rewrite ?bool_decide_eq_true_2, ?release_available by done;
    rewrite ?bool_decide_eq_false_2 by done; lia.
Qed.

Lemma drop_permits_spec w r w' r' :
  world_wf w -> drop_permits w r = (w', r') ->
  returns w r w' /\ r' = r <| slot_permit := None; byte_permit := None |>.
Proof.
  intros Hw [= <- <-]. split; [|done].
  destruct (drop_slot_spec w (slot_permit r) Hw) as [Hs1 Hc1].
  destruct (drop_byte_spec (drop_slot_permit w (slot_permit r)) (byte_permit r)) as [Hs2 Hc2];
    [apply Hs1|].
  split; [by eapply shrinks_trans|]. intros k id. rewrite Hc2, Hc1, <- option_fmap_compose.
  apply option_fmap_ext. intros z. simpl. destruct k; simpl; lia.
Qed.

(** Taking a request out of a queue takes its permits out of the account. *)
Definition takes (w : World) (r : QueuedRequest) (w' : World) : Prop :=
  shrinks w w' /\ (queued w' < queued w)%nat /\ forall k id,
    capacity k w' id = (fun z => z - permit_for id (cap_permit k r)) <$> capacity k w id.

Lemma returns_takes w1 r w2 w3 :
  takes w1 r w2 -> returns w2 r w3 -> calm w1 w3 /\ (queued w3 < queued w1)%nat.
Proof.
  intros (Hs1 & Hl & Hc1) [Hs2 Hc2]. split; [split; [by eapply shrinks_trans|]|].
  - intros k id. rewrite Hc2, Hc1. destruct (capacity k w1 id); simpl; [f_equal; lia|done].
  - pose proof (sh_length _ _ Hs2). lia.
Qed.

Lemma take_sems q t q' o :
  take_queued q t = (q', o) -> forall k, cap_sem k q' = cap_sem k q.
Proof.
  unfold take_queued. destruct (prepared q !! t); [by intros [= <- <-] []|].
  by destruct (heap_remove (heap q) t) as [h [r|]]; intros [= <- <-] [].
Qed.

Lemma insert_queue_wf w id q : world_wf w -> queue_wf q -> world_wf (w <| queues ::= <[id := q]> |>).
Proof.
  intros Hw Hq j q'. simpl. destruct (decide (id = j)) as [->|].
  - rewrite lookup_insert_eq. by intros [= <-].
  - rewrite lookup_insert_ne by done. apply Hw.
Qed.

Lemma take_takes w id q t q' r :
  world_wf w -> queues w !! id = Some q -> take_queued q t = (q', Some r) ->
  takes w r (w <| queues ::= <[id := q']> |>) /\ dispatch_cancel r = t /\
  t ∉ dispatch_cancel <$> requests q'.
Proof.
  intros Hw Hq Ht. pose proof (take_queued_spec q t (Hw _ _ Hq)) as Hsp. rewrite Ht in Hsp.
  destruct Hsp as (Hr & Hp & Hw').
  assert (total (queues w) ≡ₚ r :: total (<[id := q']> (queues w))) as Htot.
  { by rewrite (total_delete _ _ _ Hq), total_update, Hp. }
  split_and!; [split_and!|done|].
  - apply shrinks_queues; [by apply insert_queue_wf| | |].
    + intros j qj Hj. destruct (decide (id = j)) as [<-|].
      * rewrite lookup_insert_eq. exists q'. split; [done|]. simplify_eq. rewrite Hp.
        by apply submseteq_cons.
      * rewrite lookup_insert_ne by done. by exists qj.
    + intros j qj. destruct (decide (id = j)) as [<-|]; [by rewrite Hq|].
      rewrite lookup_insert_ne by done. by eexists.
    + rewrite Htot. simpl. lia.
  - unfold queued, all_requests. fold (total (queues w)). simpl.
    fold (total (<[id := q']> (queues w))). rewrite Htot. simpl. lia.
  - intros k j. unfold capacity. simpl. rewrite <- option_fmap_compose.
    assert (held k j (total (queues w)) =
      permit_for j (cap_permit k r) + held k j (total (<[id := q']> (queues w)))) as ->
      by exact (held_proper k j _ _ Htot).
    destruct (decide (id = j)) as [<-|].
    + rewrite lookup_insert_eq, Hq. simpl. rewrite (take_sems _ _ _ _ Ht). f_equal. lia.
    + rewrite lookup_insert_ne by done. destruct (queues w !! j); simpl; [f_equal; lia|done].
  - destruct (Hw _ _ Hq) as [_ _ _ Hn]. rewrite Hp in Hn. simpl in Hn. rewrite Hr in Hn.
    by apply NoDup_cons in Hn as [? _].
Qed.

(** ** Ending operations *)

Lemma select_failure_ends c now e cause c' o pub :
  select_failure c now e cause = (c', o, pub) ->
  same_identity c c' /\ is_Some (terminal c') /\ forall x, terminal c = Some x -> terminal c' = Some x.
Proof.
  intros H. pose proof (select_failure_identity c now e cause) as Hi. rewrite H in Hi.
  split; [done|]. revert H. unfold select_failure, select_failure_locked, terminal.
  destruct (result (snapshot (state c))) as [x|] eqn:Hr; cbn [is_some].
  - intros [= <- <- <-]. rewrite Hr. by split.
  - destruct (finish_locked _ _ _ _ _ _) as [s' p'] eqn:Hf. intros [= <- <- <-].
    destruct (finish_locked_spec _ _ _ _ _ _ _ _ Hf) as (Hr' & _). simpl. rewrite Hr'. by split.
Qed.

Definition ended (cs : Controls) (r : OpRef) : Prop :=
  forall c, cs !! r = Some c -> is_Some (terminal c).

Lemma core_select_failure_keeps cs now r error cause cs' o pub :
  core_select_failure cs now r error cause = (cs', o, pub) -> keeps cs cs' /\ ended cs' r.
Proof.
  unfold core_select_failure. destruct (cs !! r) as [c|] eqn:Hc.
  2: { intros [= <- <- <-]. split; [apply keeps_refl|]. intros c. by rewrite Hc. }
  destruct (select_failure c now error cause) as [[c' o'] pub'] eqn:Hf. intros [= <- <- <-].
  apply select_failure_ends in Hf as (Hi & He & Hx). split; [split|].
  - intros r1 c1 H1. destruct (decide (r = r1)) as [<-|].
    + rewrite lookup_insert_eq. simplify_eq. by exists c'.
    + rewrite lookup_insert_ne by done. by exists c1.
  - intros r1. destruct (decide (r = r1)) as [<-|]; [by rewrite Hc|]. by rewrite lookup_insert_ne.
  - intros c1. rewrite lookup_insert_eq. by intros [= <-].
Qed.

Lemma linked_keeps cs cs' tid p : keeps cs cs' -> linked_table cs tid p -> linked_table cs' tid p.
Proof.
  intros [Hk Hb] Hl r c' id token Hc' Ht Hp. destruct (Hb r) as [c Hc]; [by eexists|].
  destruct (Hk _ _ Hc) as (c1 & Hc1 & (_ & _ & _ & Hi) & Hx). simplify_eq.
  apply (Hl r c); [done| |congruence].
  destruct (terminal c) as [x|] eqn:Hx'; [|done]. by rewrite (Hx _ eq_refl) in Ht.
Qed.

Lemma linked_remove cs cs' tid p id token e :
  matching_entry p id token = Some e -> keeps cs cs' -> ended cs' (core e) ->
  linked_table cs tid p -> linked_table cs' tid (remove_entry p id).
Proof.
  intros He Hk Hend Hl%(linked_keeps _ _ _ _ Hk) r c id' token' Hc Ht Hp.
  destruct (Hl _ _ _ _ Hc Ht Hp) as (e' & He' & Hcore). exists e'. split; [|done].
  apply matching_entry_Some in He as [Hid _]. apply matching_entry_Some in He' as [Hid' Htok'].
  unfold matching_entry, remove_entry. simpl. destruct (decide (id = id')) as [<-|].
  - simplify_eq. destruct (Hend _ Hc) as [x Hx]. congruence.
  - rewrite lookup_delete_ne, Hid' by done. by rewrite (proj2 (Z.eqb_eq _ _) Htok').
Qed.

Lemma table_termination_keeps cs now p id token error cause original cs' p' d tid :
  table_prepare_termination cs now p id token error cause original = (cs', p', d) ->
  keeps cs cs' /\ (linked_table cs tid p -> linked_table cs' tid p').
Proof.
  unfold table_prepare_termination. destruct (matching_entry p id token) as [e|] eqn:He.
  - destruct (core_select_failure cs now (core e) error cause) as [[cs1 o] pub] eqn:Hf.
    intros [= <- <- <-]. apply core_select_failure_keeps in Hf as [Hk Hend].
    split; [done|]. by eapply linked_remove.
  - destruct original as [r|].
    2: { intros [= <- <- <-]. split; [apply keeps_refl|done]. }
    destruct (core_select_failure _ _ _ _ _) as [[cs1 o] pub] eqn:Hf.
    intros [= <- <- <-]. apply core_select_failure_keeps in Hf as [Hk Hend].
    split; [done|]. by apply linked_keeps.
Qed.

Lemma calm_controls w cs :
  world_wf w -> keeps (controls w) cs -> calm w (w <| controls := cs |>).
Proof.
  intros Hw Hk. apply calm_same; try done. intros Hl tid p Hp. eapply linked_keeps; [done|].
  by apply Hl.
Qed.

Lemma calm_table w cs tid p p' :
  world_wf w -> tables w !! tid = Some p -> keeps (controls w) cs ->
  (linked_table (controls w) tid p -> linked_table cs tid p') ->
  calm w (w <| controls := cs; tables ::= <[tid := p']> |>).
Proof.
  intros Hw Hp Hk Hl. apply calm_same; try done. intros Hlw tid1 p1. simpl.
  destruct (decide (tid = tid1)) as [<-|].
  - rewrite lookup_insert_eq. intros [= <-]. by apply Hl, Hlw.
  - rewrite lookup_insert_ne by done. intros Hp1. eapply linked_keeps; [done|]. by apply Hlw.
Qed.

Lemma prepare_termination_calm w now r error cause w' d :
  world_wf w -> prepare_termination w now r error cause = (w', d) -> calm w w'.
Proof.
  intros Hw. unfold prepare_termination.
  destruct (controls w !! r ≫= _) as [who|].
  2: { destruct (core_select_failure _ _ _ _ _) as [[cs o] pub] eqn:Hf. intros [= <- <-].
       apply calm_controls; [done|]. by eapply core_select_failure_keeps. }
  destruct (tables w !! pi_table who) as [p|] eqn:Hp.
  2: { destruct (core_select_failure _ _ _ _ _) as [[cs o] pub] eqn:Hf. intros [= <- <-].
       apply calm_controls; [done|]. by eapply core_select_failure_keeps. }
  destruct (table_prepare_termination _ _ _ _ _ _ _ _) as [[cs p'] d'] eqn:Hf. intros [= <- <-].
  destruct (table_termination_keeps _ _ _ _ _ _ _ _ _ _ _ (pi_table who) Hf) as [Hk Hl].
  by eapply calm_table.
Qed.

Lemma calm_refl w : world_wf w -> calm w w.
Proof. intros Hw. apply calm_same; try done. apply keeps_refl. Qed.

Ltac outer := apply calm_same; [done..|apply keeps_refl|done].

Lemma drop_lease_calm w l : world_wf w -> calm w (drop_lease w l).
Proof.
  intros Hw. unfold drop_lease, lease_release. destruct (leases w !! l) as [lease|]; [|outer].
  destruct (_ <? _)%nat; [outer|]. destruct (holds lease); outer.
Qed.

Lemma drop_lease_controls w l : controls (drop_lease w l) = controls w.
Proof.
  unfold drop_lease, lease_release. destruct (leases w !! l) as [lease|]; [|done].
  destruct (_ <? _)%nat; [done|]. by destruct (holds lease).
Qed.

Lemma publish_rest_calm w p : world_wf w -> calm w (publish_rest w p).
Proof.
  intros Hw. unfold publish_rest, cancel_world_token.
  destruct (pub_hook p) as [[n h]|], (pub_retirement p), (pub_cancelled p), (task p) as [[r ev]|],
    (pub_written p), (pub_retry p) as [[[o [a|]] e]|]; outer.
Qed.

(** ** Dispatching finishes *)

(** [publish] answers as long as fewer than [n] requests are queued. *)
Definition settles (n : nat) (publish : World -> OperationPublication -> option World) : Prop :=
  forall w p, world_wf w -> (queued w < n)%nat -> exists w', publish w p = Some w' /\ calm w w'.

Lemma calm_wf w w' : calm w w' -> world_wf w'.
Proof. by intros [[] _]. Qed.

Lemma calm_queued w w' n : calm w w' -> (queued w < n)%nat -> (queued w' < n)%nat.
Proof. intros [[] _]. lia. Qed.

Lemma returns_calm w1 r w2 w3 : returns w1 r w2 -> calm w2 w3 -> returns w1 r w3.
Proof. intros [Hs1 Hc1] [Hs2 Hc2]. split; [by eapply shrinks_trans|]. intros. by rewrite Hc2, Hc1. Qed.

Lemma calm_returns w1 r w2 w3 : calm w1 w2 -> returns w2 r w3 -> returns w1 r w3.
Proof. intros [Hs1 Hc1] [Hs2 Hc2]. split; [by eapply shrinks_trans|]. intros. by rewrite Hc2, Hc1. Qed.

Lemma returns_queued w r w' n : returns w r w' -> (queued w < n)%nat -> (queued w' < n)%nat.
Proof. intros [[] _]. lia. Qed.

(** Returning nothing. *)
Lemma returns_none w r w' : slot_permit r = None -> byte_permit r = None -> returns w r w' -> calm w w'.
Proof.
  intros Hs Hb [Hsh Hc]. split; [done|]. intros k id. rewrite Hc.
  destruct (capacity k w id), k; simpl; [rewrite Hs|rewrite Hb|done|done]; simpl; f_equal; lia.
Qed.

Section Settles.
Context (n : nat) (publish : World -> OperationPublication -> option World).
Hypothesis Hpub : settles n publish.

Lemma effect_settles w e :
  world_wf w -> (queued w < n)%nat -> exists w', effect_dispatch publish w e = Some w' /\ calm w w'.
Proof.
  intros Hw Hn. destruct e as [c|p|t|t|l]; simpl.
  - unfold completion_dispatch. pose proof (drop_lease_calm w (permit (cmp_entry c)) Hw) as H1.
    destruct (Hpub (drop_lease w (permit (cmp_entry c))) (cmp_publication c)) as (w2 & -> & H2).
    { by eapply calm_wf. }
    { by eapply calm_queued. }
    simpl. eexists. split; [done|]. do 2 (eapply calm_trans; [done|]). apply calm_wf in H2. outer.
  - by apply Hpub.
  - eexists. split; [done|]. outer.
  - eexists. split; [done|]. outer.
  - eexists. split; [done|]. by apply drop_lease_calm.
Qed.

Lemma effects_settle es w :
  world_wf w -> (queued w < n)%nat -> exists w', effects_dispatch publish w es = Some w' /\ calm w w'.
Proof.
  revert w. induction es as [|e es IH]; intros w Hw Hn; simpl.
  - exists w. split; [done|]. by apply calm_refl.
  - destruct (effect_settles w e Hw Hn) as (w1 & -> & H1).
    destruct (IH w1) as (w2 & H2 & H3); [by eapply calm_wf|by eapply calm_queued|].
    exists w2. split; [done|]. by eapply calm_trans.
Qed.

Lemma terminate_settles w now r error cause :
  world_wf w -> (queued w < n)%nat ->
  exists w' res, terminate_with publish w now r error cause = Some (w', res) /\ calm w w'.
Proof.
  intros Hw Hn. unfold terminate_with.
  assert (forall cs o pub, core_select_failure (controls w) now r error cause = (cs, o, pub) ->
    exists w' (res : Result TerminationOutcome NetError),
    (w0 ← publish (w <| controls := cs |>) pub; Some (w0, Ok o)) = Some (w', res) /\ calm w w') as Hdirect.
  { intros cs o pub Hf. pose proof (proj1 (core_select_failure_keeps _ _ _ _ _ _ _ _ Hf)) as Hk.
    pose proof (calm_controls w cs Hw Hk) as H1.
    destruct (Hpub (w <| controls := cs |>) pub) as (w2 & H2 & H3); [by eapply calm_wf|done|].
    rewrite H2. exists w2, (Ok o). split; [done|]. by eapply calm_trans. }
  destruct (controls w !! r ≫= _) as [who|].
  2: { destruct (core_select_failure _ _ _ _ _) as [[cs o] pub] eqn:Hf. by apply Hdirect. }
  destruct (tables w !! pi_table who) as [p|] eqn:Hp.
  2: { destruct (core_select_failure _ _ _ _ _) as [[cs o] pub] eqn:Hf. by apply Hdirect. }
  unfold table_terminate.
  destruct (table_prepare_termination _ _ _ _ _ _ _ _) as [[cs p'] d'] eqn:Hf.
  destruct (table_termination_keeps _ _ _ _ _ _ _ _ _ _ _ (pi_table who) Hf) as [Hk Hl].
  pose proof (calm_table w cs (pi_table who) p p' Hw Hp Hk Hl) as H1.
  destruct (effects_settle (deferred_effects d') _ (calm_wf _ _ H1) Hn) as (w2 & H2 & H3).
  rewrite H2. simpl. eexists _, _. split; [done|]. by eapply calm_trans.
Qed.

Lemma drop_request_settles w now r :
  world_wf w -> (queued w < n)%nat ->
  exists w', drop_request_with publish w now r = Some w' /\ returns w r w'.
Proof.
  intros Hw Hn. unfold drop_request_with. destruct (drop_permits w r) as [w1 r1] eqn:Hd.
  destruct (drop_permits_spec _ _ _ _ Hw Hd) as [Hr ->]. destruct (completed _); [by eexists|].
  destruct (terminate_settles w1 now (dispatch_phase r) (NetError_new ErrorKind.EngineDropped)
    TaskEndCause.Shutdown) as (w2 & res & H2 & H3); [apply Hr|by eapply returns_queued|].
  simpl. rewrite H2. simpl. exists w2. split; [done|]. by eapply returns_calm.
Qed.

Lemma dispatch_retirement_settles w r :
  world_wf w -> (queued w < n)%nat -> exists w' r', dispatch_retirement publish w r = Some (w', r') /\
  (w' = w /\ r' = r \/ returns w r w' /\ slot_permit r' = None /\ byte_permit r' = None).
Proof.
  intros Hw Hn. unfold dispatch_retirement. destruct (qr_retirement r) as [d|].
  2: { eexists _, _. split; [done|]. by left. }
  destruct (drop_permits w _) as [w1 r1] eqn:Hd.
  destruct (drop_permits_spec _ _ _ _ Hw Hd) as [Hr ->].
  destruct (effects_settle (deferred_effects d) w1) as (w2 & H2 & H3);
    [apply Hr|by eapply returns_queued|].
  rewrite H2. simpl. eexists _, _. split; [done|]. right. split; [|done].
  eapply (returns_calm w); [|done]. exact Hr.
Qed.

Lemma prepare_retirement_calm w now r error w' r' :
  world_wf w -> prepare_retirement w now r error = (w', r') ->
  calm w w' /\ slot_permit r' = slot_permit r /\ byte_permit r' = byte_permit r.
Proof.
  intros Hw. unfold prepare_retirement. destruct (_ && _).
  2: { intros [= <- <-]. split; [by apply calm_refl|done]. }
  destruct (prepare_termination _ _ _ _ _) as [w1 d] eqn:Hp. intros [= <- <-].
  split; [by eapply prepare_termination_calm|done].
Qed.

Lemma retire_settles w now r error :
  world_wf w -> (queued w < n)%nat ->
  exists w', (let '(w, r) := prepare_retirement w now r error in
              '(w, r) ← dispatch_retirement publish w r; drop_request_with publish w now r) = Some w' /\
  returns w r w'.
Proof.
  intros Hw Hn. destruct (prepare_retirement w now r error) as [w1 r1] eqn:H1.
  apply prepare_retirement_calm in H1 as (H1 & Hs & Hb); [|done].
  destruct (dispatch_retirement_settles w1 r1) as (w2 & r2 & H2 & Hcase);
    [by eapply calm_wf|by eapply calm_queued|]. rewrite H2. simpl.
  assert (returns w1 r1 w2 /\ slot_permit r2 = None /\ byte_permit r2 = None \/
    calm w1 w2 /\ r2 = r1) as Hc2.
  { destruct Hcase as [[-> ->]|?]; [|by left]. right. split; [|done]. eapply calm_refl, calm_wf, H1. }
  assert (world_wf w2 /\ (queued w2 < n)%nat) as [Hw2 Hn2].
  { destruct Hc2 as [(Hr & _)|[Hc _]].
    - split; [apply Hr|]. eapply returns_queued, calm_queued; done.
    - split; [by eapply calm_wf|]. by do 2 (eapply calm_queued; [done|]). }
  destruct (drop_request_settles w2 now r2 Hw2 Hn2) as (w3 & H3 & Hr3). exists w3. split; [done|].
  assert (returns w1 r1 w3) as Hr.
  { destruct Hc2 as [(Hr & Hs2 & Hb2)|[Hc ->]].
    - eapply returns_calm; [done|]. by eapply returns_none.
    - by eapply calm_returns. }
  eapply calm_returns in Hr; [|done]. destruct Hr as [Hsh Hc]. split; [done|].
  intros k id. rewrite Hc. destruct k; simpl; by rewrite ?Hs, ?Hb.
Qed.

(** After a retirement the token is no longer queued. *)
Lemma cancel_queued_settles w now id token error :
  world_wf w -> (queued w < S n)%nat ->
  exists w' b, cancel_queued_with publish w now id token error = Some (w', b) /\ calm w w' /\
  absent w' id token.
Proof.
  intros Hw Hn. unfold cancel_queued_with. destruct (queues w !! id) as [q|] eqn:Hq.
  2: { exists w, false. split_and!; [done|by apply calm_refl|]. intros q. by rewrite Hq. }
  destruct (take_queued q token) as [q' [r|]] eqn:Ht.
  2: { pose proof (take_queued_spec q token (Hw _ _ Hq)) as Hsp. rewrite Ht in Hsp.
       destruct Hsp as [-> Hno]. assert (w <| queues ::= <[id := q]> |> = w) as ->.
       { destruct w. simpl in *. by rewrite insert_id. }
       exists w, false. split_and!; [done|by apply calm_refl|]. intros q1. rewrite Hq. by intros [= <-]. }
  destruct (take_takes w id q token q' r Hw Hq Ht) as (Htk & _ & Hno).
  destruct (retire_settles (w <| queues ::= <[id := q']> |>) now r error) as (w2 & H2 & Hr).
  { apply Htk. }
  { destruct Htk as (_ & ? & _). lia. }
  revert H2. destruct (prepare_retirement _ _ _ _) as [w1 r1].
  destruct (dispatch_retirement publish w1 r1) as [[w3 r3]|]; [|done]. simpl. intros ->. simpl.
  exists w2, true. split_and!; [done|by eapply returns_takes|].
  apply (shrinks_absent _ _ _ _ (proj1 Hr)). intros q1. simpl. rewrite lookup_insert_eq. by intros [= <-].
Qed.

End Settles.

Lemma publication_settles fuel now w p :
  world_wf w -> (queued w < fuel)%nat ->
  exists w', publication_dispatch fuel now w p = Some w' /\ calm w w' /\
  forall id token error, pub_queue p = Some (Some id, token, error) -> absent w' id token.
Proof.
  revert w p. induction fuel as [|fuel IH]; intros w p Hw Hn; [lia|].
  assert (settles fuel (publication_dispatch fuel now)) as Hset.
  { intros w1 p1 Hw1 Hn1. destruct (IH w1 p1 Hw1 Hn1) as (w2 & ? & ? & _). by exists w2. }
  simpl. destruct (pub_queue p) as [[[[id|] token] error]|].
  - destruct (cancel_queued_settles fuel _ Hset w now id token error Hw Hn) as (w1 & b & -> & H1 & Hno).
    simpl. pose proof (publish_rest_calm w1 p (calm_wf _ _ H1)) as H2.
    eexists. split_and!; [done|by eapply calm_trans|]. intros id' token' error' [= <- <- <-].
    by apply (shrinks_absent _ _ _ _ (proj1 H2)).
  - eexists. split_and!; [done|by apply publish_rest_calm|done].
  - eexists. split_and!; [done|by apply publish_rest_calm|done].
Qed.

Lemma publisher_settles now w n : (n <= queued w)%nat -> settles (S n) (publisher now w).
Proof.
  intros Hn w1 p Hw1 Hn1. destruct (publication_settles (dispatch_fuel w) now w1 p Hw1) as (w2 & ? & ? & _).
  { unfold dispatch_fuel. lia. }
  by exists w2.
Qed.

(** ** The answer does not depend on the fuel *)

Definition refines (p1 p2 : World -> OperationPublication -> option World) : Prop :=
  forall w p w', p1 w p = Some w' -> p2 w p = Some w'.

Section Refines.
Context (p1 p2 : World -> OperationPublication -> option World).
Hypothesis Href : refines p1 p2.

Lemma effect_refines w e w' : effect_dispatch p1 w e = Some w' -> effect_dispatch p2 w e = Some w'.
Proof.
  destruct e; simpl; try done; [|apply Href]. unfold completion_dispatch.
  destruct (p1 _ _) eqn:H1; [|done]. by rewrite (Href _ _ _ H1).
Qed.

Lemma effects_refine es w w' : effects_dispatch p1 w es = Some w' -> effects_dispatch p2 w es = Some w'.
Proof.
  revert w. induction es as [|e es IH]; intros w; simpl; [done|].
  destruct (effect_dispatch p1 w e) eqn:H1; [|done]. rewrite (effect_refines _ _ _ H1). apply IH.
Qed.

Lemma terminate_refines w now r error cause x :
  terminate_with p1 w now r error cause = Some x -> terminate_with p2 w now r error cause = Some x.
Proof.
  unfold terminate_with.
  destruct (controls w !! r ≫= _) as [who|]; [destruct (tables w !! pi_table who)|].
  - destruct (table_terminate _ _ _ _ _ _ _) as [[[cs p'] res] eff].
    destruct (effects_dispatch p1 _ eff) eqn:H1; [|done]. by rewrite (effects_refine _ _ _ H1).
  - destruct (core_select_failure _ _ _ _ _) as [[cs o] pub].
    destruct (p1 _ pub) eqn:H1; [|done]. by rewrite (Href _ _ _ H1).
  - destruct (core_select_failure _ _ _ _ _) as [[cs o] pub].
    destruct (p1 _ pub) eqn:H1; [|done]. by rewrite (Href _ _ _ H1).
Qed.

Lemma drop_request_refines w now r w' :
  drop_request_with p1 w now r = Some w' -> drop_request_with p2 w now r = Some w'.
Proof.
  unfold drop_request_with. destruct (drop_permits w r) as [w1 r1]. destruct (completed r1); [done|].
  destruct (terminate_with p1 _ _ _ _ _) eqn:H1; [|done]. by rewrite (terminate_refines _ _ _ _ _ _ H1).
Qed.

Lemma cancel_queued_refines w now id token error x :
  cancel_queued_with p1 w now id token error = Some x ->
  cancel_queued_with p2 w now id token error = Some x.
Proof.
  unfold cancel_queued_with. destruct (queues w !! id) as [q|]; [|done].
  destruct (take_queued q token) as [q' [r|]]; [|done].
  destruct (prepare_retirement _ _ _ _) as [w1 r1]. unfold dispatch_retirement.
  destruct (qr_retirement r1) as [d|].
  - destruct (drop_permits _ _) as [w2 r2].
    destruct (effects_dispatch p1 w2 _) as [w3|] eqn:H1; [|done].
    rewrite (effects_refine _ _ _ H1). simpl. destruct (drop_request_with p1 w3 _ _) eqn:H2; [|done].
    by rewrite (drop_request_refines _ _ _ _ H2).
  - simpl. destruct (drop_request_with p1 w1 _ _) eqn:H2; [|done].
    by rewrite (drop_request_refines _ _ _ _ H2).
Qed.

End Refines.

Lemma publication_refines n m now :
  (n <= m)%nat -> refines (publication_dispatch n now) (publication_dispatch m now).
Proof.
  revert m. induction n as [|n IH]; intros m Hm w p w'.
  - simpl. destruct m; simpl; destruct (pub_queue p) as [[[[id|] token] error]|]; done.
  - destruct m as [|m]; [lia|]. simpl. destruct (pub_queue p) as [[[[id|] token] error]|]; try done.
    destruct (cancel_queued_with (publication_dispatch n now) _ _ _ _ _) eqn:H1; [|done].
    rewrite (cancel_queued_refines _ (publication_dispatch m now) (IH m ltac:(lia)) _ _ _ _ _ _ H1).
    done.
Qed.

(** A publication is always served: one more nested dispatch than there are
    queued requests is enough, because every nested publication has first taken a
    request out of a queue, and more fuel gives the same world.  The dispatch
    returns every permit of what it retires: the permits that are available or held
    by queued requests are those of before.  No queue gains a request, the request
    the publication names is gone, and no operation changes its terminal result. *)
Theorem dispatch_fuel_enough now w p :
  world_wf w ->
  exists w', dispatch now w p = Some w' /\
  (forall n, (dispatch_fuel w <= n)%nat -> publication_dispatch n now w p = Some w') /\
  (forall k id, capacity k w' id = capacity k w id) /\
  (forall id q, queues w !! id = Some q ->
    exists q', queues w' !! id = Some q' /\ queue_wf q' /\ requests q' ⊆+ requests q) /\
  (forall id token error, pub_queue p = Some (Some id, token, error) -> absent w' id token) /\
  (forall r c, controls w !! r = Some c -> is_finished c = true ->
    exists c', controls w' !! r = Some c' /\
      result (snapshot (state c')) = result (snapshot (state c))).
Proof.
  intros Hw. destruct (publication_settles (dispatch_fuel w) now w p Hw) as (w' & Hd & [Hs Hc] & Hq).
  { unfold dispatch_fuel. lia. }
  exists w'. split_and!; [done| |done| |done|].
  - intros n Hn. by apply (publication_refines (dispatch_fuel w) n now Hn).
  - intros id q Hid. destruct (sh_queue _ _ Hs _ _ Hid) as (q' & Hq' & Hsub). exists q'.
    split_and!; [done| |done]. by apply (sh_wf _ _ Hs id).
  - intros r c Hr Hf. destruct (proj1 (sh_controls _ _ Hs) _ _ Hr) as (c' & Hc' & _ & Hx).
    exists c'. split; [done|]. unfold is_finished, terminal in *.
    destruct (result (snapshot (state c))) as [x|]; [by apply Hx|done].
Qed.

(** ** Terminating an operation *)

(** An unfinished operation is ended through its table or directly; either way
    its own publication is dispatched. *)
Lemma terminate_publishes n publish w now r error cause c c' o pub :
  settles n publish -> world_wf w -> linked w -> (queued w < n)%nat ->
  controls w !! r = Some c -> terminal c = None -> select_failure c now error cause = (c', o, pub) ->
  exists w1 w2 w3, calm w w1 /\ controls w1 !! r = Some c' /\ publish w1 pub = Some w2 /\ calm w2 w3 /\
  terminate_with publish w now r error cause = Some (w3, Ok o).
Proof.
  intros Hpub Hw Hl Hn Hc Ht Hf.
  assert (forall p, core_select_failure (controls w) now r error cause = p ->
    p = (<[r := c']> (controls w), o, pub)) as Hcore.
  { intros p <-. unfold core_select_failure. by rewrite Hc, Hf. }
  pose proof (proj1 (core_select_failure_keeps _ _ _ _ _ _ _ _ (Hcore _ eq_refl))) as Hk.
  unfold terminate_with. rewrite Hc.
  change (Some c ≫= _) with (pending_identity (state c)).
  assert (exists w1 w2 w3, calm w w1 /\ controls w1 !! r = Some c' /\ publish w1 pub = Some w2 /\
    calm w2 w3 /\ (w0 ← publish (w <| controls := <[r := c']> (controls w) |>) pub;
      Some (w0, Ok (E := NetError) o)) = Some (w3, Ok o)) as Hdirect.
  { pose proof (calm_controls w _ Hw Hk) as H1.
    destruct (Hpub _ pub (calm_wf _ _ H1) Hn) as (w2 & H2 & H3). eexists _, w2, w2. rewrite H2.
    split_and!; [done|simpl; by rewrite lookup_insert_eq|done|by eapply calm_refl, calm_wf|done]. }
  destruct (pending_identity (state c)) as [who|] eqn:Hid.
  2: { destruct (core_select_failure _ _ _ _ _) as [[cs o'] pub'] eqn:Hsel.
       by injection (Hcore _ eq_refl) as -> -> ->. }
  destruct (tables w !! pi_table who) as [p|] eqn:Hp.
  2: { destruct (core_select_failure _ _ _ _ _) as [[cs o'] pub'] eqn:Hsel.
       by injection (Hcore _ eq_refl) as -> -> ->. }
  destruct (Hl _ _ Hp r c (pi_id who) (pi_token who) Hc Ht) as (e & He & Hce); [by destruct who|].
  unfold table_terminate.
  destruct (table_prepare_termination _ _ _ _ _ _ _ _) as [[cs p'] d'] eqn:Hfin.
  destruct (table_termination_keeps _ _ _ _ _ _ _ _ _ _ _ (pi_table who) Hfin) as [Hk' Hl'].
  pose proof (calm_table w cs (pi_table who) p p' Hw Hp Hk' Hl') as H1.
  unfold table_prepare_termination in Hfin. rewrite He, Hce in Hfin.
  destruct (core_select_failure _ _ _ _ _) as [[cs1 o1] pub1] eqn:Hsel.
  injection (Hcore _ eq_refl) as -> -> ->. injection Hfin as <- <- <-.
  cbv beta iota zeta. set (w0 := w <| controls := _; tables ::= _ |>) in *.
  assert (controls (drop_lease w0 (permit e)) !! r = Some c') as Hc'.
  { rewrite drop_lease_controls. apply lookup_insert_eq. }
  clearbody w0. simpl. unfold completion_dispatch. simpl.
  pose proof (drop_lease_calm _ (permit e) (calm_wf _ _ H1)) as H2.
  destruct (Hpub _ pub (calm_wf _ _ H2)) as (w2 & H3 & H4).
  { eapply calm_queued; [exact H2|]. by eapply calm_queued. }
  eexists (drop_lease w0 (permit e)), w2, _. rewrite H3. simpl.
  split_and!; [by eapply calm_trans|done|done| |reflexivity]. apply calm_wf in H4. outer.
Qed.

Lemma select_failure_open c now error cause :
  terminal c = None ->
  exists c' pub report, select_failure c now error cause =
    (c', failure_outcome (delivery (snapshot (state c))), pub) /\
  terminal c' = Some (Err (with_retry_report (located_error c (state c) error) report)) /\
  pub_queue pub = Some (queue (state c), cancelled_token c, located_error c (state c) error).
Proof.
  intros Ht. unfold select_failure, select_failure_locked, terminal in *. rewrite Ht. cbn [is_some].
  destruct (finish_locked _ _ _ _ _ _) as [s' p'] eqn:Hf.
  pose proof (finish_locked_spec _ _ _ _ _ _ _ _ Hf) as (Hr & _ & _ & _ & _ & _ & _ & _ & _ & _ & _ & _ & Hq & _).
  eexists _, _, _. split_and!; [done|exact Hr|]. rewrite Hq. by destruct (data_in_flight _).
Qed.

(** What ending an operation does to the world. *)
Record ends (w : World) (r : OpRef) (c : OperationControl) (error : NetError) (w' : World)
    (res : Result TerminationOutcome NetError) : Prop := {
  ends_finished x : terminal c = Some x -> exists c', controls w' !! r = Some c' /\ terminal c' = Some x;
  ends_open : terminal c = None -> res = Ok (failure_outcome (delivery (snapshot (state c)))) /\
    exists c' report, controls w' !! r = Some c' /\
      terminal c' = Some (Err (with_retry_report (located_error c (state c) error) report));
  ends_queue id : terminal c = None -> queue (state c) = Some id -> absent w' id (cancelled_token c);
}.

Lemma terminate_ends w now r c error cause :
  world_wf w -> linked w -> controls w !! r = Some c ->
  exists w' res, terminate w now r error cause = Some (w', res) /\ calm w w' /\ ends w r c error w' res.
Proof.
  intros Hw Hl Hc. pose proof (publisher_settles now w (queued w) (le_n _)) as Hset.
  unfold terminate. destruct (terminal c) as [x|] eqn:Ht.
  { destruct (terminate_settles _ _ Hset w now r error cause Hw ltac:(lia)) as (w' & res & Hterm & Hcalm).
    exists w', res. split_and!; [done|done|]. split; [|congruence|congruence]. intros x' Hx'.
    destruct (proj1 (sh_controls _ _ (proj1 Hcalm)) _ _ Hc) as (c' & Hc' & _ & Hk). exists c'.
    split; [done|]. by apply Hk. }
  destruct (select_failure_open c now error cause Ht) as (c' & pub & rep & Hf & Ht' & Hq).
  destruct (terminate_publishes _ _ w now r error cause c c' _ pub Hset Hw Hl ltac:(lia) Hc Ht Hf)
    as (w1 & w2 & w3 & H1 & Hc1 & Hp & H3 & Hterm).
  destruct (publication_settles (dispatch_fuel w) now w1 pub (calm_wf _ _ H1)) as (w2' & Hp' & H2 & Hno).
  { eapply calm_queued; [done|]. unfold dispatch_fuel. lia. }
  unfold publisher in Hp. rewrite Hp in Hp'. injection Hp' as <-.
  pose proof (calm_trans _ _ _ H2 H3) as H13.
  eexists _, _. split_and!; [done|by eapply calm_trans|]. split; [congruence| |].
  - intros _. split; [done|]. destruct (proj1 (sh_controls _ _ (proj1 H13)) _ _ Hc1) as (c3 & Hc3 & _ & Hk).
    exists c3, rep. split; [done|]. by apply Hk.
  - intros id _ Hid. apply (shrinks_absent _ _ _ _ (proj1 H3)). rewrite Hid in Hq. by eapply Hno.
Qed.

(** C10.  Ending an operation always returns and leaves it finished.  An unfinished
    operation ends with the given error in its own context, the caller learns the
    outcome its delivery evidence gives, and its message is in its queue no longer;
    a finished one keeps its result.  No capacity is lost. *)
Theorem terminate_ends_operation w now r c error cause :
  world_wf w -> linked w -> controls w !! r = Some c ->
  exists w' res c', terminate w now r error cause = Some (w', res) /\ controls w' !! r = Some c' /\
  (forall k id, capacity k w' id = capacity k w id) /\
  match result (snapshot (state c)) with
  | Some x => result (snapshot (state c')) = Some x
  | None =>
      res = Ok (failure_outcome (delivery (snapshot (state c)))) /\
      (exists report, result (snapshot (state c')) =
        Some (Err (with_retry_report (located_error c (state c) error) report))) /\
      (forall id, queue (state c) = Some id -> absent w' id (cancelled_token c))
  end.
Proof.
  intros Hw Hl Hc. destruct (terminate_ends w now r c error cause Hw Hl Hc) as (w' & res & Ht & Hcalm & Hends).
  exists w', res. destruct Hends as [Hfin Hopen Hq]. unfold terminal in *.
  destruct (result (snapshot (state c))) as [x|].
  - destruct (Hfin x eq_refl) as (c' & Hc' & Hx). exists c'. split_and!; [done|done|apply Hcalm|done].
  - destruct (Hopen eq_refl) as (Hres & c' & rep & Hc' & Hx). exists c'.
    split_and!; [done|done|apply Hcalm|done|by exists rep|]. intros id. by apply Hq.
Qed.

(** ** An operation that ends leaves its queue

    Whoever ends an operation also dispatches its publication, which takes its message out of the
    queue: when a call returns, no operation it ended is queued. *)

(** The requests a list of effects will take out of their queues. *)
Definition effect_publication (e : Effect) : option OperationPublication :=
  match e with EffComplete c => Some (cmp_publication c) | EffPublish p => Some p | _ => None end.

Definition names (p : OperationPublication) (id : QueueId) (t : Token) : Prop :=
  exists error, pub_queue p = Some (Some id, t, error).

Definition targets (es : list Effect) (id : QueueId) (t : Token) : Prop :=
  exists e p, e ∈ es /\ effect_publication e = Some p /\ names p id t.

(** Between two worlds operations only end, and those that did are queued no longer, or [T] names
    their message. *)
Record swept (T : QueueId -> Token -> Prop) (w w' : World) : Prop := {
  sw_open r c c' : controls w !! r = Some c -> controls w' !! r = Some c' -> terminal c' = None -> c' = c;
  sw_done r c c' id : controls w !! r = Some c -> terminal c = None -> controls w' !! r = Some c' -> is_Some (terminal c') ->
    queue (state c) = Some id -> absent w' id (cancelled_token c) \/ T id (cancelled_token c);
}.

Definition nothing (id : QueueId) (t : Token) : Prop := False.

Lemma swept_same T w w' : controls w' = controls w -> swept T w w'.
Proof.
  intros Hc. split; intros r c c'; rewrite Hc; [congruence|]. intros id H1 H2 H3 [x Hx] _. congruence.
Qed.

Lemma swept_trans T1 T2 w1 w2 w3 :
  shrinks w1 w2 -> shrinks w2 w3 -> swept T1 w1 w2 -> swept T2 w2 w3 ->
  (forall id t, T1 id t -> absent w3 id t \/ T2 id t) -> swept T2 w1 w3.
Proof.
  intros Hs1 Hs2 [O1 D1] [O2 D2] HT. split.
  - intros r c c3 H1 H3 Ht. destruct (proj1 (sh_controls _ _ Hs1) _ _ H1) as (c2 & H2 & _).
    pose proof (O2 _ _ _ H2 H3 Ht) as ->. by eapply O1.
  - intros r c c3 id H1 Ho H3 Ht Hq. destruct (proj1 (sh_controls _ _ Hs1) _ _ H1) as (c2 & H2 & _).
    destruct (terminal c2) as [x|] eqn:Hx.
    + destruct (D1 _ _ _ _ H1 Ho H2 ltac:(rewrite Hx; by eexists) Hq) as [Ha|?]; [|by apply HT].
      left. by eapply shrinks_absent.
    + pose proof (O1 _ _ _ H1 H2 Hx) as ->. by eapply D2.
Qed.

(** Without a publication that is left to dispatch. *)
Lemma swept_then w1 w2 w3 :
  shrinks w1 w2 -> shrinks w2 w3 -> swept nothing w1 w2 -> swept nothing w2 w3 -> swept nothing w1 w3.
Proof. intros H1 H2 H3 H4. eapply (swept_trans nothing nothing w1 w2 w3); [done..|]. by intros id t []. Qed.

Lemma core_failure_swept w w1 now r error cause cs o pub :
  core_select_failure (controls w) now r error cause = (cs, o, pub) -> controls w1 = cs -> swept (names pub) w w1.
Proof.
  unfold core_select_failure. destruct (controls w !! r) as [c|] eqn:Hc.
  2: { intros [= <- <- <-] H1. by apply swept_same. }
  destruct (select_failure c now error cause) as [[c' o'] pub'] eqn:Hf. intros [= <- <- <-] H1.
  destruct (select_failure_ends _ _ _ _ _ _ _ Hf) as (_ & [x Hx] & _). split; intros r1 c1 c2; rewrite H1.
  - intros Hr1 [[<- <-]|[_ Hr2]]%lookup_insert_Some Ht; congruence.
  - intros id Hr1 Ho [[<- <-]|[_ Hr2]]%lookup_insert_Some [y Hy] Hq; [|congruence].
    assert (c1 = c) as -> by congruence. destruct (select_failure_open c now error cause Ho) as (c3 & p3 & rep & Hf3 & _ & Hp). rewrite Hf in Hf3. simplify_eq.
    right. eexists. by rewrite Hp, Hq.
Qed.

Lemma swept_mono T1 T2 w w' : swept T1 w w' -> (forall id t, T1 id t -> T2 id t) -> swept T2 w w'.
Proof. intros [O D] H. split; [done|]. intros. edestruct D; eauto. Qed.

Lemma targets_in es e p id t : e ∈ es -> effect_publication e = Some p -> names p id t -> targets es id t.
Proof. intros. by exists e, p. Qed.

Lemma table_termination_swept w w1 now p id token error cause original cs p' d :
  table_prepare_termination (controls w) now p id token error cause original = (cs, p', d) -> controls w1 = cs ->
  swept (targets (deferred_effects d)) w w1.
Proof.
  unfold table_prepare_termination. destruct (matching_entry p id token) as [e|].
  - destruct (core_select_failure _ _ _ _ _) as [[cs1 o] pub] eqn:Hf. intros [= <- <- <-] H1.
    eapply swept_mono; [by eapply core_failure_swept|]. intros i t. eapply targets_in; [left|done].
  - destruct original as [r|]; [|intros [= <- <- <-] H1; by apply swept_same].
    destruct (core_select_failure _ _ _ _ _) as [[cs1 o] pub] eqn:Hf. intros [= <- <- <-] H1.
    eapply swept_mono; [by eapply core_failure_swept|]. intros i t. eapply targets_in; [left|done].
Qed.

Lemma prepare_termination_swept w now r error cause w' d :
  prepare_termination w now r error cause = (w', d) -> swept (targets (deferred_effects d)) w w'.
Proof.
  unfold prepare_termination.
  destruct (controls w !! r ≫= _) as [who|]; [destruct (tables w !! pi_table who) as [p|]|].
  - destruct (table_prepare_termination _ _ _ _ _ _ _ _) as [[cs p'] d'] eqn:Hf. intros [= <- <-].
    eapply swept_mono; [by eapply table_termination_swept|]. intros id t (e & q & He & Hq). exists e, q. split; [|done].
    revert He. unfold deferred_effects. simpl. rewrite !elem_of_app. intros [?|[?|He]]; [by left|by right; left|].
    destruct (def_pending d'); [|by apply elem_of_nil in He]. apply list_elem_of_singleton in He as ->. by destruct Hq.
  - destruct (core_select_failure _ _ _ _ _) as [[cs o] pub] eqn:Hf. intros [= <- <-].
    eapply swept_mono; [by eapply core_failure_swept|]. intros i t. eapply targets_in; [left|done].
  - destruct (core_select_failure _ _ _ _ _) as [[cs o] pub] eqn:Hf. intros [= <- <-].
    eapply swept_mono; [by eapply core_failure_swept|]. intros i t. eapply targets_in; [left|done].
Qed.

Section Sweeps.
Context (n : nat) (publish : World -> OperationPublication -> option World).
Hypothesis Hset : settles n publish.
Hypothesis Hsweep : forall w p w', world_wf w -> (queued w < n)%nat -> publish w p = Some w' ->
  swept nothing w w' /\ forall id t, names p id t -> absent w' id t.

Lemma effect_sweeps w e w' :
  world_wf w -> (queued w < n)%nat -> effect_dispatch publish w e = Some w' ->
  swept nothing w w' /\ forall id t, targets [e] id t -> absent w' id t.
Proof.
  intros Hw Hn. assert (forall id t, targets [e] id t -> exists p, effect_publication e = Some p /\ names p id t) as Hone.
  { intros id t (e' & p & ->%list_elem_of_singleton & Hp & Ht). by exists p. }
  destruct e as [c|p|t|t|l]; simpl; intros H.
  - revert H. unfold completion_dispatch. set (w1 := drop_lease w _). pose proof (drop_lease_calm w (permit (cmp_entry c)) Hw) as H1. fold w1 in H1.
    destruct (publish w1 _) as [w2|] eqn:H2; [|done]. intros [= <-].
    destruct (Hset w1 (cmp_publication c)) as (w2' & H2' & Hc2); [by eapply calm_wf|by eapply calm_queued|]. simplify_eq.
    destruct (Hsweep _ _ _ (calm_wf _ _ H1) (calm_queued _ _ _ H1 Hn) H2) as [Hs Ha]. split.
    + assert (swept nothing w w2) as [O D]; [|by split].
      eapply swept_then; [apply H1|apply Hc2|by apply swept_same, drop_lease_controls|done].
    + intros id t (p & [= <-] & Ht)%Hone. by apply Ha.
  - destruct (Hsweep _ _ _ Hw Hn H) as [Hs Ha]. split; [done|]. intros id t (q & [= <-] & Ht)%Hone. by apply Ha.
  - simplify_eq. split; [by apply swept_same|]. by intros id t' (q & ? & _)%Hone.
  - simplify_eq. split; [by apply swept_same|]. by intros id t' (q & ? & _)%Hone.
  - simplify_eq. split; [by apply swept_same, drop_lease_controls|]. by intros id t' (q & ? & _)%Hone.
Qed.

Lemma effects_sweep es : forall w w', world_wf w -> (queued w < n)%nat -> effects_dispatch publish w es = Some w' ->
  swept nothing w w' /\ forall id t, targets es id t -> absent w' id t.
Proof.
  induction es as [|e es IH]; intros w w' Hw Hn; simpl.
  { intros [= <-]. split; [by apply swept_same|]. by intros id t (e & p & ?%elem_of_nil & _). }
  destruct (effect_settles n publish Hset w e Hw Hn) as (w1 & H1 & Hc1). rewrite H1. simpl. intros H2.
  destruct (effects_settle n publish Hset es w1) as (w2 & H2' & Hc2); [by eapply calm_wf|by eapply calm_queued|]. simplify_eq.
  destruct (effect_sweeps _ _ _ Hw Hn H1) as [Hs1 Ha1].
  destruct (IH w1 w') as [Hs2 Ha2]; [by eapply calm_wf|by eapply calm_queued|done|].
  split; [eapply swept_then; [apply Hc1|apply Hc2|done|done]|].
  intros id t (e' & p & [->|He]%elem_of_cons & Hp & Ht).
  - eapply shrinks_absent; [apply Hc2|]. apply Ha1. eapply targets_in; [by left|done..].
  - apply Ha2. by eapply targets_in.
Qed.

(** A prepared termination whose effects follow. *)
Lemma deferred_sweeps w w1 w2 es : shrinks w w1 -> world_wf w1 -> (queued w1 < n)%nat -> swept (targets es) w w1 ->
  effects_dispatch publish w1 es = Some w2 -> swept nothing w w2.
Proof.
  intros Hs Hw1 Hn1 Hsw H2. destruct (effects_settle n publish Hset es w1 Hw1 Hn1) as (w2' & H2' & Hc2). simplify_eq.
  destruct (effects_sweep es w1 w2 Hw1 Hn1 H2) as [Hs2 Ha2].
  eapply swept_trans; [exact Hs|apply Hc2|exact Hsw|done|]. intros id t Ht. left. by apply Ha2.
Qed.

Lemma failure_sweeps w now r error cause cs o pub w' : world_wf w -> (queued w < n)%nat ->
  core_select_failure (controls w) now r error cause = (cs, o, pub) -> publish (w <| controls := cs |>) pub = Some w' ->
  swept nothing w w'.
Proof.
  intros Hw Hn Hf Hp. pose proof (calm_controls w cs Hw (proj1 (core_select_failure_keeps _ _ _ _ _ _ _ _ Hf))) as H1.
  eapply (deferred_sweeps w (w <| controls := cs |>) w' [EffPublish pub]); [apply H1|by eapply calm_wf|done| |].
  2: { cbn [effects_dispatch effect_dispatch]. change (publish _ pub) with (publish (w <| controls := cs |>) pub). by rewrite Hp. }
  eapply swept_mono; [by eapply core_failure_swept|]. intros i t. eapply targets_in; [left|done].
Qed.

Lemma terminate_sweeps w now r error cause w' res :
  world_wf w -> (queued w < n)%nat -> terminate_with publish w now r error cause = Some (w', res) -> swept nothing w w'.
Proof.
  intros Hw Hn. unfold terminate_with.
  destruct (controls w !! r ≫= _) as [who|]; [destruct (tables w !! pi_table who) as [p|] eqn:Hp|].
  - unfold table_terminate. destruct (table_prepare_termination _ _ _ _ _ _ _ _) as [[cs p'] d'] eqn:Hf.
    destruct (table_termination_keeps _ _ _ _ _ _ _ _ _ _ _ (pi_table who) Hf) as [Hk Hl].
    pose proof (calm_table w cs (pi_table who) p p' Hw Hp Hk Hl) as H1.
    destruct (effects_dispatch publish _ _) as [w2|] eqn:H2; [|done]. intros [= <- _].
    eapply deferred_sweeps; [apply H1|by eapply calm_wf|done|by eapply table_termination_swept|exact H2].
  - destruct (core_select_failure _ _ _ _ _) as [[cs o] pub] eqn:Hf. destruct (publish _ _) as [w2|] eqn:H2; [|done].
    intros [= <- _]. by eapply failure_sweeps.
  - destruct (core_select_failure _ _ _ _ _) as [[cs o] pub] eqn:Hf. destruct (publish _ _) as [w2|] eqn:H2; [|done].
    intros [= <- _]. by eapply failure_sweeps.
Qed.

Lemma drop_permits_controls w r : controls (drop_permits w r).1 = controls w.
Proof. unfold drop_permits, drop_slot_permit, drop_byte_permit. by destruct (slot_permit r), (byte_permit r). Qed.

Lemma drop_request_sweeps w now r w' :
  world_wf w -> (queued w < n)%nat -> drop_request_with publish w now r = Some w' -> swept nothing w w'.
Proof.
  intros Hw Hn. unfold drop_request_with. pose proof (drop_permits_controls w r) as Hc. destruct (drop_permits w r) as [w1 r1] eqn:Hd.
  destruct (drop_permits_spec _ _ _ _ Hw Hd) as [Hr _]. simpl in Hc.
  destruct (completed r1); [intros [= <-]; by apply swept_same|].
  destruct (terminate_with _ _ _ _ _ _) as [[w2 res]|] eqn:H2; [|done]. intros [= <-].
  destruct (terminate_settles n publish Hset w1 now (dispatch_phase r1) (NetError_new ErrorKind.EngineDropped)
    TaskEndCause.Shutdown) as (w2' & res' & H2' & Hc2); [apply Hr|by eapply returns_queued|]. simplify_eq.
  eapply swept_then; [apply Hr|apply Hc2|by apply swept_same|]. eapply terminate_sweeps; [apply Hr|by eapply returns_queued|done].
Qed.

(** A request that was taken out is retired. *)
Lemma retirement_sweeps w now r error w1 r1 w2 r2 :
  world_wf w -> (queued w < n)%nat ->
  prepare_retirement w now r error = (w1, r1) -> dispatch_retirement publish w1 r1 = Some (w2, r2) -> swept nothing w w2.
Proof.
  intros Hw Hn H1. pose proof (prepare_retirement_calm _ _ _ _ _ _ Hw H1) as (Hc1 & _). unfold dispatch_retirement.
  assert (swept (fun id t => exists d, qr_retirement r1 = Some d /\ targets (deferred_effects d) id t) w w1) as Hs1.
  { revert H1. unfold prepare_retirement. destruct (_ && _); [|intros [= <- <-]; by apply swept_same].
    destruct (prepare_termination _ _ _ _ _) as [w0 d] eqn:Hp. intros [= <- <-].
    eapply swept_mono; [by eapply prepare_termination_swept|]. simpl. by exists d. }
  destruct (qr_retirement r1) as [d|].
  2: { intros [= <- _]. eapply swept_mono; [exact Hs1|]. by intros id t (d & ? & _). }
  pose proof (drop_permits_controls w1 (r1 <| qr_retirement := None; completed := true |>)) as Hcc.
  destruct (drop_permits w1 _) as [w3 r3] eqn:Hd. destruct (drop_permits_spec _ _ _ _ (calm_wf _ _ Hc1) Hd) as [Hret _]. simpl in Hcc.
  destruct (effects_dispatch publish w3 _) as [w4|] eqn:H4; [|done]. intros [= <- _].
  eapply (deferred_sweeps w w3); [eapply shrinks_trans; [apply Hc1|apply Hret]|apply Hret| | |exact H4].
  - eapply returns_queued; [exact Hret|]. by eapply calm_queued.
  - eapply swept_trans; [apply Hc1|apply Hret|exact Hs1|by apply swept_same|]. intros id t (d' & [= <-] & ?). by right.
Qed.

Lemma cancel_queued_sweeps w now id token error w' b :
  world_wf w -> (queued w < S n)%nat -> cancel_queued_with publish w now id token error = Some (w', b) -> swept nothing w w'.
Proof.
  intros Hw Hn. unfold cancel_queued_with. destruct (queues w !! id) as [q|] eqn:Hq; [|intros [= <- _]; by apply swept_same].
  destruct (take_queued q token) as [q' [r|]] eqn:Ht; [|intros [= <- _]; by apply swept_same].
  destruct (take_takes w id q token q' r Hw Hq Ht) as ((Hsh & Hlt & _) & _). set (w0 := w <| queues ::= <[id := q']> |>) in *.
  assert (queued w0 < n)%nat as Hn0 by lia. pose proof (sh_wf _ _ Hsh) as Hw0.
  destruct (prepare_retirement w0 now r error) as [w1 r1] eqn:H1.
  destruct (prepare_retirement_calm _ _ _ _ _ _ Hw0 H1) as (Hc1 & _).
  destruct (dispatch_retirement_settles n publish Hset w1 r1) as (w2 & r2 & H2 & Hcase);
    [by eapply calm_wf|by eapply calm_queued|]. rewrite H2. simpl.
  assert (shrinks w0 w2) as Hs2.
  { destruct Hcase as [[-> _]|[[Hs _] _]]; [apply Hc1|]. eapply shrinks_trans; [apply Hc1|done]. }
  destruct (drop_request_settles n publish Hset w2 now r2) as (w3 & H3 & Hr3); [apply Hs2|pose proof (sh_length _ _ Hs2); lia|].
  rewrite H3. simpl. intros [= <- _].
  eapply (swept_then w w0); [done|eapply shrinks_trans; [exact Hs2|apply Hr3]|by apply swept_same|].
  eapply swept_then; [exact Hs2|apply Hr3|by eapply retirement_sweeps|].
  eapply drop_request_sweeps; [apply Hs2|pose proof (sh_length _ _ Hs2); lia|done].
Qed.

End Sweeps.

Lemma publish_rest_controls w p : controls (publish_rest w p) = controls w.
Proof.
  unfold publish_rest, cancel_world_token.
  by destruct (pub_hook p) as [[n h]|], (pub_retirement p), (pub_cancelled p), (task p) as [[r ev]|],
    (pub_written p), (pub_retry p) as [[[o [a|]] e]|].
Qed.

Lemma publication_sweeps fuel now : forall w p w', world_wf w -> (queued w < fuel)%nat ->
  publication_dispatch fuel now w p = Some w' -> swept nothing w w' /\ forall id t, names p id t -> absent w' id t.
Proof.
  induction fuel as [|fuel IH]; intros w p w' Hw Hn Hd; [lia|].
  destruct (publication_settles (S fuel) now w p Hw Hn) as (w2 & Hd' & Hcalm & Habs). simplify_eq.
  split; [|intros id t [error Hp]; by eapply Habs]. revert Hd. simpl.
  assert (settles fuel (publication_dispatch fuel now)) as Hset.
  { intros w1 p1 Hw1 Hn1. destruct (publication_settles fuel now w1 p1 Hw1 Hn1) as (w3 & ? & ? & _). by exists w3. }
  destruct (pub_queue p) as [[[[id|] token] error]|].
  - destruct (cancel_queued_settles fuel _ Hset w now id token error Hw Hn) as (w1 & b & H1 & Hc1 & _). rewrite H1. simpl. intros [= <-].
    eapply swept_then; [apply Hc1|apply publish_rest_calm, (calm_wf _ _ Hc1)| |by apply swept_same, publish_rest_controls].
    by eapply cancel_queued_sweeps.
  - intros [= <-]. by apply swept_same, publish_rest_controls.
  - intros [= <-]. by apply swept_same, publish_rest_controls.
Qed.

(** Ending an operation, whichever one and however it was bound. *)
Lemma terminate_swept w now r error cause w' res :
  world_wf w -> terminate w now r error cause = Some (w', res) -> swept nothing w w'.
Proof.
  intros Hw. unfold terminate. eapply (terminate_sweeps (dispatch_fuel w)); [|by intros; eapply publication_sweeps|done|].
  - by apply publisher_settles.
  - unfold dispatch_fuel. lia.
Qed.

(** ** Groups of operations *)

Lemma run_hooks_ends hs w now :
  world_wf w -> linked w ->
  exists w', run_hooks w now hs = Some w' /\ calm w w' /\ swept nothing w w' /\
  forall h r, h ∈ hs -> hook_owner w !! h = Some r -> is_Some (controls w !! r) ->
    exists c', controls w' !! r = Some c' /\ is_Some (terminal c').
Proof.
  revert w. induction hs as [|h hs IH]; intros w Hw Hl; simpl.
  { exists w. split_and!; [done|by apply calm_refl|by apply swept_same|by intros h r ?%elem_of_nil]. }
  destruct (hook_owner w !! h) as [r|] eqn:Hh.
  2: { destruct (IH w Hw Hl) as (w' & -> & Hcalm & Hsw & Hends). exists w'. split_and!; [done|done|done|].
       intros h1 r1 [->|Hin]%elem_of_cons Hr1 Hc1; [congruence|by eapply Hends]. }
  unfold cancel.
  assert (exists w1 res, terminate w now r (NetError_new ErrorKind.Cancelled) TaskEndCause.Cancelled =
    Some (w1, res) /\ calm w w1 /\ ended (controls w1) r) as (w1 & res & Ht1 & Hc1 & Hend).
  { destruct (controls w !! r) as [c|] eqn:Hc.
    - destruct (terminate_ends w now r c (NetError_new ErrorKind.Cancelled) TaskEndCause.Cancelled Hw Hl Hc)
        as (w1 & res & Ht & Hcalm & [Hfin Hopen _]). exists w1, res. split_and!; [done|done|].
      intros c' Hc'. destruct (terminal c) as [x|].
      + destruct (Hfin _ eq_refl) as (c2 & ? & ?). simplify_eq. by eexists.
      + destruct (Hopen eq_refl) as (_ & c2 & rep & ? & ?). simplify_eq. by eexists.
    - destruct (terminate_settles _ _ (publisher_settles now w (queued w) (le_n _)) w now r
        (NetError_new ErrorKind.Cancelled) TaskEndCause.Cancelled Hw ltac:(lia)) as (w1 & res & Ht & Hcalm).
      exists w1, res. split_and!; [done|done|]. intros c' Hc'.
      destruct (proj2 (sh_controls _ _ (proj1 Hcalm)) r) as [c0 Hc0]; [by eexists|congruence]. }
  pose proof (terminate_swept _ _ _ _ _ _ _ Hw Ht1) as Hsw1. rewrite Ht1.
  simpl. destruct (IH w1) as (w' & -> & Hc2 & Hsw2 & Hends); [by eapply calm_wf|by apply Hc1|].
  exists w'. split_and!; [done|by eapply calm_trans|eapply swept_then; [apply Hc1|apply Hc2|done|done]|].
  destruct Hc1 as [Hs1 _], Hc2 as [Hs2 _]. intros h1 r1 Hin Hr1 [c1 Hcr].
  destruct (proj1 (sh_controls _ _ Hs1) _ _ Hcr) as (c2 & Hcr2 & _).
  apply elem_of_cons in Hin as [->|Hin].
  - simplify_eq. destruct (Hend _ Hcr2) as [x Hx].
    destruct (proj1 (sh_controls _ _ Hs2) _ _ Hcr2) as (c3 & Hcr3 & _ & Hk). exists c3.
    split; [done|]. by exists x; apply Hk.
  - eapply Hends; [done| |by eexists]. by rewrite (sh_hooks _ _ Hs1).
Qed.

(** C19.  Cancelling a group ends every operation bound to the group or to one of its
    descendants: the cancellation returns, and each such operation is finished; the message of one
    that was not finished before is in its queue no longer.  Its capacity is back: the permits of
    every queue that are available or held by a queued message are those of before. *)
Theorem group_cancel_ends_operations w now n :
  world_wf w -> linked w -> reachable (env_trees (env w)) -> is_Some (nodes (env_trees (env w)) !! n) ->
  exists w', group_cancel w now n = Some w' /\
  (forall k id, capacity k w' id = capacity k w id) /\
  forall m s h r c, descendant (env_trees (env w)) n m -> nodes (env_trees (env w)) !! m = Some s ->
    h ∈ hooks s -> hook_owner w !! h = Some r -> controls w !! r = Some c ->
    (exists c', controls w' !! r = Some c' /\ is_finished c' = true) /\
    (is_finished c = false -> forall id, queue (state c) = Some id -> absent w' id (cancelled_token c)).
Proof.
  intros Hw Hl Ht Hn. unfold group_cancel.
  destruct (cancellation_cancel (env_trees (env w)) n) as [t hs] eqn:Hc.
  destruct (cancel_effect _ _ _ _ (reachable_wf _ Ht) Hn Hc) as (vs & _ & _ & _ & _ & Hhs).
  destruct (run_hooks_ends hs (w <| env := mkEnv t (env_tokens (env w)) |>) now) as (w' & Hr & Hcalm & Hsw & Hends);
    [done|done|].
  exists w'. split_and!; [exact Hr|exact (proj2 Hcalm)|].
  intros m s h r c Hd Hs Hh Ho Hcr. destruct (Hends h r) as (c' & Hc' & x & Hx).
  - apply Hhs. by exists m, s.
  - done.
  - by eexists.
  - split; [exists c'; split; [done|]; unfold is_finished, terminal in *; by rewrite Hx|]. intros Hf id Hq.
    assert (terminal c = None) as Hopen by (unfold is_finished in Hf; unfold terminal; by destruct (result (snapshot (state c)))).
    destruct (sw_done _ _ _ Hsw r c c' id Hcr Hopen Hc' ltac:(by eexists) Hq) as [?|[]]. done.
Qed.

(** ** Draining a queue *)

(** Capacity that is outside the queues, in the hands of [rs]. *)
Lemma retire_requests_settle n publish w rs :
  settles n publish -> world_wf w -> (queued w < n)%nat -> Forall (fun r => is_Some (qr_retirement r)) rs ->
  exists w' rs', dispatch_retirements publish w rs = Some (w', rs') /\ shrinks w w' /\
  forall k id, capacity k w' id = (fun z => z + held k id rs) <$> capacity k w id.
Proof.
  intros Hset. revert w. induction rs as [|r rs IH]; intros w Hw Hn Hall; simpl.
  { eexists _, _. split; [done|]. split; [by apply calm_refl|].
    intros k id. destruct (capacity k w id); simpl; [f_equal; lia|done]. }
  apply Forall_cons in Hall as [[d Hd] Hall].
  destruct (dispatch_retirement_settles n publish Hset w r Hw Hn) as (w1 & r1 & H1 & Hcase).
  assert (returns w r w1) as Hr.
  { destruct Hcase as [[-> ->]|[? _]]; [|done]. exfalso. revert H1. unfold dispatch_retirement.
    rewrite Hd. simpl. destruct (effects_dispatch publish _ _); [|done]. simpl. intros [= _ Heq].
    apply (f_equal qr_retirement) in Heq. simpl in Heq. congruence. }
  rewrite H1. simpl. destruct (IH w1) as (w2 & rs2 & H2 & Hs2 & Hc2);
    [apply Hr|by eapply returns_queued|done|].
  rewrite H2. simpl. eexists _, _. split; [done|]. destruct Hr as [Hs1 Hc1].
  split; [by eapply shrinks_trans|]. intros k id. rewrite Hc2, Hc1.
  destruct (capacity k w id); simpl; [f_equal; lia|done].
Qed.

(** A request that no drain has touched yet. *)
Definition fresh_request (r : QueuedRequest) : Prop := qr_retirement r = None /\ completed r = false.

Lemma prepare_termination_ends w now r error cause w' d :
  linked w -> prepare_termination w now r error cause = (w', d) -> ended (controls w') r.
Proof.
  intros Hl. unfold prepare_termination.
  destruct (controls w !! r) as [c|] eqn:Hc; simpl.
  2: { destruct (core_select_failure _ _ _ _ _) as [[cs o] pub] eqn:Hf. intros [= <- <-].
       by apply core_select_failure_keeps in Hf as [_ ?]. }
  destruct (pending_identity (state c)) as [who|] eqn:Hid.
  2: { destruct (core_select_failure _ _ _ _ _) as [[cs o] pub] eqn:Hf. intros [= <- <-].
       by apply core_select_failure_keeps in Hf as [_ ?]. }
  destruct (tables w !! pi_table who) as [p|] eqn:Hp.
  2: { destruct (core_select_failure _ _ _ _ _) as [[cs o] pub] eqn:Hf. intros [= <- <-].
       by apply core_select_failure_keeps in Hf as [_ ?]. }
  destruct (table_prepare_termination _ _ _ _ _ _ _ _) as [[cs p'] d'] eqn:Hfin. intros [= <- <-].
  destruct (table_termination_keeps _ _ _ _ _ _ _ _ _ _ _ (pi_table who) Hfin) as [[Hk _] _].
  destruct (Hk _ _ Hc) as (c' & Hc' & _ & Hx). intros c1 Hc1. simpl in Hc1. simplify_eq.
  destruct (terminal c) as [x|] eqn:Ht; [exists x; by apply Hx|].
  destruct (Hl _ _ Hp r c (pi_id who) (pi_token who) Hc Ht) as (e & He & Hce); [by destruct who|].
  unfold table_prepare_termination in Hfin. rewrite He, Hce in Hfin.
  destruct (core_select_failure _ _ _ _ _) as [[cs1 o1] pub1] eqn:Hsel. injection Hfin as <- _ _.
  apply core_select_failure_keeps in Hsel as [_ Hend]. by apply Hend.
Qed.

Lemma ended_keeps cs cs' r : keeps cs cs' -> ended cs r -> ended cs' r.
Proof.
  intros [Hk Hb] He c' Hc'. destruct (Hb r) as [c Hc]; [by eexists|].
  destruct (He _ Hc) as [x Hx]. destruct (Hk _ _ Hc) as (c2 & Hc2 & _ & Hxx). simplify_eq.
  exists x. by apply Hxx.
Qed.

Lemma prepare_retirements_spec w now rs error w' rs' :
  world_wf w -> linked w -> Forall fresh_request rs -> prepare_retirements w now rs error = (w', rs') ->
  calm w w' /\ (forall k id, held k id rs' = held k id rs) /\
  Forall (fun r => is_Some (qr_retirement r)) rs' /\ Forall (fun r => ended (controls w') (dispatch_phase r)) rs.
Proof.
  revert w rs'. induction rs as [|r rs IH]; intros w rs' Hw Hl; simpl.
  { intros _ [= <- <-]. split_and!; [by apply calm_refl|done|constructor|constructor]. }
  intros [[Hf1 Hf2] Hf]%Forall_cons. unfold prepare_retirement. rewrite Hf1, Hf2. simpl.
  destruct (prepare_termination w now (dispatch_phase r) error _) as [w1 d] eqn:Hp.
  pose proof (prepare_termination_calm _ _ _ _ _ _ _ Hw Hp) as H1.
  apply prepare_termination_ends in Hp; [|done].
  destruct (prepare_retirements w1 now rs error) as [w2 rs2] eqn:H2. intros [= <- <-].
  destruct (IH w1 rs2) as (H3 & Hh & Hret & Hend); [by eapply calm_wf|by apply H1|done|done|].
  split_and!; [by eapply calm_trans| | |].
  - intros k id. simpl. rewrite Hh. by destruct k.
  - constructor; [by eexists|done].
  - constructor; [|done]. eapply ended_keeps; [|done]. apply H3.
Qed.

(** Emptying a queue takes the permits of its requests out of the account. *)
Lemma drained_spec w id q q' rs :
  world_wf w -> queues w !! id = Some q -> queue_drain q = (q', rs) ->
  shrinks w (w <| queues ::= <[id := q']> |>) /\ requests q' = [] /\ rs = requests q /\
  forall k j, capacity k (w <| queues ::= <[id := q']> |>) j =
    (fun z => z - held k j rs) <$> capacity k w j.
Proof.
  intros Hw Hq Hd. pose proof (queue_drain_spec q) as Hsp. rewrite Hd in Hsp.
  destruct Hsp as (-> & Hempty & Hw' & Hts & Hbs).
  assert (total (queues w) ≡ₚ requests q ++ total (<[id := q']> (queues w))) as Htot.
  { by rewrite (total_delete _ _ _ Hq), total_update, Hempty. }
  split_and!; [|done|done|].
  - apply shrinks_queues; [by apply insert_queue_wf| | |].
    + intros j qj Hj. destruct (decide (id = j)) as [<-|].
      * rewrite lookup_insert_eq. exists q'. split; [done|]. rewrite Hempty. apply submseteq_nil_l.
      * rewrite lookup_insert_ne by done. by exists qj.
    + intros j qj. destruct (decide (id = j)) as [<-|]; [by rewrite Hq|].
      rewrite lookup_insert_ne by done. by eexists.
    + rewrite Htot, length_app. lia.
  - intros k j. unfold capacity. simpl. rewrite <- option_fmap_compose.
    rewrite (held_proper k j _ _ Htot), held_app.
    destruct (decide (id = j)) as [<-|].
    + rewrite lookup_insert_eq, Hq. simpl. assert (cap_sem k q' = cap_sem k q) as ->; [by destruct k|f_equal; lia].
    + rewrite lookup_insert_ne by done. destruct (queues w !! j); simpl; [f_equal; lia|done].
Qed.

(** Draining a queue for shutdown leaves it empty, ends every operation whose
    message was queued, and returns exactly the capacity those messages held. *)
Theorem drain_ends_everything w now id q error :
  world_wf w -> linked w -> queues w !! id = Some q -> Forall fresh_request (requests q) ->
  exists w' rs q', drain_with_error w now id error = Some (w', rs) /\
  queues w' !! id = Some q' /\ requests q' = [] /\
  (forall k j, capacity k w' j = capacity k w j) /\
  forall r c, r ∈ requests q -> controls w !! dispatch_phase r = Some c ->
    exists c', controls w' !! dispatch_phase r = Some c' /\ is_finished c' = true.
Proof.
  intros Hw Hl Hq Hfresh. unfold drain_with_error, retire_all. rewrite Hq.
  destruct (queue_drain q) as [q1 rs] eqn:Hd.
  destruct (drained_spec w id q q1 rs Hw Hq Hd) as (Hs1 & Hempty & -> & Hc1).
  set (w1 := w <| queues ::= <[id := q1]> |>) in *.
  destruct (prepare_retirements w1 now (requests q) error) as [w2 rs2] eqn:Hprep.
  destruct (prepare_retirements_spec w1 now (requests q) error w2 rs2) as (H2 & Hh & Hret & Hend);
    [apply Hs1|by apply Hs1|done|done|].
  destruct (retire_requests_settle _ _ w2 rs2 (publisher_settles now w2 (queued w2) (le_n _)))
    as (w3 & rs3 & -> & Hs3 & Hc3); [by eapply calm_wf|lia|done|].
  assert (shrinks w1 w3) as Hs13 by (eapply shrinks_trans; [apply H2|done]).
  destruct (sh_queue _ _ Hs13 id q1) as (q3 & Hq3 & Hsub); [apply lookup_insert_eq|].
  exists w3, rs3, q3. split_and!; [done|done| | |].
  - rewrite Hempty in Hsub. by apply submseteq_nil_r in Hsub.
  - intros k j. rewrite Hc3, (proj2 H2), Hc1, Hh.
    destruct (capacity k w j); simpl; [f_equal; lia|done].
  - intros r c Hr Hc. destruct (proj1 (sh_controls _ _ (shrinks_trans _ _ _ Hs1 Hs13)) _ _ Hc)
      as (c3 & Hc3' & _). exists c3. split; [done|].
    rewrite Forall_forall in Hend.
    destruct (ended_keeps _ _ _ (sh_controls _ _ Hs3) (Hend _ Hr) _ Hc3') as [x Hx].
    unfold is_finished, terminal in *. by rewrite Hx.
Qed.

End Theory.

(** ** Requests stay in their table until they end *)

Section Links.
Context {clk : Clock} {libm : Libm}.

Lemma keeps_step cs r c c' :
  cs !! r = Some c -> same_identity c c' -> (forall x, terminal c = Some x -> terminal c' = Some x) ->
  keeps cs (<[r := c']> cs).
Proof.
  intros Hc Hi Hx. split.
  - intros r1 c1 H1. destruct (decide (r = r1)) as [<-|].
    + rewrite lookup_insert_eq. simplify_eq. by exists c'.
    + rewrite lookup_insert_ne by done. by exists c1.
  - intros r1. destruct (decide (r = r1)) as [<-|]; [by rewrite Hc|]. by rewrite lookup_insert_ne.
Qed.

(** The entries that a change leaves. *)
Lemma linked_entries cs tid p p' :
  (forall id e, entries p !! id = Some e -> exists e', entries p' !! id = Some e' /\
    registration e' = registration e /\ core e' = core e) ->
  linked_table cs tid p -> linked_table cs tid p'.
Proof.
  intros He Hl r c id token Hc Ht Hp. destruct (Hl r c id token Hc Ht Hp) as (e & [Hid Htok]%matching_entry_Some & Hcore).
  destruct (He _ _ Hid) as (e' & Hid' & Hr & Hc'). exists e'.
  rewrite matching_entry_Some, Hr, Hc'. done.
Qed.

Lemma entry_change_same now p e e' :
  entry_change now p e e' -> registration e' = registration e /\ core e' = core e.
Proof.
  intros [conn|Hd|at_ e1 Hes|d b error cause Hgr]; try done. unfold establish in Hes.
  destruct (timeout_origin e); [by injection Hes as <-|]. destruct (add_timeout _ _); [|done].
  by injection Hes as <-.
Qed.

Lemma select_response_ends c env now c' won pub :
  control_inv c -> select_response c env now = (c', won, pub) ->
  same_identity c c' /\ is_Some (terminal c') /\ forall x, terminal c = Some x -> terminal c' = Some x.
Proof.
  intros Hi Hs. pose proof (select_response_identity c env now) as Hid. rewrite Hs in Hid.
  pose proof (fun x => control_step_terminal c env now OpSelectResponse x Hi) as Hx.
  simpl in Hx. rewrite Hs in Hx. split_and!; [done| |done].
  destruct (terminal c) as [x|] eqn:Ht; [exists x; by apply Hx|].
  assert (not_ok c) as Hn by (intros r; congruence).
  pose proof (select_response_result c env now c' won pub Hn Hs) as Hr.
  destruct won; [by eexists|]. destruct Hr as [e He]. by eexists.
Qed.

Lemma linked_register env now cs p r c c' req e token tid :
  linked_table cs tid p -> cs !! r = Some c -> entries p !! req_id req = None ->
  bind_request c env now tid (req_id req) token = (c', Ok tt) -> core e = r ->
  reg_token (registration e) = token ->
  linked_table (<[r := c']> cs) tid ((set_entry p (req_id req) e) <| next_token := token |>).
Proof.
  intros Hl Hc Hnone Hb Hcore Hreg r1 c1 id1 token1 Hc1 Ht1 Hp1.
  unfold bind_request in Hb. destruct (check_active c env now (state c)); [|done].
  destruct (pending_identity (state c)) eqn:Hpi; [done|]. injection Hb as <-.
  destruct (decide (r = r1)) as [<-|Hne].
  - rewrite lookup_insert_eq in Hc1. injection Hc1 as <-. simpl in Hp1. injection Hp1 as <- <-.
    exists e. split; [|done]. apply matching_entry_Some. simpl. by rewrite lookup_insert_eq.
  - rewrite lookup_insert_ne in Hc1 by done.
    destruct (Hl _ _ _ _ Hc1 Ht1 Hp1) as (e1 & [Hid1 Htok1]%matching_entry_Some & Hcore1).
    exists e1. split; [|done]. apply matching_entry_Some. simpl. rewrite lookup_insert_ne; [done|].
    intros <-. congruence.
Qed.

Lemma linked_change env now cs p cs' p' d a :
  table_inv cs p -> change env now cs p cs' p' d a ->
  linked_table cs (table_id p) p -> linked_table cs' (table_id p') p' /\ table_id p' = table_id p.
Proof.
  intros Hinv Hch Hl. destruct Hch as [? Hf|r op Hs|id e e' Hid Hc|id e error cause cs' o pub Hid Hf
    |id e cs' pub error Hid Hw Herr|id e response cs' won pub res Hid Hr Hf
    |r c c' req e token Hc Hid Hcl Ht Hses Hb Hcore Hreq Hg Hgu Hd Hreg].
  - assert (entries p' = entries p /\ table_id p' = table_id p) as [He ->] by by destruct Hf.
    split; [|done]. eapply linked_entries; [|done]. intros id e Hid. exists e. by rewrite He.
  - split; [|done]. eapply linked_keeps; [|done]. destruct (cs !! r) as [c|] eqn:Hc.
    + rewrite (alter_as_insert _ _ _ _ Hc). destruct (ti_store _ _ Hinv _ _ Hc) as [Hi _].
      eapply keeps_step; [done|by apply control_step_identity|]. intros. by apply control_step_terminal.
    + replace (alter _ r cs) with cs; [apply keeps_refl|]. apply map_eq. intros j.
      destruct (decide (j = r)) as [->|]; [by rewrite lookup_alter_eq, Hc|by rewrite lookup_alter_ne].
  - split; [|done]. apply entry_change_same in Hc as [Hr Hc]. eapply linked_entries; [|done].
    intros id1 e1 Hid1. simpl. destruct (decide (id = id1)) as [<-|].
    + exists e'. rewrite lookup_insert_eq. by simplify_eq.
    + exists e1. by rewrite lookup_insert_ne.
  - split; [|done]. apply core_select_failure_keeps in Hf as [Hk Hend].
    by eapply (linked_remove _ _ _ _ _ (reg_token (registration e)) e); [apply matching_entry_Some|..].
  - split; [|done]. destruct (ei_core _ _ _ _ (ti_entries _ _ Hinv _ _ Hid)) as (c & Hc & _).
    destruct (core_select_written_Some _ _ _ _ _ _ _ _ Hc Hw) as (c' & -> & Hsel).
    rewrite lookup_insert_eq in Herr. destruct (ti_store _ _ Hinv _ _ Hc) as [Hi _].
    pose proof (select_written_identity c env now) as Hsame. rewrite Hsel in Hsame.
    pose proof (fun x => control_step_terminal c env now OpSelectWritten x Hi) as Hx.
    simpl in Hx. rewrite Hsel in Hx.
    eapply (linked_remove _ _ _ _ _ (reg_token (registration e)) e);
      [by apply matching_entry_Some|by eapply keeps_step| |done].
    intros c1. rewrite lookup_insert_eq. intros [= <-]. unfold selected_error, terminal in *. simpl in Herr.
    by destruct (result (snapshot (state c'))) as [x|]; [eexists|].
  - split; [|done]. destruct (ei_core _ _ _ _ (ti_entries _ _ Hinv _ _ Hid)) as (c & Hc & _).
    destruct (settle_response_Some _ _ _ _ _ _ _ _ _ _ Hc Hf) as (c' & -> & Hsel & ->).
    destruct (ti_store _ _ Hinv _ _ Hc) as [Hi _].
    apply select_response_ends in Hsel as (Hsame & Hend & Hx); [|done].
    eapply (linked_remove _ _ _ _ _ (reg_token (registration e)) e);
      [by apply matching_entry_Some|by eapply keeps_step| |done].
    intros c1. rewrite lookup_insert_eq. by intros [= <-].
  - split; [|done]. eapply linked_register; try done. by rewrite Hreg.
Qed.

Lemma linked_changes env now cs p cs' p' d a :
  changes env now cs p cs' p' d a -> table_inv cs p -> linked_table cs (table_id p) p ->
  linked_table cs' (table_id p') p' /\ table_id p' = table_id p.
Proof.
  induction 1 as [|? ? ? ? ? ? ? ? ? ? Hc _ IH]; intros Hinv Hl; [done|].
  destruct (linked_change _ _ _ _ _ _ _ _ Hinv Hc Hl) as [Hl2 <-].
  apply IH; [|done]. by eapply change_sound.
Qed.

(** From fresh operations, every sequence of calls on the response table keeps
    the link between operations and table: an operation that is bound to the table
    and has not ended is in it, under its identifier and token.  So a request can
    always be ended through the table it was registered in. *)
Theorem requests_stay_linked cs p ops :
  fresh_controls cs -> entries p = ∅ -> 0 <= next_token p -> legal_run ops = true ->
  let '(cs', p', _, _) := table_run cs p ops in
  forall r c id token, cs' !! r = Some c -> is_finished c = false ->
    pending_identity (state c) = Some (mkPendingIdentity (table_id p) id token) ->
    exists e, matching_entry p' id token = Some e /\ core e = r.
Proof.
  intros Hf He Hn Hl. assert (linked_table cs (table_id p) p) as Hlink.
  { intros r c id token Hc _ Hp.
    destruct (Hf _ _ Hc) as (? & ? & ? & ? & ? & ? & ? & ? & ? & ? & ? & _ & _ & ->). done. }
  pose proof (fresh_inv _ _ Hf He Hn) as Hinv. clear Hf He Hn.
  destruct (table_run cs p ops) as [[[cs' p'] effs] adms] eqn:Hr.
  assert (linked_table cs' (table_id p) p') as Hfin; [|].
  { revert cs p effs adms Hr Hinv Hlink. induction ops as [|[[env now] op] ops IH]; simpl in *;
      intros cs p effs adms Hr Hinv Hlink; [by simplify_eq|].
    apply andb_prop in Hl as [Hl1 Hls]. destruct (table_step cs env now p op) as [[[cs1 p1] eff] adm] eqn:Hs.
    apply table_step_changes in Hs; [|done].
    destruct (table_run cs1 p1 ops) as [[[cs2 p2] effs2] adms2] eqn:Hr2. simplify_eq.
    destruct (linked_changes _ _ _ _ _ _ _ _ Hs Hinv Hlink) as [Hl2 <-].
    eapply IH; [done|done| |done]. by eapply changes_sound. }
  intros r c id token Hc Hopen Hp. eapply Hfin; [done| |done].
  unfold is_finished, terminal in *. by destruct (result (snapshot (state c))).
Qed.

End Links.

(** ** Concrete inputs *)

(** One queued message that holds a slot and five bytes, in the group 3 of
    [sample_hooked]. *)
Definition sample_held_request : QueuedRequest :=
  (sample_queued_request 1 Priority.Normal 1 None)
    <| slot_permit := Some (mkPermit 1 1); byte_permit := Some (mkPermit 1 5) |>.

Definition sample_small_queue : @PriorityWriteQueue counting_semaphores :=
  @mkPriorityWriteQueue counting_semaphores heap_new ∅ ∅ false (3, false) (95, false) 95.

Definition sample_holding : @PriorityWriteQueue counting_semaphores :=
  (queue_run (sem := counting_semaphores) 1 ∅ sample_small_queue
     [(sample_env, 5, QPush true sample_held_request false)]).1.1.2.

Definition sample_world : @World counting_semaphores :=
  @mkWorld counting_semaphores {[ 1%positive := bind_queue sample_queued 1 ]} ∅
    {[ 1%positive := sample_holding ]} (mkEnv sample_hooked ∅) (1, false) ∅
    {[ 7%positive := 1%positive ]} [].

Definition sample_publication : OperationPublication :=
  publication_default <| pub_queue := Some (Some 1%positive, 1%positive, NetError_new ErrorKind.Cancelled) |>.

Lemma sample_world_wf : world_wf sample_world.
Proof.
  intros id q H. unfold sample_world in H. simpl in H. apply lookup_singleton_Some in H as [<- <-].
  destruct (queue_new_wf (sem := counting_semaphores) 1000 3 95 sample_small_queue eq_refl) as [Hw He].
  unfold sample_holding. destruct (queue_run _ _ _ _) as [[[cs q] acc] out] eqn:Hr.
  apply (queue_run_spec (sem := counting_semaphores) _ _ _ _ _ _ _ _ Hw) in Hr as [Hw' _]; [done|].
  vm_compute. discriminate.
Qed.

Lemma sample_world_linked : linked sample_world.
Proof. intros tid p H. exact (match lookup_empty_Some tid p H with end). Qed.

Lemma sample_world_control : controls sample_world !! 1%positive = Some (bind_queue sample_queued 1).
Proof. reflexivity. Qed.

Lemma dispatch_fuel_enough_witness :
  capacity CapSlots sample_world 1 = Some 4 /\
  exists w', dispatch 6 sample_world sample_publication = Some w' /\ capacity CapSlots w' 1 = Some 4 /\
    absent w' 1 1.
Proof.
  assert (capacity CapSlots sample_world 1 = Some 4) as H0 by (vm_compute; reflexivity).
  split; [exact H0|].
  destruct (dispatch_fuel_enough (laws := counting_laws) 6 sample_world sample_publication sample_world_wf)
    as (w' & Hd & _ & Hc & _ & Hq & _).
  exists w'. split; [exact Hd|]. split; [rewrite Hc; exact H0|]. exact (Hq _ _ _ eq_refl).
Defined.

Lemma terminate_ends_operation_witness :
  exists w' res, terminate sample_world 6 1 (NetError_new ErrorKind.Cancelled) TaskEndCause.Cancelled =
    Some (w', res) /\ res = Ok TerminationOutcome.TerminatedBeforeWrite /\ absent w' 1 1.
Proof.
  destruct (terminate_ends_operation (laws := counting_laws) sample_world 6 1 (bind_queue sample_queued 1)
    (NetError_new ErrorKind.Cancelled) TaskEndCause.Cancelled sample_world_wf sample_world_linked
    sample_world_control) as (w' & res & c' & Ht & _ & _ & H).
  change (result (snapshot (state (bind_queue sample_queued 1)))) with (@None (Result TaskSuccess NetError)) in H.
  destruct H as (Hr & _ & Hq). exists w', res. split; [exact Ht|]. split; [exact Hr|]. exact (Hq _ eq_refl).
Defined.

Lemma group_cancel_ends_operations_witness :
  exists w' c', group_cancel sample_world 6 1 = Some w' /\ controls w' !! 1%positive = Some c' /\
    is_finished c' = true /\ absent w' 1 1.
Proof.
  destruct (group_cancel_ends_operations (laws := counting_laws) sample_world 6 1 sample_world_wf
    sample_world_linked sample_hooked_reachable ltac:(by eexists)) as (w' & Hg & _ & H).
  destruct (nodes sample_hooked !! 3%positive) as [s|] eqn:Hs; [|vm_compute in Hs; discriminate Hs].
  assert (7%positive ∈ hooks s) as Hh by (vm_compute in Hs; injection Hs as <-; set_solver).
  destruct (H 3%positive s 7%positive 1%positive _ sample_hooked_descends Hs Hh eq_refl sample_world_control)
    as [(c' & Hc' & Hf) Hq].
  exists w', c'. split; [exact Hg|]. split; [exact Hc'|]. split; [exact Hf|]. exact (Hq eq_refl 1%positive eq_refl).
Defined.

Lemma drain_ends_everything_witness :
  exists w' rs q', drain_with_error sample_world 6 1 (NetError_new ErrorKind.Closed) = Some (w', rs) /\
    queues w' !! 1%positive = Some q' /\ requests q' = [] /\ capacity CapBytes w' 1 = Some 100.
Proof.
  assert (Forall fresh_request (requests sample_holding)) as Hf.
  { vm_compute. constructor; [split; reflexivity|constructor]. }
  destruct (drain_ends_everything (laws := counting_laws) sample_world 6 1 sample_holding
    (NetError_new ErrorKind.Closed) sample_world_wf sample_world_linked eq_refl Hf)
    as (w' & rs & q' & Hd & Hq & He & Hc & _).
  exists w', rs, q'. split; [exact Hd|]. split; [exact Hq|]. split; [exact He|].
  rewrite Hc. vm_compute. reflexivity.
Defined.

(** The request of [sample_answered_ops] after its registration. *)
Definition sample_registered : Controls * NativePending :=
  (table_run (clk := linux_clock) (libm := sample_libm) sample_controls sample_table
     (take 1 sample_answered_ops)).1.1.

Lemma requests_stay_linked_witness :
  match sample_registered.1 !! 1%positive with
  | Some c =>
      exists id token e, pending_identity (state c) = Some (mkPendingIdentity 5 id token) /\
        matching_entry sample_registered.2 id token = Some e /\ core e = 1%positive
  | None => False
  end.
Proof.
  pose proof (requests_stay_linked (clk := linux_clock) (libm := sample_libm) sample_controls sample_table
    (take 1 sample_answered_ops) sample_controls_fresh eq_refl (Z.le_refl 0) eq_refl) as H.
  unfold sample_registered.
  assert (match (table_run (clk := linux_clock) (libm := sample_libm) sample_controls sample_table
     (take 1 sample_answered_ops)).1.1.1 !! 1%positive with
    | Some c => pending_identity (state c) = Some (mkPendingIdentity 5 "r1" 1) /\ is_finished c = false
    | None => False end) as H0 by (vm_compute; split; reflexivity).
  destruct (table_run _ _ _) as [[[cs' p'] effs] adms]. cbn [fst snd] in *.
  destruct (cs' !! 1%positive) as [c|] eqn:Hc; [|exact H0]. destruct H0 as [Hp Hf].
  destruct (H _ _ _ _ Hc Hf Hp) as (e & He & Hcore). exists "r1", 1, e.
  split; [exact Hp|]. split; [exact He|exact Hcore].
Defined.
