(* ===== verification/WsConfig.v ===== *)
(** * Client configuration (src/api/ws/config.rs, retry.rs)

    The retry policy of logical requests, the structures of the configuration and
    their validation.  The clock reading of the deadline checks is [now]; [max_permits] is the bound of the semaphore
    implementation; the native limits of TCP keepalive depend on the target. *)

From S2P Require Import Prelude F64 Backoff RetrySchedule RetryState Errors WsRetry WsOptions Cancellation WsTask IndexedHeap OperationControl NativePending PriorityWriteQueue PendingTheory QueueTheory.

(** The targets of the platform modules; on the others named in
    [TcpKeepaliveConfig::validate] the checks are those of Linux. *)
Module Target.
Inductive Target := Windows | Linux | MacOs.
End Target.
Abbreviation Target := Target.Target.

Definition MAX_FIXED_CALLBACK_WORKERS : Z := 256.
Definition MAX_HEARTBEAT_PONG_RECOVERY_ATTEMPTS : Z := 10.
Definition MAX_HEARTBEAT_PING_WRITE_RETRIES : Z := 1024.
Definition MIN_DATA_FRAME_PAYLOAD_SIZE : Z := 1024.
Definition DEFAULT_DATA_FRAME_PAYLOAD_SIZE : Z := 32 * 1024.
Definition MAX_CLIENT_FRAME_OVERHEAD : Z := 14.
Definition i32_max : Z := 2 ^ 31 - 1.
Definition from_millis (ms : Z) : Duration := ms * 1000000.

(** ** The retry policy of logical requests *)

Record WsRequestRetryPolicy := mkWsRequestRetryPolicy {
  request_schedule : RetrySchedule;
  request_retry_on : WsRequestRetryOn;
  request_safety : WsReplaySafety;
  request_classifier : option (Result Response NetError -> RetryContext -> option RetryDecision);
  request_observer : option ObserverId;
}.

Definition request_policy_no_retry : WsRequestRetryPolicy :=
  {| request_schedule := no_retry; request_retry_on := request_retry_none;
     request_safety := WsReplaySafety.Never; request_classifier := None; request_observer := None |}.

Definition request_allows_replay (p : WsRequestRetryPolicy) : bool :=
  negb (bool_decide (request_safety p = WsReplaySafety.Never)).

Definition request_should_retry_error (p : WsRequestRetryPolicy) (error : NetError) : bool :=
  request_allows (request_retry_on p) error.

Definition request_classify (p : WsRequestRetryPolicy) (outcome : Result Response NetError)
    (retry : RetryContext) : Result RetryDecision NetError :=
  match request_classifier p with
  | None => Ok RetryDecision.Default
  | Some f => isolate_classifier (f outcome retry)
  end.

(** ** Structures *)

Record QueueLimit := mkQueueLimit { max_items : Z; lim_max_bytes : Z }.

Record QueueLimits := mkQueueLimits {
  commands : Z;
  io_events : Z;
  normal : QueueLimit;
  urgent : QueueLimit;
}.

Record DispatchLimits := mkDispatchLimits {
  incoming : QueueLimit;
  message_subscriptions : Z;
  message_deliveries : Z;
  message_callback_workers : Z;
  state_subscriptions : Z;
  state_callback_workers : Z;
  event_subscriptions : Z;
  event_callback_workers : Z;
  task_subscriptions : Z;
  task_callback_workers : Z;
  task_events : QueueLimit;
  blocking_handshake_jobs : Z;
}.

Record FrameConfig := mkFrameConfig {
  data_frame_payload_size : option Z;
  control_write_timeout : Duration;
  data_frame_write_timeout : Duration;
  read_buffer_size : Z;
  write_buffer_size : Z;
  max_write_buffer_size : Z;
  max_message_size : option Z;
  max_frame_size : option Z;
}.

Record TcpKeepaliveConfig := mkTcpKeepaliveConfig { idle : Duration; keepalive_interval : Duration }.

Record TcpConfig := mkTcpConfig {
  nodelay : bool;
  send_buffer_size : option Z;
  keepalive : option TcpKeepaliveConfig;
}.

Record HeartbeatRetryConfig := mkHeartbeatRetryConfig {
  pong_recovery_attempts : Z;
  pong_retry_interval : Duration;
  ping_write_retries : Z;
  ping_write_retry_interval : Duration;
}.

Record HeartbeatConfig := mkHeartbeatConfig {
  interval : Duration;
  pong_timeout : Duration;
  hb_retry : HeartbeatRetryConfig;
}.

Record WebSocketClientConfig := mkWebSocketClientConfig {
  default_send_retry_policy : WsSendRetryPolicy;
  default_request_retry_policy : WsRequestRetryPolicy;
  queue_limits : QueueLimits;
  dispatch_limits : DispatchLimits;
  request_limits : RequestLimits;
  frames : FrameConfig;
  tcp : TcpConfig;
  heartbeat : option HeartbeatConfig;
  close_timeout : Duration;
}.

(** ** Defaults *)

Definition QueueLimit_default : QueueLimit := mkQueueLimit 128 (1024 * 1024).

Definition QueueLimits_default : QueueLimits :=
  mkQueueLimits 128 128 (mkQueueLimit 1024 (16 * 1024 * 1024)) (mkQueueLimit 64 (1024 * 1024)).

Definition DispatchLimits_default : DispatchLimits :=
  {| incoming := mkQueueLimit 256 (64 * 1024 * 1024); message_subscriptions := 64;
     message_deliveries := 1024; message_callback_workers := 1; state_subscriptions := 64;
     state_callback_workers := 2; event_subscriptions := 64; event_callback_workers := 2;
     task_subscriptions := 64; task_callback_workers := 2;
     task_events := mkQueueLimit 1024 (16 * 1024 * 1024); blocking_handshake_jobs := 8 |}.

Definition RequestLimits_default : RequestLimits := mkRequestLimits 4096 (from_secs 2).

Definition FrameConfig_default : FrameConfig :=
  {| data_frame_payload_size := Some DEFAULT_DATA_FRAME_PAYLOAD_SIZE;
     control_write_timeout := from_millis 1500; data_frame_write_timeout := from_millis 1500;
     read_buffer_size := 128 * 1024; write_buffer_size := 128 * 1024;
     max_write_buffer_size := 4 * 1024 * 1024; max_message_size := Some (64 * 1024 * 1024);
     max_frame_size := Some (16 * 1024 * 1024) |}.

Definition TcpConfig_default : TcpConfig := mkTcpConfig true None None.

Definition TcpKeepaliveConfig_default : TcpKeepaliveConfig :=
  mkTcpKeepaliveConfig (from_secs 5) (from_secs 2).

Definition HeartbeatRetryConfig_default : HeartbeatRetryConfig :=
  mkHeartbeatRetryConfig 0 (from_millis 1500) 0 (from_millis 1500).

Definition HeartbeatConfig_default : HeartbeatConfig :=
  mkHeartbeatConfig (from_secs 20) (from_secs 45) HeartbeatRetryConfig_default.

Definition WebSocketClientConfig_default : WebSocketClientConfig :=
  {| default_send_retry_policy := send_policy_no_retry;
     default_request_retry_policy := request_policy_no_retry;
     queue_limits := QueueLimits_default; dispatch_limits := DispatchLimits_default;
     request_limits := RequestLimits_default; frames := FrameConfig_default;
     tcp := TcpConfig_default; heartbeat := Some HeartbeatConfig_default;
     close_timeout := from_secs 2 |}.

(** ** Validation *)

Definition allocation_size (value : Z) (field : string) (allow_zero : bool) : Result () NetError :=
  let? _ := (if negb allow_zero then config_positive value field else Ok tt) in
  if isize_max <? value
  then Err (NetError_config field "must not exceed isize::MAX for a byte allocation") else Ok tt.

Definition nonzero_duration (value : Duration) (field : string) : Result () NetError :=
  if value =? 0 then Err (NetError_config field "must be greater than zero") else Ok tt.

(** Durations have nanosecond precision; [as_secs] and [as_millis] truncate. *)
Definition as_secs (d : Duration) : Z := d / NANOS_PER_SEC.
Definition as_millis (d : Duration) : Z := d / 1000000.

Definition native_keepalive_duration (target : Target) (value : Duration) (field : string) :
    Result () NetError :=
  match target with
  | Target.Windows =>
      if (as_millis value =? 0) || (u32_max <=? as_millis value)
      then Err (NetError_config field
                  "must be at least one millisecond and below u32::MAX milliseconds")
      else Ok tt
  | _ =>
      if (as_secs value =? 0) || (i32_max <? as_secs value)
      then Err (NetError_config field "must be at least one second and fit i32 seconds")
      else Ok tt
  end.

Definition limit_validate_fields (max_permits : Z) (l : QueueLimit)
    (items_field bytes_field : string) : Result () NetError :=
  limit_validate max_permits (max_items l) (lim_max_bytes l) items_field bytes_field.

Definition queue_limits_validate (max_permits : Z) (l : QueueLimits) : Result () NetError :=
  let? _ := config_permits max_permits (commands l) "queues.commands" in
  let? _ := config_permits max_permits (io_events l) "queues.io_events" in
  let? _ := limit_validate_fields max_permits (normal l) "queues.normal.max_items"
              "queues.normal.max_bytes" in
  limit_validate_fields max_permits (urgent l) "queues.urgent.max_items" "queues.urgent.max_bytes".

(** [for (value, field) in [...] { check(value, field)?; }] *)
Fixpoint for_each_field {A} (check : A -> string -> Result () NetError)
    (fields : list (A * string)) : Result () NetError :=
  match fields with
  | [] => Ok tt
  | (value, field) :: rest => let? _ := check value field in for_each_field check rest
  end.

Definition fixed_workers (value : Z) (field : string) : Result () NetError :=
  if (value =? 0) || (MAX_FIXED_CALLBACK_WORKERS <? value)
  then Err (NetError_config field "must be between 1 and 256") else Ok tt.

Definition dispatch_limits_validate (max_permits : Z) (l : DispatchLimits) : Result () NetError :=
  let? _ := limit_validate_fields max_permits (incoming l) "dispatch.incoming.max_items"
              "dispatch.incoming.max_bytes" in
  let? _ := for_each_field (config_permits max_permits)
              [(message_subscriptions l, "dispatch.message_subscriptions");
               (message_deliveries l, "dispatch.message_deliveries");
               (message_callback_workers l, "dispatch.message_callback_workers");
               (state_subscriptions l, "dispatch.state_subscriptions");
               (event_subscriptions l, "dispatch.event_subscriptions");
               (task_subscriptions l, "dispatch.task_subscriptions");
               (blocking_handshake_jobs l, "dispatch.blocking_handshake_jobs")] in
  let? _ := for_each_field fixed_workers
              [(state_callback_workers l, "dispatch.state_callback_workers");
               (event_callback_workers l, "dispatch.event_callback_workers");
               (task_callback_workers l, "dispatch.task_callback_workers")] in
  limit_validate_fields max_permits (task_events l) "dispatch.task_events.max_items"
    "dispatch.task_events.max_bytes".

Definition validate_outgoing_payload (f : FrameConfig) (payload : Z) : Result () NetError :=
  let refused := Err (NetError_config "frames.max_write_buffer_size"
                        "must hold one outgoing frame payload and its 14-byte header") in
  match checked_add usize_max payload MAX_CLIENT_FRAME_OVERHEAD with
  | Some required => if required <=? max_write_buffer_size f then Ok tt else refused
  | None => refused
  end.

Definition optional_allocation (limit : option Z) (field : string) : Result () NetError :=
  match limit with Some size => allocation_size size field false | None => Ok tt end.

Section Validate.
Context {clk : Clock} (now : Instant) (target : Target) (max_permits : Z).

Definition frames_validate (f : FrameConfig) : Result () NetError :=
  let? _ := config_deadline now (control_write_timeout f) "frames.control_write_timeout" false in
  let? _ := config_deadline now (data_frame_write_timeout f) "frames.data_frame_write_timeout" false in
  let? _ := allocation_size (read_buffer_size f) "frames.read_buffer_size" false in
  let? _ := allocation_size (write_buffer_size f) "frames.write_buffer_size" true in
  let? _ := allocation_size (max_write_buffer_size f) "frames.max_write_buffer_size" false in
  let? _ := (if max_write_buffer_size f <=? write_buffer_size f
             then Err (NetError_config "frames.max_write_buffer_size"
                         "must exceed frames.write_buffer_size")
             else Ok tt) in
  let? _ := for_each_field optional_allocation
              [(max_message_size f, "frames.max_message_size");
               (max_frame_size f, "frames.max_frame_size")] in
  match data_frame_payload_size f with
  | Some size =>
      if (size <? MIN_DATA_FRAME_PAYLOAD_SIZE)
         || is_none_or (checked_add usize_max size MAX_CLIENT_FRAME_OVERHEAD)
              (fun size => isize_max <? size)
      then Err (NetError_config "frames.data_frame_payload_size"
                  "must be at least 1024 bytes and leave room for the frame header within isize::MAX")
      else validate_outgoing_payload f size
  | None => Ok tt
  end.

Definition keepalive_validate (k : TcpKeepaliveConfig) : Result () NetError :=
  let? _ := nonzero_duration (idle k) "tcp.keepalive.idle" in
  let? _ := nonzero_duration (keepalive_interval k) "tcp.keepalive.interval" in
  let? _ := native_keepalive_duration target (idle k) "tcp.keepalive.idle" in
  native_keepalive_duration target (keepalive_interval k) "tcp.keepalive.interval".

Definition tcp_validate (t : TcpConfig) : Result () NetError :=
  let? _ := match send_buffer_size t with
            | Some size =>
                if (size =? 0) || (i32_max <? size)
                then Err (NetError_config "tcp.send_buffer_size"
                            "must be between 1 and i32::MAX for the native socket option")
                else Ok tt
            | None => Ok tt
            end in
  match keepalive t with Some k => keepalive_validate k | None => Ok tt end.

Definition validate_attempts (attempts : Z) (interval : Duration)
    (attempts_field interval_field : string) (maximum : Z) (reason : string) : Result () NetError :=
  if attempts =? 0 then Ok tt
  else if maximum <? attempts then Err (NetError_config attempts_field reason)
  else config_deadline now interval interval_field false.

Definition heartbeat_retry_validate (r : HeartbeatRetryConfig) : Result () NetError :=
  let? _ := validate_attempts (pong_recovery_attempts r) (pong_retry_interval r)
              "heartbeat.retry.pong_recovery_attempts" "heartbeat.retry.pong_retry_interval"
              MAX_HEARTBEAT_PONG_RECOVERY_ATTEMPTS "must not exceed 10" in
  validate_attempts (ping_write_retries r) (ping_write_retry_interval r)
    "heartbeat.retry.ping_write_retries" "heartbeat.retry.ping_write_retry_interval"
    MAX_HEARTBEAT_PING_WRITE_RETRIES "must not exceed 1024".

Definition heartbeat_validate (h : HeartbeatConfig) : Result () NetError :=
  let? _ := config_deadline now (interval h) "heartbeat.interval" false in
  let? _ := config_deadline now (pong_timeout h) "heartbeat.pong_timeout" false in
  heartbeat_retry_validate (hb_retry h).

Definition client_config_validate (c : WebSocketClientConfig) : Result () NetError :=
  let? _ := queue_limits_validate max_permits (queue_limits c) in
  let? _ := dispatch_limits_validate max_permits (dispatch_limits c) in
  let? _ := limits_validate max_permits now (request_limits c) in
  let? _ := frames_validate (frames c) in
  let? _ := tcp_validate (tcp c) in
  let? _ := match heartbeat c with Some h => heartbeat_validate h | None => Ok tt end in
  let? _ := config_deadline now (close_timeout c) "close_timeout" false in
  if is_none (data_frame_payload_size (frames c)) then
    validate_outgoing_payload (frames c)
      (Z.max (lim_max_bytes (normal (queue_limits c))) (lim_max_bytes (urgent (queue_limits c))))
  else Ok tt.

End Validate.

(** ** What validation gives *)

(** The values of the fields' types: sizes and durations are not negative. *)
Record config_typed (c : WebSocketClientConfig) : Prop := {
  ct_normal : 0 <= lim_max_bytes (normal (queue_limits c));
  ct_urgent : 0 <= lim_max_bytes (urgent (queue_limits c));
  ct_payload n : data_frame_payload_size (frames c) = Some n -> 0 <= n;
  ct_heartbeat h : heartbeat c = Some h -> 0 <= interval h /\ 0 <= pong_timeout h;
}.

(** Splits a chain of checks that all succeeded. *)
Ltac checks H :=
  match type of H with
  | match ?r with Ok _ => _ | Err _ => _ end = Ok _ =>
      let E := fresh "Hok" in destruct r as [[]|] eqn:E; [checks H|discriminate H]
  | _ => idtac
  end.

Lemma limit_validate_Ok max_permits items bytes f g :
  limit_validate max_permits items bytes f g = Ok tt ->
  (forall f' g', limit_validate max_permits items bytes f' g' = Ok tt) /\
  items <> 0 /\ items <= max_permits /\ bytes <> 0 /\ bytes <= u32_max.
Proof.
  unfold limit_validate, config_permits, config_positive. intros H.
  destruct (items =? 0) eqn:E1; [discriminate H|]. destruct (max_permits <? items) eqn:E2; [discriminate H|].
  destruct (bytes =? 0) eqn:E3; [discriminate H|]. destruct (max_permits <? bytes) eqn:E4; [discriminate H|].
  destruct (u32_max <? bytes) eqn:E5; [discriminate H|]. propify. done.
Qed.

Lemma config_deadline_Ok {clk : Clock} now d field :
  config_deadline now d field false = Ok tt -> d <> 0 /\ now + d <= instant_max.
Proof.
  unfold config_deadline. simpl. destruct (d =? 0) eqn:E; [done|].
  destruct (instant_checked_add now d) as [u|] eqn:Ha; [|done].
  apply instant_checked_add_Some in Ha as [_ Ha]. propify. done.
Qed.

Lemma outgoing_payload_Ok f n :
  validate_outgoing_payload f n = Ok tt -> n + MAX_CLIENT_FRAME_OVERHEAD <= max_write_buffer_size f.
Proof.
  unfold validate_outgoing_payload. destruct (checked_add _ _ _) as [r|] eqn:Hc; [|done].
  apply checked_add_Some in Hc as [-> _]. destruct (_ <=? _) eqn:E; [|done]. by propify.
Qed.

(** The largest payload of one outgoing data frame of a message of [size] bytes. *)
Definition frame_payload (f : FrameConfig) (size : Z) : Z :=
  match data_frame_payload_size f with Some n => Z.min n size | None => size end.

Section Sufficient.
Context {clk : Clock} {sem : Semaphores}.

Lemma queue_new_limit max_permits l f g :
  limit_validate_fields max_permits l f g = Ok tt -> 0 <= lim_max_bytes l ->
  exists q, queue_new max_permits (max_items l) (lim_max_bytes l) = Ok q /\ max_bytes q = lim_max_bytes l.
Proof.
  intros H Hpos. apply limit_validate_Ok in H as (H & _ & _ & _ & Hu). unfold queue_new. rewrite H.
  eexists. split; [done|]. simpl. rewrite Z.mod_small; [done|]. unfold u32_max in Hu. lia.
Qed.

Lemma pending_new_limits max_permits now id closed client session l dispatches :
  limits_validate max_permits now l = Ok tt -> dispatches <> 0 ->
  exists p, pending_new max_permits now id closed client session l dispatches = Ok p /\ entries p = ∅.
Proof.
  intros H Hd. unfold pending_new. rewrite H. unfold limits_validate in H. checks H.
  unfold config_permits in Hok. checks Hok. destruct (max_permits <? max_pending l); [discriminate Hok|].
  rewrite (proj2 (Z.eqb_neq _ _) Hd). by eexists.
Qed.

Lemma frame_fits now f size limit :
  frames_validate now f = Ok tt -> size <= limit ->
  (data_frame_payload_size f = None -> validate_outgoing_payload f limit = Ok tt) ->
  frame_payload f size + MAX_CLIENT_FRAME_OVERHEAD <= max_write_buffer_size f.
Proof.
  intros H Hs Hnone. unfold frames_validate in H. checks H. unfold frame_payload.
  destruct (data_frame_payload_size f) as [n|].
  - destruct (_ || _); [discriminate H|]. apply outgoing_payload_Ok in H. lia.
  - specialize (Hnone eq_refl). apply outgoing_payload_Ok in Hnone. lia.
Qed.

(** A configuration that passes validation is sufficient for everything the
    client builds from it: both send queues and the response table can be created,
    with exactly the configured capacities; every outgoing frame of any message the
    queues admit fits the write buffer with its header, whether messages are split
    into frames or not; and the heartbeat has a first deadline and a positive Pong
    timeout. *)
Theorem validated_config_sufficient now target max_permits c id closed client session :
  client_config_validate now target max_permits c = Ok tt -> config_typed c ->
  (exists q, queue_new max_permits (max_items (normal (queue_limits c)))
    (lim_max_bytes (normal (queue_limits c))) = Ok q /\
    max_bytes q = lim_max_bytes (normal (queue_limits c))) /\
  (exists q, queue_new max_permits (max_items (urgent (queue_limits c)))
    (lim_max_bytes (urgent (queue_limits c))) = Ok q /\
    max_bytes q = lim_max_bytes (urgent (queue_limits c))) /\
  (exists p, pending_new max_permits now id closed client session (request_limits c)
    (max_items (incoming (dispatch_limits c))) = Ok p /\ entries p = ∅) /\
  (forall size, size <= lim_max_bytes (normal (queue_limits c)) \/
                size <= lim_max_bytes (urgent (queue_limits c)) ->
    frame_payload (frames c) size + MAX_CLIENT_FRAME_OVERHEAD <= max_write_buffer_size (frames c)) /\
  (forall h, heartbeat c = Some h -> 0 < pong_timeout h /\ 0 < interval h /\
    exists first, instant_checked_add now (interval h) = Some first).
Proof.
  unfold client_config_validate. intros H [Hn Hu Hp Hh]. checks H.
  match goal with H1 : queue_limits_validate _ _ = _, H2 : dispatch_limits_validate _ _ = _ |- _ =>
    rename H1 into Hql; rename H2 into Hdl end.
  unfold queue_limits_validate in Hql. checks Hql. unfold dispatch_limits_validate in Hdl. checks Hdl.
  split_and!.
  - by eapply queue_new_limit.
  - by eapply queue_new_limit.
  - apply pending_new_limits; [done|].
    match goal with
    | H3 : limit_validate_fields _ (incoming _) _ _ = Ok tt |- _ => by apply limit_validate_Ok in H3 as (_ & Hi & _)
    end.
  - intros size Hs. eapply frame_fits; [done| |].
    + instantiate (1 := Z.max _ _). destruct Hs as [Hs|Hs]; [eapply Z.le_trans; [exact Hs|apply Z.le_max_l]
        |eapply Z.le_trans; [exact Hs|apply Z.le_max_r]].
    + intros Hnone. rewrite Hnone in H. exact H.
  - intros h Hhb. destruct (Hh _ Hhb) as [Hi Hpt]. rewrite Hhb in Hok4.
    unfold heartbeat_validate in Hok4. checks Hok4.
    repeat match goal with
    | H3 : config_deadline now _ _ false = Ok tt |- _ => apply config_deadline_Ok in H3 as [? ?]
    end.
    split_and!; [lia|lia|]. eexists. apply instant_checked_add_Some. done.
Qed.

End Sufficient.

Lemma default_config_typed : config_typed WebSocketClientConfig_default.
Proof.
  split; simpl; [lia|lia| |].
  - intros n [= <-]. unfold DEFAULT_DATA_FRAME_PAYLOAD_SIZE. lia.
  - intros h [= <-]. unfold interval, pong_timeout, HeartbeatConfig_default, from_secs, NANOS_PER_SEC. lia.
Qed.

(** The default configuration is valid. *)
Lemma validated_config_sufficient_witness :
  client_config_validate (clk := linux_clock) 5 Target.Linux (2 ^ 61 - 1) WebSocketClientConfig_default = Ok tt /\
  frame_payload FrameConfig_default (16 * 1024 * 1024) + MAX_CLIENT_FRAME_OVERHEAD <= 4 * 1024 * 1024.
Proof.
  assert (client_config_validate (clk := linux_clock) 5 Target.Linux (2 ^ 61 - 1)
    WebSocketClientConfig_default = Ok tt) as H0 by (vm_compute; reflexivity).
  split; [exact H0|].
  destruct (validated_config_sufficient (clk := linux_clock) (sem := counting_semaphores) 5 Target.Linux
    (2 ^ 61 - 1) WebSocketClientConfig_default 1 1 1 1 H0 default_config_typed) as (_ & _ & _ & H & _).
  apply (H (16 * 1024 * 1024)). left. simpl. lia.
Defined.
