(* ===== verification/Heartbeat.v ===== *)
(** * The control heartbeat of a connection
      (src/module/ws_client/heartbeat_state.rs, heartbeat_schedule.rs)

    [HeartbeatState] is shared by the reader and the writer of one connection;
    every method is one lock scope, so that any interleaving is a sequence of
    [HeartbeatOp]s.  The instants are the readings the callers pass or, for
    [acknowledge_pong], the reading it takes itself. *)

From S2P Require Import Prelude F64 Backoff RetrySchedule RetryState Errors WsRetry WsOptions Cancellation WsTask IndexedHeap OperationControl NativePending PriorityWriteQueue PendingTheory QueueTheory WsConfig.

(** ** The payload *)

(** The [n] low bytes of [z], most significant first: [to_be_bytes]. *)
Fixpoint to_be_bytes (n : nat) (z : Z) : list Z :=
  match n with
  | O => []
  | S n => Z.land (Z.shiftr z (8 * Z.of_nat n)) 255 :: to_be_bytes n z
  end.

Definition heartbeat_payload (generation sequence : Z) : list Z :=
  to_be_bytes 8 generation ++ to_be_bytes 8 sequence.

(** ** The state *)

Module ProbePhase.
Inductive ProbePhase := Sending | AwaitingPong (sent_at : Instant).
End ProbePhase.
Abbreviation ProbePhase := ProbePhase.ProbePhase.

Record OutstandingProbe := mkOutstandingProbe {
  probe_payload : list Z;
  probe_timeout : Duration;
  probe_phase : ProbePhase;
}.

Record HeartbeatState := mkHeartbeatState {
  generation : Z;
  hb_next_sequence : Z;
  outstanding : option OutstandingProbe;
}.

#[export] Instance HeartbeatState_settable : Settable HeartbeatState :=
  fields! mkHeartbeatState [ generation; hb_next_sequence; outstanding ].

Module HeartbeatTick.
Inductive HeartbeatTick := SendProbe (payload : list Z) | Waiting | TimedOut.
End HeartbeatTick.
Abbreviation HeartbeatTick := HeartbeatTick.HeartbeatTick.

Definition heartbeat_new (generation : Z) : HeartbeatState := mkHeartbeatState generation 1 None.

(** The next probe takes the sequence number; zero is skipped on wrap-around. *)
Definition start_probe (h : HeartbeatState) (timeout : Duration) : HeartbeatState * list Z :=
  let payload := heartbeat_payload (generation h) (hb_next_sequence h) in
  (h <| hb_next_sequence := Z.max (wrapping_add 64 (hb_next_sequence h) 1) 1;
        outstanding := Some (mkOutstandingProbe payload timeout ProbePhase.Sending) |>, payload).

Definition on_tick (h : HeartbeatState) (now : Instant) (timeout : Duration) :
    HeartbeatState * HeartbeatTick :=
  match outstanding h with
  | Some probe =>
      match probe_phase probe with
      | ProbePhase.Sending => (h, HeartbeatTick.Waiting)
      | ProbePhase.AwaitingPong sent_at =>
          if probe_timeout probe <=? saturating_duration_since now sent_at
          then (h, HeartbeatTick.TimedOut) else (h, HeartbeatTick.Waiting)
      end
  | None => let '(h, payload) := start_probe h timeout in (h, HeartbeatTick.SendProbe payload)
  end.

Section State.
Context {clk : Clock}.

Definition start_recovery_probe (h : HeartbeatState) (now : Instant) (timeout : Duration) :
    HeartbeatState * option (list Z) :=
  let can_start :=
    match outstanding h with
    | None => true
    | Some probe =>
        match probe_phase probe with
        | ProbePhase.Sending => false
        | ProbePhase.AwaitingPong sent_at =>
            is_some_and (instant_checked_add sent_at (probe_timeout probe))
              (fun deadline => deadline <=? now)
        end
    end in
  if negb can_start then (h, None)
  else let '(h, payload) := start_probe h timeout in (h, Some payload).

Definition has_outstanding_probe (h : HeartbeatState) : bool := is_some (outstanding h).

Definition mark_sent (h : HeartbeatState) (payload : list Z) (sent_at : Instant) :
    HeartbeatState * bool :=
  match outstanding h with
  | None => (h, false)
  | Some probe =>
      match probe_phase probe with
      | ProbePhase.Sending =>
          if negb (bool_decide (probe_payload probe = payload)) then (h, false)
          else (h <| outstanding := Some (mkOutstandingProbe (probe_payload probe) (probe_timeout probe)
                                            (ProbePhase.AwaitingPong sent_at)) |>, true)
      | ProbePhase.AwaitingPong _ => (h, false)
      end
  end.

(** [now] is the reading of the clock on entry. *)
Definition acknowledge_pong (h : HeartbeatState) (payload : list Z) (now : Instant) :
    HeartbeatState * bool :=
  let matches :=
    is_some_and (outstanding h) (fun probe =>
      bool_decide (probe_payload probe = payload) &&
      match probe_phase probe with
      | ProbePhase.Sending => true
      | ProbePhase.AwaitingPong sent_at =>
          is_some_and (instant_checked_add sent_at (probe_timeout probe))
            (fun deadline => now <? deadline)
      end) in
  (if matches then h <| outstanding := None |> else h, matches).

Definition abandon_probe (h : HeartbeatState) (payload : list Z) : HeartbeatState :=
  if is_some_and (outstanding h) (fun probe => bool_decide (probe_payload probe = payload))
  then h <| outstanding := None |> else h.

Definition pong_deadline (h : HeartbeatState) : option Instant :=
  outstanding h ≫= fun probe =>
    match probe_phase probe with
    | ProbePhase.Sending => None
    | ProbePhase.AwaitingPong sent_at =>
        match instant_checked_add sent_at (probe_timeout probe) with
        | Some deadline => Some deadline
        | None => Some sent_at
        end
    end.

Definition is_timed_out (h : HeartbeatState) (now : Instant) : bool :=
  is_some_and (pong_deadline h) (fun deadline => deadline <=? now).

(** ** The schedule *)

(** The first tick and the period of the timer, with the Pong timeout. *)
Record HeartbeatSchedule := mkHeartbeatSchedule {
  enabled : option (Instant * Duration * Duration);
}.

Definition schedule_new (now : Instant) (config : option HeartbeatConfig) :
    Result HeartbeatSchedule NetError :=
  match config with
  | None => Ok (mkHeartbeatSchedule None)
  | Some config =>
      let? _ := heartbeat_validate now config in
      let? start := ok_or (instant_checked_add now (interval config))
                      (NetError_config "heartbeat.interval"
                         "cannot represent the first heartbeat deadline") in
      Ok (mkHeartbeatSchedule (Some (start, interval config, pong_timeout config)))
  end.

(** ** Sequences of calls *)

Inductive HeartbeatOp :=
| HbTick (now : Instant) (timeout : Duration)
| HbRecover (now : Instant) (timeout : Duration)
| HbSent (payload : list Z) (sent_at : Instant)
| HbPong (payload : list Z) (now : Instant)
| HbAbandon (payload : list Z).

(** The new state, the probe to send and the acknowledged probe. *)
Definition heartbeat_step (h : HeartbeatState) (op : HeartbeatOp) :
    HeartbeatState * list (list Z) * list (list Z) :=
  match op with
  | HbTick now timeout =>
      match on_tick h now timeout with
      | (h, HeartbeatTick.SendProbe payload) => (h, [payload], [])
      | (h, _) => (h, [], [])
      end
  | HbRecover now timeout =>
      let '(h, payload) := start_recovery_probe h now timeout in (h, option_list payload, [])
  | HbSent payload at_ => ((mark_sent h payload at_).1, [], [])
  | HbPong payload now =>
      let '(h, accepted) := acknowledge_pong h payload now in
      (h, [], if accepted then [payload] else [])
  | HbAbandon payload => (abandon_probe h payload, [], [])
  end.

Fixpoint heartbeat_run (h : HeartbeatState) (ops : list HeartbeatOp) :
    HeartbeatState * list (list Z) * list (list Z) :=
  match ops with
  | [] => (h, [], [])
  | op :: ops =>
      let '(h, sent, acked) := heartbeat_step h op in
      let '(h, sent', acked') := heartbeat_run h ops in
      (h, sent ++ sent', acked ++ acked')
  end.

End State.

(** ** The payload identifies the probe *)

Definition from_be_bytes (bytes : list Z) : Z := foldl (fun acc b => acc * 256 + b) 0 bytes.

Lemma to_be_bytes_length n z : length (to_be_bytes n z) = n.
Proof. induction n; simpl; congruence. Qed.

Lemma land_byte z n : Z.land (Z.shiftr z (8 * Z.of_nat n)) 255 = (z / 256 ^ Z.of_nat n) mod 256.
Proof.
  change 255 with (Z.ones 8). rewrite Z.land_ones, Z.shiftr_div_pow2 by lia.
  by rewrite Z.pow_mul_r by lia.
Qed.

Lemma foldl_be_bytes n z a :
  foldl (fun acc b => acc * 256 + b) a (to_be_bytes n z) =
    a * 256 ^ Z.of_nat n + z mod 256 ^ Z.of_nat n.
Proof.
  revert a. induction n as [|n IH]; intros a.
  - simpl. rewrite Z.mod_1_r. lia.
  - cbn [to_be_bytes foldl]. rewrite IH, land_byte, Nat2Z.inj_succ, Z.pow_succ_r by lia.
    assert (256 ^ Z.of_nat n > 0) by (apply Z.lt_gt, Z.pow_pos_nonneg; lia).
    rewrite (Z.mul_comm 256), (Z.rem_mul_r z) by lia. lia.
Qed.

Lemma from_to_be_bytes z : in_u64 z -> from_be_bytes (to_be_bytes 8 z) = z.
Proof.
  intros H. unfold from_be_bytes. rewrite foldl_be_bytes, Z.mod_small; [lia|].
  unfold in_u64, u64_max in H. change (256 ^ Z.of_nat 8) with (2 ^ 64). lia.
Qed.

Lemma to_be_bytes_range n z : Forall (fun b => 0 <= b <= 255) (to_be_bytes n z).
Proof.
  induction n as [|n IH]; simpl; constructor; [|done].
  rewrite land_byte. pose proof (Z.mod_pos_bound (z / 256 ^ Z.of_nat n) 256 ltac:(lia)). lia.
Qed.

(** The payload of a probe is sixteen bytes, which a control frame can carry,
    and its connection generation and sequence number can be read back from it:
    different probes have different payloads. *)
Theorem heartbeat_payload_roundtrip g s :
  in_u64 g -> in_u64 s ->
  length (heartbeat_payload g s) = 16%nat /\
  Forall (fun b => 0 <= b <= u8_max) (heartbeat_payload g s) /\
  from_be_bytes (take 8 (heartbeat_payload g s)) = g /\
  from_be_bytes (drop 8 (heartbeat_payload g s)) = s.
Proof.
  intros Hg Hs. unfold heartbeat_payload. split_and!.
  - by rewrite length_app, !to_be_bytes_length.
  - apply Forall_app. split; apply to_be_bytes_range.
  - rewrite take_app_length' by by rewrite to_be_bytes_length. by apply from_to_be_bytes.
  - rewrite drop_app_length' by by rewrite to_be_bytes_length. by apply from_to_be_bytes.
Qed.

Lemma payload_inj g s s' :
  in_u64 s -> in_u64 s' -> heartbeat_payload g s = heartbeat_payload g s' -> s = s'.
Proof.
  intros Hs Hs' H. unfold heartbeat_payload in H. apply app_inj_1 in H as [_ H]; [|by rewrite !to_be_bytes_length].
  apply (f_equal from_be_bytes) in H. by rewrite !from_to_be_bytes in H.
Qed.

Section Theory.
Context {clk : Clock}.

(** ** Correlation *)

(** The probes sent so far and those acknowledged, in the order of the calls:
    only the last probe can still be acknowledged. *)
Record tracks (h : HeartbeatState) (sent acked : list (list Z)) : Prop := {
  tr_acked : acked `sublist_of` sent;
  tr_outstanding probe : outstanding h = Some probe ->
    exists before, sent = before ++ [probe_payload probe] /\ acked `sublist_of` before;
  tr_sequence : Z.of_nat (length sent) <= u64_max ->
    sent = heartbeat_payload (generation h) <$> seqZ 1 (Z.of_nat (length sent)) /\
    (Z.of_nat (length sent) < u64_max -> hb_next_sequence h = Z.of_nat (length sent) + 1);
}.

Lemma start_tracks h timeout h' payload sent acked :
  tracks h sent acked -> start_probe h timeout = (h', payload) ->
  tracks h' (sent ++ [payload]) acked.
Proof.
  intros [Ha Ho Hs] [= <- <-]. split.
  - by apply sublist_inserts_r.
  - intros probe [= <-]. by exists sent.
  - rewrite length_app. cbn [length generation hb_next_sequence outstanding]. intros Hle.
    destruct Hs as [Hsent Hnext]; [lia|]. rewrite Hnext by lia. split.
    + rewrite Hsent at 1. replace (Z.of_nat (length sent + 1)) with (Z.of_nat (length sent) + 1) by lia.
      rewrite seqZ_app by lia. rewrite fmap_app. f_equal. simpl. do 2 f_equal. lia.
    + intros Hlt. unfold wrapping_add. unfold u64_max in *.
      rewrite Z.mod_small by lia. lia.
Qed.

Lemma same_tracks h h' sent acked :
  tracks h sent acked -> generation h' = generation h -> hb_next_sequence h' = hb_next_sequence h ->
  (forall probe, outstanding h' = Some probe -> exists probe0, outstanding h = Some probe0 /\
    probe_payload probe = probe_payload probe0) ->
  tracks h' sent acked.
Proof.
  intros [Ha Ho Hs] Hg Hn Hout. split; [done| |by rewrite Hg, Hn].
  intros probe Hp. destruct (Hout _ Hp) as (probe0 & Hp0 & ->). by apply Ho.
Qed.

Lemma step_tracks h op sent acked h' s a :
  tracks h sent acked -> heartbeat_step h op = (h', s, a) -> tracks h' (sent ++ s) (acked ++ a).
Proof.
  intros Ht. destruct op as [now timeout|now timeout|payload at_|payload now|payload]; cbn [heartbeat_step].
  - unfold on_tick. destruct (outstanding h) as [probe|] eqn:Hout.
    + destruct (probe_phase probe) as [|at_]; [by intros [= <- <- <-]; rewrite !app_nil_r|].
      by destruct (_ <=? _); intros [= <- <- <-]; rewrite !app_nil_r.
    + destruct (start_probe h timeout) as [h1 p] eqn:Hp. intros [= <- <- <-]. rewrite app_nil_r.
      by eapply start_tracks.
  - unfold start_recovery_probe. destruct (negb _); [by intros [= <- <- <-]; rewrite !app_nil_r|].
    destruct (start_probe h timeout) as [h1 p] eqn:Hp. intros [= <- <- <-]. rewrite app_nil_r.
    by eapply start_tracks.
  - intros [= <- <- <-]. rewrite !app_nil_r. unfold mark_sent.
    destruct (outstanding h) as [probe|] eqn:Hout; [|done].
    destruct (probe_phase probe); [|done]. destruct (negb _); [done|].
    eapply same_tracks; [done..|]. intros probe' [= <-]. by exists probe.
  - unfold acknowledge_pong. destruct (outstanding h) as [probe|] eqn:Hout; simpl.
    2: { intros [= <- <- <-]. by rewrite !app_nil_r. }
    case_bool_decide as Hp; simpl; [|intros [= <- <- <-]; by rewrite !app_nil_r].
    match goal with |- context [if ?b then _ else _] => destruct b end;
      intros [= <- <- <-]; rewrite app_nil_r; [|by rewrite app_nil_r].
    destruct Ht as [Ha Ho Hs]. destruct (Ho _ Hout) as (before & -> & Hb). split; [|done|done].
    subst payload. by apply sublist_app.
  - intros [= <- <- <-]. rewrite !app_nil_r. unfold abandon_probe.
    destruct (is_some_and _ _); [|done]. by eapply same_tracks.
Qed.

Lemma run_tracks ops h sent acked h' s a :
  tracks h sent acked -> heartbeat_run h ops = (h', s, a) ->
  tracks h' (sent ++ s) (acked ++ a) /\ generation h' = generation h.
Proof.
  revert h sent acked h' s a. induction ops as [|op ops IH]; intros h sent acked h' s a Ht; simpl.
  { intros [= <- <- <-]. by rewrite !app_nil_r. }
  destruct (heartbeat_step h op) as [[h1 s1] a1] eqn:Hs.
  destruct (heartbeat_run h1 ops) as [[h2 s2] a2] eqn:Hr. intros [= <- <- <-].
  assert (generation h1 = generation h) as <-.
  { clear -Hs. unfold heartbeat_step, on_tick, start_recovery_probe, mark_sent, acknowledge_pong,
      abandon_probe, start_probe in Hs. by repeat case_match; simplify_eq/=. }
  destruct (IH _ _ _ _ _ _ (step_tracks _ _ _ _ _ _ _ Ht Hs) Hr) as [Ht2 ?].
  by rewrite !(assoc_L (++)).
Qed.

(** C35.  Pongs are correlated with Pings.  For any interleaving of the calls of
    reader and writer on a new connection: the acknowledged probes are probes that
    were sent, in the order they were sent, and only the last probe can still be
    acknowledged, so a late, repeated or foreign Pong never counts; as long as the
    64-bit counter has not wrapped, every probe has its own payload, numbered from
    one, and so is acknowledged at most once. *)
Theorem heartbeat_correlates g ops :
  in_u64 g ->
  let '(h, sent, acked) := heartbeat_run (heartbeat_new g) ops in
  acked `sublist_of` sent /\
  (forall probe, outstanding h = Some probe -> exists before,
    sent = before ++ [probe_payload probe] /\ acked `sublist_of` before) /\
  (Z.of_nat (length sent) <= u64_max ->
    sent = heartbeat_payload g <$> seqZ 1 (Z.of_nat (length sent)) /\ NoDup sent /\ NoDup acked).
Proof.
  intros Hg. destruct (heartbeat_run (heartbeat_new g) ops) as [[h sent] acked] eqn:Hr.
  assert (tracks (heartbeat_new g) [] []) as Ht0 by (split; [done|done|by split]).
  destruct (run_tracks ops _ [] [] _ _ _ Ht0 Hr) as [[Ha Ho Hs] Hgen]. simpl in *.
  split_and!; [done|done|]. intros Hle. destruct (Hs Hle) as [Hsent _]. rewrite Hgen in Hsent.
  assert (NoDup sent) as Hnd.
  { rewrite Hsent. apply NoDup_fmap_2_strong; [|apply NoDup_seqZ].
    intros x y Hx%elem_of_seqZ Hy%elem_of_seqZ. apply payload_inj; unfold in_u64; lia. }
  split_and!; [done|done|]. by eapply sublist_NoDup.
Qed.

(** Reader, writer and recovery agree on the Pong deadline.  While a probe
    awaits its Pong and its (positive) timeout fits the clock, an instant is past
    the deadline for the interval tick exactly when it is for the deadline check,
    exactly when a matching Pong is refused, and exactly when a recovery probe may
    replace it; before that the Pong clears the probe. *)
Theorem pong_deadline_agreed h probe sent_at now t :
  outstanding h = Some probe -> probe_phase probe = ProbePhase.AwaitingPong sent_at ->
  0 < probe_timeout probe -> sent_at + probe_timeout probe <= instant_max ->
  pong_deadline h = Some (sent_at + probe_timeout probe) /\
  if sent_at + probe_timeout probe <=? now then
    on_tick h now t = (h, HeartbeatTick.TimedOut) /\ is_timed_out h now = true /\
    acknowledge_pong h (probe_payload probe) now = (h, false) /\
    start_recovery_probe h now t = (let '(h', p) := start_probe h t in (h', Some p))
  else
    on_tick h now t = (h, HeartbeatTick.Waiting) /\ is_timed_out h now = false /\
    acknowledge_pong h (probe_payload probe) now = (h <| outstanding := None |>, true) /\
    start_recovery_probe h now t = (h, None).
Proof.
  intros Hout Hph Ht Hfit.
  assert (instant_checked_add sent_at (probe_timeout probe) = Some (sent_at + probe_timeout probe)) as Hadd
    by by apply instant_checked_add_Some.
  unfold on_tick, is_timed_out, pong_deadline, acknowledge_pong, start_recovery_probe, saturating_duration_since.
  rewrite Hout. simpl. rewrite Hph, bool_decide_eq_true_2, Hadd by done. simpl. split; [done|].
  destruct (sent_at + probe_timeout probe <=? now) eqn:E; propify.
  - rewrite (proj2 (Z.leb_le (probe_timeout probe) _)), (proj2 (Z.ltb_ge now _)) by lia. done.
  - rewrite (proj2 (Z.leb_gt (probe_timeout probe) _)), (proj2 (Z.ltb_lt now _)) by lia. done.
Qed.

End Theory.

(** ** Concrete inputs *)

Lemma sample_u64 z : bool_decide (0 <= z /\ z <= u64_max) = true -> in_u64 z.
Proof. intros H. by apply bool_decide_eq_true in H. Qed.

Lemma heartbeat_payload_roundtrip_witness :
  heartbeat_payload 258 5 = [0; 0; 0; 0; 0; 0; 1; 2; 0; 0; 0; 0; 0; 0; 0; 5] /\
  from_be_bytes (drop 8 (heartbeat_payload 258 5)) = 5.
Proof.
  split; [reflexivity|].
  apply (heartbeat_payload_roundtrip 258 5 (sample_u64 258 eq_refl) (sample_u64 5 eq_refl)).
Defined.

(** Two probes; the Pong of the first arrives late and is repeated. *)
Definition sample_heartbeat_ops : list HeartbeatOp :=
  [HbTick 0 10; HbSent (heartbeat_payload 7 1) 2; HbTick 20 10; HbRecover 21 10;
   HbPong (heartbeat_payload 7 1) 22; HbSent (heartbeat_payload 7 2) 23;
   HbPong (heartbeat_payload 7 2) 24; HbPong (heartbeat_payload 7 2) 25].

Lemma heartbeat_correlates_witness :
  let '(h, sent, acked) := heartbeat_run (clk := linux_clock) (heartbeat_new 7) sample_heartbeat_ops in
  sent = [heartbeat_payload 7 1; heartbeat_payload 7 2] /\ acked = [heartbeat_payload 7 2] /\ NoDup acked.
Proof.
  pose proof (heartbeat_correlates (clk := linux_clock) 7 sample_heartbeat_ops (sample_u64 7 eq_refl)) as H.
  assert (let '(_, sent, acked) := heartbeat_run (clk := linux_clock) (heartbeat_new 7) sample_heartbeat_ops in
    sent = [heartbeat_payload 7 1; heartbeat_payload 7 2] /\ acked = [heartbeat_payload 7 2]) as H0
    by (vm_compute; split; reflexivity).
  destruct (heartbeat_run _ _) as [[h sent] acked]. destruct H0 as [H1 H2]. destruct H as (_ & _ & H).
  split; [exact H1|]. split; [exact H2|]. apply H. rewrite H1. vm_compute. discriminate.
Defined.

Lemma pong_deadline_agreed_witness :
  is_timed_out (clk := linux_clock)
    (mkHeartbeatState 7 2 (Some (mkOutstandingProbe (heartbeat_payload 7 1) 10 (ProbePhase.AwaitingPong 2)))) 12
    = true.
Proof.
  destruct (pong_deadline_agreed (clk := linux_clock)
    (mkHeartbeatState 7 2 (Some (mkOutstandingProbe (heartbeat_payload 7 1) 10 (ProbePhase.AwaitingPong 2))))
    _ 2 12 10 eq_refl eq_refl ltac:(simpl; lia) ltac:(vm_compute; discriminate)) as [_ H].
  apply H.
Defined.
