(* ===== verification/Dispatch.v ===== *)
(** * Tracked dispatch of callbacks (src/api/subscription/dispatch.rs)

    A job handed to an executor may start, or be thrown away without starting,
    before or after the executor has answered the submission.  The [Ticket] shared
    by the submitter and the job decides who reports that the job was abandoned.
    [abandoned] is whether the report is still to be made; a report is [true] in
    the output of an operation.  Every operation is one lock scope, so the calls of
    the submitter and of the job interleave as [TicketEvent]s. *)

From S2P Require Import Prelude F64 Backoff RetrySchedule RetryState Errors.

Module DispatchPhase.
Inductive DispatchPhase := Submitting | Accepted | Started | Dropped | Rejected.
End DispatchPhase.
Abbreviation DispatchPhase := DispatchPhase.DispatchPhase.

Record DispatchTicket := mkDispatchTicket { ticket_phase : DispatchPhase; abandoned : bool }.

#[export] Instance DispatchTicket_settable : Settable DispatchTicket :=
  fields! mkDispatchTicket [ ticket_phase; abandoned ].

Definition dispatch_failure : NetError :=
  with_stage (NetError_new ErrorKind.RuntimeUnavailable) ErrorStage.Dispatch.

Definition ticket_start (t : DispatchTicket) : DispatchTicket :=
  t <| ticket_phase := DispatchPhase.Started; abandoned := false |>.

(** The report that is made, and the answer to the submitter. *)
Definition ticket_accept (t : DispatchTicket) : DispatchTicket * bool * Result () NetError :=
  let '(t, report) :=
    match ticket_phase t with
    | DispatchPhase.Submitting => (t <| ticket_phase := DispatchPhase.Accepted |>, false)
    | DispatchPhase.Dropped => (t <| abandoned := false |>, abandoned t)
    | DispatchPhase.Accepted | DispatchPhase.Started | DispatchPhase.Rejected => (t, false)
    end in
  (t, report, if report then Err dispatch_failure else Ok tt).

Definition ticket_reject (t : DispatchTicket) : DispatchTicket :=
  t <| ticket_phase := DispatchPhase.Rejected; abandoned := false |>.

Definition ticket_retire (t : DispatchTicket) : DispatchTicket * bool :=
  match ticket_phase t with
  | DispatchPhase.Submitting => (t <| ticket_phase := DispatchPhase.Dropped |>, false)
  | DispatchPhase.Accepted => (t <| ticket_phase := DispatchPhase.Dropped; abandoned := false |>, abandoned t)
  | DispatchPhase.Started | DispatchPhase.Dropped | DispatchPhase.Rejected => (t, false)
  end.

(** [submit_tracked]: the ticket it makes, and what it does with the answer. *)
Definition ticket_new : DispatchTicket := mkDispatchTicket DispatchPhase.Submitting true.

Definition submit_tracked_end (t : DispatchTicket) (submitted : Result () NetError) :
    DispatchTicket * bool * Result () NetError :=
  match submitted with
  | Ok _ => ticket_accept t
  | Err error => (ticket_reject t, false, Err error)
  end.

(** ** Interleavings *)

(** The job starts; the guard of the job is dropped, at its end or without a start; the
    executor has answered. *)
Inductive TicketEvent :=
| JobStart
| JobDrop
| Answered (submitted : Result () NetError).

Record TicketRun := mkTicketRun {
  ticket_state : DispatchTicket;
  reports : nat;
  answer : option (Result () NetError);
}.

Definition ticket_step (r : TicketRun) (e : TicketEvent) : TicketRun :=
  match e with
  | JobStart => mkTicketRun (ticket_start (ticket_state r)) (reports r) (answer r)
  | JobDrop =>
      let '(t, report) := ticket_retire (ticket_state r) in
      mkTicketRun t (if report then S (reports r) else reports r) (answer r)
  | Answered submitted =>
      let '(t, report, res) := submit_tracked_end (ticket_state r) submitted in
      mkTicketRun t (if report then S (reports r) else reports r) (Some res)
  end.

Definition ticket_run (es : list TicketEvent) : TicketRun :=
  foldl ticket_step (mkTicketRun ticket_new 0 None) es.

(** What a job does: it runs, or it is thrown away. *)
Definition job_events (starts : bool) : list TicketEvent :=
  if starts then [JobStart; JobDrop] else [JobDrop].

(** The answer of the executor comes somewhere among the events of the job. *)
Definition ticket_trace (starts : bool) (submitted : Result () NetError) (before : nat) : list TicketEvent :=
  take before (job_events starts) ++ [Answered submitted] ++ drop before (job_events starts).

(** Whatever the order in which the executor answers and the job starts or is thrown away, a
    job that was accepted and never starts is reported as abandoned exactly once, and no other job
    is ever reported.  The submitter is told of a failure exactly when the executor refused the job,
    with the error of the executor, or when the job was gone before the answer. *)
Theorem abandonment_reported_once starts submitted before :
  let r := ticket_run (ticket_trace starts submitted before) in
  reports r = (if is_ok submitted && negb starts then 1%nat else 0%nat) /\
  answer r = Some (match submitted with
                   | Err error => Err error
                   | Ok _ => if negb starts && bool_decide (0 < before)%nat then Err dispatch_failure else Ok tt
                   end).
Proof.
  destruct starts, submitted as [[]|error]; (destruct before as [|[|[|before]]]; [..|]); try done;
    unfold ticket_trace; simpl; rewrite ?take_nil, ?drop_nil; done.
Qed.
