(* ===== verification/EventStream.v ===== *)
(** * Event streams (src/api/subscription/event.rs, event_registration.rs)

    A bounded queue between a source and one receiver, measured in items and
    bytes, with three overflow policies, and the callback runner that drains it on
    an executor.  [T] is the type of the values; [R] the type of the reservations
    an entry retains until it leaves the queue.  Every function is one lock scope;
    what it retires, wakes and schedules is dispatched after the lock is released.
    Wakers, hooks, callbacks and executors are present or absent. *)

From S2P Require Import Prelude F64 Backoff RetrySchedule RetryState Errors.

Module EventOverflow.
Inductive EventOverflow := Disconnect | DropOldest | Wait.
End EventOverflow.
Abbreviation EventOverflow := EventOverflow.EventOverflow.

#[export] Instance EventOverflow_eq_dec : EqDecision EventOverflow.
Proof. solve_decision. Defined.

Record EventQueueLimit := mkEventQueueLimit { ev_max_items : Z; ev_max_bytes : Z }.

Module ReceiveError.
Inductive ReceiveError := Lagged (skipped : Z) | Failed (error : NetError).
End ReceiveError.
Abbreviation ReceiveError := ReceiveError.ReceiveError.

Module TryReceiveError.
Inductive TryReceiveError := Empty | Closed | Lagged (skipped : Z) | Failed (error : NetError).
End TryReceiveError.
Abbreviation TryReceiveError := TryReceiveError.TryReceiveError.

(** The allocator's refusal as the source of an error. *)
Definition allocation_error : NetError := with_source ErrorKind.ResourceExhausted (OtherError 1 None).

Definition callback_fault : NetError :=
  with_stage (NetError_new ErrorKind.CallbackPanicked) ErrorStage.Dispatch.

Section Events.
Context {T R : Type}.

Record Entry := mkEntry { value : T; entry_bytes : Z; entry_resources : option R }.

Record EventSeed := mkEventSeed {
  seed_entries : list (T * Z);
  seed_lagged : Z;
  seed_source_closed : bool;
  seed_failure : option NetError;
}.

Record EventState := mkEventState {
  equeue : list Entry;
  ebytes : Z;
  lagged : Z;
  eactive : bool;
  source_closed : bool;
  pristine : bool;
  pending_error : option NetError;
  final_error : option NetError;
  executor : bool;
  callback : bool;
  driver : bool;
  slot_held : bool;
  scheduled : bool;
  running : bool;
  receive_waker : bool;
  close_waker : bool;
  detach_hook : bool;
  callback_installing : bool;
  callback_install_error : option NetError;
}.

#[export] Instance EventState_settable : Settable EventState :=
  fields! mkEventState [ equeue; ebytes; lagged; eactive; source_closed; pristine; pending_error;
    final_error; executor; callback; driver; slot_held; scheduled; running; receive_waker;
    close_waker; detach_hook; callback_installing; callback_install_error ].

Record EventRegistration := mkEventRegistration {
  ereg_limit : EventQueueLimit;
  ereg_overflow : EventOverflow;
}.

(** [EventState] of a new registration. *)
Definition event_state_new (permit : bool) : EventState :=
  {| equeue := []; ebytes := 0; lagged := 0; eactive := true; source_closed := false;
     pristine := true; pending_error := None; final_error := None; executor := true;
     callback := false; driver := false; slot_held := permit; scheduled := false; running := false;
     receive_waker := false; close_waker := false; detach_hook := false;
     callback_installing := false; callback_install_error := None |}.

(** [max_permits] is the bound of the semaphore implementation, [reserve] the
    answer of the allocator. *)
Definition event_channel (max_permits : Z) (reserve : bool) (limit : EventQueueLimit)
    (overflow : EventOverflow) (permit : bool) : Result (EventRegistration * EventState) NetError :=
  if (ev_max_items limit =? 0) || (max_permits <? ev_max_items limit)
  then Err (NetError_config "subscription.max_items" "must be a positive supported capacity")
  else if (ev_max_bytes limit =? 0) || (max_permits <? ev_max_bytes limit)
          || (u32_max <? ev_max_bytes limit)
  then Err (NetError_config "subscription.max_bytes" "must be a positive supported byte allowance")
  else if negb reserve then Err allocation_error
  else Ok (mkEventRegistration limit overflow, event_state_new permit).

(** ** Delivery *)

Inductive Delivery :=
| DItem (item : Result Entry ReceiveError)
| DDone
| DPending.

(** [EventState::next] *)
Definition event_next (s : EventState) : EventState * Delivery :=
  let s := s <| pristine := false |> in
  if negb (eactive s) then (s, DDone)
  else if negb (lagged s =? 0) then
    (s <| lagged := 0 |>, DItem (Err (ReceiveError.Lagged (lagged s))))
  else
    match equeue s with
    | entry :: rest =>
        (s <| equeue := rest; ebytes ::= fun b => b - entry_bytes entry |>, DItem (Ok entry))
    | [] =>
        match pending_error s with
        | Some error => (s <| pending_error := None |>, DItem (Err (ReceiveError.Failed error)))
        | None => (s, if source_closed s then DDone else DPending)
        end
    end.

Definition event_pending (s : EventState) : bool :=
  negb (lagged s =? 0) || match equeue s with [] => false | _ => true end
  || is_some (pending_error s) || source_closed s.

(** ** Publications: changes that are committed, with what is dispatched later *)

Record EventPublication := mkEventPublication {
  ep_result : Result bool NetError;
  ep_input : option Entry;
  ep_retired : list Entry;
  ep_wake : bool;
  ep_notify_capacity : bool;
  ep_schedule : bool;
}.

#[export] Instance EventPublication_settable : Settable EventPublication :=
  fields! mkEventPublication [ ep_result; ep_input; ep_retired; ep_wake; ep_notify_capacity;
    ep_schedule ].

Definition event_publication_new : EventPublication := mkEventPublication (Ok true) None [] false false false.

Definition admission_result (accepted : bool) : Result () NetError :=
  if accepted then Ok tt else Err (NetError_new ErrorKind.QueueFull).

(** The oldest entries to retire: their bytes leave [remaining]. *)
Fixpoint evict_loop (limit : EventQueueLimit) (len bytes : Z) (entries : list Entry)
    (remaining count : Z) : Z * Z :=
  match entries with
  | [] => (remaining, count)
  | entry :: rest =>
      let remaining := remaining - entry_bytes entry in
      let count := count + 1 in
      if (len - count <? ev_max_items limit) && (remaining + bytes <=? ev_max_bytes limit)
      then (remaining, count)
      else evict_loop limit len bytes rest remaining count
  end.

Definition push_entry (s : EventState) (entry : Entry) (retired : list Entry) :
    EventState * EventPublication :=
  (s <| ebytes ::= Z.add (entry_bytes entry); equeue ::= (fun q => q ++ [entry]);
        pristine := false; receive_waker := false |>,
   event_publication_new <| ep_retired := retired; ep_wake := receive_waker s; ep_schedule := true |>).

(** [prepare_publish]; a refused entry goes back to the caller. *)
Definition commit_publish (reg : EventRegistration) (reserve : bool) (s : EventState) (entry : Entry) :
    EventState * EventPublication :=
  let limit := ereg_limit reg in
  let bytes := entry_bytes entry in
  let refuse error := event_publication_new <| ep_result := Err error; ep_input := Some entry |> in
  if ev_max_bytes limit <? bytes then (s, refuse (NetError_new ErrorKind.ItemTooLarge))
  else if negb (eactive s) || source_closed s then (s, refuse (NetError_new ErrorKind.Closed))
  else
    match checked_add usize_max (ebytes s) bytes with
    | None => (s, refuse (NetError_new ErrorKind.ResourceExhausted))
    | Some total =>
        let len := Z.of_nat (length (equeue s)) in
        let full := (len =? ev_max_items limit) || (ev_max_bytes limit <? total) in
        if full && bool_decide (ereg_overflow reg = EventOverflow.Wait)
        then (s, event_publication_new <| ep_result := Ok false; ep_input := Some entry |>)
        else if full && bool_decide (ereg_overflow reg = EventOverflow.Disconnect) then
          let error := with_stage (NetError_new ErrorKind.CallbackOverflow) ErrorStage.Dispatch in
          (s <| pending_error := Some error; final_error := Some error; source_closed := true;
                pristine := false; receive_waker := false |>,
           (refuse error) <| ep_wake := receive_waker s; ep_notify_capacity := true;
                           ep_schedule := true |>)
        else if full then
          let '(remaining, count) := evict_loop limit len bytes (equeue s) (ebytes s) 0 in
          match checked_add u64_max (lagged s) count with
          | None => (s, refuse (NetError_new ErrorKind.ResourceExhausted))
          | Some lagged' =>
              if negb reserve then (s, refuse allocation_error)
              else
                push_entry (s <| equeue ::= drop (Z.to_nat count); ebytes := remaining;
                                 lagged := lagged' |>)
                  entry (take (Z.to_nat count) (equeue s))
          end
        else push_entry s entry []
    end.

(** [prepare_evict_oldest] *)
Definition prepare_evict_oldest (reg : EventRegistration) (reserve : bool) (s : EventState) :
    EventState * option EventPublication :=
  match equeue s with
  | entry :: rest =>
      if negb (eactive s) || source_closed s
         || negb (bool_decide (ereg_overflow reg = EventOverflow.DropOldest))
      then (s, None)
      else
        match checked_add u64_max (lagged s) 1 with
        | None =>
            (s, Some (event_publication_new <| ep_result := Err (NetError_new ErrorKind.ResourceExhausted) |>))
        | Some lagged' =>
            if negb reserve
            then (s, Some (event_publication_new <| ep_result := Err allocation_error |>))
            else
              (s <| equeue := rest; ebytes ::= (fun b => b - entry_bytes entry); lagged := lagged';
                    pristine := false; receive_waker := false |>,
               Some (event_publication_new <| ep_retired := [entry]; ep_wake := receive_waker s;
                       ep_notify_capacity := true; ep_schedule := true |>))
        end
  | [] => (s, None)
  end.

(** [prepare_skip] *)
Definition commit_skip (reg : EventRegistration) (reserve : bool) (s : EventState) (skipped : Z) :
    EventState * EventPublication :=
  if negb (bool_decide (ereg_overflow reg = EventOverflow.DropOldest)) then
    (s, event_publication_new <| ep_result :=
          Err (NetError_input "subscription.overflow" "skipping requires DropOldest overflow") |>)
  else if negb (eactive s) || source_closed s then
    (s, event_publication_new <| ep_result := Err (NetError_new ErrorKind.Closed) |>)
  else
    match checked_add u64_max (lagged s) (Z.of_nat (length (equeue s))) ≫= fun value =>
          checked_add u64_max value skipped with
    | None => (s, event_publication_new <| ep_result := Err (NetError_new ErrorKind.ResourceExhausted) |>)
    | Some lagged' =>
        if negb reserve then (s, event_publication_new <| ep_result := Err allocation_error |>)
        else
          (s <| equeue := []; ebytes := 0; lagged := lagged'; pristine := false;
                receive_waker := false |>,
           event_publication_new <| ep_retired := equeue s; ep_wake := receive_waker s;
             ep_notify_capacity := true; ep_schedule := true |>)
    end.

Definition prepare_finish (s : EventState) (failure : option NetError) : EventState * EventPublication :=
  if eactive s && negb (source_closed s) then
    (s <| pristine := false; source_closed := true; pending_error := failure;
          final_error := failure; receive_waker := false |>,
     event_publication_new <| ep_wake := receive_waker s; ep_notify_capacity := true;
       ep_schedule := true |>)
  else (s, event_publication_new).

(** The limits of a seed: its total size, or the refusal. *)
Fixpoint seed_total (limit : EventQueueLimit) (entries : list (T * Z)) (total : Z) :
    Result Z NetError :=
  match entries with
  | [] => Ok total
  | (_, bytes) :: rest =>
      if ev_max_bytes limit <? bytes then Err (NetError_new ErrorKind.ItemTooLarge)
      else
        let? total := ok_or (checked_add usize_max total bytes)
                        (NetError_new ErrorKind.ResourceExhausted) in
        if ev_max_bytes limit <? total then Err (NetError_new ErrorKind.QueueFull)
        else seed_total limit rest total
  end.

Definition commit_seed (reg : EventRegistration) (s : EventState) (seed : EventSeed) :
    EventState * EventPublication :=
  let refuse error := event_publication_new <| ep_result := Err error |> in
  if is_some (seed_failure seed) && negb (seed_source_closed seed) then
    (s, refuse (NetError_input "subscription.seed" "a failed seed must be closed"))
  else if ev_max_items (ereg_limit reg) <? Z.of_nat (length (seed_entries seed)) then
    (s, refuse (NetError_new ErrorKind.QueueFull))
  else
    match seed_total (ereg_limit reg) (seed_entries seed) 0 with
    | Err error => (s, refuse error)
    | Ok total =>
        if negb (eactive s) then (s, refuse (NetError_new ErrorKind.Closed))
        else if negb (pristine s) then
          (s, refuse (NetError_input "subscription.seed" "seed requires an unused receiver"))
        else
          (s <| equeue ::= (fun q => q ++ map (fun p => mkEntry p.1 p.2 None) (seed_entries seed));
                ebytes := total; lagged := seed_lagged seed; source_closed := seed_source_closed seed;
                pending_error := seed_failure seed; final_error := seed_failure seed;
                pristine := false; receive_waker := false |>,
           event_publication_new <| ep_wake := receive_waker s;
             ep_notify_capacity := seed_source_closed seed; ep_schedule := true |>)
    end.

(** ** Detaching *)

Definition on_receiver_closed (s : EventState) : EventState * Result () NetError :=
  if negb (eactive s) then (s, Err (NetError_new ErrorKind.Closed))
  else if detach_hook s then
    (s, Err (NetError_input "subscription.detach_hook" "a detach hook is already installed"))
  else (s <| detach_hook := true |>, Ok tt).

(** [unsubscribe]: the retired entries and whether this call detached. *)
Definition unsubscribe (s : EventState) : EventState * list Entry * bool :=
  if negb (eactive s) then (s, [], false)
  else
    (s <| eactive := false; ebytes := 0; lagged := 0;
          close_waker := if running s then close_waker s else false;
          equeue := []; pending_error := None; callback := false; driver := false;
          executor := false; slot_held := false; receive_waker := false; detach_hook := false |>,
     equeue s, true).

(** The registration fails: an installation records it, otherwise it detaches. *)
Definition event_fail (s : EventState) (error : NetError) : EventState * list Entry :=
  if callback_installing s
  then (s <| callback_install_error ::= fun e => option_or e (Some error) |>, [])
  else (unsubscribe (s <| final_error ::= fun e => option_or e (Some error) |>)).1.

(** ** Receiving *)

(** What the receiver sees, with the entries that left the queue. *)
Inductive Received := RItem (value : T) | RError (error : ReceiveError) | RClosed | REmpty.

Definition deliver (s : EventState) (d : Delivery) : EventState * list Entry * Received :=
  match d with
  | DItem (Ok entry) => (s, [entry], RItem (value entry))
  | DItem (Err error) => (s, [], RError error)
  | DDone => let '(s, retired, _) := unsubscribe s in (s, retired, RClosed)
  | DPending => (s, [], REmpty)
  end.

(** [poll_next]: an empty poll leaves its waker. *)
Definition poll_next (s : EventState) : EventState * list Entry * Received :=
  let '(s, d) := event_next s in
  deliver (match d with DPending => s <| receive_waker := true |> | _ => s end) d.

Definition try_recv (s : EventState) : EventState * list Entry * Result T TryReceiveError :=
  let '(s, d) := event_next s in
  let '(s, retired, r) := deliver s d in
  (s, retired,
   match r with
   | RItem v => Ok v
   | RError (ReceiveError.Lagged skipped) => Err (TryReceiveError.Lagged skipped)
   | RError (ReceiveError.Failed error) => Err (TryReceiveError.Failed error)
   | RClosed => Err TryReceiveError.Closed
   | REmpty => Err TryReceiveError.Empty
   end).

(** [poll_close]: [None] while a callback runs. *)
Definition poll_close (s : EventState) : EventState * option (Result () NetError) :=
  if running s then (s <| close_waker := true |>, None)
  else (s, Some (match final_error s with Some error => Err error | None => Ok tt end)).

(** ** The callback runner *)

(** The locked half of [schedule]: whether the driver has to be called. *)
Definition schedule_lock (s : EventState) : EventState * bool :=
  if negb (eactive s) || scheduled s || negb (event_pending s) then (s, false)
  else if driver s then (s <| scheduled := true |>, true)
  else (s, false).

(** [install_callback] before its own [schedule]; [ready] is the answer of the
    executor's [ensure_ready]. *)
Definition install_begin (ready : Result () NetError) (s : EventState) : EventState * Result () NetError :=
  if negb (executor s) then (s, Err (NetError_new ErrorKind.Closed))
  else if is_err ready then (s, ready)
  else if negb (eactive s) then (s, Err (NetError_new ErrorKind.Closed))
  else if callback s || callback_installing s then
    (s, Err (NetError_input "subscription.callback" "callback already installed"))
  else (s <| pristine := false; callback_installing := true; callback := true; driver := true |>, Ok tt).

(** ... and after it, given the error of its [schedule]. *)
Definition install_end (s : EventState) (schedule_error : option NetError) :
    EventState * Result () NetError :=
  if callback_installing s then
    let failure := option_or (callback_install_error s) schedule_error in
    let s := s <| callback_installing := false; callback_install_error := None |> in
    match failure with
    | Some error => (s <| scheduled := false; callback := false; driver := false |>, Err error)
    | None => (s, Ok tt)
    end
  else (s, Ok tt).

(** A job of the executor starts: whether it goes on to run callbacks. *)
Definition run_start (s : EventState) : EventState * bool :=
  if negb (eactive s) then (s <| scheduled := false |>, false)
  else (s <| callback_installing := false; running := true |>, true).

Inductive RunNext :=
| RunCall (item : Result Entry ReceiveError)
| RunIdle
| RunDone
| RunNoCallback (item : Result Entry ReceiveError).

(** One turn of [run_callbacks]: an idle queue retires the runner in the same
    lock scope. *)
Definition run_next (s : EventState) : EventState * RunNext :=
  let '(s, d) := event_next s in
  match d with
  | DItem item => (s, if callback s then RunCall item else RunNoCallback item)
  | DPending => (s <| running := false; scheduled := false; close_waker := false |>, RunIdle)
  | DDone => (s, RunDone)
  end.

(** [finish_run] before its [schedule]. *)
Definition finish_run (s : EventState) : EventState :=
  s <| running := false; scheduled := false; close_waker := false |>.

End Events.

Arguments Entry : clear implicits.
Arguments EventState : clear implicits.
Arguments EventSeed : clear implicits.
Arguments EventPublication : clear implicits.
Arguments Delivery : clear implicits.
Arguments Received : clear implicits.
