(* ===== verification/EventTheory.v ===== *)
(** * Theorems about event streams

    [EventWorld] is one registration with everything that is in flight around it:
    publications that are committed and not yet dispatched, calls of the driver,
    jobs in the executor, runners, and an installation of a callback.  A run is any
    interleaving of [WorldOp]s; its trace is what the source has put in and what
    the consumer, polling or called back, has seen. *)

From S2P Require Import Prelude F64 Backoff RetrySchedule RetryState Errors EventStream.

Section Theory.
Context {T R : Type}.

Implicit Types s : EventState T R.

Inductive InstallPc := INone | IBegun | ISubmitting | IReady (error : option NetError).

Record EventWorld := mkEventWorld {
  est : EventState T R;
  undispatched : nat;
  submitting : nat;
  jobs : nat;
  runners : nat;
  finishing : nat;
  install : InstallPc;
}.

#[export] Instance EventWorld_settable : Settable EventWorld :=
  fields! mkEventWorld [ est; undispatched; submitting; jobs; runners; finishing; install ].

Inductive TraceEvent :=
| TIn (value : option T)
| TOut (received : Received T)
| TDetach
| TLost.

Inductive WorldOp :=
| WPublish (reserve : bool) (entry : Entry T R)
| WSkip (reserve : bool) (skipped : nat)
| WEvict (reserve : bool)
| WFinish (failure : option NetError)
| WSeed (seed : EventSeed T)
| WUnsubscribe
| WPoll
| WTryRecv
| WDispatch
| WSubmit (error : option NetError)
| WAbandon (error : NetError)
| WStart
| WNext
| WPanic
| WFinishRun
| WInstallBegin (ready : Result () NetError)
| WInstallSchedule
| WInstallSubmit (error : option NetError)
| WInstallEnd.

Definition world_new (permit : bool) : EventWorld :=
  mkEventWorld (event_state_new permit) 0 0 0 0 0 INone.

(** A committed publication waits for its dispatch. *)
Definition committed (w : EventWorld) (s : EventState T R) (p : EventPublication T R) : EventWorld :=
  w <| est := s; undispatched ::= fun n => if ep_schedule p then S n else n |>.

Definition accepted (p : EventPublication T R) (ins : list (option T)) : list TraceEvent :=
  match ep_result p with Ok true => TIn <$> ins | _ => [] end.

Definition failed (w : EventWorld) (error : NetError) : EventWorld * list TraceEvent :=
  let s := (event_fail (est w) error).1 in
  (w <| est := s |>, if eactive (est w) && negb (eactive s) then [TDetach] else []).

Definition received_item (item : Result (Entry T R) ReceiveError) : Received T :=
  match item with Ok entry => RItem (value entry) | Err error => RError error end.

Definition world_step (reg : EventRegistration) (w : EventWorld) (op : WorldOp) :
    EventWorld * list TraceEvent :=
  match op with
  | WPublish reserve entry =>
      let '(s, p) := commit_publish reg reserve (est w) entry in
      (committed w s p, accepted p [Some (value entry)])
  | WSkip reserve skipped =>
      let '(s, p) := commit_skip reg reserve (est w) (Z.of_nat skipped) in
      (committed w s p, accepted p (replicate skipped None))
  | WEvict reserve =>
      match prepare_evict_oldest reg reserve (est w) with
      | (s, Some p) => (committed w s p, [])
      | (s, None) => (w, [])
      end
  | WFinish failure => let '(s, p) := prepare_finish (est w) failure in (committed w s p, [])
  | WSeed seed =>
      let '(s, p) := commit_seed reg (est w) seed in
      (committed w s p,
       accepted p (replicate (Z.to_nat (seed_lagged seed)) None ++ (Some ∘ fst <$> seed_entries seed)))
  | WUnsubscribe =>
      let '(s, _, detached) := unsubscribe (est w) in
      (w <| est := s |>, if detached then [TDetach] else [])
  | WPoll => let '(s, _, r) := poll_next (est w) in (w <| est := s |>, [TOut r])
  | WTryRecv =>
      let '(s, _, r) := try_recv (est w) in
      (w <| est := s |>,
       [TOut match r with
             | Ok v => RItem v
             | Err TryReceiveError.Empty => REmpty
             | Err TryReceiveError.Closed => RClosed
             | Err (TryReceiveError.Lagged n) => RError (ReceiveError.Lagged n)
             | Err (TryReceiveError.Failed e) => RError (ReceiveError.Failed e)
             end])
  | WDispatch =>
      match undispatched w with
      | O => (w, [])
      | S n =>
          let '(s, submit) := schedule_lock (est w) in
          (w <| est := s; undispatched := n;
                submitting ::= fun k => if submit then S k else k |>, [])
      end
  | WSubmit error =>
      match submitting w with
      | O => (w, [])
      | S n =>
          match error with
          | None => (w <| submitting := n; jobs ::= S |>, [])
          | Some error => failed (w <| submitting := n |>) error
          end
      end
  | WAbandon error =>
      match jobs w with
      | O => (w, [])
      | S n =>
          let w := w <| jobs := n |> in
          if eactive (est w) then failed w error else (w, [])
      end
  | WStart =>
      match jobs w with
      | O => (w, [])
      | S n =>
          let '(s, go) := run_start (est w) in
          (w <| est := s; jobs := n; runners ::= fun k => if go then S k else k |>, [])
      end
  | WNext =>
      match runners w with
      | O => (w, [])
      | S n =>
          match run_next (est w) with
          | (s, RunCall item) => (w <| est := s |>, [TOut (received_item item)])
          | (s, RunIdle) => (w <| est := s; runners := n |>, [TOut REmpty])
          | (s, RunDone) =>
              (w <| est := (unsubscribe s).1.1; runners := n; finishing ::= S |>, [TOut RClosed])
          | (s, RunNoCallback _) => (w <| est := s; runners := n; finishing ::= S |>, [TLost])
          end
      end
  | WPanic =>
      match runners w with
      | O => (w, [])
      | S n => failed (w <| runners := n; finishing ::= S |>) callback_fault
      end
  | WFinishRun =>
      match finishing w with
      | O => (w, [])
      | S n => (w <| est ::= finish_run; finishing := n; undispatched ::= S |>, [])
      end
  | WInstallBegin ready =>
      match install_begin ready (est w) with
      | (s, Ok _) => (w <| est := s; install := IBegun |>, [])
      | (s, Err _) => (w <| est := s |>, [])
      end
  | WInstallSchedule =>
      match install w with
      | IBegun =>
          let '(s, submit) := schedule_lock (est w) in
          (w <| est := s; install := if submit then ISubmitting else IReady None |>, [])
      | _ => (w, [])
      end
  | WInstallSubmit error =>
      match install w with
      | ISubmitting =>
          match error with
          | None => (w <| install := IReady None; jobs ::= S |>, [])
          | Some error => failed (w <| install := IReady (Some error) |>) error
          end
      | _ => (w, [])
      end
  | WInstallEnd =>
      match install w with
      | IReady error => (w <| est := (install_end (est w) error).1; install := INone |>, [])
      | _ => (w, [])
      end
  end.

Fixpoint world_run (reg : EventRegistration) (w : EventWorld) (ops : list WorldOp) :
    EventWorld * list TraceEvent :=
  match ops with
  | [] => (w, [])
  | op :: ops =>
      let '(w, tr) := world_step reg w op in
      let '(w, tr') := world_run reg w ops in
      (w, tr ++ tr')
  end.

(** ** The contract *)

(** [live]: the receiver is attached.  The consumer has a cursor into the stream;
    an item is the one at the cursor, a lag report moves the cursor over what was
    dropped or skipped, and an empty poll, the error of the source and the end of
    the stream are seen only when the cursor is at the end. *)
Fixpoint explains (live : bool) (stream : list (option T)) (cursor : nat) (tr : list TraceEvent) : Prop :=
  match tr with
  | [] => True
  | TIn x :: tr => live = true /\ explains live (stream ++ [x]) cursor tr
  | TDetach :: tr => live = true /\ explains false stream cursor tr
  | TLost :: _ => False
  | TOut (RItem v) :: tr =>
      live = true /\ stream !! cursor = Some (Some v) /\ explains live stream (S cursor) tr
  | TOut (RError (ReceiveError.Lagged n)) :: tr =>
      live = true /\ 0 < n /\ (cursor + Z.to_nat n <= length stream)%nat /\
      explains live stream (cursor + Z.to_nat n) tr
  | TOut (RError (ReceiveError.Failed _)) :: tr | TOut REmpty :: tr =>
      live = true /\ cursor = length stream /\ explains live stream cursor tr
  | TOut RClosed :: tr =>
      (live = true -> cursor = length stream) /\ explains false stream cursor tr
  end.

(** ** The queue *)

Definition valid_limit (reg : EventRegistration) : Prop :=
  1 <= ev_max_items (ereg_limit reg) /\ 1 <= ev_max_bytes (ereg_limit reg) <= u32_max.

Definition queue_bytes (q : list (Entry T R)) : Z := foldr (fun e acc => entry_bytes e + acc) 0 q.

Record queue_inv (reg : EventRegistration) s : Prop := {
  qi_len : Z.of_nat (length (equeue s)) <= ev_max_items (ereg_limit reg);
  qi_bytes : ebytes s = queue_bytes (equeue s);
  qi_max : ebytes s <= ev_max_bytes (ereg_limit reg);
  qi_pos : Forall (fun e => 0 <= entry_bytes e) (equeue s);
  qi_lag : 0 <= lagged s;
  qi_dead : eactive s = false -> equeue s = [];
  qi_pristine : pristine s = true -> equeue s = [] /\ lagged s = 0;
}.

(** The queue is what the cursor has not reached, after the pending lag. *)
Definition rel s (stream : list (option T)) (cursor : nat) : Prop :=
  eactive s = true ->
  (cursor + Z.to_nat (lagged s) <= length stream)%nat /\
  Some ∘ value <$> equeue s = drop (cursor + Z.to_nat (lagged s)) stream.

(** A step of the state whose trace the contract explains. *)
Definition moves (reg : EventRegistration) s (stream : list (option T)) (cursor : nat)
    (tr : list TraceEvent) s' : Prop :=
  exists stream' cursor', queue_inv reg s' /\ rel s' stream' cursor' /\
  forall rest, explains (eactive s') stream' cursor' rest ->
    explains (eactive s) stream cursor (tr ++ rest).

(** A step of the source: [ins] goes into the stream. *)
Definition shifts (reg : EventRegistration) s (stream : list (option T)) (cursor : nat)
    (ins : list (option T)) s' : Prop :=
  queue_inv reg s' /\ rel s' (stream ++ ins) cursor /\ eactive s' = eactive s /\ (ins = [] \/ eactive s = true).

Definition taken (p : EventPublication T R) (ins : list (option T)) : list (option T) :=
  match ep_result p with Ok true => ins | _ => [] end.

Lemma ins_explain live stream cursor (ins : list (option T)) rest :
  ins = [] \/ live = true -> explains live (stream ++ ins) cursor rest ->
  explains live stream cursor ((TIn <$> ins) ++ rest).
Proof.
  intros Hl. revert stream Hl. induction ins as [|x ins IH]; intros stream Hl; simpl.
  - by rewrite app_nil_r.
  - intros H. destruct Hl as [?| ->]; [done|]. split; [done|]. apply IH; [by right|]. rewrite <- (assoc_L (++)). exact H.
Qed.

Lemma shifts_moves reg s stream cursor ins s' :
  shifts reg s stream cursor ins s' -> moves reg s stream cursor (TIn <$> ins) s'.
Proof.
  intros (Hi & Hr & Ha & Hins). exists (stream ++ ins), cursor. split_and!; [done|done|]. intros rest.
  rewrite Ha. by apply ins_explain.
Qed.

Lemma queue_bytes_app q1 q2 : queue_bytes (q1 ++ q2) = queue_bytes q1 + queue_bytes q2.
Proof. induction q1; simpl in *; lia. Qed.

Lemma queue_bytes_cons (e : Entry T R) q : queue_bytes (e :: q) = entry_bytes e + queue_bytes q.
Proof. done. Qed.

Lemma queue_bytes_pos q : Forall (fun e : Entry T R => 0 <= entry_bytes e) q -> 0 <= queue_bytes q.
Proof. induction 1; simpl in *; lia. Qed.

(** Changes beside the queue. *)
Lemma moves_quiet reg s s' stream cursor :
  queue_inv reg s -> rel s stream cursor ->
  equeue s' = equeue s -> ebytes s' = ebytes s -> lagged s' = lagged s -> eactive s' = eactive s ->
  (pristine s' = true -> pristine s = true) -> moves reg s stream cursor [] s'.
Proof.
  intros [? ? ? ? ? ? ?] Hr Hq Hb Hl Ha Hp. exists stream, cursor. split_and!.
  - split; rewrite ?Hq, ?Hb, ?Hl, ?Ha; auto.
  - unfold rel. by rewrite Hq, Hl, Ha.
  - by rewrite Ha.
Qed.

Lemma shifts_quiet reg s s' stream cursor :
  queue_inv reg s -> rel s stream cursor ->
  equeue s' = equeue s -> ebytes s' = ebytes s -> lagged s' = lagged s -> eactive s' = eactive s ->
  (pristine s' = true -> pristine s = true) -> shifts reg s stream cursor [] s'.
Proof.
  intros [? ? ? ? ? ? ?] Hr Hq Hb Hl Ha Hp. split_and!; [|rewrite app_nil_r; unfold rel; by rewrite Hq, Hl, Ha|done|by left].
  split; rewrite ?Hq, ?Hb, ?Hl, ?Ha; auto.
Qed.

Lemma evict_loop_spec limit len bytes q remaining count :
  bytes <= ev_max_bytes limit -> 1 <= ev_max_items limit -> remaining = queue_bytes q ->
  len = count + Z.of_nat (length q) -> q <> [] ->
  let '(remaining', count') := evict_loop limit len bytes q remaining count in
  exists n, (n <= length q)%nat /\ count' = count + Z.of_nat n /\ remaining' = queue_bytes (drop n q) /\
    len - count' < ev_max_items limit /\ remaining' + bytes <= ev_max_bytes limit.
Proof.
  intros Hb Hi. revert remaining count. induction q as [|e q IH]; intros remaining count Hrem Hlen Hne; [done|].
  simpl in *. destruct (_ && _) eqn:E.
  { propify. exists 1%nat. simpl. split_and!; [lia|lia|rewrite drop_0; lia|lia|lia]. }
  destruct q as [|e2 q].
  { exfalso. simpl in *. apply andb_false_iff in E as [E|E]; propify; lia. }
  specialize (IH (remaining - entry_bytes e) (count + 1)). cbn [length] in *.
  destruct (evict_loop limit len bytes (e2 :: q) (remaining - entry_bytes e) (count + 1)) as [r' c'].
  destruct IH as (n & ? & ? & ? & ? & ?); [simpl in *; lia|lia|done|].
  exists (S n). split_and!; [lia|lia|done|lia|lia].
Qed.

(** Appending one entry after dropping [n]. *)
Lemma push_shifts reg s stream cursor entry n lagged' bytes' retired s' p :
  queue_inv reg s -> rel s stream cursor -> eactive s = true -> 0 <= entry_bytes entry ->
  (n <= length (equeue s))%nat -> lagged' = lagged s + Z.of_nat n -> bytes' = queue_bytes (drop n (equeue s)) ->
  Z.of_nat (length (equeue s)) - Z.of_nat n < ev_max_items (ereg_limit reg) ->
  bytes' + entry_bytes entry <= ev_max_bytes (ereg_limit reg) ->
  push_entry (s <| equeue ::= drop n; ebytes := bytes'; lagged := lagged' |>) entry retired = (s', p) ->
  shifts reg s stream cursor [Some (value entry)] s' /\ ep_result p = Ok true.
Proof.
  intros [Hl Hb Hm Hp Hlag Hd Hpr] Hr Ha He Hn -> -> Hlen Hbytes [= <- <-]. split; [|done].
  destruct (Hr Ha) as [Hc Hq]. split_and!; [| |done|by right].
  - split; simpl; try done; [| | | |lia|by rewrite Ha].
    + rewrite length_app, length_drop. simpl. lia.
    + rewrite queue_bytes_app. simpl. lia.
    + lia.
    + apply Forall_app. split; [by apply Forall_drop|]. by constructor.
  - intros _. simpl. split.
    + rewrite length_app. apply (f_equal length) in Hq. rewrite length_fmap, length_drop in Hq. simpl. lia.
    + rewrite fmap_app, fmap_drop, Hq, drop_drop. apply (f_equal length) in Hq.
      rewrite length_fmap, length_drop in Hq. rewrite drop_app_le by lia. f_equal. f_equal. lia.
Qed.

Lemma accepted_taken (p : EventPublication T R) ins : accepted p ins = TIn <$> taken p ins.
Proof. unfold accepted, taken. by destruct (ep_result p) as [[]|]. Qed.

Lemma publish_shifts reg reserve s stream cursor entry s' p :
  valid_limit reg -> queue_inv reg s -> rel s stream cursor -> 0 <= entry_bytes entry ->
  commit_publish reg reserve s entry = (s', p) ->
  shifts reg s stream cursor (taken p [Some (value entry)]) s'.
Proof.
  intros [Hi Hmb] Hinv Hr He. pose proof Hinv as [Hl Hb Hm Hp Hlag Hd Hpr]. unfold commit_publish.
  destruct (_ <? _) eqn:E1; [intros [= <- <-]; by apply shifts_quiet|].
  destruct (negb (eactive s) || source_closed s) eqn:E2; [intros [= <- <-]; by apply shifts_quiet|].
  destruct (checked_add usize_max (ebytes s) (entry_bytes entry)) as [total|] eqn:Ht;
    [|intros [= <- <-]; by apply shifts_quiet].
  apply checked_add_Some in Ht as [-> _]. propify.
  assert (s = s <| equeue ::= drop 0; ebytes := queue_bytes (drop 0 (equeue s)); lagged := lagged s + Z.of_nat 0 |>) as Hs0.
  { destruct s; simpl in *. rewrite drop_0, Z.add_0_r. by subst. }
  destruct (_ || _) eqn:Hfull; simpl.
  2: { intros Hpush. apply orb_false_iff in Hfull as [Hf1 Hf2]. propify.
       rewrite Hs0 in Hpush.
       destruct (push_shifts reg s stream cursor entry 0 (lagged s + Z.of_nat 0)
         (queue_bytes (drop 0 (equeue s))) [] s' p) as [Hmv Hres]; try done; [lia|lia|rewrite drop_0, <- Hb; exact Hf2|].
       unfold taken. by rewrite Hres. }
  case_bool_decide as Ew; [intros [= <- <-]; by apply shifts_quiet|].
  case_bool_decide as Ed; [intros [= <- <-]; by apply shifts_quiet|].
  assert (equeue s <> []) as Hne.
  { intros Hnil. rewrite Hnil in Hb, Hfull. unfold queue_bytes in Hb. cbn [foldr length] in Hb, Hfull.
    apply orb_true_iff in Hfull as [Hf|Hf]; propify; lia. }
  pose proof (evict_loop_spec (ereg_limit reg) (Z.of_nat (length (equeue s))) (entry_bytes entry) (equeue s)
    (ebytes s) 0 ltac:(lia) Hi Hb ltac:(lia) Hne) as Hev.
  destruct (evict_loop _ _ _ _ _ _) as [remaining count]. destruct Hev as (n & Hn & -> & -> & Hlen & Hbytes).
  destruct (checked_add u64_max _ _) as [lagged'|] eqn:Hlg; [|intros [= <- <-]; by apply shifts_quiet].
  apply checked_add_Some in Hlg as [-> _]. destruct reserve; simpl; [|intros [= <- <-]; by apply shifts_quiet].
  rewrite Z.add_0_l, Nat2Z.id. intros Hpush.
  destruct (push_shifts reg s stream cursor entry n (lagged s + Z.of_nat n)
    (queue_bytes (drop n (equeue s))) _ s' p Hinv Hr ltac:(done) He Hn eq_refl eq_refl ltac:(lia) Hbytes Hpush)
    as [Hmv Hres]. unfold taken. by rewrite Hres.
Qed.

Lemma publish_moves reg reserve s stream cursor entry s' p :
  valid_limit reg -> queue_inv reg s -> rel s stream cursor -> 0 <= entry_bytes entry ->
  commit_publish reg reserve s entry = (s', p) ->
  moves reg s stream cursor (accepted p [Some (value entry)]) s'.
Proof.
  intros Hv Hi Hr He Hc. rewrite accepted_taken. by apply shifts_moves, (publish_shifts reg reserve).
Qed.

Lemma evict_moves reg reserve s stream cursor s' p :
  queue_inv reg s -> rel s stream cursor -> prepare_evict_oldest reg reserve s = (s', Some p) ->
  moves reg s stream cursor [] s'.
Proof.
  intros Hinv Hr. pose proof Hinv as [Hl Hb Hm Hp Hlag Hd Hpr]. unfold prepare_evict_oldest.
  destruct (equeue s) as [|e q] eqn:Hq; [done|]. destruct (_ || _ || _) eqn:E1; [done|]. propify.
  destruct (checked_add _ _ _) as [l'|] eqn:Hlg; [|intros [= <- <-]; by apply moves_quiet].
  apply checked_add_Some in Hlg as [-> _]. destruct reserve; simpl; [|intros [= <- <-]; by apply moves_quiet].
  intros [= <- <-]. destruct (Hr ltac:(done)) as [Hc Heq]. rewrite Hq in Heq.
  pose proof (f_equal length Heq) as Hlen. rewrite length_fmap, length_drop in Hlen.
  apply Forall_cons in Hp as [Hpe Hp]. cbn [length] in *. rewrite queue_bytes_cons in Hb.
  exists stream, cursor. split_and!.
  - split; simpl; try done; [lia|lia|lia|lia|congruence].
  - intros _. simpl. split; [lia|].
    replace (cursor + Z.to_nat (lagged s + 1))%nat with (cursor + Z.to_nat (lagged s) + 1)%nat by lia.
    rewrite <- drop_drop, <- Heq. done.
  - done.
Qed.

Lemma skip_shifts reg reserve s stream cursor n s' p :
  queue_inv reg s -> rel s stream cursor -> commit_skip reg reserve s (Z.of_nat n) = (s', p) ->
  shifts reg s stream cursor (taken p (replicate n None)) s'.
Proof.
  intros Hinv Hr. pose proof Hinv as [Hl Hb Hm Hp Hlag Hd Hpr]. unfold commit_skip.
  destruct (negb _); [intros [= <- <-]; by apply shifts_quiet|].
  destruct (_ || _) eqn:E1; [intros [= <- <-]; by apply shifts_quiet|]. propify.
  destruct (_ ≫= _) as [l'|] eqn:Hlg; [|intros [= <- <-]; by apply shifts_quiet].
  destruct reserve; simpl; [|intros [= <- <-]; by apply shifts_quiet]. intros [= <- <-].
  destruct (checked_add u64_max (lagged s) _) as [l1|] eqn:H1; [|done]. simpl in Hlg.
  apply checked_add_Some in H1 as [-> _], Hlg as [-> _].
  destruct (Hr ltac:(done)) as [Hc Heq]. pose proof (f_equal length Heq) as Hlen.
  rewrite length_fmap, length_drop in Hlen.
  unfold taken. simpl. split_and!; [| |done|right; done].
  - split; simpl; try done; [lia| |lia]. pose proof (queue_bytes_pos _ Hp). lia.
  - intros _. simpl. rewrite length_app, length_replicate. split; [lia|].
    rewrite drop_ge; [done|]. rewrite length_app, length_replicate. lia.
Qed.

Lemma skip_moves reg reserve s stream cursor n s' p :
  queue_inv reg s -> rel s stream cursor -> commit_skip reg reserve s (Z.of_nat n) = (s', p) ->
  moves reg s stream cursor (accepted p (replicate n None)) s'.
Proof. intros Hi Hr Hc. rewrite accepted_taken. by apply shifts_moves, (skip_shifts reg reserve). Qed.

Lemma seed_total_spec limit (entries : list (T * Z)) total total' :
  0 <= total <= ev_max_bytes limit -> Forall (fun e => 0 <= e.2) entries ->
  seed_total limit entries total = Ok total' ->
  total' = total + queue_bytes (map (fun p => mkEntry p.1 p.2 None) entries) /\ total' <= ev_max_bytes limit.
Proof.
  revert total. induction entries as [|[v b] entries IH]; intros total Ht Hp; simpl.
  { intros [= <-]. lia. }
  destruct (_ <? b) eqn:E; [done|]. destruct (checked_add _ _ _) as [t1|] eqn:Ha; [|done]. simpl.
  apply checked_add_Some in Ha as [-> _]. destruct (_ <? total + b) eqn:E2; [done|]. propify.
  apply Forall_cons in Hp as [Hb Hp]. simpl in *.
  intros H. apply IH in H as [-> ?]; [|lia|done]. split; lia.
Qed.

Lemma seed_shifts reg s stream cursor (seed : EventSeed T) s' p :
  valid_limit reg -> queue_inv reg s -> rel s stream cursor -> 0 <= seed_lagged seed ->
  Forall (fun e => 0 <= e.2) (seed_entries seed) -> commit_seed reg s seed = (s', p) ->
  shifts reg s stream cursor
    (taken p (replicate (Z.to_nat (seed_lagged seed)) None ++ (Some ∘ fst <$> seed_entries seed))) s'.
Proof.
  intros [Hi Hmb] Hinv Hr Hlg Hpos. pose proof Hinv as [Hl Hb Hm Hp Hlag Hd Hpr]. unfold commit_seed.
  destruct (_ && _); [intros [= <- <-]; by apply shifts_quiet|].
  destruct (_ <? _) eqn:E1; [intros [= <- <-]; by apply shifts_quiet|].
  destruct (seed_total _ _ _) as [total|] eqn:Ht; [|intros [= <- <-]; by apply shifts_quiet].
  destruct (negb (eactive s)) eqn:E2; [intros [= <- <-]; by apply shifts_quiet|].
  destruct (negb (pristine s)) eqn:E3; [intros [= <- <-]; by apply shifts_quiet|].
  intros [= <- <-]. propify. destruct (Hpr E3) as [Hq Hlg0].
  apply seed_total_spec in Ht as [-> Hmax]; [|lia|done]. destruct (Hr E2) as [Hc Heq].
  rewrite Hq, Hlg0 in *. simpl in Hc, Heq. pose proof (f_equal length Heq) as Hlen.
  rewrite length_drop in Hlen. cbn [fmap list_fmap length] in Hlen.
  match goal with |- shifts _ _ _ _ (taken ?p ?ins) _ => change (taken p ins) with ins end.
  unfold shifts. rewrite (assoc_L (++)). split_and!; [| |done|right; done].
  - split; simpl; rewrite ?Hq; simpl; try done; try lia.
    + rewrite length_map. lia.
    + apply Forall_map. by eapply Forall_impl.
    + by rewrite E2.
  - intros _. simpl. rewrite ?Hq. simpl. rewrite !length_app, length_replicate. split; [lia|].
    rewrite drop_app_length'; [|rewrite length_app, length_replicate; lia].
    change (map ?f ?l) with (f <$> l). by rewrite <- list_fmap_compose.
Qed.

Lemma seed_moves reg s stream cursor (seed : EventSeed T) s' p :
  valid_limit reg -> queue_inv reg s -> rel s stream cursor -> 0 <= seed_lagged seed ->
  Forall (fun e => 0 <= e.2) (seed_entries seed) -> commit_seed reg s seed = (s', p) ->
  moves reg s stream cursor
    (accepted p (replicate (Z.to_nat (seed_lagged seed)) None ++ (Some ∘ fst <$> seed_entries seed))) s'.
Proof. intros Hv Hi Hr Hl Hp Hc. rewrite accepted_taken. by apply shifts_moves, (seed_shifts reg). Qed.

Lemma finish_moves reg s stream cursor failure s' p :
  queue_inv reg s -> rel s stream cursor -> prepare_finish s failure = (s', p) ->
  moves reg s stream cursor [] s'.
Proof.
  intros Hinv Hr. unfold prepare_finish. destruct (_ && _); intros [= <- <-]; by apply moves_quiet.
Qed.

(** Detaching: nothing else is seen. *)
Lemma unsubscribe_inv reg s :
  valid_limit reg -> queue_inv reg s -> queue_inv reg (unsubscribe s).1.1 /\ eactive (unsubscribe s).1.1 = false.
Proof.
  intros [Hi Hmb] Hinv. unfold unsubscribe. destruct (eactive s) eqn:Ha; simpl; [|done].
  destruct Hinv. split; [|done]. split; simpl; try done; lia.
Qed.

Lemma unsubscribe_moves reg s stream cursor :
  valid_limit reg -> queue_inv reg s ->
  moves reg s stream cursor (if eactive s then [TDetach] else []) (unsubscribe s).1.1.
Proof.
  intros Hv Hinv. destruct (unsubscribe_inv reg s Hv Hinv) as [Hi Hd].
  exists stream, cursor. split_and!; [done|unfold rel; by rewrite Hd|].
  intros rest. rewrite Hd. by destruct (eactive s).
Qed.

Lemma fail_moves reg s stream cursor error :
  valid_limit reg -> queue_inv reg s -> rel s stream cursor ->
  moves reg s stream cursor
    (if eactive s && negb (eactive (event_fail s error).1) then [TDetach] else []) (event_fail s error).1.
Proof.
  intros Hv Hinv Hr. unfold event_fail. destruct (callback_installing s).
  { simpl. rewrite andb_negb_r. by apply moves_quiet. }
  set (s1 := s <| final_error ::= fun e => option_or e (Some error) |>).
  assert (queue_inv reg s1) as Hi1 by by destruct Hinv.
  pose proof (unsubscribe_moves reg s1 stream cursor Hv Hi1) as Hm.
  destruct (unsubscribe_inv reg s1 Hv Hi1) as [_ Hd]. rewrite Hd. simpl. rewrite andb_true_r. exact Hm.
Qed.

(** What the consumer sees of [event_next]. *)
Definition delivered (d : Delivery T R) : Received T :=
  match d with
  | DItem item => received_item item
  | DDone => RClosed
  | DPending => REmpty
  end.

(** Where an output leaves the cursor, and when it may be seen. *)
Definition moved (cursor : nat) (r : Received T) : nat :=
  match r with
  | RItem _ => S cursor
  | RError (ReceiveError.Lagged n) => cursor + Z.to_nat n
  | _ => cursor
  end.

Definition sees (live : bool) (stream : list (option T)) (cursor : nat) (r : Received T) : Prop :=
  match r with
  | RItem v => live = true /\ stream !! cursor = Some (Some v)
  | RError (ReceiveError.Lagged n) => live = true /\ 0 < n /\ (cursor + Z.to_nat n <= length stream)%nat
  | RError (ReceiveError.Failed _) | REmpty => live = true /\ cursor = length stream
  | RClosed => live = true -> cursor = length stream
  end.

Definition still (live : bool) (r : Received T) : bool := match r with RClosed => false | _ => live end.

Lemma sees_explain live stream cursor r tr :
  sees live stream cursor r -> explains (still live r) stream (moved cursor r) tr ->
  explains live stream cursor (TOut r :: tr).
Proof. destruct r as [v|[n|error]| |]; simpl; tauto. Qed.

Lemma next_steps reg s stream cursor s' d :
  valid_limit reg -> queue_inv reg s -> rel s stream cursor -> event_next s = (s', d) ->
  let s'' := match d with DDone => (unsubscribe s').1.1 | _ => s' end in
  queue_inv reg s'' /\ rel s'' stream (moved cursor (delivered d)) /\ sees (eactive s) stream cursor (delivered d) /\
  eactive s'' = still (eactive s) (delivered d).
Proof.
  intros Hv Hinv Hr. pose proof Hinv as [Hl Hb Hm Hp Hlag Hd Hpr]. unfold event_next. simpl.
  destruct (eactive s) eqn:Ha; simpl.
  2: { intros [= <- <-]. unfold unsubscribe. simpl. rewrite ?Ha. simpl. split_and!.
       - by split.
       - intros H. simpl in H. congruence.
       - done.
       - done. }
  destruct (Hr Ha) as [Hc Heq]. pose proof (f_equal length Heq) as Hlen. rewrite length_fmap, length_drop in Hlen.
  destruct (lagged s =? 0) eqn:El; simpl; propify.
  2: { intros [= <- <-]. split_and!.
       - by split.
       - intros _. simpl. rewrite Nat.add_0_r. done.
       - simpl. split_and!; [done|lia|lia].
       - done. }
  rewrite El in *. simpl in Hc, Heq, Hlen. rewrite Nat.add_0_r in Hc, Heq, Hlen.
  destruct (equeue s) as [|e q] eqn:Hq.
  { assert (cursor = length stream) as Hcur by (simpl in Hlen; lia).
    destruct (pending_error s) as [error|]; simpl.
    { intros [= <- <-]. split_and!; [split; simpl; rewrite ?Hq; done| |done..].
      intros _. simpl. rewrite ?Hq, ?El, ?Nat.add_0_r. done. }
    destruct (source_closed s); intros [= <- <-].
    - match goal with |- context [unsubscribe ?x] => set (s1 := x) end.
      assert (queue_inv reg s1) as Hi1 by (split; simpl; rewrite ?Hq, ?El; done).
      destruct (unsubscribe_inv reg s1 Hv Hi1) as [Hi Hdead].
      split_and!; [exact Hi|unfold rel; by rewrite Hdead|by intros _|exact Hdead].
    - split_and!; [split; simpl; rewrite ?Hq, ?El; done| |done..].
      intros _. simpl. rewrite ?Hq, ?El, ?Nat.add_0_r. done. }
  intros [= <- <-]. apply Forall_cons in Hp as [Hpe Hp]. rewrite queue_bytes_cons in Hb. simpl in Hlen.
  assert (stream !! cursor = Some (Some (value e)) /\ Some ∘ value <$> q = drop (S cursor) stream) as [Hat Hrest].
  { rewrite fmap_cons in Heq. symmetry in Heq. split.
    - rewrite <- (Nat.add_0_r cursor), <- lookup_drop, Heq. done.
    - rewrite <- Nat.add_1_r, <- drop_drop, Heq. done. }
  split_and!.
  - simpl in Hl. split; simpl; rewrite ?El; try done; lia.
  - intros _. simpl. rewrite ?El, ?Nat.add_0_r. split; [lia|done].
  - done.
  - done.
Qed.

Lemma next_moves reg s stream cursor s' d :
  valid_limit reg -> queue_inv reg s -> rel s stream cursor -> event_next s = (s', d) ->
  moves reg s stream cursor [TOut (delivered d)]
    (match d with DDone => (unsubscribe s').1.1 | _ => s' end).
Proof.
  intros Hv Hi Hr Hn. destruct (next_steps reg s stream cursor s' d Hv Hi Hr Hn) as (Hi' & Hr' & Hs & Ha).
  exists stream, (moved cursor (delivered d)). split_and!; [done|done|]. intros rest. rewrite Ha. by apply sees_explain.
Qed.

(** ** The runner *)

Definition submits (w : EventWorld) : nat := match install w with ISubmitting => 1 | _ => 0 end.

(** The calls of the driver, jobs and runners that owe the registration a turn. *)
Definition tickets (w : EventWorld) : nat :=
  (submitting w + jobs w + runners w + finishing w + submits w)%nat.

Record runner_inv (w : EventWorld) : Prop := {
  ri_one : (tickets w <= 1)%nat;
  ri_scheduled : tickets w = 1%nat -> scheduled (est w) = true;
  ri_ticket : eactive (est w) = true -> scheduled (est w) = true ->
    tickets w = 1%nat \/ is_some (callback_install_error (est w)) = true;
  ri_driver : driver (est w) = callback (est w);
  ri_callback : eactive (est w) = true -> scheduled (est w) = true -> callback (est w) = true;
  ri_running : running (est w) = true <-> (0 < runners w + finishing w)%nat;
  ri_install : install w <> INone -> eactive (est w) = true -> callback (est w) = true;
  ri_installing : callback_installing (est w) = true -> install w <> INone /\ (runners w + finishing w = 0)%nat;
  ri_error : is_some (callback_install_error (est w)) = true ->
    callback_installing (est w) = true /\ tickets w = 0%nat /\
    (eactive (est w) = true -> scheduled (est w) = true);
  ri_failed : forall e, install w = IReady (Some e) -> callback_installing (est w) = true ->
    is_some (callback_install_error (est w)) = true;
  ri_finishing : (0 < finishing w)%nat -> eactive (est w) = false;
  ri_dead : eactive (est w) = false -> callback (est w) = false /\ executor (est w) = false;
  ri_wake : eactive (est w) = true -> driver (est w) = true -> event_pending (est w) = true ->
    scheduled (est w) = false -> (0 < undispatched w)%nat \/ install w = IBegun;
}.

(** A change of the queue: the runner's fields stay, and what becomes pending is
    scheduled. *)
Record publishes s s' (schedule : bool) : Prop := {
  pb_active : eactive s' = eactive s;
  pb_executor : executor s' = executor s;
  pb_callback : callback s' = callback s;
  pb_driver : driver s' = driver s;
  pb_scheduled : scheduled s' = scheduled s;
  pb_running : running s' = running s;
  pb_installing : callback_installing s' = callback_installing s;
  pb_error : callback_install_error s' = callback_install_error s;
  pb_pending : schedule = false -> event_pending s' = true -> event_pending s = true;
}.

Lemma publishes_refl s : publishes s s false.
Proof. by split. Qed.

Ltac solve_publishes :=
  repeat case_match; intros; simplify_eq/=; try apply publishes_refl; by split.

Lemma publish_publishes reg reserve s entry s' p :
  commit_publish reg reserve s entry = (s', p) -> publishes s s' (ep_schedule p).
Proof. unfold commit_publish, push_entry. solve_publishes. Qed.

Lemma skip_publishes reg reserve s n s' p :
  commit_skip reg reserve s n = (s', p) -> publishes s s' (ep_schedule p).
Proof. unfold commit_skip. solve_publishes. Qed.

Lemma evict_publishes reg reserve s s' p :
  prepare_evict_oldest reg reserve s = (s', Some p) -> publishes s s' (ep_schedule p).
Proof. unfold prepare_evict_oldest. solve_publishes. Qed.

Lemma finish_publishes s failure s' p :
  prepare_finish s failure = (s', p) -> publishes s s' (ep_schedule p).
Proof. unfold prepare_finish. solve_publishes. Qed.

Lemma seed_publishes reg s seed s' p :
  commit_seed reg s seed = (s', p) -> publishes s s' (ep_schedule p).
Proof. unfold commit_seed. solve_publishes. Qed.

Lemma next_publishes s s' d : event_next s = (s', d) -> publishes s s' false.
Proof.
  unfold event_next. simpl. intros H.
  repeat case_match; simplify_eq/=; split; try done; intros _; unfold event_pending; simpl;
    repeat match goal with
           | H : _ = Some _ |- _ => rewrite H
           | H : equeue s = _ |- _ => rewrite H
           | H : negb _ = _ |- _ => rewrite H
           | H : source_closed s = _ |- _ => rewrite H
           end; rewrite ?orb_true_r; done.
Qed.

Lemma next_idle s s' : event_next s = (s', DPending) -> event_pending s' = false.
Proof.
  unfold event_next, event_pending. simpl. intros H. repeat case_match; simplify_eq/=.
  by repeat match goal with H : _ = _ |- _ => rewrite H; clear H end.
Qed.

Lemma next_item_active s s' item : event_next s = (s', DItem item) -> eactive s = true.
Proof. unfold event_next. simpl. by destruct (eactive s). Qed.

Lemma publishes_runner w s n schedule :
  runner_inv w -> publishes (est w) s schedule -> (undispatched w <= n)%nat ->
  (schedule = true -> (0 < n)%nat) -> runner_inv (w <| est := s; undispatched := n |>).
Proof.
  intros [] [] Hle Hs. split; simpl; unfold tickets, submits in *; simpl in *;
    rewrite ?pb_active0, ?pb_executor0, ?pb_callback0, ?pb_driver0, ?pb_scheduled0, ?pb_running0,
      ?pb_installing0, ?pb_error0; try done.
  intros Ha Hd Hp Hns. destruct schedule; [left; by apply Hs|].
  destruct (ri_wake0 Ha Hd (pb_pending0 eq_refl Hp) Hns); [left; lia|by right].
Qed.

Lemma committed_runner w s p :
  runner_inv w -> publishes (est w) s (ep_schedule p) -> runner_inv (committed w s p).
Proof.
  intros Hi Hp. apply (publishes_runner w s (if ep_schedule p then S (undispatched w) else undispatched w) _ Hi Hp).
  - destruct (ep_schedule p); lia.
  - intros ->. lia.
Qed.

Lemma quiet_runner w s : runner_inv w -> publishes (est w) s false -> runner_inv (w <| est := s |>).
Proof. intros Hi Hp. by apply (publishes_runner w s (undispatched w) _ Hi Hp). Qed.

Ltac runner := split; unfold tickets, submits in *; simpl in *; intros; try naive_solver lia.

Lemma unsubscribe_runner w : runner_inv w -> runner_inv (w <| est := (unsubscribe (est w)).1.1 |>).
Proof.
  intros Hw. unfold unsubscribe. destruct (eactive (est w)) eqn:Ha; simpl.
  - destruct Hw. runner.
  - by destruct w.
Qed.

(** Every runner field of a world after [event_fail]. *)
Lemma failed_installing w error :
  callback_installing (est w) = true ->
  failed w error = (w <| est ::= fun s => s <| callback_install_error ::= fun e => option_or e (Some error) |> |>, []).
Proof.
  intros Hi. unfold failed, event_fail. rewrite Hi. simpl. rewrite andb_negb_r. by destruct w.
Qed.

(** A registration that is detached keeps the invariant whatever ticket it drops. *)
Lemma failed_runner w w' error :
  runner_inv w -> (tickets w' <= 0)%nat \/ callback_installing (est w) = false ->
  (tickets w' <= tickets w)%nat -> est w' = est w -> undispatched w' = undispatched w ->
  (runners w' + finishing w' = runners w + finishing w)%nat ->
  (install w' = install w \/ install w = ISubmitting /\ install w' = IReady (Some error)) ->
  (callback_installing (est w) = true -> scheduled (est w) = true) ->
  runner_inv (failed w' error).1.
Proof.
  intros [] Htk Hle He Hu Hrun Hin Hsch.
  destruct (callback_installing (est w)) eqn:Hci.
  - rewrite failed_installing by (by rewrite He). destruct Htk as [Htk|]; [|done].
    assert (is_some (option_or (callback_install_error (est w)) (Some error)) = true) as Hsome
      by (by destruct (callback_install_error (est w))).
    split; simpl; rewrite ?He, ?Hu, ?Hrun; try done; change (tickets _) with (tickets w').
    + lia.
    + intros. lia.
    + by right.
    + intros Hi. apply ri_install0. destruct Hin as [<-|[-> _]]; done.
    + intros _. destruct (ri_installing0 eq_refl). split; [destruct Hin as [->|[_ ->]]; done|lia].
    + intros _. split_and!; [done|lia|intros _; by apply Hsch].
    + unfold tickets in Htk. lia.
    + intros Ha Hd Hp Hns. rewrite Hsch in Hns; done.
  - unfold failed, event_fail, unsubscribe. rewrite He, Hci. simpl.
    destruct (eactive (est w)) eqn:Ha; split; simpl; rewrite ?He, ?Hu, ?Hrun, ?Ha, ?Hci; try done; change (tickets _) with (tickets w').
    all: solve [lia | intros; apply ri_scheduled0; lia | intros Hs; by destruct (ri_error0 Hs)].
Qed.

Lemma schedule_runner w s submit :
  runner_inv w -> schedule_lock (est w) = (s, submit) ->
  (if submit then scheduled (est w) = false /\ s = (est w) <| scheduled := true |> /\ tickets w = 0%nat /\
    eactive (est w) = true /\ callback (est w) = true
   else s = est w /\ (eactive (est w) = true -> driver (est w) = true -> event_pending (est w) = true ->
     scheduled (est w) = true)).
Proof.
  intros [] H. unfold schedule_lock in H. destruct (_ || _ || _) eqn:E.
  { injection H as <- <-. split; [done|]. intros Ha _ Hp. by rewrite Ha, Hp, orb_false_r in E. }
  apply orb_false_iff in E as [[Ha Hs]%orb_false_iff Hp]. propify. rewrite ri_driver0 in *.
  destruct (callback (est w)) eqn:Hc; injection H as <- <-; [|done].
  split_and!; try done. destruct (tickets w) as [|[|]] eqn:Ht; [done| |lia].
  by rewrite ri_scheduled0 in Hs.
Qed.

Lemma dispatch_runner reg w : runner_inv w -> runner_inv (world_step reg w WDispatch).1.
Proof.
  intros Hw. simpl. destruct (undispatched w) as [|n] eqn:Hu; [done|].
  destruct (schedule_lock (est w)) as [s submit] eqn:Hs. apply schedule_runner in Hs; [|done].
  destruct Hw. destruct submit.
  - destruct Hs as (Hsc & -> & Ht & Ha & Hc). unfold tickets, submits in *.
    split; simpl in *; rewrite ?Hu in *; try done; unfold tickets, submits; simpl; intros; try lia; try (left; lia).
    destruct ri_error0 as (_ & _ & Hx); [done|]. rewrite Hx in Hsc; done.
  - destruct Hs as [-> Hn]. split; simpl in *; try done. intros Ha Hd Hp Hns. rewrite Hn in Hns; done.
Qed.

Lemma install_schedule_runner reg w : runner_inv w -> runner_inv (world_step reg w WInstallSchedule).1.
Proof.
  intros Hw. simpl. destruct (install w) eqn:Hin; try done.
  destruct (schedule_lock (est w)) as [s submit] eqn:Hs. apply schedule_runner in Hs; [|done].
  destruct Hw. unfold tickets, submits in *. destruct submit.
  - destruct Hs as (Hsc & -> & Ht & Ha & Hc). rewrite Hin in *.
    split; simpl in *; try done; unfold tickets, submits; simpl; intros; try lia; try (left; lia).
    + split; [done|]. by apply ri_installing0.
    + destruct ri_error0 as (_ & _ & Hx); [done|]. rewrite Hx in Hsc; done.
  - destruct Hs as [-> Hn]. rewrite Hin in *. split; simpl in *; try done; unfold tickets, submits; simpl; try done.
    + intros _. by apply ri_install0.
    + intros Hi. split; [done|]. by apply ri_installing0.
    + intros Ha Hd Hp Hns. rewrite Hn in Hns; done.
Qed.

Lemma install_begin_runner reg w ready :
  runner_inv w -> runner_inv (world_step reg w (WInstallBegin ready)).1.
Proof.
  intros Hw. simpl. unfold install_begin.
  destruct (executor (est w)) eqn:He; simpl; [|by destruct w].
  destruct ready as [|e]; simpl; [|by destruct w].
  destruct (eactive (est w)) eqn:Ha; simpl; [|by destruct w].
  destruct (_ || _) eqn:Hc; simpl; [by destruct w|]. apply orb_false_iff in Hc as [Hc Hi]. destruct Hw.
  assert (scheduled (est w) = false) as Hs.
  { destruct (scheduled (est w)); [|done]. by rewrite ri_callback0 in Hc. }
  assert (tickets w = 0%nat) as Ht.
  { destruct (tickets w) as [|[|]]; [done| |lia]. by rewrite ri_scheduled0 in Hs. }
  unfold tickets, submits in *.
  split; simpl; unfold tickets, submits; simpl; rewrite ?Ha; try done; intros; try lia; try congruence.
  - split; [done|lia].
  - destruct ri_error0 as [? _]; [done|congruence].
  - by right.
Qed.

Lemma install_end_runner reg w : runner_inv w -> runner_inv (world_step reg w WInstallEnd).1.
Proof.
  intros Hw. simpl. destruct (install w) as [| | |error] eqn:Hin; try done. simpl. destruct Hw.
  unfold install_end. destruct (callback_installing (est w)) eqn:Hc.
  2: { split; unfold tickets, submits in *; simpl; rewrite ?Hin, ?Hc in *; try done.
       intros Ha Hd Hp Hns. destruct (ri_wake0 Ha Hd Hp Hns); [by left|done]. }
  destruct (ri_installing0 eq_refl) as [_ Hrun].
  destruct (option_or _ _) as [e|] eqn:Ho; unfold tickets, submits in *; rewrite Hin in *.
  - assert (is_some (callback_install_error (est w)) = true) as Hsome.
    { destruct (callback_install_error (est w)); [done|]. simpl in Ho. subst. by apply (ri_failed0 e). }
    destruct (ri_error0 Hsome) as (_ & Ht & _).
    split; simpl; unfold tickets, submits; simpl; try done; intros; try lia; try naive_solver.
  - assert (callback_install_error (est w) = None) as Hn by by destruct (callback_install_error (est w)).
    rewrite Hn in *. simpl in *. split; simpl; unfold tickets, submits; simpl; try done.
    intros Ha Hd Hp Hns. destruct (ri_wake0 Ha Hd Hp Hns); [by left|done].
Qed.

(** The same tickets, held elsewhere. *)
Lemma handover_runner w w' :
  runner_inv w -> ((0 < finishing w')%nat -> eactive (est w') = false) -> est w' = est w -> undispatched w' = undispatched w -> tickets w' = tickets w ->
  (runners w' + finishing w' = runners w + finishing w)%nat ->
  (install w' = install w \/ install w = ISubmitting /\ install w' = IReady None) -> runner_inv w'.
Proof.
  intros [] Hf He Hu Ht Hr Hin. rewrite He in Hf. split; rewrite ?He, ?Hu, ?Ht, ?Hr; try done.
  - intros Hi. apply ri_install0. destruct Hin as [<-|[-> _]]; done.
  - intros Hi. destruct (ri_installing0 Hi). split; [|done]. destruct Hin as [->|[_ ->]]; done.
  - intros e Hi. apply (ri_failed0 e). destruct Hin as [<-|[_ Hx]]; [done|congruence].
  - intros Ha Hd Hp Hns. destruct (ri_wake0 Ha Hd Hp Hns) as [|Hb]; [by left|].
    destruct Hin as [->|[Hx _]]; [by right|congruence].
Qed.

Lemma submit_runner reg w error : runner_inv w -> runner_inv (world_step reg w (WSubmit error)).1.
Proof.
  intros Hw. simpl. destruct (submitting w) as [|n] eqn:Hs; [done|]. pose proof (ri_one w Hw) as H1.
  destruct error as [error|].
  - apply (failed_runner w); try done; unfold tickets, submits in *; rewrite ?Hs in *; simpl in *; try lia.
    + by left.
    + intros _. apply (ri_scheduled w Hw). unfold tickets, submits. lia.
  - apply (handover_runner w); try done; [apply (ri_finishing w Hw)| |by left].
    unfold tickets, submits in *; simpl; lia.
Qed.

Lemma install_submit_runner reg w error : runner_inv w -> runner_inv (world_step reg w (WInstallSubmit error)).1.
Proof.
  intros Hw. simpl. destruct (install w) eqn:Hs; try done. pose proof (ri_one w Hw) as H1.
  destruct error as [error|].
  - apply (failed_runner w); try done; unfold tickets, submits in *; rewrite ?Hs in *; simpl in *; try lia.
    + by right.
    + intros _. apply (ri_scheduled w Hw). unfold tickets, submits. rewrite Hs. lia.
  - apply (handover_runner w); try done; [apply (ri_finishing w Hw)| |by right].
    unfold tickets, submits in *; simpl; rewrite Hs; lia.
Qed.

Lemma abandon_runner reg w error : runner_inv w -> runner_inv (world_step reg w (WAbandon error)).1.
Proof.
  intros Hw. simpl. destruct (jobs w) as [|n] eqn:Hs; [done|]. pose proof (ri_one w Hw) as H1.
  destruct (eactive (est w)) eqn:Ha.
  - apply (failed_runner w); try done; unfold tickets, submits in *; rewrite ?Hs in *; simpl in *; try lia.
    + by left.
    + intros _. apply (ri_scheduled w Hw). unfold tickets, submits. lia.
  - destruct Hw. simpl. split; simpl; try done; unfold tickets, submits in *; simpl; rewrite ?Hs in *; try lia;
      rewrite ?Ha; try done.
    intros Hx. destruct (ri_error0 Hx) as (? & ? & ?). lia.
Qed.

Lemma start_runner reg w : runner_inv w -> runner_inv (world_step reg w WStart).1.
Proof.
  intros Hw. simpl. destruct (jobs w) as [|n] eqn:Hs; [done|]. destruct Hw. unfold run_start.
  unfold tickets, submits in *. rewrite Hs in *.
  assert (is_some (callback_install_error (est w)) = false) as Hn.
  { destruct (is_some _) eqn:Hx; [|done]. destruct (ri_error0 eq_refl) as (_ & ? & _). lia. }
  destruct (eactive (est w)) eqn:Ha; simpl; split; simpl; unfold tickets, submits; simpl; rewrite ?Ha, ?Hn; try done;
    intros; try lia; try (left; lia); try done.
  - apply ri_scheduled0. lia.
  - rewrite <- Hn. by eapply ri_failed0.
Qed.

Lemma next_runner reg w : runner_inv w -> runner_inv (world_step reg w WNext).1.
Proof.
  intros Hw. cbn [world_step]. destruct (runners w) as [|n] eqn:Hr; [done|]. unfold run_next.
  destruct (event_next (est w)) as [s d] eqn:Hn.
  pose proof (quiet_runner w s Hw (next_publishes _ _ _ Hn)) as Hq.
  destruct d as [item| |].
  - assert (callback s = true) as ->; [|done]. apply (ri_callback _ Hq).
    + rewrite <- (next_item_active _ _ _ Hn). apply (pb_active _ _ _ (next_publishes _ _ _ Hn)).
    + apply (ri_scheduled _ Hq). pose proof (ri_one _ Hq). unfold tickets in *. simpl in *. lia.
  - apply unsubscribe_runner in Hq. cbn [est] in Hq. cbn [fst]. apply (handover_runner _ _ Hq); try done;
      [intros _; simpl; unfold unsubscribe; by destruct (eactive s) eqn:Hs; [|rewrite ?Hs]|..];
      unfold tickets, submits; simpl; rewrite ?Hr; first [by left|lia].
  - apply next_idle in Hn. destruct Hq. unfold tickets, submits in *. simpl in *. rewrite Hr in *.
    split; simpl; unfold tickets, submits; simpl; try done; intros; try lia.
    + destruct ri_installing0; [done|lia].
    + destruct ri_error0 as (? & ? & ?); [done|lia].
    + change (event_pending s = true) in H1. congruence.
Qed.

Lemma panic_runner reg w : runner_inv w -> runner_inv (world_step reg w WPanic).1.
Proof.
  intros Hw. cbn [world_step]. destruct (runners w) as [|n] eqn:Hs; [done|]. pose proof (ri_one w Hw) as H1.
  assert (callback_installing (est w) = false) as Hc.
  { destruct (callback_installing (est w)) eqn:Hx; [|done]. destruct (ri_installing w Hw Hx). lia. }
  apply (failed_runner w); try done; unfold tickets, submits in *; simpl; rewrite ?Hs in *; try lia.
  - by right.
  - by left.
  - by rewrite Hc.
Qed.

Lemma finish_run_runner reg w : runner_inv w -> runner_inv (world_step reg w WFinishRun).1.
Proof.
  intros Hw. cbn [world_step]. destruct (finishing w) as [|n] eqn:Hs; [done|]. destruct Hw.
  unfold tickets, submits in *. rewrite Hs in *.
  split; simpl; unfold tickets, submits; simpl; try done; intros; try lia; try (left; lia).
  - destruct ri_installing0; [done|lia].
  - destruct ri_error0 as (? & ? & ?); [done|lia].
Qed.

Lemma step_runner reg w op : runner_inv w -> runner_inv (world_step reg w op).1.
Proof.
  intros Hw. destruct op; cbn [world_step].
  - destruct (commit_publish _ _ _ _) as [s p] eqn:H. apply committed_runner; [done|by eapply publish_publishes].
  - destruct (commit_skip _ _ _ _) as [s p] eqn:H. apply committed_runner; [done|by eapply skip_publishes].
  - destruct (prepare_evict_oldest _ _ _) as [s [p|]] eqn:H; [|done]. apply committed_runner; [done|by eapply evict_publishes].
  - destruct (prepare_finish _ _) as [s p] eqn:H. apply committed_runner; [done|by eapply finish_publishes].
  - destruct (commit_seed _ _ _) as [s p] eqn:H. apply committed_runner; [done|by eapply seed_publishes].
  - pose proof (unsubscribe_runner w Hw) as Hu. by destruct (unsubscribe (est w)) as [[s ?] ?].
  - unfold poll_next. destruct (event_next (est w)) as [s d] eqn:Hn. apply next_publishes in Hn.
    pose proof (quiet_runner w s Hw Hn) as Hq. destruct d as [[entry|error]| |]; try exact Hq.
    + assert (runner_inv (w <| est := (unsubscribe s).1.1 |>)) as Hu by exact (unsubscribe_runner _ Hq).
     cbn [deliver].
      by destruct (unsubscribe s) as [[? ?] ?].
    + by apply (quiet_runner _ _ Hq).
  - unfold try_recv. destruct (event_next (est w)) as [s d] eqn:Hn. apply next_publishes in Hn.
    pose proof (quiet_runner w s Hw Hn) as Hq. destruct d as [[entry|error]| |]; try exact Hq.
    assert (runner_inv (w <| est := (unsubscribe s).1.1 |>)) as Hu by exact (unsubscribe_runner _ Hq).
     cbn [deliver].
    by destruct (unsubscribe s) as [[? ?] ?].
  - by apply (dispatch_runner reg).
  - by apply (submit_runner reg).
  - by apply (abandon_runner reg).
  - by apply (start_runner reg).
  - by apply (next_runner reg).
  - by apply (panic_runner reg).
  - by apply (finish_run_runner reg).
  - by apply (install_begin_runner reg).
  - by apply (install_schedule_runner reg).
  - by apply (install_submit_runner reg).
  - by apply (install_end_runner reg).
Qed.

(** ** Runs *)

(** Sizes are unsigned. *)
Definition legal (op : WorldOp) : Prop :=
  match op with
  | WPublish _ entry => 0 <= entry_bytes entry
  | WSeed seed => 0 <= seed_lagged seed /\ Forall (fun e => 0 <= e.2) (seed_entries seed)
  | _ => True
  end.

Lemma failed_moves reg w w' error stream cursor :
  valid_limit reg -> queue_inv reg (est w) -> rel (est w) stream cursor -> est w' = est w ->
  moves reg (est w) stream cursor (failed w' error).2 (est (failed w' error).1).
Proof. intros ? ? ? Hw. rewrite <- Hw in *. by apply fail_moves. Qed.

Lemma moves_then_quiet reg s stream cursor tr s' s'' :
  moves reg s stream cursor tr s' -> equeue s'' = equeue s' -> ebytes s'' = ebytes s' ->
  lagged s'' = lagged s' -> eactive s'' = eactive s' -> (pristine s'' = true -> pristine s' = true) ->
  moves reg s stream cursor tr s''.
Proof.
  intros (stream' & cursor' & Hi & Hr & He) Hq Hb Hl Ha Hp.
  destruct (moves_quiet reg s' s'' stream' cursor') as (st & cu & ? & ? & He'); try done.
  exists st, cu. split_and!; [done|done|]. intros rest Hrest. by apply He, He'.
Qed.

Lemma step_moves reg w op stream cursor :
  valid_limit reg -> queue_inv reg (est w) -> rel (est w) stream cursor -> runner_inv w -> legal op ->
  moves reg (est w) stream cursor (world_step reg w op).2 (est (world_step reg w op).1).
Proof.
  intros Hv Hi Hr Hw Hl.
  assert (forall w', est w' = est w -> moves reg (est w) stream cursor [] (est w')) as Hstay.
  { intros w' ->. by apply moves_quiet. }
  destruct op; cbn [world_step].
  - destruct (commit_publish _ _ _ _) as [s p] eqn:H. by eapply publish_moves.
  - destruct (commit_skip _ _ _ _) as [s p] eqn:H. by eapply skip_moves.
  - destruct (prepare_evict_oldest _ _ _) as [s [p|]] eqn:H; [|by apply Hstay]. by eapply evict_moves.
  - destruct (prepare_finish _ _) as [s p] eqn:H. by eapply finish_moves.
  - destruct (commit_seed _ _ _) as [s p] eqn:H. destruct Hl. by eapply seed_moves.
  - pose proof (unsubscribe_moves reg (est w) stream cursor Hv Hi) as Hu.
    unfold unsubscribe in *. by destruct (eactive (est w)).
  - unfold poll_next. destruct (event_next (est w)) as [s d] eqn:Hn.
    pose proof (next_moves reg (est w) stream cursor s d Hv Hi Hr Hn) as Hm.
    destruct d as [[entry|error]| |]; try exact Hm.
    + cbn [deliver]. by destruct (unsubscribe s) as [[? ?] ?].
    + by eapply moves_then_quiet.
  - unfold try_recv. destruct (event_next (est w)) as [s d] eqn:Hn.
    pose proof (next_moves reg (est w) stream cursor s d Hv Hi Hr Hn) as Hm.
    destruct d as [[entry|[|]]| |]; try exact Hm.
    cbn [deliver]. by destruct (unsubscribe s) as [[? ?] ?].
  - destruct (undispatched w); [by apply Hstay|]. unfold schedule_lock. repeat case_match; simplify_eq/=; by apply moves_quiet.
  - destruct (submitting w); [by apply Hstay|]. destruct error; [by apply (failed_moves reg w)|by apply Hstay].
  - destruct (jobs w); [by apply Hstay|]. destruct (eactive _); [by apply (failed_moves reg w)|by apply Hstay].
  - destruct (jobs w); [by apply Hstay|]. unfold run_start. repeat case_match; simplify_eq/=; by apply moves_quiet.
  - destruct (runners w) as [|n] eqn:Hrun; [by apply Hstay|]. unfold run_next.
    destruct (event_next (est w)) as [s d] eqn:Hn.
    pose proof (next_moves reg (est w) stream cursor s d Hv Hi Hr Hn) as Hm.
    destruct d as [item| |]; [|exact Hm|by eapply moves_then_quiet].
    rewrite (pb_callback _ _ _ (next_publishes _ _ _ Hn)).
    rewrite (ri_callback w Hw); [by destruct item|by eapply next_item_active|].
    apply (ri_scheduled w Hw). pose proof (ri_one w Hw). unfold tickets in *. lia.
  - destruct (runners w); [by apply Hstay|]. by apply (failed_moves reg w).
  - destruct (finishing w); [by apply Hstay|]. by apply moves_quiet.
  - unfold install_begin. repeat case_match; simplify_eq/=; by apply moves_quiet.
  - destruct (install w); try by apply Hstay. unfold schedule_lock. repeat case_match; simplify_eq/=; by apply moves_quiet.
  - destruct (install w); try by apply Hstay. destruct error; [by apply (failed_moves reg w)|by apply Hstay].
  - destruct (install w); try by apply Hstay. unfold install_end. repeat case_match; simplify_eq/=; by apply moves_quiet.
Qed.

Lemma world_new_inv reg permit :
  valid_limit reg -> queue_inv reg (est (world_new permit)) /\ rel (est (world_new permit)) [] 0 /\
  runner_inv (world_new permit).
Proof.
  intros [? ?]. split_and!; [split; simpl; done || lia|done|split; simpl; unfold tickets, submits; simpl; done || lia].
Qed.

Lemma run_moves reg ops : forall w stream cursor,
  valid_limit reg -> queue_inv reg (est w) -> rel (est w) stream cursor -> runner_inv w -> Forall legal ops ->
  let '(w', tr) := world_run reg w ops in
  moves reg (est w) stream cursor tr (est w') /\ runner_inv w'.
Proof.
  induction ops as [|op ops IH]; intros w stream cursor Hv Hi Hr Hw Hl; simpl.
  { split; [by apply moves_quiet|done]. }
  apply Forall_cons in Hl as [Hop Hl]. pose proof (step_runner reg w op Hw) as Hw1.
  destruct (step_moves reg w op stream cursor Hv Hi Hr Hw Hop) as (s1 & c1 & Hi1 & Hr1 & He1).
  destruct (world_step reg w op) as [w1 tr1]. simpl in *.
  specialize (IH w1 s1 c1 Hv Hi1 Hr1 Hw1 Hl). destruct (world_run reg w1 ops) as [w2 tr2].
  destruct IH as [(s2 & c2 & Hi2 & Hr2 & He2) Hw2]. split; [|done].
  exists s2, c2. split_and!; [done|done|]. intros rest Hrest. rewrite <- (assoc_L (++)). by apply He1, He2.
Qed.

(** ** Draining *)

(** A world in which nothing is being published, installed or dispatched. *)
Definition quiescent (w : EventWorld) : Prop := undispatched w = 0%nat /\ install w = INone.

(** The items a runner will be called with. *)
Definition work s : nat :=
  (if (lagged s =? 0)%Z then 0 else 1) + length (equeue s) + (if is_some (pending_error s) then 1 else 0).

Definition drained s : Prop := eactive s = false \/ event_pending s = false.

Lemma next_work s s' item : event_next s = (s', DItem item) -> (work s' < work s)%nat.
Proof.
  unfold event_next, work. simpl. intros H.
  destruct (eactive s); simpl in H; [|done]. destruct (lagged s =? 0) eqn:El; simpl in H.
  - destruct (equeue s) as [|e q] eqn:Hq.
    + destruct (pending_error s) as [error|] eqn:Hp; [|by destruct (source_closed s)].
      simplify_eq/=. rewrite ?El, ?Hq. simpl. lia.
    + simplify_eq/=. rewrite ?El. simpl. lia.
  - simplify_eq/=. lia.
Qed.

Lemma no_runner_run reg w n : runners w = 0%nat -> world_run reg w (replicate n WNext) = (w, []).
Proof. intros Hr. induction n as [|n IH]; simpl; [done|]. by rewrite Hr, IH. Qed.

Lemma runner_drains reg n : forall w,
  runner_inv w -> runners w = 1%nat -> (work (est w) < n)%nat ->
  drained (est (world_run reg w (replicate n WNext)).1).
Proof.
  induction n as [|n IH]; intros w Hw Hr Hn; [lia|]. cbn [replicate world_run].
  pose proof (step_runner reg w WNext Hw) as Hw1. cbn [world_step] in *. rewrite Hr in *.
  unfold run_next in *. destruct (event_next (est w)) as [s d] eqn:Hnx. destruct d as [item| |].
  - assert (callback s = true) as Hcb.
    { rewrite (pb_callback _ _ _ (next_publishes _ _ _ Hnx)). apply (ri_callback w Hw).
      - by eapply next_item_active.
      - apply (ri_scheduled w Hw). pose proof (ri_one w Hw). unfold tickets in *. lia. }
    rewrite Hcb in *. specialize (IH (w <| est := s |>)).
    destruct (world_run _ _ _) as [w2 tr2]. apply IH; [done|done|].
    apply next_work in Hnx. simpl. lia.
  - rewrite no_runner_run by done. left. simpl. unfold unsubscribe. by destruct (eactive s) eqn:Hs; [|rewrite ?Hs].
  - rewrite no_runner_run by done. right. by apply next_idle in Hnx.
Qed.

Lemma world_run_app reg ops1 ops2 w :
  (world_run reg w (ops1 ++ ops2)).1 = (world_run reg (world_run reg w ops1).1 ops2).1.
Proof.
  revert w. induction ops1 as [|op ops IH]; intros w; simpl; [done|].
  destruct (world_step reg w op) as [w1 tr1]. specialize (IH w1).
  destruct (world_run reg w1 (ops ++ ops2)), (world_run reg w1 ops). exact IH.
Qed.

Lemma run_runner reg ops : forall w, runner_inv w -> runner_inv (world_run reg w ops).1.
Proof.
  induction ops as [|op ops IH]; intros w Hw; simpl; [done|]. pose proof (step_runner reg w op Hw) as H1.
  destruct (world_step reg w op) as [w1 tr1]. specialize (IH w1 H1). by destruct (world_run reg w1 ops).
Qed.

(** Pending work in a quiescent world has its ticket. *)
Lemma quiescent_ticket w :
  runner_inv w -> quiescent w -> eactive (est w) = true -> callback (est w) = true ->
  event_pending (est w) = true -> tickets w = 1%nat.
Proof.
  intros Hw [Hu Hin] Ha Hc Hp. pose proof (ri_driver w Hw) as Hd.
  destruct (scheduled (est w)) eqn:Hs.
  - destruct (ri_ticket w Hw Ha Hs) as [|He]; [done|]. destruct (ri_error w Hw He) as [Hi _].
    by destruct (ri_installing w Hw Hi).
  - destruct (ri_wake w Hw Ha) as [|]; [congruence|done|done|lia|congruence].
Qed.

Lemma ticket_starts reg w :
  runner_inv w -> quiescent w -> eactive (est w) = true -> tickets w = 1%nat ->
  let w' := (world_run reg w [WSubmit None; WStart]).1 in
  runners w' = 1%nat /\ work (est w') = work (est w).
Proof.
  intros Hw [Hu Hin] Ha Ht. pose proof (ri_finishing w Hw) as Hf. unfold tickets, submits in Ht. rewrite Hin in Ht.
  assert (finishing w = 0%nat) as Hf0.
  { destruct (finishing w); [done|]. rewrite Hf in Ha; [done|lia]. }
  destruct (submitting w) as [|n] eqn:Hsub; [destruct (jobs w) as [|m] eqn:Hj|]; simpl; unfold run_start;
    repeat progress (rewrite ?Hsub, ?Hj, ?Ha; simpl); unfold work; simpl; split; try done; lia.
Qed.

Lemma channel_valid max_permits reserve limit overflow permit reg s :
  0 <= ev_max_items limit -> 0 <= ev_max_bytes limit ->
  event_channel max_permits reserve limit overflow permit = Ok (reg, s) ->
  valid_limit reg /\ s = est (world_new permit).
Proof.
  intros Hi Hb H. unfold event_channel in H. repeat case_match; simplify_eq/=. propify.
  split; [split; simpl; lia|done].
Qed.

End Theory.

Arguments EventWorld : clear implicits.
Arguments TraceEvent : clear implicits.
Arguments WorldOp : clear implicits.

(** ** Properties *)

Section Properties.
Context {T R : Type}.
Context (max_permits : Z) (reserve permit : bool) (limit : EventQueueLimit) (overflow : EventOverflow).
Context (reg : EventRegistration) (s : EventState T R).
Context (items_unsigned : 0 <= ev_max_items limit) (bytes_unsigned : 0 <= ev_max_bytes limit).
Context (created : event_channel max_permits reserve limit overflow permit = Ok (reg, s)).

(** C4. An event stream is faithful.  Whatever the source publishes, skips, evicts,
    seeds or ends, in any interleaving with the dispatches, the executor's jobs and
    refusals, the installation of a callback, its panics and the receiver's polls,
    the receiver sees the accepted values in order and each at most once: an item is
    always the next one of the stream, what is missing is counted exactly by a lag
    report in its place, and an empty poll, the error of the source and the end of
    the stream are seen only after everything that was accepted.  No item reaches a
    runner that has no callback for it. *)
Theorem event_stream_exact (ops : list (@WorldOp T R)) :
  Forall legal ops -> explains true [] 0 (world_run reg (world_new permit) ops).2.
Proof.
  intros Hl. destruct (channel_valid _ _ _ _ _ _ _ items_unsigned bytes_unsigned created) as [Hv _].
  destruct (world_new_inv (T := T) (R := R) reg permit Hv) as (Hi & Hr & Hw).
  pose proof (run_moves reg ops _ [] 0 Hv Hi Hr Hw Hl) as Hm.
  destruct (world_run reg (world_new permit) ops) as [w tr].
  destruct Hm as [(stream & cursor & _ & _ & He) _]. rewrite <- (app_nil_r tr). by apply He.
Qed.

(** The queue of an event stream never holds more items or bytes than its
    limits, under every overflow policy, and its byte counter is the exact size of
    what it holds; a detached queue holds nothing. *)
Theorem event_queue_bounded (ops : list (@WorldOp T R)) :
  Forall legal ops ->
  let state := est (world_run reg (world_new permit) ops).1 in
  Z.of_nat (length (equeue state)) <= ev_max_items limit /\
  ebytes state = queue_bytes (equeue state) /\ 0 <= ebytes state <= ev_max_bytes limit /\
  (eactive state = false -> equeue state = []).
Proof.
  intros Hl. destruct (channel_valid _ _ _ _ _ _ _ items_unsigned bytes_unsigned created) as [Hv _].
  assert (ereg_limit reg = limit) as <-.
  { unfold event_channel in created. repeat case_match; by simplify_eq/=. }
  destruct (world_new_inv (T := T) (R := R) reg permit Hv) as (Hi & Hr & Hw).
  pose proof (run_moves reg ops _ [] 0 Hv Hi Hr Hw Hl) as Hm.
  destruct (world_run reg (world_new permit) ops) as [w tr].
  destruct Hm as [(stream & cursor & [] & _ & _) _]. simpl.
  split_and!; try done. rewrite qi_bytes0. by apply queue_bytes_pos.
Qed.

(** C36. Callbacks run one at a time and none is forgotten.  In every interleaving at
    most one call of the driver, job or runner is outstanding for a registration.
    Once no publication, dispatch or installation is in progress, items that wait for
    an installed callback have exactly one, and letting it go on, with as many turns
    as there is work, empties the queue or detaches the registration. *)
Theorem event_runner_live (ops : list (@WorldOp T R)) :
  let w := (world_run reg (world_new permit) ops).1 in
  (tickets w <= 1)%nat /\
  (quiescent w -> eactive (est w) = true -> callback (est w) = true -> event_pending (est w) = true ->
   tickets w = 1%nat /\
   drained (est (world_run reg w ([WSubmit None; WStart] ++ replicate (S (work (est w))) WNext)).1)).
Proof.
  destruct (channel_valid _ _ _ _ _ _ _ items_unsigned bytes_unsigned created) as [Hv _].
  destruct (world_new_inv (T := T) (R := R) reg permit Hv) as (_ & _ & Hn).
  pose proof (run_runner reg ops _ Hn) as Hw. intros w. fold w in Hw. clearbody w.
  split; [by apply ri_one|]. intros Hq Ha Hc Hp.
  pose proof (quiescent_ticket w Hw Hq Ha Hc Hp) as Ht. split; [done|].
  rewrite world_run_app. destruct (ticket_starts reg w Hw Hq Ha Ht) as [Hr Hk].
  apply runner_drains; [by apply run_runner|done|lia].
Qed.

End Properties.

(** ** Samples *)

Definition sample_limit : EventQueueLimit := mkEventQueueLimit 2 10.

Definition sample_reg : EventRegistration := mkEventRegistration sample_limit EventOverflow.DropOldest.

Definition sample_entry (n : nat) : Entry nat () := mkEntry n 3 None.

(** Three items into room for two, then a callback takes them. *)
Definition sample_ops : list (@WorldOp nat ()) :=
  [WPublish true (sample_entry 1); WPublish true (sample_entry 2); WPublish true (sample_entry 3);
   WInstallBegin (Ok tt); WDispatch; WInstallSchedule; WSubmit None; WStart; WInstallEnd; WNext;
   WDispatch; WDispatch].

Lemma event_stream_exact_witness :
  explains true [] 0 (world_run sample_reg (world_new true) (sample_ops ++ [WNext; WNext; WNext])).2 /\
  (world_run sample_reg (world_new true) (sample_ops ++ [WNext; WNext; WNext])).2 =
    [TIn (Some 1%nat); TIn (Some 2%nat); TIn (Some 3%nat); TOut (RError (ReceiveError.Lagged 1));
     TOut (RItem 2%nat); TOut (RItem 3%nat); TOut REmpty].
Proof.
  split; [|vm_compute; reflexivity].
  apply (event_stream_exact 100 true true sample_limit EventOverflow.DropOldest sample_reg (event_state_new true)).
  - vm_compute. discriminate.
  - vm_compute. discriminate.
  - reflexivity.
  - repeat constructor; vm_compute; discriminate.
Defined.

Lemma event_queue_bounded_witness :
  let state := est (world_run sample_reg (world_new true) sample_ops).1 in
  (Z.of_nat (length (equeue state)) <= 2 /\
   ebytes state = queue_bytes (equeue state) /\ 0 <= ebytes state <= 10 /\
   (eactive state = false -> equeue state = [])) /\ ebytes state = 6.
Proof.
  split; [|vm_compute; reflexivity].
  apply (event_queue_bounded 100 true true sample_limit EventOverflow.DropOldest sample_reg (event_state_new true)).
  - vm_compute. discriminate.
  - vm_compute. discriminate.
  - reflexivity.
  - repeat constructor; vm_compute; discriminate.
Defined.

Lemma event_runner_live_witness :
  let w := (world_run sample_reg (world_new true) sample_ops).1 in
  tickets w = 1%nat /\
  drained (est (world_run sample_reg w ([WSubmit None; WStart] ++ replicate (S (work (est w))) WNext)).1).
Proof.
  apply (event_runner_live 100 true true sample_limit EventOverflow.DropOldest sample_reg (event_state_new true));
    try reflexivity.
  - vm_compute. discriminate.
  - vm_compute. discriminate.
  - split; vm_compute; reflexivity.
Defined.
