(* ===== verification/TaskObserver.v ===== *)
(** * Task observations (src/module/ws_client/native_task_observer.rs,
      src/api/ws/receive_options.rs)

    Every operation reserves, before it is admitted, the capacity to deliver its
    terminal event to every subscriber.  A reservation holds, per recipient, one
    item and the bytes of the payload in the recipient's own capacity and one item
    of the client's, and all its deliveries share one byte permit of the client's.

    The [Arc]s of the code are references into one store, [TaskObservers]: the
    registrations with their event streams, the shared byte permits with their
    owners, and the reservations that operations hold.  Every function is a call
    with the effects it has after its locks are released; [submit] are the answers of
    the executor to the drivers of the streams, where it is called. *)

From S2P Require Import Prelude F64 Backoff RetrySchedule RetryState Errors WsRetry WsOptions Cancellation WsTask IndexedHeap OperationControl NativePending PriorityWriteQueue WsConfig EventStream.

(** ** Options *)

Record TaskEventOptions := mkTaskEventOptions {
  max_tasks : Z;
  max_payload_bytes : Z;
  urgent_reserve : option QueueLimit;
}.

Definition TaskEventOptions_default : TaskEventOptions :=
  mkTaskEventOptions 1024 (16 * 1024 * 1024) None.

Definition task_options_validate (max_permits : Z) (o : TaskEventOptions) : Result () NetError :=
  let? _ := limit_validate_fields max_permits (mkQueueLimit (max_tasks o) (max_payload_bytes o))
              "task_events.max_tasks" "task_events.max_payload_bytes" in
  match urgent_reserve o with
  | Some urgent =>
      let? _ := limit_validate_fields max_permits urgent "task_events.urgent_reserve.max_items"
                  "task_events.urgent_reserve.max_bytes" in
      if max_tasks o <=? max_items urgent then
        Err (NetError_config "task_events.urgent_reserve.max_items"
               "must leave positive capacity for normal tasks within max_tasks")
      else if max_payload_bytes o <=? lim_max_bytes urgent then
        Err (NetError_config "task_events.urgent_reserve.max_bytes"
               "must leave positive capacity for normal tasks within max_payload_bytes")
      else Ok tt
  | None => Ok tt
  end.

Abbreviation RegId := positive (only parsing).
Abbreviation ShareId := positive (only parsing).
Abbreviation SessionKey := positive (only parsing).

Section Observer.
Context {sem : Semaphores}.

(** ** Capacities *)

Record Capacity := mkCapacity {
  cap_items : Sem;
  cap_bytes : Sem;
  cap_max_items : Z;
  cap_max_bytes : Z;
}.

#[export] Instance Capacity_settable : Settable Capacity :=
  fields! mkCapacity [ cap_items; cap_bytes; cap_max_items; cap_max_bytes ].

Definition capacity_new (items bytes : Z) : Capacity := mkCapacity (sem_new items) (sem_new bytes) items bytes.

Definition checked_bytes (c : Capacity) (bytes : Z) : Result Z NetError :=
  let bytes := Z.max bytes 1 in
  if cap_max_bytes c <? bytes then Err (NetError_new ErrorKind.ItemTooLarge)
  else if u32_max <? bytes then Err (NetError_new ErrorKind.ItemTooLarge)
  else Ok bytes.

Definition closed_error : NetError :=
  with_stage (NetError_new ErrorKind.QueueClosed) ErrorStage.Dispatch.

Definition internal_error : NetError :=
  with_stage (NetError_new ErrorKind.Internal) ErrorStage.Dispatch.

Definition capacity_error (e : TryAcquireError) : NetError :=
  match e with
  | TryAcquireError.Closed => closed_error
  | TryAcquireError.NoPermits => NetError_new ErrorKind.QueueFull
  end.

Definition capacity_lanes (o : TaskEventOptions) : Result (Capacity * option Capacity) NetError :=
  match urgent_reserve o with
  | None => Ok (capacity_new (max_tasks o) (max_payload_bytes o), None)
  | Some urgent =>
      let? items := ok_or (checked_sub (max_tasks o) (max_items urgent)) internal_error in
      let? bytes := ok_or (checked_sub (max_payload_bytes o) (lim_max_bytes urgent)) internal_error in
      Ok (capacity_new items bytes, Some (capacity_new (max_items urgent) (lim_max_bytes urgent)))
  end.

(** ** The store *)

(** One item and [dc_bytes] bytes of a lane of the recipient, one item of the client
    and one owner of the shared byte permit. *)
Record DeliveryCapacity := mkDeliveryCapacity {
  dc_urgent : bool;
  dc_bytes : Z;
  dc_shared : ShareId;
}.

Abbreviation Stream := (EventState TaskEvent DeliveryCapacity) (only parsing).

(** [reservations] are the weak references of the registration; [cells] is what the
    deliveries behind them still hold. *)
Record Registration := mkRegistration {
  publisher : EventRegistration;
  stream : EventState TaskEvent DeliveryCapacity;
  ordinary : Capacity;
  urgent_lane : option Capacity;
  reg_closed : bool;
  next_id : Z;
  reservations : gset Z;
  cells : gmap Z DeliveryCapacity;
}.

#[export] Instance Registration_settable : Settable Registration :=
  fields! mkRegistration [ publisher; stream; ordinary; urgent_lane; reg_closed; next_id;
    reservations; cells ].

(** [NativeTaskObserver]: the part of one session. *)
Record SessionObserver := mkSessionObserver {
  so_closed : bool;
  so_cancelled : bool;
  registrations : list RegId;
}.

#[export] Instance SessionObserver_settable : Settable SessionObserver :=
  fields! mkSessionObserver [ so_closed; so_cancelled; registrations ].

Record TaskEventReservation := mkTaskEventReservation {
  deliveries : list (RegId * Z);
  res_payload : Z;
  res_lane : MessageLane;
}.

Record TaskObservers := mkTaskObservers {
  sub_slots : Sem;
  global : Capacity;
  shares : gmap ShareId (nat * Z);
  regs : gmap RegId Registration;
  observers : gmap SessionKey SessionObserver;
  pledges : gmap ReservationId TaskEventReservation;
}.

#[export] Instance TaskObservers_settable : Settable TaskObservers :=
  fields! mkTaskObservers [ sub_slots; global; shares; regs; observers; pledges ].

Definition session_observer_new : SessionObserver := mkSessionObserver false false [].

(** [NativeTaskObserver::new] *)
Definition observers_new (max_permits : Z) (limits : DispatchLimits) (root : SessionKey) :
    Result TaskObservers NetError :=
  let? _ := dispatch_limits_validate max_permits limits in
  Ok {| sub_slots := sem_new (task_subscriptions limits);
        global := capacity_new (max_items (task_events limits)) (lim_max_bytes (task_events limits));
        shares := ∅; regs := ∅; observers := {[root := session_observer_new]}; pledges := ∅ |}.

(** ** Returning capacity *)

(** Dropping one owner of a shared byte permit; the last returns it. *)
Definition drop_share (o : TaskObservers) (s : ShareId) : TaskObservers :=
  match shares o !! s with
  | Some (S (S n), bytes) => o <| shares ::= <[s := (S n, bytes)]> |>
  | Some (_, bytes) =>
      o <| shares ::= delete s; global ::= fun c => c <| cap_bytes ::= fun x => sem_release x bytes |> |>
  | None => o
  end.

Definition update_lane (urgent : bool) (f : Capacity -> Capacity) (r : Registration) : Registration :=
  if urgent then r <| urgent_lane ::= fmap f |> else r <| ordinary ::= f |>.

Definition release_lane (bytes : Z) (c : Capacity) : Capacity :=
  c <| cap_items ::= fun s => sem_release s 1; cap_bytes ::= fun s => sem_release s bytes |>.

Definition release_global_items (o : TaskObservers) (n : Z) : TaskObservers :=
  o <| global ::= fun c => c <| cap_items ::= fun s => sem_release s n |> |>.

(** Dropping a [DeliveryCapacity] of recipient [r]. *)
Definition release_delivery (o : TaskObservers) (r : RegId) (dc : DeliveryCapacity) : TaskObservers :=
  let o := o <| regs ::= alter (update_lane (dc_urgent dc) (release_lane (dc_bytes dc))) r |> in
  drop_share (release_global_items o 1) (dc_shared dc).

Fixpoint release_all (o : TaskObservers) (r : RegId) (dcs : list DeliveryCapacity) : TaskObservers :=
  match dcs with
  | [] => o
  | dc :: dcs => release_all (release_delivery o r dc) r dcs
  end.

(** Dropping entries of the stream of [r]. *)
Definition release_entries (o : TaskObservers) (r : RegId) (es : list (Entry TaskEvent DeliveryCapacity)) :
    TaskObservers := release_all o r (omap entry_resources es).

Definition set_stream (o : TaskObservers) (r : RegId) (s : EventState TaskEvent DeliveryCapacity) :
    TaskObservers := o <| regs ::= alter (fun reg => reg <| stream := s |>) r |>.

(** [Registration::release_detached]: the outstanding deliveries lose their capacity. *)
Definition release_detached (o : TaskObservers) (r : RegId) : TaskObservers :=
  match regs o !! r with
  | Some reg =>
      let taken := (map_to_list (filter (fun '(id, _) => id ∈ reservations reg) (cells reg))).*2 in
      let kept := filter (fun '(id, _) => id ∉ reservations reg) (cells reg) in
      release_all (o <| regs ::= <[r := reg <| reg_closed := true; reservations := ∅; cells := kept |>]> |>)
        r taken
  | None => o
  end.

(** What [unsubscribe] does after its lock: the hook, the entries and the slot. *)
Definition after_detach (o : TaskObservers) (r : RegId) (old : EventState TaskEvent DeliveryCapacity)
    (retired : list (Entry TaskEvent DeliveryCapacity)) : TaskObservers :=
  let o := if detach_hook old then release_detached o r else o in
  let o := release_entries o r retired in
  if slot_held old then o <| sub_slots ::= fun s => sem_release s 1 |> else o.

(** [EventRegistration::unsubscribe] of recipient [r]. *)
Definition detach_receiver (o : TaskObservers) (r : RegId) : TaskObservers :=
  match regs o !! r with
  | Some reg =>
      let '(s, retired, detached) := unsubscribe (stream reg) in
      if detached then after_detach (set_stream o r s) r (stream reg) retired else o
  | None => o
  end.

(** [EventRegistration::fail] of recipient [r]. *)
Definition fail_receiver (o : TaskObservers) (r : RegId) (error : NetError) : TaskObservers :=
  match regs o !! r with
  | Some reg =>
      let '(s, retired) := event_fail (stream reg) error in
      let o := set_stream o r s in
      if eactive (stream reg) && negb (eactive s) then after_detach o r (stream reg) retired else o
  | None => o
  end.

(** [EventRegistration::schedule] of recipient [r]. *)
Definition schedule_receiver (submit : RegId -> option NetError) (o : TaskObservers) (r : RegId) :
    TaskObservers * Result () NetError :=
  match regs o !! r with
  | Some reg =>
      let '(s, call) := schedule_lock (stream reg) in
      let o := set_stream o r s in
      match (if call then submit r else None) with
      | Some error => (fail_receiver o r error, Err error)
      | None => (o, Ok tt)
      end
  | None => (o, Ok tt)
  end.

(** [EventPublication::dispatch] *)
Definition dispatch_publication (submit : RegId -> option NetError) (o : TaskObservers) (r : RegId)
    (p : EventPublication TaskEvent DeliveryCapacity) : TaskObservers * Result () NetError :=
  let o := release_entries o r (ep_retired p) in
  let '(o, scheduled) := if ep_schedule p then schedule_receiver submit o r else (o, Ok tt) in
  let o := match ep_input p with Some entry => release_entries o r [entry] | None => o end in
  (o, let? _ := scheduled in let? accepted := ep_result p in admission_result accepted).

(** [finish_publisher], and [EventPublisher::fail]: the end of the source. *)
Definition end_source (submit : RegId -> option NetError) (failure : option NetError) (o : TaskObservers) (r : RegId) :
    TaskObservers :=
  match regs o !! r with
  | Some reg =>
      let '(s, p) := prepare_finish (stream reg) failure in
      (dispatch_publication submit (set_stream o r s) r p).1
  | None => o
  end.

(** ** Deliveries *)

Definition drained_out (reg : Registration) : bool :=
  reg_closed reg && bool_decide (reservations reg = ∅).

(** The delivery leaves its registration with what it still holds. *)
Definition take_delivery (o : TaskObservers) (r : RegId) (id : Z) :
    TaskObservers * option DeliveryCapacity * bool :=
  match regs o !! r with
  | Some reg =>
      let reg' := reg <| reservations ::= fun s => s ∖ {[id]}; cells ::= delete id |> in
      (o <| regs ::= <[r := reg']> |>, cells reg !! id, drained_out reg')
  | None => (o, None, false)
  end.

(** Dropping a [ReservedDelivery]. *)
Definition drop_delivery (submit : RegId -> option NetError) (o : TaskObservers) (d : RegId * Z) : TaskObservers :=
  let '(r, id) := d in
  let '(o, cell, finish) := take_delivery o r id in
  let o := match cell with Some dc => release_delivery o r dc | None => o end in
  if finish then end_source submit None o r else o.

Fixpoint drop_deliveries (submit : RegId -> option NetError) (o : TaskObservers) (ds : list (RegId * Z)) :
    TaskObservers :=
  match ds with
  | [] => o
  | d :: ds => drop_deliveries submit (drop_delivery submit o d) ds
  end.

(** [ReservedDelivery::publish] with the drop of the delivery at its end. *)
Definition publish_delivery (submit : RegId -> option NetError) (o : TaskObservers) (d : RegId * Z)
    (event : TaskEvent) (bytes : Z) : TaskObservers * Result () NetError :=
  let '(r, id) := d in
  let '(o, cell, finish) := take_delivery o r id in
  let '(o, result) :=
    match cell, regs o !! r with
    | Some dc, Some reg =>
        let '(s, p) := commit_publish (publisher reg) true (stream reg) (mkEntry event bytes (Some dc)) in
        dispatch_publication submit (set_stream o r s) r p
    | _, _ => (o, Ok tt)
    end in
  let o := if finish then end_source submit None o r else o in
  let active := is_some_and (regs o !! r) (fun reg => eactive (stream reg)) in
  match result with
  | Ok _ => (drop_delivery submit o d, Ok tt)
  | Err error =>
      if bool_decide (kind error = ErrorKind.Closed) && negb active
      then (drop_delivery submit o d, Ok tt)
      else (drop_delivery submit (end_source submit (Some error) o r) d, Err error)
  end.

Fixpoint publish_deliveries (submit : RegId -> option NetError) (o : TaskObservers) (ds : list (RegId * Z))
    (event : TaskEvent) (bytes : Z) (failure : option NetError) : TaskObservers * Result () NetError :=
  match ds with
  | [] => (o, match failure with Some error => Err error | None => Ok tt end)
  | d :: ds =>
      let '(o, result) := publish_delivery submit o d event bytes in
      publish_deliveries submit o ds event bytes
        (option_or failure (match result with Err error => Some error | Ok _ => None end))
  end.

(** [TaskEventReservation::publish], which consumes the reservation. *)
Definition publish_reservation (submit : RegId -> option NetError) (o : TaskObservers) (res : TaskEventReservation)
    (event : TaskEvent) : TaskObservers * Result () NetError :=
  let refuse error := (drop_deliveries submit o (deliveries res), Err error) in
  let differs := NetError_input "task_event.source" "terminal event differs from its admission reservation" in
  if negb (bool_decide (ev_lane event = res_lane res)) then refuse differs
  else
    match payload_bytes (ev_source event) with
    | Err error => refuse error
    | Ok size =>
        if res_payload res <? size then refuse differs
        else publish_deliveries submit o (deliveries res) event (Z.max (res_payload res) 1) None
    end.

(** ** Sessions *)

Fixpoint release_detached_all (o : TaskObservers) (rs : list RegId) : TaskObservers :=
  match rs with
  | [] => o
  | r :: rs => release_detached_all (release_detached o r) rs
  end.

Definition receiver_active (o : TaskObservers) (r : RegId) : bool :=
  is_some_and (regs o !! r) (fun reg => eactive (stream reg)).

(** [NativeTaskObserver::prune_detached] *)
Definition prune_detached (o : TaskObservers) (key : SessionKey) : TaskObservers :=
  match observers o !! key with
  | Some so =>
      let kept := filter (fun r => receiver_active o r = true) (registrations so) in
      let retired := filter (fun r => receiver_active o r = false) (registrations so) in
      release_detached_all (o <| observers ::= <[key := so <| registrations := kept |>]> |>) retired
  | None => o
  end.

(** [NativeTaskObserver::for_session] *)
Definition for_session (o : TaskObservers) (key fresh : SessionKey) : TaskObservers * Result () NetError :=
  match observers o !! key with
  | Some so =>
      if so_cancelled so then (o, Err closed_error)
      else (o <| observers ::= <[fresh := session_observer_new]> |>, Ok tt)
  | None => (o, Err closed_error)
  end.

(** The keys of a [BTreeMap] are in order. *)
Fixpoint insert_key (k : positive) (ks : list positive) : list positive :=
  match ks with
  | [] => [k]
  | k' :: rest => if (k <? k')%positive then k :: ks else k' :: insert_key k rest
  end.

(** [NativeTaskObserver::subscribe]; [r] is the identifier of the new receiver. *)
Definition subscribe (max_permits : Z) (reserve : bool) (o : TaskObservers) (key : SessionKey)
    (options : TaskEventOptions) (r : RegId) : TaskObservers * Result RegId NetError :=
  match task_options_validate max_permits options with
  | Err error => (o, Err error)
  | Ok _ =>
      let o := prune_detached o key in
      match observers o !! key with
      | None => (o, Err closed_error)
      | Some so =>
          if so_cancelled so then (o, Err closed_error)
          else
            match try_acquire_many (sub_slots o) 1 with
            | Err _ =>
                (o, Err (with_stage (NetError_new ErrorKind.SubscriptionLimitReached) ErrorStage.Dispatch))
            | Ok slots =>
                let limit := mkEventQueueLimit (max_tasks options) (max_payload_bytes options) in
                match event_channel max_permits reserve limit EventOverflow.Wait true with
                | Err error => (o, Err error)
                | Ok (publisher, stream) =>
                    match capacity_lanes options with
                    | Err error => (o, Err error)
                    | Ok (ordinary, urgent) =>
                        let '(stream, hooked) := on_receiver_closed stream in
                        match hooked with
                        | Err error => (o, Err error)
                        | Ok _ =>
                            if so_closed so then (o, Err closed_error)
                            else
                              let reg := mkRegistration publisher stream ordinary urgent false 0 ∅ ∅ in
                              (o <| sub_slots := slots; regs ::= <[r := reg]>;
                                    observers ::= <[key := so <| registrations ::= insert_key r |>]> |>,
                               Ok r)
                        end
                    end
                end
            end
      end
  end.

(** [NativeTaskObserver::snapshot]: the recipients, frozen. *)
Definition snapshot_recipients (o : TaskObservers) (key : SessionKey) :
    TaskObservers * Result (list RegId) NetError :=
  let o := prune_detached o key in
  match observers o !! key with
  | Some so => if so_closed so then (o, Err closed_error) else (o, Ok (registrations so))
  | None => (o, Err closed_error)
  end.

(** [Registration::close] *)
Definition close_registration (submit : RegId -> option NetError) (o : TaskObservers) (r : RegId) : TaskObservers :=
  match regs o !! r with
  | Some reg =>
      let o := o <| regs ::= <[r := reg <| reg_closed := true |>]> |> in
      if bool_decide (reservations reg = ∅) then end_source submit None o r else o
  | None => o
  end.

Fixpoint close_registrations (submit : RegId -> option NetError) (o : TaskObservers) (rs : list RegId) : TaskObservers :=
  match rs with
  | [] => o
  | r :: rs => close_registrations submit (close_registration submit o r) rs
  end.

(** [NativeTaskObserver::close] *)
Definition close_observer (submit : RegId -> option NetError) (o : TaskObservers) (key : SessionKey) : TaskObservers :=
  match observers o !! key with
  | Some so =>
      close_registrations submit (o <| observers ::= <[key := mkSessionObserver true true []]> |>)
        (registrations so)
  | None => o
  end.

(** ** Reserving *)

(** [TaskObserverSnapshot::active] *)
Definition active_recipients (o : TaskObservers) (rs : list RegId) : TaskObservers * list RegId :=
  (release_detached_all o (filter (fun r => receiver_active o r = false) rs),
   filter (fun r => receiver_active o r = true) rs).

(** [Registration::lane] *)
Definition uses_urgent (reg : Registration) (lane : MessageLane) : bool :=
  match lane, urgent_lane reg with MessageLane.Urgent, Some _ => true | _, _ => false end.

Definition lane_of (reg : Registration) (lane : MessageLane) : Capacity :=
  match lane, urgent_lane reg with MessageLane.Urgent, Some c => c | _, _ => ordinary reg end.

(** [Registration::retain]; a closed or detached recipient returns the capacity. *)
Definition retain (o : TaskObservers) (r : RegId) (dc : DeliveryCapacity) :
    TaskObservers * Result (option Z) NetError :=
  match regs o !! r with
  | Some reg =>
      if reg_closed reg || negb (eactive (stream reg)) then (release_delivery o r dc, Ok None)
      else
        match checked_add u64_max (next_id reg) 1 with
        | None => (release_delivery o r dc, Err (NetError_new ErrorKind.ResourceExhausted))
        | Some next =>
            let id := next_id reg in
            (o <| regs ::= <[r := reg <| next_id := next; reservations ::= union {[id]};
                                        cells ::= <[id := dc]> |>]> |>, Ok (Some id))
        end
  | None => (release_delivery o r dc, Err internal_error)
  end.

Definition recipient_count (o : TaskObservers) (count : Z) : Result Z NetError :=
  if cap_max_items (global o) <? count then Err (NetError_new ErrorKind.QueueFull)
  else if u32_max <? count then Err (NetError_new ErrorKind.QueueFull)
  else Ok count.

Fixpoint check_lanes (o : TaskObservers) (rs : list RegId) (payload : Z) (lane : MessageLane) :
    Result () NetError :=
  match rs with
  | [] => Ok tt
  | r :: rs =>
      let? _ := match regs o !! r with
                | Some reg => checked_bytes (lane_of reg lane) payload
                | None => Err internal_error
                end in
      check_lanes o rs payload lane
  end.

(** One item and the bytes of the payload from the lane of recipient [r]. *)
Definition acquire_lane (o : TaskObservers) (r : RegId) (payload : Z) (lane : MessageLane) (share : ShareId) :
    TaskObservers * Result DeliveryCapacity NetError :=
  match regs o !! r with
  | None => (o, Err internal_error)
  | Some reg =>
      let c := lane_of reg lane in
      match try_acquire_many (cap_items c) 1 with
      | Err e => (o, Err (capacity_error e))
      | Ok items =>
          match checked_bytes c payload with
          | Err error => (o, Err error)
          | Ok n =>
              match try_acquire_many (cap_bytes c) n with
              | Err e => (o, Err (capacity_error e))
              | Ok bytes =>
                  let urgent := uses_urgent reg lane in
                  (o <| regs ::= <[r := update_lane urgent
                                          (fun c => c <| cap_items := items; cap_bytes := bytes |>) reg]> |>,
                   Ok (mkDeliveryCapacity urgent n share))
              end
          end
      end
  end.

(** A new owner of the shared permit. *)
Definition clone_share (o : TaskObservers) (s : ShareId) : TaskObservers :=
  o <| shares ::= alter (fun '(n, bytes) => (S n, bytes)) s |>.

(** The deliveries of [rs], in order; [Err] keeps those made so far, and the items
    of the client that are left are returned by the caller. *)
Fixpoint reserve_deliveries (o : TaskObservers) (rs : list RegId) (payload : Z) (lane : MessageLane)
    (share : ShareId) (made : list (RegId * Z)) : TaskObservers * list (RegId * Z) * list RegId * Result () NetError :=
  match rs with
  | [] => (o, made, [], Ok tt)
  | r :: rest =>
      let '(o, acquired) := acquire_lane o r payload lane share in
      match acquired with
      | Err error => (o, made, rs, Err error)
      | Ok dc =>
          let '(o, retained) := retain (clone_share o share) r dc in
          match retained with
          | Err error => (o, made, rest, Err error)
          | Ok None => reserve_deliveries o rest payload lane share made
          | Ok (Some id) => reserve_deliveries o rest payload lane share (made ++ [(r, id)])
          end
      end
  end.

(** [TaskObserverSnapshot::try_reserve_active] *)
Definition try_reserve_active (submit : RegId -> option NetError) (o : TaskObservers) (key : SessionKey)
    (rs : list RegId) (payload : Z) (lane : MessageLane) (share : ShareId) :
    TaskObservers * Result TaskEventReservation NetError :=
  let cancelled o := is_none_or (observers o !! key) so_cancelled in
  if cancelled o then (o, Err closed_error)
  else if bool_decide (rs = []) then (o, Ok (mkTaskEventReservation [] payload lane))
  else
    match (let? count := recipient_count o (Z.of_nat (length rs)) in
           let? bytes := checked_bytes (global o) payload in
           let? _ := check_lanes o rs payload lane in
           Ok (count, bytes)) with
    | Err error => (o, Err error)
    | Ok (count, bytes) =>
        match try_acquire_many (cap_bytes (global o)) bytes with
        | Err e => (o, Err (capacity_error e))
        | Ok left_bytes =>
            let o := o <| global ::= fun c => c <| cap_bytes := left_bytes |>;
                          shares ::= <[share := (1%nat, bytes)]> |> in
            match try_acquire_many (cap_items (global o)) count with
            | Err e => (drop_share o share, Err (capacity_error e))
            | Ok left_items =>
                let o := o <| global ::= fun c => c <| cap_items := left_items |> |> in
                let '(o, made, rest, result) := reserve_deliveries o rs payload lane share [] in
                let o := drop_share (release_global_items o (Z.of_nat (length rest))) share in
                match result with
                | Err error => (drop_deliveries submit o made, Err error)
                | Ok _ =>
                    if cancelled o then (drop_deliveries submit o made, Err closed_error)
                    else (o, Ok (mkTaskEventReservation made payload lane))
                end
            end
        end
    end.

(** [TaskObserverSnapshot::try_reserve]: no recipient detaches during the call, so
    its loop runs once. *)
Definition task_try_reserve (submit : RegId -> option NetError) (o : TaskObservers) (key : SessionKey)
    (rs : list RegId) (payload : Z) (lane : MessageLane) (share : ShareId) :
    TaskObservers * Result TaskEventReservation NetError :=
  let '(o, rs) := active_recipients o rs in
  try_reserve_active submit o key rs payload lane share.

(** ** The consumers of the streams *)

Inductive ConsumerOp :=
| CTake
| CDetach
| CInstallBegin (ready : Result () NetError)
| CInstallEnd (error : option NetError)
| CSchedule (submit : option NetError)
| CStart
| CFinishRun
| CFail (error : NetError).

(** Whoever takes the next item returns what the entry holds; the end of the stream
    detaches. *)
Definition take_item (o : TaskObservers) (r : RegId) : TaskObservers :=
  match regs o !! r with
  | Some reg =>
      let '(s, d) := event_next (stream reg) in
      let o := set_stream o r s in
      match d with
      | DItem (Ok entry) => release_entries o r [entry]
      | DDone => detach_receiver o r
      | _ => o
      end
  | None => o
  end.

Definition consumer_step (o : TaskObservers) (r : RegId) (op : ConsumerOp) : TaskObservers :=
  let local (f : EventState TaskEvent DeliveryCapacity -> EventState TaskEvent DeliveryCapacity) :=
    o <| regs ::= alter (fun reg => reg <| stream ::= f |>) r |> in
  match op with
  | CTake => take_item o r
  | CDetach => detach_receiver o r
  | CInstallBegin ready => local (fun s => (install_begin ready s).1)
  | CInstallEnd error => local (fun s => (install_end s error).1)
  | CSchedule submit => (schedule_receiver (fun _ => submit) o r).1
  | CStart => local (fun s => (run_start s).1)
  | CFinishRun => local finish_run
  | CFail error => fail_receiver o r error
  end.

(** ** Runs *)

Inductive ObserverOp :=
| OForSession (key fresh : SessionKey)
| OSubscribe (key : SessionKey) (options : TaskEventOptions) (r : RegId) (reserve : bool)
| OSnapshot (key : SessionKey)
| OReserve (key : SessionKey) (rs : list RegId) (payload : Z) (lane : MessageLane) (share : ShareId)
    (id : ReservationId) (submit : RegId -> option NetError)
| OPublish (id : ReservationId) (event : TaskEvent) (submit : RegId -> option NetError)
| ODrop (id : ReservationId) (submit : RegId -> option NetError)
| OClose (key : SessionKey) (submit : RegId -> option NetError)
| OConsume (r : RegId) (op : ConsumerOp).

Definition observer_step (max_permits : Z) (o : TaskObservers) (op : ObserverOp) : TaskObservers :=
  match op with
  | OForSession key fresh => (for_session o key fresh).1
  | OSubscribe key options r reserve => (subscribe max_permits reserve o key options r).1
  | OSnapshot key => (snapshot_recipients o key).1
  | OReserve key rs payload lane share id submit =>
      let '(o, res) := task_try_reserve submit o key rs payload lane share in
      match res with Ok res => o <| pledges ::= <[id := res]> |> | Err _ => o end
  | OPublish id event submit =>
      match pledges o !! id with
      | Some res => (publish_reservation submit (o <| pledges ::= delete id |>) res event).1
      | None => o
      end
  | ODrop id submit =>
      match pledges o !! id with
      | Some res => drop_deliveries submit (o <| pledges ::= delete id |>) (deliveries res)
      | None => o
      end
  | OClose key submit => close_observer submit o key
  | OConsume r op => consumer_step o r op
  end.

End Observer.
