(* ===== verification/TaskTheory.v ===== *)
(** * Theorems about task observations

    Capacity is conserved by every sequence of calls: what the semaphores have
    available and what queued events and reservations hold add up to the
    configured limits.  So a reserved delivery always finds room in the stream of
    its recipient. *)

From S2P Require Import Prelude F64 Backoff RetrySchedule RetryState Errors WsRetry WsOptions Cancellation WsTask IndexedHeap OperationControl NativePending PriorityWriteQueue QueueTheory WsConfig EventStream EventTheory TaskObserver.

(** ** Weights of lists *)

Definition weigh {A} (f : A -> Z) (l : list A) : Z := foldr (fun x acc => f x + acc) 0 l.

Lemma weigh_app {A} (f : A -> Z) l1 l2 : weigh f (l1 ++ l2) = weigh f l1 + weigh f l2.
Proof. induction l1; simpl in *; lia. Qed.

Lemma weigh_cons {A} (f : A -> Z) x l : weigh f (x :: l) = f x + weigh f l.
Proof. done. Qed.

#[export] Instance weigh_proper {A} (f : A -> Z) : Proper ((≡ₚ) ==> (=)) (weigh f).
Proof. induction 1; simpl in *; lia. Qed.

Lemma weigh_nonneg {A} (f : A -> Z) l : Forall (fun x => 0 <= f x) l -> 0 <= weigh f l.
Proof. induction 1; simpl in *; lia. Qed.

Lemma weigh_length {A} (l : list A) : weigh (fun _ => 1) l = Z.of_nat (length l).
Proof. induction l; simpl in *; lia. Qed.

Lemma weigh_ext {A} (f g : A -> Z) l : Forall (fun x => f x = g x) l -> weigh f l = weigh g l.
Proof. induction 1; simpl in *; lia. Qed.

Lemma weigh_fmap {A B} (f : B -> Z) (g : A -> B) l : weigh f (g <$> l) = weigh (f ∘ g) l.
Proof. induction l as [|x l IH]; [done|]. cbn [fmap list_fmap]. by rewrite !weigh_cons, <- IH. Qed.

Lemma weigh_le {A} (f g : A -> Z) l : Forall (fun x => f x <= g x) l -> weigh f l <= weigh g l.
Proof. induction 1; simpl in *; lia. Qed.

Section Theory.
Context {sem : Semaphores} {laws : SemaphoreLaws}.

Abbreviation Held := (list (RegId * DeliveryCapacity)) (only parsing).

(** ** What is held *)

(** The capacity that the queue and the outstanding deliveries of a recipient hold. *)
Definition reg_live (reg : Registration) : list DeliveryCapacity :=
  omap entry_resources (equeue (stream reg)) ++ (map_to_list (cells reg)).*2.

Definition store_live (m : gmap RegId Registration) : Held :=
  mjoin ((fun p => pair p.1 <$> reg_live p.2) <$> map_to_list m).

Definition lane_cap (reg : Registration) (u : bool) : option Capacity :=
  if u then urgent_lane reg else Some (ordinary reg).

Definition in_lane (r : RegId) (u : bool) (p : RegId * DeliveryCapacity) : bool :=
  bool_decide (p.1 = r) && eqb (dc_urgent p.2) u.

Definition lane_items (r : RegId) (u : bool) (p : RegId * DeliveryCapacity) : Z :=
  if in_lane r u p then 1 else 0.

Definition lane_bytes (r : RegId) (u : bool) (p : RegId * DeliveryCapacity) : Z :=
  if in_lane r u p then dc_bytes p.2 else 0.

Definition owns (s : ShareId) (p : RegId * DeliveryCapacity) : Z :=
  if bool_decide (dc_shared p.2 = s) then 1 else 0.

Definition names (s s' : ShareId) : Z := if bool_decide (s' = s) then 1 else 0.

Definition share_total (m : gmap ShareId (nat * Z)) : Z := weigh (fun p => p.2.2) (map_to_list m).

(** The account of a lane: nothing is lost, and nothing is overdrawn. *)
Definition lane_ok (r : RegId) (u : bool) (c : Capacity) (held : Held) : Prop :=
  available (cap_items c) + weigh (lane_items r u) held = cap_max_items c /\
  available (cap_bytes c) + weigh (lane_bytes r u) held = cap_max_bytes c /\
  0 <= available (cap_items c) /\ 0 <= available (cap_bytes c).

(** The account of the shared byte permits, with [owners] of each. *)
Definition shares_ok (o : TaskObservers) (owners : ShareId -> Z) : Prop :=
  available (cap_bytes (global o)) + share_total (shares o) = cap_max_bytes (global o) /\
  0 <= available (cap_bytes (global o)) /\
  forall s, match shares o !! s with
            | Some (n, b) => 1 <= b /\ (0 < n)%nat /\ Z.of_nat n = owners s
            | None => owners s = 0
            end.

(** [flight] is held by the running call, with [loose] items of the client and the
    owners [extra] of shared permits. *)
Record account (o : TaskObservers) (flight : Held) (loose : Z) (extra : list ShareId) : Prop := {
  ac_items : available (cap_items (global o)) + Z.of_nat (length (store_live (regs o) ++ flight)) + loose =
    cap_max_items (global o);
  ac_free : 0 <= available (cap_items (global o));
  ac_shares : shares_ok o (fun s => weigh (owns s) (store_live (regs o) ++ flight) + weigh (names s) extra);
  ac_lanes r reg u c : regs o !! r = Some reg -> lane_cap reg u = Some c ->
    lane_ok r u c (store_live (regs o) ++ flight);
  ac_held r dc : (r, dc) ∈ store_live (regs o) ++ flight -> 1 <= dc_bytes dc /\
    exists reg, regs o !! r = Some reg /\ is_Some (lane_cap reg (dc_urgent dc));
}.

Definition sum_lanes (f : Capacity -> Z) (reg : Registration) : Z :=
  f (ordinary reg) + match urgent_lane reg with Some c => f c | None => 0 end.

(** An entry holds what it weighs. *)
Definition entry_ok (e : Entry TaskEvent DeliveryCapacity) : Prop :=
  exists dc, entry_resources e = Some dc /\ entry_bytes e = dc_bytes dc.

Record reg_inv (reg : Registration) : Prop := {
  rv_wait : ereg_overflow (publisher reg) = EventOverflow.Wait;
  rv_items : ev_max_items (ereg_limit (publisher reg)) = sum_lanes cap_max_items reg;
  rv_bytes : ev_max_bytes (ereg_limit (publisher reg)) = sum_lanes cap_max_bytes reg;
  rv_limit : valid_limit (publisher reg);
  rv_queue : queue_inv (publisher reg) (stream reg);
  rv_entries : Forall entry_ok (equeue (stream reg));
  rv_cells : dom (cells reg) = reservations reg;
  rv_ids id : id ∈ reservations reg -> id < next_id reg;
  rv_hook : detach_hook (stream reg) = eactive (stream reg);
  rv_dead : eactive (stream reg) = false -> reg_closed reg = true /\ reservations reg = ∅;
  rv_ended : source_closed (stream reg) = true ->
    reg_closed reg = true /\ reservations reg = ∅ \/ is_some (final_error (stream reg)) = true;
  rv_failed : eactive (stream reg) = true -> is_some (final_error (stream reg)) = true ->
    source_closed (stream reg) = true;
}.

Definition inv (o : TaskObservers) (flight : Held) (loose : Z) (extra : list ShareId) : Prop :=
  account o flight loose extra /\ forall r reg, regs o !! r = Some reg -> reg_inv reg.

(** ** Moving capacity between the store and the call *)

Lemma shares_ok_ext o o' f g :
  shares_ok o f -> (forall s, g s = f s) -> shares o' = shares o ->
  cap_bytes (global o') = cap_bytes (global o) -> cap_max_bytes (global o') = cap_max_bytes (global o) ->
  shares_ok o' g.
Proof.
  intros (Hb & Hf & Hs) He Hsh Hg Hm. unfold shares_ok. rewrite Hsh, Hg, Hm. split_and!; [done|done|].
  intros s. rewrite He. apply Hs.
Qed.

Lemma store_live_insert (m : gmap RegId Registration) r reg :
  store_live (<[r := reg]> m) ≡ₚ (pair r <$> reg_live reg) ++ store_live (delete r m).
Proof.
  unfold store_live. rewrite <- insert_delete_eq. by rewrite map_to_list_insert by apply lookup_delete_eq.
Qed.

Lemma store_live_lookup (m : gmap RegId Registration) r reg :
  m !! r = Some reg -> store_live m ≡ₚ (pair r <$> reg_live reg) ++ store_live (delete r m).
Proof. intros H. rewrite <- store_live_insert. by rewrite insert_id. Qed.

(** A registration changes beside its lanes; what leaves it is in flight and what was
    in flight may enter it. *)
Lemma swap_reg o flight flight' loose extra r reg reg' :
  inv o flight loose extra -> regs o !! r = Some reg -> reg_inv reg' ->
  ordinary reg' = ordinary reg -> urgent_lane reg' = urgent_lane reg ->
  (pair r <$> reg_live reg) ++ flight ≡ₚ (pair r <$> reg_live reg') ++ flight' ->
  inv (o <| regs := <[r := reg']> (regs o) |>) flight' loose extra.
Proof.
  intros [[Hi Hf Hs Hl Hh] Hr] Hreg Hreg' Ho Hu Hp.
  assert (store_live (regs o) ++ flight ≡ₚ store_live (<[r := reg']> (regs o)) ++ flight') as Hall.
  { rewrite store_live_insert, (store_live_lookup _ _ _ Hreg). rewrite <- !(assoc_L (++)).
    rewrite (Permutation_app_comm (store_live _) flight), (Permutation_app_comm (store_live _) flight').
    by rewrite !(assoc_L (++)), Hp. }
  split; [split; simpl|].
  - rewrite <- Hall. exact Hi.
  - exact Hf.
  - eapply shares_ok_ext; [exact Hs| |done|done|done]. intros s. simpl.
    by rewrite (weigh_proper (owns s) _ _ Hall).
  - intros r1 reg1 u c Hr1 Hc. unfold lane_ok. rewrite <- !(weigh_proper _ _ _ Hall).
    destruct (decide (r = r1)) as [<-|Hne].
    + rewrite lookup_insert_eq in Hr1. simplify_eq. eapply Hl; [done|]. unfold lane_cap in *.
      by rewrite Ho, Hu in Hc.
    + rewrite lookup_insert_ne in Hr1 by done. by eapply Hl.
  - intros r1 dc Hin. rewrite <- Hall in Hin. destruct (Hh _ _ Hin) as (Hd & reg1 & Hr1 & Hc). split; [done|].
    destruct (decide (r = r1)) as [<-|Hne].
    + exists reg'. rewrite lookup_insert_eq. split; [done|]. simplify_eq. unfold lane_cap in *. by rewrite Ho, Hu.
    + exists reg1. by rewrite lookup_insert_ne.
  - intros r1 reg1. simpl. destruct (decide (r = r1)) as [<-|Hne].
    + rewrite lookup_insert_eq. by intros [= <-].
    + rewrite lookup_insert_ne by done. apply Hr.
Qed.

Lemma inv_flight o flight flight' loose extra :
  inv o flight loose extra -> flight ≡ₚ flight' -> inv o flight' loose extra.
Proof.
  intros [[Hi Hf Hs Hl Hh] Hr] Hp.
  assert (store_live (regs o) ++ flight ≡ₚ store_live (regs o) ++ flight') as Hall by by rewrite Hp.
  split; [|done]. split.
  - by rewrite <- Hall.
  - done.
  - eapply shares_ok_ext; [exact Hs| |done|done|done]. intros s. simpl.
    by rewrite (weigh_proper (owns s) _ _ Hall).
  - intros. unfold lane_ok. rewrite <- !(weigh_proper _ _ _ Hall). by eapply Hl.
  - intros r dc Hin. rewrite <- Hall in Hin. by apply Hh.
Qed.

Lemma share_total_insert (m : gmap ShareId (nat * Z)) s x :
  share_total (<[s := x]> m) = x.2 + share_total (delete s m).
Proof.
  unfold share_total. rewrite <- insert_delete_eq.
  rewrite (weigh_proper _ _ _ (map_to_list_insert _ s x (lookup_delete_eq m s))). done.
Qed.

Lemma share_total_lookup (m : gmap ShareId (nat * Z)) s x :
  m !! s = Some x -> share_total m = x.2 + share_total (delete s m).
Proof. intros H. rewrite <- share_total_insert. by rewrite insert_id. Qed.

Lemma drop_share_ok o f s :
  shares_ok o f -> 0 < f s -> shares_ok (drop_share o s) (fun s' => f s' - names s' s).
Proof.
  intros (Hb & Hf & Hs) Hpos. unfold names, drop_share. pose proof (Hs s) as Hs0.
  destruct (shares o !! s) as [[[|[|n]] b]|] eqn:Hlook; [lia| | |lia].
  - destruct Hs0 as (Hb1 & _ & Hn). split_and!; simpl.
    + rewrite release_available. rewrite (share_total_lookup _ _ _ Hlook) in Hb. simpl in Hb. lia.
    + rewrite release_available. lia.
    + intros s'. specialize (Hs s'). destruct (decide (s = s')) as [<-|Hne].
      * rewrite lookup_delete_eq, bool_decide_eq_true_2 by done. lia.
      * rewrite lookup_delete_ne, bool_decide_eq_false_2 by congruence. rewrite Z.sub_0_r. done.
  - destruct Hs0 as (Hb1 & _ & Hn). split_and!; simpl.
    + rewrite share_total_insert. rewrite (share_total_lookup _ _ _ Hlook) in Hb. simpl in *. lia.
    + done.
    + intros s'. specialize (Hs s'). destruct (decide (s = s')) as [<-|Hne].
      * rewrite lookup_insert_eq, bool_decide_eq_true_2 by done. lia.
      * rewrite lookup_insert_ne, bool_decide_eq_false_2 by congruence. rewrite Z.sub_0_r. done.
Qed.

(** Dropping a share touches nothing else. *)
Lemma drop_share_beside o s :
  regs (drop_share o s) = regs o /\ observers (drop_share o s) = observers o /\
  pledges (drop_share o s) = pledges o /\ sub_slots (drop_share o s) = sub_slots o /\
  cap_items (global (drop_share o s)) = cap_items (global o) /\
  cap_max_items (global (drop_share o s)) = cap_max_items (global o) /\
  cap_max_bytes (global (drop_share o s)) = cap_max_bytes (global o).
Proof. unfold drop_share. by destruct (shares o !! s) as [[[|[|n]] b]|]. Qed.

Lemma owners_pos s (held : Held) extra : 0 < weigh (owns s) held + weigh (names s) (s :: extra).
Proof.
  assert (0 <= weigh (owns s) held /\ 0 <= weigh (names s) extra) as [? ?].
  { split; apply weigh_nonneg, Forall_forall; intros x _; unfold owns, names; by destruct (bool_decide _). }
  rewrite weigh_cons. unfold names at 1. rewrite bool_decide_eq_true_2 by done. lia.
Qed.

Lemma drop_share_inv o flight loose extra s :
  inv o flight loose (s :: extra) -> inv (drop_share o s) flight loose extra.
Proof.
  intros [[Hi Hf Hs Hl Hh] Hr]. destruct (drop_share_beside o s) as (Hregs & _ & _ & _ & Hci & Hcm & _).
  split; [split|]; rewrite ?Hregs, ?Hci, ?Hcm; try done.
  eapply shares_ok_ext; [eapply drop_share_ok; [exact Hs|]| |done|done|done].
  - apply owners_pos.
  - intros s'. simpl. lia.
Qed.

Lemma release_items_inv o flight loose extra n :
  0 <= n -> inv o flight (n + loose) extra -> inv (release_global_items o n) flight loose extra.
Proof.
  intros Hn [[Hi Hf Hs Hl Hh] Hr]. split; [|done]. split; simpl; rewrite ?release_available; try done; lia.
Qed.

(** ** Lanes *)

Lemma update_lane_cap u f reg u' :
  lane_cap (update_lane u f reg) u' = if eqb u u' then f <$> lane_cap reg u' else lane_cap reg u'.
Proof. by destruct u, u'. Qed.

Lemma update_lane_live u f reg : reg_live (update_lane u f reg) = reg_live reg.
Proof. by destruct u. Qed.

Lemma update_lane_inv u f reg :
  reg_inv reg -> (forall c, cap_max_items (f c) = cap_max_items c) ->
  (forall c, cap_max_bytes (f c) = cap_max_bytes c) -> reg_inv (update_lane u f reg).
Proof.
  intros [] Hi Hb. destruct u; split; simpl; try done; unfold sum_lanes in *; simpl;
    rewrite ?Hi, ?Hb; try done; destruct (urgent_lane reg); simpl; rewrite ?Hi, ?Hb; done.
Qed.

Lemma alter_live (m : gmap RegId Registration) f r :
  (forall reg, reg_live (f reg) = reg_live reg) -> store_live (alter f r m) ≡ₚ store_live m.
Proof.
  intros Hf. destruct (m !! r) as [reg|] eqn:Hr.
  - rewrite (alter_as_insert _ _ _ _ Hr), store_live_insert, Hf. symmetry. by apply store_live_lookup.
  - rewrite alter_id; [done|]. intros reg. by rewrite Hr.
Qed.

Lemma alter_inv (m : gmap RegId Registration) f r :
  (forall r reg, m !! r = Some reg -> reg_inv reg) -> (forall reg, reg_inv reg -> reg_inv (f reg)) ->
  forall r1 reg, alter f r m !! r1 = Some reg -> reg_inv reg.
Proof.
  intros Hr Hf r1 reg. destruct (decide (r = r1)) as [<-|Hne].
  - rewrite lookup_alter_eq. destruct (m !! r) as [reg0|] eqn:H0; simpl; [|done]. intros [= <-].
    apply Hf. by eapply Hr.
  - rewrite lookup_alter_ne by done. apply Hr.
Qed.

(** The weight of one delivery in its own lane, and in the others. *)
Lemma lane_own r dc : lane_items r (dc_urgent dc) (r, dc) = 1 /\ lane_bytes r (dc_urgent dc) (r, dc) = dc_bytes dc.
Proof. unfold lane_items, lane_bytes, in_lane. simpl. rewrite bool_decide_eq_true_2, eqb_reflx by done. done. Qed.

Lemma lane_other r dc r1 u :
  r <> r1 \/ dc_urgent dc <> u -> lane_items r1 u (r, dc) = 0 /\ lane_bytes r1 u (r, dc) = 0.
Proof.
  unfold lane_items, lane_bytes, in_lane. simpl. intros [Hne|Hne].
  - by rewrite bool_decide_eq_false_2.
  - apply eqb_false_iff in Hne. rewrite Hne. by rewrite andb_false_r.
Qed.

(** Every lane after one lane has changed by [di] items and [db] bytes, which the
    list of what is held makes up for. *)
Lemma lanes_change (m : gmap RegId Registration) r u f di db (held held' : Held) :
  (forall r1 reg u1 c, m !! r1 = Some reg -> lane_cap reg u1 = Some c -> lane_ok r1 u1 c held) ->
  (forall c reg, m !! r = Some reg -> lane_cap reg u = Some c ->
     available (cap_items (f c)) = available (cap_items c) + di /\
     available (cap_bytes (f c)) = available (cap_bytes c) + db /\
     cap_max_items (f c) = cap_max_items c /\ cap_max_bytes (f c) = cap_max_bytes c /\
     0 <= available (cap_items c) + di /\ 0 <= available (cap_bytes c) + db) ->
  (weigh (lane_items r u) held' = weigh (lane_items r u) held - di /\
   weigh (lane_bytes r u) held' = weigh (lane_bytes r u) held - db) ->
  (forall r1 u1, r <> r1 \/ u <> u1 -> weigh (lane_items r1 u1) held' = weigh (lane_items r1 u1) held /\
     weigh (lane_bytes r1 u1) held' = weigh (lane_bytes r1 u1) held) ->
  forall r1 reg u1 c, alter (update_lane u f) r m !! r1 = Some reg -> lane_cap reg u1 = Some c ->
    lane_ok r1 u1 c held'.
Proof.
  intros Hl Hf Hown Hoth r1 reg u1 c Hr1 Hc. destruct (decide (r = r1)) as [<-|Hne].
  - rewrite lookup_alter_eq in Hr1. destruct (m !! r) as [reg0|] eqn:H0; simpl in Hr1; [|done].
    injection Hr1 as <-. rewrite update_lane_cap in Hc. destruct (eqb u u1) eqn:Hu.
    + apply eqb_prop in Hu as <-. destruct (lane_cap reg0 u) as [c0|] eqn:Hc0; [|done]. injection Hc as <-.
      destruct (Hf c0 _ eq_refl Hc0) as (H1 & H2 & H3 & H4 & H5 & H6).
      destruct (Hl _ _ _ _ H0 Hc0) as (A1 & A2 & A3 & A4). unfold lane_ok. rewrite H1, H2, H3, H4. lia.
    + apply eqb_false_iff in Hu. destruct (Hoth r u1 (or_intror Hu)) as [H1 H2].
      unfold lane_ok. rewrite H1, H2. by eapply Hl.
  - rewrite lookup_alter_ne in Hr1 by done. destruct (Hoth r1 u1 (or_introl Hne)) as [H1 H2].
    unfold lane_ok. rewrite H1, H2. by eapply Hl.
Qed.

Lemma release_lanes (m : gmap RegId Registration) r dc held held' :
  (forall r1 reg u1 c, m !! r1 = Some reg -> lane_cap reg u1 = Some c -> lane_ok r1 u1 c held) ->
  held ≡ₚ (r, dc) :: held' -> 1 <= dc_bytes dc ->
  forall r1 reg u1 c, alter (update_lane (dc_urgent dc) (release_lane (dc_bytes dc))) r m !! r1 = Some reg ->
    lane_cap reg u1 = Some c -> lane_ok r1 u1 c held'.
Proof.
  intros Hl Hp Hd. destruct (lane_own r dc) as [Ho1 Ho2].
  eapply (lanes_change _ _ _ _ 1 (dc_bytes dc) held held' Hl).
  - intros c reg Hr Hc. destruct (Hl _ _ _ _ Hr Hc) as (_ & _ & ? & ?). unfold release_lane. simpl.
    rewrite !release_available. split_and!; done || lia.
  - rewrite !(weigh_proper _ _ _ Hp), !weigh_cons, Ho1, Ho2. lia.
  - intros r1 u1 Hne. rewrite !(weigh_proper _ _ _ Hp), !weigh_cons.
    destruct (lane_other r dc r1 u1 Hne) as [-> ->]. lia.
Qed.

Lemma release_delivery_inv o flight loose extra r dc :
  inv o ((r, dc) :: flight) loose extra -> inv (release_delivery o r dc) flight loose extra.
Proof.
  intros [[Hi Hf Hs Hl Hh] Hr].
  set (o1 := release_global_items (o <| regs ::= alter (update_lane (dc_urgent dc) (release_lane (dc_bytes dc))) r |>) 1).
  assert (store_live (regs o1) ≡ₚ store_live (regs o)) as Hlive by (apply alter_live; intros; apply update_lane_live).
  assert (1 <= dc_bytes dc) as Hd by (apply (Hh r); apply elem_of_app; right; constructor).
  assert (store_live (regs o) ++ (r, dc) :: flight ≡ₚ (r, dc) :: store_live (regs o1) ++ flight) as Hp
    by (rewrite Hlive; by rewrite <- Permutation_middle).
  apply (drop_share_inv o1). split; [split|].
  - simpl. rewrite release_available. rewrite Hp in Hi. simpl in Hi. simpl. lia.
  - simpl. rewrite release_available. lia.
  - eapply shares_ok_ext; [exact Hs| |done|done|done]. intros s. simpl. rewrite (weigh_proper (owns s) _ _ Hp). simpl.
    unfold names at 1, owns at 2. simpl. lia.
  - by eapply release_lanes.
  - intros r1 dc1 Hin. destruct (Hh r1 dc1) as (? & reg & Hr1 & Hc); [rewrite Hp; by constructor|]. split; [done|].
    simpl. destruct (decide (r = r1)) as [<-|Hne].
    + rewrite lookup_alter_eq, Hr1. simpl. eexists. split; [done|]. rewrite update_lane_cap.
      destruct (eqb _ _); [by apply fmap_is_Some|done].
    + rewrite lookup_alter_ne by done. by exists reg.
  - apply alter_inv; [done|]. intros reg Hreg. by apply update_lane_inv.
Qed.

Lemma release_all_inv dcs : forall o flight loose extra r,
  inv o ((pair r <$> dcs) ++ flight) loose extra -> inv (release_all o r dcs) flight loose extra.
Proof.
  induction dcs as [|dc dcs IH]; intros o flight loose extra r Hi; simpl; [done|].
  by apply IH, release_delivery_inv.
Qed.

(** ** Evolution of the registrations *)

(** Deliveries keep what they hold while the receiver is attached, except those of
    [gone]; identifiers are not used again. *)
Record evolves (gone : Z -> Prop) (reg reg' : Registration) : Prop := {
  ev_publisher : publisher reg' = publisher reg;
  ev_next : next_id reg <= next_id reg';
  ev_active : eactive (stream reg') = true -> eactive (stream reg) = true;
  ev_cells id dc : id < next_id reg -> cells reg' !! id = Some dc -> cells reg !! id = Some dc;
  ev_kept id : eactive (stream reg') = true -> ~ gone id -> is_Some (cells reg !! id) -> is_Some (cells reg' !! id);
  ev_drained : drained_out reg = true -> drained_out reg' = true;
}.

(** What a call does not touch. *)
Definition fixed (o o' : TaskObservers) : Prop :=
  pledges o' = pledges o /\ cap_max_items (global o') = cap_max_items (global o) /\
  cap_max_bytes (global o') = cap_max_bytes (global o).

Definition grows (gone : list (RegId * Z)) (o o' : TaskObservers) : Prop :=
  fixed o o' /\
  forall r reg, regs o !! r = Some reg ->
    exists reg', regs o' !! r = Some reg' /\ evolves (fun id => (r, id) ∈ gone) reg reg'.

Definition after (gone : list (RegId * Z)) (o o' : TaskObservers) (flight : Held) (loose : Z)
    (extra : list ShareId) : Prop := inv o' flight loose extra /\ grows gone o o'.

Lemma evolves_refl gone reg : evolves gone reg reg.
Proof. by split. Qed.

Lemma evolves_trans (g1 g2 : Z -> Prop) reg1 reg2 reg3 :
  evolves g1 reg1 reg2 -> evolves g2 reg2 reg3 -> evolves (fun id => g1 id \/ g2 id) reg1 reg3.
Proof.
  intros [] []. split; [congruence|lia|by auto| | |by auto].
  - intros id dc Hid Hc. apply ev_cells0; [done|]. apply ev_cells1; [lia|done].
  - intros id Ha Hg Hs. apply ev_kept1; [done|tauto|]. apply ev_kept0; [by auto|tauto|done].
Qed.

Lemma evolves_weaken (g1 g2 : Z -> Prop) reg reg' :
  evolves g1 reg reg' -> (forall id, g1 id -> g2 id) -> evolves g2 reg reg'.
Proof. intros [] Hg. split; try done. intros id Ha Hn. apply ev_kept0; [done|]. by auto. Qed.

Lemma grows_refl gone o : grows gone o o.
Proof. split; [done|]. intros r reg Hr. exists reg. split; [done|apply evolves_refl]. Qed.

Lemma grows_trans g1 g2 o1 o2 o3 : grows g1 o1 o2 -> grows g2 o2 o3 -> grows (g1 ++ g2) o1 o3.
Proof.
  intros [(Hp1 & Hm1 & Hb1) H1] [(Hp2 & Hm2 & Hb2) H2]. split; [split_and!; congruence|]. intros r reg Hr.
  destruct (H1 _ _ Hr) as (reg2 & Hr2 & He1). destruct (H2 _ _ Hr2) as (reg3 & Hr3 & He2).
  exists reg3. split; [done|]. eapply evolves_weaken; [by eapply evolves_trans|].
  intros id. simpl. rewrite elem_of_app. tauto.
Qed.

Lemma after_trans g1 g2 o o1 o2 f1 l1 x1 f2 l2 x2 :
  after g1 o o1 f1 l1 x1 -> after g2 o1 o2 f2 l2 x2 -> after (g1 ++ g2) o o2 f2 l2 x2.
Proof. intros [_ H1] [Hi H2]. split; [done|]. by eapply grows_trans. Qed.

Lemma after_quiet g o o1 o2 f1 l1 x1 f2 l2 x2 :
  after g o o1 f1 l1 x1 -> after [] o1 o2 f2 l2 x2 -> after g o o2 f2 l2 x2.
Proof. intros H1 H2. rewrite <- (app_nil_r g). by eapply after_trans. Qed.

(** Changes of the lanes only. *)
Definition beside (reg reg' : Registration) : Prop :=
  publisher reg' = publisher reg /\ stream reg' = stream reg /\ reg_closed reg' = reg_closed reg /\
  next_id reg' = next_id reg /\ reservations reg' = reservations reg /\ cells reg' = cells reg.

Definition besides (o o' : TaskObservers) : Prop :=
  fixed o o' /\ observers o' = observers o /\
  forall r reg, regs o !! r = Some reg -> exists reg', regs o' !! r = Some reg' /\ beside reg reg'.

Lemma besides_grows o o' : besides o o' -> grows [] o o'.
Proof.
  intros (Hp & _ & H). split; [done|]. intros r reg Hr. destruct (H _ _ Hr) as (reg' & Hr' & Hb). exists reg'.
  split; [done|]. destruct Hb as (? & Hs & Hcl & Hn & Hv & Hc).
  split; rewrite ?Hs, ?Hn, ?Hc; try done. unfold drained_out. by rewrite Hcl, Hv.
Qed.

Lemma besides_trans o1 o2 o3 : besides o1 o2 -> besides o2 o3 -> besides o1 o3.
Proof.
  intros ((Hp1 & Hm1 & Hb1) & Ho1 & H1) ((Hp2 & Hm2 & Hb2) & Ho2 & H2).
  split; [split_and!; congruence|]. split; [congruence|]. intros r reg Hr.
  destruct (H1 _ _ Hr) as (reg2 & Hr2 & B1). destruct (H2 _ _ Hr2) as (reg3 & Hr3 & B2).
  exists reg3. split; [done|]. unfold beside in *. destruct_and!. split_and!; congruence.
Qed.

Lemma release_delivery_besides o r dc : besides o (release_delivery o r dc).
Proof.
  unfold release_delivery. match goal with |- besides o (drop_share ?o1 ?s) => destruct (drop_share_beside o1 s) as (Hr & Ho & Hp & _ & _ & Hm & Hb) end.
  split; [by split_and!; rewrite ?Hp, ?Hm, ?Hb|]. split; [by rewrite Ho|]. rewrite Hr. intros r1 reg Hreg. simpl.
  destruct (decide (r = r1)) as [<-|Hne].
  - rewrite lookup_alter_eq, Hreg. simpl. eexists. split; [done|]. by destruct (dc_urgent dc).
  - rewrite lookup_alter_ne by done. by exists reg.
Qed.

Lemma release_all_besides dcs : forall o r, besides o (release_all o r dcs).
Proof.
  induction dcs as [|dc dcs IH]; intros o r; simpl.
  - split_and!; [done|done|]. intros r1 reg Hr. by exists reg.
  - eapply besides_trans; [apply release_delivery_besides|apply IH].
Qed.

Lemma release_all_after o flight loose extra r dcs :
  inv o ((pair r <$> dcs) ++ flight) loose extra -> after [] o (release_all o r dcs) flight loose extra.
Proof. intros Hi. split; [by apply release_all_inv|]. apply besides_grows, release_all_besides. Qed.

(** [swap_reg] for a registration that evolves. *)
Lemma swap_after o flight flight' loose extra r reg reg' gone :
  inv o flight loose extra -> regs o !! r = Some reg -> reg_inv reg' ->
  ordinary reg' = ordinary reg -> urgent_lane reg' = urgent_lane reg ->
  (pair r <$> reg_live reg) ++ flight ≡ₚ (pair r <$> reg_live reg') ++ flight' ->
  evolves (fun id => (r, id) ∈ gone) reg reg' ->
  after gone o (o <| regs := <[r := reg']> (regs o) |>) flight' loose extra.
Proof.
  intros Hi Hr Hreg' Ho Hu Hp He. split; [by eapply swap_reg|]. split; [done|]. simpl. intros r1 reg1 Hr1.
  destruct (decide (r = r1)) as [<-|Hne].
  - rewrite lookup_insert_eq. simplify_eq. by exists reg'.
  - rewrite lookup_insert_ne by done. exists reg1. split; [done|apply evolves_refl].
Qed.

(** ** Streams *)

Lemma set_stream_insert o r reg s :
  regs o !! r = Some reg -> set_stream o r s = o <| regs := <[r := reg <| stream := s |>]> (regs o) |>.
Proof.
  intros Hr. unfold set_stream. destruct o. simpl in *. f_equal.
  exact (alter_as_insert _ _ _ (fun reg => reg <| stream := s |>) Hr).
Qed.

(** The stream changes beside its queue. *)
Record stream_quiet (reg : Registration) (s : EventState TaskEvent DeliveryCapacity) : Prop := {
  sq_queue : equeue s = equeue (stream reg);
  sq_bytes : ebytes s = ebytes (stream reg);
  sq_lagged : lagged s = lagged (stream reg) \/ lagged s = 0 /\ pristine s = false;
  sq_active : eactive s = eactive (stream reg);
  sq_pristine : pristine s = true -> pristine (stream reg) = true;
  sq_hook : detach_hook s = detach_hook (stream reg);
  sq_failed : is_some (final_error (stream reg)) = true -> is_some (final_error s) = true;
  sq_ended : source_closed s = true ->
    source_closed (stream reg) = true \/ drained_out reg = true \/ is_some (final_error s) = true;
  sq_final : eactive s = true -> is_some (final_error s) = true -> source_closed s = true;
}.

Lemma stream_quiet_inv reg s : reg_inv reg -> stream_quiet reg s -> reg_inv (reg <| stream := s |>).
Proof.
  intros [] []. split; simpl; try done; try congruence.
  - destruct rv_queue0. split; rewrite ?sq_queue0, ?sq_bytes0, ?sq_active0; try done.
    + destruct sq_lagged0 as [->|[-> _]]; done.
    + intros Hp. destruct sq_lagged0 as [->|[_ Hx]]; [by auto|congruence].
  - rewrite sq_active0. done.
  - intros Hc. destruct (sq_ended0 Hc) as [Hs|[Hs|Hs]].
    + destruct (rv_ended0 Hs) as [?|?]; [by left|right; by auto].
    + left. unfold drained_out in Hs. apply andb_true_iff in Hs as [? ?%bool_decide_eq_true]. done.
    + by right.
Qed.

Lemma quiet_after o flight loose extra r reg s :
  inv o flight loose extra -> regs o !! r = Some reg -> stream_quiet reg s ->
  after [] o (set_stream o r s) flight loose extra.
Proof.
  intros Hi Hr Hq. rewrite (set_stream_insert _ _ _ _ Hr). eapply swap_after; try done.
  - apply stream_quiet_inv; [|done]. by eapply (proj2 Hi).
  - unfold reg_live. simpl. by rewrite (sq_queue _ _ Hq).
  - split; simpl; try done. by rewrite (sq_active _ _ Hq).
Qed.

(** ** Detaching *)

Lemma cells_taken reg :
  reg_inv reg ->
  (map_to_list (filter (fun '(id, _) => id ∈ reservations reg) (cells reg))).*2 = (map_to_list (cells reg)).*2 /\
  filter (fun '(id, _) => id ∉ reservations reg) (cells reg) = ∅.
Proof.
  intros []. split.
  - f_equal. f_equal. apply map_filter_id. intros id dc Hc. rewrite <- rv_cells0. by apply elem_of_dom_2 in Hc.
  - apply map_empty_filter_2. intros id dc Hc Hn. apply Hn. rewrite <- rv_cells0. by apply elem_of_dom_2 in Hc.
Qed.

Lemma release_detached_insert o r reg :
  regs o !! r = Some reg -> reg_inv reg ->
  release_detached o r =
    release_all (o <| regs := <[r := reg <| reg_closed := true; reservations := ∅; cells := ∅ |>]> (regs o) |>)
      r (map_to_list (cells reg)).*2.
Proof.
  intros Hr Hreg. unfold release_detached. rewrite Hr. destruct (cells_taken reg Hreg) as [-> ->]. done.
Qed.

(** The registration of a detached receiver. *)
Lemma detached_inv reg s :
  reg_inv reg -> queue_inv (publisher reg) s -> eactive s = false -> detach_hook s = false ->
  reg_inv (reg <| stream := s; reg_closed := true; reservations := ∅; cells := ∅ |>).
Proof.
  intros [] Hq Ha Hh. split; simpl; try done.
  - rewrite (qi_dead _ _ Hq Ha). constructor.
  - congruence.
  - intros _. by left.
  - congruence.
Qed.

Lemma omap_entries (es : list (Entry TaskEvent DeliveryCapacity)) :
  Forall entry_ok es -> length (omap entry_resources es) = length es.
Proof. induction 1 as [|e es (dc & He & _) _ IH]; [done|]. csimpl. rewrite He. simpl. by rewrite IH. Qed.

Lemma detach_after o flight loose extra r reg s :
  inv o flight loose extra -> regs o !! r = Some reg -> eactive (stream reg) = true ->
  queue_inv (publisher reg) s -> eactive s = false -> detach_hook s = false ->
  after [] o (after_detach (set_stream o r s) r (stream reg) (equeue (stream reg))) flight loose extra.
Proof.
  intros Hi Hr Ha Hq Hs Hh. pose proof Hi as [Hacc Hregs]. pose proof (Hregs _ _ Hr) as Hreg.
  unfold after_detach. rewrite (rv_hook _ Hreg), Ha.
  set (reg1 := reg <| stream := s; reg_closed := true; reservations := ∅; cells := ∅ |>).
  assert (release_detached (set_stream o r s) r =
    release_all (o <| regs := <[r := reg1]> (regs o) |>) r (map_to_list (cells reg)).*2) as ->.
  { rewrite (set_stream_insert _ _ _ _ Hr). unfold release_detached. simpl. rewrite lookup_insert_eq. simpl.
    destruct (cells_taken reg Hreg) as [-> ->]. f_equal. destruct o. simpl. f_equal. apply insert_insert_eq. }
  assert (after [] o (o <| regs := <[r := reg1]> (regs o) |>)
    ((pair r <$> (map_to_list (cells reg)).*2) ++ (pair r <$> omap entry_resources (equeue (stream reg))) ++ flight)
    loose extra) as H1.
  { eapply swap_after; try done.
    - by apply detached_inv.
    - unfold reg_live. simpl. rewrite (qi_dead _ _ Hq Hs). simpl. rewrite map_to_list_empty. simpl.
      rewrite fmap_app, (assoc_L (++)). f_equiv. apply Permutation_app_comm.
    - split; simpl; try done; congruence. }
  eapply after_quiet; [exact H1|]. destruct H1 as [H1 _].
  pose proof (release_all_after _ _ _ _ _ _ H1) as H2. eapply after_quiet; [exact H2|]. destruct H2 as [H2 _].
  pose proof (release_all_after _ _ _ _ _ _ H2) as H3. unfold release_entries.
  destruct (slot_held (stream reg)); [|exact H3]. destruct H3 as [[[] Hri] [Hp Hg]]. split; [split; [by split|done]|]. by split.
Qed.

Lemma detach_receiver_after o flight loose extra r :
  inv o flight loose extra -> after [] o (detach_receiver o r) flight loose extra.
Proof.
  intros Hi. unfold detach_receiver. destruct (regs o !! r) as [reg|] eqn:Hr; [|by split; [|apply grows_refl]].
  pose proof (proj2 Hi _ _ Hr) as Hreg.
  destruct (unsubscribe_inv (publisher reg) (stream reg) (rv_limit _ Hreg) (rv_queue _ Hreg)) as [Hq Hd].
  unfold unsubscribe in *. destruct (eactive (stream reg)) eqn:Ha; simpl in *; [|by split; [|apply grows_refl]].
  by apply detach_after.
Qed.

Lemma stream_quiet_refl reg : reg_inv reg -> stream_quiet reg (stream reg).
Proof. intros []. split; try done; by left. Qed.

Lemma fail_receiver_after o flight loose extra r error :
  inv o flight loose extra -> after [] o (fail_receiver o r error) flight loose extra.
Proof.
  intros Hi. unfold fail_receiver. destruct (regs o !! r) as [reg|] eqn:Hr; [|by split; [|apply grows_refl]].
  pose proof (proj2 Hi _ _ Hr) as Hreg. unfold event_fail. destruct (callback_installing (stream reg)).
  - simpl. rewrite andb_negb_r. eapply quiet_after; [done|done|]. by destruct (stream_quiet_refl _ Hreg).
  - set (s1 := (stream reg) <| final_error ::= fun e => option_or e (Some error) |>).
    assert (queue_inv (publisher reg) s1) as Hq1 by by destruct (rv_queue _ Hreg).
    destruct (unsubscribe_inv (publisher reg) s1 (rv_limit _ Hreg) Hq1) as [Hq Hd].
    unfold unsubscribe in *. destruct (eactive s1) eqn:Ha; change (eactive s1) with (eactive (stream reg)) in Ha;
      cbn [negb fst snd] in *; rewrite Ha; cbn [andb].
    + rewrite Hd. by apply detach_after.
    + eapply quiet_after; [done|done|]. destruct (stream_quiet_refl _ Hreg).
      split; simpl; try done; intros; try congruence; [by destruct (final_error (stream reg))|by left].
Qed.

Lemma schedule_receiver_after submit o flight loose extra r :
  inv o flight loose extra -> after [] o (schedule_receiver submit o r).1 flight loose extra.
Proof.
  intros Hi. unfold schedule_receiver. destruct (regs o !! r) as [reg|] eqn:Hr; [|by split; [|apply grows_refl]].
  pose proof (proj2 Hi _ _ Hr) as Hreg. destruct (schedule_lock (stream reg)) as [s call] eqn:Hs.
  assert (stream_quiet reg s) as Hq.
  { pose proof (stream_quiet_refl _ Hreg) as Hq. unfold schedule_lock in Hs. repeat case_match; simplify_eq/=; try done.
    by destruct Hq. }
  pose proof (quiet_after _ _ _ _ _ _ _ Hi Hr Hq) as H1.
  destruct (if call then submit r else None) as [error|]; simpl; [|done].
  eapply after_quiet; [exact H1|]. apply fail_receiver_after, H1.
Qed.

Lemma dispatch_after submit o flight loose extra r p :
  inv o ((pair r <$> omap entry_resources (ep_retired p)) ++
    (pair r <$> omap entry_resources (option_list (ep_input p))) ++ flight) loose extra ->
  after [] o (dispatch_publication submit o r p).1 flight loose extra.
Proof.
  intros Hi. unfold dispatch_publication. pose proof (release_all_after _ _ _ _ _ _ Hi) as H1.
  fold (release_entries o r (ep_retired p)) in H1. set (o1 := release_entries o r (ep_retired p)) in *.
  assert (after [] o1 (if ep_schedule p then schedule_receiver submit o1 r else (o1, Ok tt)).1
    ((pair r <$> omap entry_resources (option_list (ep_input p))) ++ flight) loose extra) as H2.
  { destruct (ep_schedule p); [apply schedule_receiver_after, H1|]. split; [apply H1|apply grows_refl]. }
  destruct (if ep_schedule p then _ else _) as [o2 scheduled]. simpl in H2.
  eapply after_quiet; [exact H1|]. eapply after_quiet; [exact H2|]. destruct H2 as [H2 _].
  destruct (ep_input p) as [entry|]; simpl in *; [by apply release_all_after|]. split; [done|apply grows_refl].
Qed.

Lemma end_source_after submit failure o flight loose extra r :
  inv o flight loose extra ->
  (failure = None -> forall reg, regs o !! r = Some reg -> drained_out reg = true) ->
  after [] o (end_source submit failure o r) flight loose extra.
Proof.
  intros Hi Hf. unfold end_source. destruct (regs o !! r) as [reg|] eqn:Hr; [|by split; [|apply grows_refl]].
  pose proof (proj2 Hi _ _ Hr) as Hreg. pose proof (stream_quiet_refl _ Hreg) as Hq0.
  destruct (prepare_finish (stream reg) failure) as [s p] eqn:Hfin. unfold prepare_finish in Hfin.
  destruct (eactive (stream reg) && negb (source_closed (stream reg))) eqn:E; injection Hfin as <- <-.
  - apply andb_true_iff in E as [Ha Hc]. apply negb_true_iff in Hc.
    assert (stream_quiet reg ((stream reg) <| pristine := false; source_closed := true; pending_error := failure;
      final_error := failure; receive_waker := false |>)) as Hq.
    { destruct Hq0. split; simpl; try done.
      - by left.
      - intros Hx. rewrite (rv_failed _ Hreg Ha Hx) in Hc. done.
      - intros _. right. destruct failure; [by right|]. left. by apply Hf. }
    pose proof (quiet_after _ _ _ _ _ _ _ Hi Hr Hq) as H1. eapply after_quiet; [exact H1|].
    apply dispatch_after. simpl. apply H1.
  - pose proof (quiet_after _ _ _ _ _ _ _ Hi Hr Hq0) as H1. eapply after_quiet; [exact H1|].
    apply dispatch_after. simpl. apply H1.
Qed.

(** ** Deliveries *)

Lemma take_delivery_after o flight loose extra r id o' cell finish :
  inv o flight loose extra -> take_delivery o r id = (o', cell, finish) ->
  after [(r, id)] o o' ((pair r <$> option_list cell) ++ flight) loose extra /\
  (forall reg', regs o' !! r = Some reg' -> finish = drained_out reg' /\ cells reg' !! id = None) /\
  (forall reg, regs o !! r = Some reg -> cell = cells reg !! id).
Proof.
  intros Hi. unfold take_delivery. destruct (regs o !! r) as [reg|] eqn:Hr.
  2: { intros [= <- <- <-]. split_and!; [split; [done|apply grows_refl]| |done].
       intros reg'. by rewrite Hr. }
  intros [= <- <- <-]. pose proof (proj2 Hi _ _ Hr) as Hreg. split_and!.
  - eapply swap_after; try done.
    + destruct Hreg. split; simpl; try done.
      * rewrite dom_delete_L, rv_cells0. done.
      * intros k Hk. apply rv_ids0. set_solver.
      * intros Ha. destruct (rv_dead0 Ha) as [? Hx]. split; [done|]. rewrite Hx. set_solver.
      * intros Hc. destruct (rv_ended0 Hc) as [[? Hx]|?]; [left|by right]. split; [done|]. rewrite Hx. set_solver.
    + unfold reg_live. simpl. destruct (cells reg !! id) as [dc|] eqn:Hc; simpl.
      * rewrite <- (map_to_list_delete (cells reg) id dc Hc). rewrite !fmap_app. simpl.
        rewrite <- !(assoc_L (++)). simpl. apply Permutation_app_head, Permutation_middle.
      * rewrite delete_id by done. done.
    + split; simpl; try done.
      * intros k dc _ Hc. apply lookup_delete_Some in Hc as [_ Hc]. done.
      * intros k _ Hg [dc Hc]. exists dc. rewrite lookup_delete_ne; [done|]. intros ->. apply Hg. by constructor.
      * unfold drained_out. simpl. intros [-> ->%bool_decide_eq_true]%andb_true_iff. simpl.
        apply bool_decide_eq_true. set_solver.
  - simpl. rewrite lookup_insert_eq. intros reg' [= <-]. simpl. by rewrite lookup_delete_eq.
  - intros reg1 Hr1. congruence.
Qed.

Lemma drained_besides o o' r reg' :
  besides o o' -> (forall reg, regs o !! r = Some reg -> drained_out reg = true) -> is_Some (regs o !! r) ->
  regs o' !! r = Some reg' -> drained_out reg' = true.
Proof.
  intros (_ & _ & H) Hd [reg Hr] Hr'. destruct (H _ _ Hr) as (reg1 & Hr1 & (_ & _ & Hc & _ & Hv & _)).
  assert (reg1 = reg') as -> by congruence. specialize (Hd _ Hr). unfold drained_out in *. by rewrite Hc, Hv.
Qed.

Lemma drop_delivery_after submit o flight loose extra d :
  inv o flight loose extra -> after [d] o (drop_delivery submit o d) flight loose extra.
Proof.
  intros Hi. destruct d as [r id]. unfold drop_delivery.
  destruct (take_delivery o r id) as [[o1 cell] finish] eqn:Ht.
  destruct (take_delivery_after _ _ _ _ _ _ _ _ _ Hi Ht) as (H1 & Hfin & _).
  set (o2 := match cell with Some dc => release_delivery o1 r dc | None => o1 end).
  assert (after [] o1 o2 flight loose extra /\ besides o1 o2) as [H2 Hb].
  { destruct H1 as [H1 _]. unfold o2. destruct cell as [dc|]; simpl in H1.
    - split; [|apply release_delivery_besides]. by apply (release_all_after _ _ _ _ r [dc]).
    - split; [split; [done|apply grows_refl]|]. split_and!; [done|done|]. intros r1 reg1 Hr1. by exists reg1. }
  eapply after_quiet; [exact H1|]. eapply after_quiet; [exact H2|].
  destruct finish eqn:Hf; [|split; [apply H2|apply grows_refl]].
  apply end_source_after; [apply H2|]. intros _ reg Hreg.
  destruct (regs o1 !! r) as [reg1|] eqn:Hr1.
  - eapply drained_besides; [exact Hb| |by rewrite Hr1|exact Hreg].
    intros reg0 H0. by destruct (Hfin reg0 ltac:(congruence)) as [<- _].
  - unfold take_delivery in Ht. destruct (regs o !! r) as [reg0|] eqn:H0; simplify_eq.
    simpl in Hr1. by rewrite lookup_insert_eq in Hr1.
Qed.

Lemma drop_deliveries_after submit ds : forall o flight loose extra,
  inv o flight loose extra -> after ds o (drop_deliveries submit o ds) flight loose extra.
Proof.
  induction ds as [|d ds IH]; intros o flight loose extra Hi; simpl; [by split; [|apply grows_refl]|].
  pose proof (drop_delivery_after submit o _ _ _ d Hi) as H1.
  apply (after_trans [d] ds _ _ _ _ _ _ _ _ _ H1). apply IH, H1.
Qed.

(** ** Room in the stream *)

Definition of_reg (f : DeliveryCapacity -> Z) (r : RegId) (p : RegId * DeliveryCapacity) : Z :=
  if bool_decide (p.1 = r) then f p.2 else 0.

Lemma weigh_plus {A} (f g h : A -> Z) l :
  (forall x, f x = g x + h x) -> weigh f l = weigh g l + weigh h l.
Proof. intros H. induction l as [|x l IH]; simpl in *; [done|]. rewrite H. lia. Qed.

Lemma lanes_total o flight loose extra r reg :
  inv o flight loose extra -> regs o !! r = Some reg ->
  weigh (of_reg (fun _ => 1) r) (store_live (regs o) ++ flight) <= sum_lanes cap_max_items reg /\
  weigh (of_reg dc_bytes r) (store_live (regs o) ++ flight) <= sum_lanes cap_max_bytes reg.
Proof.
  intros [[_ _ _ Hl Hh] _] Hr. set (L := store_live (regs o) ++ flight) in *.
  assert (weigh (of_reg (fun _ => 1) r) L = weigh (lane_items r false) L + weigh (lane_items r true) L) as ->.
  { apply weigh_plus. intros [r1 dc]. unfold of_reg, lane_items, in_lane. simpl.
    by destruct (bool_decide (r1 = r)), (dc_urgent dc). }
  assert (weigh (of_reg dc_bytes r) L = weigh (lane_bytes r false) L + weigh (lane_bytes r true) L) as ->.
  { apply weigh_plus. intros [r1 dc]. unfold of_reg, lane_bytes, in_lane. simpl.
    destruct (bool_decide (r1 = r)), (dc_urgent dc); simpl; lia. }
  destruct (Hl r reg false (ordinary reg) Hr eq_refl) as (A1 & A2 & A3 & A4). unfold sum_lanes.
  destruct (urgent_lane reg) as [c|] eqn:Hu.
  - destruct (Hl r reg true c Hr Hu) as (B1 & B2 & B3 & B4). lia.
  - assert (weigh (lane_items r true) L = 0 /\ weigh (lane_bytes r true) L = 0) as [-> ->]; [|lia].
    assert (Forall (fun p => in_lane r true p = false) L) as Hnone.
    { apply Forall_forall. intros [r1 dc] Hin. destruct (Hh _ _ Hin) as (_ & reg1 & Hr1 & Hc).
      unfold in_lane. simpl. case_bool_decide as Heq; [|done]. subst r1. simplify_eq.
      destruct (dc_urgent dc); [|done]. simpl in Hc. rewrite Hu in Hc. by destruct Hc. }
    clear -Hnone. induction Hnone as [|p L Hp _ [IH1 IH2]]; [done|]. rewrite !weigh_cons, IH1, IH2.
    unfold lane_items, lane_bytes. by rewrite Hp.
Qed.

#[local] Arguments weigh : simpl never.

Lemma entries_weight r (q : list (Entry TaskEvent DeliveryCapacity)) :
  Forall entry_ok q ->
  weigh (of_reg (fun _ => 1) r) (pair r <$> omap entry_resources q) = Z.of_nat (length q) /\
  weigh (of_reg dc_bytes r) (pair r <$> omap entry_resources q) = queue_bytes q.
Proof.
  induction 1 as [|e q (dc & He & Hb) _ [IH1 IH2]]; [done|]. rewrite queue_bytes_cons, Hb.
  csimpl. rewrite He. csimpl. rewrite !weigh_cons, IH1, IH2. unfold of_reg. simpl.
  rewrite bool_decide_eq_true_2 by done. split; lia.
Qed.

(** A delivery in flight has room in the queue of its recipient. *)
Lemma delivery_fits o flight loose extra r dc reg :
  inv o ((r, dc) :: flight) loose extra -> regs o !! r = Some reg ->
  Z.of_nat (length (equeue (stream reg))) + 1 <= ev_max_items (ereg_limit (publisher reg)) /\
  ebytes (stream reg) + dc_bytes dc <= ev_max_bytes (ereg_limit (publisher reg)).
Proof.
  intros Hi Hr. pose proof (proj2 Hi _ _ Hr) as []. destruct (lanes_total _ _ _ _ _ _ Hi Hr) as [Ht Hb].
  rewrite rv_items0, rv_bytes0, (qi_bytes _ _ rv_queue0).
  set (rest := (pair r <$> (map_to_list (cells reg)).*2) ++ store_live (delete r (regs o)) ++ flight).
  assert (store_live (regs o) ++ (r, dc) :: flight ≡ₚ
    (r, dc) :: (pair r <$> omap entry_resources (equeue (stream reg))) ++ rest) as Hp.
  { rewrite <- Permutation_middle, (store_live_lookup _ _ _ Hr). unfold rest, reg_live. rewrite fmap_app.
    by rewrite <- !(assoc_L (++)). }
  assert (Forall (fun p => 1 <= dc_bytes p.2) rest) as Hpos.
  { apply Forall_forall. intros [r1 dc1] Hin. eapply (ac_held _ _ _ _ (proj1 Hi)). rewrite Hp. right.
    apply elem_of_app. by right. }
  rewrite (weigh_proper _ _ _ Hp), weigh_cons, weigh_app in Ht.
  rewrite (weigh_proper _ _ _ Hp), weigh_cons, weigh_app in Hb.
  destruct (entries_weight r _ rv_entries0) as [W1 W2]. rewrite W1 in Ht. rewrite W2 in Hb.
  assert (0 <= weigh (of_reg (fun _ => 1) r) rest /\ 0 <= weigh (of_reg dc_bytes r) rest) as [? ?].
  { split; apply weigh_nonneg; eapply Forall_impl; try exact Hpos; intros [r1 dc1] ?; unfold of_reg; simpl in *;
      case_bool_decide; lia. }
  unfold of_reg in Ht at 1, Hb at 1. simpl in Ht, Hb. rewrite bool_decide_eq_true_2 in Ht, Hb by done. lia.
Qed.

Lemma commit_refused_or_pushed reg s (entry : Entry TaskEvent DeliveryCapacity) s' p :
  ereg_overflow reg = EventOverflow.Wait -> commit_publish reg true s entry = (s', p) ->
  (s' = s /\ ep_retired p = [] /\ ep_input p = Some entry) \/
  (eactive s = true /\ source_closed s = false /\ (s', p) = push_entry s entry []).
Proof.
  intros Hw. unfold commit_publish. rewrite Hw. rewrite bool_decide_eq_true_2 by done.
  destruct (_ <? _); [intros [= <- <-]; by left|].
  destruct (negb (eactive s) || source_closed s) eqn:E; [intros [= <- <-]; by left|].
  apply orb_false_iff in E as [?%negb_false_iff ?].
  destruct (checked_add _ _ _) as [total|]; [|intros [= <- <-]; by left].
  destruct (_ || _); simpl; [intros [= <- <-]; by left|]. intros Hp. by right.
Qed.


(** An accepted event enters the queue with what it holds. *)
Lemma push_after o flight loose extra r reg dc event bytes s' p :
  inv o ((r, dc) :: flight) loose extra -> regs o !! r = Some reg -> dc_bytes dc = bytes ->
  eactive (stream reg) = true -> source_closed (stream reg) = false ->
  (s', p) = push_entry (stream reg) (mkEntry event bytes (Some dc)) [] ->
  after [] o (set_stream o r s') flight loose extra.
Proof.
  intros Hi Hr Hb Ha Hc Hp. pose proof (proj2 Hi _ _ Hr) as Hreg.
  destruct (delivery_fits _ _ _ _ _ _ _ Hi Hr) as [Hroom Hbytes].
  assert (1 <= dc_bytes dc) as Hpos by (eapply (ac_held _ _ _ _ (proj1 Hi) r); apply elem_of_app; right; constructor).
  rewrite (set_stream_insert _ _ _ _ Hr). injection Hp as -> _. eapply swap_after; try done.
  - destruct Hreg. split; simpl; try done.
    + destruct rv_queue0. split; simpl; try done.
      * rewrite length_app. simpl. lia.
      * rewrite queue_bytes_app, queue_bytes_cons. simpl. lia.
      * lia.
      * apply Forall_app. split; [done|]. constructor; [simpl; lia|constructor].
      * by rewrite Ha.
    + apply Forall_app. split; [done|]. constructor; [|constructor]. by exists dc.
  - unfold reg_live. simpl. rewrite omap_app. simpl. rewrite !fmap_app. simpl. rewrite <- !(assoc_L (++)).
    simpl. apply Permutation_app_head. by rewrite Permutation_middle.
Qed.

Lemma publish_delivery_after submit o flight loose extra r id event bytes :
  inv o flight loose extra ->
  (forall reg dc, regs o !! r = Some reg -> cells reg !! id = Some dc -> dc_bytes dc = bytes) ->
  after [(r, id); (r, id)] o (publish_delivery submit o (r, id) event bytes).1 flight loose extra.
Proof.
  intros Hi Hcell. unfold publish_delivery. destruct (take_delivery o r id) as [[o1 cell] finish] eqn:Ht.
  destruct (take_delivery_after _ _ _ _ _ _ _ _ _ Hi Ht) as (H1 & Hfin & Hc).
  set (dispatched := match cell, regs o1 !! r with Some dc, Some reg => _ | _, _ => _ end).
  assert (after [] o1 dispatched.1 flight loose extra) as H2.
  { destruct H1 as [H1 Hg]. unfold dispatched. destruct cell as [dc|]; simpl in H1; [|split; [done|apply grows_refl]].
    destruct (regs o1 !! r) as [reg|] eqn:Hr1.
    2: { exfalso. unfold take_delivery in Ht. destruct (regs o !! r) as [reg0|] eqn:H0; simplify_eq.
         simpl in Hr1. by rewrite lookup_insert_eq in Hr1. }
    assert (dc_bytes dc = bytes) as Hb.
    { unfold take_delivery in Ht. destruct (regs o !! r) as [reg0|] eqn:H0; simplify_eq. by eapply Hcell. }
    pose proof (proj2 H1 _ _ Hr1) as Hreg.
    destruct (commit_publish _ _ _ _) as [s p] eqn:Hp.
    destruct (commit_refused_or_pushed _ _ _ _ _ (rv_wait _ Hreg) Hp) as [(-> & Hret & Hin)|(Ha & Hcl & Hpush)].
    - pose proof (quiet_after _ _ _ _ _ _ _ H1 Hr1 (stream_quiet_refl _ Hreg)) as H2. eapply after_quiet; [exact H2|].
      apply dispatch_after. rewrite Hret, Hin. simpl. apply H2.
    - pose proof (push_after _ _ _ _ _ _ _ _ _ _ _ H1 Hr1 Hb Ha Hcl Hpush) as H2. eapply after_quiet; [exact H2|].
      apply dispatch_after. injection Hpush as _ ->. simpl. apply H2. }
  destruct dispatched as [o2 result]. simpl in H2.
  set (o3 := if finish then end_source submit None o2 r else o2).
  assert (after [] o2 o3 flight loose extra) as H3.
  { unfold o3. destruct finish; [|split; [apply H2|apply grows_refl]]. apply end_source_after; [apply H2|].
    intros _ reg Hr. destruct (regs o1 !! r) as [reg1|] eqn:Hr1.
    - destruct (proj2 (proj2 H2) _ _ Hr1) as (reg2 & Hr2 & He). simplify_eq. apply (ev_drained _ _ _ He).
      by destruct (Hfin reg1 eq_refl) as [<- _].
    - exfalso. unfold take_delivery in Ht. destruct (regs o !! r) as [reg0|] eqn:H0; simplify_eq.
      simpl in Hr1. by rewrite lookup_insert_eq in Hr1. }
  assert (after [(r, id)] o o3 flight loose extra) as H4.
  { eapply after_quiet; [exact H1|]. by eapply after_quiet. }
  destruct result as [|error]; [apply (after_trans [(r, id)] [(r, id)] _ _ _ _ _ _ _ _ _ H4), drop_delivery_after, H4|].
  destruct (_ && _); [apply (after_trans [(r, id)] [(r, id)] _ _ _ _ _ _ _ _ _ H4), drop_delivery_after, H4|].
  assert (after [] o3 (end_source submit (Some error) o3 r) flight loose extra) as H5
    by (apply end_source_after; [apply H4|done]).
  apply (after_trans [(r, id)] [(r, id)] _ _ _ _ _ _ _ _ _ (after_quiet _ _ _ _ _ _ _ _ _ _ H4 H5)).
  apply drop_delivery_after, H5.
Qed.

(** ** Reservations *)

(** A delivery that an operation holds: it keeps its capacity while its recipient is
    attached. *)
Definition delivery_ok (o : TaskObservers) (bytes : Z) (d : RegId * Z) : Prop :=
  exists reg, regs o !! d.1 = Some reg /\ d.2 < next_id reg /\
  (forall dc, cells reg !! d.2 = Some dc -> dc_bytes dc = bytes) /\
  (eactive (stream reg) = true -> is_Some (cells reg !! d.2)).

Lemma delivery_ok_grows gone o o' bytes d :
  delivery_ok o bytes d -> grows gone o o' -> d ∉ gone -> delivery_ok o' bytes d.
Proof.
  intros (reg & Hr & Hn & Hb & Hs) [_ Hg] Hd. destruct (Hg _ _ Hr) as (reg' & Hr' & []). exists reg'.
  split_and!; [done|lia| |].
  - intros dc Hc. by apply Hb, ev_cells0.
  - intros Ha. apply ev_kept0; [done|by destruct d|by auto].
Qed.

Lemma publish_deliveries_after submit event bytes ds : forall o flight loose extra failure,
  inv o flight loose extra -> NoDup ds -> Forall (delivery_ok o bytes) ds ->
  after (flat_map (fun d => [d; d]) ds) o (publish_deliveries submit o ds event bytes failure).1 flight loose extra.
Proof.
  induction ds as [|[r id] ds IH]; intros o flight loose extra failure Hi Hn Hd; [by split; [|apply grows_refl]|].
  cbn [publish_deliveries flat_map].
  apply Forall_cons in Hd as [Hd Hds]. apply NoDup_cons in Hn as [Hnot Hn].
  pose proof (publish_delivery_after submit o flight loose extra r id event bytes Hi) as H1.
  destruct (publish_delivery submit o (r, id) event bytes) as [o1 result]. simpl in H1.
  assert (after [(r, id); (r, id)] o o1 flight loose extra) as H2.
  { apply H1. intros reg dc Hr Hc. destruct Hd as (reg0 & Hr0 & _ & Hb & _). simpl in *. simplify_eq. by apply Hb. }
  apply (after_trans [(r, id); (r, id)] _ _ _ _ _ _ _ _ _ _ H2). apply IH; [apply H2|done|].
  apply Forall_forall. intros d Hin. eapply delivery_ok_grows; [by eapply Forall_forall|apply H2|].
  intros Hg. repeat (apply elem_of_cons in Hg as [->|Hg]; [done|]). by apply elem_of_nil in Hg.
Qed.

(** ** Detached recipients *)

Lemma release_detached_after o flight loose extra r :
  inv o flight loose extra -> receiver_active o r = false ->
  after [] o (release_detached o r) flight loose extra.
Proof.
  intros Hi Ha. unfold receiver_active in Ha. destruct (regs o !! r) as [reg|] eqn:Hr.
  2: { unfold release_detached. rewrite Hr. by split; [|apply grows_refl]. }
  simpl in Ha. pose proof (proj2 Hi _ _ Hr) as Hreg. destruct (rv_dead _ Hreg Ha) as [Hcl Hres].
  assert (cells reg = ∅) as Hcells by (apply dom_empty_inv_L; rewrite (rv_cells _ Hreg); done).
  rewrite (release_detached_insert _ _ _ Hr Hreg), Hcells, map_to_list_empty. simpl.
  eapply swap_after; try done.
  - destruct Hreg. split; simpl; try done. intros _. by left.
  - unfold reg_live. simpl. by rewrite Hcells.
  - split; simpl; try done; congruence.
Qed.

Lemma release_all_none dcs : forall o r r1,
  regs o !! r1 = None -> regs (release_all o r dcs) !! r1 = None.
Proof.
  induction dcs as [|dc dcs IH]; intros o r r1 Hn; simpl; [done|]. apply IH. unfold release_delivery.
  match goal with |- regs (drop_share ?o1 ?s) !! _ = _ => destruct (drop_share_beside o1 s) as (-> & _) end.
  simpl. destruct (decide (r = r1)) as [<-|Hne]; [by rewrite lookup_alter_eq, Hn|by rewrite lookup_alter_ne].
Qed.

Lemma receiver_stays_inactive o flight loose extra r r1 :
  inv o flight loose extra -> receiver_active o r = false -> receiver_active o r1 = false ->
  receiver_active (release_detached o r) r1 = false.
Proof.
  intros Hi Ha Ha1. destruct (release_detached_after _ _ _ _ _ Hi Ha) as [_ [_ Hg]]. unfold receiver_active in *.
  destruct (regs o !! r1) as [reg1|] eqn:Hr1.
  - destruct (Hg _ _ Hr1) as (reg' & -> & []). simpl in *. destruct (eactive (stream reg')); [|done].
    by rewrite ev_active0 in Ha1.
  - unfold release_detached. destruct (regs o !! r) as [reg|] eqn:Hr; [|by rewrite Hr1].
    rewrite release_all_none; [done|]. simpl. rewrite lookup_insert_ne; [done|congruence].
Qed.

Lemma release_detached_all_after rs : forall o flight loose extra,
  inv o flight loose extra -> Forall (fun r => receiver_active o r = false) rs ->
  after [] o (release_detached_all o rs) flight loose extra.
Proof.
  induction rs as [|r rs IH]; intros o flight loose extra Hi Hf; simpl; [by split; [|apply grows_refl]|].
  apply Forall_cons in Hf as [Ha Hf]. pose proof (release_detached_after _ _ _ _ _ Hi Ha) as H1.
  eapply after_quiet; [exact H1|]. apply IH; [apply H1|]. eapply Forall_impl; [exact Hf|].
  intros r1 Ha1. by eapply receiver_stays_inactive.
Qed.

Lemma inactive_filtered o rs :
  Forall (fun r => receiver_active o r = false) (filter (fun r => receiver_active o r = false) rs).
Proof. apply Forall_forall. by intros r [Ha _]%list_elem_of_filter. Qed.

(** Releasing what detached receivers left leaves the shared permits alone: they hold
    nothing. *)
Lemma release_detached_all_shares rs : forall o share,
  inv o [] 0 [] -> shares o !! share = None -> Forall (fun r => receiver_active o r = false) rs ->
  shares (release_detached_all o rs) !! share = None.
Proof.
  induction rs as [|r rs IH]; intros o share Hi Hs Hf; simpl; [done|]. apply Forall_cons in Hf as [Ha Hf].
  apply IH; [by apply release_detached_after| |].
  - unfold release_detached, receiver_active in *. destruct (regs o !! r) as [reg|] eqn:Hr; [|done].
    pose proof (proj2 Hi _ _ Hr) as Hreg. destruct (cells_taken reg Hreg) as [-> _].
    destruct (rv_dead _ Hreg Ha) as [_ Hres].
    assert (cells reg = ∅) as -> by (apply dom_empty_inv_L; rewrite (rv_cells _ Hreg); done).
    by rewrite map_to_list_empty.
  - eapply Forall_impl; [exact Hf|]. intros r1 Ha1. by eapply receiver_stays_inactive.
Qed.

(** The account does not depend on sessions and reservations. *)
Lemma observers_inv_same o o' flight loose extra :
  inv o flight loose extra -> regs o' = regs o -> global o' = global o -> shares o' = shares o ->
  inv o' flight loose extra.
Proof.
  intros [[Hi Hf Hs Hl Hh] Hr] H1 H2 H3. split; [split|]; rewrite ?H1, ?H2; try done.
  unfold shares_ok in *. by rewrite H2, H3.
Qed.

Lemma prune_after o key flight loose extra :
  inv o flight loose extra -> after [] o (prune_detached o key) flight loose extra.
Proof.
  intros Hi. unfold prune_detached. destruct (observers o !! key) as [so|]; [|by split; [|apply grows_refl]].
  match goal with |- after [] o (release_detached_all ?x _) _ _ _ => set (o1 := x) end.
  assert (inv o1 flight loose extra) as H1 by (by eapply observers_inv_same).
  eapply after_quiet; [|apply release_detached_all_after; [exact H1|apply (inactive_filtered o)]].
  split; [exact H1|]. split; [done|]. exact (proj2 (grows_refl [] o)).
Qed.

(** ** Reserving *)

Lemma acquire_Ok s n s' :
  try_acquire_many s n = Ok s' -> available s' = available s - n /\ n <= available s.
Proof.
  intros H. destruct (sem_closed s) eqn:Hc; [by rewrite acquire_closed in H|].
  destruct (Z.le_gt_cases n (available s)) as [Hle|Hgt].
  - destruct (acquire_ok s n Hc Hle) as (s1 & H1 & Ha & _). rewrite H in H1. by simplify_eq.
  - by rewrite acquire_empty in H.
Qed.

Lemma checked_bytes_Ok c payload n : checked_bytes c payload = Ok n -> n = Z.max payload 1.
Proof. unfold checked_bytes. by repeat case_match; intros; simplify_eq. Qed.

Lemma lane_of_cap reg lane : lane_cap reg (uses_urgent reg lane) = Some (lane_of reg lane).
Proof. unfold lane_cap, uses_urgent, lane_of. destruct lane; [done|]. by destruct (urgent_lane reg). Qed.

(** A new owner of a share. *)
Lemma clone_share_ok o o' f g s :
  shares_ok o f -> 0 < f s -> (forall s', g s' = f s' + names s' s) -> shares o' = shares (clone_share o s) ->
  cap_bytes (global o') = cap_bytes (global o) -> cap_max_bytes (global o') = cap_max_bytes (global o) ->
  shares_ok o' g.
Proof.
  intros (Hb & Hf & Hs) Hpos Hg Hsh Hcb Hcm. unfold shares_ok. rewrite Hsh, Hcb, Hcm. pose proof (Hs s) as H0.
  destruct (shares o !! s) as [[k b]|] eqn:Hk; [|lia]. unfold clone_share. simpl.
  rewrite (alter_as_insert _ _ _ (fun '(n, bytes) => (S n, bytes)) Hk). split_and!; [|done|].
  - rewrite share_total_insert. rewrite (share_total_lookup _ _ _ Hk) in Hb. exact Hb.
  - intros s'. specialize (Hs s'). rewrite Hg. unfold names. destruct (decide (s = s')) as [<-|Hne].
    + rewrite lookup_insert_eq, bool_decide_eq_true_2 by done. lia.
    + rewrite lookup_insert_ne, bool_decide_eq_false_2 by congruence. by rewrite Z.add_0_r.
Qed.

Lemma acquire_lane_after o flight loose extra r payload lane share o' dc :
  inv o flight (1 + loose) (share :: extra) -> acquire_lane o r payload lane share = (o', Ok dc) ->
  inv (clone_share o' share) ((r, dc) :: flight) loose (share :: extra) /\
  besides o (clone_share o' share) /\ dc_bytes dc = Z.max payload 1.
Proof.
  intros [[Hi Hf Hs Hl Hh] Hreg] Hacq. unfold acquire_lane in Hacq.
  destruct (regs o !! r) as [reg|] eqn:Hr; [|done]. pose proof (lane_of_cap reg lane) as Hlane.
  set (c0 := lane_of reg lane) in *. set (u := uses_urgent reg lane) in *.
  destruct (try_acquire_many (cap_items c0) 1) as [items|] eqn:H1; [|done].
  destruct (checked_bytes c0 payload) as [n|] eqn:Hb; [|done].
  destruct (try_acquire_many (cap_bytes c0) n) as [bytes|] eqn:H2; [|done]. injection Hacq as <- <-.
  apply acquire_Ok in H1 as [Ai Li], H2 as [Ab Lb]. apply checked_bytes_Ok in Hb as Hn.
  set (f := fun c : Capacity => c <| cap_items := items; cap_bytes := bytes |>).
  set (dc := mkDeliveryCapacity u n share).
  assert (<[r := update_lane u f reg]> (regs o) = alter (update_lane u f) r (regs o)) as Halter
    by (symmetry; by apply alter_as_insert).
  assert (store_live (<[r := update_lane u f reg]> (regs o)) ≡ₚ store_live (regs o)) as Hlive.
  { rewrite Halter. apply alter_live. intros. apply update_lane_live. }
  assert (store_live (<[r := update_lane u f reg]> (regs o)) ++ (r, dc) :: flight ≡ₚ
    (r, dc) :: store_live (regs o) ++ flight) as Hp by (rewrite Hlive; by rewrite <- Permutation_middle).
  match goal with |- inv ?x _ _ _ /\ _ => set (o1 := x) end.
  assert (regs o1 = <[r := update_lane u f reg]> (regs o)) as Hregs by reflexivity.
  assert (besides o o1) as Hbes.
  { split_and!; [done|done|]. rewrite Hregs. intros r1 reg1 Hr1. destruct (decide (r = r1)) as [<-|Hne].
    - rewrite lookup_insert_eq. simplify_eq. eexists. split; [done|]. by destruct u.
    - rewrite lookup_insert_ne by done. by exists reg1. }
  split_and!; [split; [split|]|done|done]; rewrite ?Hregs.
  - rewrite Hp. simpl. lia.
  - done.
  - eapply clone_share_ok; [exact Hs|apply owners_pos| |done|done|done]. intros s. simpl.
    rewrite (weigh_proper (owns s) _ _ Hp), weigh_cons. unfold owns at 1, names. simpl. lia.
  - intros r1 reg1 u1 c Hr1 Hc. destruct (lane_own r dc) as [Ho1 Ho2]. rewrite Halter in Hr1.
    unfold lane_ok. rewrite !(weigh_proper _ _ _ Hp).
    eapply (lanes_change (regs o) r u f (-1) (- n) (store_live (regs o) ++ flight)
      ((r, dc) :: store_live (regs o) ++ flight)); [exact Hl| | | |exact Hr1|exact Hc].
    + intros c1 reg2 Hr2 Hc1. assert (c1 = c0) as -> by congruence. simpl. split_and!; done || lia.
    + rewrite !weigh_cons. change u with (dc_urgent dc). rewrite Ho1, Ho2. simpl. lia.
    + intros r2 u2 Hne. rewrite !weigh_cons. destruct (lane_other r dc r2 u2 Hne) as [-> ->]. lia.
  - intros r1 dc1 Hin. rewrite Hp in Hin. apply elem_of_cons in Hin as [Heq|Hin].
    + injection Heq as -> ->. split; [simpl; lia|]. rewrite lookup_insert_eq. eexists. split; [done|].
      rewrite update_lane_cap. simpl. rewrite eqb_reflx, Hlane. by eexists.
    + destruct (Hh _ _ Hin) as (? & reg1 & Hr1 & Hc). split; [done|].
      destruct (decide (r = r1)) as [<-|Hne].
      * rewrite lookup_insert_eq. eexists. split; [done|]. simplify_eq. rewrite update_lane_cap.
        destruct (eqb _ _); [by apply fmap_is_Some|done].
      * rewrite lookup_insert_ne by done. by exists reg1.
  - rewrite Halter. apply alter_inv; [done|]. intros reg1 Hreg1. by apply update_lane_inv.
Qed.

(** A delivery that was made after [o]: its identifier is new. *)
Definition made_since (o o' : TaskObservers) (bytes : Z) (d : RegId * Z) : Prop :=
  delivery_ok o' bytes d /\ forall reg, regs o !! d.1 = Some reg -> next_id reg <= d.2.

Lemma retain_after o flight loose extra r dc o' res :
  inv o ((r, dc) :: flight) loose extra -> retain o r dc = (o', res) ->
  after [] o o' flight loose extra /\
  match res with Ok (Some id) => made_since o o' (dc_bytes dc) (r, id) | _ => True end.
Proof.
  intros Hi. unfold retain.
  assert (after [] o (release_delivery o r dc) flight loose extra) as Hrel.
  { by apply (release_all_after o flight loose extra r [dc]). }
  destruct (regs o !! r) as [reg|] eqn:Hr; [|by intros [= <- <-]].
  destruct (reg_closed reg || negb (eactive (stream reg))) eqn:Hc; [by intros [= <- <-]|].
  destruct (checked_add u64_max (next_id reg) 1) as [next|] eqn:Hn; [|by intros [= <- <-]].
  intros [= <- <-]. apply checked_add_Some in Hn as [-> _]. apply orb_false_iff in Hc as [Hc Ha%negb_false_iff].
  pose proof (proj2 Hi _ _ Hr) as Hreg.
  assert (cells reg !! next_id reg = None) as Hnew.
  { apply not_elem_of_dom. rewrite (rv_cells _ Hreg). intros Hx%(rv_ids _ Hreg). lia. }
  split.
  - eapply swap_after; try done.
    + destruct Hreg. split; simpl; try done; try congruence.
      * by rewrite dom_insert_L, rv_cells0.
      * intros id [->%elem_of_singleton|Hin]%elem_of_union; [lia|]. specialize (rv_ids0 _ Hin). lia.
      * intros Hs. destruct (rv_ended0 Hs) as [[? _]|?]; [congruence|by right].
    + unfold reg_live. simpl. rewrite (map_to_list_insert _ _ _ Hnew). simpl. rewrite !fmap_app. simpl.
      rewrite <- !(assoc_L (++)). simpl. apply Permutation_app_head. by rewrite Permutation_middle.
    + split; simpl; try done; [lia| | |].
      * intros id dc1 Hid Hc1. by rewrite lookup_insert_ne in Hc1 by lia.
      * intros id _ _ [dc1 Hc1]. exists dc1. rewrite lookup_insert_ne; [done|]. congruence.
      * unfold drained_out. by rewrite Hc.
  - split; simpl.
    + unfold delivery_ok. simpl. rewrite lookup_insert_eq. eexists.
      split_and!; [reflexivity|simpl; lia| |]; simpl; rewrite lookup_insert_eq; [|by eexists].
      by intros dc1 [= <-].
    + intros reg1 Hr1. simplify_eq. lia.
Qed.

Lemma made_since_grows o0 o1 o2 bytes d gone :
  made_since o0 o1 bytes d -> grows gone o1 o2 -> d ∉ gone -> made_since o0 o2 bytes d.
Proof. intros [Hd Hn] Hg Hnot. split; [by eapply delivery_ok_grows|done]. Qed.

Lemma made_since_earlier o0 o1 o2 bytes d gone :
  grows gone o0 o1 -> made_since o1 o2 bytes d -> made_since o0 o2 bytes d.
Proof.
  intros [_ Hg] [Hd Hn]. split; [done|]. intros reg Hr. destruct (Hg _ _ Hr) as (reg1 & Hr1 & []).
  specialize (Hn _ Hr1). lia.
Qed.

Lemma acquire_lane_Err o r payload lane share o' error :
  acquire_lane o r payload lane share = (o', Err error) -> o' = o.
Proof. unfold acquire_lane. by repeat case_match; intros; simplify_eq. Qed.

Lemma reserve_deliveries_after payload lane share rs : forall o flight loose extra made o' made' rest res,
  inv o flight (Z.of_nat (length rs) + loose) (share :: extra) ->
  reserve_deliveries o rs payload lane share made = (o', made', rest, res) ->
  after [] o o' flight (Z.of_nat (length rest) + loose) (share :: extra) /\
  observers o' = observers o /\
  exists new, made' = made ++ new /\ new.*1 `sublist_of` rs /\
    Forall (made_since o o' (Z.max payload 1)) new.
Proof.
  induction rs as [|r rs IH]; intros o flight loose extra made o' made' rest res Hi.
  { intros [= <- <- <- <-]. split_and!; [by split; [|apply grows_refl]|done|].
    exists []. by rewrite app_nil_r. }
  cbn [reserve_deliveries]. destruct (acquire_lane o r payload lane share) as [o1 [dc|error]] eqn:Hacq.
  2: { apply acquire_lane_Err in Hacq as ->. intros [= <- <- <- <-].
       split_and!; [by split; [|apply grows_refl]|done|]. exists []. rewrite app_nil_r. split_and!; [done| |done].
       apply sublist_nil_l. }
  destruct (acquire_lane_after o flight (Z.of_nat (length rs) + loose) extra r payload lane share o1 dc)
    as (H1 & Hb & Hdc); [|done|].
  { cbn [length] in Hi. rewrite Nat2Z.inj_succ in Hi. by replace (1 + (Z.of_nat (length rs) + loose))
      with (Z.succ (Z.of_nat (length rs)) + loose) by lia. }
  destruct (retain (clone_share o1 share) r dc) as [o2 retained] eqn:Hret.
  destruct (retain_after _ _ _ _ _ _ _ _ H1 Hret) as [H2 Hmade].
  assert (observers o2 = observers o) as Hobs.
  { destruct Hb as (_ & <- & _). unfold retain in Hret. repeat case_match; simplify_eq; try done;
      apply release_delivery_besides. }
  assert (after [] o o2 flight (Z.of_nat (length rs) + loose) (share :: extra)) as H3.
  { eapply after_quiet; [split; [exact H1|by apply besides_grows]|done]. }
  destruct retained as [[id|]|error].
  - intros Hrun. destruct (IH _ _ _ _ _ _ _ _ _ (proj1 H3) Hrun) as (H4 & Ho & new & -> & Hsub & Hnew).
    split_and!; [by eapply after_quiet|congruence|]. exists ((r, id) :: new). rewrite <- (assoc_L (++)).
    split_and!; [done|simpl; by apply sublist_skip|]. constructor.
    + rewrite Hdc in Hmade. eapply made_since_earlier; [by apply besides_grows|].
      eapply made_since_grows; [exact Hmade|apply H4|by intros ?%elem_of_nil].
    + eapply Forall_impl; [exact Hnew|]. intros d Hd. eapply made_since_earlier; [apply H3|done].
  - intros Hrun. destruct (IH _ _ _ _ _ _ _ _ _ (proj1 H3) Hrun) as (H4 & Ho & new & -> & Hsub & Hnew).
    split_and!; [by eapply after_quiet|congruence|]. exists new.
    split_and!; [done|by apply sublist_cons|].
    eapply Forall_impl; [exact Hnew|]. intros d Hd. eapply made_since_earlier; [apply H3|done].
  - intros [= <- <- <- <-]. split_and!; [done|done|]. exists []. rewrite app_nil_r.
    split_and!; [done|apply sublist_nil_l|done].
Qed.

(** The shared byte permit of a new reservation. *)
Lemma share_new_inv o flight loose extra share bytes left_bytes :
  inv o flight loose extra -> shares o !! share = None -> 1 <= bytes ->
  try_acquire_many (cap_bytes (global o)) bytes = Ok left_bytes ->
  inv (o <| global ::= fun c => c <| cap_bytes := left_bytes |>; shares ::= <[share := (1%nat, bytes)]> |>)
    flight loose (share :: extra).
Proof.
  intros [[Hi Hf (Hb & Hfb & Hs) Hl Hh] Hr] Hnew Hpos Hacq. apply acquire_Ok in Hacq as [Ha Hle].
  split; [|done]. split; try done. split_and!; simpl.
  - rewrite share_total_insert, delete_id by done. simpl. lia.
  - lia.
  - intros s. pose proof (Hs s) as H0. rewrite weigh_cons. destruct (decide (share = s)) as [<-|Hne].
    + assert (names share share = 1) as -> by (unfold names; by rewrite bool_decide_eq_true_2).
      rewrite lookup_insert_eq. rewrite Hnew in H0. split_and!; lia.
    + assert (names s share = 0) as -> by (unfold names; by rewrite bool_decide_eq_false_2).
      rewrite lookup_insert_ne by done. by rewrite Z.add_0_l.
Qed.

Lemma items_taken_inv o flight loose extra count left_items :
  inv o flight loose extra -> try_acquire_many (cap_items (global o)) count = Ok left_items ->
  inv (o <| global ::= fun c => c <| cap_items := left_items |> |>) flight (count + loose) extra.
Proof.
  intros [[Hi Hf Hs Hl Hh] Hr] Hacq. apply acquire_Ok in Hacq as [Ha Hle]. split; [|done].
  split; try done; simpl; lia.
Qed.

(** Deliveries of before are not touched by a call that only drops its own. *)
Definition only_new (o : TaskObservers) (gone : list (RegId * Z)) : Prop :=
  Forall (fun d => forall reg, regs o !! d.1 = Some reg -> next_id reg <= d.2) gone.

Lemma only_new_nil o : only_new o [].
Proof. constructor. Qed.

Ltac nothing_new := exists []; split_and!; [done|apply only_new_nil|done..].

Lemma same_regs_after o o' flight loose extra :
  inv o' flight loose extra -> regs o' = regs o -> fixed o o' -> after [] o o' flight loose extra.
Proof. intros Hi Hr Hp. split; [done|]. split; [done|]. rewrite Hr. apply grows_refl. Qed.

Lemma try_reserve_active_after submit o key rs payload lane share o' res :
  inv o [] 0 [] -> shares o !! share = None ->
  try_reserve_active submit o key rs payload lane share = (o', res) ->
  exists gone, after gone o o' [] 0 [] /\ only_new o gone /\
  match res with
  | Ok r => gone = [] /\ res_payload r = payload /\ res_lane r = lane /\ (deliveries r).*1 `sublist_of` rs /\
      Forall (made_since o o' (Z.max payload 1)) (deliveries r)
  | Err _ => True
  end.
Proof.
  intros Hi Hnew. unfold try_reserve_active.
  assert (after [] o o [] 0 []) as Hrefl by (split; [done|apply grows_refl]).
  destruct (is_none_or _ _); [intros [= <- <-]; nothing_new|].
  case_bool_decide as Hnil.
  { intros [= <- <-]. exists []. split_and!; try done; [apply only_new_nil|]. subst. constructor. }
  destruct (recipient_count _ _) as [count|] eqn:Hcount; simpl; [|intros [= <- <-]; nothing_new].
  destruct (checked_bytes (global o) payload) as [bytes|] eqn:Hbytes; simpl; [|intros [= <- <-]; nothing_new].
  destruct (check_lanes _ _ _ _); simpl; [|intros [= <- <-]; nothing_new].
  assert (count = Z.of_nat (length rs)) as -> by (unfold recipient_count in Hcount; by repeat case_match; simplify_eq).
  apply checked_bytes_Ok in Hbytes.
  destruct (try_acquire_many (cap_bytes (global o)) bytes) as [left_bytes|] eqn:Hacq; simpl; [|intros [= <- <-]; nothing_new].
  pose proof (share_new_inv o [] 0 [] share bytes left_bytes Hi Hnew ltac:(lia) Hacq) as H1.
  destruct (try_acquire_many _ (Z.of_nat (length rs))) as [left_items|] eqn:Hitems.
  2: { intros [= <- <-]. exists []. split_and!; [|apply only_new_nil|done].
       match goal with |- after _ _ (drop_share ?x share) _ _ _ => set (o1 := x) end.
       destruct (drop_share_beside o1 share) as (Hr & _ & Hp & _ & _ & Hm & Hb).
       apply same_regs_after; [exact (drop_share_inv o1 [] 0 [] share H1)|exact Hr|].
       split_and!; [exact Hp|exact Hm|exact Hb]. }
  pose proof (items_taken_inv _ [] 0 [share] _ left_items H1 Hitems) as H2.
  match goal with |- context [reserve_deliveries ?x rs] => set (o2 := x) end.
  assert (inv o2 [] (Z.of_nat (length rs) + 0) [share]) as H2' by exact H2. clear H2.
  assert (regs o2 = regs o /\ fixed o o2) as [Hregs2 Hpl2] by done. clearbody o2.
  destruct (reserve_deliveries o2 rs payload lane share []) as [[[o3 made] rest] result] eqn:Hrun.
  destruct (reserve_deliveries_after _ _ _ _ _ _ _ _ _ _ _ _ _ H2' Hrun) as (H3 & _ & new & -> & Hsub & Hmade).
  simpl in *. set (o4 := drop_share (release_global_items o3 (Z.of_nat (length rest))) share).
  assert (inv o4 [] 0 []) as H4 by (apply drop_share_inv, release_items_inv; [lia|apply H3]).
  destruct (drop_share_beside (release_global_items o3 (Z.of_nat (length rest))) share) as (Hr4 & _ & Hp4 & _ & _ & Hm4 & Hb4).
  assert (after [] o2 o4 [] 0 []) as H5.
  { split; [done|]. destruct H3 as [_ [Hp3 Hg3]].
    split; [unfold o4, fixed in *; by rewrite Hp4, Hm4, Hb4|].
    intros r reg Hr. destruct (Hg3 _ _ Hr) as (reg' & ? & ?). exists reg'. unfold o4. by rewrite Hr4. }
  assert (after [] o o4 [] 0 []) as H6.
  { destruct H5 as [? [(? & ? & ?) Hg5]], Hpl2 as (? & ? & ?). split; [done|].
    split; [split_and!; congruence|]. by rewrite Hregs2 in Hg5. }
  assert (Forall (made_since o o4 (Z.max payload 1)) new) as Hnew4.
  { eapply Forall_impl; [exact Hmade|]. intros d [(reg & Hr & Hd) Hn]. rewrite Hregs2 in Hn. split; [|done].
    exists reg. unfold o4. by rewrite Hr4. }
  assert (only_new o new) as Honly by (eapply Forall_impl; [exact Hnew4|]; by intros d [_ ?]).
  assert (after new o (drop_deliveries submit o4 new) [] 0 []) as H7.
  { apply (after_trans [] new _ _ _ _ _ _ _ _ _ H6). by apply drop_deliveries_after. }
  intros Heq. repeat case_match; simplify_eq; simpl;
    solve [exists new; split_and!; [exact H7|exact Honly|done]
          |exists []; split_and!; [exact H6|apply only_new_nil|done|done|done|done|exact Hnew4]].
Qed.

(** ** Subscribing *)

(** Sizes are unsigned. *)
Definition unsigned_options (options : TaskEventOptions) : Prop :=
  0 <= max_tasks options /\ 0 <= max_payload_bytes options /\
  match urgent_reserve options with Some u => 0 <= max_items u /\ 0 <= lim_max_bytes u | None => True end.

(** A capacity of which nothing is taken. *)
Definition untouched (c : Capacity) : Prop :=
  available (cap_items c) = cap_max_items c /\ available (cap_bytes c) = cap_max_bytes c /\
  0 <= cap_max_items c /\ 0 <= cap_max_bytes c.

Lemma capacity_lanes_Ok options ordinary urgent :
  unsigned_options options -> capacity_lanes options = Ok (ordinary, urgent) ->
  untouched ordinary /\ (forall c, urgent = Some c -> untouched c) /\
  cap_max_items ordinary + match urgent with Some c => cap_max_items c | None => 0 end = max_tasks options /\
  cap_max_bytes ordinary + match urgent with Some c => cap_max_bytes c | None => 0 end = max_payload_bytes options.
Proof.
  intros (Ht & Hp & Hu). unfold capacity_lanes. destruct (urgent_reserve options) as [l|].
  - destruct (checked_sub (max_tasks options) _) as [items|] eqn:E1; simpl; [|done].
    destruct (checked_sub (max_payload_bytes options) _) as [bytes|] eqn:E2; simpl; [|done]. intros [= <- <-].
    apply checked_sub_Some in E1 as [-> ?], E2 as [-> ?]. unfold untouched. simpl. rewrite !new_available.
    split_and!; try lia. intros c [= <-]. simpl. rewrite !new_available. lia.
  - intros [= <- <-]. unfold untouched. simpl. rewrite !new_available. split_and!; try lia. done.
Qed.

Lemma new_registration_inv max_permits reserve options publisher stream stream' ordinary urgent :
  unsigned_options options ->
  event_channel max_permits reserve (mkEventQueueLimit (max_tasks options) (max_payload_bytes options))
    EventOverflow.Wait true = Ok (publisher, stream) ->
  capacity_lanes options = Ok (ordinary, urgent) -> on_receiver_closed stream = (stream', Ok tt) ->
  reg_inv (mkRegistration publisher stream' ordinary urgent false 0 ∅ ∅) /\ equeue stream' = [].
Proof.
  intros Hu Hch Hl Hc. destruct (capacity_lanes_Ok _ _ _ Hu Hl) as (_ & _ & Hi & Hb). destruct Hu as (H1 & H2 & _).
  destruct (channel_valid _ _ (mkEventQueueLimit (max_tasks options) (max_payload_bytes options)) _ _ _ _ H1 H2 Hch)
    as [Hv ->].
  assert (publisher = mkEventRegistration (mkEventQueueLimit (max_tasks options) (max_payload_bytes options))
    EventOverflow.Wait) as -> by (unfold event_channel in Hch; by repeat case_match; simplify_eq).
  injection Hc as <-. split; [|done]. destruct Hv as [Hv1 Hv2]. simpl in Hv1, Hv2. split; simpl; try done.
Qed.

(** A new registration holds nothing, and nothing is held in its lanes. *)
Lemma add_registration o loose r reg :
  inv o [] loose [] -> regs o !! r = None -> reg_inv reg -> reg_live reg = [] ->
  (forall u c, lane_cap reg u = Some c -> untouched c) ->
  inv (o <| regs ::= <[r := reg]> |>) [] loose [].
Proof.
  intros [[Hi Hf Hs Hl Hh] Hr] Hnew Hreg Hlive Hlanes.
  assert (store_live (<[r := reg]> (regs o)) ≡ₚ store_live (regs o)) as Hp.
  { rewrite store_live_insert, Hlive, delete_id by done. done. }
  rewrite app_nil_r in *.
  assert (forall u, weigh (lane_items r u) (store_live (regs o)) = 0 /\ weigh (lane_bytes r u) (store_live (regs o)) = 0) as Hnone.
  { intros u. assert (Forall (fun p => in_lane r u p = false) (store_live (regs o))) as Hall.
    { apply Forall_forall. intros [r1 dc] Hin. destruct (Hh _ _ Hin) as (_ & reg1 & Hr1 & _).
      unfold in_lane. simpl. rewrite bool_decide_eq_false_2; [done|]. congruence. }
    clear -Hall. induction Hall as [|p L Hx _ [IH1 IH2]]; [done|]. rewrite !weigh_cons, IH1, IH2.
    unfold lane_items, lane_bytes. by rewrite Hx. }
  split; [split|]; simpl; rewrite ?app_nil_r.
  - by rewrite Hp.
  - done.
  - eapply shares_ok_ext; [exact Hs| |done|done|done]. intros s. simpl. by rewrite (weigh_proper (owns s) _ _ Hp).
  - intros r1 reg1 u c Hr1 Hc. unfold lane_ok. rewrite !(weigh_proper _ _ _ Hp).
    destruct (decide (r = r1)) as [<-|Hne].
    + rewrite lookup_insert_eq in Hr1. injection Hr1 as <-. destruct (Hnone u) as [-> ->].
      destruct (Hlanes u c Hc) as (? & ? & ? & ?). lia.
    + rewrite lookup_insert_ne in Hr1 by done. by eapply Hl.
  - intros r1 dc Hin. rewrite Hp in Hin. destruct (Hh _ _ Hin) as (? & reg1 & Hr1 & ?). split; [done|].
    exists reg1. rewrite lookup_insert_ne; [done|]. congruence.
  - intros r1 reg1. destruct (decide (r = r1)) as [<-|Hne].
    + rewrite lookup_insert_eq. by intros [= <-].
    + rewrite lookup_insert_ne by done. apply Hr.
Qed.

Lemma prune_none o key r : regs o !! r = None -> regs (prune_detached o key) !! r = None.
Proof.
  intros Hn. unfold prune_detached. destruct (observers o !! key) as [so|]; [|done].
  match goal with |- regs (release_detached_all ?x ?l) !! _ = _ => generalize l; set (o1 := x) end.
  assert (regs o1 !! r = None) as H1 by done. clearbody o1. intros l. revert o1 H1.
  induction l as [|r1 l IH]; intros o1 H1; simpl; [done|]. apply IH. unfold release_detached.
  destruct (regs o1 !! r1) as [reg1|] eqn:Hr1; [|done]. apply release_all_none. simpl.
  rewrite lookup_insert_ne; [done|]. congruence.
Qed.

Lemma subscribe_after max_permits reserve o key options r :
  inv o [] 0 [] -> unsigned_options options -> regs o !! r = None ->
  after [] o (subscribe max_permits reserve o key options r).1 [] 0 [].
Proof.
  intros Hi Hu Hnew. unfold subscribe. assert (after [] o o [] 0 []) as Hrefl by (split; [done|apply grows_refl]).
  destruct (task_options_validate _ _); [|done]. pose proof (prune_after o key _ _ _ Hi) as H1.
  pose proof (prune_none o key r Hnew) as Hn. set (o1 := prune_detached o key) in *.
  destruct (observers o1 !! key) as [so|]; [|done]. destruct (so_cancelled so); [done|].
  destruct (try_acquire_many _ 1) as [slots|]; [|done].
  destruct (event_channel _ _ _ _ _) as [[publisher stream]|] eqn:Hch; [|done].
  destruct (capacity_lanes options) as [[ordinary urgent]|] eqn:Hl; [|done].
  destruct (on_receiver_closed stream) as [stream' [[]|]] eqn:Hc; [|done]. destruct (so_closed so); [done|].
  destruct (new_registration_inv _ _ _ _ _ _ _ _ Hu Hch Hl Hc) as [Hreg Hq].
  destruct (capacity_lanes_Ok _ _ _ Hu Hl) as (Ho & Hur & _). cbn [fst].
  set (reg := mkRegistration publisher stream' ordinary urgent false 0 ∅ ∅) in *.
  assert (inv (o1 <| regs ::= <[r := reg]> |>) [] 0 []) as H2.
  { apply add_registration; [apply H1|done|done| |].
    - unfold reg_live. simpl. by rewrite Hq, map_to_list_empty.
    - intros [|] c; simpl; [apply Hur|by intros [= <-]]. }
  eapply after_quiet; [exact H1|]. split; [by eapply observers_inv_same|]. split; [done|]. intros r1 reg1 Hr1. exists reg1.
  simpl. rewrite lookup_insert_ne by congruence. split; [done|apply evolves_refl].
Qed.

(** ** Closing and consuming *)

Lemma close_registration_after submit o flight loose extra r :
  inv o flight loose extra -> after [] o (close_registration submit o r) flight loose extra.
Proof.
  intros Hi. unfold close_registration. destruct (regs o !! r) as [reg|] eqn:Hr; [|by split; [|apply grows_refl]].
  pose proof (proj2 Hi _ _ Hr) as Hreg.
  assert (after [] o (o <| regs := <[r := reg <| reg_closed := true |>]> (regs o) |>) flight loose extra) as H1.
  { eapply swap_after; try done.
    - destruct Hreg. split; simpl; try done.
      + intros Ha. split; [done|]. by apply rv_dead0.
      + intros Hs. destruct (rv_ended0 Hs) as [[_ ?]|?]; [by left|by right].
    - split; simpl; try done. unfold drained_out. simpl. by intros [_ ?]%andb_true_iff. }
  case_bool_decide as Hres; [|exact H1]. eapply after_quiet; [exact H1|]. apply end_source_after; [apply H1|].
  intros _ reg1. simpl. rewrite lookup_insert_eq. intros [= <-]. unfold drained_out. simpl.
  by rewrite bool_decide_eq_true_2.
Qed.

Lemma close_registrations_after submit rs : forall o flight loose extra,
  inv o flight loose extra -> after [] o (close_registrations submit o rs) flight loose extra.
Proof.
  induction rs as [|r rs IH]; intros o flight loose extra Hi; simpl; [by split; [|apply grows_refl]|].
  pose proof (close_registration_after submit _ _ _ _ r Hi) as H1. eapply after_quiet; [exact H1|]. apply IH, H1.
Qed.

Lemma take_item_after o flight loose extra r :
  inv o flight loose extra -> after [] o (take_item o r) flight loose extra.
Proof.
  intros Hi. unfold take_item. destruct (regs o !! r) as [reg|] eqn:Hr; [|by split; [|apply grows_refl]].
  pose proof (proj2 Hi _ _ Hr) as Hreg. destruct (event_next (stream reg)) as [s d] eqn:Hn.
  assert ((exists entry, d = DItem (Ok entry) /\ equeue (stream reg) = entry :: equeue s /\
      ebytes s = ebytes (stream reg) - entry_bytes entry /\ lagged s = lagged (stream reg) /\
      eactive s = eactive (stream reg) /\ pristine s = false /\ detach_hook s = detach_hook (stream reg) /\
      final_error s = final_error (stream reg) /\ source_closed s = source_closed (stream reg)) \/
    (forall entry, d <> DItem (Ok entry)) /\ stream_quiet reg s) as [(entry & -> & Hq & Hb & Hl & Ha & Hp & Hh & Hf & Hc)|[Hd Hs]].
  { pose proof (stream_quiet_refl _ Hreg) as []. unfold event_next in Hn. simpl in Hn.
    destruct (eactive (stream reg)) eqn:Ha; simpl in Hn; [|injection Hn as <- <-; right; split; [done|]; split; simpl; try done; by left].
    destruct (lagged (stream reg) =? 0) eqn:El; simpl in Hn.
    2: { injection Hn as <- <-. right. split; [done|]. split; simpl; try done. by right. }
    destruct (equeue (stream reg)) as [|e q] eqn:Hq.
    - right. destruct (pending_error (stream reg)) as [error|].
      + injection Hn as <- <-. split; [done|]. split; simpl; rewrite ?Hq; try done; by left.
      + injection Hn as <- <-. split; [by destruct (source_closed (stream reg))|].
        split; simpl; rewrite ?Hq; try done; by left.
    - left. injection Hn as <- <-. exists e. done. }
  - pose proof (rv_entries _ Hreg) as Hent. rewrite Hq in Hent. apply Forall_cons in Hent as [(dc & He & Hbytes) Hent].
    rewrite (set_stream_insert _ _ _ _ Hr).
    assert (after [] o (o <| regs := <[r := reg <| stream := s |>]> (regs o) |>) ((pair r <$> [dc]) ++ flight) loose extra) as H1.
    { eapply swap_after; try done.
      - destruct Hreg. split; simpl; try done; try congruence.
        + destruct rv_queue0 as [Q1 Q2 Q3 Q4 Q5 Q6 Q7]. rewrite Hq in Q1, Q2, Q4, Q6. rewrite queue_bytes_cons in Q2.
          apply Forall_cons in Q4 as [? ?]. cbn [length] in Q1.
          split; rewrite ?Hb, ?Hl, ?Ha; try done; try lia; try congruence.
          intros Hx. by specialize (Q6 Hx).
        + by rewrite Ha.
        + rewrite Hc, Hf. done.
        + rewrite Ha, Hc, Hf. done.
      - unfold reg_live. simpl. rewrite Hq. csimpl. rewrite He. csimpl. by rewrite <- Permutation_middle.
      - split; simpl; try done. by rewrite Ha. }
    eapply after_quiet; [exact H1|]. unfold release_entries. csimpl. rewrite He. apply release_all_after, H1.
  - pose proof (quiet_after _ _ _ _ _ _ _ Hi Hr Hs) as H1.
    destruct d as [[entry|error]| |]; [by destruct (Hd entry)|exact H1| |exact H1].
    eapply after_quiet; [exact H1|]. apply detach_receiver_after, H1.
Qed.

Lemma alter_stream_set o r reg f :
  regs o !! r = Some reg ->
  o <| regs ::= alter (fun reg => reg <| stream ::= f |>) r |> = set_stream o r (f (stream reg)).
Proof.
  intros Hr. rewrite (set_stream_insert _ _ _ _ Hr). destruct o. simpl in *. f_equal.
  exact (alter_as_insert _ _ _ (fun reg => reg <| stream ::= f |>) Hr).
Qed.

Lemma local_after o flight loose extra r f :
  inv o flight loose extra -> (forall reg, reg_inv reg -> stream_quiet reg (f (stream reg))) ->
  after [] o (o <| regs ::= alter (fun reg => reg <| stream ::= f |>) r |>) flight loose extra.
Proof.
  intros Hi Hf. destruct (regs o !! r) as [reg|] eqn:Hr.
  - rewrite (alter_stream_set _ _ _ _ Hr). eapply quiet_after; [done|done|]. apply Hf. by eapply (proj2 Hi).
  - assert (alter (fun reg => reg <| stream ::= f |>) r (regs o) = regs o) as Heq
      by (apply alter_id; intros x; by rewrite Hr).
    apply same_regs_after; [by eapply observers_inv_same|done|done].
Qed.

Lemma consumer_after o flight loose extra r op :
  inv o flight loose extra -> after [] o (consumer_step o r op) flight loose extra.
Proof.
  intros Hi. destruct op; cbn [consumer_step].
  - by apply take_item_after.
  - by apply detach_receiver_after.
  - apply (local_after _ _ _ _ _ (fun s => (install_begin ready s).1) Hi). intros reg Hreg.
    destruct (stream_quiet_refl _ Hreg). unfold install_begin. repeat case_match; split; simpl; try done; by left.
  - apply (local_after _ _ _ _ _ (fun s => (install_end s error).1) Hi). intros reg Hreg.
    destruct (stream_quiet_refl _ Hreg). unfold install_end. repeat case_match; split; simpl; try done; by left.
  - by apply schedule_receiver_after.
  - apply (local_after _ _ _ _ _ (fun s => (run_start s).1) Hi). intros reg Hreg.
    destruct (stream_quiet_refl _ Hreg). unfold run_start. repeat case_match; split; simpl; try done; by left.
  - apply (local_after _ _ _ _ _ finish_run Hi). intros reg Hreg.
    destruct (stream_quiet_refl _ Hreg). split; simpl; try done; by left.
  - by apply fail_receiver_after.
Qed.

(** ** What operations hold *)

Record pledged (o : TaskObservers) : Prop := {
  pd_ok id res d : pledges o !! id = Some res -> d ∈ deliveries res ->
    delivery_ok o (Z.max (res_payload res) 1) d;
  pd_nodup id res : pledges o !! id = Some res -> NoDup (deliveries res).*1;
  pd_once id1 id2 res1 res2 d : pledges o !! id1 = Some res1 -> pledges o !! id2 = Some res2 ->
    d ∈ deliveries res1 -> d ∈ deliveries res2 -> id1 = id2;
}.

Lemma pledged_grows gone o o' :
  pledged o -> grows gone o o' ->
  (forall id res d, pledges o !! id = Some res -> d ∈ deliveries res -> d ∉ gone) -> pledged o'.
Proof.
  intros [] Hg Hd. pose proof Hg as [(Hp & _) _]. split; rewrite Hp; [|done|done]. intros id res d Hid Hin.
  eapply delivery_ok_grows; [by eapply pd_ok0|done|by eapply Hd].
Qed.

Lemma pledged_quiet o o' : pledged o -> grows [] o o' -> pledged o'.
Proof. intros Hp Hg. eapply pledged_grows; [done|done|]. intros. by intros ?%elem_of_nil. Qed.

Lemma only_new_pledged o gone id res d :
  pledged o -> only_new o gone -> pledges o !! id = Some res -> d ∈ deliveries res -> d ∉ gone.
Proof.
  intros [] Hn Hid Hd Hin. destruct (pd_ok0 _ _ _ Hid Hd) as (reg & Hr & Hlt & _).
  eapply Forall_forall in Hn; [|exact Hin]. specialize (Hn _ Hr). lia.
Qed.

(** Taking a reservation out. *)
Lemma pledged_delete o id res :
  pledged o -> pledges o !! id = Some res ->
  pledged (o <| pledges ::= delete id |>) /\ NoDup (deliveries res) /\
  Forall (delivery_ok o (Z.max (res_payload res) 1)) (deliveries res) /\
  (forall id' res' d, delete id (pledges o) !! id' = Some res' -> d ∈ deliveries res' -> d ∉ deliveries res).
Proof.
  intros [] Hid. split_and!.
  - split; simpl.
    + intros id1 res1 d [_ H1]%lookup_delete_Some Hd. by eapply pd_ok0.
    + intros id1 res1 [_ H1]%lookup_delete_Some. by eapply pd_nodup0.
    + intros id1 id2 res1 res2 d [_ H1]%lookup_delete_Some [_ H2]%lookup_delete_Some. by eapply pd_once0.
  - eapply NoDup_fmap_1. by eapply pd_nodup0.
  - apply Forall_forall. intros d Hd. by eapply pd_ok0.
  - intros id' res' d [Hne H']%lookup_delete_Some Hd Hd'. destruct Hne. by eapply pd_once0.
Qed.

Lemma publish_reservation_after submit o res event :
  inv o [] 0 [] -> NoDup (deliveries res) -> Forall (delivery_ok o (Z.max (res_payload res) 1)) (deliveries res) ->
  exists gone, after gone o (publish_reservation submit o res event).1 [] 0 [] /\ forall d, d ∈ gone -> d ∈ deliveries res.
Proof.
  intros Hi Hn Hd. unfold publish_reservation.
  assert (exists gone, after gone o (drop_deliveries submit o (deliveries res)) [] 0 [] /\
    forall d, d ∈ gone -> d ∈ deliveries res) as Hdrop.
  { exists (deliveries res). split; [by apply drop_deliveries_after|done]. }
  destruct (negb _); [exact Hdrop|]. destruct (payload_bytes _) as [size|]; [|exact Hdrop].
  destruct (_ <? _); [exact Hdrop|]. eexists. split; [by apply publish_deliveries_after|].
  intros d (x & Hx & Hin)%list_elem_of_In%in_flat_map. apply list_elem_of_In.
  destruct Hin as [<-|[<-|[]]]; done.
Qed.

(** ** Reachable states *)

Definition good (limit : Z * Z) (o : TaskObservers) : Prop :=
  inv o [] 0 [] /\ pledged o /\ (cap_max_items (global o), cap_max_bytes (global o)) = limit.

(** New receivers, shared permits and reservations have new names; the recipients of a
    snapshot are distinct. *)
Definition observer_legal (o : TaskObservers) (op : ObserverOp) : Prop :=
  match op with
  | OSubscribe _ options r _ => unsigned_options options /\ regs o !! r = None
  | OReserve _ rs _ _ share id _ => shares o !! share = None /\ pledges o !! id = None /\ NoDup rs
  | _ => True
  end.

Lemma after_good limit gone o o' :
  good limit o -> after gone o o' [] 0 [] ->
  (forall id res d, pledges o !! id = Some res -> d ∈ deliveries res -> d ∉ gone) -> good limit o'.
Proof.
  intros (_ & Hp & Hlim) [Hi Hg] Hd. split_and!; [done|by eapply pledged_grows|].
  destruct Hg as [(_ & Hm & Hb) _]. by rewrite Hm, Hb.
Qed.

Lemma quiet_good limit o o' : good limit o -> after [] o o' [] 0 [] -> good limit o'.
Proof. intros Hg Ha. eapply after_good; [done|done|]. intros. by intros ?%elem_of_nil. Qed.

Lemma reserve_good limit submit o key rs payload lane share id :
  good limit o -> shares o !! share = None -> pledges o !! id = None -> NoDup rs ->
  good limit (let '(o, res) := task_try_reserve submit o key rs payload lane share in
        match res with Ok res => o <| pledges ::= <[id := res]> |> | Err _ => o end).
Proof.
  intros (Hi & Hp & Hlim) Hs Hid Hn. unfold task_try_reserve, active_recipients.
  pose proof (release_detached_all_after _ _ _ _ _ Hi (inactive_filtered o rs)) as H0.
  match type of H0 with after [] o ?x _ _ _ => set (o0 := x) in * end.
  assert (shares o0 !! share = None) as Hs0.
  { apply (release_detached_all_shares (filter (fun r => receiver_active o r = false) rs) o share Hi Hs (inactive_filtered o rs)). }
  destruct (try_reserve_active _ _ _ _ _ _ _) as [o1 res] eqn:Hres.
  destruct (try_reserve_active_after _ _ _ _ _ _ _ _ _ (proj1 H0) Hs0 Hres) as (gone & H1 & Honly & Hok).
  assert (good limit o0) as G0 by (by eapply quiet_good; [split_and!|]).
  assert (good limit o1) as G1 by (eapply after_good; [exact G0|exact H1|]; intros; by eapply only_new_pledged; [apply G0|..]).
  destruct res as [res|]; [|done]. destruct Hok as (-> & Hpay & _ & Hsub & Hmade). destruct G1 as (I1 & P1 & L1).
  split; [by eapply observers_inv_same|]. split; [|done]. pose proof (proj1 (proj2 G0)) as P0. destruct H1 as [_ Hg1].
  assert (pledges o1 = pledges o0) as Hpl by apply Hg1.
  assert (forall id' res' d, pledges o1 !! id' = Some res' -> d ∈ deliveries res' -> d ∈ deliveries res -> False) as Hnew.
  { intros id' res' d H' Hd Hd'. rewrite Hpl in H'. destruct (pd_ok _ P0 _ _ _ H' Hd) as (reg & Hr & Hlt & _).
    eapply Forall_forall in Hmade; [|exact Hd']. destruct Hmade as [_ Hge]. specialize (Hge _ Hr). lia. }
  split; simpl.
  - intros id1 res1 d. destruct (decide (id = id1)) as [<-|Hne].
    + rewrite lookup_insert_eq. intros [= <-] Hd. rewrite Hpay.
      eapply Forall_forall in Hmade; [|exact Hd]. exact (proj1 Hmade).
    + rewrite lookup_insert_ne by done. intros H1 Hd. by eapply (pd_ok _ P1).
  - intros id1 res1. destruct (decide (id = id1)) as [<-|Hne].
    + rewrite lookup_insert_eq. intros [= <-]. eapply sublist_NoDup; [|exact Hsub]. by apply NoDup_filter.
    + rewrite lookup_insert_ne by done. apply (pd_nodup _ P1).
  - intros id1 id2 res1 res2 d. destruct (decide (id = id1)) as [<-|Hne1], (decide (id = id2)) as [<-|Hne2];
      rewrite ?lookup_insert_eq, ?lookup_insert_ne by done; try done.
    + intros [= <-] H2 Hd1 Hd2. by destruct (Hnew _ _ _ H2 Hd2 Hd1).
    + intros H1 [= <-] Hd1 Hd2. by destruct (Hnew _ _ _ H1 Hd1 Hd2).
    + apply (pd_once _ P1).
Qed.

Lemma step_good limit max_permits o op :
  good limit o -> observer_legal o op -> good limit (observer_step max_permits o op).
Proof.
  intros Hg Hl. pose proof Hg as (Hi & Hp & Hlim). destruct op; cbn [observer_step].
  - apply (quiet_good limit o); [done|]. unfold for_session. repeat case_match; simpl;
      (apply same_regs_after; [|done|done]); [done|by eapply observers_inv_same|done].
  - destruct Hl. apply (quiet_good limit o); [done|]. by apply subscribe_after.
  - apply (quiet_good limit o); [done|]. unfold snapshot_recipients.
    pose proof (prune_after o key _ _ _ Hi) as H1. by repeat case_match.
  - destruct Hl as (? & ? & ?). by apply reserve_good.
  - destruct (pledges o !! id) as [res|] eqn:Hid; [|done].
    destruct (pledged_delete _ _ _ Hp Hid) as (Hp1 & Hn & Hd & Hdis).
    assert (inv (o <| pledges ::= delete id |>) [] 0 []) as Hi1 by (by eapply observers_inv_same).
    destruct (publish_reservation_after submit (o <| pledges ::= delete id |>) res event) as (gone & H1 & Hgone); [done..|].
    eapply after_good; [split_and!; [exact Hi1|exact Hp1|exact Hlim]|exact H1|].
    intros id' res' d Hid' Hd' Hin. by apply (Hdis id' res' d), Hgone.
  - destruct (pledges o !! id) as [res|] eqn:Hid; [|done].
    destruct (pledged_delete _ _ _ Hp Hid) as (Hp1 & Hn & Hd & Hdis).
    assert (inv (o <| pledges ::= delete id |>) [] 0 []) as Hi1 by (by eapply observers_inv_same).
    eapply after_good; [split_and!; [exact Hi1|exact Hp1|exact Hlim]|by apply drop_deliveries_after|].
    intros id' res' d Hid' Hd' Hin. by apply (Hdis id' res' d).
  - apply (quiet_good limit o); [done|]. unfold close_observer.
    destruct (observers o !! key) as [so|]; [|by split; [|apply grows_refl]].
    match goal with |- after [] o (close_registrations _ ?x _) _ _ _ => set (o1 := x) end.
    assert (inv o1 [] 0 []) as H1 by (by eapply observers_inv_same).
    eapply after_quiet; [apply (same_regs_after o o1); done|]. by apply close_registrations_after.
  - apply (quiet_good limit o); [done|]. by apply consumer_after.
Qed.

(** The observers of a client after any calls. *)
Inductive observers_reachable (max_permits : Z) (limits : DispatchLimits) (root : SessionKey) : TaskObservers -> Prop :=
| reachable_new o :
    0 <= max_items (task_events limits) -> 0 <= lim_max_bytes (task_events limits) ->
    observers_new max_permits limits root = Ok o -> observers_reachable max_permits limits root o
| reachable_step o op :
    observers_reachable max_permits limits root o -> observer_legal o op ->
    observers_reachable max_permits limits root (observer_step max_permits o op).

Lemma reachable_good max_permits limits root o : observers_reachable max_permits limits root o ->
  good (max_items (task_events limits), lim_max_bytes (task_events limits)) o.
Proof.
  induction 1 as [o H1 H2 Hn|o op _ IH Hl]; [|by apply step_good].
  unfold observers_new in Hn. destruct (dispatch_limits_validate _ _); [|done]. injection Hn as <-.
  split_and!; [split; [split|]|..]; simpl; try done.
  - rewrite new_available. unfold store_live. rewrite map_to_list_empty. simpl. lia.
  - by rewrite new_available.
  - split_and!; simpl; rewrite ?new_available; [unfold share_total; rewrite map_to_list_empty; unfold weigh; simpl; lia|done|].
    intros s. by rewrite lookup_empty.
  - intros r dc. unfold store_live. rewrite map_to_list_empty. by intros ?%elem_of_nil.
Qed.

(** ** The effect of a publication *)

Section Effect.
Variable submit : RegId -> option NetError.





















End Effect.


(** C23. Capacity is conserved.  In any state the observers of a client can reach, what the
    reservations and the queued events hold and what the semaphores still offer add up to the
    configured limits: items and bytes of the client, and items and bytes of each lane of each
    subscription; a shared byte permit lives exactly as long as a delivery holds it.  So nothing
    is handed out twice and nothing leaks. *)
Theorem observer_capacity_conserved max_permits limits root o :
  observers_reachable max_permits limits root o ->
  available (cap_items (global o)) + Z.of_nat (length (store_live (regs o))) = max_items (task_events limits) /\
  available (cap_bytes (global o)) + share_total (shares o) = lim_max_bytes (task_events limits) /\
  0 <= available (cap_items (global o)) /\ 0 <= available (cap_bytes (global o)) /\
  (forall s n b, shares o !! s = Some (n, b) -> (0 < n)%nat /\ Z.of_nat n = weigh (owns s) (store_live (regs o))) /\
  (forall r reg u c, regs o !! r = Some reg -> lane_cap reg u = Some c -> lane_ok r u c (store_live (regs o))).
Proof.
  intros H. destruct (reachable_good _ _ _ _ H) as ([Ha _] & _ & [= Hm Hb]). destruct Ha as [Hi Hf (Hs & Hsf & Ho) Hl _].
  rewrite app_nil_r in Hi, Hl. rewrite Hm in Hi. rewrite Hb in Hs. split_and!; [lia|lia|lia|lia| |exact Hl].
  intros s n b Hs'. specialize (Ho s). rewrite Hs', app_nil_r in Ho. destruct Ho as (_ & Hn & ->). split; [done|].
  unfold weigh at 2. simpl. lia.
Qed.

End Theory.

(** ** Samples *)


Definition sample_key : SessionKey := 1%positive.

(** Two subscriptions of the root session, then a reservation for both. *)
Definition sample_calls : list ObserverOp :=
  [OSubscribe sample_key TaskEventOptions_default 1%positive true;
   OSubscribe sample_key TaskEventOptions_default 2%positive true;
   OReserve sample_key [1%positive; 2%positive] 8 MessageLane.Normal 1%positive 7%positive (fun _ => None)].

Definition sample_start : @TaskObservers counting_semaphores :=
  {| sub_slots := sem_new 64; global := capacity_new 1024 (16 * 1024 * 1024); shares := ∅; regs := ∅;
     observers := {[sample_key := session_observer_new]}; pledges := ∅ |}.

Definition sample_observers : @TaskObservers counting_semaphores :=
  foldl (observer_step (2 ^ 61 - 1)) sample_start sample_calls.

Lemma sample_reachable : observers_reachable (2 ^ 61 - 1) DispatchLimits_default sample_key sample_observers.
Proof.
  unfold sample_observers, sample_calls. cbn [foldl]. apply reachable_step; [apply reachable_step; [apply reachable_step|]|].
  - apply reachable_new; [vm_compute; discriminate|vm_compute; discriminate|reflexivity].
  - split; [split_and!; vm_compute; done|reflexivity].
  - split; [split_and!; vm_compute; done|vm_compute; reflexivity].
  - split; [vm_compute; reflexivity|]. split; [vm_compute; reflexivity|]. apply (bool_decide_unpack _). vm_compute. exact I.
Qed.




Lemma observer_capacity_conserved_witness :
  available (cap_items (global sample_observers)) + Z.of_nat (length (store_live (regs sample_observers))) = 1024 /\
  available (cap_items (global sample_observers)) = 1022.
Proof.
  split; [|vm_compute; reflexivity].
  exact (proj1 (observer_capacity_conserved (laws := counting_laws) (2 ^ 61 - 1) DispatchLimits_default sample_key
                  sample_observers sample_reachable)).
Defined.
