(* ===== verification/StateStream.v ===== *)
(** * Observed states (src/api/subscription/source.rs, registration.rs)

    A source holds the latest value of a state with its revision; a receiver is
    shown the value of its subscription and then the latest one, skipping what it
    was too slow to see.  A publication commits under the lock of the source and
    notifies the receivers later, one lock scope each, so the notices of different
    publications arrive in any order.  A receiver of committed state also reads the
    source itself ([refresh_committed]).

    Every function is one lock scope.  Executors, callbacks, permits, wakers and
    lifetimes are present or absent; [reserve] is the answer of the allocator. *)

From S2P Require Import Prelude F64 Backoff RetrySchedule RetryState Errors Dispatch EventStream.

Abbreviation SubscriptionId := positive (only parsing).

Section States.
Context {T : Type}.

Record SourceState := mkSourceState {
  src_current : T;
  src_revision : Z;
  src_closed : bool;
  src_failure : option NetError;
  src_registrations : gset SubscriptionId;
}.

#[export] Instance SourceState_settable : Settable SourceState :=
  fields! mkSourceState [ src_current; src_revision; src_closed; src_failure; src_registrations ].

(** [RegistrationState] with [read_committed] of its [Registration]. *)
Record StateReg := mkStateReg {
  read_committed : bool;
  sr_executor : bool;
  sr_active : bool;
  sr_initial : option T;
  sr_initial_revision : Z;
  sr_latest : T;
  sr_revision : Z;
  sr_seen : Z;
  sr_source_closed : bool;
  sr_pending_error : option NetError;
  sr_final_error : option NetError;
  sr_callback : bool;
  sr_driver : bool;
  sr_scheduled : bool;
  sr_running : bool;
  sr_permit : bool;
  sr_receive_waker : bool;
  sr_close_waker : bool;
  sr_lifetime : bool;
}.

#[export] Instance StateReg_settable : Settable StateReg :=
  fields! mkStateReg [ read_committed; sr_executor; sr_active; sr_initial; sr_initial_revision; sr_latest;
    sr_revision; sr_seen; sr_source_closed; sr_pending_error; sr_final_error; sr_callback; sr_driver;
    sr_scheduled; sr_running; sr_permit; sr_receive_waker; sr_close_waker; sr_lifetime ].

Inductive StateDelivery :=
| SValue (value : T)
| SError (error : NetError)
| SDone
| SPending.

(** ** Receivers *)

(** [RegistrationState::next] *)
Definition state_next (s : StateReg) : StateReg * StateDelivery :=
  if negb (sr_active s) then (s, SDone)
  else
    match sr_initial s with
    | Some initial => (s <| sr_initial := None; sr_seen := sr_initial_revision s |>, SValue initial)
    | None =>
        if negb (sr_seen s =? sr_revision s) then (s <| sr_seen := sr_revision s |>, SValue (sr_latest s))
        else
          match sr_pending_error s with
          | Some error => (s <| sr_pending_error := None |>, SError error)
          | None => (s, if sr_source_closed s then SDone else SPending)
          end
    end.

(** [RegistrationState::pending] *)
Definition state_pending (s : StateReg) : bool :=
  is_some (sr_initial s) || negb (sr_seen s =? sr_revision s) || is_some (sr_pending_error s) || sr_source_closed s.

(** [Registration::new] *)
Definition state_reg_new (current : T) (revision : Z) (closed : bool) (failure : option NetError)
    (committed : bool) : StateReg :=
  {| read_committed := committed; sr_executor := true; sr_active := true; sr_initial := Some current;
     sr_initial_revision := revision; sr_latest := current; sr_revision := revision; sr_seen := revision;
     sr_source_closed := closed; sr_pending_error := failure; sr_final_error := failure;
     sr_callback := false; sr_driver := false; sr_scheduled := false; sr_running := false; sr_permit := true;
     sr_receive_waker := false; sr_close_waker := false; sr_lifetime := false |}.

Definition bind_lifetime (s : StateReg) : StateReg * Result () NetError :=
  if negb (sr_active s) || sr_source_closed s then (s, Err (NetError_new ErrorKind.Closed))
  else if sr_lifetime s then (s, Err (NetError_new ErrorKind.InvalidInput))
  else (s <| sr_lifetime := true |>, Ok tt).

(** A notice installs a value; a closed source retires the lifetime. *)
Definition install_value (s : StateReg) (value : T) (revision : Z) (closed : bool)
    (failure : option NetError) : StateReg :=
  s <| sr_latest := value; sr_revision := revision; sr_source_closed := closed; sr_pending_error := failure;
       sr_final_error := failure; sr_lifetime := sr_lifetime s && negb closed |>.

(** [Registration::update], and whether it goes on to [schedule]. *)
Definition state_update (s : StateReg) (value : T) (revision : Z) (closed : bool)
    (failure : option NetError) : StateReg * bool :=
  if negb (sr_active s) || (revision <? sr_revision s) then (s, false)
  else if sr_source_closed s then
    if negb (read_committed s) || negb closed || negb (revision =? sr_revision s) then (s, false)
    else (s <| sr_receive_waker := false |>, true)
  else ((install_value s value revision closed failure) <| sr_receive_waker := false |>, true).

(** [refresh_committed], given what it has read from the source. *)
Definition refresh_apply (s : StateReg) (value : T) (revision : Z) (closed : bool)
    (failure : option NetError) : StateReg :=
  if negb (sr_active s) || sr_source_closed s || (revision <? sr_revision s)
     || ((revision =? sr_revision s) && negb closed) then s
  else install_value s value revision closed failure.

(** [Registration::unsubscribe] before the source forgets the receiver. *)
Definition state_unsubscribe (s : StateReg) : StateReg * bool :=
  if negb (sr_active s) then (s, false)
  else
    (s <| sr_active := false; sr_close_waker := sr_running s && sr_close_waker s; sr_initial := None;
          sr_pending_error := None; sr_callback := false; sr_driver := false; sr_executor := false;
          sr_permit := false; sr_receive_waker := false; sr_lifetime := false |>, true).

(** [Registration::schedule] up to the call of the driver: whether it is called. *)
Definition state_schedule (s : StateReg) : StateReg * bool :=
  if negb (sr_active s) || sr_scheduled s || negb (state_pending s) then (s, false)
  else if sr_driver s then (s <| sr_scheduled := true |>, true)
  else (s, false).

(** [Registration::fail] *)
Definition state_fail (s : StateReg) (error : NetError) : StateReg :=
  (state_unsubscribe (s <| sr_final_error ::= fun old => option_or old (Some error) |>)).1.

(** [Registration::poll_close] *)
Definition state_poll_close (s : StateReg) : StateReg * option (Result () NetError) :=
  if sr_running s then (s <| sr_close_waker := true |>, None)
  else (s, Some (match sr_final_error s with Some error => Err error | None => Ok tt end)).

(** [Registration::poll_next] after its refresh. *)
Definition state_poll_next (s : StateReg) : StateReg * StateDelivery :=
  let '(s, d) := state_next s in
  match d with
  | SPending => (s <| sr_receive_waker := true |>, SPending)
  | SDone => ((state_unsubscribe s).1, SDone)
  | _ => (s, d)
  end.

(** [Registration::install_callback] before its [schedule]; [ready] is the answer of
    the executor. *)
Definition state_install (ready : Result () NetError) (s : StateReg) : StateReg * Result () NetError :=
  if negb (sr_executor s) then (s, Err (NetError_new ErrorKind.Closed))
  else if is_err ready then (s, ready)
  else if negb (sr_permit s) then (s, Err (NetError_new ErrorKind.Closed))
  else if negb (sr_active s) then (s, Err (NetError_new ErrorKind.Closed))
  else (s <| sr_callback := true; sr_driver := true |>, Ok tt).

(** [Registration::run]: a job starts, or finds nobody. *)
Definition state_run_start (s : StateReg) : StateReg * bool :=
  if negb (sr_active s) then (s <| sr_scheduled := false |>, false) else (s <| sr_running := true |>, true).

(** One turn of [run_callbacks] after its refresh; an idle runner retires in the same
    lock scope. *)
Definition state_run_next (s : StateReg) : StateReg * StateDelivery :=
  let '(s, d) := state_next s in
  match d with
  | SPending => (s <| sr_running := false; sr_scheduled := false; sr_close_waker := false |>, SPending)
  | _ => (s, d)
  end.

(** [Registration::finish_run] before its [schedule]. *)
Definition state_finish_run (s : StateReg) : StateReg :=
  s <| sr_running := false; sr_scheduled := false; sr_close_waker := false |>.

(** ** Sources *)

Definition source_new (initial : T) : SourceState := mkSourceState initial 0 false None ∅.

Record StateNotice := mkStateNotice {
  n_value : T;
  n_revision : Z;
  n_closed : bool;
  n_failure : option NetError;
}.

(** What a committed publication tells its receivers. *)
Definition source_notice (s : SourceState) : StateNotice :=
  mkStateNotice (src_current s) (src_revision s) (src_closed s) (src_failure s).

(** [StatePublication]: the receivers to be told, and the result. *)
Record StatePublication := mkStatePublication {
  sp_notice : option StateNotice;
  sp_targets : list SubscriptionId;
  sp_result : Result () NetError;
}.

(** [SourceCore::prepare] *)
Definition source_prepare (reserve : bool) (s : SourceState) (value : option T) (closing : bool)
    (failure : option NetError) : SourceState * StatePublication :=
  if src_closed s then (s, mkStatePublication None [] (Err (NetError_new ErrorKind.Closed)))
  else
    let next := if is_some value then checked_add u64_max (src_revision s) 1 else Some (src_revision s) in
    let overflow := if is_some next then None else Some (NetError_new ErrorKind.ResourceExhausted) in
    if negb closing && is_none overflow && negb reserve
    then (s, mkStatePublication None [] (Err allocation_error))
    else
      let s' := match next with
                | Some revision =>
                    s <| src_current := default (src_current s) value; src_revision := revision |>
                | None => s
                end in
      let closed := closing || is_some overflow in
      let s' := s' <| src_closed := closed; src_failure := option_or failure overflow;
                      src_registrations := if closed then ∅ else src_registrations s |> in
      (s', mkStatePublication (Some (source_notice s')) (elements (src_registrations s))
             (match overflow with Some error => Err error | None => Ok tt end)).

(** [StatePublisher]: a value, a last value, a failure, and the end of its owner. *)
Definition prepare_value (reserve : bool) (s : SourceState) (value : T) := source_prepare reserve s (Some value) false None.

Definition prepare_finish_value (s : SourceState) (value : T) := source_prepare true s (Some value) true None.

Definition prepare_failure (s : SourceState) (error : NetError) := source_prepare true s None true (Some error).

Definition drop_publisher (s : SourceState) := source_prepare true s None true None.

(** [subscribe_with_cache] under the lock of the source. *)
Definition source_subscribe (reserve : bool) (s : SourceState) (id : SubscriptionId) (committed : bool) :
    SourceState * Result StateReg NetError :=
  if negb reserve then (s, Err allocation_error)
  else (s <| src_registrations ::= union {[id]} |>,
        Ok (state_reg_new (src_current s) (src_revision s) (src_closed s) (src_failure s) committed)).

(** [current_result] *)
Definition current_result (s : SourceState) : Result T NetError :=
  match src_failure s with Some error => Err error | None => Ok (src_current s) end.

Definition source_remove (s : SourceState) (id : SubscriptionId) : SourceState :=
  s <| src_registrations ::= fun ids => ids ∖ {[id]} |>.

End States.

Arguments SourceState : clear implicits.
Arguments StateReg : clear implicits.
Arguments StateDelivery : clear implicits.
Arguments StateNotice : clear implicits.
Arguments StatePublication : clear implicits.
