(* ===== verification/StateTheory.v ===== *)
(** * Theorems about observed states

    [StateWorld] is a source with its receivers and everything in flight between
    them: notices of publications that are committed and not yet delivered, and
    what receivers of committed state have read and not yet applied.  A run is any
    interleaving of [StateOp]s.  [published] is the history of the source, one value
    per revision, and [shown] what the receivers have seen. *)

From S2P Require Import Prelude F64 Backoff RetrySchedule RetryState Errors Dispatch EventStream StateStream.

Section Theory.
Context {T : Type}.

Record StateWorld := mkStateWorld {
  source : SourceState T;
  receivers : gmap SubscriptionId (StateReg T);
  notices : list (SubscriptionId * bool * StateNotice T);
  published : list T;
  shown : list (SubscriptionId * (T * Z));
}.

#[export] Instance StateWorld_settable : Settable StateWorld :=
  fields! mkStateWorld [ source; receivers; notices; published; shown ].

(** The lock scopes of the callback runner that do not touch the values. *)
Inductive RunnerOp :=
| RBind
| RInstall (ready : Result () NetError)
| RSchedule
| RStart
| RFinish
| RPollClose.

Definition runner_step (s : StateReg T) (op : RunnerOp) : StateReg T :=
  match op with
  | RBind => (bind_lifetime s).1
  | RInstall ready => (state_install ready s).1
  | RSchedule => (state_schedule s).1
  | RStart => (state_run_start s).1
  | RFinish => state_finish_run s
  | RPollClose => (state_poll_close s).1
  end.

Inductive StateOp :=
| VPublish (reserve : bool) (value : T)
| VFinish (value : T)
| VFailSource (error : NetError)
| VDropPublisher
| VSubscribe (reserve : bool) (id : SubscriptionId) (committed : bool)
| VRead (id : SubscriptionId)
| VDeliver (n : nat)
| VPoll (id : SubscriptionId)
| VRunNext (id : SubscriptionId)
| VRunner (id : SubscriptionId) (op : RunnerOp)
| VUnsubscribe (id : SubscriptionId)
| VFail (id : SubscriptionId) (error : NetError).

(** A publication: its notices are in flight, its value is history. *)
Definition commit (w : StateWorld) (p : SourceState T * StatePublication T) : StateWorld :=
  let '(s, p) := p in
  w <| source := s;
       notices ::= fun l => l ++ match sp_notice p with
                                 | Some n => (fun id => (id, false, n)) <$> sp_targets p
                                 | None => []
                                 end;
       published ::= fun l => if src_revision (source w) <? src_revision s then l ++ [src_current s] else l |>.

Definition show (w : StateWorld) (id : SubscriptionId) (p : StateReg T * StateDelivery T) : StateWorld :=
  let '(s, d) := p in
  w <| receivers ::= <[id := s]>;
       shown ::= fun l => l ++ match d with SValue v => [(id, (v, sr_seen s))] | _ => [] end |>.

Definition apply_notice (s : StateReg T) (refresh : bool) (n : StateNotice T) : StateReg T :=
  if refresh then refresh_apply s (n_value n) (n_revision n) (n_closed n) (n_failure n)
  else (state_update s (n_value n) (n_revision n) (n_closed n) (n_failure n)).1.

Definition state_step (w : StateWorld) (op : StateOp) : StateWorld :=
  match op with
  | VPublish reserve value => commit w (prepare_value reserve (source w) value)
  | VFinish value => commit w (prepare_finish_value (source w) value)
  | VFailSource error => commit w (prepare_failure (source w) error)
  | VDropPublisher => commit w (drop_publisher (source w))
  | VSubscribe reserve id committed =>
      match receivers w !! id with
      | Some _ => w
      | None =>
          let '(s, res) := source_subscribe reserve (source w) id committed in
          match res with
          | Ok reg => w <| source := s; receivers ::= <[id := reg]> |>
          | Err _ => w <| source := s |>
          end
      end
  | VRead id =>
      match receivers w !! id with
      | Some reg => if read_committed reg
                    then w <| notices ::= fun l => l ++ [(id, true, source_notice (source w))] |> else w
      | None => w
      end
  | VDeliver n =>
      match notices w !! n with
      | Some (id, refresh, notice) =>
          w <| notices ::= delete n; receivers ::= alter (fun s => apply_notice s refresh notice) id |>
      | None => w
      end
  | VPoll id => match receivers w !! id with Some reg => show w id (state_poll_next reg) | None => w end
  | VRunNext id => match receivers w !! id with Some reg => show w id (state_run_next reg) | None => w end
  | VRunner id op => w <| receivers ::= alter (fun s => runner_step s op) id |>
  | VUnsubscribe id =>
      w <| receivers ::= alter (fun s => (state_unsubscribe s).1) id; source ::= fun s => source_remove s id |>
  | VFail id error =>
      w <| receivers ::= alter (fun s => state_fail s error) id; source ::= fun s => source_remove s id |>
  end.

Definition state_world_new (initial : T) : StateWorld := mkStateWorld (source_new initial) ∅ [] [initial] [].

Definition state_run (w : StateWorld) (ops : list StateOp) : StateWorld := foldl state_step w ops.

(** ** The invariant *)

(** The value of a revision. *)
Definition at_revision (l : list T) (revision : Z) (v : T) : Prop := 0 <= revision /\ l !! Z.to_nat revision = Some v.

Lemma at_revision_app l l' revision v : at_revision l revision v -> at_revision (l ++ l') revision v.
Proof. intros [? H]. split; [done|]. by apply lookup_app_l_Some. Qed.

(** What receiver [id] has seen, and the revisions of it. *)
Definition seen_by (id : SubscriptionId) (l : list (SubscriptionId * (T * Z))) : list (T * Z) :=
  (filter (fun x => x.1 = id) l).*2.

Definition increasing (l : list Z) : Prop := forall i j x y, (i < j)%nat -> l !! i = Some x -> l !! j = Some y -> x < y.

Record source_ok (w : StateWorld) : Prop := {
  so_revision : src_revision (source w) = Z.of_nat (length (published w)) - 1;
  so_current : at_revision (published w) (src_revision (source w)) (src_current (source w));
}.

Record notice_ok (w : StateWorld) (n : StateNotice T) : Prop := {
  no_value : at_revision (published w) (n_revision n) (n_value n);
  no_revision : n_revision n <= src_revision (source w);
  no_closed : n_closed n = true -> src_closed (source w) = true /\ n_revision n = src_revision (source w);
}.

(** An active receiver has the state of the source, or the notice that brings it. *)
Definition up_to_date (w : StateWorld) (id : SubscriptionId) (s : StateReg T) : Prop :=
  (sr_revision s = src_revision (source w) /\ sr_source_closed s = src_closed (source w)) \/
  exists n, (id, false, n) ∈ notices w /\ n_revision n = src_revision (source w) /\ n_closed n = src_closed (source w).

Record receiver_ok (w : StateWorld) (id : SubscriptionId) (s : StateReg T) : Prop := {
  ro_latest : at_revision (published w) (sr_revision s) (sr_latest s);
  ro_revision : sr_revision s <= src_revision (source w);
  ro_seen : sr_seen s <= sr_revision s;
  ro_initial v : sr_initial s = Some v -> sr_seen s = sr_initial_revision s /\
    at_revision (published w) (sr_seen s) v /\ seen_by id (shown w) = [];
  ro_shown : sr_active s = true -> sr_initial s = None ->
    exists v, last (seen_by id (shown w)) = Some (v, sr_seen s);
  ro_closed : sr_source_closed s = true -> src_closed (source w) = true /\ sr_revision s = src_revision (source w);
  ro_listed : sr_active s = true -> src_closed (source w) = false -> id ∈ src_registrations (source w);
  ro_current : sr_active s = true -> up_to_date w id s;
}.

Record state_inv (w : StateWorld) : Prop := {
  si_source : source_ok w;
  si_notices id refresh n : (id, refresh, n) ∈ notices w -> notice_ok w n;
  si_receivers id s : receivers w !! id = Some s -> receiver_ok w id s;
  si_shown id : increasing (seen_by id (shown w)).*2 /\
    (forall v r, (v, r) ∈ seen_by id (shown w) -> at_revision (published w) r v) /\
    match receivers w !! id with
    | Some s => forall v r, (v, r) ∈ seen_by id (shown w) -> r <= sr_seen s
    | None => seen_by id (shown w) = []
    end;
}.

(** ** Publications *)

(** A publication that commits gives the next revision, or closes the present one. *)
Lemma source_prepare_commits reserve (s : SourceState T) value closing failure s' p :
  is_some value || closing = true -> source_prepare reserve s value closing failure = (s', p) ->
  (s' = s /\ sp_notice p = None) \/
  (src_closed s = false /\ sp_notice p = Some (source_notice s') /\ sp_targets p = elements (src_registrations s) /\
   (src_closed s' = false -> src_registrations s' = src_registrations s) /\
   (src_revision s' = src_revision s + 1 \/
    src_revision s' = src_revision s /\ src_current s' = src_current s /\ src_closed s' = true)).
Proof.
  intros Hv. unfold source_prepare. destruct (src_closed s) eqn:Hc; [intros [= <- <-]; by left|].
  match goal with |- context [is_some (if is_some value then ?a else ?b)] => set (next := if is_some value then a else b) end.
  assert (next = Some (src_revision s + 1) /\ is_some value = true \/
          next = Some (src_revision s) /\ value = None \/ next = None /\ is_some value = true) as Hn.
  { subst next. destruct value as [v|]; [|by right; left]. simpl. unfold checked_add.
    destruct (_ <=? _); [by left|by right; right]. }
  destruct (negb closing && _ && _); [intros [= <- <-]; by left|].
  intros [= <- <-]. right. split; [done|]. split; [done|]. split; [done|].
  clearbody next. destruct Hn as [[-> Hs]|[[-> ->]|[-> Hs]]]; simpl in *.
  - split; [intros Hx; by rewrite Hx|]. by left.
  - destruct closing; [|done]. simpl. split; [done|]. by right.
  - rewrite orb_true_r. split; [done|]. by right.
Qed.

Lemma commit_inv w reserve value closing failure :
  is_some value || closing = true -> state_inv w ->
  state_inv (commit w (source_prepare reserve (source w) value closing failure)).
Proof.
  intros Hv Hi. destruct (source_prepare _ _ _ _ _) as [s' p] eqn:Hp. unfold commit.
  destruct (source_prepare_commits _ _ _ _ _ _ _ Hv Hp) as [[-> Hnone]|(Hc & Hn & Ht & Hreg & Hrev)].
  { destruct w. simpl in *. by rewrite Hnone, Z.ltb_irrefl, app_nil_r. }
  destruct Hi as [[Hr Hcur] Hno Hre Hsh]. rewrite Hn, Ht.
  set (w' := w <| source := s'; notices ::= _; published ::= _ |>).
  assert (exists l, published w' = published w ++ l) as [l Hl].
  { subst w'. simpl. destruct (_ <? _); [by eexists|exists []; by rewrite app_nil_r]. }
  assert (source_ok w') as Hs'.
  { destruct Hcur as [H0 Hcur]. destruct Hrev as [Hrev|(Hrev & Hcv & _)]; split; subst w'; simpl; rewrite Hrev.
    - rewrite (proj2 (Z.ltb_lt _ _)), length_app by lia. simpl. lia.
    - rewrite (proj2 (Z.ltb_lt _ _)) by lia. split; [lia|]. rewrite lookup_app_r by lia.
      replace (_ - _)%nat with O by lia. done.
    - by rewrite Z.ltb_irrefl.
    - rewrite Z.ltb_irrefl, Hcv. done. }
  assert (src_revision (source w) <= src_revision s') as Hle by (destruct Hrev as [|[]]; lia).
  assert (source w' = s' /\ receivers w' = receivers w /\ shown w' = shown w /\
    notices w' = notices w ++ ((fun id => (id, false, source_notice s')) <$> elements (src_registrations (source w))))
    as (Es & Ere & Esh & En) by done.
  clearbody w'. split; [done|..].
  - intros id refresh n. rewrite En. intros [Hin|Hin]%elem_of_app.
    + destruct (Hno _ _ _ Hin) as [H1 H2 H3]. split; rewrite ?Es; [|lia|].
      * rewrite Hl. by apply at_revision_app.
      * intros Hx. destruct (H3 Hx). congruence.
    + apply list_elem_of_fmap in Hin as (id' & [= -> -> ->] & _).
      split; rewrite ?Es; [|done|done]. rewrite <- Es. apply Hs'.
  - intros id s. rewrite Ere. intros Hs. destruct (Hre _ _ Hs) as [H1 H2 H3 H4 H5 H6 H7 H8].
    split; rewrite ?Esh, ?Es; try done.
    + rewrite Hl. by apply at_revision_app.
    + lia.
    + intros v Hx. destruct (H4 v Hx) as (? & ? & ?). split_and!; [done| |done]. rewrite Hl. by apply at_revision_app.
    + intros Hx. destruct (H6 Hx). congruence.
    + intros Ha Hx. rewrite (Hreg Hx). by apply H7.
    + intros Ha. right. exists (source_notice s'). rewrite Es, En. split; [|done]. apply elem_of_app. right.
      apply list_elem_of_fmap. exists id. split; [done|]. by apply elem_of_elements, H7.
  - intros id. rewrite Esh, Ere, Hl. destruct (Hsh id) as (H1 & H2 & H3). split_and!; [done| |done]. intros v r Hx.
    by apply at_revision_app, H2.
Qed.

(** ** Receivers *)

(** Worlds that differ in their receivers. *)
Definition same_ground (w w' : StateWorld) : Prop :=
  source w' = source w /\ published w' = published w /\ notices w' = notices w /\ shown w' = shown w.

Lemma receiver_ok_ground w w' id s : same_ground w w' -> receiver_ok w id s -> receiver_ok w' id s.
Proof.
  intros (Es & Ep & En & Eh) []. split; unfold up_to_date in *; rewrite ?Es, ?Ep, ?En, ?Eh; done.
Qed.

Lemma notice_ok_ground w w' n : same_ground w w' -> notice_ok w n -> notice_ok w' n.
Proof. intros (Es & Ep & En & Eh) []. split; rewrite ?Es, ?Ep; done. Qed.

Lemma source_ok_ground w w' : same_ground w w' -> source_ok w -> source_ok w'.
Proof. intros (Es & Ep & En & Eh) []. split; rewrite ?Es, ?Ep; done. Qed.

Lemma inv_receiver w id s s' :
  state_inv w -> receivers w !! id = Some s -> receiver_ok w id s' -> sr_seen s <= sr_seen s' ->
  state_inv (w <| receivers ::= <[id := s']> |>).
Proof.
  intros [H1 H2 H3 H4] Hs Hok Hle. set (w' := w <| receivers ::= _ |>).
  assert (same_ground w w') as Hg by done.
  split; [by eapply source_ok_ground|intros; eapply notice_ok_ground; [done|by eapply H2]|..].
  - intros id1 s1 Hs1. eapply receiver_ok_ground; [done|]. revert Hs1. simpl. destruct (decide (id = id1)) as [<-|Hne].
    + rewrite lookup_insert_eq. intros [= <-]. exact Hok.
    + rewrite lookup_insert_ne by done. apply H3.
  - intros id1. destruct (H4 id1) as (Hi & Hv & Hb). split; [exact Hi|split; [exact Hv|]]. simpl.
    destruct (decide (id = id1)) as [<-|Hne]; [|by rewrite lookup_insert_ne].
    rewrite lookup_insert_eq, Hs in *. intros v r Hx. specialize (Hb _ _ Hx). lia.
Qed.

(** The values of a receiver, as far as it is active. *)
Definition same_values (s s' : StateReg T) : Prop :=
  sr_latest s' = sr_latest s /\ sr_revision s' = sr_revision s /\ sr_seen s' = sr_seen s /\
  sr_source_closed s' = sr_source_closed s /\
  (sr_active s' = true -> sr_active s = true /\ sr_initial s' = sr_initial s) /\
  (sr_initial s' = None \/ sr_initial s' = sr_initial s /\ sr_initial_revision s' = sr_initial_revision s).

Lemma same_values_ok w id s s' : receiver_ok w id s -> same_values s s' -> receiver_ok w id s'.
Proof.
  intros [H1 H2 H3 H4 H5 H6 H7 H8] (El & Er & Es & Ec & Ea & Ei).
  split; rewrite ?El, ?Er, ?Es, ?Ec; try done.
  - intros v Hv. destruct Ei as [Ei|[Ei ->]]; [congruence|]. apply H4. congruence.
  - intros Ha Hn. destruct (Ea Ha) as [Ha' Hi]. apply H5; [done|congruence].
  - intros Ha. by apply H7, Ea.
  - intros Ha. unfold up_to_date. rewrite Er, Ec. by apply H8, Ea.
Qed.

Lemma alter_receiver w id f :
  state_inv w -> (forall s, same_values s (f s)) -> state_inv (w <| receivers ::= alter f id |>).
Proof.
  intros Hi Hf. destruct (receivers w !! id) as [s|] eqn:Hs.
  - assert (w <| receivers ::= alter f id |> = w <| receivers ::= <[id := f s]> |>) as ->.
    { destruct w. simpl in *. f_equal. by apply alter_as_insert. }
    eapply inv_receiver; [done|done| |]; [|by destruct (Hf s) as (_ & _ & -> & _)].
    eapply same_values_ok; [by apply Hi|done].
  - assert (w <| receivers ::= alter f id |> = w) as ->; [|done].
    destruct w. simpl in *. f_equal. by apply alter_id; intros x Hx; congruence.
Qed.

Lemma unsubscribe_same s : same_values s (state_unsubscribe s).1.
Proof.
  unfold state_unsubscribe. destruct (negb (sr_active s)) eqn:Ha; simpl.
  - unfold same_values. split_and!; try done. by right.
  - unfold same_values. simpl. split_and!; try done. by left.
Qed.

Lemma fail_same s error : same_values s (state_fail s error).
Proof. unfold state_fail. match goal with |- same_values s (state_unsubscribe ?x).1 => exact (unsubscribe_same x) end. Qed.

Lemma runner_same s op : same_values s (runner_step s op).
Proof.
  assert (forall s', same_values s' s') as Hrefl by (intros s'; unfold same_values; split_and!; [done..|by right]).
  destruct op; simpl; unfold bind_lifetime, state_install, state_schedule, state_run_start, state_finish_run,
    state_poll_close; repeat case_match; simpl; try apply Hrefl; unfold same_values; simpl; split_and!; try done; by right.
Qed.

(** The source forgets a receiver that has unsubscribed. *)
Lemma remove_inv w id :
  state_inv w -> (forall s, receivers w !! id = Some s -> sr_active s = false) ->
  state_inv (w <| source ::= fun s => source_remove s id |>).
Proof.
  intros [[H0 H0'] H2 H3 H4] Hd. split; [by split|..].
  - intros id1 refresh n Hin. by destruct (H2 _ _ _ Hin).
  - intros id1 s Hs. destruct (H3 _ _ Hs) as []. split; try done. simpl in *. intros Ha Hc.
    apply elem_of_difference. split; [by apply ro_listed0|]. intros ->%elem_of_singleton.
    rewrite (Hd _ Hs) in Ha. done.
  - exact H4.
Qed.

Lemma dropped_inv w id f :
  state_inv w -> (forall s, same_values s (f s)) -> (forall s, sr_active (f s) = false) ->
  state_inv (w <| receivers ::= alter f id; source ::= fun s => source_remove s id |>).
Proof.
  intros Hi Hf Ha. apply (remove_inv (w <| receivers ::= alter f id |>)); [by apply alter_receiver|].
  intros s. simpl. rewrite lookup_alter_eq. destruct (receivers w !! id); simpl; [|done]. by intros [= <-].
Qed.

(** ** Notices *)

Lemma install_value_ok w id s n :
  receiver_ok w id s -> notice_ok w n -> sr_revision s <= n_revision n -> sr_source_closed s = false ->
  sr_active s = true -> (n_revision n = src_revision (source w) /\ n_closed n = src_closed (source w)) \/ up_to_date w id s /\
    (n_revision n < src_revision (source w) \/ src_closed (source w) = true /\ n_closed n = false) ->
  receiver_ok w id (install_value s (n_value n) (n_revision n) (n_closed n) (n_failure n)).
Proof.
  intros [H1 H2 H3 H4 H5 H6 H7 H8] [N1 N2 N3] Hle Hc Ha Hup. split; simpl; try done; [lia|].
  intros _. destruct Hup as [Hup|[Hup Hold]]; [by left|]. destruct Hup as [[E1 E2]|Hup]; [|by right].
  destruct Hold as [?|[? ?]]; [lia|]. congruence.
Qed.

Lemma waker_same s : same_values s (s <| sr_receive_waker := false |>).
Proof. destruct s. unfold same_values. simpl. split_and!; [done..|by right]. Qed.

Lemma deliver_ok w id s refresh n :
  state_inv w -> receiver_ok w id s -> (id, refresh, n) ∈ notices w ->
  receiver_ok w id (apply_notice s refresh n) /\ sr_seen (apply_notice s refresh n) = sr_seen s /\
  (refresh = false -> n_revision n = src_revision (source w) -> n_closed n = src_closed (source w) ->
   sr_active (apply_notice s refresh n) = true ->
   sr_revision (apply_notice s refresh n) = src_revision (source w) /\
   sr_source_closed (apply_notice s refresh n) = src_closed (source w)).
Proof.
  intros Hi Hok Hin. pose proof (si_notices _ Hi _ _ _ Hin) as Hn. pose proof Hok as [H1 H2 H3 H4 H5 H6 H7 H8].
  pose proof Hn as [N1 N2 N3].
  assert (sr_active s = true -> (n_revision n = src_revision (source w) /\ n_closed n = src_closed (source w)) \/
    up_to_date w id s /\ (n_revision n < src_revision (source w) \/ src_closed (source w) = true /\ n_closed n = false)) as Hup.
  { intros Ha. destruct (decide (n_revision n = src_revision (source w))) as [Er|]; [|right; split; [by apply H8|left; lia]].
    destruct (n_closed n) eqn:Hc; [left; by destruct (N3 eq_refl)|]. destruct (src_closed (source w)) eqn:Hsc; [|by left].
    right. split; [by apply H8|by right]. }
  unfold apply_notice. destruct refresh.
  - split; [|split; [|done]]; unfold refresh_apply.
    + destruct (negb (sr_active s)) eqn:Ha; [done|]. destruct (sr_source_closed s) eqn:Hc; [done|].
      destruct (n_revision n <? sr_revision s) eqn:Hr; [done|]. cbn [orb]. destruct (_ && _); [done|].
      apply negb_false_iff in Ha. apply install_value_ok; try done; [lia|by apply Hup].
    + by repeat case_match.
  - unfold state_update. destruct (negb (sr_active s)) eqn:Ha.
    { split; [done|]. split; [done|]. simpl. intros _ _ _ Hx. by rewrite Hx in Ha. }
    apply negb_false_iff in Ha. cbn [orb]. destruct (n_revision n <? sr_revision s) eqn:Hr.
    { split; [done|]. split; [done|]. intros _ Hx. lia. }
    destruct (sr_source_closed s) eqn:Hc.
    + destruct (H6 eq_refl) as [Hsc Hsr].
      destruct (_ || _ || _); cbn [fst]; (split; [|split; [done|]]); try (simpl; by rewrite Hc, Hsc).
      * done.
      * exact (same_values_ok _ _ _ _ Hok (waker_same s)).
    + cbn [fst]. set (s' := install_value s _ _ _ _).
      assert (receiver_ok w id s') as Hok' by (apply install_value_ok; [exact Hok|exact Hn|lia|done|done|by apply Hup]).
      split; [exact (same_values_ok _ _ _ _ Hok' (waker_same s'))|]. split; [reflexivity|]. intros _ Er Ec _. split; [exact Er|exact Ec].
Qed.

Lemma elem_of_delete_or {A} (l : list A) n x y : l !! n = Some y -> x ∈ l <-> x = y \/ x ∈ delete n l.
Proof. intros Hn. apply delete_Permutation in Hn. rewrite Hn at 1. apply elem_of_cons. Qed.

Lemma deliver_inv w n id refresh notice :
  state_inv w -> notices w !! n = Some (id, refresh, notice) ->
  state_inv (w <| notices ::= delete n; receivers ::= alter (fun s => apply_notice s refresh notice) id |>).
Proof.
  intros Hi Hn. pose proof (list_elem_of_lookup_2 _ _ _ Hn) as Hin.
  set (w1 := w <| receivers ::= alter (fun s => apply_notice s refresh notice) id |>).
  assert (state_inv w1) as [K1 K2 K3 K4].
  { subst w1. destruct (receivers w !! id) as [s|] eqn:Hs.
    - assert (w <| receivers ::= alter (fun s => apply_notice s refresh notice) id |> =
        w <| receivers ::= <[id := apply_notice s refresh notice]> |>) as ->.
      { destruct w. simpl in *. f_equal. exact (alter_as_insert _ _ _ (fun s => apply_notice s refresh notice) Hs). }
      destruct (deliver_ok _ _ _ _ _ Hi (si_receivers _ Hi _ _ Hs) Hin) as (Hok & Hseen & _).
      eapply inv_receiver; [done|done|done|lia].
    - assert (w <| receivers ::= alter (fun s => apply_notice s refresh notice) id |> = w) as ->; [|done].
      destruct w. simpl in *. f_equal. apply alter_id. intros x Hx. congruence. }
  split; [by destruct K1| |..].
  - intros id1 refresh1 n1 Hx. destruct (K2 id1 refresh1 n1); [|done]. subst w1. simpl in *.
    apply (elem_of_delete_or _ _ _ _ Hn). by right.
  - intros id1 s1 Hs1. destruct (K3 id1 s1 Hs1) as [R1 R2 R3 R4 R5 R6 R7 R8]. split; try done.
    intros Ha. destruct (R8 Ha) as [Hup|(n1 & Hn1 & Er & Ec)]; [by left|].
    destruct (proj1 (elem_of_delete_or _ _ (id1, false, n1) _ Hn) Hn1) as [[= -> <- ->]|Hother].
    + left. subst w1. simpl in Hs1. rewrite lookup_alter_eq in Hs1.
      destruct (receivers w !! id) as [s|] eqn:Hs; [|done]. injection Hs1 as <-.
      destruct (deliver_ok _ _ _ _ _ Hi (si_receivers _ Hi _ _ Hs) Hin) as (_ & _ & Hfin). by apply Hfin.
    + right. exists n1. by split.
  - exact K4.
Qed.

Lemma read_inv w id refresh :
  state_inv w -> refresh = true -> state_inv (w <| notices ::= fun l => l ++ [(id, refresh, source_notice (source w))] |>).
Proof.
  intros [[S1 S2] H2 H3 H4] Hr. split; [by split|..].
  - intros id1 refresh1 n Hin. simpl in Hin. apply elem_of_app in Hin as [Hin|Hin]; [by destruct (H2 _ _ _ Hin)|].
    apply list_elem_of_singleton in Hin. simplify_eq. split; simpl; [done|done|done].
  - intros id1 s1 Hs1. destruct (H3 _ _ Hs1) as [R1 R2 R3 R4 R5 R6 R7 R8]. split; try done.
    intros Ha. destruct (R8 Ha) as [Hup|(n1 & Hn1 & Er)]; [by left|]. right. exists n1. split; [|done]. simpl.
    apply elem_of_app. by left.
  - exact H4.
Qed.

Lemma state_subscribe_inv w reserve id committed s res :
  state_inv w -> receivers w !! id = None -> source_subscribe reserve (source w) id committed = (s, res) ->
  state_inv (match res with Ok reg => w <| source := s; receivers ::= <[id := reg]> |> | Err _ => w <| source := s |> end).
Proof.
  intros Hi Hid. unfold source_subscribe. destruct reserve; intros [= <- <-]; [|by destruct w].
  destruct Hi as [[S1 S2] H2 H3 H4]. pose proof (H4 id) as (_ & _ & Hnone). rewrite Hid in Hnone.
  split; [by split|..].
  - intros id1 refresh n Hin. by destruct (H2 _ _ _ Hin).
  - intros id1 s1. simpl. destruct (decide (id = id1)) as [<-|Hne].
    + rewrite lookup_insert_eq. intros [= <-]. split; simpl; try done.
      * intros v [= <-]. split_and!; [done|done|exact Hnone].
      * intros _ _. set_solver.
      * intros _. by left.
    + rewrite lookup_insert_ne by done. intros Hs1. destruct (H3 _ _ Hs1) as [R1 R2 R3 R4 R5 R6 R7 R8]. split; try done.
      simpl. intros Ha Hc. apply elem_of_union. right. by apply R7.
  - intros id1. destruct (H4 id1) as (Hi & Hv & Hb). split; [exact Hi|split; [exact Hv|]]. simpl.
    destruct (decide (id = id1)) as [<-|Hne]; [|by rewrite lookup_insert_ne].
    rewrite lookup_insert_eq. intros v r. simpl in Hnone. rewrite Hnone. by intros ?%elem_of_nil.
Qed.

(** ** Showing *)

(** The next value of an active receiver. *)
Definition next_value (s s' : StateReg T) (v : T) : Prop :=
  sr_active s = true /\ s' = s <| sr_initial := None; sr_seen := sr_seen s' |> /\
  (sr_initial s = Some v /\ sr_seen s' = sr_initial_revision s \/
   sr_initial s = None /\ v = sr_latest s /\ sr_seen s' = sr_revision s /\ sr_seen s <> sr_revision s).

Lemma state_next_cases s s' d :
  state_next s = (s', d) -> match d with SValue v => next_value s s' v | _ => same_values s s' end.
Proof.
  assert (same_values s s) as Hrefl by (unfold same_values; split_and!; [done..|by right]).
  unfold state_next, next_value. destruct (sr_active s) eqn:Ha; [|intros [= <- <-]; done]. simpl.
  destruct (sr_initial s) as [v|] eqn:Hi.
  { intros [= <- <-]. split_and!; [done|done|by left]. }
  destruct (sr_seen s =? sr_revision s) eqn:Hs; simpl.
  - destruct (sr_pending_error s) eqn:Hp; [|intros [= <- <-]; by destruct (sr_source_closed s)].
    intros [= <- <-]. unfold same_values. simpl. split_and!; try done. by left.
  - intros [= <- <-]. split_and!; [done| |right; split_and!; [done|done|done|lia]]. destruct s. simpl in *. by subst.
Qed.

Lemma same_values_trans s1 s2 s3 : same_values s1 s2 -> same_values s2 s3 -> same_values s1 s3.
Proof.
  intros (A1 & A2 & A3 & A4 & A5 & A6) (B1 & B2 & B3 & B4 & B5 & B6). unfold same_values.
  rewrite B1, B2, B3, B4, A1, A2, A3, A4. split_and!; try done.
  - intros H. destruct (B5 H) as [H2 E2]. destruct (A5 H2) as [H1 E1]. split; [done|congruence].
  - destruct B6 as [B6|[B6 B7]]; [by left|]. destruct A6 as [A6|[A6 A7]]; [left; congruence|right; split; congruence].
Qed.

Lemma poll_cases s s' d :
  state_poll_next s = (s', d) -> match d with SValue v => next_value s s' v | _ => same_values s s' end.
Proof.
  unfold state_poll_next. destruct (state_next s) as [s1 d1] eqn:Hn. apply state_next_cases in Hn.
  destruct d1; intros [= <- <-]; try exact Hn.
  eapply same_values_trans; [exact Hn|apply unsubscribe_same].
Qed.

Lemma run_next_cases s s' d :
  state_run_next s = (s', d) -> match d with SValue v => next_value s s' v | _ => same_values s s' end.
Proof.
  unfold state_run_next. destruct (state_next s) as [s1 d1] eqn:Hn. apply state_next_cases in Hn.
  by destruct d1; intros [= <- <-].
Qed.

Lemma seen_by_app id id' l x : seen_by id (l ++ [(id', x)]) = seen_by id l ++ (if decide (id' = id) then [x] else []).
Proof.
  unfold seen_by. rewrite filter_app, fmap_app. f_equal. rewrite filter_cons, filter_nil. cbn [fst].
  by destruct (decide (id' = id)).
Qed.

Lemma increasing_app l x : increasing l -> (forall y, y ∈ l -> y < x) -> increasing (l ++ [x]).
Proof.
  intros Hl Hx i j a b Hij Ha Hb. destruct (decide (j < length l)%nat) as [Hj|Hj].
  - rewrite lookup_app_l in Ha, Hb by lia. exact (Hl i j a b Hij Ha Hb).
  - assert (j = length l) as -> by (apply lookup_lt_Some in Hb; rewrite length_app in Hb; simpl in Hb; lia).
    rewrite lookup_app_r in Hb by lia. replace (_ - _)%nat with O in Hb by lia. injection Hb as <-.
    rewrite lookup_app_l in Ha by lia. apply Hx. by eapply list_elem_of_lookup_2.
Qed.

Lemma show_inv w id s s' d :
  state_inv w -> receivers w !! id = Some s ->
  match d with SValue v => next_value s s' v | _ => same_values s s' end -> state_inv (show w id (s', d)).
Proof.
  intros Hi Hs Hd. pose proof (si_receivers _ Hi _ _ Hs) as Hok.
  assert (same_values s s' -> state_inv (w <| receivers ::= <[id := s']>; shown ::= fun l => l ++ [] |>)) as Hsame.
  { intros Hv. assert (w <| receivers ::= <[id := s']>; shown ::= fun l => l ++ [] |> = w <| receivers ::= <[id := s']> |>) as ->.
    { destruct w. simpl. by rewrite app_nil_r. }
    eapply inv_receiver; [done|done|by eapply same_values_ok|]. by destruct Hv as (_ & _ & -> & _). }
  unfold show. destruct d as [v| | |]; try by apply Hsame. clear Hsame. destruct Hd as (Ha & Es & Hcase).
  destruct Hi as [[S1 S2] H2 H3 H4], Hok as [R1 R2 R3 R4 R5 R6 R7 R8].
  assert (at_revision (published w) (sr_seen s') v /\ (forall v0 r0, (v0, r0) ∈ seen_by id (shown w) -> r0 < sr_seen s') /\
          sr_seen s <= sr_seen s' <= sr_revision s) as (Hv & Hlt & Hle).
  { destruct Hcase as [[Hi Es']|(Hi & -> & Es' & Hne)].
    - destruct (R4 _ Hi) as (E1 & E2 & E3). rewrite Es', <- E1. split_and!; [done| |lia|lia].
      rewrite E3. by intros v0 r0 ?%elem_of_nil.
    - rewrite Es'. split_and!; [done| |lia|lia]. intros v0 r0 Hin. destruct (H4 id) as (_ & _ & Hb). rewrite Hs in Hb.
      specialize (Hb _ _ Hin). lia. }
  split; [by split|..].
  - intros id1 refresh n Hin. by destruct (H2 _ _ _ Hin).
  - intros id1 s1. simpl. destruct (decide (id = id1)) as [<-|Hne].
    + rewrite lookup_insert_eq. intros [= <-]. rewrite Es. split; simpl; try done; [lia|].
      intros _ _. exists v. rewrite seen_by_app, decide_True by done. apply last_snoc.
    + rewrite lookup_insert_ne by done. intros Hs1. destruct (H3 _ _ Hs1). split; try done; simpl;
        rewrite seen_by_app, decide_False, app_nil_r by done; done.
  - intros id1. simpl. rewrite seen_by_app. destruct (H4 id1) as (Hi & Hval & Hb).
    destruct (decide (id = id1)) as [<-|Hne]; [|rewrite app_nil_r, lookup_insert_ne by done; done].
    rewrite lookup_insert_eq, fmap_app. split_and!.
    + apply increasing_app; [done|]. intros r0 ([v0 r1] & -> & Hin)%list_elem_of_fmap. by eapply Hlt.
    + intros v0 r0 [Hin|Hin]%elem_of_app; [by apply Hval|]. apply list_elem_of_singleton in Hin. by simplify_eq.
    + intros v0 r0 [Hin|Hin]%elem_of_app; [specialize (Hlt _ _ Hin); lia|]. apply list_elem_of_singleton in Hin.
      simplify_eq. lia.
Qed.

Lemma state_step_inv w op : state_inv w -> state_inv (state_step w op).
Proof.
  intros Hi. destruct op; simpl.
  - by apply commit_inv.
  - by apply commit_inv.
  - by apply commit_inv.
  - by apply commit_inv.
  - destruct (receivers w !! id) eqn:Hid; [done|]. destruct (source_subscribe _ _ _ _) as [s res] eqn:Hs.
    by eapply state_subscribe_inv.
  - destruct (receivers w !! id); [|done]. destruct (read_committed _); [by apply read_inv|done].
  - destruct (notices w !! n) as [[[id refresh] notice]|] eqn:Hn; [by apply deliver_inv|done].
  - destruct (receivers w !! id) as [s|] eqn:Hs; [|done]. destruct (state_poll_next s) as [s' d] eqn:Hp.
    eapply show_inv; [done|done|by apply poll_cases].
  - destruct (receivers w !! id) as [s|] eqn:Hs; [|done]. destruct (state_run_next s) as [s' d] eqn:Hp.
    eapply show_inv; [done|done|by apply run_next_cases].
  - apply alter_receiver; [done|]. intros s. apply runner_same.
  - apply dropped_inv; [done|apply unsubscribe_same|]. intros s. unfold state_unsubscribe. by destruct (sr_active s) eqn:Ha.
  - apply dropped_inv; [done|intros s; apply fail_same|]. intros s. unfold state_fail, state_unsubscribe. simpl.
    by destruct (sr_active s) eqn:Ha.
Qed.

Lemma state_run_inv ops : forall w, state_inv w -> state_inv (state_run w ops).
Proof. induction ops as [|op ops IH]; intros w Hi; [done|]. simpl. by apply IH, state_step_inv. Qed.

Lemma state_world_new_inv initial : state_inv (state_world_new initial).
Proof.
  split; [split; simpl; [lia|done]|by intros ? ? ? ?%elem_of_nil|by intros ? ?|].
  intros id. split_and!; [by intros ? ? ? ? ?|by intros ? ? ?%elem_of_nil|done].
Qed.

(** ** Properties *)

(** C20. A receiver of a state sees the truth, in order: whatever the order in which notices arrive,
    and whoever polls or runs callbacks, the revisions shown to one receiver strictly increase, each
    shown value is the one the source had at that revision, and the source holds the last value it
    committed. *)
Theorem state_observer_exact initial ops id :
  let w := state_run (state_world_new initial) ops in
  increasing (seen_by id (shown w)).*2 /\
  (forall v r, (v, r) ∈ seen_by id (shown w) -> published w !! Z.to_nat r = Some v) /\
  last (published w) = Some (src_current (source w)).
Proof.
  intros w. assert (state_inv w) as [[S1 [S2 S3]] _ _ H4] by apply state_run_inv, state_world_new_inv.
  destruct (H4 id) as (Hinc & Hval & _). split_and!; [exact Hinc|by intros v r Hin; apply Hval|].
  rewrite last_lookup, <- S3. f_equal. lia.
Qed.

Definition caught_up (w : StateWorld) (id : SubscriptionId) : Prop :=
  last (seen_by id (shown w)) = Some (src_current (source w), src_revision (source w)).

(** A poll of a receiver that has seen the current value shows nothing. *)
Lemma caught_up_poll w id : state_inv w -> caught_up w id -> caught_up (state_step w (VPoll id)) id.
Proof.
  intros Hi Hc. simpl. destruct (receivers w !! id) as [s|] eqn:Hs; [|done].
  pose proof (si_receivers _ Hi _ _ Hs) as [R1 R2 R3 R4 R5 R6 R7 R8].
  destruct (state_poll_next s) as [s' d] eqn:Hp. apply poll_cases in Hp. unfold show, caught_up in *. simpl.
  destruct d as [v| | |]; try by rewrite app_nil_r. destruct Hp as (Ha & _ & Hcase). exfalso.
  destruct Hcase as [[Hin _]|(Hin & _ & _ & Hne)].
  - destruct (R4 _ Hin) as (_ & _ & Hnil). by rewrite Hnil in Hc.
  - destruct (R5 Ha Hin) as [v' Hlast]. rewrite Hlast in Hc. injection Hc as _ Hseen. lia.
Qed.

(** A poll of an active receiver that holds the current revision shows it, or the
    value of its subscription. *)
Lemma poll_current w id s :
  state_inv w -> receivers w !! id = Some s -> sr_active s = true -> sr_revision s = src_revision (source w) ->
  caught_up (state_step w (VPoll id)) id \/
  exists s', receivers (state_step w (VPoll id)) !! id = Some s' /\ sr_active s' = true /\ sr_initial s' = None /\
    sr_revision s' = src_revision (source w) /\ sr_initial s <> None.
Proof.
  intros Hi Hs Ha Er. pose proof (si_receivers _ Hi _ _ Hs) as [R1 R2 R3 R4 R5 R6 R7 R8].
  pose proof (so_current _ (si_source _ Hi)) as Hcur. pose proof (state_step_inv _ (VPoll id) Hi) as Hi'.
  simpl in *. rewrite Hs in *. unfold state_poll_next, state_next in *. rewrite Ha in *. cbn [negb] in *.
  destruct (sr_initial s) as [v|] eqn:Hin.
  { right. eexists. split; [apply lookup_insert_eq|]. split_and!; try done. }
  left. unfold caught_up. destruct (sr_seen s =? sr_revision s) eqn:He; cbn [negb].
  - destruct (R5 eq_refl eq_refl) as [v Hlast]. assert (v = src_current (source w)) as ->.
    { destruct (si_shown _ Hi id) as (_ & Hval & _). destruct (Hval v (sr_seen s)) as [_ Hv].
      { rewrite last_lookup in Hlast. by eapply list_elem_of_lookup_2. }
      destruct Hcur as [_ Hcur]. rewrite <- Er in Hcur. replace (sr_seen s) with (sr_revision s) in Hv by lia. congruence. }
    assert (sr_seen s = src_revision (source w)) as Hseen by lia. rewrite Hseen in Hlast.
    destruct (sr_pending_error s); [|destruct (sr_source_closed s)]; simpl; by rewrite app_nil_r.
  - simpl. rewrite seen_by_app, decide_True, last_snoc by done. rewrite Er in *. f_equal. f_equal.
    destruct R1 as [_ R1], Hcur as [_ Hcur]. congruence.
Qed.

(** No state is missed for good: when every notice for an active receiver has been delivered, the
    receiver holds the value, the revision and the end of its source, and after two polls the last
    value it was shown is the current one. *)
Theorem state_observer_converges initial ops id s :
  let w := state_run (state_world_new initial) ops in
  receivers w !! id = Some s -> sr_active s = true -> (forall refresh n, (id, refresh, n) ∉ notices w) ->
  (sr_latest s = src_current (source w) /\ sr_revision s = src_revision (source w) /\
   sr_source_closed s = src_closed (source w)) /\
  last (seen_by id (shown (state_run w [VPoll id; VPoll id]))) =
    Some (src_current (source w), src_revision (source w)).
Proof.
  intros w Hs Ha Hno. assert (state_inv w) as Hi by apply state_run_inv, state_world_new_inv. clearbody w.
  assert (forall w0, source (state_step w0 (VPoll id)) = source w0) as Hsrc.
  { intros w0. simpl. destruct (receivers w0 !! id) as [s0|]; [|done]. by destruct (state_poll_next s0). }
  pose proof (si_receivers _ Hi _ _ Hs) as Hok. pose proof (so_current _ (si_source _ Hi)) as [_ Hcur].
  destruct (ro_current _ _ _ Hok Ha) as [[Er Ec]|(n & Hn & _)]; [|by destruct (Hno _ _ Hn)]. split.
  { split; [|done]. destruct (ro_latest _ _ _ Hok) as [_ R1]. rewrite Er in R1. congruence. }
  pose proof (state_step_inv _ (VPoll id) Hi) as Hi1. unfold state_run. cbn [foldl].
  assert (caught_up (state_step (state_step w (VPoll id)) (VPoll id)) id) as Hc.
  { destruct (poll_current _ _ _ Hi Hs Ha Er) as [Hc|(s1 & Hs1 & Ha1 & Hin1 & Er1 & _)]; [by apply caught_up_poll|].
    destruct (poll_current _ _ _ Hi1 Hs1 Ha1) as [Hc|(_ & _ & _ & _ & _ & Hx)]; [by rewrite Hsrc|done|done]. }
  unfold caught_up in Hc. by rewrite !Hsrc in Hc.
Qed.

End Theory.

(** ** Samples *)

(** Two values while the receiver has not looked; their notices arrive in the wrong order. *)
Definition sample_state_ops : list (@StateOp nat) :=
  [VSubscribe true 1%positive false; VPublish true 1%nat; VPublish true 2%nat; VDeliver 1; VDeliver 0].

Lemma state_observer_converges_witness :
  last (seen_by 1%positive (shown (state_run (state_run (state_world_new 0%nat) sample_state_ops) [VPoll 1%positive; VPoll 1%positive])))
    = Some (2%nat, 2).
Proof.
  refine (proj2 (state_observer_converges 0%nat sample_state_ops 1%positive _ eq_refl eq_refl _)).
  intros refresh n. vm_compute. intros H. inversion H.
Defined.
