(* ===== verification/ConnectionEvent.v ===== *)
(** * Connection facts (src/api/ws/connection.rs, handshake.rs, receive_options.rs)

    The events of a session, the state it shows, and the size an event is accounted
    with.  [event_base] is [size_of::<ConnectionEvent>()], a constant of the build;
    a wall-clock reading is a [SystemTime]. *)

From S2P Require Import Prelude F64 Backoff RetrySchedule RetryState Errors WsRetry WsOptions Cancellation WsTask IndexedHeap OperationControl NativePending WsConfig.

Abbreviation CycleId := Z (only parsing).
Abbreviation SystemTime := Z (only parsing).

Definition MAX_CONNECTION_EVENT_BYTES : Z := 32 * 1024.

Record JournalOptions := mkJournalOptions { jo_max_events : Z; jo_max_bytes : Z }.

Definition JournalOptions_default : JournalOptions := mkJournalOptions 32 (1024 * 1024).

Definition MIN_EVENTS : Z := 4.

Definition journal_options_validate (max_permits : Z) (o : JournalOptions) : Result () NetError :=
  if jo_max_events o <? MIN_EVENTS
  then Err (NetError_config "journal.max_events" "must reserve at least four lifecycle facts")
  else if jo_max_bytes o <? MIN_EVENTS * MAX_CONNECTION_EVENT_BYTES
  then Err (NetError_config "journal.max_bytes" "must reserve at least 131072 bytes for four lifecycle facts")
  else limit_validate_fields max_permits (mkQueueLimit (jo_max_events o) (jo_max_bytes o))
         "journal.max_events" "journal.max_bytes".

Record EventOptions := mkEventOptions { eo_max_events : Z; eo_max_bytes : Z }.

Definition EventOptions_default : EventOptions := mkEventOptions 32 (1024 * 1024).

Definition event_options_validate (max_permits : Z) (o : EventOptions) : Result () NetError :=
  limit_validate_fields max_permits (mkQueueLimit (eo_max_events o) (eo_max_bytes o))
    "events.max_events" "events.max_bytes".

Record HandshakeAttempt := mkHandshakeAttempt {
  ha_client_id : ClientId;
  ha_session_id : SessionId;
  ha_cycle_id : CycleId;
  ha_attempt_id : AttemptId;
  ha_metadata : Metadata;
}.

Record ConnectionInfo := mkConnectionInfo {
  ci_client_id : ClientId;
  ci_session_id : SessionId;
  ci_connection_id : ConnectionId;
  ci_cycle_id : CycleId;
  ci_attempt_id : AttemptId;
  connected_at : SystemTime;
  ci_credential_version : option string;
}.

Module ConnectionRetry.
Inductive ConnectionRetry := Stop | Scheduled (after : Duration).
End ConnectionRetry.
(** [ws::RetryDecision] *)
Abbreviation ConnectionRetry := ConnectionRetry.ConnectionRetry.

Module TerminationReason.
Inductive TerminationReason :=
| Cancelled | LocalClose | ClientShutdown | EngineDropped | PeerClose | ConnectFailed
| RetryExhausted | IoFailure | NetworkUnavailable.
End TerminationReason.
Abbreviation TerminationReason := TerminationReason.TerminationReason.

#[export] Instance TerminationReason_eq_dec : EqDecision TerminationReason.
Proof. solve_decision. Defined.

Record ConnectionEnd := mkConnectionEnd {
  end_reason : TerminationReason;
  end_error : option NetError;
  end_peer_close : option PeerClose;
  end_io : option IoEndKind;
}.

Record SessionEnd := mkSessionEnd {
  session_end_reason : TerminationReason;
  last_connection : option ConnectionEnd;
}.

Module ConnectionState.
Inductive ConnectionState :=
| Connecting
| Connected (info : ConnectionInfo)
| WaitingForNetwork
| Reconnecting (cycle_id : CycleId) (next_attempt_at : option Instant)
| Closing
| Closed (result : Result SessionEnd NetError).
End ConnectionState.
Abbreviation ConnectionState := ConnectionState.ConnectionState.

Record ConnectionSnapshot := mkConnectionSnapshot {
  snap_revision : Z;
  snap_session_id : SessionId;
  snap_state : ConnectionState;
  snap_last_error : option NetError;
}.

Module ConnectionEventKind.
Inductive ConnectionEventKind :=
| AttemptStarted (attempt : HandshakeAttempt)
| Established (connection : ConnectionInfo)
| AttemptFailed (attempt : HandshakeAttempt) (credential_version : option string) (error : NetError)
    (retry : ConnectionRetry)
| Disconnected (connection : ConnectionInfo) (connection_end : ConnectionEnd)
| Closed (result : Result SessionEnd NetError).
End ConnectionEventKind.
Abbreviation ConnectionEventKind := ConnectionEventKind.ConnectionEventKind.

Record ConnectionEvent := mkConnectionEvent {
  sequence : Z;
  event_client_id : ClientId;
  event_session_id : SessionId;
  occurred_at : SystemTime;
  event_kind : ConnectionEventKind;
}.

#[export] Instance ConnectionEvent_settable : Settable ConnectionEvent :=
  fields! mkConnectionEvent [ sequence; event_client_id; event_session_id; occurred_at; event_kind ].

(** ** Sizes *)

(** [EventSize::add] *)
Definition size_add (size count : Z) : Result Z NetError :=
  let? total := ok_or (checked_add usize_max size count)
                  (with_stage (NetError_new ErrorKind.ResourceExhausted) ErrorStage.Dispatch) in
  if MAX_CONNECTION_EVENT_BYTES <? total
  then Err (with_stage (NetError_new ErrorKind.ItemTooLarge) ErrorStage.Dispatch)
  else Ok total.

Definition size_string (size : Z) (value : option string) : Result Z NetError :=
  match value with Some value => size_add size (byte_len value) | None => Ok size end.

(** Adds the lengths of the keys and values of a map. *)
Fixpoint size_pairs (size : Z) (m : list (string * string)) : Result Z NetError :=
  match m with
  | [] => Ok size
  | (key, value) :: rest =>
      let? size := size_add size (byte_len key) in
      let? size := size_add size (byte_len value) in
      size_pairs size rest
  end.

Definition size_attempt (size : Z) (attempt : HandshakeAttempt) : Result Z NetError :=
  size_pairs size (ha_metadata attempt).

Definition size_connection (size : Z) (connection : ConnectionInfo) : Result Z NetError :=
  size_string size (ci_credential_version connection).

Definition size_peer (size : Z) (peer : option PeerClose) : Result Z NetError :=
  match peer with Some peer => size_add size (byte_len (peer_reason peer)) | None => Ok size end.

Definition size_error (size : Z) (error : NetError) : Result Z NetError :=
  let context := econtext error in
  let? size := size_peer size (peer_close context) in
  let? size := size_string size (request_id context) in
  let? size := match diagnostic context with
               | Some d => let? size := size_pairs size (diag_headers d) in size_string size (body_summary d)
               | None => Ok size
               end in
  match config_error error with
  | Some detail =>
      let? size := size_add size (byte_len (config_field detail)) in
      size_add size (byte_len (config_reason detail))
  | None => Ok size
  end.

Definition size_end (size : Z) (e : ConnectionEnd) : Result Z NetError :=
  let? size := size_peer size (end_peer_close e) in
  match end_error e with Some error => size_error size error | None => Ok size end.

Definition measured_size (event_base : Z) (event : ConnectionEvent) : Result Z NetError :=
  let? size :=
    match event_kind event with
    | ConnectionEventKind.AttemptStarted attempt => size_attempt event_base attempt
    | ConnectionEventKind.Established connection => size_connection event_base connection
    | ConnectionEventKind.AttemptFailed attempt credential error _ =>
        let? size := size_attempt event_base attempt in
        let? size := size_string size credential in
        size_error size error
    | ConnectionEventKind.Disconnected connection e =>
        let? size := size_connection event_base connection in
        size_end size e
    | ConnectionEventKind.Closed (Ok e) =>
        match last_connection e with Some last => size_end event_base last | None => Ok event_base end
    | ConnectionEventKind.Closed (Err error) => size_error event_base error
    end in
  size_add size 0.

(** ** The size of an event never leaves the reservation made for it *)

Lemma size_add_bounds size count total :
  0 <= count -> size_add size count = Ok total -> total = size + count /\ total <= MAX_CONNECTION_EVENT_BYTES.
Proof.
  unfold size_add, checked_add. intros Hc. destruct (_ <=? _) eqn:Hu; [|done]. simpl.
  destruct (_ <? _) eqn:Hm; [done|]. intros [= <-]. split; [done|lia].
Qed.

Lemma size_string_grows size value total : size_string size value = Ok total -> size <= total.
Proof.
  unfold size_string. destruct value as [v|]; [|by intros [= <-]].
  intros H%size_add_bounds; [|apply byte_len_nonneg]. pose proof (byte_len_nonneg v). lia.
Qed.

Lemma size_pairs_grows m : forall size total, size_pairs size m = Ok total -> size <= total.
Proof.
  induction m as [|[k v] m IH]; intros size total; simpl; [by intros [= <-]|].
  destruct (size_add size _) as [s1|] eqn:H1; [|done]. simpl. destruct (size_add s1 _) as [s2|] eqn:H2; [|done]. simpl.
  intros H3%IH. apply size_add_bounds in H1; [|apply byte_len_nonneg]. apply size_add_bounds in H2; [|apply byte_len_nonneg].
  pose proof (byte_len_nonneg k). pose proof (byte_len_nonneg v). lia.
Qed.

Lemma size_peer_grows size peer total : size_peer size peer = Ok total -> size <= total.
Proof.
  unfold size_peer. destruct peer as [p|]; [|by intros [= <-]].
  intros H%size_add_bounds; [|apply byte_len_nonneg]. pose proof (byte_len_nonneg (peer_reason p)). lia.
Qed.

Lemma size_error_grows size error total : size_error size error = Ok total -> size <= total.
Proof.
  unfold size_error. destruct (size_peer size _) as [s1|] eqn:H1; [|done]. simpl.
  destruct (size_string s1 _) as [s2|] eqn:H2; [|done]. simpl.
  apply size_peer_grows in H1. apply size_string_grows in H2.
  set (diag := match diagnostic _ with Some _ => _ | None => _ end).
  assert (forall s3, diag = Ok s3 -> s2 <= s3) as H3.
  { subst diag. intros s3. destruct (diagnostic _) as [d|]; [|by intros [= <-]].
    destruct (size_pairs s2 _) as [s4|] eqn:H4; [|done]. simpl. intros H5%size_string_grows.
    apply size_pairs_grows in H4. lia. }
  destruct diag as [s3|]; [|done]. specialize (H3 _ eq_refl). simpl.
  destruct (config_error error) as [d|]; [|intros [= <-]; lia].
  destruct (size_add s3 _) as [s4|] eqn:H4; [|done]. simpl. intros H5.
  apply size_add_bounds in H4; [|apply byte_len_nonneg]. apply size_add_bounds in H5; [|apply byte_len_nonneg].
  pose proof (byte_len_nonneg (config_field d)). pose proof (byte_len_nonneg (config_reason d)). lia.
Qed.

Lemma size_end_grows size e total : size_end size e = Ok total -> size <= total.
Proof.
  unfold size_end. destruct (size_peer size _) as [s1|] eqn:H1; [|done]. simpl. apply size_peer_grows in H1.
  destruct (end_error e); [intros H2%size_error_grows; lia|intros [= <-]; lia].
Qed.

Lemma measured_size_bounds event_base event size :
  measured_size event_base event = Ok size -> event_base <= size <= MAX_CONNECTION_EVENT_BYTES.
Proof.
  unfold measured_size.
  set (inner := match event_kind event with ConnectionEventKind.AttemptStarted _ => _ | _ => _ end).
  assert (forall s, inner = Ok s -> event_base <= s) as Hin.
  { intros s. subst inner. unfold size_attempt, size_connection.
    destruct (event_kind event) as [a|c|a cred error retry|c e|[e|error]]; simpl.
    - apply size_pairs_grows.
    - apply size_string_grows.
    - destruct (size_pairs event_base _) as [s1|] eqn:H1; [|done]. simpl.
      destruct (size_string s1 _) as [s2|] eqn:H2; [|done]. simpl. intros H3%size_error_grows.
      apply size_pairs_grows in H1. apply size_string_grows in H2. lia.
    - destruct (size_string event_base _) as [s1|] eqn:H1; [|done]. simpl. intros H2%size_end_grows.
      apply size_string_grows in H1. lia.
    - destruct (last_connection e); [apply size_end_grows|by intros [= <-]].
    - apply size_error_grows. }
  destruct inner as [s|]; [|done]. simpl. specialize (Hin _ eq_refl). intros H%size_add_bounds; lia.
Qed.
