(* ===== verification/ConnectionHistory.v ===== *)
(** * The history of a session (src/module/ws_client/connection_history.rs)

    The latest connection events of a session, within a number and a size, and the
    receivers of the events.  A receiver is seeded with the retained events when it
    subscribes and is told of every event after that; what it cannot hold, or what
    was gone before, it learns as a count.

    [views] are the event streams of the receivers (EventStream.v), all with the
    limits of the history and [DropOldest].  [reserve] is the answer of the allocator,
    [submit] the answer of the executor to the driver of a stream. *)

From S2P Require Import Prelude F64 Backoff RetrySchedule RetryState Errors WsRetry WsOptions Cancellation WsTask IndexedHeap OperationControl NativePending WsConfig Dispatch EventStream StateStream ConnectionEvent.

Abbreviation View := (EventState ConnectionEvent ()) (only parsing).

Record ConnectionHistory := mkConnectionHistory {
  h_options : EventOptions;
  h_scope : option (ClientId * SessionId);
  h_last_sequence : Z;
  h_entries : list (ConnectionEvent * Z);
  h_bytes : Z;
  h_closed : bool;
  h_failure : option NetError;
  h_publishers : list SubscriptionId;
  views : gmap SubscriptionId View;
}.

#[export] Instance ConnectionHistory_settable : Settable ConnectionHistory :=
  fields! mkConnectionHistory [ h_options; h_scope; h_last_sequence; h_entries; h_bytes; h_closed; h_failure;
    h_publishers; views ].

Definition history_new (max_permits : Z) (reserve : bool) (options : EventOptions) : Result ConnectionHistory NetError :=
  let? _ := event_options_validate max_permits options in
  if reserve then Ok (mkConnectionHistory options None 0 [] 0 false None [] ∅) else Err allocation_error.

(** The registration of every receiver. *)
Definition view_registration (h : ConnectionHistory) : EventRegistration :=
  mkEventRegistration (mkEventQueueLimit (eo_max_events (h_options h)) (eo_max_bytes (h_options h))) EventOverflow.DropOldest.

(** [HistoryPublication]: what is dispatched after the locks are released. *)
Record HistoryPublication := mkHistoryPublication {
  hp_publications : list (SubscriptionId * EventPublication ConnectionEvent ());
  hp_terminal : list SubscriptionId;
  hp_terminal_failure : option NetError;
  hp_result : Result () NetError;
}.

Definition history_publication_new : HistoryPublication := mkHistoryPublication [] [] None (Ok tt).

Definition set_view (h : ConnectionHistory) (id : SubscriptionId) (v : View) : ConnectionHistory :=
  h <| views ::= <[id := v]> |>.

(** ** Dispatch *)

(** [EventPublication::dispatch] of a receiver: its driver runs, or its stream fails. *)
Definition dispatch_view (submit : option NetError) (h : ConnectionHistory) (id : SubscriptionId)
    (p : EventPublication ConnectionEvent ()) : ConnectionHistory :=
  match views h !! id with
  | Some v =>
      if ep_schedule p then
        let '(v, call) := schedule_lock v in
        match (if call then submit else None) with
        | Some error => set_view h id (event_fail v error).1
        | None => set_view h id v
        end
      else h
  | None => h
  end.

Fixpoint dispatch_views (submit : option NetError) (h : ConnectionHistory)
    (ps : list (SubscriptionId * EventPublication ConnectionEvent ())) : ConnectionHistory :=
  match ps with
  | [] => h
  | (id, p) :: ps => dispatch_views submit (dispatch_view submit h id p) ps
  end.

(** [prepare_finish] and [prepare_fail] of a receiver. *)
Definition finish_view (h : ConnectionHistory) (id : SubscriptionId) (failure : option NetError) :
    ConnectionHistory * list (SubscriptionId * EventPublication ConnectionEvent ()) :=
  match views h !! id with
  | Some v => let '(v, p) := prepare_finish v failure in (set_view h id v, [(id, p)])
  | None => (h, [])
  end.

Fixpoint finish_views (submit : option NetError) (h : ConnectionHistory) (ids : list SubscriptionId)
    (failure : option NetError) : ConnectionHistory :=
  match ids with
  | [] => h
  | id :: ids =>
      let '(h, ps) := finish_view h id failure in
      finish_views submit (dispatch_views submit h ps) ids failure
  end.

(** [HistoryPublication::dispatch] *)
Definition history_dispatch (submit : option NetError) (h : ConnectionHistory) (p : HistoryPublication) :
    ConnectionHistory :=
  finish_views submit (dispatch_views submit h (hp_publications p)) (hp_terminal p) (hp_terminal_failure p).

(** ** Recording *)

(** [fail_history]: the receivers are failed by the dispatch. *)
Definition fail_history (h : ConnectionHistory) (p : HistoryPublication) (error : NetError) :
    ConnectionHistory * HistoryPublication :=
  (h <| h_closed := true; h_failure := Some error; h_publishers := [] |>,
   mkHistoryPublication (hp_publications p) (h_publishers h) (Some error) (hp_result p)).

Definition view_active (h : ConnectionHistory) (id : SubscriptionId) : bool :=
  is_some_and (views h !! id) eactive.

Definition history_prune (h : ConnectionHistory) : ConnectionHistory :=
  h <| h_publishers ::= filter (fun id => view_active h id = true) |>.

(** The retained events make room for one of [size] bytes; nothing when it cannot be. *)
Fixpoint history_evict (options : EventOptions) (size : Z) (entries : list (ConnectionEvent * Z)) (bytes : Z) :
    option (list (ConnectionEvent * Z) * Z) :=
  if (eo_max_events options <=? Z.of_nat (length entries)) || (eo_max_bytes options - size <? bytes) then
    match entries with
    | [] => None
    | entry :: rest => history_evict options size rest (bytes - entry.2)
    end
  else Some (entries, bytes).

(** One receiver is told of an event, or of its loss; a receiver that cannot be told is failed,
    and the last event ends it. *)
Definition record_view (reserve closed : bool) (h : ConnectionHistory) (id : SubscriptionId)
    (event : option ConnectionEvent) (size : Z) :
    ConnectionHistory * list (SubscriptionId * EventPublication ConnectionEvent ()) :=
  match views h !! id with
  | None => (h, [])
  | Some v =>
      let '(v, prepared) := match event with
                            | None => commit_skip (view_registration h) reserve v 1
                            | Some event => commit_publish (view_registration h) reserve v (mkEntry event size None)
                            end in
      let h := set_view h id v in
      match (let? accepted := ep_result prepared in admission_result accepted) with
      | Err error => let '(h, ps) := finish_view h id (Some error) in (h, (id, prepared) :: ps)
      | Ok _ =>
          if closed then let '(h, ps) := finish_view h id None in (h, (id, prepared) :: ps)
          else (h, [(id, prepared)])
      end
  end.

Fixpoint record_views (reserve closed : bool) (h : ConnectionHistory) (ids : list SubscriptionId)
    (event : option ConnectionEvent) (size : Z) :
    ConnectionHistory * list (SubscriptionId * EventPublication ConnectionEvent ()) :=
  match ids with
  | [] => (h, [])
  | id :: ids =>
      let '(h, ps) := record_view reserve closed h id event size in
      let '(h, qs) := record_views reserve closed h ids event size in
      (h, ps ++ qs)
  end.

Definition is_closed_event (event : ConnectionEvent) : bool :=
  match event_kind event with ConnectionEventKind.Closed _ => true | _ => false end.

(** [ConnectionHistory::prepare_record]; the allocator answers [reserve] for the history
    and [view_reserve] for the queues of the receivers. *)
Definition history_record (event_base : Z) (reserve view_reserve : bool) (h : ConnectionHistory) (event : ConnectionEvent) :
    ConnectionHistory * HistoryPublication :=
  let refuse error := mkHistoryPublication [] [] None (Err error) in
  let failed h error :=
    let '(h, p) := fail_history h history_publication_new error in
    (h, mkHistoryPublication (hp_publications p) (hp_terminal p) (hp_terminal_failure p) (Err error)) in
  let scope := (event_client_id event, event_session_id event) in
  if h_closed h then (h, refuse (NetError_new ErrorKind.Closed))
  else if negb (bool_decide (checked_add u64_max (h_last_sequence h) 1 = Some (sequence event)))
          || is_some_and (h_scope h) (fun expected => negb (bool_decide (expected = scope)))
  then (h, refuse (NetError_new ErrorKind.InvalidInput))
  else
    match measured_size event_base event with
    | Err error =>
        if bool_decide (kind error = ErrorKind.ItemTooLarge) then (h, refuse error) else failed h error
    | Ok size =>
        let closed := is_closed_event event in
        let oversized := eo_max_bytes (h_options h) <? size in
        if negb reserve then failed h allocation_error
        else
          let h := history_prune h in
          match (if oversized then Some ([], 0)
                 else match history_evict (h_options h) size (h_entries h) (h_bytes h) with
                      | Some (entries, bytes) => Some (entries ++ [(event, size)], bytes + size)
                      | None => None
                      end) with
          | None => failed h (NetError_new ErrorKind.Internal)
          | Some (entries, bytes) =>
              let h := h <| h_entries := entries; h_bytes := bytes; h_last_sequence := sequence event;
                            h_scope := Some scope; h_closed := closed |> in
              let '(h, ps) := record_views view_reserve closed h (h_publishers h)
                                (if oversized then None else Some event) size in
              if closed
              then (h <| h_publishers := [] |>, mkHistoryPublication ps (h_publishers h) None (Ok tt))
              else (h, mkHistoryPublication ps [] None (Ok tt))
          end
    end.

(** [ConnectionHistory::prepare_fail] *)
Definition history_fail (h : ConnectionHistory) (error : NetError) : ConnectionHistory * HistoryPublication :=
  if h_closed h then (h, history_publication_new) else fail_history h history_publication_new error.

(** ** Subscribing *)

(** [ConnectionHistory::subscribe]; [permit] is the answer of the quota of the client, [id] the
    identifier of the new receiver. *)
Definition history_subscribe (max_permits : Z) (permit reserve : bool) (submit : option NetError)
    (h : ConnectionHistory) (id : SubscriptionId) : ConnectionHistory * Result () NetError :=
  if negb permit then (h, Err (NetError_new ErrorKind.SubscriptionLimitReached))
  else
    match event_channel max_permits reserve (ereg_limit (view_registration h)) EventOverflow.DropOldest true with
    | Err error => (h, Err error)
    | Ok (registration, view) =>
        if negb reserve then (h, Err allocation_error)
        else
          let h := history_prune h in
          match (match h_entries h with
                 | (event, _) :: _ => ok_or (checked_sub (sequence event) 1) (NetError_new ErrorKind.Internal)
                 | [] => Ok (h_last_sequence h)
                 end) with
          | Err error => (h, Err error)
          | Ok lagged =>
              let seed := mkEventSeed (h_entries h) lagged (h_closed h) (h_failure h) in
              let '(view, p) := commit_seed registration view seed in
              match ep_result p with
              | Err error => (h, Err error)
              | Ok _ =>
                  let h := set_view h id view in
                  let h := if h_closed h then h else h <| h_publishers ::= fun ids => ids ++ [id] |> in
                  (dispatch_view submit h id p, Ok tt)
              end
          end
    end.
