(* ===== verification/ConnectionSession.v ===== *)
(** * The lifecycle of a session (src/module/ws_client/connection_session.rs,
      src/module/transport/failure.rs)

    A session publishes its facts, the [ConnectionEvent]s, to three observers: the
    journal, a lossless event stream (EventStream.v) whose capacity is reserved
    before an attempt starts, the history (ConnectionHistory.v), and the state
    source (StateStream.v) with the latest snapshot.

    [Session] is the [ConnectionSession] with what its [Arc]s and locks lead to: the
    streams, the two semaphores of the journal and the flags of its cancellation
    tokens.  Every transition of the code is a closure given to [mutate]; here it is
    a value of the monad [Mut], which keeps the changes made before an error.  A
    transition has two parts, [commit] under the lock of the session and [dispatch]
    after it, so that calls of other threads can come in between.

    A lease is the number of permits of a slot and of bytes it holds.  [Oracle] has
    the readings of the wall clock and the answers of the allocator, by the sequence
    number of the event they are asked for.  Logging is left out, and with it the
    fields that only feed it ([ReconnectLog], [LifecycleLog]). *)

From S2P Require Import Prelude F64 Backoff RetrySchedule RetryState Errors WsRetry WsOptions Cancellation WsTask IndexedHeap OperationControl NativePending PriorityWriteQueue WsConfig Dispatch EventStream StateStream ConnectionEvent ConnectionHistory.

(** ** Failures of a connection *)

Module ConnectStage.
Inductive ConnectStage :=
| Provider | RequestBuild | Dns | Tcp | ProxyTls | ProxyConnect | Tls | WebSocketUpgrade | WebSocketIo
| EventDelivery.
End ConnectStage.
Abbreviation ConnectStage := ConnectStage.ConnectStage.

Record ConnectionFailure := mkConnectionFailure {
  cf_error : NetError;
  cf_stage : ConnectStage;
  cf_http_status : option Z;
  cf_retryable : bool;
}.

Definition connect_error_stage (s : ConnectStage) : ErrorStage :=
  match s with
  | ConnectStage.Provider => ErrorStage.Provider
  | ConnectStage.RequestBuild => ErrorStage.RequestBuild
  | ConnectStage.Dns => ErrorStage.Dns
  | ConnectStage.Tcp => ErrorStage.Tcp
  | ConnectStage.ProxyTls => ErrorStage.ProxyTls
  | ConnectStage.ProxyConnect => ErrorStage.Proxy
  | ConnectStage.Tls => ErrorStage.Tls
  | ConnectStage.WebSocketUpgrade => ErrorStage.Upgrade
  | ConnectStage.WebSocketIo => ErrorStage.Receive
  | ConnectStage.EventDelivery => ErrorStage.Dispatch
  end.

(** [http::StatusCode::from_u16] accepts three digits. *)
Definition connection_failure_new (error : NetError) (s : ConnectStage) (status : option Z) (retryable : bool) :
    ConnectionFailure :=
  let context := econtext error in
  let context := if is_none (stage context) then context <| stage := Some (connect_error_stage s) |> else context in
  let context := match status with
                 | Some v => if (100 <=? v) && (v <? 1000) then context <| http_status := Some v |> else context
                 | None => context
                 end in
  mkConnectionFailure (with_context error context) s status retryable.

Record ConnectionTerminationDetails := mkDetails {
  det_peer_close : option PeerClose;
  io_end_kind : option IoEndKind;
}.

Definition details_default : ConnectionTerminationDetails := mkDetails None None.

(** ** Leases *)

Module EventLease.
Inductive EventLease := Observed (slot bytes : Z) | Unobserved.
End EventLease.
Abbreviation EventLease := EventLease.EventLease.

(** [EventResources] of an observed event. *)
Record EventResources := mkEventResources { res_items : Z; res_bytes : Z }.

Abbreviation JournalStream := (EventState ConnectionEvent EventResources) (only parsing).
Abbreviation JournalPublication := (EventPublication ConnectionEvent EventResources) (only parsing).

(** [owner] is the identity of the session that gave the reservation. *)
Record AttemptReservation := mkAttemptReservation { owner : positive; resources : EventLease }.

Record AttemptContext := mkAttemptContext {
  ac_attempt : HandshakeAttempt;
  ac_credential_version : option string;
  ac_prepared : bool;
}.

#[export] Instance AttemptContext_settable : Settable AttemptContext :=
  fields! mkAttemptContext [ ac_attempt; ac_credential_version; ac_prepared ].

Record ActiveAttempt := mkActiveAttempt {
  aa_context : AttemptContext;
  result_slot : option EventLease;
  connection_slot : option EventLease;
  success_decided : bool;
}.

#[export] Instance ActiveAttempt_settable : Settable ActiveAttempt :=
  fields! mkActiveAttempt [ aa_context; result_slot; connection_slot; success_decided ].

Record ActiveConnection := mkActiveConnection { info : ConnectionInfo; terminal_slot : option EventLease }.

#[export] Instance ActiveConnection_settable : Settable ActiveConnection :=
  fields! mkActiveConnection [ info; terminal_slot ].

Record PendingEvent := mkPendingEvent { pe_event : ConnectionEvent; pe_lease : EventLease }.

(** ** The session *)

Record SessionState := mkSessionState {
  ss_snapshot : ConnectionSnapshot;
  ss_cycle : option Z;
  ss_reconnecting : bool;
  ss_closing : bool;
  ss_state_failed : bool;
  ss_terminal_slot : option EventLease;
  ss_attempt : option ActiveAttempt;
  ss_connection : option ActiveConnection;
  ss_last_attempt : option AttemptContext;
  ss_last_connection_end : option ConnectionEnd;
  ss_last_connection_info : option ConnectionInfo;
  ss_last_attempt_error : option NetError;
  ss_terminal_result : option (Result SessionEnd NetError);
  ss_last_sequence : Z;
  ss_terminated : bool;
  ss_delivery_error : option NetError;
}.

#[export] Instance SessionState_settable : Settable SessionState :=
  fields! mkSessionState [ ss_snapshot; ss_cycle; ss_reconnecting; ss_closing; ss_state_failed; ss_terminal_slot;
    ss_attempt; ss_connection; ss_last_attempt; ss_last_connection_end; ss_last_connection_info;
    ss_last_attempt_error; ss_terminal_result; ss_last_sequence; ss_terminated; ss_delivery_error ].

(** [Publication]: the effects of a transition that wait for its end; the arrays of three
    are lists. *)
Record Publication := mkPublication {
  pb_journal : list JournalPublication;
  pb_journal_finish : option JournalPublication;
  pb_journal_failure : option JournalPublication;
  pb_unobserved : list PendingEvent;
  pb_history : list (ConnectionEvent * HistoryPublication);
  pb_history_failure : option HistoryPublication;
  pb_snapshot : option (StatePublication ConnectionSnapshot);
  pb_snapshot_failure : option (StatePublication ConnectionSnapshot);
  pb_next_state : option ConnectionState;
  pb_next_error : option NetError;
  pb_pending : option PendingEvent;
  pb_attempt : option ActiveAttempt;
  pb_connection : option ActiveConnection;
  pb_terminal_slot : option EventLease;
  pb_refunds : list Z;
  pb_close : bool;
  pb_failed : bool;
}.

#[export] Instance Publication_settable : Settable Publication :=
  fields! mkPublication [ pb_journal; pb_journal_finish; pb_journal_failure; pb_unobserved; pb_history;
    pb_history_failure; pb_snapshot; pb_snapshot_failure; pb_next_state; pb_next_error; pb_pending; pb_attempt;
    pb_connection; pb_terminal_slot; pb_refunds; pb_close; pb_failed ].

Definition publication_new : Publication :=
  mkPublication [] None None [] [] None None None None None None None None None [] false false.

Record SessionCloseRequest := mkSessionCloseRequest { close_frame : option (Z * string); close_deadline : Instant }.

Record CloseRequestState := mkCloseRequestState { requested : bool; close_req : option SessionCloseRequest }.

Record Oracle := mkOracle {
  wall : Z -> SystemTime;
  connected_wall : SystemTime;
  history_reserve : Z -> bool;
  view_reserve : Z -> bool;
  state_reserve : bool;
}.

Definition session_internal : NetError := with_stage (NetError_new ErrorKind.Internal) ErrorStage.Dispatch.

(** Scope of the notation of [Mut]. *)
Declare Scope mut_scope.
Delimit Scope mut_scope with mut.
Open Scope mut_scope.

Section Session.
Context {sem : Semaphores}.
Context (max_permits event_base : Z).

Record JournalBudget := mkJournalBudget {
  jb_publisher : EventRegistration;
  jb_stream : EventState ConnectionEvent EventResources;
  jb_slots : Sem;
  jb_bytes : Sem;
}.

#[export] Instance JournalBudget_settable : Settable JournalBudget :=
  fields! mkJournalBudget [ jb_publisher; jb_stream; jb_slots; jb_bytes ].

Record Session := mkSession {
  client_instance_id : ClientId;
  own_session_id : SessionId;
  own_metadata : Metadata;
  st : SessionState;
  history : ConnectionHistory;
  state_source : SourceState ConnectionSnapshot;
  identity : positive;
  journal : option JournalBudget;
  cancel_requested : bool;
  cancel_selected : bool;
  close_requested : bool;
  close_request : CloseRequestState;
  finished : bool;
}.

#[export] Instance Session_settable : Settable Session :=
  fields! mkSession [ client_instance_id; own_session_id; own_metadata; st; history; state_source; identity; journal;
    cancel_requested; cancel_selected; close_requested; close_request; finished ].

(** [new_with_observers]; [permit] is the answer of the quota of the client, [reserve] of the
    allocator. *)
Definition session_new (client session : Z) (options : option JournalOptions) (metadata : Metadata)
    (event_options : EventOptions) (id : positive) (permit reserve : bool) : Result Session NetError :=
  let? _ := match options with Some o => journal_options_validate max_permits o | None => Ok tt end in
  let snapshot := mkConnectionSnapshot 0 session ConnectionState.Connecting None in
  let? h := history_new max_permits reserve event_options in
  let? (budget, slot) :=
    match options with
    | Some o =>
        if negb permit then Err (NetError_new ErrorKind.SubscriptionLimitReached)
        else
          let? (publisher, stream) :=
            event_channel max_permits reserve (mkEventQueueLimit (jo_max_events o) (jo_max_bytes o))
              EventOverflow.Wait true in
          let? slots := map_err (fun _ => session_internal) (try_acquire_many (sem_new (jo_max_events o)) 1) in
          let? bytes := map_err (fun _ => session_internal)
                          (try_acquire_many (sem_new (jo_max_bytes o)) MAX_CONNECTION_EVENT_BYTES) in
          Ok (Some (mkJournalBudget publisher stream slots bytes), EventLease.Observed 1 MAX_CONNECTION_EVENT_BYTES)
    | None => Ok (None, EventLease.Unobserved)
    end in
  Ok {| client_instance_id := client; own_session_id := session; own_metadata := metadata;
        st := mkSessionState snapshot None false false false (Some slot) None None None None None None None 0 false None;
        history := h; state_source := source_new snapshot; identity := id; journal := budget;
        cancel_requested := false; cancel_selected := false; close_requested := false;
        close_request := mkCloseRequestState false None; finished := false |}.

(** ** Returning permits *)

Definition release_lease (s : Session) (lease : EventLease) : Session :=
  match lease, journal s with
  | EventLease.Observed slot bytes, Some j =>
      s <| journal := Some (j <| jb_slots := sem_release (jb_slots j) slot;
                                 jb_bytes := sem_release (jb_bytes j) bytes |>) |>
  | _, _ => s
  end.

(** Entries that left the journal return what they hold. *)
Definition release_entries (s : Session) (es : list (Entry ConnectionEvent EventResources)) : Session :=
  foldl (fun s e => match entry_resources e with
                    | Some r => release_lease s (EventLease.Observed (res_items r) (res_bytes r))
                    | None => s
                    end) s es.

(** ** Transitions *)

Definition Mut (A : Type) : Type := Session -> Publication -> Session * Publication * Result A NetError.

Definition mut_ret {A} (a : A) : Mut A := fun s p => (s, p, Ok a).

Definition mut_lift {A} (r : Result A NetError) : Mut A := fun s p => (s, p, r).

Definition mut_bind {A B} (m : Mut A) (k : A -> Mut B) : Mut B := fun s p =>
  let '(s, p, r) := m s p in
  match r with Ok a => k a s p | Err error => (s, p, Err error) end.

Definition mut_state : Mut SessionState := fun s p => (s, p, Ok (st s)).

Definition mut_get {A} (f : Session -> A) : Mut A := fun s p => (s, p, Ok (f s)).

Definition set_st (f : SessionState -> SessionState) : Mut () := fun s p => (s <| st ::= f |>, p, Ok tt).

Definition set_pub (f : Publication -> Publication) : Mut () := fun s p => (s, f p, Ok tt).

#[local] Notation "'let!' x ':=' e 'in' k" := (mut_bind e (fun x => k))
  (at level 10, x name, e at level 200, k at level 200) : mut_scope.

(** ** Publishing a fact *)

Definition detached_journal_error (s : Session) (error : NetError) : bool :=
  bool_decide (kind error = ErrorKind.Closed) && is_some_and (journal s) (fun j => negb (eactive (jb_stream j))).

(** The byte permit of an observed event is cut to its size: the lease that stays and the refund. *)
Definition refund_lease (lease : EventLease) (size : Z) : Result (EventLease * list Z) NetError :=
  match lease with
  | EventLease.Observed slot bytes =>
      let? refund := ok_or (checked_sub bytes size) session_internal in
      Ok (EventLease.Observed slot (bytes - refund), [refund])
  | EventLease.Unobserved => Ok (EventLease.Unobserved, [])
  end.

Definition lease_resources (lease : EventLease) : option EventResources :=
  match lease with
  | EventLease.Observed slot bytes => Some (mkEventResources slot bytes)
  | EventLease.Unobserved => None
  end.

(** The history is told first; its failure never fails the session. *)
Definition publish_history (ox : Oracle) (event : ConnectionEvent) : Mut () := fun s p =>
  if 3 <=? Z.of_nat (length (pb_history p)) then (s, p, Err session_internal)
  else
    let n := sequence event in
    let '(h, hp) := history_record event_base (history_reserve ox n) (view_reserve ox n) (history s) event in
    let p := p <| pb_history ::= fun l => l ++ [(event, hp)] |> in
    match hp_result hp, pb_history_failure p with
    | Err error, None =>
        let '(h, failure) := history_fail h error in
        (s <| history := h |>, p <| pb_history_failure := Some failure |>, Ok tt)
    | _, _ => (s <| history := h |>, p, Ok tt)
    end.

(** The journal takes the event with its lease; a detached receiver is no failure. *)
Definition publish_journal (event : ConnectionEvent) (size : Z) (lease : EventLease) : Mut () := fun s p =>
  match journal s with
  | Some j =>
      if 3 <=? Z.of_nat (length (pb_journal p)) then (s, p, Err session_internal)
      else
        let '(stream, ep) := commit_publish (jb_publisher j) true (jb_stream j)
                               (mkEntry event size (lease_resources lease)) in
        let s := s <| journal := Some (j <| jb_stream := stream |>) |> in
        let p := p <| pb_pending := None; pb_journal ::= fun l => l ++ [ep] |> in
        match (let? accepted := ep_result ep in admission_result accepted) with
        | Err error => if detached_journal_error s error then (s, p, Ok tt) else (s, p, Err error)
        | Ok _ => (s, p, Ok tt)
        end
  | None =>
      if 3 <=? Z.of_nat (length (pb_unobserved p)) then (s, p, Err session_internal)
      else (s, p <| pb_unobserved ::= (fun l => l ++ [mkPendingEvent event lease]); pb_pending := None |>, Ok tt)
  end.

Definition publish (ox : Oracle) (k : ConnectionEventKind) (lease : EventLease) : Mut () := fun s p =>
  let last := ss_last_sequence (st s) in
  let event := mkConnectionEvent 0 (client_instance_id s) (own_session_id s) (wall ox (last + 1)) k in
  let p := p <| pb_pending := Some (mkPendingEvent event lease); pb_failed := true |> in
  match checked_add u64_max last 1 with
  | None => (s, p, Err (with_stage (NetError_new ErrorKind.ResourceExhausted) ErrorStage.Dispatch))
  | Some n =>
      match measured_size event_base event with
      | Err error => (s, p, Err error)
      | Ok size =>
          match refund_lease lease size with
          | Err error => (s, p, Err error)
          | Ok (kept, refund) =>
              if 3 <? Z.of_nat (length (pb_refunds p ++ refund)) then (s, p, Err session_internal)
              else
                let event := event <| sequence := n |> in
                let s := s <| st ::= fun x => x <| ss_last_sequence := n |> |> in
                let p := p <| pb_pending := Some (mkPendingEvent event kept); pb_refunds ::= fun l => l ++ refund |> in
                (let! _ := publish_history ox event in
                 let! _ := publish_journal event size kept in
                 set_pub (fun p => p <| pb_failed := false |>)) s p
          end
      end
  end.

(** ** Errors of a session *)

Definition annotate (s : Session) (error : NetError) (attempt : option HandshakeAttempt) (connection : option ConnectionInfo)
    (d : option HandshakeDiagnostic) (details : option ConnectionTerminationDetails) : NetError :=
  let c := (econtext error) <| client_id := Some (client_instance_id s); session_id := Some (own_session_id s) |> in
  let c := match attempt with Some a => c <| attempt_id := Some (ha_attempt_id a) |> | None => c end in
  let c := match connection with
           | Some i => c <| connection_id := Some (ci_connection_id i); attempt_id := Some (ci_attempt_id i) |>
           | None => c
           end in
  let c := if is_some d then c <| diagnostic := d |> else c in
  let c := match details with
           | Some details =>
               let c := if is_some (det_peer_close details) then c <| peer_close := det_peer_close details |> else c in
               if is_some (io_end_kind details) then c <| io_end := io_end_kind details |> else c
           | None => c
           end in
  with_context error c.

Definition reason_error (reason : TerminationReason) : NetError :=
  with_stage (NetError_new
    match reason with
    | TerminationReason.Cancelled | TerminationReason.LocalClose | TerminationReason.ClientShutdown
    | TerminationReason.PeerClose => ErrorKind.Cancelled
    | TerminationReason.EngineDropped => ErrorKind.EngineDropped
    | TerminationReason.RetryExhausted => ErrorKind.RetryExhausted
    | TerminationReason.ConnectFailed => ErrorKind.NotConnected
    | TerminationReason.IoFailure | TerminationReason.NetworkUnavailable => ErrorKind.Io
    end) ErrorStage.Close.

(** ** The end of a transition *)

(** An event that could not be published ends the session with the error. *)
Definition fail_session (result : Result () NetError) (s : Session) (p : Publication) : Session * Publication :=
  let x := st s in
  let x := match result with
           | Err error => x <| ss_delivery_error := Some error;
                               ss_terminal_result ::= fun r => option_or r (Some (Err error)) |>
           | Ok _ => x
           end in
  let x' := x <| ss_attempt ::= (fun a => if is_none (pb_attempt p) then None else a);
                 ss_connection ::= (fun c => if is_none (pb_connection p) then None else c) |> in
  let p := p <| pb_attempt ::= (fun a => option_or a (ss_attempt x)); pb_connection ::= (fun c => option_or c (ss_connection x)) |> in
  let x := x' in
  let p := p <| pb_terminal_slot := ss_terminal_slot x; pb_close := true |> in
  let x := x <| ss_terminated := true; ss_terminal_slot := None; ss_closing := true |> in
  let p := match ss_terminal_result x with
           | Some r => p <| pb_next_state := Some (ConnectionState.Closed r);
                            pb_next_error := match r with Err error => Some error | Ok _ => None end |>
           | None => p
           end in
  match ss_delivery_error x, pb_history_failure p with
  | Some error, None =>
      let '(h, failure) := history_fail (history s) error in
      (s <| st := x; history := h |>, p <| pb_history_failure := Some failure |>)
  | _, _ => (s <| st := x |>, p)
  end.

(** [prepare_snapshot] *)
Definition prepare_snapshot (ox : Oracle) (s : Session) (p : Publication) : Session * Publication :=
  if is_none (pb_next_state p) && is_none (pb_next_error p) then (s, p)
  else
    let x := st s in
    match checked_add u64_max (snap_revision (ss_snapshot x)) 1 with
    | None =>
        if ss_state_failed x then (s, p)
        else
          let '(source, failure) := prepare_failure (state_source s) (NetError_new ErrorKind.ResourceExhausted) in
          (s <| state_source := source; st := x <| ss_state_failed := true |> |>,
           p <| pb_snapshot_failure := Some failure |>)
    | Some revision =>
        let snapshot := mkConnectionSnapshot revision (snap_session_id (ss_snapshot x))
                          (default (snap_state (ss_snapshot x)) (pb_next_state p))
                          (option_or (pb_next_error p) (snap_last_error (ss_snapshot x))) in
        let p := p <| pb_next_state := None; pb_next_error := None |> in
        let x := x <| ss_snapshot := snapshot |> in
        if ss_state_failed x then (s <| st := x |>, p)
        else
          let '(source, effect) := if ss_terminated x then prepare_finish_value (state_source s) snapshot
                                   else prepare_value (state_reserve ox) (state_source s) snapshot in
          let p := p <| pb_snapshot := Some effect |> in
          match sp_result effect with
          | Err error =>
              let '(source, failure) := prepare_failure source error in
              (s <| state_source := source; st := x <| ss_state_failed := true |> |>,
               p <| pb_snapshot_failure := Some failure |>)
          | Ok _ => (s <| state_source := source; st := x |>, p)
          end
    end.

(** The journal fails or finishes with the session. *)
Definition end_journal (s : Session) (p : Publication) : Session * Publication :=
  match journal s with
  | None => (s, p)
  | Some j =>
      if pb_failed p then
        match ss_delivery_error (st s) with
        | Some error =>
            let '(stream, ep) := prepare_finish (jb_stream j) (Some error) in
            (s <| journal := Some (j <| jb_stream := stream |>) |>, p <| pb_journal_failure := Some ep |>)
        | None => (s, p)
        end
      else if pb_close p then
        let '(stream, ep) := prepare_finish (jb_stream j) None in
        (s <| journal := Some (j <| jb_stream := stream |>) |>, p <| pb_journal_finish := Some ep |>)
      else (s, p)
  end.

(** [mutate] under the lock of the session. *)
Definition commit (ox : Oracle) (operation : Mut ()) (s : Session) : Session * Publication * Result () NetError :=
  let '(s, p, result) := operation s publication_new in
  let '(s, p) := if pb_failed p then fail_session result s p else (s, p) in
  let '(s, p) := prepare_snapshot ox s p in
  let '(s, p) := end_journal s p in
  (s, p, result).

Definition close_journal_budget (s : Session) : Session :=
  match journal s with
  | Some j => s <| journal := Some (j <| jb_slots ::= sem_close; jb_bytes ::= sem_close |>) |>
  | None => s
  end.

(** [EventPublication::dispatch] for the journal: what was refused or retired is dropped, and the
    driver of a callback runs or detaches the receiver; [submit] is the answer of the executor. *)
Definition dispatch_journal (submit : option NetError) (s : Session) (ep : JournalPublication) : Session :=
  match journal s with
  | None => s
  | Some j =>
      let '(stream, dropped) :=
        if ep_schedule ep then
          let '(stream, call) := schedule_lock (jb_stream j) in
          match (if call then submit else None) with
          | Some error => event_fail stream error
          | None => (stream, [])
          end
        else (jb_stream j, []) in
      release_entries (s <| journal := Some (j <| jb_stream := stream |>) |>)
        (option_list (ep_input ep) ++ ep_retired ep ++ dropped)
  end.

(** The leases a publication still owns when it is dropped. *)
Definition publication_leases (p : Publication) : list EventLease :=
  (pe_lease <$> option_list (pb_pending p)) ++
  (option_list (pb_attempt p) ≫= fun a => option_list (result_slot a) ++ option_list (connection_slot a)) ++
  (option_list (pb_connection p) ≫= fun c => option_list (terminal_slot c)) ++
  option_list (pb_terminal_slot p) ++ (EventLease.Observed 0 <$> pb_refunds p) ++ (pe_lease <$> pb_unobserved p).

(** [mutate] after the lock: the effects, the leases that were not used, and the end. *)
Definition dispatch (submit : option NetError) (s : Session) (p : Publication) : Session :=
  let s := foldl (dispatch_journal submit) s (pb_journal p) in
  let s := foldl (dispatch_journal submit) s (option_list (pb_journal_finish p) ++ option_list (pb_journal_failure p)) in
  let s := foldl (fun s hp => s <| history ::= fun h => history_dispatch submit h hp |>) s
             ((pb_history p).*2 ++ option_list (pb_history_failure p)) in
  let s := foldl release_lease s (publication_leases p) in
  if pb_close p
  then (close_journal_budget (s <| cancel_selected := true; cancel_requested := true |>)) <| finished := true |>
  else s.

(** ** Progress *)

Definition session_cancelled : NetError := NetError_new ErrorKind.Cancelled.

Definition check_progress (x : SessionState) (cycle : Z) : Result () NetError :=
  if ss_terminated x || ss_closing x || is_some (ss_connection x) || negb (bool_decide (ss_cycle x = Some cycle))
  then Err session_cancelled else Ok tt.

Definition check_attempt (x : SessionState) (cycle attempt : Z) : Result () NetError :=
  if negb (ss_terminated x) && negb (ss_closing x)
     && is_some_and (ss_attempt x) (fun a =>
          (ha_cycle_id (ac_attempt (aa_context a)) =? cycle) && (ha_attempt_id (ac_attempt (aa_context a)) =? attempt))
  then Ok tt else Err session_cancelled.

Definition preparing_state (x : SessionState) (next_attempt_at : option Instant) : Result ConnectionState NetError :=
  if ss_reconnecting x then
    let? cycle := ok_or (ss_cycle x) session_internal in
    Ok (ConnectionState.Reconnecting cycle next_attempt_at)
  else Ok ConnectionState.Connecting.

(** The state of the session while it prepares an attempt becomes the next snapshot. *)
Definition show_preparing (next_attempt_at : option Instant) : Mut () :=
  let! x := mut_state in
  let! next := mut_lift (preparing_state x next_attempt_at) in
  set_pub (fun p => p <| pb_next_state := Some next |>).

Definition begin_cycle (cycle : Z) (reconnecting : bool) : Mut () :=
  let! x := mut_state in
  if ss_terminated x || ss_closing x || is_some (ss_connection x) || is_some (ss_attempt x)
     || is_some_and (ss_cycle x) (fun current => cycle <? current)
  then mut_lift (Err session_cancelled)
  else
    let! _ := set_st (fun x => x <| ss_cycle := Some cycle; ss_reconnecting := reconnecting |>) in
    show_preparing None.

Definition waiting_for_network (cycle : Z) : Mut () :=
  let! x := mut_state in
  let! _ := mut_lift (check_progress x cycle) in
  set_pub (fun p => p <| pb_next_state := Some ConnectionState.WaitingForNetwork |>).

Definition preparing_attempt (cycle : Z) (next_attempt_at : option Instant) : Mut () :=
  let! x := mut_state in
  let! _ := mut_lift (check_progress x cycle) in
  let! _ := set_st (fun x => x <| ss_reconnecting ::= orb (is_some next_attempt_at) |>) in
  show_preparing next_attempt_at.

Definition begin_closing : Mut () :=
  let! x := mut_state in
  if negb (ss_terminated x) && negb (ss_closing x) then
    let! _ := set_st (fun x => x <| ss_closing := true |>) in
    set_pub (fun p => p <| pb_next_state := Some ConnectionState.Closing |>)
  else mut_ret tt.

(** ** Attempts *)

(** [handshake_attempt] *)
Definition handshake_attempt (s : Session) (cycle attempt : Z) : HandshakeAttempt :=
  mkHandshakeAttempt (client_instance_id s) (own_session_id s) cycle attempt (own_metadata s).

(** [reserve_attempt] waits at two places.  Each of the three functions is what it does between
    them, when its [select] chooses a branch; [RWait] when none is ready.  A wait that is given up
    returns the permits it holds. *)
Inductive Reserving :=
| RWait
| RSlots (slots : Z)
| RBytes (slots bytes : Z)
| RDone (result : Result AttemptReservation NetError).

Definition unobserved_reservation (s : Session) : AttemptReservation := mkAttemptReservation (identity s) EventLease.Unobserved.

Definition journal_active (s : Session) : option JournalBudget :=
  match journal s with Some j => if eactive (jb_stream j) then Some j else None | None => None end.

Definition reserve_slots (s : Session) : Session * Reserving :=
  if cancel_requested s then (s, RDone (Err session_cancelled))
  else
    match journal_active s with
    | None => (s, RDone (Ok (unobserved_reservation s)))
    | Some j =>
        match try_acquire_many (jb_slots j) 3 with
        | Ok slots => (s <| journal := Some (j <| jb_slots := slots |>) |>, RSlots 3)
        | Err TryAcquireError.Closed => (s, RDone (Err session_cancelled))
        | Err TryAcquireError.NoPermits => (s, RWait)
        end
    end.

Definition reserve_bytes (s : Session) (slots : Z) : Session * Reserving :=
  let held := EventLease.Observed slots 0 in
  if cancel_requested s then (release_lease s held, RDone (Err session_cancelled))
  else
    match journal_active s with
    | None => (release_lease s held, RDone (Ok (unobserved_reservation s)))
    | Some j =>
        match try_acquire_many (jb_bytes j) (3 * MAX_CONNECTION_EVENT_BYTES) with
        | Ok bytes => (s <| journal := Some (j <| jb_bytes := bytes |>) |>, RBytes slots (3 * MAX_CONNECTION_EVENT_BYTES))
        | Err TryAcquireError.Closed => (release_lease s held, RDone (Err session_cancelled))
        | Err TryAcquireError.NoPermits => (s, RWait)
        end
    end.

Definition reserve_finish (s : Session) (slots bytes : Z) : Session * Reserving :=
  let held := EventLease.Observed slots bytes in
  if cancel_requested s then (release_lease s held, RDone (Err session_cancelled))
  else if is_none (journal_active s) then (release_lease s held, RDone (Ok (unobserved_reservation s)))
  else (s, RDone (Ok (mkAttemptReservation (identity s) held))).

(** [split_lease]: the part and what remains. *)
Definition split_lease (lease : EventLease) : Result (EventLease * EventLease) NetError :=
  match lease with
  | EventLease.Observed slot bytes =>
      let? slot' := ok_or (checked_sub slot 1) session_internal in
      let? bytes' := ok_or (checked_sub bytes MAX_CONNECTION_EVENT_BYTES) session_internal in
      Ok (EventLease.Observed 1 MAX_CONNECTION_EVENT_BYTES, EventLease.Observed slot' bytes')
  | EventLease.Unobserved => Ok (EventLease.Unobserved, EventLease.Unobserved)
  end.

(** The order of attempts: by cycle, then by attempt. *)
Definition attempt_le (a b : HandshakeAttempt) : bool :=
  (ha_cycle_id a <? ha_cycle_id b) || ((ha_cycle_id a =? ha_cycle_id b) && (ha_attempt_id a <=? ha_attempt_id b)).

(** The guards of [begin_attempt]; [same_metadata] is [Arc::ptr_eq] on the metadata. *)
Definition begin_attempt_check (s : Session) (attempt : HandshakeAttempt) (from : positive) (same_metadata : bool) :
    Result ConnectionState NetError :=
  let x := st s in
  if ss_terminated x || ss_closing x || cancel_requested s then Err session_cancelled
  else if negb (bool_decide (from = identity s)) || negb (ha_client_id attempt =? client_instance_id s)
          || negb (ha_session_id attempt =? own_session_id s) || negb same_metadata
  then Err (NetError_new ErrorKind.InvalidConfig)
  else if is_some (ss_attempt x) || is_some (ss_connection x) then Err (NetError_new ErrorKind.SessionAlreadyExists)
  else if is_some_and (ss_last_attempt x) (fun previous => attempt_le attempt (ac_attempt previous))
  then Err session_cancelled
  else
    let? _ := check_progress x (ha_cycle_id attempt) in
    preparing_state x None.

Definition begin_attempt_op (ox : Oracle) (attempt : HandshakeAttempt) (next : ConnectionState)
    (started result connection : EventLease) : Mut () :=
  let context := mkAttemptContext attempt None false in
  let! _ := set_pub (fun p => p <| pb_next_state := Some next |>) in
  let! _ := set_st (fun x => x <| ss_last_attempt_error := None; ss_last_attempt := Some context;
                                  ss_attempt := Some (mkActiveAttempt context (Some result) (Some connection) false) |>) in
  publish ox (ConnectionEventKind.AttemptStarted attempt) started.

(** [begin_attempt] up to the end of its transition, with the leases it drops when it returns; those
    of another session go back to that session. *)
Definition session_begin_attempt (ox : Oracle) (s : Session) (attempt : HandshakeAttempt) (reservation : AttemptReservation)
    (same_metadata : bool) : Session * Publication * list EventLease * Result () NetError :=
  let dropped leases := if bool_decide (owner reservation = identity s) then leases else [] in
  match (let? (started, rest) := split_lease (resources reservation) in
         let? (result, rest) := split_lease rest in
         let? (connection, rest) := split_lease rest in
         Ok (started, result, connection, rest)) with
  | Err error => (s, publication_new, dropped [resources reservation], Err error)
  | Ok (started, result, connection, rest) =>
      match begin_attempt_check s attempt (owner reservation) same_metadata with
      | Err error =>
          let '(s, p, r) := commit ox (mut_lift (Err error)) s in
          (s, p, dropped [started; result; connection; rest], r)
      | Ok next =>
          let '(s, p, r) := commit ox (begin_attempt_op ox attempt next started result connection) s in
          (s, p, dropped [rest], r)
      end
  end.

Definition set_attempt_credential_version (s : Session) (cycle attempt : Z) (credential_version : option string) :
    Session * Result () NetError :=
  match check_attempt (st s) cycle attempt, ss_attempt (st s) with
  | Err error, _ => (s, Err error)
  | Ok _, None => (s, Err session_internal)
  | Ok _, Some a =>
      if ac_prepared (aa_context a) then (s, Err (NetError_new ErrorKind.InvalidConfig))
      else
        let context := (aa_context a) <| ac_credential_version := credential_version; ac_prepared := true |> in
        (s <| st ::= fun x => x <| ss_attempt := Some (a <| aa_context := context |>); ss_last_attempt := Some context |> |>, Ok tt)
  end.

(** The active attempt leaves the state and waits in the publication. *)
Definition take_attempt : Mut ActiveAttempt := fun s p =>
  let a := ss_attempt (st s) in
  (s <| st ::= fun x => x <| ss_attempt := None |> |>, p <| pb_attempt := a |>, ok_or a session_internal).

(** Its slot for the outcome is used. *)
Definition take_result_slot : Mut EventLease := fun s p =>
  match pb_attempt p with
  | Some a => (s, p <| pb_attempt := Some (a <| result_slot := None |>) |>, ok_or (result_slot a) session_internal)
  | None => (s, p, Err session_internal)
  end.

Definition attempt_failed_with_diagnostic (ox : Oracle) (cycle attempt : Z) (failure : ConnectionFailure)
    (retry : ConnectionRetry) (d : option HandshakeDiagnostic) : Mut () :=
  let! x := mut_state in
  let! _ := mut_lift (check_attempt x cycle attempt) in
  if is_some_and (ss_attempt x) success_decided then mut_lift (Err (NetError_new ErrorKind.InvalidConfig))
  else
    let! active := take_attempt in
    let context := aa_context active in
    let! error := mut_get (fun s => annotate s (cf_error failure) (Some (ac_attempt context)) None d None) in
    let! lease := take_result_slot in
    let! _ := publish ox (ConnectionEventKind.AttemptFailed (ac_attempt context) (ac_credential_version context) error retry) lease in
    let! _ := set_st (fun x => x <| ss_last_attempt_error := Some error |>) in
    let! _ := set_pub (fun p => p <| pb_next_error := Some error |>) in
    match retry with
    | ConnectionRetry.Scheduled _ =>
        let! _ := set_st (fun x => x <| ss_reconnecting := true |>) in
        show_preparing None
    | ConnectionRetry.Stop => mut_ret tt
    end.

Definition prepare_established (s : Session) (cycle attempt : Z) : Session * Result () NetError :=
  match check_attempt (st s) cycle attempt with
  | Err error => (s, Err error)
  | Ok _ =>
      if cancel_requested s then (s, Err session_cancelled)
      else
        match ss_attempt (st s) with
        | None => (s, Err session_internal)
        | Some a =>
            if negb (ac_prepared (aa_context a)) || success_decided a then (s, Err (NetError_new ErrorKind.InvalidConfig))
            else (s <| st ::= fun x => x <| ss_attempt := Some (a <| success_decided := true |>) |> |>, Ok tt)
        end
  end.

Definition commit_established (ox : Oracle) (cycle attempt : Z) : Mut () :=
  let! x := mut_state in
  let! _ := mut_lift (check_attempt x cycle attempt) in
  if is_none_or (ss_attempt x) (fun a => negb (success_decided a)) then mut_lift (Err (NetError_new ErrorKind.InvalidConfig))
  else
    let! active := take_attempt in
    let a := ac_attempt (aa_context active) in
    let i := mkConnectionInfo (ha_client_id a) (ha_session_id a) (ha_cycle_id a) (ha_cycle_id a) (ha_attempt_id a)
               (connected_wall ox) (ac_credential_version (aa_context active)) in
    let! lease := take_result_slot in
    let! _ := publish ox (ConnectionEventKind.Established i) lease in
    fun s p =>
      match pb_attempt p with
      | None => (s, p, Err session_internal)
      | Some active =>
          (s <| st ::= fun x => x <| ss_connection := Some (mkActiveConnection i (connection_slot active)) |> |>,
           p <| pb_attempt := Some (active <| connection_slot := None |>);
                pb_next_state := Some (ConnectionState.Connected i) |>, Ok tt)
      end.

(** ** Ends *)

Definition take_connection : Mut ActiveConnection := fun s p =>
  let c := ss_connection (st s) in
  (s <| st ::= fun x => x <| ss_connection := None |> |>, p <| pb_connection := c |>,
   ok_or c (NetError_new ErrorKind.Closed)).

Definition take_connection_slot : Mut EventLease := fun s p =>
  match pb_connection p with
  | Some c => (s, p <| pb_connection := Some (c <| terminal_slot := None |>) |>, ok_or (terminal_slot c) session_internal)
  | None => (s, p, Err session_internal)
  end.

Definition disconnect (ox : Oracle) (reason : TerminationReason) (failure : option ConnectionFailure)
    (details : ConnectionTerminationDetails) (next_cycle : option Z) : Mut () :=
  let! x := mut_state in
  if is_some_and next_cycle (fun next =>
       is_some_and (ss_connection x) (fun active => next <=? ci_cycle_id (info active)))
  then mut_lift (Err (NetError_new ErrorKind.InvalidInput))
  else
    let! active := take_connection in
    let! error := mut_get (fun s => (fun failure =>
                    annotate s (cf_error failure) None (Some (info active)) None (Some details)) <$> failure) in
    let e := mkConnectionEnd reason error (det_peer_close details) (io_end_kind details) in
    let! lease := take_connection_slot in
    let! _ := publish ox (ConnectionEventKind.Disconnected (info active) e) lease in
    let! _ := set_pub (fun p => p <| pb_next_error := error |>) in
    let! _ := set_st (fun x => x <| ss_last_connection_end := Some e; ss_last_connection_info := Some (info active) |>) in
    match next_cycle with
    | Some next =>
        let! _ := set_st (fun x => x <| ss_cycle := Some next; ss_reconnecting := true |>) in
        show_preparing None
    | None =>
        let! _ := set_st (fun x => x <| ss_closing := true |>) in
        set_pub (fun p => p <| pb_next_state := Some ConnectionState.Closing |>)
    end.

Definition connection_terminated_with_details (ox : Oracle) (reason : TerminationReason) (failure : option ConnectionFailure)
    (details : ConnectionTerminationDetails) (next_cycle : option Z) : Mut () :=
  let! x := mut_state in
  if ss_terminated x then mut_lift (Err session_cancelled) else disconnect ox reason failure details next_cycle.

(** The attempt that is running when the session ends fails with it. *)
Definition abandon_attempt (ox : Oracle) (reason : TerminationReason) (failure : option ConnectionFailure)
    (details : ConnectionTerminationDetails) : Mut () :=
  let! x := mut_state in
  if is_some (ss_attempt x) then
    let! active := take_attempt in
    let context := aa_context active in
    let cause := match failure with Some failure => cf_error failure | None => reason_error reason end in
    let! error := mut_get (fun s => annotate s cause (Some (ac_attempt context)) None None (Some details)) in
    let! lease := take_result_slot in
    publish ox (ConnectionEventKind.AttemptFailed (ac_attempt context) (ac_credential_version context) error
                  ConnectionRetry.Stop) lease
  else mut_ret tt.

(** The connection of the last attempt, when it was one. *)
Definition current_connection (x : SessionState) : option ConnectionInfo :=
  match ss_last_connection_info x with
  | Some i => if is_some_and (ss_last_attempt x) (fun last =>
                   (ha_cycle_id (ac_attempt last) =? ci_cycle_id i) && (ha_attempt_id (ac_attempt last) =? ci_attempt_id i))
              then Some i else None
  | None => None
  end.

(** What the same end has observed about its cause. *)
Definition observed_error (x : SessionState) (reason : TerminationReason) : option NetError :=
  if is_some (current_connection x) then
    match ss_last_connection_end x with
    | Some e => if bool_decide (end_reason e = reason) then end_error e else None
    | None => None
    end
  else
    match reason with
    | TerminationReason.ConnectFailed | TerminationReason.RetryExhausted => ss_last_attempt_error x
    | _ => None
    end.

Definition add_observations (error observed : NetError) : NetError :=
  let c := econtext error in
  let o := econtext observed in
  with_context error (c <| diagnostic := option_or (diagnostic c) (diagnostic o);
                           peer_close := option_or (peer_close c) (peer_close o); io_end := option_or (io_end c) (io_end o) |>).

(** The result of the session. *)
Definition terminal_result (s : Session) (reason : TerminationReason) (failure : option ConnectionFailure)
    (details : ConnectionTerminationDetails) : Result SessionEnd NetError :=
  let x := st s in
  match reason with
  | TerminationReason.LocalClose | TerminationReason.ClientShutdown | TerminationReason.PeerClose =>
      Ok (mkSessionEnd reason (ss_last_connection_end x))
  | _ =>
      let error := match failure with Some failure => cf_error failure | None => reason_error reason end in
      let error := match observed_error x reason with
                   | Some observed => if is_none failure then observed else add_observations error observed
                   | None => error
                   end in
      let error := if bool_decide (reason = TerminationReason.RetryExhausted)
                      && negb (bool_decide (kind error = ErrorKind.RetryExhausted))
                   then with_context (with_source ErrorKind.RetryExhausted (net_source error)) (econtext error)
                   else error in
      Err (annotate s error (ac_attempt <$> ss_last_attempt x) (current_connection x) None (Some details))
  end.

Definition take_terminal_slot : Mut EventLease := fun s p =>
  (s <| st ::= fun x => x <| ss_terminal_slot := None |> |>, p, ok_or (ss_terminal_slot (st s)) session_internal).

Definition terminate_op (ox : Oracle) (reason : TerminationReason) (failure : option ConnectionFailure)
    (details : ConnectionTerminationDetails) : Mut () :=
  let! x := mut_state in
  if ss_terminated x then mut_lift (match ss_delivery_error x with Some error => Err error | None => Ok tt end)
  else
    let! _ := abandon_attempt ox reason failure details in
    let! x := mut_state in
    let! _ := if is_some (ss_connection x) then disconnect ox reason failure details None else mut_ret tt in
    let! terminal := mut_get (fun s => terminal_result s reason failure details) in
    let! lease := take_terminal_slot in
    let! _ := publish ox (ConnectionEventKind.Closed terminal) lease in
    let! _ := set_pub (fun p => p <| pb_next_error ::= (fun e => match terminal with Err error => Some error | Ok _ => e end);
                                     pb_next_state := Some (ConnectionState.Closed terminal); pb_close := true |>) in
    set_st (fun x => x <| ss_terminal_result := Some terminal; ss_terminated := true; ss_closing := true |>).

(** [terminate_with_details] up to the end of its transition ... *)
Definition terminate_with_details (ox : Oracle) (s : Session) (reason : TerminationReason)
    (failure : option ConnectionFailure) (details : ConnectionTerminationDetails) : Session * Publication * Result () NetError :=
  commit ox (terminate_op ox reason failure details) (s <| cancel_selected := true; cancel_requested := true |>).

(** ... and after the effects of the transition. *)
Definition terminate_end (s : Session) : Session := (close_journal_budget s) <| finished := true |>.

(** ** Requests and readers *)

Definition request_cancel (s : Session) : Session * bool :=
  if cancel_selected s then (s, false) else (s <| cancel_selected := true; cancel_requested := true |>, true).

Definition session_request_close (s : Session) (frame : option (Z * string)) (deadline : Instant) : Session * bool :=
  if requested (close_request s) then (s, false)
  else (s <| close_request := mkCloseRequestState true (Some (mkSessionCloseRequest frame deadline)); close_requested := true |>, true).

Definition take_close_request (s : Session) : Session * option SessionCloseRequest :=
  (s <| close_request := mkCloseRequestState (requested (close_request s)) None |>, close_req (close_request s)).

(** [snapshot] *)
Definition session_snapshot (s : Session) : Result ConnectionSnapshot NetError := current_result (state_source s).

(** One turn of [wait_connected]; [None] when it waits. *)
Definition wait_connected (s : Session) : option (Result ConnectionInfo NetError) :=
  match ss_terminal_result (st s) with
  | Some (Err error) => Some (Err error)
  | Some (Ok _) => Some (Err (annotate s (NetError_new ErrorKind.Closed) None None None None))
  | None => if ss_closing (st s) then None else (fun c => Ok (info c)) <$> ss_connection (st s)
  end.

(** One turn of [closed]. *)
Definition session_closed (s : Session) : option (Result SessionEnd NetError) :=
  if finished s then Some (default (Err session_internal) (ss_terminal_result (st s))) else None.

End Session.

Notation "'let!' x ':=' e 'in' k" := (mut_bind e (fun x => k))
  (at level 10, x name, e at level 200, k at level 200) : mut_scope.
