(* ===== verification/HistoryTheory.v ===== *)
(** * Theorems about the history of a session

    [HistoryWorld] is a history with its receivers, who poll and leave at any time
    between the calls on the history; the end of a history reaches each of them at a
    time of its own ([HTerminal]).  [recorded] are the events of the session, and
    [outs] what each receiver has seen. *)

From S2P Require Import Prelude F64 Backoff RetrySchedule RetryState Errors WsRetry WsOptions Cancellation WsTask IndexedHeap OperationControl NativePending PriorityWriteQueue WsConfig Dispatch EventStream EventTheory StateStream ConnectionEvent ConnectionHistory.

Abbreviation Seen := (list (Received ConnectionEvent)) (only parsing).

Record HistoryWorld := mkHistoryWorld {
  hist : ConnectionHistory;
  outs : gmap SubscriptionId Seen;
  terminals : list (list SubscriptionId * option NetError);
  recorded : list ConnectionEvent;
}.

#[export] Instance HistoryWorld_settable : Settable HistoryWorld :=
  fields! mkHistoryWorld [ hist; outs; terminals; recorded ].

Inductive HistoryOp :=
| HRecord (reserve view_reserve : bool) (event : ConnectionEvent)
| HFail (error : NetError)
| HTerminal (n : nat)
| HSubscribe (permit reserve : bool) (id : SubscriptionId)
| HPoll (id : SubscriptionId)
| HUnsubscribe (id : SubscriptionId)
| HFailView (id : SubscriptionId) (error : NetError).

Section Theory.
Context (max_permits event_base : Z).
Context (base_unsigned : 0 <= event_base).

Definition alter_view (w : HistoryWorld) (id : SubscriptionId) (f : View -> View) : HistoryWorld :=
  match views (hist w) !! id with
  | Some v => w <| hist ::= fun h => set_view h id (f v) |>
  | None => w
  end.

Definition history_step (w : HistoryWorld) (op : HistoryOp) : HistoryWorld :=
  match op with
  | HRecord reserve view_reserve event =>
      let '(h, p) := history_record event_base reserve view_reserve (hist w) event in
      w <| hist := h; terminals ::= (fun l => l ++ [(hp_terminal p, hp_terminal_failure p)]);
           recorded ::= fun l => if is_ok (hp_result p) then l ++ [event] else l |>
  | HFail error =>
      let '(h, p) := history_fail (hist w) error in
      w <| hist := h; terminals ::= fun l => l ++ [(hp_terminal p, hp_terminal_failure p)] |>
  | HTerminal n =>
      match terminals w !! n with
      | Some (id :: ids, failure) =>
          w <| hist := (finish_view (hist w) id failure).1; terminals ::= <[n := (ids, failure)]> |>
      | _ => w
      end
  | HSubscribe permit reserve id =>
      match outs w !! id with
      | Some _ => w
      | None =>
          match history_subscribe max_permits permit reserve None (hist w) id with
          | (h, Ok _) => w <| hist := h; outs ::= <[id := []]> |>
          | (h, Err _) => w <| hist := h |>
          end
      end
  | HPoll id =>
      match views (hist w) !! id with
      | Some v =>
          let '(v, _, r) := poll_next v in
          w <| hist ::= (fun h => set_view h id v); outs ::= alter (fun l => l ++ [r]) id |>
      | None => w
      end
  | HUnsubscribe id => alter_view w id (fun v => (unsubscribe v).1.1)
  | HFailView id error => alter_view w id (fun v => (event_fail v error).1)
  end.

Definition history_run (w : HistoryWorld) (ops : list HistoryOp) : HistoryWorld := foldl history_step w ops.

(** ** What a receiver may see *)

(** The receiver is at [cursor] in the events: an item is the next event, a lag is the number of
    events it has missed. *)
Fixpoint witnessed (l : list ConnectionEvent) (cursor : nat) (o : Seen) : Prop :=
  match o with
  | [] => True
  | RItem e :: o => l !! cursor = Some e /\ witnessed l (S cursor) o
  | RError (ReceiveError.Lagged n) :: o =>
      0 < n /\ (cursor + Z.to_nat n <= length l)%nat /\ witnessed l (cursor + Z.to_nat n) o
  | RError (ReceiveError.Failed _) :: o | REmpty :: o | RClosed :: o => witnessed l cursor o
  end.

Definition position (o : Seen) : nat := foldl moved 0%nat o.

Lemma witnessed_more l l' o : forall cursor, witnessed l cursor o -> witnessed (l ++ l') cursor o.
Proof.
  induction o as [|[e|[n|error]| |] o IH]; intros cursor; simpl; auto.
  - intros [He Ho]. split; [by apply lookup_app_l_Some|by apply IH].
  - intros (Hn & Hl & Ho). rewrite length_app. split_and!; [done|lia|by apply IH].
Qed.

Lemma witnessed_snoc l o r : forall cursor,
  witnessed l cursor o -> witnessed l (foldl moved cursor o) [r] -> witnessed l cursor (o ++ [r]).
Proof.
  induction o as [|[e|[n|error]| |] o IH]; intros cursor; cbn [witnessed foldl moved app]; auto; [intros [? ?]|intros (? & ? & ?)]; auto.
Qed.

Lemma position_snoc o r : position (o ++ [r]) = moved (position o) r.
Proof. unfold position. by rewrite foldl_app. Qed.

(** ** The invariant *)

Definition total_size (entries : list (ConnectionEvent * Z)) : Z := foldr (fun e acc => e.2 + acc) 0 entries.

Definition valid_options (o : EventOptions) : Prop := 1 <= eo_max_events o /\ 1 <= eo_max_bytes o <= u32_max.

Record view_ok (w : HistoryWorld) (id : SubscriptionId) (v : View) : Prop := {
  vo_queue : queue_inv (view_registration (hist w)) v;
  vo_seen : exists o upto, outs w !! id = Some o /\ witnessed (recorded w) 0 o /\ (upto <= length (recorded w))%nat /\
    rel v (Some <$> take upto (recorded w)) (position o) /\
    (eactive v = true -> source_closed v = false -> upto = length (recorded w));
  vo_listed : eactive v = true -> source_closed v = false -> h_closed (hist w) = false -> id ∈ h_publishers (hist w);
}.

Record retains (h : ConnectionHistory) (l : list ConnectionEvent) : Prop := {
  rt_last : h_last_sequence h = Z.of_nat (length l);
  rt_sequence i e : l !! i = Some e -> sequence e = Z.of_nat i + 1;
  rt_entries : (h_entries h).*1 = drop (length l - length (h_entries h)) l;
  rt_bytes : h_bytes h = total_size (h_entries h);
  rt_sizes : Forall (fun e => 0 <= e.2) (h_entries h);
  rt_max_bytes : h_bytes h <= eo_max_bytes (h_options h);
  rt_max_events : Z.of_nat (length (h_entries h)) <= eo_max_events (h_options h);
}.

Record history_inv (w : HistoryWorld) : Prop := {
  hi_options : valid_options (h_options (hist w));
  hi_retains : retains (hist w) (recorded w);
  hi_nodup : NoDup (h_publishers (hist w));
  hi_listed id : id ∈ h_publishers (hist w) -> is_Some (views (hist w) !! id);
  hi_views id v : views (hist w) !! id = Some v -> view_ok w id v;
}.

(** ** Receivers *)

Lemma view_ok_frame w w' id v :
  h_options (hist w') = h_options (hist w) -> h_closed (hist w') = h_closed (hist w) ->
  h_publishers (hist w') = h_publishers (hist w) -> outs w' !! id = outs w !! id -> recorded w' = recorded w ->
  view_ok w id v -> view_ok w' id v.
Proof.
  intros Ho Hc Hp Hout Hr [H1 H2 H3]. split; unfold view_registration in *; rewrite ?Ho, ?Hc, ?Hp, ?Hout, ?Hr; done.
Qed.

(** One receiver changes, with what it has seen. *)
Lemma update_view_inv w id v v' (outs' : gmap SubscriptionId Seen) :
  history_inv w -> views (hist w) !! id = Some v -> (forall id', id' <> id -> outs' !! id' = outs w !! id') ->
  view_ok (w <| hist ::= (fun h => set_view h id v'); outs := outs' |>) id v' ->
  history_inv (w <| hist ::= (fun h => set_view h id v'); outs := outs' |>).
Proof.
  intros [H1 [] H3 H4 H5] Hv Hout Hok. split; [exact H1|by split|exact H3|..].
  - intros id' Hin. simpl. destruct (decide (id = id')) as [<-|Hne]; [rewrite lookup_insert_eq; by eexists|].
    rewrite lookup_insert_ne by done. by apply H4.
  - intros id' v1. simpl. destruct (decide (id = id')) as [<-|Hne]; [rewrite lookup_insert_eq; by intros [= <-]|].
    rewrite lookup_insert_ne by done. intros Hv1. eapply view_ok_frame; [..|by apply H5]; try done. by apply Hout.
Qed.

(** A change beside the queue, towards the end of the stream. *)
Definition fades (reg : EventRegistration) (v v' : View) : Prop :=
  (queue_inv reg v -> queue_inv reg v') /\ (forall stream cursor, queue_inv reg v -> rel v stream cursor -> rel v' stream cursor) /\
  (eactive v' = true -> source_closed v' = false -> eactive v = true /\ source_closed v = false).

Lemma fades_ok w id v v' : view_ok w id v -> fades (view_registration (hist w)) v v' -> view_ok w id v'.
Proof.
  intros [H1 (o & upto & Ho & Hw & Hu & Hr & Hopen) H3] (F1 & F2 & F3). split; [by apply F1| |].
  - exists o, upto. split_and!; try done; [by apply F2|]. intros Ha Hc. destruct (F3 Ha Hc). by apply Hopen.
  - intros Ha Hc. destruct (F3 Ha Hc). by apply H3.
Qed.

Lemma fades_inv w id v v' :
  history_inv w -> views (hist w) !! id = Some v -> fades (view_registration (hist w)) v v' ->
  history_inv (w <| hist ::= fun h => set_view h id v' |>).
Proof.
  intros Hi Hv Hf. pose proof (update_view_inv w id v v' (outs w) Hi Hv (fun _ _ => eq_refl)) as Hup.
  assert (w <| hist ::= (fun h => set_view h id v'); outs := outs w |> = w <| hist ::= (fun h => set_view h id v') |>) as Heq
    by by destruct w.
  rewrite Heq in Hup. apply Hup. eapply view_ok_frame; [..|eapply fades_ok; [by apply Hi|exact Hf]]; done.
Qed.

Lemma finish_fades reg v failure : fades reg v (prepare_finish v failure).1.
Proof.
  unfold prepare_finish, fades. destruct (eactive v && negb (source_closed v)) eqn:Ha; simpl.
  - split; [intros []; by split|]. split; [done|]. by intros.
  - split_and!; try done.
Qed.

Lemma unsubscribe_fades reg v : valid_limit reg -> fades reg v (unsubscribe v).1.1.
Proof.
  intros Hv. split; [by intros Hq; destruct (unsubscribe_inv reg v Hv Hq)|]. split.
  - intros stream cursor Hq Hr. destruct (unsubscribe_inv reg v Hv Hq) as [_ Hd]. unfold rel. by rewrite Hd.
  - unfold unsubscribe. destruct (eactive v) eqn:Ha; simpl; [done|]. congruence.
Qed.

Lemma fail_fades reg v error : valid_limit reg -> fades reg v (event_fail v error).1.
Proof.
  intros Hv. unfold event_fail. destruct (callback_installing v).
  - split; [intros []; by split|]. by split.
  - set (v1 := v <| final_error ::= fun e => option_or e (Some error) |>).
    destruct (unsubscribe_fades reg v1 Hv) as (F1 & F2 & F3). split; [intros Hq; apply F1; by destruct Hq|].
    split; [intros stream cursor Hq Hr; apply F2; [by destruct Hq|exact Hr]|exact F3].
Qed.

Lemma registration_valid w : history_inv w -> valid_limit (view_registration (hist w)).
Proof. intros [[? ?] _ _ _ _]. split; simpl; lia. Qed.

Lemma finish_view_inv w id failure :
  history_inv w -> history_inv (w <| hist := (finish_view (hist w) id failure).1 |>).
Proof.
  intros Hi. unfold finish_view. destruct (views (hist w) !! id) as [v|] eqn:Hv; [|by destruct w].
  pose proof (finish_fades (view_registration (hist w)) v failure) as Hf.
  destruct (prepare_finish v failure) as [v' p]. exact (fades_inv _ _ _ _ Hi Hv Hf).
Qed.

(** ** Polling *)

Lemma sees_witnessed live upto l cursor r :
  (upto <= length l)%nat -> sees live (Some <$> take upto l) cursor r -> witnessed l cursor [r].
Proof.
  intros Hu. destruct r as [e|[n|error]| |]; simpl; try done.
  - intros [_ He]. split; [|done]. rewrite list_lookup_fmap in He. destruct (take upto l !! cursor) as [e'|] eqn:Ht; [|done].
    injection He as ->. by apply lookup_take_Some in Ht as [? _].
  - intros (_ & Hn & Hl). rewrite length_fmap, length_take in Hl. split_and!; [done|lia|done].
Qed.

Lemma poll_inv w id v :
  history_inv w -> views (hist w) !! id = Some v ->
  let '(v', _, r) := poll_next v in
  history_inv (w <| hist ::= (fun h => set_view h id v'); outs ::= alter (fun l => l ++ [r]) id |>).
Proof.
  intros Hi Hv. pose proof (hi_views _ Hi _ _ Hv) as [H1 (o & upto & Ho & Hw & Hu & Hr & Hopen) H3].
  pose proof (registration_valid _ Hi) as Hval. unfold poll_next. destruct (event_next v) as [v1 d] eqn:Hn.
  destruct (next_steps _ _ _ _ _ _ Hval H1 Hr Hn) as (Q & R & S & A).
  assert (source_closed v1 = source_closed v) as Hsc by (unfold event_next in Hn; by repeat case_match; simplify_eq/=).
  set (v' := match d with DDone => (unsubscribe v1).1.1 | DPending => v1 <| receive_waker := true |> | _ => v1 end).
  assert (exists es, deliver (match d with DPending => v1 <| receive_waker := true |> | _ => v1 end) d = (v', es, delivered d))
    as [es ->].
  { destruct d as [[e|e]| |]; simpl; [by eexists..| |by eexists]. destruct (unsubscribe v1) as [[? ?] ?]. by eexists. }
  change (history_inv (w <| hist ::= (fun h => set_view h id v'); outs := alter (fun l => l ++ [delivered d]) id (outs w) |>)).
  eapply update_view_inv; [exact Hi|exact Hv|intros id' Hne; by rewrite lookup_alter_ne|].
  assert (queue_inv (view_registration (hist w)) v' /\ rel v' (Some <$> take upto (recorded w)) (moved (position o) (delivered d)) /\
    (eactive v' = true -> source_closed v' = false -> eactive v = true /\ source_closed v = false)) as (Q' & R' & A').
  { subst v'. destruct d as [item| |]; simpl in *.
    - split_and!; [done|done|]. rewrite A, Hsc. by destruct item.
    - split_and!; [done|done|]. congruence.
    - split_and!; [destruct Q; by split|done|]. by rewrite A, Hsc. }
  split; [exact Q'| |].
  - exists (o ++ [delivered d]), upto. simpl. rewrite lookup_alter_eq, Ho. split_and!; [done| |done|by rewrite position_snoc|].
    + apply witnessed_snoc; [done|]. by eapply sees_witnessed.
    + intros Ha Hc. destruct (A' Ha Hc). by apply Hopen.
  - intros Ha Hc. destruct (A' Ha Hc). by apply H3.
Qed.

(** ** Recording *)

Lemma history_evict_spec options size entries : forall bytes,
  1 <= eo_max_events options -> 0 <= size <= eo_max_bytes options -> bytes = total_size entries ->
  exists n, history_evict options size entries bytes = Some (drop n entries, total_size (drop n entries)) /\
    (n <= length entries)%nat /\ Z.of_nat (length (drop n entries)) < eo_max_events options /\
    total_size (drop n entries) + size <= eo_max_bytes options.
Proof.
  induction entries as [|e entries IH]; intros bytes He Hs Hb; cbn [history_evict].
  - exists O. subst bytes. destruct (_ || _) eqn:Hfull.
    + exfalso. unfold total_size in Hfull. simpl in Hfull. apply orb_true_iff in Hfull as [Hf|Hf]; propify; lia.
    + unfold total_size. simpl. split_and!; [done|lia|lia|lia].
  - destruct (_ || _) eqn:Hfull.
    + destruct (IH (bytes - e.2) He Hs) as (n & Hn & ? & ? & ?); [unfold total_size in *; simpl in Hb; lia|].
      exists (S n). split_and!; [done|simpl; lia|done|done].
    + apply orb_false_iff in Hfull as [H1 H2]. propify. exists O. rewrite drop_0, <- Hb. split_and!; [done|lia|lia|lia].
Qed.

(** What one event does to a receiver that is told of it. *)
Definition told (reg : EventRegistration) (x : option ConnectionEvent) (stream : list (option ConnectionEvent))
    (cursor : nat) (v v' : View) : Prop :=
  queue_inv reg v' /\
  ((rel v' (stream ++ [x]) cursor /\ eactive v = true /\ source_closed v = false) \/
   (rel v' stream cursor /\ (eactive v' = true -> source_closed v' = true))).

Lemma finish_told reg x stream cursor v v1 failure :
  queue_inv reg v1 ->
  (rel v1 (stream ++ [x]) cursor /\ eactive v = true /\ source_closed v = false) \/ rel v1 stream cursor ->
  told reg x stream cursor v (prepare_finish v1 failure).1.
Proof.
  intros Hq Hr. destruct (finish_fades reg v1 failure) as (F1 & F2 & _). split; [by apply F1|].
  destruct Hr as [[H1 H2]|H1]; [left; split; [by apply F2|done]|right]. split; [by apply F2|].
  unfold prepare_finish. destruct (eactive v1 && negb (source_closed v1)) eqn:Ha; simpl; [done|].
  intros Hx. rewrite Hx in Ha. by destruct (source_closed v1).
Qed.

Lemma publish_accepted reg reserve (v : View) e v' p :
  commit_publish reg reserve v e = (v', p) -> ep_result p = Ok true -> eactive v = true /\ source_closed v = false.
Proof.
  unfold commit_publish. destruct (_ <? _); [by intros [= <- <-]|].
  destruct (negb (eactive v) || source_closed v) eqn:Ha; [by intros [= <- <-]|]. intros _ _. by propify.
Qed.

Lemma skip_accepted reg reserve (v : View) n v' p :
  commit_skip reg reserve v n = (v', p) -> ep_result p = Ok true ->
  eactive v = true /\ source_closed v = false.
Proof.
  unfold commit_skip. destruct (negb _); [by intros [= <- <-]|].
  destruct (negb (eactive v) || source_closed v) eqn:Ha; [by intros [= <- <-]|]. intros _ _. by propify.
Qed.

(** The result of telling, before the stream is ended. *)
Lemma telling reg reserve (v : View) x size stream cursor v1 p :
  valid_limit reg -> queue_inv reg v -> 0 <= size -> rel v stream cursor ->
  match x with
  | None => commit_skip reg reserve v 1
  | Some e => commit_publish reg reserve v (mkEntry e size None)
  end = (v1, p) ->
  queue_inv reg v1 /\
  ((rel v1 (stream ++ [x]) cursor /\ eactive v = true /\ source_closed v = false /\ ep_result p = Ok true) \/
   (rel v1 stream cursor /\ ep_result p <> Ok true)).
Proof.
  intros Hv Hq Hs Hr Hx.
  assert (shifts reg v stream cursor (taken p [x]) v1) as (Hq1 & Hr1 & _).
  { destruct x as [e|].
    - exact (publish_shifts reg reserve v stream cursor (mkEntry e size None) v1 p Hv Hq Hr Hs Hx).
    - exact (skip_shifts reg reserve v stream cursor 1 v1 p Hq Hr Hx). }
  assert (ep_result p = Ok true -> eactive v = true /\ source_closed v = false) as Hacc.
  { destruct x; [by eapply publish_accepted|by eapply skip_accepted]. }
  split; [done|]. unfold taken in Hr1. destruct (ep_result p) as [[]|] eqn:Hp.
  - left. destruct (Hacc eq_refl). done.
  - right. rewrite app_nil_r in Hr1. done.
  - right. rewrite app_nil_r in Hr1. done.
Qed.

(** Everything of a history but its receivers. *)
Definition beside_views (h h' : ConnectionHistory) : Prop := h' = h <| views := views h' |>.

Lemma beside_set_view h id v : beside_views h (set_view h id v).
Proof. done. Qed.

Lemma beside_trans h1 h2 h3 : beside_views h1 h2 -> beside_views h2 h3 -> beside_views h1 h3.
Proof. unfold beside_views. intros -> ->. done. Qed.

Lemma record_view_spec reserve closed h id x size v :
  valid_limit (view_registration h) -> 0 <= size -> views h !! id = Some v -> queue_inv (view_registration h) v ->
  let '(h', ps) := record_view reserve closed h id x size in
  exists v', h' = set_view h id v' /\
    forall stream cursor, rel v stream cursor -> told (view_registration h) x stream cursor v v'.
Proof.
  intros Hval Hs Hv Hq. unfold record_view. rewrite Hv.
  set (telling_of := match x with Some _ => _ | None => _ end). destruct telling_of as [v1 p] eqn:Hx. subst telling_of.
  assert (forall stream cursor, rel v stream cursor -> queue_inv (view_registration h) v1 /\
    ((rel v1 (stream ++ [x]) cursor /\ eactive v = true /\ source_closed v = false /\ ep_result p = Ok true) \/
     (rel v1 stream cursor /\ ep_result p <> Ok true))) as Htell.
  { intros stream cursor Hr. apply (telling (view_registration h) reserve v x size stream cursor v1 p Hval Hq Hs Hr). by destruct x. }
  assert (forall failure, let '(h', ps) := finish_view (set_view h id v1) id failure in
    exists v', h' = set_view h id v' /\
      forall stream cursor, rel v stream cursor -> told (view_registration h) x stream cursor v v') as Hfin.
  { intros failure. unfold finish_view. simpl. rewrite lookup_insert_eq.
    pose proof (fun stream cursor => finish_told (view_registration h) x stream cursor v v1 failure) as Ht.
    destruct (prepare_finish v1 failure) as [v2 p2]. exists v2. unfold set_view. simpl.
    split; [destruct h; simpl; by rewrite insert_insert_eq|]. intros stream cursor Hr. destruct (Htell _ _ Hr) as [Hq1 Hc].
    apply Ht; [done|]. destruct Hc as [(? & ? & ? & _)|[? _]]; [by left|by right]. }
  cbv zeta. destruct (ep_result p) as [[]|error] eqn:Hp; simpl.
  - destruct closed; [specialize (Hfin None); by destruct (finish_view _ _ _)|]. exists v1. split; [done|].
    intros stream cursor Hr. destruct (Htell _ _ Hr) as [Hq1 Hc]. split; [done|].
    destruct Hc as [(? & ? & ? & _)|[_ ?]]; [by left|done].
  - specialize (Hfin (Some (NetError_new ErrorKind.QueueFull))). by destruct (finish_view _ _ _).
  - specialize (Hfin (Some error)). by destruct (finish_view _ _ _).
Qed.

Lemma record_views_spec reserve closed x size ids : forall h,
  valid_limit (view_registration h) -> 0 <= size -> NoDup ids ->
  (forall id, id ∈ ids -> exists v, views h !! id = Some v /\ queue_inv (view_registration h) v) ->
  let '(h', ps) := record_views reserve closed h ids x size in
  beside_views h h' /\ (forall id, id ∉ ids -> views h' !! id = views h !! id) /\
  (forall id v, id ∈ ids -> views h !! id = Some v -> exists v', views h' !! id = Some v' /\
     forall stream cursor, rel v stream cursor -> told (view_registration h) x stream cursor v v').
Proof.
  induction ids as [|id ids IH]; intros h Hval Hs Hnd Hids; cbn [record_views].
  { split_and!; [by destruct h|done|]. by intros id v ?%elem_of_nil. }
  apply NoDup_cons in Hnd as [Hnot Hnd]. destruct (Hids id) as (v & Hv & Hq); [by left|].
  pose proof (record_view_spec reserve closed h id x size v Hval Hs Hv Hq) as H1.
  destruct (record_view reserve closed h id x size) as [h1 ps1]. destruct H1 as (v1 & -> & Ht).
  specialize (IH (set_view h id v1) Hval Hs Hnd). destruct (record_views _ _ _ ids x size) as [h2 ps2].
  destruct IH as (Hb & Hout & Hin).
  { intros id' Hid'. destruct (Hids id') as (v' & ?); [by right|]. exists v'. simpl. rewrite lookup_insert_ne; [done|]. by intros ->. }
  split_and!.
  - by eapply beside_trans; [apply (beside_set_view h id v1)|].
  - intros id' [Hne Hni]%not_elem_of_cons. rewrite Hout by done. simpl. by rewrite lookup_insert_ne.
  - intros id' v' [->|Hid']%elem_of_cons Hv'.
    + rewrite Hout by done. simpl. rewrite lookup_insert_eq. exists v1. split; [done|]. by simplify_eq.
    + apply Hin; [done|]. simpl. rewrite lookup_insert_ne; [done|]. by intros ->.
Qed.

Lemma prune_inv w : history_inv w -> history_inv (w <| hist ::= history_prune |>).
Proof.
  intros [H1 [] H3 H4 H5]. split; [exact H1|by split|by apply NoDup_filter|..].
  - intros id [_ Hid]%list_elem_of_filter. by apply H4.
  - intros id v Hv. destruct (H5 id v Hv) as [V1 V2 V3]. split; [exact V1|exact V2|]. intros Ha Hc Hcl.
    apply list_elem_of_filter. split; [|by apply V3]. unfold view_active. simpl in Hv. by rewrite Hv.
Qed.

Lemma fail_history_inv w p error : history_inv w -> history_inv (w <| hist := (fail_history (hist w) p error).1 |>).
Proof.
  intros [H1 [] H3 H4 H5]. split; [exact H1|by split|by constructor|by intros id ?%elem_of_nil|].
  intros id v Hv. destruct (H5 id v Hv) as [V1 V2 V3]. by split.
Qed.

(** Appending to what is recorded. *)
Lemma retains_push h l event size n :
  retains h l -> 1 <= eo_max_events (h_options h) -> sequence event = Z.of_nat (length l) + 1 -> 0 <= size ->
  (n <= length (h_entries h))%nat -> Z.of_nat (length (drop n (h_entries h))) < eo_max_events (h_options h) ->
  total_size (drop n (h_entries h)) + size <= eo_max_bytes (h_options h) ->
  forall h', h_options h' = h_options h -> h_entries h' = drop n (h_entries h) ++ [(event, size)] ->
  h_bytes h' = total_size (drop n (h_entries h)) + size -> h_last_sequence h' = sequence event -> retains h' (l ++ [event]).
Proof.
  intros [R1 R2 R3 R4 R5 R6 R7] Hm Hseq Hs Hn Hlen Hsize h' Ho He Hb Hl.
  assert (length (h_entries h) <= length l)%nat as Hle.
  { pose proof (f_equal length R3) as Hx. rewrite length_fmap, length_drop in Hx. lia. }
  split; rewrite ?Ho, ?He, ?Hb, ?Hl.
  - rewrite Hseq, length_app. simpl. lia.
  - intros i e Hi. apply lookup_app_Some in Hi as [Hi|[Hi Hx]]; [by apply R2|].
    apply list_lookup_singleton_Some in Hx as [Hx <-]. rewrite Hseq. lia.
  - rewrite fmap_app, fmap_drop, R3, drop_drop, !length_app, length_drop. simpl. rewrite drop_app_le by lia. f_equal. f_equal. lia.
  - unfold total_size. rewrite foldr_app. simpl.
    assert (forall (es : list (ConnectionEvent * Z)) acc, foldr (fun e a => e.2 + a) acc es = foldr (fun e a => e.2 + a) 0 es + acc) as Hf.
    { induction es as [|e es IH]; intros acc; simpl; [lia|]. rewrite IH. lia. }
    rewrite (Hf _ (size + 0)). lia.
  - apply Forall_app. split; [by apply Forall_drop|]. by constructor.
  - lia.
  - rewrite length_app. simpl. lia.
Qed.

Lemma retains_clear h l event :
  retains h l -> valid_options (h_options h) -> sequence event = Z.of_nat (length l) + 1 ->
  forall h', h_options h' = h_options h -> h_entries h' = [] -> h_bytes h' = 0 -> h_last_sequence h' = sequence event ->
  retains h' (l ++ [event]).
Proof.
  intros [R1 R2 R3 R4 R5 R6 R7] [Hm1 Hm2] Hseq h' Ho He Hb Hl. split; rewrite ?Ho, ?He, ?Hb, ?Hl.
  - rewrite Hseq, length_app. simpl. lia.
  - intros i e Hi. apply lookup_app_Some in Hi as [Hi|[Hi Hx]]; [by apply R2|].
    apply list_lookup_singleton_Some in Hx as [Hx <-]. rewrite Hseq. lia.
  - simpl. rewrite Nat.sub_0_r, drop_all. done.
  - done.
  - constructor.
  - lia.
  - simpl. lia.
Qed.

Lemma rel_last_any (v : View) stream cursor x y : rel v (stream ++ [None]) cursor -> y = Some x -> rel v (stream ++ [y]) cursor.
Proof.
  intros Hr -> Ha. destruct (Hr Ha) as [Hc Hq]. rewrite length_app in *. simpl in *. split; [done|].
  assert (cursor + Z.to_nat (lagged v) = length stream + 1)%nat as Hend.
  { destruct (decide (cursor + Z.to_nat (lagged v) <= length stream)%nat) as [Hle|]; [|lia]. exfalso.
    rewrite drop_app_le in Hq by done. assert (None ∈ Some ∘ value <$> equeue v) as Hin.
    { rewrite Hq. apply elem_of_app. right. by left. }
    apply list_elem_of_fmap in Hin as (? & ? & _). done. }
  rewrite drop_ge in Hq |- * by (rewrite length_app; simpl; lia). done.
Qed.

(** A receiver after one more event. *)
Lemma told_ok w w' id v v' event x :
  view_ok w id v -> (x = None \/ x = Some event) -> recorded w' = recorded w ++ [event] -> outs w' = outs w ->
  view_registration (hist w') = view_registration (hist w) ->
  (forall stream cursor, rel v stream cursor -> told (view_registration (hist w)) x stream cursor v v') ->
  (h_closed (hist w') = false -> h_closed (hist w) = false -> id ∈ h_publishers (hist w) -> id ∈ h_publishers (hist w')) ->
  h_closed (hist w) = false -> view_ok w' id v'.
Proof.
  intros [V1 (o & upto & Ho & Hw & Hu & Hr & Hopen) V3] Hx Hrec Hout Hreg Htold Hpub Hcl.
  destruct (Htold _ _ Hr) as [Hq Hcase]. split; [by rewrite Hreg| |].
  - rewrite Hrec, Hout. destruct Hcase as [(Hr' & Ha & Hsc)|[Hr' Hend]].
    + exists o, (length (recorded w ++ [event])). split_and!; [done|by apply witnessed_more|done| |done].
      rewrite take_ge by done. rewrite (Hopen Ha Hsc), take_ge in Hr' by done. rewrite fmap_app.
      destruct Hx as [-> | ->]; [by eapply rel_last_any|done].
    + exists o, upto. rewrite length_app, take_app_le by lia. split_and!; [done|by apply witnessed_more|lia|done|].
      intros Ha Hsc. specialize (Hend Ha). congruence.
  - intros Ha Hsc Hcl'. apply Hpub; [done|done|]. destruct Hcase as [(_ & Hav & Hscv)|[_ Hend]]; [by apply V3|].
    specialize (Hend Ha). congruence.
Qed.

(** The world after an event is recorded. *)
Lemma recorded_inv w h' event x n :
  history_inv w -> h_closed (hist w) = false -> (x = None \/ x = Some event) ->
  h_options h' = h_options (hist w) -> NoDup (h_publishers h') ->
  (forall id, id ∈ h_publishers h' -> id ∈ h_publishers (hist w)) ->
  (h_closed h' = false -> h_publishers h' = h_publishers (hist w)) -> retains h' (recorded w ++ [event]) ->
  (forall id, id ∉ h_publishers (hist w) -> views h' !! id = views (hist w) !! id) ->
  (forall id v, id ∈ h_publishers (hist w) -> views (hist w) !! id = Some v -> exists v', views h' !! id = Some v' /\
     forall stream cursor, rel v stream cursor -> told (view_registration (hist w)) x stream cursor v v') ->
  history_inv (w <| hist := h'; terminals := n; recorded := recorded w ++ [event] |>).
Proof.
  intros Hi Hcl Hx Ho Hnd Hsub Hpub Hret Hother Htold. pose proof Hi as [H1 H2 H3 H4 H5].
  assert (view_registration h' = view_registration (hist w)) as Hreg by (unfold view_registration; by rewrite Ho).
  split; [simpl; by rewrite Ho|exact Hret|exact Hnd|..].
  - simpl. intros id Hid. destruct (H4 id) as [v Hv]; [by apply Hsub|]. destruct (Htold id v) as (v' & -> & _); [by apply Hsub|done|].
    by eexists.
  - simpl. intros id v' Hv'. destruct (decide (id ∈ h_publishers (hist w))) as [Hin|Hni].
    + destruct (H4 id Hin) as [v Hv]. destruct (Htold id v Hin Hv) as (v1 & Hv1 & Ht).
      assert (v1 = v') as -> by congruence.
      eapply (told_ok w _ id v v' event x); [by apply H5|exact Hx|done|done|exact Hreg|exact Ht| |exact Hcl].
      simpl. intros Hc _ _. by rewrite (Hpub Hc).
    + rewrite Hother in Hv' by done. destruct (H5 id v' Hv') as [V1 (o & upto & Hout & Hw & Hu & Hr & Hopen) V3].
      split; [simpl; by rewrite Hreg| |].
      * exists o, upto. simpl. rewrite length_app, take_app_le by lia. split_and!; [done|by apply witnessed_more|lia|done|].
        intros Ha Hc. destruct Hni. by apply V3.
      * intros Ha Hc. destruct Hni. by apply V3.
Qed.

Lemma record_inv w reserve view_reserve event :
  history_inv w -> history_inv (history_step w (HRecord reserve view_reserve event)).
Proof.
  intros Hi. cbn [history_step]. destruct (history_record _ _ _ _ _) as [h' p] eqn:Hrec. unfold history_record in Hrec.
  assert (forall l, history_inv (w <| terminals := l |>)) as Hterm by (intros l; destruct Hi as [? ? ? ? H5]; split; try done;
    intros id v Hv; eapply view_ok_frame; [..|by apply H5]; done).
  assert (forall w0 error l, history_inv w0 -> recorded w0 = recorded w -> outs w0 = outs w ->
    history_inv (w <| hist := (fail_history (hist w0) history_publication_new error).1; terminals := l |>)) as Hfail.
  { intros w0 error l Hi0 Hr0 Ho0. destruct (fail_history_inv w0 history_publication_new error Hi0) as [? ? ? ? H5]. split; try done.
    - simpl. by rewrite <- Hr0.
    - intros id v Hv. eapply view_ok_frame; [..|by apply H5]; simpl; try done. by rewrite Ho0. }
  destruct (h_closed (hist w)) eqn:Hcl; [injection Hrec as <- <-; apply Hterm|].
  destruct (negb _ || _) eqn:Hseq; [injection Hrec as <- <-; apply Hterm|].
  apply orb_false_iff in Hseq as [Hseq _]. apply negb_false_iff, bool_decide_eq_true in Hseq.
  apply checked_add_Some in Hseq as [Hseq _].
  destruct (measured_size event_base event) as [size|error] eqn:Hsize.
  2: { destruct (bool_decide _); injection Hrec as <- <-; [apply Hterm|by apply Hfail]. }
  apply measured_size_bounds in Hsize. destruct reserve; cbn [negb] in Hrec; [|injection Hrec as <- <-; by apply Hfail].
  pose proof (prune_inv w Hi) as Hi1. set (w1 := w <| hist ::= history_prune |>) in *.
  change (history_prune (hist w)) with (hist w1) in Hrec. pose proof Hi1 as [H1 H2 H3 H4 H5].
  set (room := if eo_max_bytes (h_options (hist w)) <? size then _ else _) in Hrec.
  assert (exists entries bytes, room = Some (entries, bytes) /\
    forall h', h_options h' = h_options (hist w1) -> h_entries h' = entries -> h_bytes h' = bytes ->
      h_last_sequence h' = sequence event -> retains h' (recorded w ++ [event])) as (entries & bytes & Hroom & Hret).
  { subst room. assert (sequence event = Z.of_nat (length (recorded w)) + 1) as Hs by (rewrite Hseq, (rt_last _ _ (hi_retains _ Hi)); done).
    destruct (_ <? size) eqn:Hover.
    - eexists _, _. split; [done|]. intros. by eapply (retains_clear (hist w1)).
    - destruct (history_evict_spec (h_options (hist w1)) size (h_entries (hist w1)) (h_bytes (hist w1))) as (n & -> & Hn & Hl & Hb).
      { apply H1. } { split; [lia|]. apply Z.ltb_ge in Hover. exact Hover. } { apply H2. }
      eexists _, _. split; [done|]. intros.
      eapply (retains_push (hist w1) (recorded w) event size n); [exact H2|apply H1|exact Hs|lia|exact Hn|exact Hl|exact Hb|done..]. }
  rewrite Hroom in Hrec. clear Hroom room.
  set (x := if eo_max_bytes (h_options (hist w)) <? size then None else Some event) in Hrec.
  assert (x = None \/ x = Some event) as Hx by (subst x; destruct (_ <? _); auto).
  set (h1 := (hist w1) <| h_entries := entries; h_bytes := bytes; h_last_sequence := sequence event;
                        h_scope := Some (event_client_id event, event_session_id event); h_closed := is_closed_event event |>) in Hrec.
  pose proof (record_views_spec view_reserve (is_closed_event event) x size (h_publishers (hist w1)) h1) as Hviews.
  change (h_publishers h1) with (h_publishers (hist w1)) in Hrec.
  destruct (record_views _ _ h1 _ x size) as [h2 ps]. destruct Hviews as (Hb & Hother & Htold).
  { exact (registration_valid _ Hi1). } { lia. } { exact H3. }
  { intros id Hid. destruct (H4 id Hid) as [v Hv]. exists v. split; [exact Hv|]. apply (vo_queue _ _ _ (H5 id v Hv)). }
  assert (h_closed (hist w1) = false) as Hcl1 by exact Hcl.
  assert (forall h3 l, h3 = h2 \/ h3 = h2 <| h_publishers := [] |> /\ is_closed_event event = true ->
    history_inv (w <| hist := h3; terminals := l; recorded := recorded w ++ [event] |>)) as Hend.
  { intros h3 l Hh3. change (history_inv (w1 <| hist := h3; terminals := l; recorded := recorded w1 ++ [event] |>)).
    assert (h_options h3 = h_options (hist w1) /\ views h3 = views h2 /\ h_closed h3 = is_closed_event event /\
      h_entries h3 = entries /\ h_bytes h3 = bytes /\ h_last_sequence h3 = sequence event /\
      (h_publishers h3 = h_publishers (hist w1) \/ h_publishers h3 = [] /\ is_closed_event event = true))
      as (E1 & E2 & E3 & E4 & E5 & E6 & E7).
    { rewrite Hb in Hh3. destruct Hh3 as [->|[-> Hc]]; simpl; split_and!; try done; [by left|by right]. }
    apply (recorded_inv w1 h3 event x l Hi1 Hcl1 Hx E1).
    - destruct E7 as [->|[-> _]]; [done|constructor].
    - intros id. destruct E7 as [->|[-> _]]; [done|by intros ?%elem_of_nil].
    - intros Hc. destruct E7 as [->|[_ Hx']]; [done|congruence].
    - by apply Hret.
    - intros id Hni. rewrite E2. by apply Hother.
    - intros id v Hin Hv. rewrite E2. by apply Htold. }
  destruct (is_closed_event event) eqn:Hclosed; injection Hrec as <- <-; apply Hend; [right; done|by left].
Qed.

(** ** Subscribing *)

Lemma dispatch_view_polled h id v p :
  views h !! id = Some v -> driver v = false -> dispatch_view None h id p = h.
Proof.
  intros Hv Hd. unfold dispatch_view. rewrite Hv. destruct (ep_schedule p); [|done].
  assert (schedule_lock v = (v, false)) as -> by (unfold schedule_lock; rewrite Hd; by destruct (_ || _ || _)).
  unfold set_view. destruct h. simpl in *. f_equal. by apply insert_id.
Qed.

Lemma commit_seed_accepted reg (v v' : View) seed p b :
  commit_seed reg v seed = (v', p) -> ep_result p = Ok b ->
  lagged v' = seed_lagged seed /\ source_closed v' = seed_source_closed seed /\ driver v' = driver v /\
  (equeue v = [] -> value <$> equeue v' = (seed_entries seed).*1).
Proof.
  unfold commit_seed. intros Hc Hok. repeat case_match; simplify_eq/=. split_and!; try done. intros ->. simpl.
  change (map ?f ?l) with (f <$> l). by rewrite <- list_fmap_compose.
Qed.

(** The number of events that are no longer retained. *)
Lemma seed_lag_spec h l :
  retains h l -> match h_entries h with
  | (event, _) :: _ => ok_or (checked_sub (sequence event) 1) (NetError_new ErrorKind.Internal)
  | [] => Ok (h_last_sequence h)
  end = Ok (Z.of_nat (length l - length (h_entries h))).
Proof.
  intros [R1 R2 R3 R4 R5 R6 R7]. destruct (h_entries h) as [|[e b] entries] eqn:He; [rewrite R1; cbn [length]; f_equal; lia|].
  assert (l !! (length l - length ((e, b) :: entries))%nat = Some e) as Hl.
  { rewrite <- (Nat.add_0_r (length l - _)), <- lookup_drop, <- R3. done. }
  apply R2 in Hl. rewrite Hl. unfold checked_sub. rewrite (proj2 (Z.leb_le _ _)) by lia. simpl. f_equal. lia.
Qed.

Lemma history_subscribe_inv w permit reserve id :
  history_inv w -> outs w !! id = None -> history_inv (history_step w (HSubscribe permit reserve id)).
Proof.
  intros Hi Hid. cbn [history_step]. rewrite Hid. unfold history_subscribe.
  assert (history_inv (w <| hist := hist w |>)) as Hsame by by destruct w.
  destruct permit; [|done]. destruct (event_channel _ _ _ _ _) as [[registration view]|error] eqn:Hch; [|done].
  pose proof (hi_options _ Hi) as [Ho1 Ho2].
  destruct (channel_valid max_permits reserve (ereg_limit (view_registration (hist w))) EventOverflow.DropOldest true registration view)
    as [Hval ->]; [simpl; lia|simpl; lia|done|].
  assert (registration = view_registration (hist w)) as -> by (unfold event_channel in Hch; repeat case_match; by simplify_eq).
  cbn [negb]. destruct reserve; cbn [negb]; [|done]. pose proof (prune_inv w Hi) as Hi1.
  set (w1 := w <| hist ::= history_prune |>) in *. change (history_prune (hist w)) with (hist w1).
  rewrite (seed_lag_spec _ _ (hi_retains _ Hi1)). set (lag := Z.of_nat _).
  destruct (commit_seed _ _ _) as [v p] eqn:Hseed. destruct (ep_result p) as [b|error] eqn:Hp; [|done].
  pose proof (hi_retains _ Hi1) as Hret. pose proof (rt_entries _ _ Hret) as Hent.
  assert (length (h_entries (hist w1)) <= length (recorded w))%nat as Hle.
  { pose proof (f_equal length Hent) as Hx. rewrite length_fmap, length_drop in Hx. simpl in *. lia. }
  destruct (commit_seed_accepted _ _ _ _ _ _ Hseed Hp) as (Hlag & Hsc & Hdr & Hq). specialize (Hq eq_refl). simpl in Hq, Hlag, Hsc.
  destruct (world_new_inv (T := ConnectionEvent) (R := ()) (view_registration (hist w)) true Hval) as (Hq0 & Hr0 & _).
  destruct (seed_shifts (view_registration (hist w)) (est (world_new true)) [] 0
    (mkEventSeed (h_entries (hist w1)) lag (h_closed (hist w1)) (h_failure (hist w1))) v p Hval Hq0 Hr0) as (Hqv & _);
    [simpl; lia|exact (rt_sizes _ _ Hret)|exact Hseed|].
  assert (views (hist w1) !! id = None) as Hnone.
  { destruct (views (hist w1) !! id) as [v0|] eqn:Hv0; [|done]. destruct (hi_views _ Hi1 _ _ Hv0) as [_ (o & _ & Ho & _) _].
    simpl in Ho. congruence. }
  set (h2 := if h_closed _ then _ else _).
  assert (h2 = (hist w1) <| views := <[id := v]> (views (hist w1));
    h_publishers := if h_closed (hist w1) then h_publishers (hist w1) else h_publishers (hist w1) ++ [id] |>) as Hh2.
  { subst h2. destruct (hist w1) as [? ? ? ? ? cl ? ? ?]. unfold set_view. simpl. by destruct cl. }
  rewrite (dispatch_view_polled h2 id v p); [|rewrite Hh2; apply lookup_insert_eq|done]. clearbody h2. subst h2.
  destruct Hi1 as [H1 [] H3 H4 H5]. split; simpl; [exact H1|by split|..].
  - destruct (h_closed (hist w)); [done|]. apply NoDup_app. split_and!; [done| |apply NoDup_singleton].
    intros id' Hin ->%list_elem_of_singleton. destruct (H4 id Hin) as [? Hx]. simpl in Hx, Hnone. congruence.
  - intros id' Hin. destruct (decide (id = id')) as [<-|Hne]; [rewrite lookup_insert_eq; by eexists|].
    rewrite lookup_insert_ne by done. apply H4. destruct (h_closed (hist w)); [done|].
    apply elem_of_app in Hin as [Hin|Hin%list_elem_of_singleton]; [done|congruence].
  - intros id' v'. destruct (decide (id = id')) as [<-|Hne].
    + rewrite lookup_insert_eq. intros [= <-]. split; [exact Hqv| |].
      * exists [], (length (recorded w)). simpl. rewrite lookup_insert_eq. split_and!; [done|done|done| |done].
        intros _. rewrite Hlag. subst lag. rewrite Nat2Z.id, take_ge, length_fmap by done. split; [simpl; lia|].
        rewrite list_fmap_compose, Hq. simpl. rewrite <- fmap_drop. f_equal. exact Hent.
      * simpl. intros _ _ Hc. rewrite Hc. apply elem_of_app. right. by left.
    + rewrite lookup_insert_ne by done. intros Hv'. destruct (H5 id' v' Hv') as [V1 V2 V3]. split; [exact V1| |].
      * simpl. by rewrite lookup_insert_ne.
      * simpl in *. intros Ha Hc Hcl. specialize (V3 Ha Hc Hcl). rewrite Hcl. apply elem_of_app. by left.
Qed.

(** ** Runs *)

Lemma history_step_inv w op : history_inv w -> history_inv (history_step w op).
Proof.
  intros Hi. destruct op.
  - by apply record_inv.
  - simpl. unfold history_fail. destruct (h_closed (hist w)).
    + destruct Hi as [? ? ? ? H5]. split; try done. intros id v Hv. eapply view_ok_frame; [..|by apply H5]; done.
    + destruct (fail_history_inv w history_publication_new error Hi) as [? ? ? ? H5]. split; try done.
      intros id v Hv. eapply view_ok_frame; [..|by apply H5]; done.
  - simpl. destruct (terminals w !! n) as [[[|id ids] failure]|]; try done.
    destruct (finish_view_inv w id failure Hi) as [? ? ? ? H5]. split; try done.
    intros id' v Hv. eapply view_ok_frame; [..|by apply H5]; done.
  - destruct (outs w !! id) eqn:Ho; [by cbn [history_step]; rewrite Ho|by apply history_subscribe_inv].
  - cbn [history_step]. destruct (views (hist w) !! id) as [v|] eqn:Hv; [|done].
    pose proof (poll_inv w id v Hi Hv) as Hp. by destruct (poll_next v) as [[v' es] r].
  - cbn [history_step]. unfold alter_view. destruct (views (hist w) !! id) as [v|] eqn:Hv; [|done].
    eapply fades_inv; [done|done|]. apply unsubscribe_fades, registration_valid, Hi.
  - cbn [history_step]. unfold alter_view. destruct (views (hist w) !! id) as [v|] eqn:Hv; [|done].
    eapply fades_inv; [done|done|]. apply fail_fades, registration_valid, Hi.
Qed.

Lemma history_run_inv ops : forall w, history_inv w -> history_inv (history_run w ops).
Proof. induction ops as [|op ops IH]; intros w Hi; [done|]. simpl. by apply IH, history_step_inv. Qed.

Lemma history_new_inv reserve options h :
  0 <= eo_max_events options -> 0 <= eo_max_bytes options -> history_new max_permits reserve options = Ok h ->
  history_inv (mkHistoryWorld h ∅ [] []).
Proof.
  unfold history_new, event_options_validate, limit_validate_fields. simpl. intros He Hb.
  destruct (limit_validate _ _ _ _ _) as [[]|] eqn:Hl; [|done]. simpl. destruct reserve; [|done]. intros [= <-].
  apply limit_validate_Ok in Hl as (_ & Hp & Hm & Hz & Hu). split; simpl; [split; simpl; lia|..].
  - split; simpl; try done; lia.
  - constructor.
  - by intros id ?%elem_of_nil.
  - done.
Qed.

(** C13. The history of a session is faithful to every receiver, whenever it subscribes.  Whatever is
    recorded, and whoever subscribes, polls, leaves or fails: a receiver sees the events of the
    session in order and each at most once, and what it misses, because it came late or was slow, is
    counted exactly where it is missing.  While its stream is open, what it has seen, what it is told
    it missed and what is queued for it are all the events there are.  The history itself retains an
    unbroken run of the latest events, within its limits. *)
Theorem history_observers_exact reserve options h ops :
  0 <= eo_max_events options -> 0 <= eo_max_bytes options -> history_new max_permits reserve options = Ok h ->
  let w := history_run (mkHistoryWorld h ∅ [] []) ops in
  (forall id v, views (hist w) !! id = Some v -> exists o, outs w !! id = Some o /\ witnessed (recorded w) 0 o /\
     (eactive v = true -> source_closed v = false ->
      Z.of_nat (position o) + lagged v + Z.of_nat (length (equeue v)) = Z.of_nat (length (recorded w)))) /\
  (h_entries (hist w)).*1 = drop (length (recorded w) - length (h_entries (hist w))) (recorded w) /\
  Z.of_nat (length (h_entries (hist w))) <= eo_max_events (h_options (hist w)) /\
  total_size (h_entries (hist w)) <= eo_max_bytes (h_options (hist w)).
Proof.
  intros He Hb Hnew w. assert (history_inv w) as [_ [] _ _ Hv] by (by eapply history_run_inv, history_new_inv).
  split_and!; [|done|done|congruence]. intros id v Hid. destruct (Hv id v Hid) as [Hq (o & upto & Ho & Hw & Hu & Hr & Hopen) _].
  exists o. split_and!; [done|done|]. intros Ha Hc. destruct (Hr Ha) as [Hl Heq].
  rewrite (Hopen Ha Hc), take_ge in Hl, Heq by done. apply (f_equal length) in Heq.
  rewrite length_fmap, length_drop, length_fmap in Heq. rewrite length_fmap in Hl. pose proof (qi_lag _ _ Hq). lia.
Qed.

End Theory.

(** ** Samples *)

Definition sample_event (n : Z) : ConnectionEvent :=
  mkConnectionEvent n 1 1 0 (ConnectionEventKind.AttemptStarted (mkHandshakeAttempt 1 1 1 n [])).

Definition sample_history : ConnectionHistory :=
  mkConnectionHistory (mkEventOptions 2 1000) None 0 [] 0 false None [] ∅.

(** Three events, a receiver that comes late to a history of two, and one that follows. *)
Definition sample_history_ops : list HistoryOp :=
  [HSubscribe true true 1%positive; HRecord true true (sample_event 1); HRecord true true (sample_event 2);
   HRecord true true (sample_event 3); HSubscribe true true 2%positive; HPoll 2%positive; HPoll 2%positive].

Lemma history_observers_exact_witness :
  let w := history_run 1000 100 (mkHistoryWorld sample_history ∅ [] []) sample_history_ops in
  outs w !! 2%positive = Some [RError (ReceiveError.Lagged 1); RItem (sample_event 2)] /\
  (h_entries (hist w)).*1 = drop (length (recorded w) - length (h_entries (hist w))) (recorded w).
Proof.
  split; [vm_compute; reflexivity|].
  exact (proj1 (proj2 (history_observers_exact 1000 100 ltac:(lia) true (mkEventOptions 2 1000) sample_history
    sample_history_ops ltac:(simpl; lia) ltac:(simpl; lia) eq_refl))).
Defined.
