(* ===== verification/SessionTheory.v ===== *)
(** * Theorems about the lifecycle of a session

    [SessionWorld] is a session with everything around it: the transitions that are
    committed and whose effects are not dispatched yet, the reservations that wait
    or are granted, and the receiver of the journal.  A run is any sequence of
    [SessionOp]s, so the calls of the worker, of connection tasks, of closing
    callers and of the receiver interleave freely.  [facts] are the events the
    session has published, [seen] what the receiver of the journal has seen. *)

From S2P Require Import Prelude F64 Backoff RetrySchedule RetryState Errors WsRetry WsOptions Cancellation WsTask IndexedHeap OperationControl NativePending PriorityWriteQueue QueueTheory WsConfig Dispatch EventStream EventTheory StateStream ConnectionEvent ConnectionHistory ConnectionSession.

(** ** The grammar of facts *)

(** Where a session is, by its facts, with the last attempt it started. *)
Inductive Phase :=
| Idle
| Trying (attempt : HandshakeAttempt)
| Online (connection : ConnectionInfo)
| Ended (result : Result SessionEnd NetError).

Definition Progress : Type := Phase * option HandshakeAttempt.

(** A fact is possible in a phase: attempts come one at a time and in order, each has one outcome, a
    connection is the one of its attempt and ends once, and nothing follows the end. *)
Inductive follows : Progress -> ConnectionEventKind -> Progress -> Prop :=
| follows_started last a :
    (forall b, last = Some b -> attempt_le a b = false) ->
    follows (Idle, last) (ConnectionEventKind.AttemptStarted a) (Trying a, Some a)
| follows_failed a last version error retry :
    follows (Trying a, last) (ConnectionEventKind.AttemptFailed a version error retry) (Idle, last)
| follows_established a last i :
    ci_client_id i = ha_client_id a -> ci_session_id i = ha_session_id a -> ci_cycle_id i = ha_cycle_id a ->
    ci_attempt_id i = ha_attempt_id a -> ci_connection_id i = ha_cycle_id a ->
    follows (Trying a, last) (ConnectionEventKind.Established i) (Online i, last)
| follows_disconnected i last e :
    follows (Online i, last) (ConnectionEventKind.Disconnected i e) (Idle, last)
| follows_closed last r :
    follows (Idle, last) (ConnectionEventKind.Closed r) (Ended r, last).

(** Facts with the numbers [1], [2], ... of one session, from the start to [g]. *)
Inductive lawful (client session : Z) : list ConnectionEvent -> Progress -> Prop :=
| lawful_nil : lawful client session [] (Idle, None)
| lawful_snoc l g e g' :
    lawful client session l g -> sequence e = Z.of_nat (length l) + 1 -> event_client_id e = client ->
    event_session_id e = session -> follows g (event_kind e) g' -> lawful client session (l ++ [e]) g'.

(** ** The world *)

Section Theory.
Context {sem : Semaphores} {laws : SemaphoreLaws}.
Context (max_permits event_base : Z).
Context (base_unsigned : 0 <= event_base).

(** A transition with the leases its call drops at the end, and whether it is a termination. *)
Record Call := mkCall { call_publication : Publication; call_leases : list EventLease; call_terminates : bool }.

Record SessionWorld := mkSessionWorld {
  ses : Session;
  calls : list Call;
  waiting : list (Z * Z);
  granted : list AttemptReservation;
  facts : list ConnectionEvent;
  seen : list (Received ConnectionEvent);
}.

#[export] Instance SessionWorld_settable : Settable SessionWorld :=
  fields! mkSessionWorld [ ses; calls; waiting; granted; facts; seen ].

Inductive SessionOp :=
| SBeginCycle (ox : Oracle) (cycle : Z) (reconnecting : bool)
| SWaitingForNetwork (ox : Oracle) (cycle : Z)
| SPreparing (ox : Oracle) (cycle : Z) (next_attempt_at : option Instant)
| SBeginClosing (ox : Oracle)
| SReserve
| SReserveMore (n : nat)
| SReserveDrop (n : nat)
| SDropGranted (n : nat)
| SBeginAttempt (ox : Oracle) (n : nat) (attempt : HandshakeAttempt) (same_metadata : bool)
| SBeginForeign (ox : Oracle) (attempt : HandshakeAttempt) (lease : EventLease) (same_metadata : bool)
| SCredential (cycle attempt : Z) (version : option string)
| SAttemptFailed (ox : Oracle) (cycle attempt : Z) (failure : ConnectionFailure) (retry : ConnectionRetry)
    (d : option HandshakeDiagnostic)
| SPrepareEstablished (cycle attempt : Z)
| SCommitEstablished (ox : Oracle) (cycle attempt : Z)
| SDisconnected (ox : Oracle) (reason : TerminationReason) (failure : option ConnectionFailure)
    (details : ConnectionTerminationDetails) (next_cycle : option Z)
| STerminate (ox : Oracle) (reason : TerminationReason) (failure : option ConnectionFailure)
    (details : ConnectionTerminationDetails)
| SDispatch (submit : option NetError) (n : nat)
| SRequestCancel
| SRequestClose (frame : option (Z * string)) (deadline : Instant)
| STakeClose
| SPoll
| SDetach
| SFailDriver (error : NetError).

(** A committed transition waits for its dispatch. *)
Definition committed (w : SessionWorld) (s : Session) (p : Publication) (leases : list EventLease) (terminates : bool) :
    SessionWorld :=
  w <| ses := s; calls ::= (fun l => l ++ [mkCall p leases terminates]); facts ::= fun l => l ++ (pb_history p).*1 |>.

Definition transition (ox : Oracle) (w : SessionWorld) (m : Mut ()) : SessionWorld :=
  let '(s, p, _) := commit ox m (ses w) in committed w s p [] false.

(** The outcome of a step of [reserve_attempt]; a wait changes nothing. *)
Definition reserved (w : SessionWorld) (r : Session * Reserving) (unchanged : SessionWorld) : SessionWorld :=
  let '(s, out) := r in
  match out with
  | RWait => unchanged
  | RSlots slots => w <| ses := s; waiting ::= fun l => l ++ [(slots, 0)] |>
  | RBytes slots bytes => w <| ses := s; waiting ::= fun l => l ++ [(slots, bytes)] |>
  | RDone (Ok reservation) => w <| ses := s; granted ::= fun l => l ++ [reservation] |>
  | RDone (Err _) => w <| ses := s |>
  end.

Definition with_stream (w : SessionWorld) (f : JournalStream -> JournalStream * list (Entry ConnectionEvent EventResources) *
    list (Received ConnectionEvent)) : SessionWorld :=
  match journal (ses w) with
  | Some j =>
      let '(stream, dropped, received) := f (jb_stream j) in
      w <| ses := release_entries ((ses w) <| journal := Some (j <| jb_stream := stream |>) |>) dropped;
           seen ::= fun l => l ++ received |>
  | None => w
  end.

Definition session_step (w : SessionWorld) (op : SessionOp) : SessionWorld :=
  match op with
  | SBeginCycle ox cycle reconnecting => transition ox w (begin_cycle cycle reconnecting)
  | SWaitingForNetwork ox cycle => transition ox w (waiting_for_network cycle)
  | SPreparing ox cycle next_attempt_at => transition ox w (preparing_attempt cycle next_attempt_at)
  | SBeginClosing ox => transition ox w begin_closing
  | SReserve => reserved w (reserve_slots (ses w)) w
  | SReserveMore n =>
      match waiting w !! n with
      | Some (slots, bytes) =>
          let w' := w <| waiting ::= delete n |> in
          if bytes =? 0 then reserved w' (reserve_bytes (ses w) slots) w
          else reserved w' (reserve_finish (ses w) slots bytes) w
      | None => w
      end
  | SReserveDrop n =>
      match waiting w !! n with
      | Some (slots, bytes) => w <| ses := release_lease (ses w) (EventLease.Observed slots bytes); waiting ::= delete n |>
      | None => w
      end
  | SDropGranted n =>
      match granted w !! n with
      | Some r => w <| ses := release_lease (ses w) (resources r); granted ::= delete n |>
      | None => w
      end
  | SBeginAttempt ox n attempt same_metadata =>
      match granted w !! n with
      | Some r =>
          let '(s, p, leases, _) := session_begin_attempt event_base ox (ses w) attempt r same_metadata in
          committed (w <| granted ::= delete n |>) s p leases false
      | None => w
      end
  | SBeginForeign ox attempt lease same_metadata =>
      let r := mkAttemptReservation (Pos.succ (identity (ses w))) lease in
      let '(s, p, leases, _) := session_begin_attempt event_base ox (ses w) attempt r same_metadata in
      committed w s p leases false
  | SCredential cycle attempt version => w <| ses := (set_attempt_credential_version (ses w) cycle attempt version).1 |>
  | SAttemptFailed ox cycle attempt failure retry d =>
      transition ox w (attempt_failed_with_diagnostic event_base ox cycle attempt failure retry d)
  | SPrepareEstablished cycle attempt => w <| ses := (prepare_established (ses w) cycle attempt).1 |>
  | SCommitEstablished ox cycle attempt => transition ox w (commit_established event_base ox cycle attempt)
  | SDisconnected ox reason failure details next_cycle =>
      transition ox w (connection_terminated_with_details event_base ox reason failure details next_cycle)
  | STerminate ox reason failure details =>
      let '(s, p, _) := terminate_with_details event_base ox (ses w) reason failure details in committed w s p [] true
  | SDispatch submit n =>
      match calls w !! n with
      | Some (mkCall p leases terminates) =>
          let s := foldl release_lease (dispatch submit (ses w) p) leases in
          w <| ses := if terminates then terminate_end s else s; calls ::= delete n |>
      | None => w
      end
  | SRequestCancel => w <| ses := (request_cancel (ses w)).1 |>
  | SRequestClose frame deadline => w <| ses := (session_request_close (ses w) frame deadline).1 |>
  | STakeClose => w <| ses := (take_close_request (ses w)).1 |>
  | SPoll => with_stream w (fun s => let '(s, es, r) := poll_next s in (s, es, [r]))
  | SDetach => with_stream w (fun s => let '(s, es, _) := unsubscribe s in (s, es, []))
  | SFailDriver error => with_stream w (fun s => let '(s, es) := event_fail s error in (s, es, []))
  end.

Definition session_run (w : SessionWorld) (ops : list SessionOp) : SessionWorld := foldl session_step w ops.

Definition session_world (s : Session) : SessionWorld := mkSessionWorld s [] [] [] [] [].

(** ** Where the permits of the journal are *)

(** The slots ([true]) or bytes ([false]) of a lease. *)
Definition cost (b : bool) (l : EventLease) : Z :=
  match l with EventLease.Observed slot bytes => if b then slot else bytes | EventLease.Unobserved => 0 end.

Definition total (b : bool) (ls : list EventLease) : Z := foldr (fun l acc => cost b l + acc) 0 ls.

Definition entry_lease (e : Entry ConnectionEvent EventResources) : EventLease :=
  match entry_resources e with Some r => EventLease.Observed (res_items r) (res_bytes r) | None => EventLease.Unobserved end.

Definition state_leases (x : SessionState) : list EventLease :=
  option_list (ss_terminal_slot x) ++
  (option_list (ss_attempt x) ≫= fun a => option_list (result_slot a) ++ option_list (connection_slot a)) ++
  (option_list (ss_connection x) ≫= fun c => option_list (terminal_slot c)).

(** What the effects of the journal will drop. *)
Definition effect_leases (ep : JournalPublication) : list EventLease :=
  entry_lease <$> (option_list (ep_input ep) ++ ep_retired ep).

Definition pending_leases (p : Publication) : list EventLease :=
  ((pb_journal p ++ option_list (pb_journal_finish p) ++ option_list (pb_journal_failure p)) ≫= effect_leases) ++
  publication_leases p.

Definition free (b : bool) (j : JournalBudget) : Z := available (if b then jb_slots j else jb_bytes j).

Definition limit (b : bool) (j : JournalBudget) : Z :=
  if b then ev_max_items (ereg_limit (jb_publisher j)) else ev_max_bytes (ereg_limit (jb_publisher j)).

(** Every permit of the journal is free, or in the state, the queue or one of [others]. *)
Definition conserved (s : Session) (others : list EventLease) : Prop :=
  forall j b, journal s = Some j -> 0 <= free b j /\
    Forall (fun l => 0 <= cost b l) (state_leases (st s) ++ (entry_lease <$> equeue (jb_stream j)) ++ others) /\
    free b j + total b (state_leases (st s) ++ (entry_lease <$> equeue (jb_stream j)) ++ others) = limit b j.

Lemma total_app b l1 l2 : total b (l1 ++ l2) = total b l1 + total b l2.
Proof. induction l1 as [|l l1 IH]; simpl; [done|]. rewrite IH. lia. Qed.

Lemma total_cons b l ls : total b (l :: ls) = cost b l + total b ls.
Proof. done. Qed.

Lemma forall_app_iff (P : EventLease -> Prop) l1 l2 : Forall P (l1 ++ l2) <-> Forall P l1 /\ Forall P l2.
Proof. apply Forall_app. Qed.

Lemma forall_cons_iff (P : EventLease -> Prop) l ls : Forall P (l :: ls) <-> P l /\ Forall P ls.
Proof. apply Forall_cons. Qed.

Create Rewrite HintDb leases.
#[local] Hint Rewrite @fmap_app @bind_app total_app total_cons forall_app_iff forall_cons_iff : leases.

Lemma total_perm b l1 l2 : l1 ≡ₚ l2 -> total b l1 = total b l2.
Proof. induction 1; rewrite ?total_cons in *; lia. Qed.

Lemma total_nonneg b ls : Forall (fun l => 0 <= cost b l) ls -> 0 <= total b ls.
Proof. induction 1; rewrite ?total_cons; [done|lia]. Qed.

(** Leases move between the state and the others. *)
Lemma conserved_move s s' others others' :
  conserved s others -> journal s' = journal s ->
  (forall q, state_leases (st s') ++ q ++ others' ≡ₚ state_leases (st s) ++ q ++ others) -> conserved s' others'.
Proof.
  intros Hc Hj Hp j b Hj'. rewrite Hj in Hj'. destruct (Hc j b Hj') as (Hf & Hn & Ht). split_and!; [done| |].
  - by rewrite (Hp _).
  - by rewrite (total_perm b _ _ (Hp _)).
Qed.

Lemma conserved_perm s others others' : conserved s others -> others ≡ₚ others' -> conserved s others'.
Proof. intros Hc Hp. eapply conserved_move; [done|done|]. intros q. by rewrite Hp. Qed.

Lemma release_lease_conserved s l others : conserved s (l :: others) -> conserved (release_lease s l) others.
Proof.
  intros Hc j b Hj. unfold release_lease in *. destruct l as [slot bytes|].
  - destruct (journal s) as [j0|] eqn:Hj0; [|congruence]. simpl in Hj. injection Hj as <-. simpl.
    destruct (Hc j0 b Hj0) as (Hf & Hn & Ht). revert Hn Ht. rewrite !Forall_app, Forall_cons, !total_app, total_cons.
    intros (H1 & H2 & H3 & H4) Ht. unfold free, limit in *. simpl in *.
    destruct b; simpl in *; rewrite release_available; split_and!; (done || lia).
  - destruct (Hc j b Hj) as (Hf & Hn & Ht). revert Hn Ht. rewrite !Forall_app, Forall_cons, !total_app, total_cons.
    intros (H1 & H2 & H3 & H4) Ht. simpl in Ht. split_and!; (done || lia).
Qed.

Lemma release_leases_conserved ls : forall s others,
  conserved s (ls ++ others) -> conserved (foldl release_lease s ls) others.
Proof. induction ls as [|l ls IH]; intros s others Hc; [done|]. simpl. by apply IH, release_lease_conserved. Qed.

Lemma release_entries_leases es : forall s, release_entries s es = foldl release_lease s (entry_lease <$> es).
Proof.
  induction es as [|e es IH]; intros s; [done|]. unfold release_entries in *. simpl. rewrite IH.
  unfold entry_lease at 2. by destruct (entry_resources e).
Qed.

Lemma release_entries_conserved es s others :
  conserved s ((entry_lease <$> es) ++ others) -> conserved (release_entries s es) others.
Proof. rewrite release_entries_leases. apply release_leases_conserved. Qed.

(** A stream gives up entries. *)
Lemma conserved_stream s j stream es others :
  conserved s others -> journal s = Some j -> (entry_lease <$> equeue (jb_stream j)) ≡ₚ (entry_lease <$> es) ++ (entry_lease <$> equeue stream) ->
  conserved (s <| journal := Some (j <| jb_stream := stream |>) |>) ((entry_lease <$> es) ++ others).
Proof.
  intros Hc Hj Hp j' b Hj'. simpl in Hj'. injection Hj' as <-. destruct (Hc j b Hj) as (Hf & Hn & Ht). simpl.
  assert (state_leases (st s) ++ (entry_lease <$> equeue stream) ++ (entry_lease <$> es) ++ others
    ≡ₚ state_leases (st s) ++ (entry_lease <$> equeue (jb_stream j)) ++ others) as Hq.
  { rewrite Hp. f_equiv. rewrite (Permutation_app_comm (entry_lease <$> es) (entry_lease <$> equeue stream)). by rewrite (assoc_L (++)). }
  split_and!; [done|by rewrite Hq|]. rewrite (total_perm b _ _ Hq). exact Ht.
Qed.

(** ** The invariant inside a transition *)

(** A lease that can carry a fact: a slot with the bytes of the largest event, or none for a journal
    nobody reads. *)
Definition full (s : Session) (l : EventLease) : Prop :=
  l = EventLease.Observed 1 MAX_CONNECTION_EVENT_BYTES \/ (l = EventLease.Unobserved /\ journal_active s = None).

Definition items (l : list (Received ConnectionEvent)) : list ConnectionEvent :=
  omap (fun r => match r with RItem e => Some e | _ => None end) l.

(** The journal after the facts [l], with a receiver that has seen [o]. *)
Record journal_ok (j : JournalBudget) (l : list ConnectionEvent) (o : list (Received ConnectionEvent)) : Prop := {
  jo_wait : ereg_overflow (jb_publisher j) = EventOverflow.Wait;
  jo_limit : valid_limit (jb_publisher j);
  jo_room : MIN_EVENTS <= ev_max_items (ereg_limit (jb_publisher j)) /\
    MIN_EVENTS * MAX_CONNECTION_EVENT_BYTES <= ev_max_bytes (ereg_limit (jb_publisher j));
  jo_queue : queue_inv (jb_publisher j) (jb_stream j);
  jo_lag : lagged (jb_stream j) = 0;
  jo_leases : eactive (jb_stream j) = true ->
    Forall (fun e => entry_resources e = Some (mkEventResources 1 (entry_bytes e))) (equeue (jb_stream j));
  jo_exact : eactive (jb_stream j) = true -> items o ++ (value <$> equeue (jb_stream j)) = l;
}.

Lemma journal_event_fits j l o : journal_ok j l o -> MAX_CONNECTION_EVENT_BYTES <= ev_max_bytes (ereg_limit (jb_publisher j)).
Proof. intros Hok. destruct (jo_room _ _ _ Hok) as [_ H]. etrans; [|exact H]. done. Qed.

Definition history_ok (s : Session) : Prop :=
  h_closed (history s) = false ->
  h_last_sequence (history s) = ss_last_sequence (st s) /\
  (h_scope (history s) = None \/ h_scope (history s) = Some (client_instance_id s, own_session_id s)).

(** A publication in which [n] facts were published; [failed] when the last one was not. *)
Record publishing (failed : bool) (n : nat) (p : Publication) : Prop := {
  pg_failed : pb_failed p = failed;
  pg_journal : (length (pb_journal p) <= n)%nat;
  pg_unobserved : (length (pb_unobserved p) <= n)%nat;
  pg_history : length (pb_history p) = n;
  pg_refunds : (length (pb_refunds p) <= n)%nat;
  pg_pending : failed = false -> pb_pending p = None;
  pg_finish : pb_journal_finish p = None;
  pg_failure : pb_journal_failure p = None;
  pg_slot : pb_terminal_slot p = None;
  pg_snapshot : pb_snapshot p = None /\ pb_snapshot_failure p = None;
}.

(** [l] are the facts before the transition, [g] where the facts have led; [others] are the leases
    outside of the session and the publication. *)
Record mid (failed : bool) (n : nat) (others : list EventLease) (l : list ConnectionEvent)
    (o : list (Received ConnectionEvent)) (g : Progress) (s : Session) (p : Publication) : Prop := {
  mid_conserved : conserved s (pending_leases p ++ others);
  mid_journal : forall j, journal s = Some j -> journal_ok j (l ++ (pb_history p).*1) o;
  mid_open : forall j, journal s = Some j -> source_closed (jb_stream j) = false;
  mid_lawful : lawful (client_instance_id s) (own_session_id s) (l ++ (pb_history p).*1) g;
  mid_sequence : ss_last_sequence (st s) = Z.of_nat (length (l ++ (pb_history p).*1));
  mid_history : history_ok s;
  mid_publishing : publishing failed n p;
}.

(** ** Publishing one fact *)

Lemma commit_publish_detached reg s (e : Entry ConnectionEvent EventResources) :
  entry_bytes e <= ev_max_bytes (ereg_limit reg) -> eactive s = false ->
  commit_publish reg true s e =
    (s, event_publication_new <| ep_result := Err (NetError_new ErrorKind.Closed); ep_input := Some e |>).
Proof.
  intros Hb Ha. unfold commit_publish. rewrite (proj2 (Z.ltb_ge _ _)) by done. by rewrite Ha.
Qed.

Lemma commit_publish_fits reg s (e : Entry ConnectionEvent EventResources) :
  valid_limit reg -> 0 <= entry_bytes e -> eactive s = true -> source_closed s = false ->
  Z.of_nat (length (equeue s)) < ev_max_items (ereg_limit reg) ->
  0 <= ebytes s -> ebytes s + entry_bytes e <= ev_max_bytes (ereg_limit reg) ->
  commit_publish reg true s e = push_entry s e [].
Proof.
  intros [Hv1 Hv2] Hb Ha Hc Hi Hq Ht. unfold commit_publish. rewrite (proj2 (Z.ltb_ge _ _)) by lia. rewrite Ha, Hc. simpl.
  unfold checked_add. rewrite (proj2 (Z.leb_le _ _)) by (unfold u32_max, usize_max, u64_max in *; lia).
  rewrite (proj2 (Z.eqb_neq _ _)) by lia. by rewrite (proj2 (Z.ltb_ge _ _)) by lia.
Qed.

(** The slots and bytes a full lease stands for are free in the queue. *)
Lemma full_lease_fits s j others l o :
  conserved s (EventLease.Observed 1 MAX_CONNECTION_EVENT_BYTES :: others) -> journal s = Some j -> journal_ok j l o ->
  eactive (jb_stream j) = true ->
  Z.of_nat (length (equeue (jb_stream j))) < ev_max_items (ereg_limit (jb_publisher j)) /\
  ebytes (jb_stream j) + MAX_CONNECTION_EVENT_BYTES <= ev_max_bytes (ereg_limit (jb_publisher j)).
Proof.
  intros Hc Hj [_ _ _ Hq _ Hl _] Ha. specialize (Hl Ha). rewrite (qi_bytes _ _ Hq).
  assert (total true (entry_lease <$> equeue (jb_stream j)) = Z.of_nat (length (equeue (jb_stream j))) /\
          total false (entry_lease <$> equeue (jb_stream j)) = queue_bytes (equeue (jb_stream j))) as [H1 H2].
  { clear -Hl. induction Hl as [|e q He Hl [IH1 IH2]]; [done|]. rewrite fmap_cons, !total_cons, queue_bytes_cons, IH1, IH2.
    unfold entry_lease. rewrite He. simpl. lia. }
  destruct (Hc j true Hj) as (F1 & N1 & T1), (Hc j false Hj) as (F2 & N2 & T2).
  rewrite !Forall_app, Forall_cons in N1, N2. destruct N1 as (N1 & _ & _ & M1), N2 as (N2 & _ & _ & M2).
  apply total_nonneg in N1, N2, M1, M2. rewrite !total_app, total_cons in T1, T2. unfold limit in T1, T2. simpl in T1, T2. lia.
Qed.

(** ** The history follows the facts *)

(** Telling receivers changes nothing else. *)
Definition same_log (h h' : ConnectionHistory) : Prop :=
  h_last_sequence h' = h_last_sequence h /\ h_scope h' = h_scope h /\ h_closed h' = h_closed h.

Lemma same_log_trans h1 h2 h3 : same_log h1 h2 -> same_log h2 h3 -> same_log h1 h3.
Proof. unfold same_log. intuition congruence. Qed.

Lemma finish_view_log h id failure : same_log h (finish_view h id failure).1.
Proof. unfold finish_view. destruct (views h !! id); [|done]. by destruct (prepare_finish _ _). Qed.

Lemma record_view_log reserve closed h id x size : same_log h (record_view reserve closed h id x size).1.
Proof.
  unfold record_view. destruct (views h !! id) as [v|]; [|done].
  destruct (match x with Some e => _ | None => _ end) as [v' prepared].
  destruct (let? accepted := ep_result prepared in admission_result accepted) as [_|error].
  - destruct closed; [|done]. pose proof (finish_view_log (set_view h id v') id None) as H.
    by destruct (finish_view (set_view h id v') id None).
  - pose proof (finish_view_log (set_view h id v') id (Some error)) as H.
    by destruct (finish_view (set_view h id v') id (Some error)).
Qed.

Lemma record_views_log reserve closed ids x size : forall h, same_log h (record_views reserve closed h ids x size).1.
Proof.
  induction ids as [|id ids IH]; intros h; [done|]. cbn [record_views].
  pose proof (record_view_log reserve closed h id x size) as H. destruct (record_view reserve closed h id x size) as [h1 ps].
  specialize (IH h1). destruct (record_views reserve closed h1 ids x size) as [h2 qs]. by eapply same_log_trans.
Qed.

Lemma dispatch_view_log submit h id p : same_log h (dispatch_view submit h id p).
Proof.
  unfold dispatch_view. destruct (views h !! id) as [v|]; [|done]. destruct (ep_schedule p); [|done].
  destruct (schedule_lock v) as [v' call]. by destruct (if call then submit else None).
Qed.

Lemma dispatch_views_log submit ps : forall h, same_log h (dispatch_views submit h ps).
Proof.
  induction ps as [|[id p] ps IH]; intros h; [done|]. simpl. eapply same_log_trans; [apply dispatch_view_log|apply IH].
Qed.

Lemma finish_views_log submit ids failure : forall h, same_log h (finish_views submit h ids failure).
Proof.
  induction ids as [|id ids IH]; intros h; [done|]. cbn [finish_views]. pose proof (finish_view_log h id failure) as H.
  destruct (finish_view h id failure) as [h' ps]. eapply same_log_trans; [exact H|].
  eapply same_log_trans; [apply dispatch_views_log|apply IH].
Qed.

Lemma history_dispatch_log submit h p : same_log h (history_dispatch submit h p).
Proof. unfold history_dispatch. eapply same_log_trans; [apply dispatch_views_log|apply finish_views_log]. Qed.

(** A fact with the next number of the session is recorded, or the history has failed. *)
Lemma history_record_next reserve view_reserve h e size scope :
  (h_closed h = false -> h_last_sequence h = sequence e - 1 /\ (h_scope h = None \/ h_scope h = Some scope)) ->
  scope = (event_client_id e, event_session_id e) -> sequence e <= u64_max -> measured_size event_base e = Ok size ->
  let '(h', hp) := history_record event_base reserve view_reserve h e in
  h_closed h' = false -> hp_result hp = Ok tt /\ h_last_sequence h' = sequence e /\ h_scope h' = Some scope.
Proof.
  intros Hh -> Hu Hs. unfold history_record. destruct (h_closed h) eqn:Hc; [simpl; congruence|].
  destruct (Hh eq_refl) as [Hl Hsc]. unfold checked_add. rewrite Hl.
  replace (sequence e - 1 + 1) with (sequence e) by lia. rewrite (proj2 (Z.leb_le _ _)) by done.
  rewrite bool_decide_eq_true_2 by done. simpl.
  assert (is_some_and (h_scope h) (fun expected => negb (bool_decide (expected = (event_client_id e, event_session_id e)))) = false)
    as ->. { destruct Hsc as [-> | ->]; [done|]. simpl. by rewrite bool_decide_eq_true_2. }
  rewrite Hs. destruct reserve; [|by intros [=]]. cbn [negb].
  destruct (if eo_max_bytes (h_options h) <? size then _ else _) as [[entries bytes]|]; [|by intros [=]].
  match goal with |- context [record_views _ _ ?h0 _ _ _] => set (h1 := h0) end.
  pose proof (record_views_log view_reserve (is_closed_event e) (h_publishers h1)
    (if eo_max_bytes (h_options h) <? size then None else Some e) size h1) as (H1 & H2 & H3).
  destruct (record_views view_reserve _ h1 _ _ size) as [h2 ps]. simpl in *.
  destruct (is_closed_event e); simpl; intros _; by rewrite ?H1, ?H2.
Qed.

Lemma history_fail_closed h error : h_closed (history_fail h error).1 = true.
Proof. unfold history_fail. by destruct (h_closed h) eqn:E. Qed.

Lemma publish_history_spec ox e size s p :
  (length (pb_history p) < 3)%nat -> sequence e <= u64_max ->
  (h_closed (history s) = false -> h_last_sequence (history s) = sequence e - 1 /\
     (h_scope (history s) = None \/ h_scope (history s) = Some (client_instance_id s, own_session_id s))) ->
  event_client_id e = client_instance_id s -> event_session_id e = own_session_id s -> measured_size event_base e = Ok size ->
  exists h' hp hf, publish_history event_base ox e s p =
    (s <| history := h' |>, p <| pb_history ::= (fun l => l ++ [(e, hp)]); pb_history_failure := hf |>, Ok tt) /\
    (h_closed h' = false -> h_last_sequence h' = sequence e /\ h_scope h' = Some (client_instance_id s, own_session_id s)).
Proof.
  intros Hlen Hu Hh Hc Hi Hm. unfold publish_history. rewrite (proj2 (Z.leb_gt _ _)) by lia.
  pose proof (history_record_next (history_reserve ox (sequence e)) (view_reserve ox (sequence e)) (history s) e size
    (client_instance_id s, own_session_id s)) as Hr.
  destruct (history_record _ _ _ _ e) as [h' hp].
  assert (h_closed h' = false -> hp_result hp = Ok tt /\ h_last_sequence h' = sequence e /\
    h_scope h' = Some (client_instance_id s, own_session_id s)) as Hr'.
  { apply Hr; [done|by rewrite Hc, Hi|done|done]. }
  cbn [pb_history_failure apply_update constant]. destruct (hp_result hp) as [[]|error] eqn:Hres.
  - exists h', hp, (pb_history_failure p). split; [by destruct p|]. intros Hcl. by destruct (Hr' Hcl).
  - simpl. destruct (pb_history_failure p) as [hf|] eqn:Hf.
    + exists h', hp, (Some hf). split; [rewrite <- Hf; by destruct p|]. intros Hcl. by destruct (Hr' Hcl).
    + pose proof (history_fail_closed h' error) as Hcl. destruct (history_fail h' error) as [h2 hf]. simpl in Hcl.
      exists h2, hp, (Some hf). split; [done|]. congruence.
Qed.

(** ** One fact *)

(** The only reasons for which a fact is not published. *)
Definition unpublishable (e : NetError) : Prop := kind e = ErrorKind.ItemTooLarge \/ kind e = ErrorKind.ResourceExhausted.

Lemma size_add_err size n e : size_add size n = Err e -> unpublishable e.
Proof.
  unfold size_add, unpublishable. destruct (checked_add _ _ _); simpl; [destruct (_ <? _); [|done]|]; intros [= <-]; auto.
Qed.

Lemma size_string_err size v e : size_string size v = Err e -> unpublishable e.
Proof. destruct v; [apply size_add_err|done]. Qed.

Lemma size_pairs_err m : forall size e, size_pairs size m = Err e -> unpublishable e.
Proof.
  induction m as [|[k v] m IH]; intros size e; [done|]. cbn [size_pairs].
  destruct (size_add size (byte_len k)) as [z|e1] eqn:H1; [|intros [= <-]; by eapply size_add_err].
  destruct (size_add z (byte_len v)) as [z'|e1] eqn:H2; [apply IH|intros [= <-]; by eapply size_add_err].
Qed.

Lemma size_peer_err size v e : size_peer size v = Err e -> unpublishable e.
Proof. destruct v; [apply size_add_err|done]. Qed.

Ltac size_err H :=
  match type of H with (match ?x with Ok _ => _ | Err _ => _ end) = _ =>
    let z := fresh "z" in let e1 := fresh "e" in let E := fresh "E" in
    destruct x as [z|e1] eqn:E; [|injection H as <-] end.

Lemma size_error_err size er e : size_error size er = Err e -> unpublishable e.
Proof.
  unfold size_error. intros H. size_err H; [|by eapply size_peer_err]. size_err H; [|by eapply size_string_err]. size_err H.
  - destruct (config_error er); [|done]. size_err H; by eapply size_add_err.
  - destruct (diagnostic _); [|done]. size_err E1; [by eapply size_string_err|by eapply size_pairs_err].
Qed.

Lemma size_end_err size en e : size_end size en = Err e -> unpublishable e.
Proof.
  unfold size_end. intros H. size_err H; [|by eapply size_peer_err]. destruct (end_error en); [by eapply size_error_err|done].
Qed.

Lemma measured_size_err ev e : measured_size event_base ev = Err e -> unpublishable e.
Proof.
  unfold measured_size. intros H. size_err H; [by eapply size_add_err|].
  destruct (event_kind ev) as [a|i|a v er r|i en|[en|er]].
  - by eapply size_pairs_err.
  - by eapply size_string_err.
  - size_err E; [|by eapply size_pairs_err]. size_err E; [by eapply size_error_err|by eapply size_string_err].
  - size_err E; [by eapply size_end_err|by eapply size_string_err].
  - destruct (last_connection en); [by eapply size_end_err|done].
  - by eapply size_error_err.
Qed.

(** ** Permits along a transition *)

Lemma conserved_iff s others :
  conserved s others <-> forall j b, journal s = Some j -> 0 <= free b j /\
    (Forall (fun l => 0 <= cost b l) (state_leases (st s)) /\
     Forall (fun l => 0 <= cost b l) (entry_lease <$> equeue (jb_stream j)) /\ Forall (fun l => 0 <= cost b l) others) /\
    free b j + (total b (state_leases (st s)) + (total b (entry_lease <$> equeue (jb_stream j)) + total b others)) = limit b j.
Proof.
  split; intros H j b Hj; destruct (H j b Hj) as (? & ? & ?); rewrite ?Forall_app, ?total_app in *; auto.
Qed.

(** Sums and signs of leases are split at the appends. *)
Ltac spread := autorewrite with leases.
Ltac spread_in H := autorewrite with leases in H.

(** Leases that are the same up to their places. *)
Ltac same_leases :=
  unfold pending_leases, publication_leases, effect_leases, state_leases; simpl; spread; simpl; unfold entry_lease; simpl;
  intros; destruct_and?; split_and!; try done; try lia; repeat (constructor; simpl; try lia).

(** The leases around a session change and their sums do not. *)
Lemma conserved_others s others others' :
  conserved s others ->
  (forall b, Forall (fun l => 0 <= cost b l) others -> Forall (fun l => 0 <= cost b l) others' /\ total b others' = total b others) ->
  conserved s others'.
Proof.
  rewrite !conserved_iff. intros Hc Ho j b Hj. destruct (Hc j b Hj) as (Hf & (H1 & H2 & H3) & Ht).
  destruct (Ho b H3) as [H4 H5]. rewrite H5. auto.
Qed.

(** The lease of a fact is cut to its size. *)
Lemma conserved_split s slot bytes size others :
  conserved s (EventLease.Observed slot bytes :: others) -> 0 <= size <= bytes ->
  conserved s (EventLease.Observed slot size :: EventLease.Observed 0 (bytes - size) :: others).
Proof.
  intros Hc Hs. eapply conserved_others; [exact Hc|]. intros b. spread. intros [H1 H2]. simpl.
  destruct b; split_and!; simpl in *; (done || lia).
Qed.

(** ... and moves into the queue. *)
Lemma conserved_push s j stream e others :
  conserved s (entry_lease e :: others) -> journal s = Some j -> equeue stream = equeue (jb_stream j) ++ [e] ->
  conserved (s <| journal := Some (j <| jb_stream := stream |>) |>) others.
Proof.
  rewrite !conserved_iff. intros Hc Hj Hq j' b Hj'. simpl in Hj'. injection Hj' as <-. simpl. rewrite Hq.
  destruct (Hc j b Hj) as (Hf & (H1 & H2 & H3) & Ht). spread_in H3. destruct H3. spread_in Ht. spread.
  change (fmap entry_lease [e]) with [entry_lease e]. spread. unfold free, limit in *. simpl in *.
  split_and!; try done; simpl; lia.
Qed.

(** What the journal does with a fact, with the leases it leaves in the publication. *)
Inductive journaled (e : ConnectionEvent) (size : Z) (lease : EventLease) (s : Session) (p : Publication) :
    Session -> Publication -> Prop :=
| journaled_none :
    journal s = None ->
    journaled e size lease s p s (p <| pb_unobserved ::= (fun l => l ++ [mkPendingEvent e lease]); pb_pending := None |>)
| journaled_detached j :
    journal s = Some j -> eactive (jb_stream j) = false ->
    journaled e size lease s p s
      (p <| pb_pending := None;
            pb_journal ::= fun l => l ++ [event_publication_new <| ep_result := Err (NetError_new ErrorKind.Closed);
                                            ep_input := Some (mkEntry e size (lease_resources lease)) |>] |>)
| journaled_pushed j stream ep :
    journal s = Some j -> eactive (jb_stream j) = true ->
    push_entry (jb_stream j) (mkEntry e size (lease_resources lease)) [] = (stream, ep) ->
    journaled e size lease s p (s <| journal := Some (j <| jb_stream := stream |>) |>)
      (p <| pb_pending := None; pb_journal ::= fun l => l ++ [ep] |>).

Lemma publish_journal_spec e size lease s p :
  (length (pb_journal p) < 3)%nat -> (length (pb_unobserved p) < 3)%nat -> 0 <= size <= MAX_CONNECTION_EVENT_BYTES ->
  (forall j, journal s = Some j -> valid_limit (jb_publisher j) /\ MAX_CONNECTION_EVENT_BYTES <= ev_max_bytes (ereg_limit (jb_publisher j)) /\
     source_closed (jb_stream j) = false /\ 0 <= ebytes (jb_stream j) /\
     (eactive (jb_stream j) = true ->
      Z.of_nat (length (equeue (jb_stream j))) < ev_max_items (ereg_limit (jb_publisher j)) /\
      ebytes (jb_stream j) + MAX_CONNECTION_EVENT_BYTES <= ev_max_bytes (ereg_limit (jb_publisher j)))) ->
  exists s' p', publish_journal e size lease s p = (s', p', Ok tt) /\ journaled e size lease s p s' p'.
Proof.
  intros Hj3 Hu3 Hs Hfit. unfold publish_journal. destruct (journal s) as [j|] eqn:Hj.
  - destruct (Hfit j eq_refl) as (Hv & Hm & Hc & Hb & Hf). rewrite (proj2 (Z.leb_gt _ _)) by lia.
    destruct (eactive (jb_stream j)) eqn:Ha.
    + destruct (Hf eq_refl) as [Hi He]. rewrite commit_publish_fits by (simpl; done || lia).
      destruct (push_entry (jb_stream j) _ []) as [stream ep] eqn:Hp. pose proof Hp as [= _ Hep].
      eexists _, _. split; [|by eapply journaled_pushed]. by rewrite <- Hep.
    + rewrite commit_publish_detached by (simpl; done || lia). eexists _, _. split; [|by eapply journaled_detached].
      unfold detached_journal_error. simpl. rewrite Ha. simpl. do 2 f_equal. destruct s, j; simpl in *. by simplify_eq.
  - rewrite (proj2 (Z.leb_gt _ _)) by lia. eexists _, _. split; [done|]. by apply journaled_none.
Qed.

(** A fact is appended to a journal that is read. *)
Lemma journal_ok_push j l o e size stream ep :
  journal_ok j l o -> eactive (jb_stream j) = true -> 0 <= size ->
  Z.of_nat (length (equeue (jb_stream j))) < ev_max_items (ereg_limit (jb_publisher j)) ->
  ebytes (jb_stream j) + size <= ev_max_bytes (ereg_limit (jb_publisher j)) ->
  push_entry (jb_stream j) (mkEntry e size (Some (mkEventResources 1 size))) [] = (stream, ep) ->
  journal_ok (j <| jb_stream := stream |>) (l ++ [e]) o.
Proof.
  intros [Hw Hv Hr [Q1 Q2 Q3 Q4 Q5 Q6 Q7] Hl Hf Hx] Ha Hs Hi Hb [= <- <-]. split; simpl; try done.
  - split; simpl; try done.
    + rewrite length_app. simpl. lia.
    + rewrite queue_bytes_app, Q2. simpl. lia.
    + lia.
    + apply Forall_app. split; [done|]. by apply Forall_singleton.
    + congruence.
  - intros _. apply Forall_app. split; [auto|]. by apply Forall_singleton.
  - intros _. rewrite fmap_app, (assoc_L (++)), Hx by done. done.
Qed.

(** A detached journal stays as it is. *)
Lemma journal_ok_detached j l l' o : journal_ok j l o -> eactive (jb_stream j) = false -> journal_ok j l' o.
Proof. intros [Hw Hv Hr Hq Hl Hf Hx] Ha. split; try done. congruence. Qed.

(** Parts of the session and of the publication that publishing leaves alone. *)
Definition carries (p p' : Publication) : Prop :=
  pb_attempt p' = pb_attempt p /\ pb_connection p' = pb_connection p /\ pb_next_state p' = pb_next_state p /\
  pb_next_error p' = pb_next_error p /\ pb_close p' = pb_close p /\ pb_journal_finish p' = pb_journal_finish p /\
  pb_journal_failure p' = pb_journal_failure p /\ pb_terminal_slot p' = pb_terminal_slot p /\
  pb_snapshot p' = pb_snapshot p /\ pb_snapshot_failure p' = pb_snapshot_failure p.

Record keeps (s s' : Session) : Prop := {
  kp_state : exists n, st s' = (st s) <| ss_last_sequence := n |>;
  kp_client : client_instance_id s' = client_instance_id s;
  kp_session : own_session_id s' = own_session_id s;
  kp_identity : identity s' = identity s;
  kp_source : state_source s' = state_source s;
  kp_cancel : cancel_requested s' = cancel_requested s;
  kp_finished : finished s' = finished s;
  kp_detached : journal_active s = None -> journal_active s' = None;
}.

(** The permits of a fact after its publication: in the queue, or with the effects to be dropped. *)
Lemma journaled_conserved e size slot s p s' p' others lease :
  lease = EventLease.Observed slot size \/ lease = EventLease.Unobserved ->
  conserved s (lease :: pending_leases (p <| pb_pending := None |>) ++ others) -> journaled e size lease s p s' p' ->
  conserved s' (pending_leases p' ++ others).
Proof.
  intros Hl Hc Hj. destruct Hj as [Hn|j Hj Ha|j stream ep Hj Ha Hp].
  - intros j b Hj. congruence.
  - eapply conserved_others; [exact Hc|]. intros b. destruct Hl as [-> | ->]; same_leases.
  - eapply conserved_push with (e := mkEntry e size (lease_resources lease)); [|done|].
    + eapply conserved_others; [exact Hc|]. intros b. injection Hp as _ <-. destruct Hl as [-> | ->]; same_leases.
    + by injection Hp as <- _.
Qed.

Lemma measured_size_sequence e n : measured_size event_base (e <| sequence := n |>) = measured_size event_base e.
Proof. done. Qed.

(** The lease a fact is published with, and its refund. *)
Lemma refund_lease_full s lease size others :
  full s lease -> 0 <= size <= MAX_CONNECTION_EVENT_BYTES -> conserved s (lease :: others) ->
  exists kept refund, refund_lease lease size = Ok (kept, refund) /\ (length refund <= 1)%nat /\
    (kept = EventLease.Observed 1 size \/ kept = EventLease.Unobserved /\ journal_active s = None) /\
    conserved s (kept :: (EventLease.Observed 0 <$> refund) ++ others).
Proof.
  intros [-> | [-> Hn]] Hs Hc; simpl.
  - unfold checked_sub. rewrite (proj2 (Z.leb_le _ _)) by lia. simpl. eexists _, _. split_and!; [done|simpl; lia| |].
    + left. f_equal. lia.
    + replace (MAX_CONNECTION_EVENT_BYTES - (MAX_CONNECTION_EVENT_BYTES - size)) with size by lia. by apply conserved_split.
  - exists EventLease.Unobserved, []. split_and!; [done|simpl; lia|by right|done].
Qed.

Lemma mid_fit s j others l o lease :
  conserved s (lease :: others) -> full s lease -> journal s = Some j -> journal_ok j l o -> eactive (jb_stream j) = true ->
  lease = EventLease.Observed 1 MAX_CONNECTION_EVENT_BYTES /\
  Z.of_nat (length (equeue (jb_stream j))) < ev_max_items (ereg_limit (jb_publisher j)) /\
  ebytes (jb_stream j) + MAX_CONNECTION_EVENT_BYTES <= ev_max_bytes (ereg_limit (jb_publisher j)).
Proof.
  intros Hc [-> | [-> Hn]] Hj Hok Ha; [split; [done|by eapply full_lease_fits]|].
  unfold journal_active in Hn. by rewrite Hj, Ha in Hn.
Qed.

Lemma session_keeps_refl s : keeps s s.
Proof. split; try done. exists (ss_last_sequence (st s)). by destruct (st s). Qed.

(** The journal after a fact was offered to it. *)
Lemma journaled_ok e size kept s p s' p' l o :
  journaled e size kept s p s' p' -> (forall j, journal s = Some j -> journal_ok j l o /\ source_closed (jb_stream j) = false) ->
  0 <= size <= MAX_CONNECTION_EVENT_BYTES ->
  (forall j, journal s = Some j -> eactive (jb_stream j) = true -> kept = EventLease.Observed 1 size /\
     Z.of_nat (length (equeue (jb_stream j))) < ev_max_items (ereg_limit (jb_publisher j)) /\
     ebytes (jb_stream j) + MAX_CONNECTION_EVENT_BYTES <= ev_max_bytes (ereg_limit (jb_publisher j))) ->
  (forall j, journal s' = Some j -> journal_ok j (l ++ [e]) o /\ source_closed (jb_stream j) = false) /\
  keeps s s' /\ st s' = st s /\ history s' = history s /\ carries p p' /\ pb_history p' = pb_history p /\
  pb_refunds p' = pb_refunds p /\ pb_pending p' = None /\ pb_failed p' = pb_failed p /\
  (length (pb_journal p') <= S (length (pb_journal p)))%nat /\ (length (pb_unobserved p') <= S (length (pb_unobserved p)))%nat.
Proof.
  intros Hjd Hok Hs Hfit.
  destruct Hjd as [Hn|j Hj Ha|j stream ep Hj Ha Hp].
  - split_and!; simpl; rewrite ?length_app; simpl; try done; try lia; [intros j; by rewrite Hn|apply session_keeps_refl].
  - split_and!; simpl; rewrite ?length_app; simpl; try done; try lia; [|apply session_keeps_refl]. intros j'. rewrite Hj. intros [= <-].
    destruct (Hok j Hj). split; [|done]. by eapply journal_ok_detached.
  - destruct (Hok j Hj) as [Ho Hc], (Hfit j Hj Ha) as (-> & Hi & Hb).
    split_and!; simpl; rewrite ?length_app; simpl; try done; try lia.
    + intros j' [= <-]. split; [apply (journal_ok_push j l o e size stream ep); [done|done|lia|done|lia|exact Hp]|]. by injection Hp as <- _.
    + split; try done; [exists (ss_last_sequence (st s)); simpl; by destruct (st s)|]. unfold journal_active. simpl. by rewrite Hj, Ha.
Qed.

(** A fact that the grammar allows is published, unless it is too large or the numbers are used up. *)
Lemma publish_spec ox k lease n others l o g g' s p :
  mid false n (lease :: others) l o g s p -> (n < 3)%nat -> full s lease -> follows g k g' ->
  (exists e p', publish event_base ox k lease s p = (s, p', Err e) /\ unpublishable e /\ carries p p' /\
     mid true n others l o g s p') \/
  (exists s' p', publish event_base ox k lease s p = (s', p', Ok tt) /\ carries p p' /\ keeps s s' /\
     mid false (S n) others l o g' s' p').
Proof.
  intros [Hc Hj Hopen Hlaw Hseq Hh Hp] Hn Hfull Hg. unfold publish.
  set (ev := mkConnectionEvent 0 _ _ _ k). set (p1 := p <| pb_pending := Some _; pb_failed := true |>).
  assert (forall e, unpublishable e -> exists e0 p', (s, p1, @Err () NetError e) = (s, p', Err e0) /\ unpublishable e0 /\ carries p p' /\
    mid true n others l o g s p') as Hfail.
  { intros e He. exists e, p1. split_and!; [done|done|done|]. split; try done.
    - eapply conserved_others; [exact Hc|]. intros b. subst p1.
      unfold pending_leases, publication_leases. simpl. rewrite (pg_pending _ _ _ Hp) by done. same_leases.
    - by destruct Hp. }
  unfold checked_add. destruct (Z.leb_spec (ss_last_sequence (st s) + 1) u64_max); [|left; apply Hfail; by right].
  destruct (measured_size event_base ev) as [size|e] eqn:Hm; [|left; apply Hfail; by eapply measured_size_err].
  assert (0 <= size <= MAX_CONNECTION_EVENT_BYTES) as Hs. { pose proof (measured_size_bounds event_base ev size Hm). lia. }
  assert (conserved s (lease :: pending_leases p ++ others)) as Hc'. { eapply conserved_perm; [exact Hc|]. by rewrite <- Permutation_middle. }
  destruct (refund_lease_full s lease size _ Hfull Hs Hc') as (kept & refund & Hr & Hlr & Hk & Hc1). rewrite Hr.
  rewrite (proj2 (Z.ltb_ge _ _)) by (subst p1; simpl; rewrite length_app; pose proof (pg_refunds _ _ _ Hp); lia).
  set (m := ss_last_sequence (st s) + 1) in *. right.
  destruct (publish_history_spec ox (ev <| sequence := m |>) size (s <| st ::= fun x => x <| ss_last_sequence := m |> |>)
    (p1 <| pb_pending := Some (mkPendingEvent (ev <| sequence := m |>) kept); pb_refunds ::= fun l => l ++ refund |>))
    as (h & hp & hf & Hpub & Hlog).
  { simpl. rewrite (pg_history _ _ _ Hp). lia. }
  { done. }
  { simpl. intros Hcl. destruct (Hh Hcl) as [-> Hsc]. split; [lia|done]. }
  1-3: done.
  unfold mut_bind at 1. rewrite Hpub.
  match goal with |- context [mut_bind _ _ ?a ?b] => set (s2 := a); set (p2 := b) end.
  destruct (publish_journal_spec (ev <| sequence := m |>) size kept s2 p2) as (s3 & p3 & Hpj & Hjd).
  { simpl. pose proof (pg_journal _ _ _ Hp). lia. }
  { simpl. pose proof (pg_unobserved _ _ _ Hp). lia. }
  { done. }
  { simpl. intros j Hjj. pose proof (Hj j Hjj) as Ho. split_and!; [apply Ho|by eapply journal_event_fits|by apply Hopen| |].
    - rewrite (qi_bytes _ _ (jo_queue _ _ _ Ho)). apply queue_bytes_pos, Ho.
    - intros Ha. by apply (mid_fit s j _ _ o lease Hc' Hfull Hjj Ho Ha). }
  unfold mut_bind. rewrite Hpj. unfold set_pub. eexists _, _. split; [done|].
  destruct (journaled_ok _ _ _ _ _ _ _ (l ++ (pb_history p).*1) o Hjd) as (Hok & Hkp & Hst & Hhs & Hca & Hph & Hrf & Hpe & Hfl & Hl1 & Hl2).
  { intros j Hjj. split; [by apply Hj|by apply Hopen]. }
  { done. }
  { intros j Hjj Ha. change (journal s = Some j) in Hjj. destruct (mid_fit s j _ _ o lease Hc' Hfull Hjj (Hj j Hjj) Ha) as (-> & Hi & Hb). split; [|done].
    destruct Hk as [?|[_ Hna]]; [done|]. unfold journal_active in Hna. by rewrite Hjj, Ha in Hna. }
  assert ((pb_history p3).*1 = (pb_history p).*1 ++ [ev <| sequence := m |>]) as Hhist by (by rewrite Hph; simpl; rewrite fmap_app).
  assert (length (l ++ (pb_history p).*1) = length (l ++ (pb_history p3).*1) - 1)%nat as Hlen.
  { rewrite Hhist, !length_app. simpl. lia. }
  split_and!; [exact Hca| |].
  - destruct Hkp. split; try done; exists m; by rewrite Hst.
  - split; simpl.
    + enough (conserved s3 (pending_leases p3 ++ others)) as He by exact He.
      eapply (journaled_conserved _ size 1 s2 p2); [by destruct Hk as [?|[? _]]; [left|right]| |exact Hjd].
      eapply conserved_others; [apply (conserved_move s s2 _ _ Hc1); [done|done]|]. intros b. subst p2 p1.
      unfold pending_leases, publication_leases. rewrite (pg_pending _ _ _ Hp) by done. same_leases.
    + intros j Hjj. rewrite Hhist, (assoc_L (++)). by apply Hok.
    + intros j Hjj. by apply Hok.
    + rewrite (kp_client _ _ Hkp), (kp_session _ _ Hkp), Hhist, (assoc_L (++)). eapply lawful_snoc; [exact Hlaw| |done|done|exact Hg].
      subst m. rewrite Hseq. done.
    + rewrite Hst. simpl. subst m. rewrite Hseq, Hhist, !length_app. simpl. lia.
    + intros Hcl. rewrite Hhs in Hcl |- *. rewrite Hst. simpl. rewrite (kp_client _ _ Hkp), (kp_session _ _ Hkp).
      destruct (Hlog Hcl) as [-> ->]. split; [done|by right].
    + destruct Hp, Hca as (_ & _ & _ & _ & C1 & C2 & C3 & C4 & C5 & C6).
      simpl in *. split; simpl; rewrite ?Hph, ?Hrf, ?C1, ?C2, ?C3, ?C4, ?C5, ?C6; simpl; rewrite ?length_app; simpl; (done || lia).
Qed.

(** ** The invariant between transitions *)

Definition holds_slot (s : Session) (slot : option EventLease) : Prop := exists l, slot = Some l /\ full s l.

(** A session that has not ended is where its facts say. *)
Record alive (s : Session) (g : Progress) : Prop := {
  al_terminated : ss_terminated (st s) = false;
  al_result : ss_terminal_result (st s) = None;
  al_error : ss_delivery_error (st s) = None;
  al_slot : holds_slot s (ss_terminal_slot (st s));
  al_last : g.2 = ac_attempt <$> ss_last_attempt (st s);
  al_phase : match ss_attempt (st s), ss_connection (st s) with
             | None, None => g.1 = Idle
             | Some a, None => g.1 = Trying (ac_attempt (aa_context a)) /\ holds_slot s (result_slot a) /\
                               holds_slot s (connection_slot a) /\ ss_last_attempt (st s) = Some (aa_context a)
             | None, Some c => g.1 = Online (info c) /\ holds_slot s (terminal_slot c)
             | Some _, Some _ => False
             end;
}.

(** A session that has ended: with its last fact, or because a fact could not be published. *)
Record dead (s : Session) (g : Progress) : Prop := {
  de_terminated : ss_terminated (st s) = true;
  de_empty : ss_attempt (st s) = None /\ ss_connection (st s) = None /\ ss_terminal_slot (st s) = None;
  de_closing : ss_closing (st s) = true;
  de_result : exists r, ss_terminal_result (st s) = Some r /\
    match ss_delivery_error (st s) with None => g.1 = Ended r | Some e => unpublishable e /\ r = Err e end;
  de_journal : forall j, journal s = Some j -> eactive (jb_stream j) = true -> source_closed (jb_stream j) = true;
}.

(** A connection state shows the session. *)
Definition shows (x : SessionState) (cs : ConnectionState) : Prop :=
  (ss_terminated x = true -> exists r, ss_terminal_result x = Some r /\ cs = ConnectionState.Closed r) /\
  (ss_terminated x = false -> forall r, cs <> ConnectionState.Closed r) /\
  (forall i, cs = ConnectionState.Connected i <->
     ss_closing x = false /\ exists c, ss_connection x = Some c /\ info c = i).

(** The snapshots of the state source, until their numbers are used up. *)
Record shown (s : Session) : Prop := {
  sw_state : snap_revision (ss_snapshot (st s)) < u64_max -> shows (st s) (snap_state (ss_snapshot (st s)));
  sw_source : ss_state_failed (st s) = false ->
    src_current (state_source s) = ss_snapshot (st s) /\ src_revision (state_source s) = snap_revision (ss_snapshot (st s)) /\
    src_closed (state_source s) = ss_terminated (st s) /\ src_failure (state_source s) = None;
  sw_failed : ss_state_failed (st s) = true -> src_closed (state_source s) = true /\ src_failure (state_source s) <> None;
}.

Record session_ok (others : list EventLease) (l : list ConnectionEvent) (o : list (Received ConnectionEvent)) (s : Session) : Prop := {
  so_conserved : conserved s others;
  so_journal : forall j, journal s = Some j -> journal_ok j l o;
  so_sequence : ss_last_sequence (st s) = Z.of_nat (length l);
  so_history : history_ok s;
  so_life : exists g, lawful (client_instance_id s) (own_session_id s) l g /\
    (alive s g /\ (forall j, journal s = Some j -> source_closed (jb_stream j) = false) \/ dead s g);
  so_shown : shown s;
  so_finished : finished s = true -> ss_terminated (st s) = true;
}.

(** What a transition leaves alone. *)
Record frame (s s' : Session) : Prop := {
  fr_client : client_instance_id s' = client_instance_id s;
  fr_session : own_session_id s' = own_session_id s;
  fr_identity : identity s' = identity s;
  fr_source : state_source s' = state_source s;
  fr_snapshot : ss_snapshot (st s') = ss_snapshot (st s);
  fr_failed : ss_state_failed (st s') = ss_state_failed (st s);
  fr_finished : finished s' = finished s;
  fr_detached : journal_active s = None -> journal_active s' = None;
}.

(** How the operation of a transition ends, from a session [s0] that has not ended: the session goes
    on, it is closed with its last fact, or a fact could not be published. *)
Inductive settles (s0 : Session) (others : list EventLease) (l : list ConnectionEvent) (o : list (Received ConnectionEvent)) :
    Session * Publication * Result () NetError -> Prop :=
| settles_on n g s p r :
    mid false n others l o g s p -> frame s0 s -> alive s g -> pb_close p = false ->
    match pb_next_state p with
    | Some next => shows (st s) next
    | None => forall cs, shows (st s0) cs -> shows (st s) cs
    end -> settles s0 others l o (s, p, r)
| settles_closed n last result s p r :
    mid false n others l o (Ended result, last) s p -> frame s0 s -> pb_close p = true ->
    ss_attempt (st s) = None -> ss_connection (st s) = None -> ss_terminal_slot (st s) = None -> ss_closing (st s) = true ->
    ss_terminated (st s) = true -> ss_terminal_result (st s) = Some result -> ss_delivery_error (st s) = None ->
    pb_next_state p = Some (ConnectionState.Closed result) -> settles s0 others l o (s, p, r)
| settles_failed n g s p e :
    mid true n others l o g s p -> frame s0 s -> unpublishable e ->
    ss_terminal_result (st s) = None ->
    (is_some (pb_attempt p) = true -> ss_attempt (st s) = None) -> (is_some (pb_connection p) = true -> ss_connection (st s) = None) ->
    settles s0 others l o (s, p, Err e).

(** ** The snapshot of a transition *)

Lemma prepare_failure_spec (x : SourceState ConnectionSnapshot) error :
  src_closed x = false -> src_closed (prepare_failure x error).1 = true /\ src_failure (prepare_failure x error).1 <> None.
Proof. intros Hc. unfold prepare_failure, source_prepare. rewrite Hc. simpl. split; done. Qed.

(** A snapshot with the next revision is accepted, or the allocator refuses. *)
Lemma source_value_spec reserve (x : SourceState ConnectionSnapshot) (closing : bool) snapshot :
  src_closed x = false -> src_revision x + 1 = snap_revision snapshot -> snap_revision snapshot <= u64_max ->
  src_failure x = None ->
  let '(x', effect) := source_prepare reserve x (Some snapshot) closing None in
  (x' = x /\ is_err (sp_result effect) = true) \/
  (sp_result effect = Ok tt /\ src_current x' = snapshot /\ src_revision x' = snap_revision snapshot /\
   src_closed x' = closing /\ src_failure x' = None).
Proof.
  intros Hc Hr Hu Hf. unfold source_prepare. rewrite Hc. simpl. unfold checked_add. rewrite Hr, (proj2 (Z.leb_le _ _)) by done.
  destruct closing, reserve; simpl; (by right) || (by left).
Qed.

(** [shown] before the snapshot of a transition is prepared. *)
Record showable (s : Session) (p : Publication) : Prop := {
  sb_source : ss_state_failed (st s) = false ->
    src_current (state_source s) = ss_snapshot (st s) /\ src_revision (state_source s) = snap_revision (ss_snapshot (st s)) /\
    src_closed (state_source s) = false /\ src_failure (state_source s) = None;
  sb_failed : ss_state_failed (st s) = true -> src_closed (state_source s) = true /\ src_failure (state_source s) <> None;
  sb_ended : ss_terminated (st s) = true -> pb_next_state p <> None;
  sb_state : match pb_next_state p with
             | Some next => shows (st s) next
             | None => snap_revision (ss_snapshot (st s)) < u64_max -> shows (st s) (snap_state (ss_snapshot (st s)))
             end;
}.

(** What the preparation of the snapshot leaves alone. *)
Definition beside_snapshot (s s' : Session) (p p' : Publication) : Prop :=
  (exists source snapshot failed,
     s' = s <| state_source := source; st := (st s) <| ss_snapshot := snapshot; ss_state_failed := failed |> |>) /\
  (exists next error effect failure,
     p' = p <| pb_next_state := next; pb_next_error := error; pb_snapshot := effect; pb_snapshot_failure := failure |>).

Lemma shows_beside x y cs :
  ss_terminated y = ss_terminated x -> ss_terminal_result y = ss_terminal_result x -> ss_closing y = ss_closing x ->
  ss_connection y = ss_connection x -> shows x cs -> shows y cs.
Proof. unfold shows. intros -> -> -> ->. done. Qed.

Lemma beside_snapshot_refl s p : beside_snapshot s s p p.
Proof.
  split.
  - exists (state_source s), (ss_snapshot (st s)), (ss_state_failed (st s)). destruct s as [a b c x]; simpl. by destruct x.
  - exists (pb_next_state p), (pb_next_error p), (pb_snapshot p), (pb_snapshot_failure p). by destruct p.
Qed.

Lemma prepare_snapshot_spec ox s p :
  showable s p ->
  let '(s', p') := prepare_snapshot ox s p in shown s' /\ beside_snapshot s s' p p'.
Proof.
  intros [Hsrc Hfail Hend Hst]. unfold prepare_snapshot.
  destruct (is_none (pb_next_state p) && is_none (pb_next_error p)) eqn:Hnone.
  { apply andb_true_iff in Hnone as [Hn _]. destruct (pb_next_state p) eqn:Hnp; [done|]. split.
    - split; [done| |done]. intros Hf. destruct (Hsrc Hf) as (? & ? & ? & ?). split_and!; try done.
      destruct (ss_terminated (st s)); [by destruct (Hend eq_refl)|done].
    - apply beside_snapshot_refl. }
  unfold checked_add. destruct (Z.leb_spec (snap_revision (ss_snapshot (st s)) + 1) u64_max) as [Hle|Hgt].
  - set (snapshot := mkConnectionSnapshot _ _ _ _).
    assert (shows (st s) (snap_state snapshot)) as Hsh.
    { simpl. destruct (pb_next_state p); simpl; [done|]. apply Hst. lia. }
    cbn [ss_state_failed ss_terminated apply_update constant].
    destruct (ss_state_failed (st s)) eqn:Hf.
    { split; [|split; [by exists (state_source s), snapshot, true|by exists None, None, (pb_snapshot p), (pb_snapshot_failure p)]]. split; simpl; [|congruence|intros _; by apply Hfail].
      intros _. by eapply shows_beside; [..|exact Hsh]. }
    destruct (Hsrc eq_refl) as (_ & Hr & Hc & Hsf).
    assert (exists reserve, (if ss_terminated (st s) then prepare_finish_value (state_source s) snapshot
      else prepare_value (state_reserve ox) (state_source s) snapshot) =
      source_prepare reserve (state_source s) (Some snapshot) (ss_terminated (st s)) None) as [reserve ->].
    { unfold prepare_finish_value, prepare_value. destruct (ss_terminated (st s)); by eexists. }
    pose proof (source_value_spec reserve (state_source s) (ss_terminated (st s)) snapshot Hc) as Hv.
    destruct (source_prepare _ _ _ _ _) as [source effect]. specialize (Hv ltac:(simpl; lia) ltac:(simpl; lia) Hsf).
    destruct (sp_result effect) as [[]|error] eqn:He.
    + destruct Hv as [[_ ?]|(_ & H1 & H2 & H3 & H4)]; [done|].
      split; [|split; [by exists source, snapshot, false|by exists None, None, (Some effect), (pb_snapshot_failure p)]]. split; simpl; [|done|congruence].
      intros _. by eapply shows_beside; [..|exact Hsh].
    + destruct Hv as [[-> _]|(? & _)]; [|done].
      pose proof (prepare_failure_spec (state_source s) error Hc) as [H1 H2].
      destruct (prepare_failure _ _) as [source failure]. simpl in *.
      split; [|split; [by exists source, snapshot, true|by exists None, None, (Some effect), (Some failure)]]. split; simpl; [|done|done].
      intros _. by eapply shows_beside; [..|exact Hsh].
  - destruct (ss_state_failed (st s)) eqn:Hf.
    + split; [split; [lia|congruence|intros _; by apply Hfail]|apply beside_snapshot_refl].
    + destruct (Hsrc eq_refl) as (_ & _ & Hc & _).
      pose proof (prepare_failure_spec (state_source s) (NetError_new ErrorKind.ResourceExhausted) Hc) as [H1 H2].
      destruct (prepare_failure _ _) as [source failure]. simpl in *. split.
      * split; simpl; [lia|done|done].
      * split; [by exists source, (ss_snapshot (st s)), true|by exists (pb_next_state p), (pb_next_error p), (pb_snapshot p), (Some failure)].
Qed.

(** ** The end of a transition *)

Lemma full_transfer s s' l : (journal_active s = None -> journal_active s' = None) -> full s l -> full s' l.
Proof. intros Hd [?|[? ?]]; [by left|right; auto]. Qed.

Lemma holds_transfer s s' slot :
  (journal_active s = None -> journal_active s' = None) -> holds_slot s slot -> holds_slot s' slot.
Proof. intros Hd (l & -> & Hf). exists l. split; [done|]. by eapply full_transfer. Qed.

(** The state up to what is shown of it. *)
Definition same_life (x y : SessionState) : Prop :=
  exists snapshot failed, y = x <| ss_snapshot := snapshot; ss_state_failed := failed |>.

Lemma same_life_refl x : same_life x x.
Proof. exists (ss_snapshot x), (ss_state_failed x). by destruct x. Qed.

Lemma alive_transfer s s' g :
  (journal_active s = None -> journal_active s' = None) -> same_life (st s) (st s') -> alive s g -> alive s' g.
Proof.
  intros Hd (a & b & Hst) [H1 H2 H3 H4 H5 H6]. split; rewrite Hst; simpl; try done; [by eapply holds_transfer|].
  destruct (ss_attempt (st s)), (ss_connection (st s)); try done.
  - destruct H6 as (? & ? & ? & ?). split_and!; try done; by eapply holds_transfer.
  - destruct H6. split; [done|by eapply holds_transfer].
Qed.

(** The same queue for the same receiver. *)
Definition same_queue (s s' : JournalStream) : Prop :=
  equeue s' = equeue s /\ ebytes s' = ebytes s /\ lagged s' = lagged s /\ eactive s' = eactive s /\
  (pristine s' = true -> pristine s = true).

Lemma journal_ok_same j stream l o :
  journal_ok j l o -> same_queue (jb_stream j) stream -> journal_ok (j <| jb_stream := stream |>) l o.
Proof.
  intros [H1 H2 H3 [Q1 Q2 Q3 Q4 Q5 Q6 Q7] H5 H6 H7] (E1 & E2 & E3 & E4 & E5).
  split; simpl; rewrite ?E1, ?E2, ?E3, ?E4; try done. split; rewrite ?E1, ?E2, ?E3, ?E4; auto.
Qed.

Lemma prepare_finish_same (s : JournalStream) failure :
  let '(s', ep) := prepare_finish s failure in
  same_queue s s' /\ effect_leases ep = [] /\ (eactive s' = true -> source_closed s' = true).
Proof.
  unfold prepare_finish. destruct (eactive s && negb (source_closed s)) eqn:E; simpl; [done|].
  split_and!; try done. intros Ha. rewrite Ha in E. by destruct (source_closed s).
Qed.

(** A stream of a session with the same queue. *)
Lemma set_stream_same s j stream others l o :
  conserved s others -> journal s = Some j -> journal_ok j l o -> same_queue (jb_stream j) stream ->
  let s' := s <| journal := Some (j <| jb_stream := stream |>) |> in
  conserved s' others /\ (forall j', journal s' = Some j' -> journal_ok j' l o) /\
  (journal_active s = None -> journal_active s' = None).
Proof.
  intros Hc Hj Hok Hq. split_and!.
  - apply (conserved_stream s j stream [] others Hc Hj). destruct Hq as [-> _]. done.
  - simpl. intros j' [= <-]. by apply journal_ok_same.
  - unfold journal_active. simpl. rewrite Hj. destruct Hq as (_ & _ & _ & -> & _). by destruct (eactive _).
Qed.

(** A publication that ends the journal adds no leases. *)
Lemma end_journal_spec s p others l o :
  conserved s (pending_leases p ++ others) -> (forall j, journal s = Some j -> journal_ok j l o) ->
  pb_journal_finish p = None -> pb_journal_failure p = None ->
  (pb_failed p = true -> ss_delivery_error (st s) <> None) ->
  let '(s', p') := end_journal s p in
  conserved s' (pending_leases p' ++ others) /\ (forall j, journal s' = Some j -> journal_ok j l o) /\
  (exists j', s' = s <| journal := j' |>) /\ (journal_active s = None -> journal_active s' = None) /\
  pb_history p' = pb_history p /\
  (pb_failed p || pb_close p = false -> s' = s /\ p' = p) /\
  (pb_failed p || pb_close p = true ->
   forall j, journal s' = Some j -> eactive (jb_stream j) = true -> source_closed (jb_stream j) = true).
Proof.
  intros Hc Hj Hf1 Hf2 Herr. unfold end_journal. destruct (journal s) as [j|] eqn:Hjs.
  2: { split_and!; try done; [by intros j; rewrite Hjs|exists None; destruct s; simpl in *; congruence|by intros _ j; rewrite Hjs]. }
  assert (forall failure, let '(stream, ep) := prepare_finish (jb_stream j) failure in
    let s' := s <| journal := Some (j <| jb_stream := stream |>) |> in
    conserved s' (pending_leases p ++ others) /\ (forall j, journal s' = Some j -> journal_ok j l o) /\
    (journal_active s = None -> journal_active s' = None) /\ effect_leases ep = [] /\
    (eactive stream = true -> source_closed stream = true)) as Hfin.
  { intros failure. pose proof (prepare_finish_same (jb_stream j) failure) as Hs.
    destruct (prepare_finish _ _) as [stream ep]. destruct Hs as (Hq & He & Hcl).
    destruct (set_stream_same s j stream _ l o Hc Hjs (Hj j eq_refl) Hq) as (? & ? & ?). done. }
  destruct (pb_failed p) eqn:Hpf; [destruct (ss_delivery_error (st s)) as [e|]; [|by destruct Herr]; specialize (Hfin (Some e))|
    destruct (pb_close p) eqn:Hpc; [specialize (Hfin None)|]].
  3: { split_and!; try done; [intros j'; rewrite Hjs; apply Hj|exists (Some j); destruct s; simpl in *; congruence]. }
  all: destruct (prepare_finish _ _) as [stream ep]; destruct Hfin as (H1 & H2 & H3 & H4 & H5).
  all: split_and!; try done; [|by eexists|by simpl; intros _ j' [= <-]].
  all: eapply conserved_others; [exact H1|]; intros b; unfold pending_leases, publication_leases; simpl; rewrite ?Hf1, ?Hf2; simpl;
    spread; simpl; rewrite ?H4; simpl; spread; intros; destruct_and?; split_and!; try done; try lia.
Qed.

(** A session that failed: its leases wait for the dispatch. *)
Definition failed_state (e : NetError) (x : SessionState) : SessionState :=
  x <| ss_delivery_error := Some e; ss_terminal_result := Some (Err e); ss_attempt := None; ss_connection := None;
       ss_terminated := true; ss_terminal_slot := None; ss_closing := true |>.

Definition failed_publication (e : NetError) (x : SessionState) (p : Publication) : Publication :=
  p <| pb_attempt ::= (fun a => option_or a (ss_attempt x)); pb_connection ::= (fun c => option_or c (ss_connection x));
       pb_terminal_slot := ss_terminal_slot x; pb_close := true;
       pb_next_state := Some (ConnectionState.Closed (Err e)); pb_next_error := Some e |>.

Lemma fail_session_eq e s p :
  ss_terminal_result (st s) = None ->
  (is_some (pb_attempt p) = true -> ss_attempt (st s) = None) -> (is_some (pb_connection p) = true -> ss_connection (st s) = None) ->
  exists h hf, fail_session (Err e) s p =
    (s <| st := failed_state e (st s); history := h |>, (failed_publication e (st s) p) <| pb_history_failure := hf |>) /\
    (h = history s \/ h_closed h = true).
Proof.
  intros Hr Ha Hcn. unfold fail_session. simpl. rewrite Hr. simpl.
  assert ((if is_none (pb_attempt p) then None else ss_attempt (st s)) = None) as -> by (destruct (pb_attempt p); auto).
  assert ((if is_none (pb_connection p) then None else ss_connection (st s)) = None) as -> by (destruct (pb_connection p); auto).
  destruct (pb_history_failure p) as [hf|] eqn:Hf.
  - exists (history s), (Some hf). split; [|by left]. by rewrite <- Hf.
  - pose proof (history_fail_closed (history s) e) as Hcl. destruct (history_fail (history s) e) as [h hf].
    exists h, (Some hf). split; [done|by right].
Qed.

Lemma fail_session_conserved e n s p others l o g :
  mid true n others l o g s p ->
  (is_some (pb_attempt p) = true -> ss_attempt (st s) = None) -> (is_some (pb_connection p) = true -> ss_connection (st s) = None) ->
  conserved (s <| st ::= failed_state e |>) (pending_leases (failed_publication e (st s) p) ++ others).
Proof.
  intros [Hc _ _ _ _ _ Hp] Ha Hcn. rewrite conserved_iff in Hc |- *. intros j b Hj. destruct (Hc j b Hj) as (Hf & (H1 & H2 & H3) & Ht).
  revert H1 H2 H3 Ht. unfold state_leases, pending_leases, publication_leases. simpl. rewrite (pg_slot _ _ _ Hp).
  destruct (pb_attempt p), (pb_connection p); simpl in *; rewrite ?Ha, ?Hcn by done; simpl; spread; simpl;
    intros; destruct_and?; split_and!; try done; try lia.
Qed.

(** [dead] before the journal is told. *)
Definition ending (x : SessionState) (g : Progress) : Prop :=
  ss_terminated x = true /\ (ss_attempt x = None /\ ss_connection x = None /\ ss_terminal_slot x = None) /\
  ss_closing x = true /\
  exists r, ss_terminal_result x = Some r /\
    match ss_delivery_error x with None => g.1 = Ended r | Some e => unpublishable e /\ r = Err e end.

(** The second half of [commit]. *)
Lemma commit_tail ox s p others l o g :
  conserved s (pending_leases p ++ others) -> (forall j, journal s = Some j -> journal_ok j (l ++ (pb_history p).*1) o) ->
  ss_last_sequence (st s) = Z.of_nat (length (l ++ (pb_history p).*1)) -> history_ok s ->
  lawful (client_instance_id s) (own_session_id s) (l ++ (pb_history p).*1) g -> showable s p ->
  (finished s = true -> ss_terminated (st s) = true) ->
  pb_journal_finish p = None -> pb_journal_failure p = None -> (pb_failed p = true -> ss_delivery_error (st s) <> None) ->
  (if pb_failed p || pb_close p then ending (st s) g
   else alive s g /\ forall j, journal s = Some j -> source_closed (jb_stream j) = false) ->
  let '(s1, p1) := prepare_snapshot ox s p in
  let '(s2, p2) := end_journal s1 p1 in
  session_ok (pending_leases p2 ++ others) (l ++ (pb_history p2).*1) o s2 /\ same_life (st s) (st s2).
Proof.
  intros Hc Hj Hseq Hh Hlaw Hsb Hfin Hf1 Hf2 Herr Hlife.
  pose proof (prepare_snapshot_spec ox s p Hsb) as Hps. destruct (prepare_snapshot ox s p) as [s1 p1].
  destruct Hps as [Hshown [(source & snapshot & failed & Es) (next & error & effect & failure & Ep)]].
  assert (same_life (st s) (st s1)) as Hsl by (rewrite Es; by eexists _, _).
  assert (pending_leases p1 = pending_leases p /\ pb_history p1 = pb_history p /\ pb_failed p1 = pb_failed p /\ pb_close p1 = pb_close p /\
    pb_journal_finish p1 = None /\ pb_journal_failure p1 = None) as (E1 & E2 & E3 & E4 & E5 & E6).
  { rewrite Ep. split_and!; done. }
  pose proof (end_journal_spec s1 p1 others (l ++ (pb_history p).*1) o) as Hej. destruct (end_journal s1 p1) as [s2 p2].
  destruct Hej as (Hc2 & Hj2 & [j2 Es2] & Hd2 & Eh2 & Hsame & Hdead).
  { rewrite E1. eapply conserved_move; [exact Hc|by rewrite Es|]. intros q. by rewrite Es. }
  { rewrite Es. done. }
  { done. }
  { done. }
  { rewrite E3, Es. done. }
  rewrite Eh2, E2.
  assert (same_life (st s) (st s2)) as Hsl2 by (by rewrite Es2).
  split; [|done]. destruct Hsl2 as (a & b & Hsl2).
  assert (history s2 = history s /\ client_instance_id s2 = client_instance_id s /\ own_session_id s2 = own_session_id s /\
    finished s2 = finished s) as (F1 & F2 & F3 & F4). { rewrite Es2. simpl. rewrite Es. done. }
  split; try done.
  - rewrite Hsl2. done.
  - unfold history_ok. rewrite Hsl2, F1, F2, F3. done.
  - exists g. rewrite F2, F3. split; [done|]. rewrite E3, E4 in *. destruct (pb_failed p || pb_close p).
    + right. destruct Hlife as (H1 & H2 & H3 & H4). split; rewrite ?Hsl2; simpl; try done. by apply Hdead.
    + left. destruct (Hsame eq_refl) as [-> _]. destruct Hlife as [Ha Ho]. split; [|by rewrite Es].
      eapply alive_transfer; [|exact Hsl|exact Ha]. by rewrite Es.
  - destruct Hshown as [S1 S2 S3]. rewrite Es2. split; done.
  - rewrite F4, Hsl2. done.
Qed.

Lemma shows_open x cs : ss_terminated x = false -> shows x cs -> forall r, cs <> ConnectionState.Closed r.
Proof. intros Ht (_ & H & _). by apply H. Qed.

(** The invariant is kept by a transition of a session that has not ended. *)
Lemma commit_settles ox op s0 before others l o :
  session_ok before l o s0 -> ss_terminated (st s0) = false -> settles s0 others l o (op s0 publication_new) ->
  let '(s, p, r) := commit ox op s0 in
  session_ok (pending_leases p ++ others) (l ++ (pb_history p).*1) o s /\ r = (op s0 publication_new).2 /\
  (pb_failed (op s0 publication_new).1.2 || pb_close (op s0 publication_new).1.2 = true -> ss_terminated (st s) = true).
Proof.
  intros Hok Ht Hs. unfold commit. destruct (op s0 publication_new) as [[s p] r]. cbn [fst snd].
  assert (finished s0 = false) as Hnf. { destruct (finished s0) eqn:E; [|done]. by rewrite (so_finished _ _ _ _ Hok E) in Ht. }
  destruct (so_shown _ _ _ _ Hok) as [W1 W2 W3]. rewrite Ht in W2.
  inversion Hs as [n g s' p' r' Hm Hf Hal Hcl Hsh|n last res s' p' r' Hm Hf Hcl H1 H2 H3 H4 H5 H6 H7 H8|
    n g s' p' e Hm Hf He Hr Ha Hc]; subst; destruct Hm as [Mc Mj Mo Ml Mseq Mh Mp]; rewrite (pg_failed _ _ _ Mp); destruct Hf.
  - pose proof (commit_tail ox s p others l o g Mc Mj Mseq Mh Ml) as Htail. cbn [orb].
    destruct (prepare_snapshot ox s p) as [s1 p1]. destruct (end_journal s1 p1) as [s2 p2].
    destruct Htail as [Hok2 (a & b & Hsl)].
    + split; rewrite ?fr_snapshot0, ?fr_failed0, ?fr_source0; try done.
      * by rewrite (al_terminated _ _ Hal).
      * destruct (pb_next_state p); [done|]. intros Hu. rewrite <- fr_snapshot0 in Hu |- *. rewrite fr_snapshot0. apply Hsh, W1. congruence.
    + by rewrite fr_finished0, Hnf.
    + apply Mp.
    + apply Mp.
    + by rewrite (pg_failed _ _ _ Mp).
    + rewrite (pg_failed _ _ _ Mp), Hcl. done.
    + split_and!; [done|done|]. by rewrite Hcl.
  - pose proof (commit_tail ox s p others l o (Ended res, last) Mc Mj Mseq Mh Ml) as Htail. cbn [orb].
    destruct (prepare_snapshot ox s p) as [s1 p1]. destruct (end_journal s1 p1) as [s2 p2].
    destruct Htail as [Hok2 (a & b & Hsl)].
    + split; rewrite ?fr_snapshot0, ?fr_failed0, ?fr_source0, ?H8; try done. rewrite ?H8.
      split_and!; [intros _; by exists res|congruence|]. intros i. split; [done|]. rewrite H2. intros [_ (c & ? & _)]. done.
    + done.
    + apply Mp.
    + apply Mp.
    + by rewrite (pg_failed _ _ _ Mp).
    + rewrite (pg_failed _ _ _ Mp), Hcl. split_and!; try done. exists res. by rewrite H7.
    + split_and!; [done|done|]. by rewrite Hsl.
  - destruct (fail_session_eq e s p Hr Ha Hc) as (h & hf & -> & Hh). cbn [orb].
    pose proof (fail_session_conserved e n s p others l o g ltac:(by split) Ha Hc) as Hc1.
    set (s1 := s <| st := failed_state e (st s); history := h |>). set (p1 := (failed_publication e (st s) p) <| pb_history_failure := hf |>).
    pose proof (commit_tail ox s1 p1 others l o g) as Htail.
    destruct (prepare_snapshot ox s1 p1) as [s2 p2]. destruct (end_journal s2 p2) as [s3 p3].
    destruct Htail as [Hok2 (a & b & Hsl)]; try done.
    + intros Hcl. destruct Hh as [-> |?]; [by apply Mh|simpl in Hcl; congruence].
    + split; simpl; rewrite ?fr_snapshot0, ?fr_failed0, ?fr_source0; try done.
      split_and!; [intros _; by exists (Err e)|done|]. intros i. split; [done|]. intros [? _]. done.
    + apply Mp.
    + apply Mp.
    + rewrite orb_true_r. split_and!; try done. by exists (Err e).
    + split_and!; [done|done|]. by rewrite Hsl.
Qed.

(** ** Transitions without a fact *)

#[local] Arguments publish : simpl never.

Lemma frame_refl s : frame s s.
Proof. by split. Qed.

(** A session that has not ended, at the start of a transition. *)
Lemma mid_start others l o s :
  session_ok others l o s -> ss_terminated (st s) = false ->
  exists g, mid false 0 others l o g s publication_new /\ alive s g.
Proof.
  intros [Hc Hj Hseq Hh (g & Hl & [[Ha Ho]|Hd]) _ _] Ht; [|by rewrite (de_terminated _ _ Hd) in Ht]. exists g. split; [|done].
  by split; simpl; rewrite ?app_nil_r.
Qed.

(** Changes beside the leases and the facts. *)
Lemma mid_beside f n others l o g s p s' p' :
  mid f n others l o g s p -> journal s' = journal s -> history s' = history s ->
  client_instance_id s' = client_instance_id s -> own_session_id s' = own_session_id s ->
  state_leases (st s') = state_leases (st s) -> ss_last_sequence (st s') = ss_last_sequence (st s) ->
  pending_leases p' = pending_leases p -> pb_history p' = pb_history p -> publishing f n p' ->
  mid f n others l o g s' p'.
Proof.
  intros [H1 H2 H3 H4 H5 H6 H7] Ej Eh Ec Es El Eq Ep Eb Hp. split; unfold history_ok in *; rewrite ?Ej, ?Eh, ?Ec, ?Es, ?Eq, ?Ep, ?Eb; try done.
  eapply conserved_move; [exact H1|done|]. intros q. by rewrite El.
Qed.

Lemma settles_quiet s others l o cycle reconnecting closing next r :
  session_ok others l o s -> ss_terminated (st s) = false ->
  match next with
  | Some cs => (forall r, cs <> ConnectionState.Closed r) /\ (forall i, cs <> ConnectionState.Connected i) /\
               (ss_connection (st s) = None \/ closing = true)
  | None => closing = ss_closing (st s)
  end ->
  settles s others l o
    (s <| st ::= fun x => x <| ss_cycle := cycle; ss_reconnecting := reconnecting; ss_closing := closing |> |>,
     publication_new <| pb_next_state := next |>, r).
Proof.
  intros Hok Ht Hn. destruct (mid_start _ _ _ _ Hok Ht) as (g & Hm & Ha). eapply settles_on with (n := 0%nat) (g := g).
  - eapply mid_beside; [exact Hm|..]; try done; by split.
  - by split.
  - destruct Ha as [H1 H2 H3 H4 H5 H6]. by split.
  - done.
  - simpl. destruct next as [cs|].
    + destruct Hn as (H1 & H2 & H3). split_and!; simpl; [congruence|done|]. intros i. split; [by intros Hx%H2|].
      intros [Hc (c & Hcn & _)]. destruct H3; congruence.
    + intros cs (H1 & H2 & H3). by rewrite Hn.
Qed.

(** A refused transition. *)
Lemma settles_refused s others l o r :
  session_ok others l o s -> ss_terminated (st s) = false -> settles s others l o (s, publication_new, r).
Proof.
  intros Hok Ht. destruct (mid_start _ _ _ _ Hok Ht) as (g & Hm & Ha).
  eapply settles_on with (n := 0%nat) (g := g); [exact Hm|apply frame_refl|exact Ha|done|]. by intros cs.
Qed.

Lemma preparing_state_kind x at_ cs :
  preparing_state x at_ = Ok cs -> (forall r, cs <> ConnectionState.Closed r) /\ (forall i, cs <> ConnectionState.Connected i).
Proof.
  unfold preparing_state. destruct (ss_reconnecting x); [destruct (ss_cycle x); simpl; [|done]|]; intros [= <-]; done.
Qed.

Lemma show_preparing_eq at_ s p :
  show_preparing at_ s p = (s, match preparing_state (st s) at_ with Ok cs => p <| pb_next_state := Some cs |> | Err _ => p end,
                            match preparing_state (st s) at_ with Ok _ => Ok tt | Err e => Err e end).
Proof. unfold show_preparing, mut_bind, mut_state, mut_lift, set_pub. simpl. by destruct (preparing_state _ _). Qed.

Lemma settles_preparing s others l o cycle reconnecting at_ :
  session_ok others l o s -> ss_terminated (st s) = false -> ss_connection (st s) = None ->
  settles s others l o
    (show_preparing at_ (s <| st ::= fun x => x <| ss_cycle := cycle; ss_reconnecting := reconnecting |> |>) publication_new).
Proof.
  intros Hok Ht Hc. rewrite show_preparing_eq. destruct (preparing_state _ _) as [cs|e] eqn:Hp.
  - apply preparing_state_kind in Hp as [H1 H2].
    apply (settles_quiet s others l o cycle reconnecting (ss_closing (st s)) (Some cs)); auto.
  - by apply (settles_quiet s others l o cycle reconnecting (ss_closing (st s)) None).
Qed.

Lemma begin_cycle_settles s others l o cycle reconnecting :
  session_ok others l o s -> ss_terminated (st s) = false -> settles s others l o (begin_cycle cycle reconnecting s publication_new).
Proof.
  intros Hok Ht. unfold begin_cycle, mut_bind, mut_state. destruct (_ || _) eqn:E; [by apply settles_refused|].
  repeat (apply orb_false_iff in E as [E ?]). unfold set_st. apply settles_preparing; [done|done|]. by destruct (ss_connection (st s)).
Qed.

Lemma check_progress_ok x cycle : check_progress x cycle = Ok tt -> ss_closing x = false /\ ss_connection x = None /\ ss_cycle x = Some cycle.
Proof.
  unfold check_progress. destruct (_ || _) eqn:E; [done|]. intros _. repeat (apply orb_false_iff in E as [E ?]).
  split_and!; [done|by destruct (ss_connection x)|]. apply negb_false_iff, bool_decide_eq_true in H. done.
Qed.

Lemma waiting_for_network_settles s others l o cycle :
  session_ok others l o s -> ss_terminated (st s) = false -> settles s others l o (waiting_for_network cycle s publication_new).
Proof.
  intros Hok Ht. unfold waiting_for_network, mut_bind, mut_state, mut_lift.
  destruct (check_progress _ _) as [[]|e] eqn:E; [|by apply settles_refused]. apply check_progress_ok in E as (H1 & H2 & H3).
  pose proof (settles_quiet s others l o (ss_cycle (st s)) (ss_reconnecting (st s)) (ss_closing (st s))
    (Some ConnectionState.WaitingForNetwork) (Ok tt) Hok Ht) as H. unfold set_pub.
  assert (s <| st ::= fun x => x <| ss_cycle := ss_cycle (st s); ss_reconnecting := ss_reconnecting (st s); ss_closing := ss_closing (st s) |> |> = s)
    as Es by (destruct s as [a b c x]; simpl; by destruct x).
  rewrite Es in H. apply H. split_and!; auto.
Qed.

Lemma preparing_attempt_settles s others l o cycle at_ :
  session_ok others l o s -> ss_terminated (st s) = false -> settles s others l o (preparing_attempt cycle at_ s publication_new).
Proof.
  intros Hok Ht. unfold preparing_attempt, mut_bind, mut_state, mut_lift.
  destruct (check_progress _ _) as [[]|e] eqn:E; [|by apply settles_refused]. apply check_progress_ok in E as (H1 & H2 & H3).
  unfold set_st. by apply (settles_preparing s others l o (ss_cycle (st s)) (is_some at_ || ss_reconnecting (st s)) at_).
Qed.

Lemma begin_closing_settles s others l o :
  session_ok others l o s -> ss_terminated (st s) = false -> settles s others l o (begin_closing s publication_new).
Proof.
  intros Hok Ht. unfold begin_closing, mut_bind, mut_state. destruct (_ && _) eqn:E; [|by apply settles_refused].
  unfold set_st, set_pub.
  apply (settles_quiet s others l o (ss_cycle (st s)) (ss_reconnecting (st s)) true (Some ConnectionState.Closing)); auto.
Qed.

(** ** Transitions of an attempt *)

Lemma check_attempt_ok x cycle attempt :
  check_attempt x cycle attempt = Ok tt -> ss_terminated x = false /\ ss_closing x = false /\ exists a, ss_attempt x = Some a.
Proof.
  unfold check_attempt. destruct (_ && _) eqn:E; [|done]. intros _. apply andb_true_iff in E as [[E1 E2]%andb_true_iff E3].
  apply negb_true_iff in E1, E2. split_and!; [done|done|]. destruct (ss_attempt x); [by eexists|done].
Qed.

(** The attempt waits in the publication, without the slot for its outcome. *)
Lemma take_attempt_mid others l o g s a lease :
  mid false 0 others l o g s publication_new -> ss_attempt (st s) = Some a -> result_slot a = Some lease ->
  mid false 0 (lease :: others) l o g (s <| st ::= fun x => x <| ss_attempt := None |> |>)
    (publication_new <| pb_attempt := Some (a <| result_slot := None |>) |>).
Proof.
  intros [H1 H2 H3 H4 H5 H6 H7] Ha Hl. split; try done.
  rewrite conserved_iff in H1 |- *. intros j b Hj. destruct (H1 j b Hj) as (Hf & (F1 & F2 & F3) & Ht). revert F1 F2 F3 Ht.
  unfold state_leases, pending_leases, publication_leases. simpl. rewrite Ha. simpl. rewrite Hl. simpl. spread. simpl.
  intros; destruct_and?; split_and!; try done; try lia.
Qed.

Lemma keeps_frame s0 s s' :
  frame s0 s -> keeps s s' -> frame s0 s'.
Proof.
  intros [F1 F2 F3 F4 F5 F6 F7 F8] [[m K1] K2 K3 K4 K5 K6 K7 K8]. split; try congruence; try (by rewrite K1). auto.
Qed.

(** The session ends here: a failure, or the last fact. *)
Definition settles_end (s0 : Session) (others : list EventLease) (l : list ConnectionEvent) (o : list (Received ConnectionEvent))
    (out : Session * Publication * Result () NetError) : Prop :=
  settles s0 others l o out /\ pb_failed out.1.2 || pb_close out.1.2 = true.

Lemma settles_end_failed n g s0 others l o s p e :
  mid true n others l o g s p -> frame s0 s -> unpublishable e -> ss_terminal_result (st s) = None ->
  (is_some (pb_attempt p) = true -> ss_attempt (st s) = None) -> (is_some (pb_connection p) = true -> ss_connection (st s) = None) ->
  settles_end s0 others l o (s, p, Err e).
Proof.
  intros Hm ? ? ? ? ?. split; [by eapply settles_failed; [exact Hm|..]|]. simpl.
  by rewrite (pg_failed _ _ _ (mid_publishing _ _ _ _ _ _ _ _ Hm)).
Qed.

(** The outcome of an attempt: its fact cannot be published, or the attempt is over. *)
Lemma attempt_outcome ox k s others l o a g' :
  session_ok others l o s -> ss_terminated (st s) = false -> ss_attempt (st s) = Some a ->
  follows (Trying (ac_attempt (aa_context a)), Some (ac_attempt (aa_context a))) k g' ->
  let s1 := s <| st ::= fun x => x <| ss_attempt := None |> |> in
  let p1 := publication_new <| pb_attempt := Some (a <| result_slot := None |>) |> in
  exists lease, result_slot a = Some lease /\ ss_connection (st s) = None /\ ss_last_attempt (st s) = Some (aa_context a) /\
    holds_slot s (ss_terminal_slot (st s)) /\ holds_slot s (connection_slot a) /\
    ss_terminal_result (st s) = None /\ ss_delivery_error (st s) = None /\
    ((exists e p', publish event_base ox k lease s1 p1 = (s1, p', Err e) /\ settles_end s others l o (s1, p', Err e)) \/
     (exists s' p', publish event_base ox k lease s1 p1 = (s', p', Ok tt) /\ carries p1 p' /\ keeps s1 s' /\
        mid false 1 others l o g' s' p')).
Proof.
  intros Hok Ht Ha Hg s1 p1. destruct (mid_start _ _ _ _ Hok Ht) as (g & Hm & [A1 A2 A3 A4 A5 A6]). rewrite Ha in A6.
  destruct (ss_connection (st s)) eqn:Hc; [done|]. destruct A6 as (B1 & (lease & Hl & Hfull) & B3 & B4).
  exists lease. split_and!; try done. pose proof (take_attempt_mid _ _ _ _ _ _ _ Hm Ha Hl) as Hm1.
  assert (g = (Trying (ac_attempt (aa_context a)), Some (ac_attempt (aa_context a)))) as ->.
  { destruct g as [g1 g2]. simpl in *. rewrite B4 in A5. simpl in A5. congruence. }
  destruct (publish_spec ox k lease 0 others l o _ g' s1 p1 Hm1) as [(e & p' & Hp & He & (C1 & C2 & _) & Hm2)|Hsucc]; [lia| | |left|by right].
  - by eapply full_transfer; [|exact Hfull].
  - done.
  - exists e, p'. split; [done|]. eapply settles_end_failed; [exact Hm2|by split|done|done|done|]. by rewrite C2.
Qed.

(** After the outcome of an attempt without a connection, or of a connection, the session is idle. *)
Lemma settles_idle s others l o n last s1 p1 s' p' s'' p'' r :
  mid false n others l o (Idle, last) s' p' -> keeps s1 s' -> frame s s1 ->
  ss_terminated (st s1) = false -> ss_terminal_result (st s1) = None -> ss_delivery_error (st s1) = None ->
  holds_slot s1 (ss_terminal_slot (st s1)) -> last = ac_attempt <$> ss_last_attempt (st s1) ->
  ss_attempt (st s1) = None -> ss_connection (st s1) = None ->
  carries p1 p' -> pb_close p1 = false ->
  (exists cycle reconnecting closing e i f,
     s'' = s' <| st ::= fun x => x <| ss_cycle := cycle; ss_reconnecting := reconnecting; ss_closing := closing;
                 ss_last_connection_end := e; ss_last_connection_info := i; ss_last_attempt_error := f |> |> /\
     (pb_next_state p'' = None -> ss_connection (st s) = None /\ closing = ss_closing (st s))) ->
  (exists next error, p'' = p' <| pb_next_state := next; pb_next_error := error |> /\
     (forall cs, next = Some cs -> (forall r, cs <> ConnectionState.Closed r) /\ (forall i, cs <> ConnectionState.Connected i))) ->
  ss_terminated (st s) = false ->
  settles s others l o (s'', p'', r).
Proof.
  intros Hm Hk Hf H1 H2 H3 H4 H5 H6 H7 Hca Hcl (cycle & rc & closing & e & i & f & -> & Hsame) (next & error & -> & Hnext) Ht.
  destruct Hm as [M1 M2 M3 M4 M5 M6 M7]. destruct (keeps_frame _ _ _ Hf Hk) as [F1 F2 F3 F4 F5 F6 F7 F8].
  destruct (kp_state _ _ Hk) as [m Est]. destruct Hca as (_ & _ & _ & _ & C5 & _).
  eapply settles_on with (n := n) (g := (Idle, last)).
  - split; try done. by destruct M7.
  - by split.
  - split; simpl; rewrite Est; simpl; try done; [|by rewrite H6, H7].
    eapply holds_transfer; [|exact H4]. apply Hk.
  - simpl. congruence.
  - simpl in *. destruct next as [cs|].
    + destruct (Hnext cs eq_refl) as [N1 N2]. split_and!; simpl; rewrite ?Est; simpl; [congruence|done|].
      intros c. split; [by intros Hx%N2|]. intros [_ (c' & Hx & _)]. congruence.
    + destruct (Hsame eq_refl) as [S1 ->]. intros cs (N1 & N2 & N3). split_and!; simpl; rewrite ?Est; simpl; [congruence|intros _; by apply N2|].
      intros c. rewrite H7, <- S1. apply N3.
Qed.

(** The publication in the goal is the one [H] is about. *)
Ltac fold_publish H :=
  match type of H with context [publish ?b ?ox ?k ?lease ?s ?p] =>
    match goal with |- context [publish b ox k lease ?s' ?p'] => change s' with s; change p' with p end end.

Lemma attempt_failed_settles ox s others l o cycle attempt failure retry d :
  session_ok others l o s -> ss_terminated (st s) = false ->
  settles s others l o (attempt_failed_with_diagnostic event_base ox cycle attempt failure retry d s publication_new).
Proof.
  intros Hok Ht. unfold attempt_failed_with_diagnostic, mut_bind, mut_state, mut_lift.
  destruct (check_attempt _ _ _) as [[]|e] eqn:E; [|by apply settles_refused]. apply check_attempt_ok in E as (_ & Hcl & a & Ha).
  destruct (is_some_and _ _); [by apply settles_refused|]. unfold take_attempt, mut_get, take_result_slot. simpl. rewrite Ha. simpl.
  match goal with |- context [publish _ _ ?k _ _ _] => set (kk := k) end.
  edestruct (attempt_outcome ox kk s others l o a) as (lease & Hl & Hcn & Hla & Hts & Hcs & Htr & Hde & Hout); [done|done|done|by constructor|].
  rewrite Hl. simpl. fold_publish Hout. destruct Hout as [(e & p' & Hp & Hset)|(s' & p' & Hp & Hca & Hk & Hm)]; rewrite Hp; [apply Hset|].
  unfold set_st, set_pub, mut_ret.
  assert (forall rc next error, (forall cs, next = Some cs -> (forall r, cs <> ConnectionState.Closed r) /\ (forall i, cs <> ConnectionState.Connected i)) ->
    forall r, settles s others l o (s' <| st ::= fun x => x <| ss_last_attempt_error := error; ss_reconnecting := rc |> |>,
      p' <| pb_next_error := error; pb_next_state := next |>, r)) as Hend.
  { intros rc next error Hn r. eapply settles_idle; [exact Hm|exact Hk|by split|..]; try done.
    - simpl. by rewrite Hla.
    - exists (ss_cycle (st s')), rc, (ss_closing (st s')), (ss_last_connection_end (st s')), (ss_last_connection_info (st s')), error.
      split; [done|]. intros _. destruct (kp_state _ _ Hk) as [m ->]. done.
    - by exists next, error. }
  assert (pb_next_state p' = None) as Hno by apply Hca. destruct retry as [|after].
  - apply (Hend (ss_reconnecting (st s')) (pb_next_state p') (Some _)). congruence.
  - rewrite show_preparing_eq. destruct (preparing_state _ _) as [cs|e0] eqn:Hps.
    + apply preparing_state_kind in Hps. apply (Hend true (Some cs) (Some _)). by intros ? [= <-].
    + apply (Hend true (pb_next_state p') (Some _)). congruence.
Qed.

Lemma commit_established_settles ox s others l o cycle attempt :
  session_ok others l o s -> ss_terminated (st s) = false ->
  settles s others l o (commit_established event_base ox cycle attempt s publication_new).
Proof.
  intros Hok Ht. unfold commit_established, mut_bind, mut_state, mut_lift.
  destruct (check_attempt _ _ _) as [[]|e] eqn:E; [|by apply settles_refused]. apply check_attempt_ok in E as (_ & Hcl & a & Ha).
  destruct (is_none_or _ _); [by apply settles_refused|]. unfold take_attempt, take_result_slot. simpl. rewrite Ha. simpl.
  match goal with |- context [publish _ _ (ConnectionEventKind.Established ?k) _ _ _] => set (i := k) end.
  edestruct (attempt_outcome ox (ConnectionEventKind.Established i) s others l o a) as (lease & Hl & Hcn & Hla & Hts & Hcs & Htr & Hde & Hout);
    [done|done|done|by apply follows_established|].
  rewrite Hl. simpl. fold_publish Hout. destruct Hout as [(e & p' & Hp & Hset)|(s' & p' & Hp & Hca & Hk & Hm)]; rewrite Hp; [apply Hset|].
  pose proof Hca as (C1 & C2 & C3 & C4 & C5 & _). rewrite C1. simpl. destruct Hm as [M1 M2 M3 M4 M5 M6 M7].
  destruct (keeps_frame s (s <| st ::= fun x => x <| ss_attempt := None |> |>) s' ltac:(by split) Hk) as [F1 F2 F3 F4 F5 F6 F7 F8]. destruct (kp_state _ _ Hk) as [m Est]. simpl in Est.
  eapply settles_on with (n := 1%nat).
  - split; try done; [|by destruct M7]. rewrite conserved_iff in M1 |- *. intros j b Hj. destruct (M1 j b Hj) as (Hf & (G1 & G2 & G3) & Hsum).
    revert G1 G2 G3 Hsum. unfold state_leases, pending_leases, publication_leases. simpl. rewrite Est, C1. simpl. rewrite Hcn. simpl.
    spread. simpl. intros; destruct_and?; split_and!; try done; try lia.
  - by split.
  - split; simpl; rewrite Est; simpl; try done.
    + eapply holds_transfer; [|exact Hts]. done.
    + by rewrite Hla.
    + split; [done|]. by eapply holds_transfer; [|exact Hcs].
  - by simpl; rewrite C5.
  - simpl. split_and!; simpl; rewrite Est; simpl; [congruence|done|]. intros c. split.
    + intros [= <-]. split; [done|]. by eexists.
    + intros [_ (c' & [= <-] & <-)]. done.
Qed.

Lemma begin_attempt_settles ox s others l o attempt next started result connection :
  session_ok (started :: result :: connection :: others) l o s -> ss_terminated (st s) = false ->
  full s started -> full s result -> full s connection -> ss_attempt (st s) = None -> ss_connection (st s) = None ->
  (forall b, ss_last_attempt (st s) = Some b -> attempt_le attempt (ac_attempt b) = false) ->
  (forall r, next <> ConnectionState.Closed r) -> (forall i, next <> ConnectionState.Connected i) ->
  settles s others l o (begin_attempt_op event_base ox attempt next started result connection s publication_new).
Proof.
  intros Hok Ht Hf1 Hf2 Hf3 Ha Hc Hord N1 N2. unfold begin_attempt_op, mut_bind, set_pub, set_st.
  destruct (mid_start _ _ _ _ Hok Ht) as (g & [M1 M2 M3 M4 M5 M6 M7] & [A1 A2 A3 A4 A5 A6]). rewrite Ha, Hc in A6.
  set (s1 := s <| st ::= _ |>). set (p1 := publication_new <| pb_next_state := Some next |>).
  assert (mid false 0 (started :: others) l o g s1 p1) as Hm.
  { split; try done. rewrite conserved_iff in M1 |- *. intros j b Hj. destruct (M1 j b Hj) as (Hf & (G1 & G2 & G3) & Hsum).
    revert G1 G2 G3 Hsum. unfold state_leases, pending_leases, publication_leases. simpl. rewrite Ha, Hc. simpl. spread. simpl.
    intros; destruct_and?; split_and!; try done; try lia. }
  assert (frame s s1) as Hfr by (by split).
  destruct (publish_spec ox (ConnectionEventKind.AttemptStarted attempt) started 0 others l o g (Trying attempt, Some attempt) s1 p1 Hm)
    as [(e & p' & Hp & He & (C1 & C2 & _) & Hm2)|(s' & p' & Hp & (C1 & C2 & C3 & _ & C5 & _) & Hk & Hm2)]; [lia|done| |rewrite Hp..].
  - destruct g as [g1 g2]. simpl in *. subst g1. constructor. intros b Hb. rewrite Hb in A5. symmetry in A5.
    apply fmap_Some in A5 as (c & Hcl & ->). by apply Hord.
  - by eapply settles_failed; [exact Hm2|done|done|done|rewrite C1|rewrite C2].
  - destruct (kp_state _ _ Hk) as [m Est]. simpl in Est.
    eapply settles_on; [exact Hm2|by eapply keeps_frame| | |].
    + split; simpl; rewrite Est; simpl; rewrite ?Hc; try done; [by eapply holds_transfer; [apply Hk|]|].
      split_and!; try done; eexists; (split; [done|]); by eapply full_transfer; [apply Hk|].
    + by rewrite C5.
    + rewrite C3. simpl. split_and!; rewrite Est; simpl; [congruence|done|]. intros i. split; [by intros Hx%N2|].
      rewrite Hc. intros [_ (c & ? & _)]. done.
Qed.

(** ** Ends of connections and of the session *)

Lemma take_connection_mid others l o g s c lease :
  mid false 0 others l o g s publication_new -> ss_connection (st s) = Some c -> terminal_slot c = Some lease ->
  mid false 0 (lease :: others) l o g (s <| st ::= fun x => x <| ss_connection := None |> |>)
    (publication_new <| pb_connection := Some (c <| terminal_slot := None |>) |>).
Proof.
  intros [H1 H2 H3 H4 H5 H6 H7] Ha Hl. split; try done.
  rewrite conserved_iff in H1 |- *. intros j b Hj. destruct (H1 j b Hj) as (Hf & (F1 & F2 & F3) & Ht). revert F1 F2 F3 Ht.
  unfold state_leases, pending_leases, publication_leases. simpl. rewrite Ha. simpl. rewrite Hl. simpl. spread. simpl.
  intros; destruct_and?; split_and!; try done; try lia.
Qed.

(** The end of a connection: its fact cannot be published, or the connection is over. *)
Lemma connection_outcome ox e s others l o c :
  session_ok others l o s -> ss_terminated (st s) = false -> ss_connection (st s) = Some c ->
  let s1 := s <| st ::= fun x => x <| ss_connection := None |> |> in
  let p1 := publication_new <| pb_connection := Some (c <| terminal_slot := None |>) |> in
  exists lease, terminal_slot c = Some lease /\ ss_attempt (st s) = None /\
    holds_slot s (ss_terminal_slot (st s)) /\ ss_terminal_result (st s) = None /\ ss_delivery_error (st s) = None /\
    ((exists er p', publish event_base ox (ConnectionEventKind.Disconnected (info c) e) lease s1 p1 = (s1, p', Err er) /\
        settles_end s others l o (s1, p', Err er)) \/
     (exists s' p', publish event_base ox (ConnectionEventKind.Disconnected (info c) e) lease s1 p1 = (s', p', Ok tt) /\
        carries p1 p' /\ keeps s1 s' /\ mid false 1 others l o (Idle, ac_attempt <$> ss_last_attempt (st s)) s' p')).
Proof.
  intros Hok Ht Hc s1 p1. destruct (mid_start _ _ _ _ Hok Ht) as (g & Hm & [A1 A2 A3 A4 A5 A6]). rewrite Hc in A6.
  destruct (ss_attempt (st s)) eqn:Ha; [done|]. destruct A6 as (B1 & (lease & Hl & Hfull)).
  exists lease. split_and!; try done. pose proof (take_connection_mid _ _ _ _ _ _ _ Hm Hc Hl) as Hm1.
  assert (g = (Online (info c), ac_attempt <$> ss_last_attempt (st s))) as -> by (destruct g; simpl in *; congruence).
  destruct (publish_spec ox (ConnectionEventKind.Disconnected (info c) e) lease 0 others l o _ (Idle, ac_attempt <$> ss_last_attempt (st s)) s1 p1 Hm1)
    as [(er & p' & Hp & He & (C1 & C2 & _) & Hm2)|Hsucc]; [lia| | |left|by right].
  - by eapply full_transfer; [|exact Hfull].
  - constructor.
  - exists er, p'. split; [done|]. eapply settles_end_failed; [exact Hm2|by split|done|done| |done]. by rewrite C1.
Qed.

(** What [disconnect] makes of a connection. *)
Lemma disconnect_eq ox reason failure details next s c e :
  ss_connection (st s) = Some c -> is_some_and next (fun next => next <=? ci_cycle_id (info c)) = false ->
  let s1 := s <| st ::= fun x => x <| ss_connection := None |> |> in
  let p1 := publication_new <| pb_connection := Some (c <| terminal_slot := None |>) |> in
  e = mkConnectionEnd reason
    ((fun failure => annotate s1 (cf_error failure) None (Some (info c)) None (Some details)) <$> failure)
    (det_peer_close details) (io_end_kind details) ->
  disconnect event_base ox reason failure details next s publication_new =
    (let! lease := mut_lift (ok_or (terminal_slot c) session_internal) in
     let! _ := publish event_base ox (ConnectionEventKind.Disconnected (info c) e) lease in
     let! _ := set_pub (fun p => p <| pb_next_error := end_error e |>) in
     let! _ := set_st (fun x => x <| ss_last_connection_end := Some e; ss_last_connection_info := Some (info c) |>) in
     match next with
     | Some next =>
         let! _ := set_st (fun x => x <| ss_cycle := Some next; ss_reconnecting := true |>) in
         show_preparing None
     | None =>
         let! _ := set_st (fun x => x <| ss_closing := true |>) in
         set_pub (fun p => p <| pb_next_state := Some ConnectionState.Closing |>)
     end) s1 p1.
Proof.
  intros Hc Hn s1 p1 ->. unfold disconnect. unfold mut_bind at 1, mut_state. rewrite Hc. cbn [is_some_and].
  rewrite Hn. unfold mut_bind, take_connection, mut_get, take_connection_slot, mut_lift. simpl. rewrite Hc. done.
Qed.

Lemma disconnect_settles ox s others l o reason failure details next :
  session_ok others l o s -> ss_terminated (st s) = false ->
  settles s others l o (disconnect event_base ox reason failure details next s publication_new).
Proof.
  intros Hok Ht. destruct (ss_connection (st s)) as [c|] eqn:Hc.
  2: { unfold disconnect, mut_bind, mut_state, mut_lift. rewrite Hc. cbn [is_some_and].
       assert (is_some_and next (fun _ => false) = false) as -> by (by destruct next). unfold take_connection. simpl. rewrite Hc. simpl.
       assert (s <| st ::= fun x => x <| ss_connection := None |> |> = s) as Es.
       { destruct s as [a b d x]; simpl in *. destruct x; simpl in *. congruence. }
       change (settles s others l o (s <| st ::= fun x => x <| ss_connection := None |> |>, publication_new, Err (NetError_new ErrorKind.Closed))).
       rewrite Es. by apply settles_refused. }
  destruct (is_some_and next (fun next => next <=? ci_cycle_id (info c))) eqn:Hn.
  { unfold disconnect, mut_bind, mut_state, mut_lift. rewrite Hc. cbn [is_some_and]. rewrite Hn. by apply settles_refused. }
  set (e := mkConnectionEnd reason
    ((fun failure => annotate (s <| st ::= fun x => x <| ss_connection := None |> |>) (cf_error failure) None (Some (info c)) None (Some details)) <$> failure)
    (det_peer_close details) (io_end_kind details)).
  rewrite (disconnect_eq ox reason failure details next s c e Hc Hn eq_refl).
  destruct (connection_outcome ox e s others l o c Hok Ht Hc) as (lease & Hl & Ha & Hts & Htr & Hde & Hout).
  rewrite Hl. unfold mut_bind, mut_lift, set_pub, set_st. cbn [ok_or].
  destruct Hout as [(er & p' & Hp & Hset)|(s' & p' & Hp & Hca & Hk & Hm)]; rewrite Hp; [apply Hset|].
  assert (forall cycle rc closing next' err,
    (forall cs, next' = Some cs -> (forall r, cs <> ConnectionState.Closed r) /\ (forall i, cs <> ConnectionState.Connected i)) ->
    next' <> None -> forall r, settles s others l o
      (s' <| st ::= fun x => x <| ss_last_connection_end := Some e; ss_last_connection_info := Some (info c); ss_cycle := cycle;
                                  ss_reconnecting := rc; ss_closing := closing |> |>,
       p' <| pb_next_error := err; pb_next_state := next' |>, r)) as Hend.
  { intros cycle rc closing next' err Hk1 Hk2 r. eapply settles_idle; [exact Hm|exact Hk|by split|..]; try done.
    - exists cycle, rc, closing, (Some e), (Some (info c)), (ss_last_attempt_error (st s')). split; [done|]. simpl. congruence.
    - by exists next', err. }
  destruct next as [next|].
  - rewrite show_preparing_eq. destruct (preparing_state _ _) as [cs|er] eqn:Hps.
    + apply preparing_state_kind in Hps. by apply (Hend (Some next) true (ss_closing (st s')) (Some cs)); [intros ? [= <-]|].
    + done.
  - by apply (Hend (ss_cycle (st s')) (ss_reconnecting (st s')) true (Some ConnectionState.Closing)); [intros ? [= <-]|].
Qed.

(** Idle in the middle of a termination. *)
Record calm (s0 : Session) (others : list EventLease) (l : list ConnectionEvent) (o : list (Received ConnectionEvent))
    (s : Session) (p : Publication) : Prop := {
  cm_mid : exists n last, (n < 2)%nat /\ mid false n others l o (Idle, last) s p;
  cm_frame : frame s0 s;
  cm_alive : ss_terminated (st s) = false /\ ss_terminal_result (st s) = None /\ ss_delivery_error (st s) = None;
  cm_slot : holds_slot s (ss_terminal_slot (st s));
  cm_empty : ss_attempt (st s) = None /\ ss_connection (st s) = None;
}.

(** The last part of [terminate_op]. *)
Definition close_op (ox : Oracle) (reason : TerminationReason) (failure : option ConnectionFailure)
    (details : ConnectionTerminationDetails) : Mut () :=
  let! terminal := mut_get (fun s => terminal_result s reason failure details) in
  let! lease := take_terminal_slot in
  let! _ := publish event_base ox (ConnectionEventKind.Closed terminal) lease in
  let! _ := set_pub (fun p => p <| pb_next_error ::= (fun e => match terminal with Err error => Some error | Ok _ => e end);
                                   pb_next_state := Some (ConnectionState.Closed terminal); pb_close := true |>) in
  set_st (fun x => x <| ss_terminal_result := Some terminal; ss_terminated := true; ss_closing := true |>).

Lemma close_settles ox s0 others l o s p reason failure details :
  calm s0 others l o s p -> settles_end s0 others l o (close_op ox reason failure details s p).
Proof.
  intros [(n & last & Hn & Hm) Hf (A1 & A2 & A3) (lease & Hl & Hfull) (B1 & B2)]. unfold close_op, mut_bind, mut_get, take_terminal_slot.
  set (terminal := terminal_result s reason failure details). rewrite Hl. cbn [ok_or].
  set (s1 := s <| st ::= fun x => x <| ss_terminal_slot := None |> |>).
  assert (mid false n (lease :: others) l o (Idle, last) s1 p) as Hm1.
  { destruct Hm as [M1 M2 M3 M4 M5 M6 M7]. split; try done.
    rewrite conserved_iff in M1 |- *. intros j b Hj. destruct (M1 j b Hj) as (Hfr & (G1 & G2 & G3) & Hsum).
    revert G1 G2 G3 Hsum. unfold state_leases. simpl. rewrite Hl. simpl. spread. simpl.
    intros; destruct_and?; split_and!; try done; try lia. }
  assert (frame s0 s1) as Hf1 by (destruct Hf; by split).
  destruct (publish_spec ox (ConnectionEventKind.Closed terminal) lease n others l o _ (Ended terminal, last) s1 p Hm1)
    as [(e & p' & Hp & He & (C1 & C2 & _) & Hm2)|(s' & p' & Hp & (C1 & C2 & C3 & C4 & C5 & _) & Hk & Hm2)]; [lia|done|constructor|rewrite Hp..].
  - by eapply settles_end_failed; [exact Hm2|..].
  - unfold set_pub, set_st. destruct (kp_state _ _ Hk) as [m Est]. simpl in Est. split; [|simpl; by rewrite orb_true_r].
    destruct (keeps_frame _ _ _ Hf1 Hk) as [F1 F2 F3 F4 F5 F6 F7 F8]. destruct Hm2 as [M1 M2 M3 M4 M5 M6 M7].
    eapply settles_closed with (n := S n) (last := last) (result := terminal); [| |by simpl; rewrite ?Est..].
    + split; try done. by destruct M7.
    + by split.
Qed.

(** The connection that is open when the session ends. *)
Lemma disconnect_last ox s others l o reason failure details c :
  session_ok others l o s -> ss_terminated (st s) = false -> ss_connection (st s) = Some c ->
  (exists s' p' e, disconnect event_base ox reason failure details None s publication_new = (s', p', Err e) /\
     settles_end s others l o (s', p', Err e)) \/
  (exists s' p', disconnect event_base ox reason failure details None s publication_new = (s', p', Ok tt) /\ calm s others l o s' p').
Proof.
  intros Hok Ht Hc. set (e := mkConnectionEnd reason
    ((fun failure => annotate (s <| st ::= fun x => x <| ss_connection := None |> |>) (cf_error failure) None (Some (info c)) None (Some details)) <$> failure)
    (det_peer_close details) (io_end_kind details)).
  rewrite (disconnect_eq ox reason failure details None s c e Hc eq_refl eq_refl).
  destruct (connection_outcome ox e s others l o c Hok Ht Hc) as (lease & Hl & Ha & Hts & Htr & Hde & Hout).
  rewrite Hl. unfold mut_bind, mut_lift, set_pub, set_st. cbn [ok_or].
  destruct Hout as [(er & p' & Hp & Hset)|(s' & p' & Hp & Hca & Hk & Hm)]; rewrite Hp; [left|right].
  - do 3 eexists. split; [done|exact Hset].
  - do 2 eexists. split; [done|]. destruct (kp_state _ _ Hk) as [m Est]. simpl in Est.
    destruct (keeps_frame s (s <| st ::= fun x => x <| ss_connection := None |> |>) s' ltac:(by split) Hk) as [F1 F2 F3 F4 F5 F6 F7 F8].
    destruct Hm as [M1 M2 M3 M4 M5 M6 M7].
    split.
    + exists 1%nat. eexists. split; [lia|]. split; try done. by destruct M7.
    + by split.
    + simpl. by rewrite Est.
    + simpl. rewrite Est. by eapply holds_transfer; [apply Hk|].
    + simpl. by rewrite Est.
Qed.

(** The attempt that is running when the session ends. *)
Lemma abandon_last ox s others l o reason failure details a :
  session_ok others l o s -> ss_terminated (st s) = false -> ss_attempt (st s) = Some a ->
  (exists s' p' e, abandon_attempt event_base ox reason failure details s publication_new = (s', p', Err e) /\
     settles_end s others l o (s', p', Err e)) \/
  (exists s' p', abandon_attempt event_base ox reason failure details s publication_new = (s', p', Ok tt) /\ calm s others l o s' p').
Proof.
  intros Hok Ht Ha. unfold abandon_attempt, mut_bind, mut_state. rewrite Ha. cbn [is_some].
  unfold take_attempt, mut_get, take_result_slot. simpl. rewrite Ha. simpl.
  match goal with |- context [publish _ _ ?k _ _ _] => set (kk := k) end.
  edestruct (attempt_outcome ox kk s others l o a) as (lease & Hl & Hcn & Hla & Hts & Hcs & Htr & Hde & Hout); [done|done|done|by constructor|].
  rewrite Hl. simpl. fold_publish Hout.
  destruct Hout as [(e & p' & Hp & Hset)|(s' & p' & Hp & Hca & Hk & Hm)]; rewrite Hp; [left|right].
  - do 3 eexists. split; [done|exact Hset].
  - do 2 eexists. split; [done|]. destruct (kp_state _ _ Hk) as [m Est]. simpl in Est.
    split; rewrite ?Est; try done.
    + exists 1%nat. eexists. split; [lia|exact Hm].
    + eapply keeps_frame; [|exact Hk]. by split.
    + by eapply holds_transfer; [apply Hk|].
Qed.

Lemma session_terminate_settles ox s others l o reason failure details :
  session_ok others l o s -> ss_terminated (st s) = false ->
  settles_end s others l o (terminate_op event_base ox reason failure details s publication_new).
Proof.
  intros Hok Ht. destruct (mid_start _ _ _ _ Hok Ht) as (g & Hm & [A1 A2 A3 A4 A5 A6]).
  change (settles_end s others l o ((let! x := mut_state in
    if ss_terminated x then mut_lift (match ss_delivery_error x with Some error => Err error | None => Ok tt end)
    else let! _ := abandon_attempt event_base ox reason failure details in
      let! x := mut_state in
      let! _ := if is_some (ss_connection x) then disconnect event_base ox reason failure details None else mut_ret tt in
      close_op ox reason failure details) s publication_new)).
  unfold mut_bind at 1, mut_state at 1. rewrite Ht. unfold mut_bind at 1.
  destruct (ss_attempt (st s)) as [a|] eqn:Ha.
  - destruct (abandon_last ox s others l o reason failure details a Hok Ht Ha) as [(s' & p' & e & -> & Hset)|(s' & p' & -> & Hc)]; [done|].
    unfold mut_bind, mut_state. rewrite (proj2 (cm_empty _ _ _ _ _ _ Hc)). by apply close_settles.
  - assert (abandon_attempt event_base ox reason failure details s publication_new = (s, publication_new, Ok tt)) as ->.
    { unfold abandon_attempt, mut_bind, mut_state. by rewrite Ha. }
    unfold mut_bind, mut_state. destruct (ss_connection (st s)) as [c|] eqn:Hc; cbn [is_some].
    + destruct (disconnect_last ox s others l o reason failure details c Hok Ht Hc) as [(s' & p' & e & -> & Hset)|(s' & p' & -> & Hcm)]; [done|].
      by apply close_settles.
    + apply close_settles. split; try done.
      exists 0%nat, g.2. split; [lia|]. rewrite <- A6. by destruct g.
Qed.

(** ** Refused transitions *)

Lemma commit_refused ox op s r : op s publication_new = (s, publication_new, r) -> commit ox op s = (s, publication_new, r).
Proof.
  intros E. unfold commit. rewrite E. simpl. unfold end_journal. by destruct (journal s).
Qed.

Lemma check_progress_dead x cycle : ss_terminated x = true -> check_progress x cycle = Err session_cancelled.
Proof. unfold check_progress. by intros ->. Qed.

Lemma check_attempt_dead x cycle attempt : ss_terminated x = true -> check_attempt x cycle attempt = Err session_cancelled.
Proof. unfold check_attempt. by intros ->. Qed.

(** ** Effects beside the state *)

(** The state, the facts and the snapshots stay; the journal may be left by its receiver. *)
Record effect (s s' : Session) : Prop := {
  ef_state : st s' = st s;
  ef_client : client_instance_id s' = client_instance_id s;
  ef_session : own_session_id s' = own_session_id s;
  ef_identity : identity s' = identity s;
  ef_source : state_source s' = state_source s;
  ef_history : same_log (history s) (history s');
  ef_journal : forall j', journal s' = Some j' -> exists j, journal s = Some j /\
    source_closed (jb_stream j') = source_closed (jb_stream j) /\
    (eactive (jb_stream j') = true -> eactive (jb_stream j) = true);
  ef_none : journal s = None -> journal s' = None;
  ef_finished : finished s' = true -> finished s = true \/ ss_terminated (st s) = true;
  ef_stays : finished s = true -> finished s' = true;
}.

Lemma effect_refl s : effect s s.
Proof. split; try done; [by intros j; exists j|by left]. Qed.

Lemma effect_trans s1 s2 s3 : effect s1 s2 -> effect s2 s3 -> effect s1 s3.
Proof.
  intros [A1 A2 A3 A4 A5 A6 A7 A8 A9 A10] [B1 B2 B3 B4 B5 B6 B7 B8 B9 B10]. split; try congruence; auto.
  - by eapply same_log_trans.
  - intros j3 (j2 & (j1 & ? & ? & ?)%A7 & ? & ?)%B7. exists j1. split_and!; [done|congruence|auto].
  - intros [?|?]%B9; [auto|]. right. congruence.
Qed.

Lemma effect_detached s s' : effect s s' -> journal_active s = None -> journal_active s' = None.
Proof.
  intros He. unfold journal_active. destruct (journal s') as [j'|] eqn:Hj'; [|done].
  destruct (ef_journal _ _ He j' Hj') as (j & -> & _ & Ha). destruct (eactive (jb_stream j')); [|done]. by rewrite Ha.
Qed.

Lemma effect_ok others others' l o o' s s' :
  session_ok others l o s -> effect s s' -> conserved s' others' -> (forall j, journal s' = Some j -> journal_ok j l o') ->
  session_ok others' l o' s'.
Proof.
  intros [H1 H2 H3 H4 (g & Hl & Hlife) [S1 S2 S3] H7] He Hc Hj. pose proof (effect_detached _ _ He) as Hd.
  destruct He as [E1 E2 E3 E4 E5 (L1 & L2 & L3) E7 E8 E9 E10]. split; try done.
  - by rewrite E1.
  - unfold history_ok in *. by rewrite L1, L2, L3, E1, E2, E3.
  - exists g. rewrite E2, E3. split; [done|]. destruct Hlife as [[Ha Ho]|[D1 D2 D3 D4 D5]]; [left|right].
    + split; [eapply alive_transfer; [exact Hd|rewrite E1; apply same_life_refl|done]|].
      intros j' (j & Hjj & -> & _)%E7. by apply Ho.
    + split; rewrite ?E1; try done. intros j' (j & Hjj & -> & Ha)%E7 Hac. auto.
  - split; rewrite ?E1, ?E5; done.
  - rewrite E1. intros [?|?]%E9; auto.
Qed.

Lemma release_lease_effect s lease : effect s (release_lease s lease).
Proof.
  unfold release_lease. destruct lease; [|apply effect_refl]. destruct (journal s) as [j|] eqn:Hj; [|apply effect_refl].
  split; try done; [|by rewrite Hj|by left]. simpl. intros j' [= <-]. by exists j.
Qed.

Lemma release_lease_journal s lease j' :
  journal (release_lease s lease) = Some j' -> exists j, journal s = Some j /\ jb_stream j' = jb_stream j /\ jb_publisher j' = jb_publisher j.
Proof.
  unfold release_lease. destruct lease; [|by exists j']. destruct (journal s) as [j|] eqn:Hj; [|by rewrite Hj].
  intros [= <-]. by exists j.
Qed.

Lemma journal_ok_beside j j' l o : jb_stream j' = jb_stream j -> jb_publisher j' = jb_publisher j -> journal_ok j l o -> journal_ok j' l o.
Proof. intros E1 E2 [H1 H2 H3 H4 H5 H6 H7]. split; rewrite ?E1, ?E2; done. Qed.

(** Leases are returned. *)
Lemma release_lease_ok others l o s lease :
  session_ok (lease :: others) l o s -> session_ok others l o (release_lease s lease).
Proof.
  intros Hok. eapply effect_ok; [exact Hok|apply release_lease_effect|by apply release_lease_conserved, Hok|].
  intros j' (j & Hj & E1 & E2)%release_lease_journal. eapply journal_ok_beside; [done|done|]. by apply Hok.
Qed.

Lemma release_leases_ok ls : forall s others l o,
  session_ok (ls ++ others) l o s -> session_ok others l o (foldl release_lease s ls) /\ effect s (foldl release_lease s ls).
Proof.
  induction ls as [|lease ls IH]; intros s others l o Hok; simpl; [by split; [|apply effect_refl]|].
  destruct (IH (release_lease s lease) others l o) as [H1 H2]; [by apply release_lease_ok|]. split; [done|].
  eapply effect_trans; [apply release_lease_effect|done].
Qed.

(** A stream gives up entries, and what it showed. *)
Definition yields (j : JournalBudget) (l : list ConnectionEvent) (o : list (Received ConnectionEvent)) (stream : JournalStream)
    (es : list (Entry ConnectionEvent EventResources)) : Prop :=
  equeue (jb_stream j) = es ++ equeue stream /\ source_closed stream = source_closed (jb_stream j) /\
  (eactive stream = true -> eactive (jb_stream j) = true) /\ journal_ok (j <| jb_stream := stream |>) l o.

Lemma session_ok_perm others others' l o s : session_ok others l o s -> others ≡ₚ others' -> session_ok others' l o s.
Proof. intros Hok Hp. eapply effect_ok; [exact Hok|apply effect_refl| |apply Hok]. eapply conserved_perm; [apply Hok|done]. Qed.

Lemma yields_set others l o o' s j stream es :
  session_ok others l o s -> journal s = Some j -> yields j l o' stream es ->
  session_ok ((entry_lease <$> es) ++ others) l o' (s <| journal := Some (j <| jb_stream := stream |>) |>) /\
  effect s (s <| journal := Some (j <| jb_stream := stream |>) |>).
Proof.
  intros Hok Hj (Hq & Hc & Ha & Hjo).
  assert (effect s (s <| journal := Some (j <| jb_stream := stream |>) |>)) as He.
  { split; try done; [|by rewrite Hj|by left]. simpl. intros j' [= <-]. by exists j. }
  split; [|done]. eapply effect_ok; [exact Hok|exact He| |by simpl; intros j' [= <-]].
  apply conserved_stream; [apply Hok|done|]. by rewrite Hq, fmap_app.
Qed.

Lemma yields_ok others l o o' s j stream es :
  session_ok others l o s -> journal s = Some j -> yields j l o' stream es ->
  session_ok others l o' (release_entries (s <| journal := Some (j <| jb_stream := stream |>) |>) es) /\
  effect s (release_entries (s <| journal := Some (j <| jb_stream := stream |>) |>) es).
Proof.
  intros Hok Hj Hy. destruct (yields_set _ _ _ _ _ _ _ _ Hok Hj Hy) as [H1 H2]. rewrite release_entries_leases.
  destruct (release_leases_ok _ _ _ _ _ H1) as [H3 H4]. split; [done|]. by eapply effect_trans.
Qed.

Lemma yields_same j l o stream :
  journal_ok j l o -> same_queue (jb_stream j) stream -> source_closed stream = source_closed (jb_stream j) -> yields j l o stream [].
Proof.
  intros Hok Hq Hc. split_and!; [by destruct Hq as [-> _]|done| |by apply journal_ok_same].
  by destruct Hq as (_ & _ & _ & -> & _).
Qed.

Lemma yields_unsubscribe j l o :
  journal_ok j l o -> let '(stream, es, _) := unsubscribe (jb_stream j) in yields j l o stream es.
Proof.
  intros Hok. unfold unsubscribe. destruct (eactive (jb_stream j)) eqn:Ha; simpl; [|by apply yields_same].
  destruct Hok as [H1 H2 H3 [Q1 Q2 Q3 Q4 Q5 Q6 Q7] H5 H6 H7]. split_and!; simpl; try done; [by rewrite app_nil_r|].
  split; simpl; try done. split; simpl; try done; unfold valid_limit in *; lia.
Qed.

Lemma yields_fail j l o error :
  journal_ok j l o -> let '(stream, es) := event_fail (jb_stream j) error in yields j l o stream es.
Proof.
  intros Hok. unfold event_fail. destruct (callback_installing (jb_stream j)); [by apply yields_same|].
  set (s1 := (jb_stream j) <| final_error ::= _ |>).
  pose proof (yields_unsubscribe (j <| jb_stream := s1 |>) l o) as H. change (jb_stream (j <| jb_stream := s1 |>)) with s1 in H.
  destruct (unsubscribe s1) as [[stream es] d]. apply H. by apply journal_ok_same.
Qed.

Lemma schedule_lock_same (s : JournalStream) : same_queue s (schedule_lock s).1 /\ source_closed (schedule_lock s).1 = source_closed s.
Proof. unfold schedule_lock. destruct (_ || _); [done|]. by destruct (driver s). Qed.

(** The effects of the journal are dispatched. *)
Lemma dispatch_journal_ok submit others l o s ep :
  session_ok (effect_leases ep ++ others) l o s ->
  session_ok others l o (dispatch_journal submit s ep) /\ effect s (dispatch_journal submit s ep).
Proof.
  intros Hok. unfold dispatch_journal. destruct (journal s) as [j|] eqn:Hj.
  2: { split; [|apply effect_refl]. eapply effect_ok; [exact Hok|apply effect_refl| |apply Hok]. intros j b. congruence. }
  assert (exists stream dropped, (if ep_schedule ep then
      let '(stream, call) := schedule_lock (jb_stream j) in
      match (if call then submit else None) with Some error => event_fail stream error | None => (stream, []) end
    else (jb_stream j, [])) = (stream, dropped) /\ yields j l o stream dropped) as (stream & dropped & -> & Hy).
  { pose proof (so_journal _ _ _ _ Hok j Hj) as Hjo. destruct (ep_schedule ep); [|by eexists _, _; split; [done|apply yields_same]].
    destruct (schedule_lock_same (jb_stream j)) as [Hq Hc]. destruct (schedule_lock (jb_stream j)) as [s1 call]. simpl in *.
    pose proof (journal_ok_same _ s1 _ _ Hjo Hq) as Hjo1.
    destruct (if call then submit else None) as [error|]; [|by eexists _, _; split; [done|apply yields_same]].
    pose proof (yields_fail (j <| jb_stream := s1 |>) l o error Hjo1) as Hy. simpl in Hy.
    destruct (event_fail s1 error) as [s2 es]. eexists _, _. split; [done|]. destruct Hy as (Y1 & Y2 & Y3 & Y4).
    destruct Hq as (Q1 & Q2 & Q3 & Q4 & Q5). split_and!; simpl in *; [congruence|congruence|intros; rewrite <- Q4; auto|done]. }
  destruct (yields_set _ _ _ _ _ _ _ _ Hok Hj Hy) as [H1 H2]. rewrite release_entries_leases.
  destruct (release_leases_ok (entry_lease <$> (option_list (ep_input ep) ++ ep_retired ep ++ dropped))
    (s <| journal := Some (j <| jb_stream := stream |>) |>) others l o) as [H3 H4].
  - eapply session_ok_perm; [exact H1|]. unfold effect_leases. rewrite !fmap_app. rewrite <- !(assoc_L (++)).
    rewrite Permutation_app_swap_app. f_equiv. by rewrite Permutation_app_swap_app.
  - split; [done|]. by eapply effect_trans.
Qed.

Lemma dispatch_journals_ok submit eps : forall s others l o,
  session_ok ((eps ≫= effect_leases) ++ others) l o s ->
  session_ok others l o (foldl (dispatch_journal submit) s eps) /\ effect s (foldl (dispatch_journal submit) s eps).
Proof.
  induction eps as [|ep eps IH]; intros s others l o Hok; simpl; [by split; [|apply effect_refl]|].
  destruct (dispatch_journal_ok submit ((eps ≫= effect_leases) ++ others) l o s ep) as [H1 H2].
  { by rewrite (assoc_L (++)). }
  destruct (IH _ _ _ _ H1) as [H3 H4]. split; [done|]. by eapply effect_trans.
Qed.

Lemma dispatch_histories_ok submit hps : forall s others l o,
  session_ok others l o s ->
  session_ok others l o (foldl (fun s hp => s <| history ::= fun h => history_dispatch submit h hp |>) s hps) /\
  effect s (foldl (fun s hp => s <| history ::= fun h => history_dispatch submit h hp |>) s hps).
Proof.
  induction hps as [|hp hps IH]; intros s others l o Hok; simpl; [by split; [|apply effect_refl]|].
  assert (effect s (s <| history ::= fun h => history_dispatch submit h hp |>)) as He.
  { split; try done; [apply history_dispatch_log|by intros j; exists j|by left]. }
  destruct (IH (s <| history ::= fun h => history_dispatch submit h hp |>) others l o) as [H1 H2].
  - eapply effect_ok; [exact Hok|exact He|apply Hok|apply Hok].
  - split; [done|]. by eapply effect_trans.
Qed.

Lemma close_budget_ok others l o s :
  session_ok others l o s -> session_ok others l o (close_journal_budget s) /\ effect s (close_journal_budget s).
Proof.
  intros Hok. unfold close_journal_budget. destruct (journal s) as [j|] eqn:Hj; [|by split; [|apply effect_refl]].
  set (j1 := j <| jb_slots ::= sem_close; jb_bytes ::= sem_close |>).
  assert (effect s (s <| journal := Some j1 |>)) as He.
  { split; try done; [|by rewrite Hj|by left]. simpl. intros j' [= <-]. by exists j. }
  split; [|done]. eapply effect_ok; [exact Hok|exact He| |].
  - intros j' b. simpl. intros [= <-]. destruct (so_conserved _ _ _ _ Hok j b Hj) as (H1 & H2 & H3). unfold free, limit in *. simpl.
    destruct b; rewrite close_available; done.
  - simpl. intros j' [= <-]. apply (journal_ok_beside j); [done|done|by apply Hok].
Qed.

(** Flags of an ended session. *)
Lemma flags_ok others l o s selected requested_ fin :
  session_ok others l o s -> (fin = true -> finished s = true \/ ss_terminated (st s) = true) -> (finished s = true -> fin = true) ->
  session_ok others l o (s <| cancel_selected := selected; cancel_requested := requested_; finished := fin |>) /\
  effect s (s <| cancel_selected := selected; cancel_requested := requested_; finished := fin |>).
Proof.
  intros Hok Hf Hs. assert (effect s (s <| cancel_selected := selected; cancel_requested := requested_; finished := fin |>)) as He.
  { split; try done. by intros j; exists j. }
  split; [|done]. eapply effect_ok; [exact Hok|exact He|apply Hok|apply Hok].
Qed.

(** [dispatch] returns every lease of its publication. *)
Lemma dispatch_ok submit others l o s p :
  session_ok (pending_leases p ++ others) l o s -> (pb_close p = true -> ss_terminated (st s) = true) ->
  session_ok others l o (dispatch submit s p) /\ effect s (dispatch submit s p).
Proof.
  intros Hok Hcl. unfold dispatch, pending_leases in *. rewrite bind_app, <- !(assoc_L (++)) in Hok.
  destruct (dispatch_journals_ok submit (pb_journal p) _ _ _ _ Hok) as [H1 E1].
  destruct (dispatch_journals_ok submit _ _ _ _ _ H1) as [H2 E2].
  destruct (dispatch_histories_ok submit ((pb_history p).*2 ++ option_list (pb_history_failure p)) _ _ _ _ H2) as [H3 E3].
  destruct (release_leases_ok _ _ _ _ _ H3) as [H4 E4].
  match type of H4 with session_ok _ _ _ ?x => set (s4 := x) in * end.
  assert (effect s s4) as E by (eapply effect_trans; [exact E1|]; eapply effect_trans; [exact E2|]; by eapply effect_trans).
  destruct (pb_close p); [|done].
  destruct (flags_ok others l o s4 true true (finished s4) H4) as [H5 E5]; [by left|done|].
  destruct (close_budget_ok _ _ _ _ H5) as [H6 E6].
  match type of H6 with session_ok _ _ _ ?x => set (s6 := x) in * end.
  destruct (flags_ok others l o s6 (cancel_selected s6) (cancel_requested s6) true H6) as [H7 E7]; [|done|].
  { intros _. right. rewrite (ef_state _ _ E6), (ef_state _ _ E5), (ef_state _ _ E). auto. }
  split; [done|]. eapply effect_trans; [exact E|]. eapply effect_trans; [exact E5|]. by eapply effect_trans.
Qed.

Lemma terminate_end_ok others l o s :
  session_ok others l o s -> ss_terminated (st s) = true ->
  session_ok others l o (terminate_end s) /\ effect s (terminate_end s).
Proof.
  intros Hok Ht. unfold terminate_end. destruct (close_budget_ok _ _ _ _ Hok) as [H6 E6].
  match type of H6 with session_ok _ _ _ ?x => set (s6 := x) in * end.
  destruct (flags_ok others l o s6 (cancel_selected s6) (cancel_requested s6) true H6) as [H7 E7]; [|done|].
  { intros _. right. by rewrite (ef_state _ _ E6). }
  split; [done|]. by eapply effect_trans.
Qed.

(** ** Transitions in the world *)

(** What stays as it is while a session runs; an ended session does not change any more. *)
Record later (s s' : Session) : Prop := {
  lt_client : client_instance_id s' = client_instance_id s;
  lt_session : own_session_id s' = own_session_id s;
  lt_identity : identity s' = identity s;
  lt_detached : journal_active s = None -> journal_active s' = None;
  lt_ended : ss_terminated (st s) = true -> st s' = st s /\ state_source s' = state_source s;
  lt_finished : finished s = true -> finished s' = true;
}.

Lemma later_refl s : later s s.
Proof. by split. Qed.

Lemma effect_later s s' : effect s s' -> later s s'.
Proof. intros He. split; try apply He; [by apply effect_detached|]. intros _. split; apply He. Qed.

Lemma fail_session_beside result s p : exists x h, (fail_session result s p).1 = s <| st := x; history := h |>.
Proof.
  unfold fail_session. destruct result as [[]|error]; simpl;
    repeat (case_match; simpl); simplify_eq/=; try (eexists _, _; reflexivity); eexists _, (history s); by destruct s.
Qed.

Lemma prepare_snapshot_beside ox s p :
  (exists x source, (prepare_snapshot ox s p).1 = s <| state_source := source; st := x |>) /\
  pb_close (prepare_snapshot ox s p).2 = pb_close p.
Proof.
  unfold prepare_snapshot. repeat (case_match; simpl); simplify_eq/=; split; try done;
    solve [eexists _, _; reflexivity | eexists (st s), (state_source s); by destruct s | eexists _, (state_source s); by destruct s].
Qed.

Lemma end_journal_beside s p :
  (exists j, (end_journal s p).1 = s <| journal := j |>) /\ pb_close (end_journal s p).2 = pb_close p /\
  (journal_active s = None -> journal_active (end_journal s p).1 = None).
Proof.
  unfold end_journal. destruct (journal s) as [j|] eqn:Hj; [|split_and!; try done; exists None; simpl; destruct s; simpl in *; by subst].
  assert (forall failure, journal_active s = None ->
    journal_active (s <| journal := Some (j <| jb_stream := (prepare_finish (jb_stream j) failure).1 |>) |>) = None) as Hd.
  { intros failure. pose proof (prepare_finish_same (jb_stream j) failure) as Hs. destruct (prepare_finish _ _) as [stream ep].
    destruct Hs as ((_ & _ & _ & Ha & _) & _). unfold journal_active. rewrite Hj. simpl in *. rewrite Ha. by destruct (eactive (jb_stream j)). }
  repeat (case_match; simpl); simplify_eq/=; split_and!; try done;
    solve [eexists; reflexivity | exists (Some j); destruct s; simpl in *; by subst |
      match goal with H : prepare_finish _ ?f = _ |- _ => specialize (Hd f); rewrite H in Hd; exact Hd end].
Qed.

(** A transition keeps the identity of its session, and only closes what its operation closed. *)
Lemma commit_later ox op s0 others l o :
  ss_terminated (st s0) = false -> finished s0 = false -> settles s0 others l o (op s0 publication_new) ->
  later s0 (commit ox op s0).1.1 /\
  (pb_close (commit ox op s0).1.2 = true -> pb_failed (op s0 publication_new).1.2 || pb_close (op s0 publication_new).1.2 = true).
Proof.
  intros Ht Hnf Hs. assert (frame s0 (op s0 publication_new).1.1) as Hf by (by inversion Hs). unfold commit.
  destruct (op s0 publication_new) as [[s p] r]. simpl in *.
  assert (exists x h p1, (if pb_failed p then fail_session r s p else (s, p)) = (s <| st := x; history := h |>, p1) /\
    (pb_close p1 = true -> pb_failed p || pb_close p = true)) as (x & h & p1 & -> & Hc1).
  { destruct (pb_failed p).
    - destruct (fail_session_beside r s p) as (x & h & E). destruct (fail_session r s p) as [s1 p1]. simpl in E. subst s1.
      by exists x, h, p1.
    - exists (st s), (history s), p. split; [by destruct s|done]. }
  set (s1 := s <| st := x; history := h |>). destruct (prepare_snapshot_beside ox s1 p1) as [(x2 & source & E2) C2].
  destruct (prepare_snapshot ox s1 p1) as [s2 p2]. simpl in E2, C2.
  destruct (end_journal_beside s2 p2) as ([j E3] & C3 & D3). destruct (end_journal s2 p2) as [s3 p3]. simpl in *.
  assert (journal_active s0 = None -> journal_active s3 = None) as Hd.
  { intros Hd. apply D3. rewrite E2. by apply (fr_detached _ _ Hf). }
  rewrite C3, C2. split; [|done]. destruct Hf. split; try done; try congruence; rewrite E3; simpl; rewrite E2; simpl; congruence.
Qed.

(** The leases of the world. *)
Definition calls_leases (cs : list Call) : list EventLease := cs ≫= fun c => pending_leases (call_publication c) ++ call_leases c.

Definition world_leases (w : SessionWorld) : list EventLease :=
  calls_leases (calls w) ++ ((fun h => EventLease.Observed h.1 h.2) <$> waiting w) ++ (resources <$> granted w).

Definition granted_ok (s : Session) (r : AttemptReservation) : Prop :=
  owner r = identity s /\
  (resources r = EventLease.Observed 3 (3 * MAX_CONNECTION_EVENT_BYTES) \/ resources r = EventLease.Unobserved /\ journal_active s = None).

Definition call_ok (s : Session) (c : Call) : Prop :=
  pb_close (call_publication c) || call_terminates c = true -> ss_terminated (st s) = true.

Definition is_lagged (r : Received ConnectionEvent) : bool :=
  match r with RError (ReceiveError.Lagged _) => true | _ => false end.

(** What is around the session. *)
Record around (w : SessionWorld) : Prop := {
  ar_waiting : Forall (fun h => h = (3, 0) \/ h = (3, 3 * MAX_CONNECTION_EVENT_BYTES)) (waiting w);
  ar_granted : Forall (granted_ok (ses w)) (granted w);
  ar_calls : Forall (call_ok (ses w)) (calls w);
  ar_seen : items (seen w) `prefix_of` facts w;
  ar_lag : existsb is_lagged (seen w) = false;
}.

Definition session_inv (w : SessionWorld) : Prop :=
  session_ok (world_leases w) (facts w) (seen w) (ses w) /\ around w.

(** How the world moves: facts are added until the session ends. *)
Definition moves (w w' : SessionWorld) : Prop :=
  later (ses w) (ses w') /\ facts w `prefix_of` facts w' /\ (ss_terminated (st (ses w)) = true -> facts w' = facts w).

Lemma granted_later s s' r : later s s' -> granted_ok s r -> granted_ok s' r.
Proof.
  intros Hl [H1 H2]. split; [by rewrite (lt_identity _ _ Hl)|]. destruct H2 as [?|[? ?]]; [by left|right].
  split; [done|]. by apply (lt_detached _ _ Hl).
Qed.

Lemma call_later s s' c : later s s' -> call_ok s c -> call_ok s' c.
Proof. intros Hl Hc Hp. specialize (Hc Hp). destruct (lt_ended _ _ Hl Hc) as [-> _]. done. Qed.

Lemma around_later w s' : around w -> later (ses w) s' -> around (w <| ses := s' |>).
Proof.
  intros [H1 H2 H3 H4 H5] Hl. split; try done; simpl.
  - eapply Forall_impl; [exact H2|]. intros r. by apply granted_later.
  - eapply Forall_impl; [exact H3|]. intros c. by apply call_later.
Qed.

Lemma calls_leases_app c1 c2 : calls_leases (c1 ++ c2) = calls_leases c1 ++ calls_leases c2.
Proof. apply bind_app. Qed.

(** A transition is committed. *)
Lemma session_commit_inv ox op w leases terminates before :
  session_ok before (facts w) (seen w) (ses w) -> around w ->
  (ss_terminated (st (ses w)) = false ->
     settles (ses w) (leases ++ world_leases w) (facts w) (seen w) (op (ses w) publication_new)) ->
  (ss_terminated (st (ses w)) = true ->
     (exists r, op (ses w) publication_new = (ses w, publication_new, r)) /\ before ≡ₚ leases ++ world_leases w) ->
  (terminates = true -> ss_terminated (st (ses w)) = true \/
     pb_failed (op (ses w) publication_new).1.2 || pb_close (op (ses w) publication_new).1.2 = true) ->
  let '(s, p, r) := commit ox op (ses w) in
  session_inv (committed w s p leases terminates) /\ moves w (committed w s p leases terminates).
Proof.
  intros Hok Har Hlive Hdead Hterm.
  assert (forall p, pending_leases p ++ leases ++ world_leases w ≡ₚ
    calls_leases (calls w ++ [mkCall p leases terminates]) ++ ((fun h => EventLease.Observed h.1 h.2) <$> waiting w) ++ (resources <$> granted w)) as Hperm.
  { intros p. rewrite calls_leases_app. unfold world_leases. generalize ((fun h => EventLease.Observed h.1 h.2) <$> waiting w).
    generalize (resources <$> granted w). intros a b. unfold calls_leases at 3. simpl. rewrite app_nil_r, !(assoc_L (++)). do 2 f_equiv.
    by rewrite (Permutation_app_comm _ (calls_leases (calls w))), (assoc_L (++)). }
  assert (forall s p l', later (ses w) s -> facts w `prefix_of` l' ->
    (pb_close p || terminates = true -> ss_terminated (st s) = true) ->
    around (w <| ses := s; calls ::= (fun l => l ++ [mkCall p leases terminates]); facts := l' |>)) as Hnew.
  { intros s p l' Hl Hp Hc. destruct (around_later _ _ Har Hl) as [R1 R2 R3 R4 R5]. split; simpl in *; try done.
    - apply Forall_app. split; [done|]. by apply Forall_singleton.
    - by etrans. }
  destruct (ss_terminated (st (ses w))) eqn:Ht.
  - destruct (Hdead eq_refl) as [[r Hr] Hb]. rewrite (commit_refused _ _ _ _ Hr).
    assert (later (ses w) (ses w)) as Hl by apply later_refl. split.
    + split; [|by apply (Hnew (ses w) publication_new (facts w ++ [])); [..|apply prefix_app_r|]].
      simpl. rewrite app_nil_r. eapply session_ok_perm; [exact Hok|]. rewrite Hb. apply (Hperm publication_new).
    + split_and!; simpl; rewrite ?app_nil_r; done.
  - assert (finished (ses w) = false) as Hnf.
    { destruct (finished (ses w)) eqn:E; [|done]. by rewrite (so_finished _ _ _ _ Hok E) in Ht. }
    pose proof (commit_settles ox op (ses w) before _ _ _ Hok Ht (Hlive eq_refl)) as Hcs.
    destruct (commit_later ox op (ses w) _ _ _ Ht Hnf (Hlive eq_refl)) as [Hl Hcl].
    destruct (commit ox op (ses w)) as [[s p] r]. simpl in *. destruct Hcs as (H1 & _ & H3).
    split; [split|]; simpl.
    + by eapply session_ok_perm; [exact H1|].
    + apply Hnew; [done|by apply prefix_app_r|]. intros [?|?]%orb_true_iff; [auto|]. destruct (Hterm H) as [?|?]; [done|auto].
    + split_and!; simpl; [done|by apply prefix_app_r|congruence].
Qed.

Lemma transition_inv ox w m :
  session_inv w ->
  (forall others l o s, session_ok others l o s -> ss_terminated (st s) = false -> settles s others l o (m s publication_new)) ->
  (forall s, ss_terminated (st s) = true -> exists r, m s publication_new = (s, publication_new, r)) ->
  session_inv (transition ox w m) /\ moves w (transition ox w m).
Proof.
  intros [Hok Har] Hlive Hdead. unfold transition.
  pose proof (session_commit_inv ox m w [] false _ Hok Har) as H. destruct (commit ox m (ses w)) as [[s p] r].
  apply H; try done; [by apply Hlive|]. intros Ht. split; [by apply Hdead|done].
Qed.

(** An effect beside the state in the world. *)
Lemma effect_inv w w' s' :
  session_inv w -> session_ok (world_leases w') (facts w) (seen w') s' -> effect (ses w) s' ->
  ses w' = s' -> facts w' = facts w -> around (w' <| ses := ses w |>) -> session_inv w' /\ moves w w'.
Proof.
  intros [Hok Har] Hok' He Es Ef Har'. pose proof (effect_later _ _ He) as Hl. split.
  - split; [by rewrite Es, Ef|]. pose proof (around_later _ s' Har' Hl) as H. destruct w'; simpl in *. by subst.
  - split_and!; [by rewrite Es|by rewrite Ef|done].
Qed.

Lemma session_ok_others others others' l o s :
  session_ok others l o s ->
  (forall b, Forall (fun l => 0 <= cost b l) others -> Forall (fun l => 0 <= cost b l) others' /\ total b others' = total b others) ->
  session_ok others' l o s.
Proof. intros Hok Ho. eapply effect_ok; [exact Hok|apply effect_refl| |apply Hok]. by eapply conserved_others; [apply Hok|]. Qed.

(** ** Reservations *)

Lemma acquired (s s' : Sem) n : try_acquire_many s n = Ok s' -> n <= available s /\ available s' = available s - n.
Proof.
  intros E. destruct (sem_closed s) eqn:Hc; [by rewrite acquire_closed in E|].
  destruct (Z.lt_ge_cases (available s) n) as [Hlt|Hge]; [by rewrite acquire_empty in E|].
  destruct (acquire_ok s n Hc Hge) as (s1 & E1 & Ha & _). rewrite E1 in E. by injection E as <-.
Qed.

(** Permits are taken from the free ones. *)
Lemma acquire_session_ok others l o s j slots bytes a b :
  session_ok others l o s -> journal s = Some j -> 0 <= a -> 0 <= b ->
  a <= available (jb_slots j) /\ available slots = available (jb_slots j) - a ->
  b <= available (jb_bytes j) /\ available bytes = available (jb_bytes j) - b ->
  let s' := s <| journal := Some (j <| jb_slots := slots; jb_bytes := bytes |>) |> in
  session_ok (EventLease.Observed a b :: others) l o s' /\ effect s s'.
Proof.
  intros Hok Hj Ha Hb [A1 A2] [B1 B2] s'.
  assert (effect s s') as He.
  { split; try done; [|by rewrite Hj|by left]. simpl. intros j' [= <-]. by exists j. }
  split; [|done]. eapply effect_ok; [exact Hok|exact He| |].
  - pose proof (so_conserved _ _ _ _ Hok) as Hc. rewrite conserved_iff in Hc |- *. intros j' k. simpl. intros [= <-].
    destruct (Hc j k Hj) as (F1 & (F2 & F3 & F4) & F5). spread. unfold free, limit in *. simpl in *.
    destruct k; simpl in *; split_and!; try done; lia.
  - simpl. intros j' [= <-]. apply (journal_ok_beside j); [done|done|by apply Hok].
Qed.

(** What a step of a reservation holds. *)
Definition reserving_leases (out : Reserving) : list EventLease :=
  match out with
  | RSlots slots => [EventLease.Observed slots 0]
  | RBytes slots bytes => [EventLease.Observed slots bytes]
  | RDone (Ok reservation) => [resources reservation]
  | _ => []
  end.

Definition reserving_ok (s : Session) (out : Reserving) : Prop :=
  match out with
  | RSlots slots => slots = 3
  | RBytes slots bytes => slots = 3 /\ bytes = 3 * MAX_CONNECTION_EVENT_BYTES
  | RDone (Ok reservation) => granted_ok s reservation
  | _ => True
  end.

Lemma moves_refl w : moves w w.
Proof. split_and!; [apply later_refl|done|done]. Qed.

(** A reservation leaves the waiting ones and takes its next step. *)
Lemma reserved_inv w w' r :
  session_inv w -> ses w' = ses w -> facts w' = facts w -> seen w' = seen w -> around w' ->
  (r.2 <> RWait -> session_ok (reserving_leases r.2 ++ world_leases w') (facts w) (seen w) r.1 /\ effect (ses w) r.1) ->
  reserving_ok (ses w) r.2 -> session_inv (reserved w' r w) /\ moves w (reserved w' r w).
Proof.
  destruct r as [s out]. intros Hi E1 E2 E3 [R1 R2 R3 R4 R5] Hs Hr. rewrite E1 in R2, R3. rewrite E3 in R4, R5.
  destruct out as [|slots|slots bytes|[r|e]]; cbn [reserved fst snd] in *.
  { split; [done|apply moves_refl]. }
  all: destruct (Hs ltac:(done)) as [Hok He]; eapply effect_inv; [exact Hi| |exact He|done|done|].
  all: unfold world_leases in *; simpl; rewrite ?E3.
  all: try (split; simpl; try done; apply Forall_app; split; [done|]; apply Forall_singleton; simpl in Hr; destruct_and?; subst; auto; done); try by split.
  all: eapply session_ok_others; [exact Hok|]; intros b; rewrite ?fmap_app; simpl; spread; simpl; intros; destruct_and?; split_and!; try done; try lia.
Qed.

Lemma journal_active_Some s j : journal_active s = Some j -> journal s = Some j.
Proof. unfold journal_active. intros. repeat case_match; by simplify_eq. Qed.

(** A reservation that finds its permits is granted in its three steps. *)
Lemma reserve_at_once w j slots bytes :
  cancel_requested (ses w) = false -> journal_active (ses w) = Some j -> waiting w = [] -> granted w = [] ->
  try_acquire_many (jb_slots j) 3 = Ok slots -> try_acquire_many (jb_bytes j) (3 * MAX_CONNECTION_EVENT_BYTES) = Ok bytes ->
  resources <$> granted (session_run w [SReserve; SReserveMore 0; SReserveMore 0]) =
    [EventLease.Observed 3 (3 * MAX_CONNECTION_EVENT_BYTES)].
Proof.
  intros Hc Hj Hw Hg Hs Hb. pose proof Hj as Hj'. unfold journal_active in Hj'.
  destruct (journal (ses w)) as [j0|]; [|done]. destruct (eactive (jb_stream j0)) eqn:Ha; [|done]. injection Hj' as ->.
  destruct w as [s cs ws gs l o]. simpl in *. subst ws gs.
  set (s1 := s <| journal := Some (j <| jb_slots := slots |>) |>).
  set (s2 := s1 <| journal := Some (j <| jb_slots := slots; jb_bytes := bytes |>) |>).
  assert (reserve_slots s = (s1, RSlots 3)) as E1 by (unfold reserve_slots; by rewrite Hc, Hj, Hs).
  assert (reserve_bytes s1 3 = (s2, RBytes 3 (3 * MAX_CONNECTION_EVENT_BYTES))) as E2.
  { unfold reserve_bytes. assert (journal_active s1 = Some (j <| jb_slots := slots |>)) as -> by (unfold journal_active; simpl; by rewrite Ha).
    change (cancel_requested s1) with (cancel_requested s). change (jb_bytes (j <| jb_slots := slots |>)) with (jb_bytes j). by rewrite Hc, Hb. }
  assert (reserve_finish s2 3 (3 * MAX_CONNECTION_EVENT_BYTES) =
    (s2, RDone (Ok (mkAttemptReservation (identity s2) (EventLease.Observed 3 (3 * MAX_CONNECTION_EVENT_BYTES)))))) as E3.
  { unfold reserve_finish, journal_active. simpl. by rewrite Hc, Ha. }
  unfold session_run. cbn [foldl session_step ses]. rewrite E1. cbn -[s1 s2 reserve_bytes reserve_finish MAX_CONNECTION_EVENT_BYTES Z.mul Z.eqb].
  rewrite (Z.eqb_refl 0), E2. cbn -[s1 s2 reserve_bytes reserve_finish MAX_CONNECTION_EVENT_BYTES Z.mul Z.eqb].
  change (3 * MAX_CONNECTION_EVENT_BYTES =? 0) with false. cbv iota. by rewrite E3.
Qed.

Lemma reserve_slots_ok others l o s :
  session_ok others l o s -> (reserve_slots s).2 <> RWait ->
  session_ok (reserving_leases (reserve_slots s).2 ++ others) l o (reserve_slots s).1 /\ effect s (reserve_slots s).1.
Proof.
  intros Hok Hw. pose proof (effect_refl s) as He. revert Hw. unfold reserve_slots. destruct (cancel_requested s); [done|].
  destruct (journal_active s) as [j|] eqn:Hj.
  - apply journal_active_Some in Hj. destruct (try_acquire_many (jb_slots j) 3) as [slots|[]] eqn:E; [|done|done]. intros _.
    destruct (acquire_session_ok _ _ _ _ j slots (jb_bytes j) 3 0 Hok Hj ltac:(lia) ltac:(lia) (acquired _ _ _ E)) as [H1 H2].
    { pose proof (so_conserved _ _ _ _ Hok j false Hj) as (Hf & _). unfold free in Hf. lia. }
    by replace (j <| jb_slots := slots; jb_bytes := jb_bytes j |>) with (j <| jb_slots := slots |>) in H1, H2 by (by destruct j).
  - intros _. split; [|done]. eapply session_ok_others; [exact Hok|]. intros b. simpl. spread. simpl. done.
Qed.

Lemma reserve_slots_answer s : reserving_ok s (reserve_slots s).2.
Proof.
  unfold reserve_slots. destruct (cancel_requested s); [done|]. destruct (journal_active s) eqn:Hj; [by destruct (try_acquire_many _ _) as [|[]]|].
  by split; [|right].
Qed.

(** What a reservation held is dropped with its answer. *)
Lemma reserving_dropped others l o s held out :
  session_ok (held :: others) l o s -> (forall r, out = RDone (Ok r) -> resources r = EventLease.Unobserved) ->
  match out with RDone _ => True | _ => False end ->
  session_ok (reserving_leases out ++ others) l o (release_lease s held) /\ effect s (release_lease s held).
Proof.
  intros Hok Hr Hd. split; [|apply release_lease_effect]. apply release_lease_ok in Hok.
  destruct out as [|?|? ?|[r|e]]; try done. simpl. rewrite (Hr r eq_refl).
  eapply session_ok_others; [exact Hok|]. intros b. spread. simpl. done.
Qed.

Lemma reserve_bytes_ok others l o s :
  session_ok (EventLease.Observed 3 0 :: others) l o s -> (reserve_bytes s 3).2 <> RWait ->
  session_ok (reserving_leases (reserve_bytes s 3).2 ++ others) l o (reserve_bytes s 3).1 /\ effect s (reserve_bytes s 3).1.
Proof.
  intros Hok Hw. revert Hw. unfold reserve_bytes. destruct (cancel_requested s); [intros _; by apply reserving_dropped|].
  destruct (journal_active s) as [j|] eqn:Hj.
  - apply journal_active_Some in Hj. destruct (try_acquire_many (jb_bytes j) _) as [bytes|[]] eqn:E; [|intros _; by apply reserving_dropped|done]. intros _.
    destruct (acquire_session_ok _ _ _ _ j (jb_slots j) bytes 0 (3 * MAX_CONNECTION_EVENT_BYTES) Hok Hj ltac:(lia) ltac:(done)) as [H1 H2].
    { pose proof (so_conserved _ _ _ _ Hok j true Hj) as (Hf & _). unfold free in Hf. lia. }
    { by apply acquired. }
    replace (j <| jb_slots := jb_slots j; jb_bytes := bytes |>) with (j <| jb_bytes := bytes |>) in H1, H2 by (by destruct j).
    split; [|done]. eapply session_ok_others; [exact H1|]. intros b. simpl. spread. destruct b; simpl; intros (? & ? & ?); split_and!; (done || lia).
  - intros _. apply reserving_dropped; [done|by intros r [= <-]|done].
Qed.

Lemma reserve_bytes_answer s : reserving_ok s (reserve_bytes s 3).2.
Proof.
  unfold reserve_bytes. destruct (cancel_requested s); [done|]. destruct (journal_active s) eqn:Hj; [by destruct (try_acquire_many _ _) as [|[]]|].
  by split; [|right].
Qed.

Lemma reserve_finish_ok others l o s slots bytes :
  session_ok (EventLease.Observed slots bytes :: others) l o s ->
  session_ok (reserving_leases (reserve_finish s slots bytes).2 ++ others) l o (reserve_finish s slots bytes).1 /\ effect s (reserve_finish s slots bytes).1.
Proof.
  intros Hok. unfold reserve_finish. destruct (cancel_requested s); [by apply reserving_dropped|].
  destruct (journal_active s); cbn [is_none]; [by split; [|apply effect_refl]|].
  apply reserving_dropped; [done|by intros r [= <-]|done].
Qed.

Lemma reserve_finish_answer s : reserving_ok s (reserve_finish s 3 (3 * MAX_CONNECTION_EVENT_BYTES)).2.
Proof.
  unfold reserve_finish. destruct (cancel_requested s); [done|]. destruct (journal_active s) eqn:Hj; (split; [done|]); [by left|by right].
Qed.

(** One of the waiting, granted or running ones leaves. *)
Lemma world_leases_waiting w n h :
  waiting w !! n = Some h -> world_leases w ≡ₚ EventLease.Observed h.1 h.2 :: world_leases (w <| waiting ::= delete n |>).
Proof.
  intros Hn. unfold world_leases. simpl. rewrite (delete_Permutation (waiting w) n h Hn) at 1. simpl. by rewrite <- Permutation_middle.
Qed.

Lemma world_leases_granted w n r :
  granted w !! n = Some r -> world_leases w ≡ₚ resources r :: world_leases (w <| granted ::= delete n |>).
Proof.
  intros Hn. unfold world_leases. simpl. rewrite (delete_Permutation (granted w) n r Hn) at 1. simpl. by rewrite <- !Permutation_middle.
Qed.

Lemma world_leases_call w n c :
  calls w !! n = Some c ->
  world_leases w ≡ₚ (pending_leases (call_publication c) ++ call_leases c) ++ world_leases (w <| calls ::= delete n |>).
Proof.
  intros Hn. unfold world_leases. simpl.
  assert (calls_leases (calls w) ≡ₚ (pending_leases (call_publication c) ++ call_leases c) ++ calls_leases (delete n (calls w))) as ->.
  { unfold calls_leases. by rewrite (delete_Permutation (calls w) n c Hn) at 1. }
  by rewrite <- !(assoc_L (++)).
Qed.

Lemma around_delete_waiting w n : around w -> around (w <| waiting ::= delete n |>).
Proof. intros [R1 R2 R3 R4 R5]. split; try done. simpl. by apply Forall_delete. Qed.

Lemma around_delete_granted w n : around w -> around (w <| granted ::= delete n |>).
Proof. intros [R1 R2 R3 R4 R5]. split; try done. simpl. by apply Forall_delete. Qed.

Lemma around_delete_call w n : around w -> around (w <| calls ::= delete n |>).
Proof. intros [R1 R2 R3 R4 R5]. split; try done. simpl. by apply Forall_delete. Qed.

(** ** Attempts *)

(** The parts of a granted reservation carry the facts of an attempt. *)
Lemma split_granted s r :
  granted_ok s r ->
  exists started result connection rest,
    (let? (started, rest) := split_lease (resources r) in
     let? (result, rest) := split_lease rest in
     let? (connection, rest) := split_lease rest in
     Ok (started, result, connection, rest)) = Ok (started, result, connection, rest) /\
    full s started /\ full s result /\ full s connection /\
    (forall b, 0 <= cost b started /\ 0 <= cost b result /\ 0 <= cost b connection /\ 0 <= cost b rest /\
       cost b started + (cost b result + (cost b connection + cost b rest)) = cost b (resources r)).
Proof.
  intros [_ [-> | [-> Hd]]]; eexists _, _, _, _.
  - split; [vm_compute; reflexivity|]. split_and!; [by left..|]. by intros [].
  - split; [reflexivity|]. split_and!; [by right..|]. by intros [].
Qed.

Lemma split_session_ok others l o s r started result connection rest :
  session_ok (resources r :: others) l o s ->
  (forall b, 0 <= cost b started /\ 0 <= cost b result /\ 0 <= cost b connection /\ 0 <= cost b rest /\
     cost b started + (cost b result + (cost b connection + cost b rest)) = cost b (resources r)) ->
  session_ok (started :: result :: connection :: rest :: others) l o s.
Proof.
  intros Hok Hc. eapply session_ok_others; [exact Hok|]. intros b. destruct (Hc b) as (? & ? & ? & ? & ?). spread. simpl.
  intros []. split_and!; (done || lia).
Qed.

Lemma begin_check_ok s attempt from same next :
  begin_attempt_check s attempt from same = Ok next ->
  ss_terminated (st s) = false /\ from = identity s /\ ss_attempt (st s) = None /\ ss_connection (st s) = None /\
  (forall b, ss_last_attempt (st s) = Some b -> attempt_le attempt (ac_attempt b) = false) /\
  (forall r, next <> ConnectionState.Closed r) /\ (forall i, next <> ConnectionState.Connected i).
Proof.
  unfold begin_attempt_check. destruct (ss_terminated (st s)); [done|]. destruct (ss_closing (st s) || cancel_requested s) eqn:E0; simpl; rewrite E0; [done|].
  destruct (negb _ || _ || _ || _) eqn:E1; [done|]. destruct (is_some _ || is_some _) eqn:E2; [done|].
  destruct (is_some_and _ _) eqn:E3; [done|]. destruct (check_progress _ _); simpl; [|done]. intros Hp.
  apply preparing_state_kind in Hp. repeat (apply orb_false_iff in E1 as [E1 ?]). apply orb_false_iff in E2 as [? ?].
  split_and!; try apply Hp; [done|by apply negb_false_iff, bool_decide_eq_true in E1|by destruct (ss_attempt (st s))|by destruct (ss_connection (st s))|].
  intros b Hb. by rewrite Hb in E3.
Qed.

Lemma refused_op (r : Result () NetError) s : mut_lift r s publication_new = (s, publication_new, r).
Proof. by destruct r. Qed.

(** A reservation of this session is used, or given back. *)
Lemma begin_attempt_inv ox w n r attempt same :
  session_inv w -> granted w !! n = Some r ->
  let '(s, p, leases, _) := session_begin_attempt event_base ox (ses w) attempt r same in
  session_inv (committed (w <| granted ::= delete n |>) s p leases false) /\
  moves w (committed (w <| granted ::= delete n |>) s p leases false).
Proof.
  intros [Hok Har] Hn. pose proof (proj1 (Forall_lookup _ _) (ar_granted _ Har) _ _ Hn) as Hg.
  set (w1 := w <| granted ::= delete n |>). pose proof (around_delete_granted w n Har) as Har1.
  pose proof (session_ok_perm _ _ _ _ _ Hok (world_leases_granted w n r Hn)) as Hok1.
  destruct (split_granted _ _ Hg) as (started & result & connection & rest & Es & F1 & F2 & F3 & Hc).
  pose proof (split_session_ok _ _ _ _ _ _ _ _ _ Hok1 Hc) as Hok2. unfold session_begin_attempt. rewrite Es.
  rewrite (bool_decide_true (owner r = identity (ses w))) by apply Hg.
  destruct (begin_attempt_check _ _ _ _) as [next|error] eqn:Eb.
  - apply begin_check_ok in Eb as (Ht & _ & Ha & Hcn & Hord & N1 & N2).
    pose proof (session_commit_inv ox (begin_attempt_op event_base ox attempt next started result connection) w1 [rest] false _ Hok2 Har1) as H.
    change (ses w1) with (ses w) in H. destruct (commit _ _ _) as [[s p] r0]. apply H; [|congruence|done].
    intros _. by apply begin_attempt_settles.
  - pose proof (session_commit_inv ox (mut_lift (Err error)) w1 [started; result; connection; rest] false _ Hok2 Har1) as H.
    change (ses w1) with (ses w) in H. destruct (commit _ _ _) as [[s p] r0].
    apply H; [|intros _; split; [by eexists; apply refused_op|done]|done]. intros Ht. rewrite refused_op. by apply settles_refused.
Qed.

(** A reservation of another session is refused. *)
Lemma begin_foreign_inv ox w attempt lease same :
  session_inv w ->
  let '(s, p, leases, _) := session_begin_attempt event_base ox (ses w) attempt (mkAttemptReservation (Pos.succ (identity (ses w))) lease) same in
  session_inv (committed w s p leases false) /\ moves w (committed w s p leases false).
Proof.
  intros [Hok Har]. unfold session_begin_attempt. simpl.
  rewrite (bool_decide_false (Pos.succ (identity (ses w)) = identity (ses w))) by lia.
  pose proof (fun error => session_commit_inv ox (mut_lift (Err error)) w [] false _ Hok Har) as H.
  assert (forall error, let '(s, p, r) := commit ox (mut_lift (Err error)) (ses w) in
    session_inv (committed w s p [] false) /\ moves w (committed w s p [] false)) as Hr.
  { intros error. specialize (H error). destruct (commit _ _ _) as [[s p] r].
    apply H; [|intros _; split; [by eexists; apply refused_op|done]|done]. intros Ht. rewrite refused_op. by apply settles_refused. }
  destruct (let? _ := _ in _) as [[[[started result] connection] rest]|error].
  - destruct (begin_attempt_check _ _ _ _) as [next|error] eqn:Eb; [apply begin_check_ok in Eb as (_ & ? & _); lia|].
    specialize (Hr error). by destruct (commit _ _ _) as [[s p] r].
  - specialize (Hr error). by rewrite (commit_refused ox (mut_lift (Err error)) (ses w) (Err error)) in Hr.
Qed.

(** What is known of the running attempt is added to it. *)
Lemma attempt_context_ok others l o s a a' c :
  session_ok others l o s -> ss_terminated (st s) = false -> ss_attempt (st s) = Some a ->
  result_slot a' = result_slot a -> connection_slot a' = connection_slot a ->
  aa_context a' = c -> ac_attempt c = ac_attempt (aa_context a) ->
  let s' := s <| st ::= fun x => x <| ss_attempt := Some a'; ss_last_attempt := Some c |> |> in
  session_ok others l o s' /\ later s s'.
Proof.
  intros [H1 H2 H3 H4 (g & Hl & Hlife) [S1 S2 S3] H7] Ht Ha Er Ec Ex Ea s'. destruct Hlife as [[[A1 A2 A3 A4 A5 A6] Ho]|[? _ _ _ _]]; [|congruence].
  rewrite Ha in A6. destruct (ss_connection (st s)) eqn:Hcn; [done|]. destruct A6 as (B1 & B2 & B3 & B4). split.
  - split; try done.
    + eapply conserved_move; [exact H1|done|]. intros q. unfold s', state_leases. simpl. rewrite Ha. simpl. by rewrite Er, Ec.
    + exists g. split; [done|left]. split; [|done]. unfold s'. split; simpl; rewrite ?Hcn, ?Er, ?Ec, ?Ex, ?Ea; try done.
      by rewrite A5, B4.
  - split; try done. congruence.
Qed.

Lemma later_inv w s' :
  session_inv w -> session_ok (world_leases w) (facts w) (seen w) s' -> later (ses w) s' ->
  session_inv (w <| ses := s' |>) /\ moves w (w <| ses := s' |>).
Proof. intros [_ Har] Hok Hl. split; [split; [done|by apply around_later]|]. by split_and!. Qed.

Lemma credential_inv w cycle attempt version :
  session_inv w ->
  session_inv (w <| ses := (set_attempt_credential_version (ses w) cycle attempt version).1 |>) /\
  moves w (w <| ses := (set_attempt_credential_version (ses w) cycle attempt version).1 |>).
Proof.
  intros Hi. pose proof Hi as [Hok Har]. unfold set_attempt_credential_version.
  destruct (check_attempt _ _ _) as [[]|e] eqn:E; [|by apply later_inv; [| |apply later_refl]].
  apply check_attempt_ok in E as (Ht & _ & a & Ha). rewrite Ha.
  destruct (ac_prepared (aa_context a)); [by apply later_inv; [| |apply later_refl]|]. cbn [fst].
  set (context := (aa_context a) <| ac_credential_version := version; ac_prepared := true |>).
  set (a' := a <| aa_context := context |>).
  assert (aa_context a' = context) as Ex by reflexivity.
  destruct (attempt_context_ok _ _ _ (ses w) a a' context Hok Ht Ha eq_refl eq_refl Ex eq_refl) as [H1 H2].
  exact (later_inv w _ Hi H1 H2).
Qed.

Lemma prepare_established_inv w cycle attempt :
  session_inv w ->
  session_inv (w <| ses := (prepare_established (ses w) cycle attempt).1 |>) /\
  moves w (w <| ses := (prepare_established (ses w) cycle attempt).1 |>).
Proof.
  intros Hi. pose proof Hi as [Hok Har]. unfold prepare_established.
  destruct (check_attempt _ _ _) as [[]|e] eqn:E; [|by apply later_inv; [| |apply later_refl]].
  destruct (cancel_requested (ses w)); [by apply later_inv; [| |apply later_refl]|].
  apply check_attempt_ok in E as (Ht & _ & a & Ha). rewrite Ha.
  destruct (_ || _); [by apply later_inv; [| |apply later_refl]|]. cbn [fst].
  assert (ss_last_attempt (st (ses w)) = Some (aa_context a)) as Hlast.
  { destruct (mid_start _ _ _ _ Hok Ht) as (g & _ & [_ _ _ _ _ A6]). rewrite Ha in A6. destruct (ss_connection (st (ses w))); [done|]. apply A6. }
  set (a' := a <| success_decided := true |>). assert (aa_context a' = aa_context a) as Ex by reflexivity.
  destruct (attempt_context_ok _ _ _ (ses w) a a' (aa_context a) Hok Ht Ha eq_refl eq_refl Ex eq_refl) as [H1 H2].
  assert ((ses w) <| st ::= fun x => x <| ss_attempt := Some a'; ss_last_attempt := Some (aa_context a) |> |> =
    (ses w) <| st ::= fun x => x <| ss_attempt := Some a' |> |>) as Es.
  { clear -Hlast. destruct (ses w) as [? ? ? x]. simpl in *. destruct x. simpl in *. by subst. }
  rewrite Es in H1, H2. exact (later_inv w _ Hi H1 H2).
Qed.

(** Requests of callers. *)
Lemma request_effect others l o s cancelled selected requested_ request :
  session_ok others l o s ->
  let s' := s <| cancel_requested := cancelled; cancel_selected := selected; close_requested := requested_; close_request := request |> in
  session_ok others l o s' /\ later s s'.
Proof.
  intros Hok s'. assert (effect s s') as He. { split; try done; [by intros j; exists j|by left]. }
  split; [|by apply effect_later]. eapply effect_ok; [exact Hok|exact He|apply Hok|apply Hok].
Qed.

Lemma dispatch_inv submit w n p leases terminates :
  session_inv w -> calls w !! n = Some (mkCall p leases terminates) ->
  let s := foldl release_lease (dispatch submit (ses w) p) leases in
  let s' := if terminates then terminate_end s else s in
  session_inv (w <| ses := s'; calls ::= delete n |>) /\ moves w (w <| ses := s'; calls ::= delete n |>).
Proof.
  intros Hi Hn s s'. pose proof Hi as [Hok Har]. pose proof (proj1 (Forall_lookup _ _) (ar_calls _ Har) _ _ Hn) as Hc. unfold call_ok in Hc. simpl in Hc.
  pose proof (session_ok_perm _ _ _ _ _ Hok (world_leases_call w n _ Hn)) as Hok1. simpl in Hok1. rewrite <- (assoc_L (++)) in Hok1.
  destruct (dispatch_ok submit _ _ _ _ _ Hok1) as [H2 E2]; [intros Hp; apply Hc; by rewrite Hp|].
  destruct (release_leases_ok leases _ _ _ _ H2) as [H3 E3]. fold s in H3, E3. pose proof (effect_trans _ _ _ E2 E3) as E.
  assert (session_ok (world_leases (w <| calls ::= delete n |>)) (facts w) (seen w) s' /\ effect (ses w) s') as [H4 E4].
  { unfold s'. destruct terminates; [|done]. destruct (terminate_end_ok _ _ _ s H3) as [H5 E5].
    - rewrite (ef_state _ _ E). apply Hc. by rewrite orb_true_r.
    - split; [done|]. by eapply effect_trans. }
  eapply effect_inv; [done|exact H4|exact E4|done|done|].
  destruct (around_delete_call w n Har) as [R1 R2 R3 R4 R5]. by split.
Qed.

(** ** The receiver of the journal *)

Lemma items_app o o' : items (o ++ o') = items o ++ items o'.
Proof. apply omap_app. Qed.

Lemma journal_ok_seen j l o o' : items o' = items o -> journal_ok j l o -> journal_ok j l o'.
Proof. intros E [H1 H2 H3 H4 H5 H6 H7]. split; try done. by rewrite E. Qed.

(** The first entry leaves the queue. *)
Lemma pop_yields j l o e rest :
  journal_ok j l o -> equeue (jb_stream j) = e :: rest -> eactive (jb_stream j) = true ->
  yields j l (o ++ [RItem (value e)])
    ((jb_stream j) <| pristine := false; equeue := rest; ebytes := ebytes (jb_stream j) - entry_bytes e |>) [e].
Proof.
  intros [H1 H2 H3 [Q1 Q2 Q3 Q4 Q5 Q6 Q7] H5 H6 H7] Eq Ha. rewrite Eq in *. rewrite queue_bytes_cons in Q2. simpl in Q1.
  apply Forall_cons in Q4 as [Q4 Q4']. pose proof (queue_bytes_pos _ Q4') as Hnn. specialize (H6 Ha). apply Forall_cons in H6 as [_ H6].
  split_and!; try done. split; simpl; try done.
  - split; simpl; try done; (lia || congruence).
  - intros _. rewrite <- (H7 Ha), items_app. simpl. by rewrite <- (assoc_L (++)).
Qed.

(** The receiver polls. *)
Lemma poll_yields j l o :
  journal_ok j l o -> items o `prefix_of` l ->
  let '(stream, es, r) := poll_next (jb_stream j) in
  yields j l (o ++ [r]) stream es /\ is_lagged r = false /\ items (o ++ [r]) `prefix_of` l.
Proof.
  intros Hok Hp. assert (forall r, items [r] = [] -> items (o ++ [r]) = items o) as Hs.
  { intros r E. rewrite items_app, E. by rewrite app_nil_r. }
  assert (forall r stream es, items [r] = [] -> is_lagged r = false -> yields j l o stream es ->
    yields j l (o ++ [r]) stream es /\ is_lagged r = false /\ items (o ++ [r]) `prefix_of` l) as Hsame.
  { intros r stream es E El (Y1 & Y2 & Y3 & Y4). split_and!; try done; [|by rewrite (Hs r E)].
    unfold yields. split_and!; try done. eapply journal_ok_seen; [by apply Hs|done]. }
  set (s1 := (jb_stream j) <| pristine := false |>). assert (same_queue (jb_stream j) s1) as Hq by (by split_and!).
  pose proof (journal_ok_same _ s1 _ _ Hok Hq) as Hok1.
  pose proof (yields_unsubscribe (j <| jb_stream := s1 |>) l o Hok1) as Hu. simpl in Hu.
  unfold poll_next, event_next. fold s1. assert (lagged s1 = 0) as -> by exact (jo_lag _ _ _ Hok). cbn [negb Z.eqb].
  assert (let '(stream, es, r) := deliver s1 DDone in yields j l o stream es /\ r = RClosed) as Hdone.
  { unfold deliver. by destruct (unsubscribe s1) as [[stream es] d]. }
  destruct (eactive s1) eqn:Ha; cbn [negb]; [|cbn beta iota; destruct (deliver s1 DDone) as [[stream es] r]; destruct Hdone as [? ->]; by apply Hsame].
  destruct (equeue s1) as [|e rest] eqn:Eq.
  - destruct (pending_error s1) as [error|]; [simpl; apply Hsame; [done|done|by apply yields_same]|].
    destruct (source_closed s1); [cbn beta iota; destruct (deliver s1 DDone) as [[stream es] r]; destruct Hdone as [? ->]; by apply Hsame|].
    simpl. apply Hsame; [done|done|by apply yields_same].
  - simpl. pose proof (pop_yields j l o e rest Hok Eq Ha) as Hy. split_and!; [exact Hy|done|].
    destruct Hy as (_ & _ & _ & Hy). rewrite <- (jo_exact _ _ _ Hy Ha). by apply prefix_app_r.
Qed.

(** Whoever works on the stream of the journal keeps the world. *)
Lemma with_stream_inv w f :
  session_inv w ->
  (forall j l o, journal_ok j l o -> items o `prefix_of` l ->
     let '(stream, es, received) := f (jb_stream j) in
     yields j l (o ++ received) stream es /\ existsb is_lagged received = false /\ items (o ++ received) `prefix_of` l) ->
  session_inv (with_stream w f) /\ moves w (with_stream w f).
Proof.
  intros Hi Hf. pose proof Hi as [Hok Har]. unfold with_stream. destruct (journal (ses w)) as [j|] eqn:Hj; [|by split; [|apply moves_refl]].
  specialize (Hf j _ _ (so_journal _ _ _ _ Hok j Hj) (ar_seen _ Har)). destruct (f (jb_stream j)) as [[stream es] received].
  destruct Hf as (Hy & Hl & Hp). destruct (yields_ok _ _ _ _ _ _ _ _ Hok Hj Hy) as [H1 H2].
  eapply effect_inv; [done|exact H1|exact H2|done|done|]. destruct Har as [R1 R2 R3 R4 R5]. split; simpl; try done.
  by rewrite existsb_app, R5, Hl.
Qed.

(** ** Every run *)

Lemma later_trans s1 s2 s3 : later s1 s2 -> later s2 s3 -> later s1 s3.
Proof.
  intros [A1 A2 A3 A4 A5 A6] [B1 B2 B3 B4 B5 B6]. split; try congruence; auto.
  intros Ht. destruct (A5 Ht) as [E1 E2]. destruct B5 as [E3 E4]; [congruence|]. split; congruence.
Qed.

Lemma moves_trans w1 w2 w3 : moves w1 w2 -> moves w2 w3 -> moves w1 w3.
Proof.
  intros (A1 & A2 & A3) (B1 & B2 & B3). split_and!; [by eapply later_trans|by etrans|].
  intros Ht. rewrite B3, A3; [done|done|]. by destruct (lt_ended _ _ A1 Ht) as [-> _].
Qed.

(** A session that has ended refuses every operation. *)
Ltac refuses := intros s Ht; eexists; unfold begin_cycle, waiting_for_network, preparing_attempt, begin_closing,
  attempt_failed_with_diagnostic, commit_established, connection_terminated_with_details, terminate_op, mut_bind, mut_state, mut_lift;
  cbn beta iota; rewrite ?check_progress_dead, ?check_attempt_dead, ?Ht by done; reflexivity.

Lemma terminate_refused ox reason failure details :
  forall s, ss_terminated (st s) = true -> exists r, terminate_op event_base ox reason failure details s publication_new = (s, publication_new, r).
Proof. refuses. Qed.

Lemma terminate_inv ox w reason failure details :
  session_inv w ->
  let '(s, p, _) := terminate_with_details event_base ox (ses w) reason failure details in
  session_inv (committed w s p [] true) /\ moves w (committed w s p [] true) /\ ss_terminated (st s) = true.
Proof.
  intros Hi. pose proof Hi as [Hok Har]. unfold terminate_with_details.
  destruct (request_effect _ _ _ _ true true (close_requested (ses w)) (close_request (ses w)) Hok) as [Hok1 Hl].
  set (s1 := (ses w) <| cancel_selected := true; cancel_requested := true |>).
  change (session_ok (world_leases w) (facts w) (seen w) s1) in Hok1. change (later (ses w) s1) in Hl.
  destruct (later_inv w s1 Hi Hok1 Hl) as [[_ Har1] Hm].
  set (op := terminate_op event_base ox reason failure details).
  pose proof (session_commit_inv ox op (w <| ses := s1 |>) [] true _ Hok1 Har1) as H. cbn [app] in H. change (ses (w <| ses := s1 |>)) with s1 in H.
  assert (ss_terminated (st s1) = true -> exists r, op s1 publication_new = (s1, publication_new, r)) as Hdead by apply terminate_refused.
  assert (ss_terminated (st s1) = true \/ pb_failed (op s1 publication_new).1.2 || pb_close (op s1 publication_new).1.2 = true) as Hend.
  { destruct (ss_terminated (st s1)) eqn:Ht; [by left|right]. by apply (session_terminate_settles ox s1 _ _ _ reason failure details Hok1 Ht). }
  destruct (commit ox op s1) as [[s p] r]. destruct H as [H1 H2].
  - intros Ht. by apply session_terminate_settles.
  - intros Ht. split; [by apply Hdead|done].
  - done.
  - split_and!; [exact H1|by eapply moves_trans; [exact Hm|exact H2]|].
    destruct H1 as [_ [_ _ R3 _ _]]. simpl in R3. apply Forall_app in R3 as [_ R3]. rewrite Forall_singleton in R3. apply R3. simpl. apply orb_true_r.
Qed.

Lemma session_step_inv w op : session_inv w -> session_inv (session_step w op) /\ moves w (session_step w op).
Proof.
  intros Hi. pose proof Hi as [Hok Har]. destruct op; cbn [session_step].
  - apply transition_inv; [done|intros; by apply begin_cycle_settles|refuses].
  - apply transition_inv; [done|intros; by apply waiting_for_network_settles|refuses].
  - apply transition_inv; [done|intros; by apply preparing_attempt_settles|refuses].
  - apply transition_inv; [done|intros; by apply begin_closing_settles|refuses].
  - apply reserved_inv; [done..| |apply reserve_slots_answer]. by apply reserve_slots_ok.
  - destruct (waiting w !! n) as [[slots bytes]|] eqn:Hn; [|by split; [|apply moves_refl]].
    pose proof (session_ok_perm _ _ _ _ _ Hok (world_leases_waiting w n _ Hn)) as Hok1. simpl in Hok1.
    pose proof (around_delete_waiting w n Har) as Har1.
    destruct (proj1 (Forall_lookup _ _) (ar_waiting _ Har) _ _ Hn) as [E|E]; injection E as -> ->.
    + apply reserved_inv; [done..| |apply reserve_bytes_answer]. by apply reserve_bytes_ok.
    + apply reserved_inv; [done..| |apply reserve_finish_answer]. intros _. by apply reserve_finish_ok.
  - destruct (waiting w !! n) as [[slots bytes]|] eqn:Hn; [|by split; [|apply moves_refl]].
    pose proof (session_ok_perm _ _ _ _ _ Hok (world_leases_waiting w n _ Hn)) as Hok1. simpl in Hok1.
    eapply effect_inv; [done|by apply release_lease_ok in Hok1|apply release_lease_effect|done|done|].
    destruct (around_delete_waiting w n Har) as [R1 R2 R3 R4 R5]. by split.
  - destruct (granted w !! n) as [r|] eqn:Hn; [|by split; [|apply moves_refl]].
    pose proof (session_ok_perm _ _ _ _ _ Hok (world_leases_granted w n _ Hn)) as Hok1.
    eapply effect_inv; [done|by apply release_lease_ok in Hok1|apply release_lease_effect|done|done|].
    destruct (around_delete_granted w n Har) as [R1 R2 R3 R4 R5]. by split.
  - destruct (granted w !! n) as [r|] eqn:Hn; [|by split; [|apply moves_refl]].
    pose proof (begin_attempt_inv ox w n r attempt same_metadata Hi Hn) as H. by destruct (session_begin_attempt _ _ _ _ _ _) as [[[s p] leases] r0].
  - pose proof (begin_foreign_inv ox w attempt lease same_metadata Hi) as H. by destruct (session_begin_attempt _ _ _ _ _ _) as [[[s p] leases] r0].
  - by apply credential_inv.
  - apply transition_inv; [done|intros; by apply attempt_failed_settles|refuses].
  - by apply prepare_established_inv.
  - apply transition_inv; [done|intros; by apply commit_established_settles|refuses].
  - apply transition_inv; [done| |refuses]. intros others l o s Hs Ht. unfold connection_terminated_with_details, mut_bind, mut_state.
    rewrite Ht. by apply disconnect_settles.
  - pose proof (terminate_inv ox w reason failure details Hi) as H. destruct (terminate_with_details _ _ _ _ _ _) as [[s p] r]. split; apply H.
  - destruct (calls w !! n) as [[p leases terminates]|] eqn:Hn; [|by split; [|apply moves_refl]]. by apply dispatch_inv.
  - unfold request_cancel. destruct (cancel_selected (ses w)); [by apply later_inv; [| |apply later_refl]|].
    destruct (request_effect _ _ _ _ true true (close_requested (ses w)) (close_request (ses w)) Hok). by apply later_inv.
  - unfold session_request_close. destruct (requested (close_request (ses w))); [by apply later_inv; [| |apply later_refl]|].
    destruct (request_effect _ _ _ _ (cancel_requested (ses w)) (cancel_selected (ses w)) true
      (mkCloseRequestState true (Some (mkSessionCloseRequest frame0 deadline))) Hok). by apply later_inv.
  - destruct (request_effect _ _ _ _ (cancel_requested (ses w)) (cancel_selected (ses w)) (close_requested (ses w))
      (mkCloseRequestState (requested (close_request (ses w))) None) Hok). by apply later_inv.
  - apply with_stream_inv; [done|]. intros j l o Hj Hp. pose proof (poll_yields j l o Hj Hp) as H.
    destruct (poll_next (jb_stream j)) as [[stream es] r]. destruct H as (? & Hl & ?). simpl. by rewrite Hl.
  - apply with_stream_inv; [done|]. intros j l o Hj Hp. pose proof (yields_unsubscribe j l o Hj) as H.
    destruct (unsubscribe (jb_stream j)) as [[stream es] d]. by rewrite app_nil_r.
  - apply with_stream_inv; [done|]. intros j l o Hj Hp. pose proof (yields_fail j l o error Hj) as H.
    destruct (event_fail (jb_stream j) error) as [stream es]. by rewrite app_nil_r.
Qed.

Lemma session_run_inv ops : forall w, session_inv w -> session_inv (session_run w ops) /\ moves w (session_run w ops).
Proof.
  induction ops as [|op ops IH]; intros w Hi; [by split; [|apply moves_refl]|].
  destruct (session_step_inv w op Hi) as [H1 M1]. destruct (IH _ H1) as [H2 M2]. split; [done|]. by eapply moves_trans.
Qed.

(** The journal of a new session, with the slot of its last fact. *)
Lemma journal_new_ok reserve (o : JournalOptions) publisher stream slots bytes :
  journal_options_validate max_permits o = Ok tt ->
  event_channel max_permits reserve (mkEventQueueLimit (jo_max_events o) (jo_max_bytes o)) EventOverflow.Wait true = Ok (publisher, stream) ->
  try_acquire_many (sem_new (jo_max_events o)) 1 = Ok slots ->
  try_acquire_many (sem_new (jo_max_bytes o)) MAX_CONNECTION_EVENT_BYTES = Ok bytes ->
  let j := mkJournalBudget publisher stream slots bytes in
  journal_ok j [] [] /\ stream = event_state_new true /\
  MIN_EVENTS <= limit true j /\ MIN_EVENTS * MAX_CONNECTION_EVENT_BYTES <= limit false j /\
  free true j = limit true j - 1 /\ free false j = limit false j - MAX_CONNECTION_EVENT_BYTES.
Proof.
  intros Hv Hc Hs Hb j. unfold journal_options_validate in Hv. destruct (Z.ltb_spec (jo_max_events o) MIN_EVENTS); [done|].
  destruct (Z.ltb_spec (jo_max_bytes o) (MIN_EVENTS * MAX_CONNECTION_EVENT_BYTES)); [done|].
  assert (0 < MIN_EVENTS /\ 0 < MAX_CONNECTION_EVENT_BYTES /\ MAX_CONNECTION_EVENT_BYTES <= MIN_EVENTS * MAX_CONNECTION_EVENT_BYTES) as (P1 & P2 & P3) by done.
  apply acquired in Hs as [_ Hs]. apply acquired in Hb as [_ Hb]. rewrite new_available in Hs, Hb.
  assert (valid_limit publisher /\ stream = event_state_new true /\ ereg_overflow publisher = EventOverflow.Wait /\
    ereg_limit publisher = mkEventQueueLimit (jo_max_events o) (jo_max_bytes o)) as (V1 & -> & V3 & V4).
  { assert (valid_limit publisher) by (eapply channel_valid; [..|exact Hc]; simpl; lia).
    unfold event_channel in Hc. repeat case_match; by simplify_eq/=. }
  unfold limit, free. simpl. rewrite V4. simpl. split_and!; try done; try lia.
  split; simpl; rewrite ?V4; simpl; try done. split; simpl; rewrite ?V4; simpl; (done || lia).
Qed.

(** A new session keeps the invariant. *)
Lemma session_new_inv client session options metadata event_options id permit reserve s :
  session_new max_permits client session options metadata event_options id permit reserve = Ok s ->
  session_inv (session_world s) /\ client_instance_id s = client /\ own_session_id s = session.
Proof.
  unfold session_new. destruct (match options with Some o => _ | None => _ end) as [[]|] eqn:Hv; [|done].
  destruct (history_new _ _ _) as [h|] eqn:Hh; [|done].
  assert (h_last_sequence h = 0 /\ h_scope h = None) as [Hh1 Hh2].
  { unfold history_new in Hh. destruct (event_options_validate _ _), reserve; by simplify_eq/=. }
  set (snapshot := mkConnectionSnapshot 0 session ConnectionState.Connecting None).
  assert (forall budget slot,
    (forall j, budget = Some j -> journal_ok j [] [] /\ jb_stream j = event_state_new true /\ slot = EventLease.Observed 1 MAX_CONNECTION_EVENT_BYTES /\
       (forall b, 0 <= free b j /\ free b j + cost b slot = limit b j)) -> (budget = None -> slot = EventLease.Unobserved) ->
    let s := {| client_instance_id := client; own_session_id := session; own_metadata := metadata;
        st := mkSessionState snapshot None false false false (Some slot) None None None None None None None 0 false None;
        history := h; state_source := source_new snapshot; identity := id; journal := budget;
        cancel_requested := false; cancel_selected := false; close_requested := false;
        close_request := mkCloseRequestState false None; finished := false |} in session_inv (session_world s)) as Hnew.
  { intros budget slot Hj Hn s0. split; [|by split]. split; simpl.
    - intros j b Hjj. destruct (Hj j Hjj) as (_ & E & -> & Hf). destruct (Hf b) as [F1 F2]. unfold state_leases. simpl. rewrite E. simpl in *.
      change (world_leases (session_world s0)) with (@nil EventLease). split_and!; [done|by repeat constructor; destruct b|lia].
    - intros j Hjj. apply (Hj j Hjj).
    - done.
    - intros _. split; [done|by left].
    - exists (Idle, None). split; [constructor|left]. split; [|by intros j Hjj; destruct (Hj j Hjj) as (_ & -> & _)].
      split; simpl; try done. exists slot. split; [done|]. destruct budget as [j|]; [left; by apply (Hj j)|right; auto].
    - split; simpl; try done. intros _. split_and!; [done|done|]. intros i. split; [done|]. by intros [_ (c & ? & _)].
    - done. }
  destruct options as [o|].
  - destruct permit; [|done]. cbn [negb]. destruct (event_channel _ _ _ _ _) as [[publisher stream]|] eqn:Hc; [|done].
    destruct (try_acquire_many (sem_new (jo_max_events o)) 1) as [slots|] eqn:Hs; [|done]. simpl.
    destruct (try_acquire_many (sem_new (jo_max_bytes o)) MAX_CONNECTION_EVENT_BYTES) as [bytes|] eqn:Hb; [|done]. simpl. intros [= <-].
    destruct (journal_new_ok _ _ _ _ _ _ Hv Hc Hs Hb) as (J1 & J2 & J3 & J4 & J5 & J6). split; [|done]. apply Hnew; [|done].
    intros j [= <-]. split_and!; try done. assert (0 < MIN_EVENTS /\ MAX_CONNECTION_EVENT_BYTES <= MIN_EVENTS * MAX_CONNECTION_EVENT_BYTES) as [P1 P2] by done.
    intros []; cbn [cost]; rewrite ?J5, ?J6; lia.
  - intros [= <-]. split; [|done]. by apply Hnew.
Qed.

(** ** Properties *)

Section Properties.
Context (client session : Z) (options : option JournalOptions) (metadata : Metadata) (event_options : EventOptions).
Context (id : positive) (permit reserve : bool) (s0 : Session).
Context (created : session_new max_permits client session options metadata event_options id permit reserve = Ok s0).

#[local] Abbreviation reach ops := (session_run (session_world s0) ops).

Lemma reach_inv ops :
  session_inv (reach ops) /\ client_instance_id (ses (reach ops)) = client /\ own_session_id (ses (reach ops)) = session.
Proof.
  destruct (session_new_inv _ _ _ _ _ _ _ _ _ created) as (Hi & Hc & Hs). destruct (session_run_inv ops _ Hi) as [H1 (Hl & _)].
  by rewrite (lt_client _ _ Hl), (lt_session _ _ Hl).
Qed.


(** C12. In every run the journal of a session is exact: its receiver is never told that it lagged,
    what it has seen is a prefix of the facts, and until it leaves, what it has seen with what waits
    for it is all of them; when the session has ended the stream is closed behind the last fact. *)
Theorem session_journal_exact ops :
  existsb is_lagged (seen (reach ops)) = false /\ items (seen (reach ops)) `prefix_of` facts (reach ops) /\
  forall j, journal_active (ses (reach ops)) = Some j ->
    items (seen (reach ops)) ++ (value <$> equeue (jb_stream j)) = facts (reach ops) /\
    source_closed (jb_stream j) = ss_terminated (st (ses (reach ops))).
Proof.
  destruct (reach_inv ops) as ([Hok Har] & _). split; [apply Har|]. split; [apply Har|]. intros j Hj.
  assert (eactive (jb_stream j) = true) as Ha by (unfold journal_active in Hj; repeat case_match; by simplify_eq).
  apply journal_active_Some in Hj. split; [by apply (jo_exact _ _ _ (so_journal _ _ _ _ Hok j Hj))|].
  destruct (so_life _ _ _ _ Hok) as (g & _ & [[A Ho]|D]).
  - by rewrite (al_terminated _ _ A), Ho.
  - by rewrite (de_terminated _ _ D), (de_journal _ _ D j Hj Ha).
Qed.

(** C25. In every run the permits of the journal are conserved: the slots and bytes that are free,
    with those held by the facts in the queue, by the attempt, the connection and the end of the
    session, by effects that are not dispatched and by reservations, are the limits of the journal. *)
Theorem session_permits_conserved ops j b :
  journal (ses (reach ops)) = Some j ->
  0 <= free b j /\
  free b j + total b (state_leases (st (ses (reach ops)))) + total b (entry_lease <$> equeue (jb_stream j)) +
    total b (world_leases (reach ops)) = limit b j /\
  0 <= total b (state_leases (st (ses (reach ops)))) /\ 0 <= total b (world_leases (reach ops)).
Proof.
  intros Hj. destruct (reach_inv ops) as ([Hok _] & _). pose proof (so_conserved _ _ _ _ Hok) as Hc. rewrite conserved_iff in Hc.
  destruct (Hc j b Hj) as (Hf & (H1 & H2 & H3) & Ht). split_and!; [done|lia|by apply total_nonneg..].
Qed.

(** A session that could not publish a fact failed because the fact is too large or the process is
    out of memory or numbers, never because its journal was full or a slot was missing; it ends with
    that error, without an attempt or a connection. *)
Theorem session_failure_kinds ops e :
  ss_delivery_error (st (ses (reach ops))) = Some e ->
  (kind e = ErrorKind.ItemTooLarge \/ kind e = ErrorKind.ResourceExhausted) /\
  ss_terminated (st (ses (reach ops))) = true /\ ss_terminal_result (st (ses (reach ops))) = Some (Err e) /\
  ss_attempt (st (ses (reach ops))) = None /\ ss_connection (st (ses (reach ops))) = None.
Proof.
  intros He. destruct (reach_inv ops) as ([Hok _] & _). destruct (so_life _ _ _ _ Hok) as (g & _ & [[[A1 A2 A3 A4 A5 A6] _]|[D1 (D2 & D2' & _) D3 (r & D4 & D5) _]]).
  - congruence.
  - rewrite He in D5. destruct D5 as [D5 ->]. done.
Qed.

(** C24. Termination always ends the session: after [terminate] and its effects, from every reachable
    state, [closed] returns a result, and no later operation changes that result, the snapshot or
    the facts. *)
Theorem session_termination_final ops ox reason failure details submit ops' :
  let w := session_run (reach ops) [STerminate ox reason failure details; SDispatch submit (length (calls (reach ops)))] in
  exists r, session_closed (ses w) = Some r /\ ss_terminal_result (st (ses w)) = Some r /\
    session_closed (ses (session_run w ops')) = Some r /\
    session_snapshot (ses (session_run w ops')) = session_snapshot (ses w) /\ facts (session_run w ops') = facts w.
Proof.
  destruct (reach_inv ops) as (Hi & _). set (w0 := reach ops) in *. cbn zeta.
  pose proof (terminate_inv ox w0 reason failure details Hi) as Ht.
  assert (exists s p, session_step w0 (STerminate ox reason failure details) = committed w0 s p [] true /\
    session_inv (committed w0 s p [] true) /\ ss_terminated (st s) = true) as (s & p & Es & Hi1 & Hts).
  { simpl. destruct (terminate_with_details _ _ _ _ _ _) as [[s p] r]. exists s, p. by destruct Ht as (? & _ & ?). }
  change (session_run w0 [STerminate ox reason failure details; SDispatch submit (length (calls w0))]) with
    (session_step (session_step w0 (STerminate ox reason failure details)) (SDispatch submit (length (calls w0)))). rewrite Es. set (w1 := committed w0 s p [] true) in *.
  destruct (session_step_inv w1 (SDispatch submit (length (calls w0))) Hi1) as [Hi2 (Hl2 & _)].
  assert (finished (ses (session_step w1 (SDispatch submit (length (calls w0))))) = true) as Hfin.
  { assert (calls w1 !! length (calls w0) = Some (mkCall p [] true)) as Hn by (apply list_lookup_middle; done).
    cbn [session_step]. rewrite Hn. done. }
  set (w := session_step w1 _) in *. destruct (lt_ended _ _ Hl2 Hts) as [Est _].
  assert (ss_terminated (st (ses w)) = true) as Htw by (by rewrite Est).
  destruct (session_run_inv ops' w Hi2) as [_ (Hl3 & _ & Hf3)]. destruct (lt_ended _ _ Hl3 Htw) as [E3 E4].
  destruct Hi2 as [Hok2 _]. destruct (so_life _ _ _ _ Hok2) as (g & _ & [[A _]|D]); [by rewrite (al_terminated _ _ A) in Htw|].
  destruct (de_result _ _ D) as (r & Hr & _). exists r. unfold session_closed, session_snapshot.
  rewrite (lt_finished _ _ Hl3 Hfin), Hfin, E3, E4, Hr. split_and!; try done. by apply Hf3.
Qed.

(** The snapshot of a session agrees with it: until the numbers of snapshots are used up or the
    state source has failed, the snapshot is [Connected] with a connection exactly while that
    connection is up and the session is not closing, it is [Closed] with a result exactly after the
    session has ended with it, and a caller that waits for the connection gets the one it shows. *)
Theorem session_snapshot_agrees ops snap :
  session_snapshot (ses (reach ops)) = Ok snap -> snap_revision snap < u64_max ->
  (forall i, snap_state snap = ConnectionState.Connected i <-> wait_connected (ses (reach ops)) = Some (Ok i)) /\
  (forall r, snap_state snap = ConnectionState.Closed r <-> ss_terminal_result (st (ses (reach ops))) = Some r).
Proof.
  intros Hs Hu. destruct (reach_inv ops) as ([Hok _] & _). destruct (so_shown _ _ _ _ Hok) as [S1 S2 S3]. unfold session_snapshot, current_result in Hs.
  assert (ss_state_failed (st (ses (reach ops))) = false) as Hf.
  { destruct (ss_state_failed _) eqn:E; [|done]. destruct (S3 eq_refl) as [_ ?]. by destruct (src_failure _). }
  destruct (S2 Hf) as (E1 & _ & _ & E2). rewrite E2, E1 in Hs. injection Hs as <-. destruct (S1 Hu) as (C1 & C2 & C3).
  unfold wait_connected. destruct (so_life _ _ _ _ Hok) as (g & _ & [[[A1 A2 _ _ _ _] _]|[D1 (_ & D2 & _) _ (r & D4 & _) _]]).
  - rewrite A2. split; [|by intros r; split; [intros ?; by destruct (C2 A1 r)|]]. intros i. rewrite C3.
    destruct (ss_closing _); [by split; [intros []|]|].
    destruct (ss_connection _) as [c|]; simpl; [|by split; [intros [_ (? & ? & _)]|]].
    split; [by intros [_ (? & [= <-] & <-)]|]. intros [= <-]. by eauto.
  - rewrite D4. destruct (C1 D1) as (r' & Hr & Hsnap). rewrite D4 in Hr. injection Hr as <-. rewrite Hsnap.
    split; [|by intros r'; split; intros [= ->]].
    intros i. by destruct r.
Qed.

(** The smallest journal a session accepts is enough to go on: when the receiver has taken every
    fact, no call or reservation is in flight and the session has neither an attempt nor a
    connection, the three facts of the next attempt can be reserved at once. *)
Theorem drained_session_reserves ops j :
  journal_active (ses (reach ops)) = Some j -> sem_closed (jb_slots j) = false -> sem_closed (jb_bytes j) = false ->
  equeue (jb_stream j) = [] -> world_leases (reach ops) = [] -> granted (reach ops) = [] ->
  ss_terminated (st (ses (reach ops))) = false -> cancel_requested (ses (reach ops)) = false ->
  ss_attempt (st (ses (reach ops))) = None -> ss_connection (st (ses (reach ops))) = None ->
  resources <$> granted (session_run (reach ops) [SReserve; SReserveMore 0; SReserveMore 0]) =
    [EventLease.Observed 3 (3 * MAX_CONNECTION_EVENT_BYTES)].
Proof.
  intros Hj Ho1 Ho2 Hq Hw Hg Ht Hc Ha Hcn. destruct (reach_inv ops) as ([Hok _] & _). pose proof (so_conserved _ _ _ _ Hok) as Hcons.
  assert (journal (ses (reach ops)) = Some j) as Hj' by (by apply journal_active_Some).
  assert (waiting (reach ops) = []) as Hwt.
  { unfold world_leases in Hw. apply app_eq_nil in Hw as [_ Hw]. apply app_eq_nil in Hw as [Hw _]. by apply fmap_nil_inv in Hw. }
  set (w := reach ops) in *.
  assert (exists l, ss_terminal_slot (st (ses w)) = Some l /\ cost true l <= 1 /\ cost false l <= MAX_CONNECTION_EVENT_BYTES) as (l & Hl & L1 & L2).
  { destruct (so_life _ _ _ _ Hok) as (g & _ & [[[_ _ _ (l & Hl & Hfull) _ _] _]|D]); [|by rewrite (de_terminated _ _ D) in Ht].
    exists l. destruct Hfull as [-> |[-> _]]; split_and!; done. }
  assert (forall b, free b j + cost b l = limit b j) as Hfree.
  { intros b. destruct (Hcons j b Hj') as (_ & _ & Hs). rewrite Hq, Hw in Hs. unfold state_leases in Hs. rewrite Hl, Ha, Hcn in Hs. simpl in Hs. lia. }
  destruct (jo_room _ _ _ (so_journal _ _ _ _ Hok j Hj')) as [R1 R2]. pose proof (Hfree true) as F1. pose proof (Hfree false) as F2.
  unfold free, limit in F1, F2. assert (3 + 1 = MIN_EVENTS /\ 3 * MAX_CONNECTION_EVENT_BYTES + MAX_CONNECTION_EVENT_BYTES = MIN_EVENTS * MAX_CONNECTION_EVENT_BYTES) as [P1 P2] by done.
  destruct (acquire_ok (jb_slots j) 3 Ho1 ltac:(lia)) as (slots & A1 & _ & _).
  destruct (acquire_ok (jb_bytes j) (3 * MAX_CONNECTION_EVENT_BYTES) Ho2 ltac:(lia)) as (bytes & A2 & _ & _).
  by eapply reserve_at_once.
Qed.

End Properties.

End Theory.

(** ** Samples *)

#[local] Existing Instance counting_semaphores.
#[local] Existing Instance counting_laws.

Definition sample_oracle : Oracle := mkOracle (fun n => n) 100 (fun _ => true) (fun _ => true) true.

(** A session with the smallest journal. *)
Definition sample_session : Session :=
  ltac:(let r := eval vm_compute in
          (session_new 1048576 1 2 (Some (mkJournalOptions 4 131072)) [] (mkEventOptions 8 100000) 1%positive true true) in
        match r with Ok ?s => exact s end).

Lemma sample_session_created :
  session_new 1048576 1 2 (Some (mkJournalOptions 4 131072)) [] (mkEventOptions 8 100000) 1%positive true true = Ok sample_session.
Proof. vm_compute. reflexivity. Qed.

Definition sample_attempt (n : Z) : HandshakeAttempt := mkHandshakeAttempt 1 2 1 n [].

Definition sample_failure : ConnectionFailure :=
  mkConnectionFailure (NetError_new ErrorKind.Io) ConnectStage.Dns None true.

(** An attempt that fails; the receiver takes both facts. *)
Definition sample_first : list SessionOp :=
  [SBeginCycle sample_oracle 1 false; SDispatch None 0;
   SReserve; SReserveMore 0; SReserveMore 0; SBeginAttempt sample_oracle 0 (sample_attempt 1) true; SDispatch None 0;
   SCredential 1 1 None; SAttemptFailed sample_oracle 1 1 sample_failure (ConnectionRetry.Scheduled 5) None; SDispatch None 0;
   SPoll; SPoll].

(** A second attempt that succeeds. *)
Definition sample_second : list SessionOp :=
  [SReserve; SReserveMore 0; SReserveMore 0; SBeginAttempt sample_oracle 0 (sample_attempt 2) true; SDispatch None 0;
   SCredential 1 2 None; SPrepareEstablished 1 2; SCommitEstablished sample_oracle 1 2; SDispatch None 0; SPoll].

#[local] Abbreviation sample_reach ops := (session_run 100 (session_world sample_session) ops).


Lemma session_journal_exact_witness :
  length (items (seen (sample_reach (sample_first ++ sample_second)))) = 3%nat /\
  items (seen (sample_reach (sample_first ++ sample_second))) `prefix_of` facts (sample_reach (sample_first ++ sample_second)).
Proof.
  split; [vm_compute; reflexivity|].
  exact (proj1 (proj2 (session_journal_exact 1048576 100 ltac:(lia) _ _ _ _ _ _ _ _ _ sample_session_created (sample_first ++ sample_second)))).
Defined.

(** The journal of a run. *)
Definition sample_journal (ops : list SessionOp) : JournalBudget :=
  default (mkJournalBudget (mkEventRegistration (mkEventQueueLimit 0 0) EventOverflow.Wait) (event_state_new true) (0, false) (0, false))
    (journal (ses (sample_reach ops))).

Lemma session_permits_conserved_witness :
  free true (sample_journal (sample_first ++ sample_second)) = 1 /\
  total true (state_leases (st (ses (sample_reach (sample_first ++ sample_second))))) = 2 /\
  limit true (sample_journal (sample_first ++ sample_second)) = 4 /\ 0 <= free true (sample_journal (sample_first ++ sample_second)).
Proof.
  split; [vm_compute; reflexivity|]. split; [vm_compute; reflexivity|]. split; [vm_compute; reflexivity|].
  assert (journal (ses (sample_reach (sample_first ++ sample_second))) = Some (sample_journal (sample_first ++ sample_second))) as Hj
    by (vm_compute; reflexivity).
  exact (proj1 (session_permits_conserved 1048576 100 ltac:(lia) _ _ _ _ _ _ _ _ _ sample_session_created
    (sample_first ++ sample_second) _ true Hj)).
Defined.

(** An event without its payload is already too large. *)
Lemma session_failure_kinds_witness :
  exists e, ss_delivery_error (st (ses (session_run 40000 (session_world sample_session) sample_first))) = Some e /\
    (kind e = ErrorKind.ItemTooLarge \/ kind e = ErrorKind.ResourceExhausted).
Proof.
  destruct (ss_delivery_error (st (ses (session_run 40000 (session_world sample_session) sample_first)))) as [e|] eqn:He.
  - exists e. split; [reflexivity|].
    exact (proj1 (session_failure_kinds 1048576 40000 ltac:(lia) _ _ _ _ _ _ _ _ _ sample_session_created sample_first e He)).
  - vm_compute in He. discriminate.
Defined.

Lemma session_termination_final_witness :
  exists r, session_closed (ses (session_run 100 (sample_reach (sample_first ++ sample_second))
    [STerminate sample_oracle TerminationReason.LocalClose None details_default;
     SDispatch None (length (calls (sample_reach (sample_first ++ sample_second))))])) = Some r.
Proof.
  destruct (session_termination_final 1048576 100 ltac:(lia) _ _ _ _ _ _ _ _ _ sample_session_created (sample_first ++ sample_second)
    sample_oracle TerminationReason.LocalClose None details_default None []) as (r & H & _).
  exists r. exact H.
Defined.

Definition sample_snapshot (ops : list SessionOp) : ConnectionSnapshot :=
  match session_snapshot (ses (sample_reach ops)) with
  | Ok snap => snap
  | Err _ => mkConnectionSnapshot 0 0 ConnectionState.Connecting None
  end.

Lemma session_snapshot_agrees_witness :
  exists i, snap_state (sample_snapshot (sample_first ++ sample_second)) = ConnectionState.Connected i /\
    wait_connected (ses (sample_reach (sample_first ++ sample_second))) = Some (Ok i).
Proof.
  assert (session_snapshot (ses (sample_reach (sample_first ++ sample_second))) = Ok (sample_snapshot (sample_first ++ sample_second))) as Hs
    by (vm_compute; reflexivity).
  assert (snap_revision (sample_snapshot (sample_first ++ sample_second)) < u64_max) as Hr by (vm_compute; reflexivity).
  assert (exists i, snap_state (sample_snapshot (sample_first ++ sample_second)) = ConnectionState.Connected i) as [i Hi]
    by (eexists; vm_compute; reflexivity).
  exists i. split; [exact Hi|].
  exact (proj1 (proj1 (session_snapshot_agrees 1048576 100 ltac:(lia) _ _ _ _ _ _ _ _ _ sample_session_created (sample_first ++ sample_second)
    (sample_snapshot (sample_first ++ sample_second)) Hs Hr) i) Hi).
Defined.

Lemma drained_session_reserves_witness :
  resources <$> granted (session_run 100 (sample_reach sample_first) [SReserve; SReserveMore 0; SReserveMore 0]) =
    [EventLease.Observed 3 (3 * MAX_CONNECTION_EVENT_BYTES)].
Proof.
  apply (drained_session_reserves 1048576 100 ltac:(lia) _ _ _ _ _ _ _ _ _ sample_session_created sample_first (sample_journal sample_first));
    vm_compute; reflexivity.
Defined.
