(* ===== verification/HttpTimeouts.v ===== *)
(** * Time budgets of HTTP requests

    Timeouts are configured per phase by the client and by each request
    (src/api/http/http_timeouts.rs); while a request runs, one absolute budget
    is passed from admission to the last byte of the body
    (src/module/http/http_timeout.rs).  The clock is read by the callers, so
    [now] is an argument wherever the code reads it. *)

From S2P Require Import Prelude F64 Backoff RetrySchedule RetryState Errors.

(** ** Settings *)

Module TimeoutSetting.
Inductive TimeoutSetting := Inherit | Disabled | After (duration : Duration).
End TimeoutSetting.
Abbreviation TimeoutSetting := TimeoutSetting.TimeoutSetting.

(** [TimeoutSetting::resolve] *)
Definition setting_resolve (self client : TimeoutSetting) (fallback : option Duration) : option Duration :=
  match self with
  | TimeoutSetting.After duration => Some duration
  | TimeoutSetting.Disabled => None
  | TimeoutSetting.Inherit =>
      match client with
      | TimeoutSetting.After duration => Some duration
      | TimeoutSetting.Disabled => None
      | TimeoutSetting.Inherit => fallback
      end
  end.

Definition explicit (duration : option Duration) : TimeoutSetting :=
  match duration with Some duration => TimeoutSetting.After duration | None => TimeoutSetting.Disabled end.

Record HttpTimeouts := mkHttpTimeouts {
  set_admission : TimeoutSetting;
  set_headers : TimeoutSetting;
  set_idle_read : TimeoutSetting;
  set_attempt : TimeoutSetting;
  set_total : TimeoutSetting;
}.

Definition HttpTimeouts_new : HttpTimeouts :=
  mkHttpTimeouts TimeoutSetting.Inherit TimeoutSetting.Inherit TimeoutSetting.Inherit TimeoutSetting.Inherit TimeoutSetting.Inherit.

Definition DEFAULT_HTTP_ADMISSION_TIMEOUT : Duration := from_secs 30.

Record ResolvedTimeouts := mkResolvedTimeouts {
  res_admission : option Duration;
  res_headers : option Duration;
  res_idle_read : option Duration;
  res_attempt : option Duration;
  res_total : option Duration;
}.

Definition as_overrides (r : ResolvedTimeouts) : HttpTimeouts :=
  mkHttpTimeouts (explicit (res_admission r)) (explicit (res_headers r)) (explicit (res_idle_read r))
    (explicit (res_attempt r)) (explicit (res_total r)).

Section Timeouts.
Context {clk : Clock}.

(** [http_timeouts::validate_duration]; [input] tells a request from a configuration. *)
Definition http_validate_duration (now : Instant) (duration : Duration) (field : string) (input : bool) : Result () NetError :=
  let reason := if duration =? 0 then Some "timeout must be nonzero"%string
                else if is_none (instant_checked_add now duration) then Some "timeout exceeds the monotonic clock range"%string
                else None in
  match reason with
  | Some reason => Err (if input then NetError_input field reason else NetError_config field reason)
  | None => Ok tt
  end.

Definition validate_setting (now : Instant) (input : bool) (field : string) (setting : TimeoutSetting) : Result () NetError :=
  match setting with
  | TimeoutSetting.After duration => http_validate_duration now duration field input
  | _ => Ok tt
  end.

(** [HttpTimeouts::validate_with] *)
Definition timeouts_validate_with (now : Instant) (input : bool) (t : HttpTimeouts) : Result () NetError :=
  let? _ := validate_setting now input "http.timeouts.admission" (set_admission t) in
  let? _ := validate_setting now input "http.timeouts.headers" (set_headers t) in
  let? _ := validate_setting now input "http.timeouts.idle_read" (set_idle_read t) in
  let? _ := validate_setting now input "http.timeouts.attempt" (set_attempt t) in
  validate_setting now input "http.timeouts.total" (set_total t).

(** [HttpTimeouts::resolve] *)
Definition timeouts_resolve (now : Instant) (client request : HttpTimeouts) (legacy_timeout : Duration) :
    Result ResolvedTimeouts NetError :=
  let? _ := timeouts_validate_with now false client in
  let? _ := timeouts_validate_with now true request in
  let? _ := http_validate_duration now legacy_timeout "http.timeout" false in
  let resolved := mkResolvedTimeouts
    (setting_resolve (set_admission request) (set_admission client) (Some DEFAULT_HTTP_ADMISSION_TIMEOUT))
    (setting_resolve (set_headers request) (set_headers client) None)
    (setting_resolve (set_idle_read request) (set_idle_read client) None)
    (setting_resolve (set_attempt request) (set_attempt client) (Some legacy_timeout))
    (setting_resolve (set_total request) (set_total client) None) in
  let? _ := timeouts_validate_with now false (as_overrides resolved) in
  Ok resolved.

(** ** Budgets *)

(** [priority]: which phase an expiry is attributed to when deadlines coincide. *)
Definition phase_priority (phase : TimeoutPhase) : Z :=
  match phase with
  | TimeoutPhase.Total => 0
  | TimeoutPhase.Admission => 1
  | TimeoutPhase.Attempt => 2
  | TimeoutPhase.Connect => 3
  | TimeoutPhase.Headers => 4
  | TimeoutPhase.IdleRead => 5
  end.

(** [field] *)
Definition phase_field (phase : TimeoutPhase) : string :=
  match phase with
  | TimeoutPhase.Total => "http.timeouts.total"
  | TimeoutPhase.Admission => "http.timeouts.admission"
  | TimeoutPhase.Attempt => "http.timeouts.attempt"
  | TimeoutPhase.Connect => "http.connect_timeout"
  | TimeoutPhase.Headers => "http.timeouts.headers"
  | TimeoutPhase.IdleRead => "http.timeouts.idle_read"
  end.

(** The order of pairs of a deadline and a priority. *)
Definition deadline_le (a b : Instant * TimeoutPhase) : bool :=
  (a.1 <? b.1) || ((a.1 =? b.1) && (phase_priority a.2 <=? phase_priority b.2)).

(** [http_timeout::TimeoutBudget] *)
Record HttpBudget := mkHttpBudget { earliest : option (Instant * TimeoutPhase) }.

Definition budget_none : HttpBudget := mkHttpBudget None.

Definition budget_with_phase (b : HttpBudget) (start : Instant) (duration : option Duration) (phase : TimeoutPhase) :
    Result HttpBudget NetError :=
  match duration with
  | None => Ok b
  | Some duration =>
      if duration =? 0 then Err (NetError_config (phase_field phase) "timeout must be nonzero")
      else
        let? deadline := ok_or (instant_checked_add start duration)
                           (NetError_config (phase_field phase) "timeout exceeds the monotonic clock range") in
        match earliest b with
        | Some current => if deadline_le current (deadline, phase) then Ok b else Ok (mkHttpBudget (Some (deadline, phase)))
        | None => Ok (mkHttpBudget (Some (deadline, phase)))
        end
  end.

Definition budget_total (start : Instant) (duration : option Duration) : Result HttpBudget NetError :=
  budget_with_phase budget_none start duration TimeoutPhase.Total.

Definition budget_deadline (b : HttpBudget) : option Instant := fst <$> earliest b.

Definition candidate_wins (b : HttpBudget) (deadline : Instant) (phase : TimeoutPhase) : bool :=
  is_none_or (earliest b) (fun current => deadline_le (deadline, phase) current).

(** [TimeoutBudget::expired] *)
Definition budget_expired (b : HttpBudget) (now : Instant) (at_stage : ErrorStage) : option NetError :=
  match earliest b with
  | None => None
  | Some (deadline, phase) =>
      if now <? deadline then None
      else
        let k := if bool_decide (phase = TimeoutPhase.Total) then ErrorKind.DeadlineExceeded else ErrorKind.TimedOut in
        let at_stage := match phase with
                        | TimeoutPhase.Admission => ErrorStage.Admission
                        | TimeoutPhase.Headers => ErrorStage.Response
                        | TimeoutPhase.IdleRead => ErrorStage.Receive
                        | TimeoutPhase.Connect | TimeoutPhase.Attempt | TimeoutPhase.Total => at_stage
                        end in
        Some (with_timeout_phase (with_stage (with_source k (BudgetExpired deadline phase)) at_stage) phase)
  end.

End Timeouts.

(** [timeout_deadline]: the first expiry in the chain of sources. *)
Fixpoint source_deadline (s : ErrorSource) : option (Instant * TimeoutPhase) :=
  match s with
  | BudgetExpired deadline phase => Some (deadline, phase)
  | NetSource _ _ _ (Some s) _ | IoSource _ (Some s) | OtherError _ (Some s) | ClassifiedHttpFailure s _ => source_deadline s
  | _ => None
  end.

Definition timeout_deadline (e : NetError) : option (Instant * TimeoutPhase) :=
  match source e with Some s => source_deadline s | None => None end.

(** ** Theorems *)

Section Theory.
Context {clk : Clock}.

Lemma priority_inj p q : phase_priority p = phase_priority q -> p = q.
Proof. by destruct p, q. Qed.

(** [deadline_le] is a total order. *)
Lemma deadline_le_iff a b :
  deadline_le a b = true <-> a.1 < b.1 \/ (a.1 = b.1 /\ phase_priority a.2 <= phase_priority b.2).
Proof. unfold deadline_le. rewrite orb_true_iff, andb_true_iff, Z.ltb_lt, Z.eqb_eq, Z.leb_le. done. Qed.

Lemma deadline_le_refl a : deadline_le a a = true.
Proof. apply deadline_le_iff. lia. Qed.

Lemma deadline_le_trans a b c : deadline_le a b = true -> deadline_le b c = true -> deadline_le a c = true.
Proof. rewrite !deadline_le_iff. lia. Qed.

Lemma deadline_le_total a b : deadline_le a b = false -> deadline_le b a = true.
Proof. intros H. apply not_true_iff_false in H. rewrite deadline_le_iff in *. lia. Qed.

Lemma deadline_le_antisym a b : deadline_le a b = true -> deadline_le b a = true -> a = b.
Proof.
  destruct a as [d p], b as [d' p']. rewrite !deadline_le_iff. simpl. intros H1 H2.
  assert (d = d') as -> by lia. f_equal. apply priority_inj. lia.
Qed.

(** A phase with its start and its timeout. *)
Definition Limit : Type := Instant * option Duration * TimeoutPhase.

Definition limit_valid (l : Limit) : bool :=
  match l with (start, Some d, _) => negb (d =? 0) && (start + d <=? instant_max) | (_, None, _) => true end.

Definition limit_deadline (l : Limit) : option (Instant * TimeoutPhase) :=
  match l with (start, d, phase) => (fun d => (start + d, phase)) <$> d end.

(** A budget with one phase after another. *)
Definition budget_apply (b : HttpBudget) (ls : list Limit) : Result HttpBudget NetError :=
  foldl (fun r l => match l with (start, d, phase) => let? b := r in budget_with_phase b start d phase end) (Ok b) ls.

(** The smaller of two deadlines. *)
Definition sooner (a b : option (Instant * TimeoutPhase)) : option (Instant * TimeoutPhase) :=
  match a, b with
  | Some a, Some b => if deadline_le a b then Some a else Some b
  | Some a, None => Some a
  | None, b => b
  end.

Lemma with_phase_sooner b start d phase :
  if limit_valid (start, d, phase)
  then budget_with_phase b start d phase = Ok (mkHttpBudget (sooner (earliest b) (limit_deadline (start, d, phase))))
  else is_err (budget_with_phase b start d phase) = true.
Proof.
  unfold limit_valid, budget_with_phase, limit_deadline, instant_checked_add. destruct b as [cur]. destruct d as [d|]; simpl.
  - destruct (d =? 0); simpl; [done|]. destruct (start + d <=? instant_max); simpl; [|done].
    destruct cur as [c|]; simpl; [|done]. by destruct (deadline_le c _).
  - by destruct cur.
Qed.

Lemma apply_err ls : forall e, is_err (foldl (fun r (l : Limit) =>
  match l with (start, d, phase) => let? b := r in budget_with_phase b start d phase end) (Err e) ls) = true.
Proof. induction ls as [|[[start d] phase] ls IH]; intros e; simpl; [done|apply IH]. Qed.

Lemma apply_sooner ls : forall b,
  if forallb limit_valid ls
  then budget_apply b ls = Ok (mkHttpBudget (foldl sooner (earliest b) (limit_deadline <$> ls)))
  else is_err (budget_apply b ls) = true.
Proof.
  induction ls as [|[[start d] phase] ls IH]; intros b; [by destruct b|]. unfold budget_apply in *. cbn [forallb foldl fmap list_fmap].
  pose proof (with_phase_sooner b start d phase) as H. destruct (limit_valid (start, d, phase)); simpl.
  - rewrite H. specialize (IH (mkHttpBudget (sooner (earliest b) (limit_deadline (start, d, phase))))). exact IH.
  - destruct (budget_with_phase b start d phase) as [|e]; [done|]. apply apply_err.
Qed.

(** [sooner] chooses the least deadline. *)
Definition least (o : option (Instant * TimeoutPhase)) (cs : list (Instant * TimeoutPhase)) : Prop :=
  match o with None => cs = [] | Some c => c ∈ cs /\ forall c', c' ∈ cs -> deadline_le c c' = true end.

Lemma least_unique o o' cs cs' : (forall c, c ∈ cs <-> c ∈ cs') -> least o cs -> least o' cs' -> o = o'.
Proof.
  intros Hc. unfold least. destruct o as [c|], o' as [c'|]; intros H1 H2; try done.
  - destruct H1 as [I1 L1], H2 as [I2 L2]. f_equal. apply deadline_le_antisym; [apply L1|apply L2]; by apply Hc.
  - destruct H1 as [I1 _]. apply Hc in I1. rewrite H2 in I1. by apply elem_of_nil in I1.
  - destruct H2 as [I2 _]. apply Hc in I2. rewrite H1 in I2. by apply elem_of_nil in I2.
Qed.

Lemma sooner_least o cs c : least o cs -> least (sooner o c) (cs ++ option_list c).
Proof.
  intros H. destruct c as [c|]; simpl; [|rewrite app_nil_r; by destruct o].
  destruct o as [a|]; simpl in *; [|subst; simpl; split; [by left|]; intros c' ->%list_elem_of_singleton; apply deadline_le_refl].
  destruct H as [Ha Hl]. destruct (deadline_le a c) eqn:E; simpl.
  - split; [by apply elem_of_app; left|]. intros c' [?| ->%list_elem_of_singleton]%elem_of_app; auto.
  - apply deadline_le_total in E. split; [apply elem_of_app; right; by left|].
    intros c' [?| ->%list_elem_of_singleton]%elem_of_app; [|apply deadline_le_refl]. eapply deadline_le_trans; eauto.
Qed.

Lemma foldl_sooner_least ls : forall o cs, least o cs -> least (foldl sooner o ls) (cs ++ omap id ls).
Proof.
  induction ls as [|c ls IH]; intros o cs H; simpl; [by rewrite app_nil_r|].
  specialize (IH _ _ (sooner_least o cs c H)). destruct c as [c|]; simpl in *; [by rewrite <- (assoc_L (++)) in IH|by rewrite app_nil_r in IH].
Qed.

Lemma omap_id_fmap {A B} (f : A -> option B) (l : list A) : omap id (f <$> l) = omap f l.
Proof. induction l as [|x l IH]; [done|]. cbn. destruct (f x); cbn; [f_equal|]; exact IH. Qed.

Lemma apply_least ls b : budget_apply budget_none ls = Ok b -> least (earliest b) (omap limit_deadline ls).
Proof.
  intros H. pose proof (apply_sooner ls budget_none) as Ha. destruct (forallb limit_valid ls); [|by rewrite H in Ha].
  rewrite Ha in H. injection H as <-. simpl. rewrite <- (omap_id_fmap limit_deadline ls). by apply (foldl_sooner_least _ None []).
Qed.

(** C38. The budget of a request is the earliest of its deadlines, whatever the order in which its
    phases were added: a permutation of the same phases gives the same budget, the deadline is one
    of theirs and none of theirs is earlier, a tie goes to the phase of higher priority, and the
    budget has expired exactly when one of the deadlines has passed, with an error that names that
    phase and is [DeadlineExceeded] for the total budget alone. *)
Theorem budget_is_earliest ls ls' b :
  budget_apply budget_none ls = Ok b -> ls ≡ₚ ls' ->
  budget_apply budget_none ls' = Ok b /\ least (earliest b) (omap limit_deadline ls) /\
  (forall now at_stage, is_some (budget_expired b now at_stage) = true <-> exists c, c ∈ omap limit_deadline ls /\ c.1 <= now) /\
  (forall now at_stage e, budget_expired b now at_stage = Some e ->
     http_timeout_phase (econtext e) = snd <$> earliest b /\ timeout_deadline e = earliest b /\
     (kind e = ErrorKind.DeadlineExceeded <-> snd <$> earliest b = Some TimeoutPhase.Total)).
Proof.
  intros Hb Hp. pose proof (apply_least _ _ Hb) as Hl. split_and!; [|done| |].
  - pose proof (apply_sooner ls budget_none) as H1. pose proof (apply_sooner ls' budget_none) as H2.
    assert (forallb limit_valid ls' = true) as Hv.
    { destruct (forallb limit_valid ls) eqn:Ev; [|by rewrite Hb in H1]. apply forallb_forall. intros x Hx. rewrite <- Hp in Hx. by apply (proj1 (forallb_forall _ _) Ev). }
    rewrite Hv in H2. rewrite H2. f_equal.
    assert (foldl sooner (earliest budget_none) (limit_deadline <$> ls') = earliest b) as ->; [|by destruct b].
    pose proof (apply_least ls' _ H2) as Hl'. eapply least_unique; [|exact Hl'|exact Hl]. intros c. by rewrite Hp.
  - intros now at_stage. unfold budget_expired. destruct (earliest b) as [[d p]|]; simpl in Hl.
    + destruct Hl as [Hin Hle]. destruct (Z.ltb_spec now d); simpl; split; try done.
      * intros (c & Hc & Hd). specialize (Hle c Hc). apply deadline_le_iff in Hle. simpl in Hle. lia.
      * intros _. by exists (d, p).
    + rewrite Hl. split; [done|]. by intros (c & ?%elem_of_nil & _).
  - intros now at_stage e. unfold budget_expired, timeout_deadline. destruct (earliest b) as [[d p]|]; [|done].
    destruct (now <? d); [done|]. intros [= <-]. simpl. split_and!; [done|done|]. case_bool_decide; split; congruence.
Qed.

Lemma validate_setting_input now field setting :
  validate_setting now false field setting = Ok tt <-> validate_setting now true field setting = Ok tt.
Proof. unfold validate_setting, http_validate_duration. destruct setting; try done. repeat case_match; done. Qed.

Lemma validate_with_input now t : timeouts_validate_with now false t = Ok tt <-> timeouts_validate_with now true t = Ok tt.
Proof.
  unfold timeouts_validate_with.
  repeat match goal with |- context [validate_setting now false ?f ?s] =>
    let H := fresh in pose proof (validate_setting_input now f s) as H;
    destruct (validate_setting now false f s) as [[]|]; destruct (validate_setting now true f s) as [[]|]; simpl;
    try (by destruct H as [H _]; specialize (H eq_refl)); try (by destruct H as [_ H]; specialize (H eq_refl)); clear H
  end; done.
Qed.

Lemma explicit_resolve d client fallback : setting_resolve (explicit d) client fallback = d.
Proof. by destruct d. Qed.

(** Resolved timeouts are frozen: when they are installed as the overrides of a request they
    resolve to themselves, whatever valid settings the client has by then. *)
Theorem resolved_timeouts_frozen now client request legacy r client' legacy' :
  timeouts_resolve now client request legacy = Ok r ->
  timeouts_validate_with now false client' = Ok tt -> http_validate_duration now legacy' "http.timeout" false = Ok tt ->
  timeouts_resolve now client' (as_overrides r) legacy' = Ok r.
Proof.
  unfold timeouts_resolve at 1. destruct (timeouts_validate_with now false client) as [[]|]; [|done].
  destruct (timeouts_validate_with now true request) as [[]|]; [|done].
  destruct (http_validate_duration now legacy _ _) as [[]|]; [|done].
  destruct (timeouts_validate_with now false (as_overrides _)) as [[]|] eqn:Hv; [|done]. intros [= <-] Hc Hl.
  unfold timeouts_resolve. rewrite Hc, (proj1 (validate_with_input _ _) Hv), Hl.
  cbn [as_overrides set_admission set_headers set_idle_read set_attempt set_total]. rewrite !explicit_resolve.
  cbn [res_admission res_headers res_idle_read res_attempt res_total]. unfold as_overrides in Hv. simpl in Hv. unfold as_overrides. simpl. by rewrite Hv.
Qed.

End Theory.

(** ** Samples *)

#[local] Existing Instance linux_clock.

Definition sample_limits : list Limit := [(0, Some 5, TimeoutPhase.Attempt); (2, Some 3, TimeoutPhase.Total); (1, None, TimeoutPhase.Headers)].

Lemma budget_is_earliest_witness :
  budget_apply budget_none sample_limits = Ok (mkHttpBudget (Some (5, TimeoutPhase.Total))) /\
  budget_apply budget_none (reverse sample_limits) = Ok (mkHttpBudget (Some (5, TimeoutPhase.Total))).
Proof.
  assert (budget_apply budget_none sample_limits = Ok (mkHttpBudget (Some (5, TimeoutPhase.Total)))) as Hb by (vm_compute; reflexivity).
  split; [exact Hb|].
  exact (proj1 (budget_is_earliest sample_limits (reverse sample_limits) _ Hb (symmetry (reverse_Permutation sample_limits)))).
Defined.

Definition sample_client_timeouts : HttpTimeouts := HttpTimeouts_new.

Definition sample_request_timeouts : HttpTimeouts :=
  mkHttpTimeouts TimeoutSetting.Inherit TimeoutSetting.Disabled TimeoutSetting.Inherit (TimeoutSetting.After 7) (TimeoutSetting.After 9).

Definition sample_resolved : ResolvedTimeouts :=
  mkResolvedTimeouts (Some DEFAULT_HTTP_ADMISSION_TIMEOUT) None None (Some 7) (Some 9).

Lemma resolved_timeouts_frozen_witness :
  timeouts_resolve 0 sample_client_timeouts sample_request_timeouts 4 = Ok sample_resolved /\
  timeouts_resolve 0 sample_request_timeouts (as_overrides sample_resolved) 3 = Ok sample_resolved.
Proof.
  assert (timeouts_resolve 0 sample_client_timeouts sample_request_timeouts 4 = Ok sample_resolved) as Hr by (vm_compute; reflexivity).
  split; [exact Hr|].
  apply (resolved_timeouts_frozen 0 sample_client_timeouts sample_request_timeouts 4); [exact Hr|vm_compute; reflexivity|vm_compute; reflexivity].
Defined.
