(* ===== verification/HttpRetry.v ===== *)
(** * Which HTTP failures are retried

    The causes of a failed exchange are errors of other libraries, linked by
    [Error::source] and by the inner error an [io::Error] retains; they are
    walked with a fixed budget (src/module/http/http_failure.rs).  The
    classification of the failure decides, with the policy of the request
    (src/api/http/retry.rs), whether it may be repeated.  Error objects are
    addresses of an [ErrorGraph]. *)

From S2P Require Import Prelude F64 Backoff RetrySchedule RetryState Errors HttpTimeouts.

(** ** Error objects of other libraries *)

(** The kinds of [io::Error] the code names. *)
Module IoErrorKind.
Inductive IoErrorKind :=
| BrokenPipe | ConnectionAborted | ConnectionReset | NotConnected | UnexpectedEof | Other (code : positive).
End IoErrorKind.
Abbreviation IoErrorKind := IoErrorKind.IoErrorKind.

Record HyperFacts := mkHyperFacts { hyper_parse : bool; hyper_incomplete : bool; hyper_aborted : bool }.

(** What a downcast of an error object shows. *)
Record CauseFacts := mkCauseFacts {
  connect_timed_out : option Instant;
  connector_dns : bool;
  proxy_auth_required : bool;
  tunnel_error : bool;
  tls_error : bool;
  hyper_error : option HyperFacts;
  io_error : option IoErrorKind;
}.

Class ErrorGraph := {
  error_source : positive -> option positive;
  io_inner : positive -> option positive;
  cause_facts : positive -> CauseFacts;
  address : NetError -> positive;
}.

(** A [reqwest::Error]. *)
Record ReqwestError := mkReqwestError {
  rq_address : positive;
  is_timeout : bool;
  is_connect : bool;
  is_builder : bool;
  is_redirect : bool;
  is_decode : bool;
  is_request : bool;
  is_body : bool;
}.

(** ** Causes *)

Definition CAUSE_BUDGET : nat := 64.

(** The two arrays of [visit_causes]: what is queued, how many slots of the queue are used up, and
    what was visited. *)
Record Walk := mkWalk { queue : list positive; used : nat; visited : list positive }.

Definition walk_push (w : Walk) (next : option positive) : Walk :=
  match next with
  | None => w
  | Some n =>
      if bool_decide (n ∈ visited w) || bool_decide (n ∈ queue w) then w
      else if (used w <? CAUSE_BUDGET)%nat then mkWalk (queue w ++ [n]) (S (used w)) (visited w) else w
  end.

Module Boundary.
Inductive Boundary := Unknown | Dns | ProxyAuth.
End Boundary.
Abbreviation Boundary := Boundary.Boundary.

#[export] Instance Boundary_eq_dec : EqDecision Boundary.
Proof. solve_decision. Defined.

Record Causes := mkCauses {
  boundary : Boundary;
  c_tls : bool;
  c_tunnel : bool;
  c_protocol : bool;
  c_transport : bool;
  c_hyper : bool;
  body_write_aborted : bool;
  connect_timeout : option Instant;
}.

#[export] Instance Causes_settable : Settable Causes :=
  fields! mkCauses [ boundary; c_tls; c_tunnel; c_protocol; c_transport; c_hyper; body_write_aborted; connect_timeout ].

Definition http_transfer (c : Causes) : bool := c_hyper c && c_transport c && negb (body_write_aborted c).

Module FailureBoundary.
Inductive FailureBoundary := Local (stage : ErrorStage) | Execute | ResponseBody.
End FailureBoundary.
Abbreviation FailureBoundary := FailureBoundary.FailureBoundary.

Definition boundary_stage (b : FailureBoundary) : option ErrorStage :=
  match b with
  | FailureBoundary.Local s => Some s
  | FailureBoundary.Execute => None
  | FailureBoundary.ResponseBody => Some ErrorStage.Receive
  end.

Definition transport_kind (k : IoErrorKind) : bool :=
  match k with IoErrorKind.Other _ => false | _ => true end.

(** What one error object adds. *)
Definition inspect_cause (c : Causes) (f : CauseFacts) : Causes :=
  let c := match connect_timed_out f with
           | Some d => c <| connect_timeout := Some (match connect_timeout c with Some p => Z.min p d | None => d end) |>
           | None => c
           end in
  let c := if bool_decide (boundary c = Boundary.Unknown) then
             if connector_dns f then c <| boundary := Boundary.Dns |>
             else if proxy_auth_required f then c <| boundary := Boundary.ProxyAuth |> else c
           else c in
  let c := c <| c_tunnel ::= (fun b => b || tunnel_error f); c_tls ::= (fun b => b || tls_error f) |> in
  let c := match hyper_error f with
           | Some h => c <| c_hyper := true; c_protocol ::= (fun b => b || hyper_parse h);
                            c_transport ::= (fun b => b || hyper_incomplete h);
                            body_write_aborted ::= (fun b => b || hyper_aborted h) |>
           | None => c
           end in
  match io_error f with Some k => c <| c_transport ::= (fun b => b || transport_kind k) |> | None => c end.

Section Causes.
Context {graph : ErrorGraph}.

(** The loop of [visit_causes]; every turn uses up a slot of the queue. *)
Fixpoint visit_loop (fuel : nat) (w : Walk) : list positive :=
  match fuel with
  | O => visited w
  | S fuel =>
      if (length (visited w) <? CAUSE_BUDGET)%nat then
        match queue w with
        | [] => visited w
        | current :: rest =>
            let w := mkWalk rest (used w) (visited w) in
            if bool_decide (current ∈ visited w) then visit_loop fuel w
            else
              let w := mkWalk rest (used w) (visited w ++ [current]) in
              visit_loop fuel (walk_push (walk_push w (error_source current)) (io_inner current))
        end
      else visited w
  end.

Definition visit_causes (root : positive) : list positive :=
  visit_loop CAUSE_BUDGET (mkWalk [root] 1 []).

Definition inspect_causes (root : positive) : Causes :=
  foldl inspect_cause (mkCauses Boundary.Unknown false false false false false false None) (cause_facts <$> visit_causes root).

Definition connect_timeout_deadline (e : NetError) : option Instant := connect_timeout (inspect_causes (address e)).

(** [classify] *)
Definition http_classify (error : ReqwestError) (at_ : FailureBoundary) : NetError :=
  let causes := inspect_causes (rq_address error) in
  let stage := boundary_stage at_ in
  let is_response_body := match at_ with FailureBoundary.ResponseBody => true | _ => false end in
  let is_execute := match at_ with FailureBoundary.Execute => true | _ => false end in
  let proxy_or_tcp := if c_tunnel causes then ErrorStage.Proxy else ErrorStage.Tcp in
  let '(k, stage, reason) :=
    if is_some (connect_timeout causes)
    then (ErrorKind.TimedOut, Some ErrorStage.Write, RetryReason.Transport TransportErrorKind.Connect)
    else if bool_decide (boundary causes = Boundary.Dns)
    then (ErrorKind.Dns, Some ErrorStage.Dns, RetryReason.Transport TransportErrorKind.Dns)
    else if bool_decide (boundary causes = Boundary.ProxyAuth)
    then (ErrorKind.HttpStatus, Some ErrorStage.Proxy, RetryReason.HttpStatus 407)
    else if c_tls causes
    then (ErrorKind.Tls, Some ErrorStage.Tls, RetryReason.Transport TransportErrorKind.Tls)
    else if is_timeout error then
      let '(stage, reason) :=
        if is_connect error then (Some proxy_or_tcp, TransportErrorKind.Connect)
        else if is_response_body then (stage, TransportErrorKind.ReadReset)
        else (stage, TransportErrorKind.DeliveryUnknown) in
      (ErrorKind.TimedOut, stage, RetryReason.Transport reason)
    else if is_builder error
    then (ErrorKind.InvalidInput, Some ErrorStage.RequestBuild, RetryReason.Application)
    else if is_redirect error || c_protocol causes || (is_decode error && negb (http_transfer causes))
    then (ErrorKind.Protocol, Some ErrorStage.Receive, RetryReason.Transport TransportErrorKind.Protocol)
    else if is_connect error
    then (ErrorKind.Io, Some proxy_or_tcp, RetryReason.Transport TransportErrorKind.Connect)
    else if is_response_body && http_transfer causes
    then (ErrorKind.Io, Some ErrorStage.Receive, RetryReason.BodyRead)
    else if c_transport causes || is_request error || is_body error
    then (ErrorKind.Io, stage, RetryReason.Transport
            (if is_execute then TransportErrorKind.DeliveryUnknown else TransportErrorKind.ReadReset))
    else (ErrorKind.Protocol, stage, RetryReason.Transport TransportErrorKind.Protocol) in
  let context := ErrorContext_default <| Errors.stage := stage |> in
  let context := if is_some (connect_timeout causes) then context <| http_timeout_phase := Some TimeoutPhase.Connect |> else context in
  let context := if bool_decide (boundary causes = Boundary.ProxyAuth) then context <| http_status := Some 407 |> else context in
  with_context (with_source k (ClassifiedHttpFailure (OtherError (rq_address error) None) reason)) context.

Definition map_execute_error (error : ReqwestError) : NetError := http_classify error FailureBoundary.Execute.
Definition map_body_error (error : ReqwestError) : NetError := http_classify error FailureBoundary.ResponseBody.
Definition map_reqwest_error (error : ReqwestError) (s : ErrorStage) : NetError := http_classify error (FailureBoundary.Local s).

(** ** Reasons *)

Definition trusted_kind (k : ErrorKind) : bool :=
  match k with
  | ErrorKind.Io | ErrorKind.Protocol | ErrorKind.Tls | ErrorKind.Dns | ErrorKind.TimedOut | ErrorKind.HttpStatus => true
  | _ => false
  end.

(** The reason of an expired phase of the request. *)
Definition phase_reason (e : NetError) : option RetryReason :=
  match http_timeout_phase (econtext e) with
  | Some TimeoutPhase.IdleRead => Some RetryReason.BodyRead
  | Some TimeoutPhase.Attempt =>
      if bool_decide (stage (econtext e) = Some ErrorStage.Receive) then Some RetryReason.BodyRead
      else Some (RetryReason.Transport TransportErrorKind.ReadReset)
  | Some (TimeoutPhase.Admission | TimeoutPhase.Total) => Some RetryReason.Application
  | Some TimeoutPhase.Headers => Some (RetryReason.Transport TransportErrorKind.ReadReset)
  | Some TimeoutPhase.Connect => Some (RetryReason.Transport TransportErrorKind.Connect)
  | None => None
  end.

(** The reason the causes of an error show. *)
Definition causes_reason (e : NetError) : option RetryReason :=
  match kind e with
  | ErrorKind.Io | ErrorKind.Protocol | ErrorKind.Tls | ErrorKind.Dns =>
      let causes := inspect_causes (address e) in
      match boundary causes with
      | Boundary.Dns => Some (RetryReason.Transport TransportErrorKind.Dns)
      | Boundary.ProxyAuth => Some (RetryReason.HttpStatus 407)
      | Boundary.Unknown =>
          if c_tls causes then Some (RetryReason.Transport TransportErrorKind.Tls)
          else if c_protocol causes then Some (RetryReason.Transport TransportErrorKind.Protocol)
          else None
      end
  | _ => None
  end.

Definition trusted_retry_reason (e : NetError) : option RetryReason :=
  match source e with
  | Some (RedirectSource _) => Some RetryReason.Application
  | _ =>
      if negb (trusted_kind (kind e)) then None
      else
        match (if bool_decide (kind e = ErrorKind.TimedOut) then phase_reason e else None) with
        | Some reason => Some reason
        | None =>
            match source e with
            | Some (ClassifiedHttpFailure _ reason) => Some reason
            | _ => causes_reason e
            end
        end
  end.

Definition fallback_retry_reason (e : NetError) : option RetryReason :=
  match kind e with
  | ErrorKind.Dns => Some (RetryReason.Transport TransportErrorKind.Dns)
  | ErrorKind.Tls => Some (RetryReason.Transport TransportErrorKind.Tls)
  | ErrorKind.DeliveryUnknown | ErrorKind.TimedOut => Some (RetryReason.Transport TransportErrorKind.DeliveryUnknown)
  | ErrorKind.Io =>
      Some (RetryReason.Transport
        match stage (econtext e) with
        | Some ErrorStage.Dns => TransportErrorKind.Dns
        | Some (ErrorStage.Tcp | ErrorStage.Proxy) => TransportErrorKind.Connect
        | Some ErrorStage.Write => TransportErrorKind.Write
        | Some (ErrorStage.Receive | ErrorStage.Response) => TransportErrorKind.BodyRead
        | _ => TransportErrorKind.ReadReset
        end)
  | ErrorKind.Protocol => Some (RetryReason.Transport TransportErrorKind.Protocol)
  | _ => None
  end.

(** ** Policies *)

End Causes.

Module Method.
Inductive Method := GET | POST | PUT | DELETE | HEAD | OPTIONS | CONNECT | PATCH | TRACE | QUERY | Extension (name : string).
End Method.
Abbreviation Method := Method.Method.

#[export] Instance Method_eq_dec : EqDecision Method.
Proof. solve_decision. Defined.

Definition is_idempotent (m : Method) : bool :=
  match m with Method.GET | Method.HEAD | Method.OPTIONS | Method.PUT | Method.DELETE => true | _ => false end.

Module RetryAfterMode.
Inductive RetryAfterMode := Ignore | Respect.
End RetryAfterMode.
Abbreviation RetryAfterMode := RetryAfterMode.RetryAfterMode.

Definition retry_after_select (mode : RetryAfterMode) (server_delay : option Duration) (backoff_delay : Duration) : Duration :=
  match mode, server_delay with
  | RetryAfterMode.Respect, Some delay => Z.max delay backoff_delay
  | _, _ => backoff_delay
  end.

Module RequestSafety.
Inductive RequestSafety := Never | Automatic | IdempotentByContract | IdempotencyKey (key : string).
End RequestSafety.
Abbreviation RequestSafety := RequestSafety.RequestSafety.

Record RetryOn := mkRetryOn {
  statuses : list StatusCode;
  transport : list TransportErrorKind;
  body_read : bool;
  timeout_phases : list TimeoutPhase;
}.

Definition RetryOn_standard : RetryOn :=
  mkRetryOn [408; 425; 429; 500; 502; 503; 504]
    [TransportErrorKind.Dns; TransportErrorKind.Connect; TransportErrorKind.TimeoutBeforeSend; TransportErrorKind.ReadReset;
     TransportErrorKind.BodyRead] true [].

Definition RetryOn_none : RetryOn := mkRetryOn [] [] false [].

(** [Admission] and [Total] are terminal. *)
Definition terminal_phase (phase : TimeoutPhase) : bool :=
  match phase with TimeoutPhase.Admission | TimeoutPhase.Total => true | _ => false end.

Definition with_timeout_phases (r : RetryOn) (phases : list TimeoutPhase) : RetryOn :=
  mkRetryOn (statuses r) (transport r) (body_read r) (filter (fun phase => terminal_phase phase = false) phases).

Definition retry_on_allows (r : RetryOn) (reason : RetryReason) : bool :=
  match reason with
  | RetryReason.HttpStatus status => bool_decide (status ∈ statuses r)
  | RetryReason.Transport k => bool_decide (k ∈ transport r)
  | RetryReason.BodyRead => body_read r
  | RetryReason.Application | RetryReason.RetryAfter => false
  end.

Record HttpResponse := mkHttpResponse {
  rp_status : StatusCode;
  rp_headers : HeaderMap;
  rp_body : string;
  rp_attempts : Z;
  rp_request_id : Z;
  rp_retry_report : option RetryReport;
}.

#[export] Instance HttpResponse_settable : Settable HttpResponse :=
  fields! mkHttpResponse [ rp_status; rp_headers; rp_body; rp_attempts; rp_request_id; rp_retry_report ].

Abbreviation HttpResult := (Result HttpResponse NetError) (only parsing).

Record HttpRetryContext := mkHttpRetryContext {
  hc_outcome : HttpResult;
  hc_attempt : Z;
  hc_elapsed : Duration;
  hc_remaining : option Duration;
}.

(** A classifier is a function of the application; it may panic. *)
Record HttpRetryPolicy := mkHttpRetryPolicy {
  hr_schedule : RetrySchedule;
  hr_retry_on : RetryOn;
  hr_retry_after : RetryAfterMode;
  hr_safety : RequestSafety;
  hr_observer : bool;
  hr_classifier : option (HttpRetryContext -> option RetryDecision);
}.

Definition HttpRetryPolicy_no_retry : HttpRetryPolicy :=
  mkHttpRetryPolicy no_retry RetryOn_none RetryAfterMode.Ignore RequestSafety.Automatic false None.

(** [HttpRetryPolicyBuilder::build] *)
Definition http_policy_build (p : HttpRetryPolicy) : Result HttpRetryPolicy RetryConfigError :=
  match hr_safety p with
  | RequestSafety.IdempotencyKey EmptyString => Err (RetryConfigError_new "http.retry.safety" "idempotency key must not be empty")
  | _ => Ok p
  end.

Definition policy_classify (p : HttpRetryPolicy) (c : HttpRetryContext) : Result RetryDecision NetError :=
  match hr_classifier p with
  | None => Ok RetryDecision.Default
  | Some classifier =>
      match classifier c with
      | Some decision => Ok decision
      | None => Err (with_stage (NetError_new ErrorKind.ProviderFailed) ErrorStage.Provider)
      end
  end.

Definition allows_method (p : HttpRetryPolicy) (m : Method) (replayable_body : bool) : bool :=
  replayable_body &&
  match hr_safety p with
  | RequestSafety.Never => false
  | RequestSafety.Automatic => is_idempotent m
  | RequestSafety.IdempotentByContract | RequestSafety.IdempotencyKey _ => true
  end.

Definition should_retry_status (p : HttpRetryPolicy) (status : StatusCode) : bool :=
  bool_decide (status ∈ statuses (hr_retry_on p)).

(** [HttpRetryPolicy::should_retry_error] *)
Definition http_should_retry_error {graph : ErrorGraph} (p : HttpRetryPolicy) (e : NetError) : bool :=
  match http_timeout_phase (econtext e) with
  | Some phase => if terminal_phase phase then false else bool_decide (phase ∈ timeout_phases (hr_retry_on p))
  | None =>
      is_some_and (option_or (trusted_retry_reason e) (fallback_retry_reason e)) (fun reason =>
        retry_on_allows (hr_retry_on p) reason ||
        (bool_decide (reason = RetryReason.BodyRead) && bool_decide (TransportErrorKind.BodyRead ∈ transport (hr_retry_on p))))
  end.

Definition retry_reason_for_error {graph : ErrorGraph} (e : NetError) : RetryReason :=
  default RetryReason.Application (option_or (trusted_retry_reason e) (fallback_retry_reason e)).

(** ** Errors that end the operation (src/module/http/http_client_inner.rs) *)

(** Is there a redirect decision among the next [hops] sources? *)
Fixpoint redirect_source (hops : nat) (s : option ErrorSource) : bool :=
  match hops with
  | O => false
  | S hops =>
      match s with
      | None => false
      | Some (RedirectSource _) => true
      | Some s => redirect_source hops (source_of s)
      end
  end.

Definition retry_error_is_eligible (e : NetError) : bool :=
  match http_timeout_phase (econtext e) with
  | Some (TimeoutPhase.Admission | TimeoutPhase.Total) => false
  | _ =>
      match kind e with
      | ErrorKind.Cancelled | ErrorKind.DeadlineExceeded | ErrorKind.InvalidInput | ErrorKind.InvalidConfig
      | ErrorKind.InvalidPolicy | ErrorKind.BodyNotReplayable | ErrorKind.ProviderFailed | ErrorKind.Internal
      | ErrorKind.QueueClosed => false
      | _ => negb (redirect_source 32 (source e))
      end
  end.

Definition stop_for_error (e : NetError) : RetryStopReason :=
  match kind e with
  | ErrorKind.Cancelled => RetryStopReason.Cancelled
  | ErrorKind.TimedOut | ErrorKind.DeadlineExceeded => RetryStopReason.TimedOut
  | ErrorKind.QueueClosed => RetryStopReason.Shutdown
  | ErrorKind.ProviderFailed | ErrorKind.Internal => RetryStopReason.PolicyFailed
  | _ => RetryStopReason.NotRetryable
  end.

(** ** The walk *)

Section Walk.
Context {graph : ErrorGraph}.

(** The links of error objects. *)
Definition cause_edge (a b : positive) : Prop := error_source a = Some b \/ io_inner a = Some b.

Record walk_ok (root : positive) (w : Walk) : Prop := {
  walk_distinct : NoDup (queue w ++ visited w);
  walk_used : used w = length (queue w ++ visited w);
  walk_budget : (used w <= CAUSE_BUDGET)%nat;
  walk_reached : Forall (rtc cause_edge root) (queue w ++ visited w);
  walk_root : root ∈ queue w ++ visited w;
}.

(** What the links of a visited error lead to was taken in, unless the budget is used up. *)
Definition walk_closed (w : Walk) : Prop :=
  forall a b, a ∈ visited w -> cause_edge a b -> b ∈ queue w ++ visited w \/ used w = CAUSE_BUDGET.

Lemma walk_push_visited w next : visited (walk_push w next) = visited w.
Proof. destruct next as [n|]; simpl; [|done]. by repeat case_match. Qed.

Lemma walk_push_mono w next x :
  (x ∈ queue w ++ visited w \/ used w = CAUSE_BUDGET) ->
  (used w <= CAUSE_BUDGET)%nat ->
  x ∈ queue (walk_push w next) ++ visited (walk_push w next) \/ used (walk_push w next) = CAUSE_BUDGET.
Proof.
  intros H Hle. destruct next as [n|]; simpl; [|done].
  destruct (_ || _); [done|]. destruct (Nat.ltb_spec (used w) CAUSE_BUDGET) as [Hlt|Hge]; simpl; [|done].
  destruct H as [H|H]; [left|lia]. set_solver.
Qed.

Lemma walk_push_takes w n :
  (used w <= CAUSE_BUDGET)%nat ->
  n ∈ queue (walk_push w (Some n)) ++ visited (walk_push w (Some n)) \/ used (walk_push w (Some n)) = CAUSE_BUDGET.
Proof.
  intros Hle. simpl. destruct (bool_decide (n ∈ visited w)) eqn:Hv; simpl.
  - apply bool_decide_eq_true in Hv. left. set_solver.
  - destruct (bool_decide (n ∈ queue w)) eqn:Hq.
    + apply bool_decide_eq_true in Hq. left. set_solver.
    + destruct (Nat.ltb_spec (used w) CAUSE_BUDGET); simpl; [left; set_solver|right; lia].
Qed.

Lemma walk_push_ok root w next :
  walk_ok root w -> (forall n, next = Some n -> rtc cause_edge root n) -> walk_ok root (walk_push w next).
Proof.
  intros [Hd Hu Hb Hr Hroot] Hn. destruct next as [n|]; simpl; [|by constructor].
  destruct (bool_decide (n ∈ visited w)) eqn:Hv; simpl; [by constructor|].
  destruct (bool_decide (n ∈ queue w)) eqn:Hq; [by constructor|].
  apply bool_decide_eq_false in Hv, Hq.
  destruct (Nat.ltb_spec (used w) CAUSE_BUDGET) as [Hlt|]; [|by constructor].
  assert (Hp : (queue w ++ [n]) ++ visited w ≡ₚ n :: (queue w ++ visited w)) by solve_Permutation.
  constructor; simpl.
  - rewrite Hp. constructor; [set_solver|done].
  - rewrite Hp. simpl. by rewrite Hu.
  - lia.
  - rewrite Hp. constructor; [by apply Hn|done].
  - rewrite Hp. by right.
Qed.

(** A turn of the loop: the next error is visited and its links are queued. *)
Lemma walk_turn root w current rest :
  walk_ok root w -> walk_closed w -> queue w = current :: rest ->
  let w' := walk_push (walk_push (mkWalk rest (used w) (visited w ++ [current])) (error_source current)) (io_inner current) in
  (current ∉ visited w) /\ walk_ok root w' /\ walk_closed w' /\ length (visited w') = S (length (visited w)).
Proof.
  intros Hok Hcl Hq. pose proof Hok as [Hd Hu Hb Hr Hroot]. rewrite Hq in Hd, Hu, Hr, Hroot.
  set (w0 := mkWalk rest (used w) (visited w ++ [current])).
  assert (Hp : queue w0 ++ visited w0 ≡ₚ (current :: rest) ++ visited w) by (simpl; solve_Permutation).
  assert (Hreach : rtc cause_edge root current) by (by inversion Hr).
  assert (Hok0 : walk_ok root w0).
  { by constructor; rewrite ?Hp. }
  assert (Hok1 : walk_ok root (walk_push w0 (error_source current))).
  { apply walk_push_ok; [done|]. intros n ?. eapply rtc_r; [done|]. by left. }
  assert (Hok2 : walk_ok root (walk_push (walk_push w0 (error_source current)) (io_inner current))).
  { apply walk_push_ok; [done|]. intros n ?. eapply rtc_r; [done|]. by right. }
  split; [|split; [done|split]].
  - apply NoDup_cons in Hd as [Hn _]. set_solver.
  - intros a b Ha Hab. rewrite !walk_push_visited in Ha. simpl in Ha.
    apply elem_of_app in Ha as [Ha| ->%list_elem_of_singleton].
    + apply walk_push_mono; [|apply Hok1]. apply walk_push_mono; [|apply Hok0].
      destruct (Hcl a b Ha Hab) as [H|H]; [left|by right]. rewrite Hp. by rewrite Hq in H.
    + destruct Hab as [Hab|Hab].
      * apply walk_push_mono; [|apply Hok1]. rewrite Hab. apply walk_push_takes, Hok0.
      * rewrite Hab. apply walk_push_takes, Hok1.
  - rewrite !walk_push_visited. simpl. rewrite length_app. simpl. lia.
Qed.

Lemma visit_loop_spec root fuel w :
  walk_ok root w -> walk_closed w -> (CAUSE_BUDGET <= fuel + length (visited w))%nat ->
  exists w', walk_ok root w' /\ walk_closed w' /\ visit_loop fuel w = visited w' /\
    (queue w' = [] \/ length (visited w') = CAUSE_BUDGET).
Proof.
  revert w. induction fuel as [|fuel IH]; intros w Hok Hcl Hfuel.
  all: assert (Hlen : (length (visited w) <= CAUSE_BUDGET)%nat)
    by (destruct Hok as [_ Hu Hb _ _]; rewrite length_app in Hu; lia).
  - exists w. split_and!; [done..|]. right. lia.
  - simpl. destruct (Nat.ltb_spec (length (visited w)) CAUSE_BUDGET).
    2: { exists w. split_and!; [done..|]. right. lia. }
    destruct (queue w) as [|current rest] eqn:Hq.
    { exists w. split_and!; [done..|]. by left. }
    destruct (walk_turn root w current rest Hok Hcl Hq) as (Hn & Hok' & Hcl' & Hlen').
    simpl. rewrite bool_decide_eq_false_2 by done. apply IH; [done..|]. lia.
Qed.

Lemma visit_causes_walk root :
  exists w, walk_ok root w /\ walk_closed w /\ visit_causes root = visited w /\
    (queue w = [] \/ length (visited w) = CAUSE_BUDGET).
Proof.
  apply visit_loop_spec.
  - constructor; simpl; [apply NoDup_singleton|done|unfold CAUSE_BUDGET; lia|by repeat constructor|set_solver].
  - intros a b Ha. by apply not_elem_of_nil in Ha.
  - cbn [visited length]. lia.
Qed.

End Walk.

(** The walk over the causes of an error ends, whatever cycles the error objects have, and
    visits no object twice, at most [CAUSE_BUDGET] objects, and only objects that the links lead to;
    it misses one that the links lead to only when the whole budget was visited. *)
Theorem visit_causes_complete {graph : ErrorGraph} root :
  NoDup (visit_causes root) /\
  (length (visit_causes root) <= CAUSE_BUDGET)%nat /\
  Forall (rtc cause_edge root) (visit_causes root) /\
  forall n, rtc cause_edge root n -> n ∈ visit_causes root \/ length (visit_causes root) = CAUSE_BUDGET.
Proof.
  destruct (visit_causes_walk root) as (w & Hok & Hcl & Hrun & Hend). rewrite Hrun. destruct Hok as [Hd Hu Hb Hr Hroot].
  apply NoDup_app in Hd as (_ & _ & Hd). apply Forall_app in Hr as [_ Hr].
  rewrite length_app in Hu. split_and!; [done|lia|done|].
  intros n Hn. destruct Hend as [Hq|Hfull]; [|by right].
  destruct (decide (used w = CAUSE_BUDGET)) as [Hfull|Hfree].
  { right. rewrite Hq in Hu. simpl in Hu. lia. }
  left. rewrite Hq in Hroot. simpl in Hroot. clear Hd Hr.
  assert (Hgen : forall a b, rtc cause_edge a b -> a ∈ visited w -> b ∈ visited w).
  { induction 1 as [|a c b Hac _ IH]; intros Ha; [done|]. apply IH.
    destruct (Hcl a c Ha Hac) as [H|H]; [by rewrite Hq in H|done]. }
  by apply (Hgen root).
Qed.

(** ** Classification *)

Lemma inspect_cause_dns c f :
  boundary (inspect_cause c f) = Boundary.Dns -> boundary c = Boundary.Dns \/ connector_dns f = true.
Proof.
  intros H. destruct c as [b ? ? ? ? ? ? t], f as [t' d a u s h i].
  destruct t', h as [[]|], i; destruct b, d, a; simpl in *; first [done | by left | by right].
Qed.

Lemma inspect_fold_dns fs c :
  boundary (foldl inspect_cause c fs) = Boundary.Dns ->
  boundary c = Boundary.Dns \/ Exists (fun f => connector_dns f = true) fs.
Proof.
  revert c. induction fs as [|f fs IH]; intros c H; [by left|]. simpl in H.
  destruct (IH _ H) as [Hb|He]; [|right; by constructor].
  destruct (inspect_cause_dns _ _ Hb); [by left|right; by constructor].
Qed.

Lemma inspect_dns {graph : ErrorGraph} root :
  boundary (inspect_causes root) = Boundary.Dns ->
  exists n, n ∈ visit_causes root /\ connector_dns (cause_facts n) = true.
Proof.
  unfold inspect_causes. intros [Hb|He]%inspect_fold_dns; [done|].
  apply Exists_exists in He as (f & Hf & Hd). apply list_elem_of_fmap in Hf as (n & -> & Hn). by exists n.
Qed.

Lemma visited_reached {graph : ErrorGraph} root n : n ∈ visit_causes root -> rtc cause_edge root n.
Proof.
  destruct (visit_causes_walk root) as (w & Hok & _ & Hrun & _). rewrite Hrun. destruct Hok as [_ _ _ Hr _]. intros Hn.
  rewrite Forall_forall in Hr. apply Hr. set_solver.
Qed.

(** A closed decision that evaluates to [false]. *)
Local Ltac refute := intros H; vm_compute in H; discriminate H.

(** C26. With the standard rules an exchange that failed before its response is repeated only on
    evidence that no request was delivered: the transport reports that it did not connect, or a
    resolver failure is among the causes.  A failure that leaves the delivery open is never repeated. *)
Theorem standard_retry_needs_evidence {graph : ErrorGraph} (p : HttpRetryPolicy) (e : ReqwestError) :
  hr_retry_on p = RetryOn_standard -> http_should_retry_error p (map_execute_error e) = true ->
  is_connect e = true \/ exists n, rtc cause_edge (rq_address e) n /\ connector_dns (cause_facts n) = true.
Proof.
  intros Hp. destruct (is_connect e) eqn:Hc; [by left|].
  destruct (decide (boundary (inspect_causes (rq_address e)) = Boundary.Dns)) as [Hd|Hd].
  { intros _. right. apply inspect_dns in Hd as (n & Hn & ?). exists n. split; [by apply visited_reached|done]. }
  intros H. exfalso. revert H. unfold http_should_retry_error, map_execute_error, http_classify. rewrite Hp, Hc.
  destruct (inspect_causes (rq_address e)) as [b tls tunnel protocol transport hyper aborted timeout]. simpl in *.
  destruct b; simpl; [|done|destruct timeout; refute]. destruct timeout; [refute|].
  destruct tls; [refute|]. destruct (is_timeout e); [refute|]. destruct (is_builder e); [refute|].
  destruct (_ || protocol || _); [refute|]. destruct (_ || is_body e); refute.
Qed.

(** A deadline of the whole request and a refused redirect end the operation under every
    policy: neither the rules nor the eligibility of the error let it be repeated. *)
Theorem terminal_failures_final {graph : ErrorGraph} (p : HttpRetryPolicy) (e : NetError) :
  is_some_and (http_timeout_phase (econtext e)) terminal_phase = true \/
  (http_timeout_phase (econtext e) = None /\ exists r, source e = Some (RedirectSource r)) ->
  http_should_retry_error p e = false /\ retry_error_is_eligible e = false.
Proof.
  intros [H|[H (r & Hs)]].
  - unfold http_should_retry_error, retry_error_is_eligible.
    destruct (http_timeout_phase (econtext e)) as [[]|]; first [discriminate H | split; reflexivity].
  - unfold http_should_retry_error, retry_error_is_eligible, trusted_retry_reason. rewrite H, Hs.
    split; [reflexivity|]. destruct (kind e); reflexivity.
Qed.

(** An error of the transport that wraps a resolver error, with a link back to its start. *)
#[export] Instance sample_graph : ErrorGraph := {
  error_source n := match n with 1%positive => Some 2%positive | 2%positive => Some 1%positive | _ => None end;
  io_inner n := match n with 2%positive => Some 3%positive | _ => None end;
  cause_facts n := mkCauseFacts None (bool_decide (n = 3%positive)) false false false None None;
  address _ := 9%positive;
}.

Definition standard_policy : HttpRetryPolicy :=
  mkHttpRetryPolicy no_retry RetryOn_standard RetryAfterMode.Respect RequestSafety.Automatic false None.

Definition dns_failure : ReqwestError := mkReqwestError 1 false false false false false true false.

Lemma standard_retry_needs_evidence_witness :
  http_should_retry_error standard_policy (map_execute_error dns_failure) = true /\
  (is_connect dns_failure = true \/
   exists n, rtc cause_edge (rq_address dns_failure) n /\ connector_dns (cause_facts n) = true).
Proof.
  split; [vm_compute; reflexivity|]. apply (standard_retry_needs_evidence standard_policy); vm_compute; reflexivity.
Defined.

Definition total_expired : NetError :=
  with_context (NetError_new ErrorKind.TimedOut) (ErrorContext_default <| http_timeout_phase := Some TimeoutPhase.Total |>).

Lemma terminal_failures_final_witness :
  http_should_retry_error standard_policy total_expired = false /\ retry_error_is_eligible total_expired = false.
Proof. apply (terminal_failures_final standard_policy). left. vm_compute. reflexivity. Defined.
