(* ===== verification/HttpConfig.v ===== *)
(** * Configuration of the HTTP client, its headers and its redirects

    [HttpClientConfig] with its validation, the merge of headers and the
    resolution of request paths (src/api/http/http_config.rs), the redirect
    policy (src/api/http/redirect.rs), the headers an authentication
    provider may write (src/api/http/auth.rs), the limits of cookies
    (src/api/http/cookies.rs) and the HTTP/2 policy and tuning
    (src/api/http/http2.rs).  URLs are values of another
    library, the class [Urls]; text is a list of Unicode scalar values.  A
    header map lists its entries with their names in lower case.  The fields
    of middleware and of the quality diagnosis are left out, and so is the
    validation of the latter. *)

From S2P Require Import Prelude F64 Backoff RetrySchedule RetryState Errors HttpTimeouts HttpRetry.

(** ** Text *)

Abbreviation Text := (list Z) (only parsing).

Definition is_control (c : Z) : bool := (c <=? 31) || ((127 <=? c) && (c <=? 159)).

(** [char::is_whitespace] *)
Definition is_whitespace (c : Z) : bool :=
  ((9 <=? c) && (c <=? 13)) || bool_decide (c ∈ [32; 133; 160; 5760; 8232; 8233; 8239; 8287; 12288]) ||
  ((8192 <=? c) && (c <=? 8202)).

Fixpoint trim_start (t : Text) : Text :=
  match t with
  | c :: rest => if is_whitespace c then trim_start rest else t
  | [] => []
  end.

Definition trim (t : Text) : Text := reverse (trim_start (reverse (trim_start t))).

Definition utf8_len (c : Z) : Z := if c <? 128 then 1 else if c <? 2048 then 2 else if c <? 65536 then 3 else 4.

(** [str::len] *)
Definition text_len (t : Text) : Z := foldr (fun c n => utf8_len c + n) 0 t.

Definition contains (t : Text) (c : Z) : bool := existsb (Z.eqb c) t.

Definition SLASH : Z := 47.
Definition BACKSLASH : Z := 92.
Definition AT_SIGN : Z := 64.
Definition QUESTION : Z := 63.
Definition HASH : Z := 35.
Definition COLON : Z := 58.

Fixpoint after_scheme (t : Text) : option Text :=
  match t with
  | [] => None
  | c :: rest =>
      match rest with
      | a :: b :: tail => if (c =? COLON) && (a =? SLASH) && (b =? SLASH) then Some tail else after_scheme rest
      | _ => None
      end
  end.

(** What follows, and includes, the first slash. *)
Fixpoint from_slash (t : Text) : option Text :=
  match t with
  | [] => None
  | c :: rest => if c =? SLASH then Some t else from_slash rest
  end.

(** ** URLs *)

Class Urls := {
  Url : Type;
  Origin : Type;
  Origin_eq_dec :: EqDecision Origin;
  url_parse : Text -> option Url;
  url_join : Url -> Text -> option Url;
  without_fragment : Url -> Url;
  scheme : Url -> string;
  host_str : Url -> option string;
  port_or_known_default : Url -> option Z;
  username : Url -> string;
  password : Url -> option string;
  url_path : Url -> string;
  url_query : Url -> option string;
  url_fragment : Url -> option string;
  origin : Url -> Origin;
  (** [HeaderValue::to_str] *)
  header_str : HeaderValue -> option Text;
}.

(** The origin of an HTTP URL is its scheme, its host and its port. *)
Class UrlLaws {urls : Urls} : Prop := {
  origin_tuple : forall a b, scheme a ∈ ["http"; "https"]%string ->
    scheme a = scheme b -> host_str a = host_str b -> port_or_known_default a = port_or_known_default b ->
    origin a = origin b;
}.

(** ** Headers *)

Definition header_get (h : HeaderMap) (name : string) : option HeaderValue :=
  snd <$> List.find (fun e => bool_decide (e.1 = name)) h.

Definition header_get_all (h : HeaderMap) (name : string) : HeaderMap := filter (fun e => e.1 = name) h.

Definition header_remove (h : HeaderMap) (name : string) : HeaderMap := filter (fun e => e.1 <> name) h.

Definition header_append (h : HeaderMap) (name : string) (value : HeaderValue) : HeaderMap := h ++ [(name, value)].

Definition header_insert (h : HeaderMap) (name : string) (value : HeaderValue) : HeaderMap :=
  header_append (header_remove h name) name value.

(** The distinct names, in the order of their first entries. *)
Definition header_keys (h : HeaderMap) : list string :=
  foldl (fun names e => if bool_decide (e.1 ∈ names) then names else names ++ [e.1]) [] h.

Definition is_hop_by_hop (name : string) : bool :=
  bool_decide (name ∈ ["connection"; "keep-alive"; "proxy-connection"; "proxy-authenticate"; "proxy-authorization"; "te";
    "trailer"; "transfer-encoding"; "upgrade"; "host"; "content-length"]%string).

(** [auth::is_forbidden_header] *)
Definition is_forbidden_header (name : string) : bool :=
  String.prefix "proxy-" name ||
  bool_decide (name ∈ ["host"; "connection"; "content-length"; "transfer-encoding"; "upgrade"; "te"; "trailer"; "keep-alive";
    "proxy-connection"; "proxy-authenticate"; "proxy-authorization"]%string).

(** [AuthRequestContext::set_header] *)
Definition set_header (h : HeaderMap) (name : string) (value : HeaderValue) : Result HeaderMap NetError :=
  if is_forbidden_header name
  then Err (with_stage (NetError_input "auth.header" "cannot override an SDK-managed HTTP header") ErrorStage.Provider)
  else Ok (header_insert h name (mkHeaderValue (hv_text value) true)).

(** [strip_sensitive_headers] *)
Definition CREDENTIAL_HEADERS : list string :=
  ["authorization"; "cookie"; "proxy-authorization"; "www-authenticate"; "host"; "cookie2"]%string.

Definition strip_sensitive_headers (h : HeaderMap) : HeaderMap :=
  let names := fst <$> filter (fun e => hv_sensitive e.2 = true) h in
  foldl header_remove (foldl header_remove h names) CREDENTIAL_HEADERS.

Definition invalid_config (field : string) : NetError :=
  with_stage (NetError_config field "invalid HTTP client configuration") ErrorStage.Configuration.

Fixpoint validate_names (names : list string) : Result () NetError :=
  match names with
  | [] => Ok tt
  | name :: rest => if is_hop_by_hop name then Err (invalid_config "headers") else validate_names rest
  end.

Definition validate_headers (h : HeaderMap) : Result () NetError := validate_names (header_keys h).

(** ** Limits of cookies *)

Record CookieLimits := mkCookieLimits {
  max_cookies : Z;
  max_cookie_bytes : Z;
  max_set_cookie_bytes : Z;
  max_cookie_header_bytes : Z;
}.

Definition CookieLimits_default : CookieLimits := mkCookieLimits 1024 (16 * 1024) (64 * 1024) (64 * 1024).

Definition cookie_limits_validate (l : CookieLimits) : Result () NetError :=
  let invalid field := Err (NetError_config field "must be greater than zero") in
  if max_cookies l =? 0 then invalid "cookie_limits.max_cookies"%string
  else if max_cookie_bytes l =? 0 then invalid "cookie_limits.max_cookie_bytes"%string
  else if max_set_cookie_bytes l =? 0 then invalid "cookie_limits.max_set_cookie_bytes"%string
  else if max_cookie_header_bytes l =? 0 then invalid "cookie_limits.max_cookie_header_bytes"%string
  else Ok tt.

(** ** HTTP/2 *)

Module HttpVersionPolicy.
Inductive HttpVersionPolicy := Auto | Http1Only | Http2Only.
End HttpVersionPolicy.
Abbreviation HttpVersionPolicy := HttpVersionPolicy.HttpVersionPolicy.

#[export] Instance HttpVersionPolicy_eq_dec : EqDecision HttpVersionPolicy.
Proof. solve_decision. Defined.

Definition MAX_HTTP2_WINDOW : Z := 2 ^ 31 - 1.
Definition MIN_HTTP2_FRAME : Z := 16384.
Definition MAX_HTTP2_FRAME : Z := 16777215.

Record Http2KeepAlive := mkHttp2KeepAlive { h2_interval : Duration; h2_timeout : Duration; h2_while_idle : bool }.

Record Http2Config := mkHttp2Config {
  h2_adaptive_window : bool;
  h2_initial_stream_window : option Z;
  h2_initial_connection_window : option Z;
  h2_max_frame_size : option Z;
  h2_max_header_list_size : option Z;
  h2_keep_alive : option Http2KeepAlive;
}.

Definition Http2Config_default : Http2Config := mkHttp2Config false None None None None None.

Definition invalid_http2_config (field : string) : NetError :=
  with_stage (NetError_config field "invalid HTTP/2 configuration") ErrorStage.Configuration.

(** [Http2Config::validate] *)
Definition http2_validate (h : Http2Config) : Result () NetError :=
  let window value := (value =? 0) || (MAX_HTTP2_WINDOW <? value) in
  if is_some_and (h2_initial_stream_window h) window then Err (invalid_http2_config "http2.initial_stream_window")
  else if is_some_and (h2_initial_connection_window h) window then Err (invalid_http2_config "http2.initial_connection_window")
  else if is_some_and (h2_max_frame_size h) (fun value => negb ((MIN_HTTP2_FRAME <=? value) && (value <=? MAX_HTTP2_FRAME)))
  then Err (invalid_http2_config "http2.max_frame_size")
  else if is_some_and (h2_max_header_list_size h) (fun value => value =? 0) then Err (invalid_http2_config "http2.max_header_list_size")
  else if is_some_and (h2_keep_alive h) (fun value => (h2_interval value =? 0) || (h2_timeout value =? 0))
  then Err (invalid_http2_config "http2.keep_alive")
  else Ok tt.

(** ** Redirect policies *)

Module HttpTransportSecurity.
Inductive HttpTransportSecurity := PreventDowngrade | HttpsOnly.
End HttpTransportSecurity.
Abbreviation HttpTransportSecurity := HttpTransportSecurity.HttpTransportSecurity.

#[export] Instance HttpTransportSecurity_eq_dec : EqDecision HttpTransportSecurity.
Proof. solve_decision. Defined.

Definition DEFAULT_MAX_REDIRECTS : Z := 10.
Definition MAX_REDIRECTS : Z := 128.
Definition MAX_ALLOWED_ORIGINS : Z := 128.
Definition MAX_ORIGIN_BYTES : Z := 2048.

Definition invalid_policy (field : string) : NetError :=
  with_stage (NetError_config field "invalid HTTP redirect policy") ErrorStage.Configuration.

Section Redirects.
Context {urls : Urls}.

Record RedirectPolicy := mkRedirectPolicy {
  enabled : bool;
  allowed_origins : list Url;
  max_redirects : Z;
}.

Definition RedirectPolicy_none : RedirectPolicy := mkRedirectPolicy false [] DEFAULT_MAX_REDIRECTS.
Definition RedirectPolicy_same_origin : RedirectPolicy := mkRedirectPolicy true [] DEFAULT_MAX_REDIRECTS.

Definition http_scheme (u : Url) : bool := bool_decide (scheme u = "http"%string) || bool_decide (scheme u = "https"%string).

(** [parse_origin] *)
Definition parse_origin (value : Text) : Result Url NetError :=
  let invalid := invalid_policy "http.redirect.allowed_origins" in
  if (MAX_ORIGIN_BYTES <? text_len value) || negb (bool_decide (trim value = value)) || existsb is_control value ||
     existsb (contains value) [BACKSLASH; AT_SIGN; QUESTION; HASH]
  then Err invalid
  else
    let? authority_and_path := ok_or (after_scheme value) invalid in
    if is_some_and (from_slash authority_and_path) (fun path => negb (bool_decide (path = [SLASH]))) then Err invalid
    else
      let? parsed := ok_or (url_parse value) invalid in
      if negb (http_scheme parsed) || is_none (host_str parsed) || negb (bool_decide (username parsed = ""%string)) ||
         is_some (password parsed) || negb (bool_decide (url_path parsed = "/"%string)) || is_some (url_query parsed) ||
         is_some (url_fragment parsed)
      then Err invalid
      else Ok parsed.

Fixpoint allow_origins_loop (policy : RedirectPolicy) (origins : list Text) : Result RedirectPolicy NetError :=
  match origins with
  | [] => Ok policy
  | value :: rest =>
      let? parsed := parse_origin value in
      if existsb (fun allowed => bool_decide (origin allowed = origin parsed)) (allowed_origins policy)
      then allow_origins_loop policy rest
      else if MAX_ALLOWED_ORIGINS <=? Z.of_nat (length (allowed_origins policy))
      then Err (invalid_policy "http.redirect.allowed_origins")
      else allow_origins_loop (mkRedirectPolicy (enabled policy) (allowed_origins policy ++ [parsed]) (max_redirects policy)) rest
  end.

Definition allow_origins (origins : list Text) : Result RedirectPolicy NetError :=
  allow_origins_loop RedirectPolicy_same_origin origins.

Definition with_max_redirects (policy : RedirectPolicy) (n : Z) : Result RedirectPolicy NetError :=
  if negb ((1 <=? n) && (n <=? MAX_REDIRECTS)) then Err (invalid_policy "http.redirect.max_redirects")
  else Ok (mkRedirectPolicy (enabled policy) (allowed_origins policy) n).

(** [RedirectPolicy::check_redirect] *)
Definition check_redirect (policy : RedirectPolicy) (original_url current_url next_url : Url) (followed : Z)
    (security : HttpTransportSecurity) : Result () HttpRedirectError :=
  if negb (http_scheme next_url) || is_none (host_str next_url) || negb (bool_decide (username next_url = ""%string)) ||
     is_some (password next_url)
  then Err HttpRedirectError.InvalidLocation
  else if negb (bool_decide (scheme next_url = "https"%string)) &&
          (bool_decide (security = HttpTransportSecurity.HttpsOnly) || bool_decide (scheme current_url = "https"%string))
  then Err HttpRedirectError.InsecureTarget
  else if negb (bool_decide (origin next_url = origin original_url)) &&
          negb (existsb (fun allowed => bool_decide (origin allowed = origin next_url)) (allowed_origins policy))
  then Err HttpRedirectError.OriginNotAllowed
  else if max_redirects policy <=? followed then Err HttpRedirectError.TooManyRedirects
  else Ok tt.

(** ** The configuration *)

Record HttpClientConfig := mkHttpClientConfig {
  base_url : Url;
  common_headers : HeaderMap;
  timeout : Duration;
  cfg_connect_timeout : option Duration;
  timeouts : HttpTimeouts;
  redirect_policy : RedirectPolicy;
  transport_security : HttpTransportSecurity;
  tcp_keepalive : option Duration;
  max_response_bytes : Z;
  request_queue_capacity : Z;
  response_queue_capacity : Z;
  callback_queue_capacity : Z;
  default_retry_policy : HttpRetryPolicy;
  auth : bool;
  cookie_store : bool;
  cookie_limits : CookieLimits;
  http_version_policy : HttpVersionPolicy;
  http2 : Http2Config;
}.

Definition validate_queue_capacity (max_permits capacity : Z) (field : string) : Result () NetError :=
  if (capacity =? 0) || (max_permits <? capacity) then Err (invalid_config field) else Ok tt.

(** [HttpClientConfig::validate] *)
Definition config_validate {clk : Clock} (now : Instant) (max_permits : Z) (c : HttpClientConfig) : Result () NetError :=
  if negb (http_scheme (base_url c)) || is_none (host_str (base_url c)) then Err (invalid_config "base_url")
  else if negb (bool_decide (username (base_url c) = ""%string)) || is_some (password (base_url c)) ||
          is_some (url_fragment (base_url c))
  then Err (invalid_config "base_url")
  else if bool_decide (transport_security c = HttpTransportSecurity.HttpsOnly) &&
          negb (bool_decide (scheme (base_url c) = "https"%string))
  then Err (invalid_config "http.transport_security")
  else
    let? _ := http_validate_duration now (timeout c) "http.timeout" false in
    let? _ := match cfg_connect_timeout c with
              | Some timeout => http_validate_duration now timeout "http.connect_timeout" false
              | None => Ok tt
              end in
    let? _ := timeouts_validate_with now false (timeouts c) in
    if is_some_and (tcp_keepalive c) (fun d => d =? 0) then Err (invalid_config "tcp_keepalive")
    else if max_response_bytes c =? 0 then Err (invalid_config "max_response_bytes")
    else
      let? _ := validate_queue_capacity max_permits (request_queue_capacity c) "request_queue_capacity" in
      let? _ := validate_queue_capacity max_permits (response_queue_capacity c) "response_queue_capacity" in
      let? _ := validate_queue_capacity max_permits (callback_queue_capacity c) "callback_queue_capacity" in
      let? _ := cookie_limits_validate (cookie_limits c) in
      let? _ := http2_validate (http2 c) in
      if bool_decide (http_version_policy c = HttpVersionPolicy.Http2Only) && negb (bool_decide (scheme (base_url c) = "https"%string))
      then Err (invalid_config "http_version_policy")
      else validate_headers (common_headers c).

(** [HttpClientConfig::merge_headers] *)
Definition merge_headers {clk : Clock} (now : Instant) (max_permits : Z) (c : HttpClientConfig) (request_headers : HeaderMap) :
    Result HeaderMap NetError :=
  let? _ := config_validate now max_permits c in
  let? _ := validate_headers request_headers in
  Ok (foldl (fun merged name => header_remove merged name ++ header_get_all request_headers name)
        (common_headers c) (header_keys request_headers)).

Definition invalid_request_path : NetError :=
  with_stage (NetError_input "request.path" "must be a safe relative path") ErrorStage.RequestBuild.

(** [HttpClientConfig::resolve_request_path] *)
Definition resolve_request_path (c : HttpClientConfig) (path : Text) : Result Url NetError :=
  let path := trim path in
  if bool_decide (path = []) || bool_decide ([SLASH; SLASH] `prefix_of` path) || bool_decide ([BACKSLASH] `prefix_of` path) ||
     contains path BACKSLASH || contains path HASH || existsb is_control path
  then Err invalid_request_path
  else if is_some_and (url_parse path) (fun parsed => negb (bool_decide (scheme parsed = ""%string)) || is_some (host_str parsed))
  then Err invalid_request_path
  else
    let? joined := ok_or (url_join (base_url c) path) invalid_request_path in
    if negb (bool_decide (scheme joined = scheme (base_url c))) || negb (bool_decide (host_str joined = host_str (base_url c))) ||
       negb (bool_decide (port_or_known_default joined = port_or_known_default (base_url c))) ||
       negb (bool_decide (username joined = ""%string)) || is_some (password joined) || is_some (url_fragment joined)
    then Err invalid_request_path
    else Ok joined.

End Redirects.

(** ** Headers *)

Lemma get_all_app h k name : header_get_all (h ++ k) name = header_get_all h name ++ header_get_all k name.
Proof. apply filter_app. Qed.

Lemma get_all_remove h name name' :
  header_get_all (header_remove h name) name' = if bool_decide (name' = name) then [] else header_get_all h name'.
Proof.
  unfold header_get_all, header_remove. rewrite list_filter_filter. case_bool_decide as Hn.
  - subst. induction h as [|e h IH]; [done|]. rewrite filter_cons_False; [done|]. by intros [? ?].
  - apply list_filter_iff. intros e. split; [by intros [? _]|]. intros ?. split; [done|congruence].
Qed.

Lemma get_all_get_all h name name' :
  header_get_all (header_get_all h name) name' = if bool_decide (name' = name) then header_get_all h name' else [].
Proof.
  unfold header_get_all. rewrite list_filter_filter. case_bool_decide as Hn.
  - subst. apply list_filter_iff. naive_solver.
  - induction h as [|e h IH]; [done|]. rewrite filter_cons_False; [done|]. intros [? ?]. congruence.
Qed.

Lemma header_keys_elem h name : name ∈ header_keys h <-> name ∈ (fst <$> h).
Proof.
  unfold header_keys. cut (forall names, name ∈ foldl (fun names e => if bool_decide (e.1 ∈ names) then names else names ++ [e.1]) names h <->
    name ∈ names \/ name ∈ (fst <$> h)).
  { intros ->. set_solver. }
  induction h as [|e h IH]; intros names; simpl; [set_solver|]. rewrite IH. case_bool_decide; set_solver.
Qed.

Lemma validate_names_ok names : validate_names names = Ok tt <-> Forall (fun name => is_hop_by_hop name = false) names.
Proof.
  induction names as [|name names IH]; simpl; [split; [constructor|done]|].
  rewrite Forall_cons. destruct (is_hop_by_hop name); [split; [done|by intros [? _]]|]. rewrite IH. naive_solver.
Qed.

Lemma get_all_nil h name : name ∉ (fst <$> h) -> header_get_all h name = [].
Proof.
  intros Hn. unfold header_get_all. induction h as [|e h IH]; [done|]. simpl in Hn.
  rewrite filter_cons_False; [apply IH|]; set_solver.
Qed.

Lemma merge_fold_get_all (request : HeaderMap) names (merged : HeaderMap) name :
  header_get_all (foldl (fun merged name => header_remove merged name ++ header_get_all request name) merged names) name =
  if bool_decide (name ∈ names) then header_get_all request name else header_get_all merged name.
Proof.
  revert merged. induction names as [|n names IH]; intros merged; [done|]. cbn [foldl].
  rewrite IH, get_all_app, get_all_remove, get_all_get_all.
  destruct (decide (name ∈ names)) as [Hin|Hin].
  { rewrite (bool_decide_eq_true_2 (name ∈ names)), (bool_decide_eq_true_2 (name ∈ n :: names)) by set_solver. done. }
  rewrite (bool_decide_eq_false_2 (name ∈ names)) by done. destruct (decide (name = n)) as [->|Hn].
  - rewrite (bool_decide_eq_true_2 (n = n)), (bool_decide_eq_true_2 (n ∈ n :: names)) by set_solver. done.
  - rewrite (bool_decide_eq_false_2 (name = n)), (bool_decide_eq_false_2 (name ∈ n :: names)) by set_solver.
    by rewrite app_nil_r.
Qed.

Lemma get_all_elem h name value : (name, value) ∈ h <-> (name, value) ∈ header_get_all h name.
Proof. unfold header_get_all. rewrite list_elem_of_filter. naive_solver. Qed.

(** What is kept of a header map by [strip_sensitive_headers]. *)
Lemma remove_fold_elem names h e : e ∈ foldl header_remove h names <-> e ∈ h /\ e.1 ∉ names.
Proof.
  revert h. induction names as [|n names IH]; intros h; simpl; [set_solver|].
  rewrite IH. unfold header_remove. rewrite list_elem_of_filter. set_solver.
Qed.

Definition credential_free (h : HeaderMap) : Prop :=
  forall e, e ∈ h -> hv_sensitive e.2 = false /\ e.1 ∉ CREDENTIAL_HEADERS.

Lemma strip_credential_free h : credential_free (strip_sensitive_headers h).
Proof.
  intros e. unfold strip_sensitive_headers. rewrite !remove_fold_elem. intros [[He Hs] Hc].
  split; [|done]. destruct (hv_sensitive e.2) eqn:Hv; [|done]. exfalso. apply Hs.
  apply list_elem_of_fmap. exists e. split; [done|]. by apply list_elem_of_filter.
Qed.

Lemma remove_credential_free h name : credential_free h -> credential_free (header_remove h name).
Proof. intros H e He. apply H. unfold header_remove in He. by apply list_elem_of_filter in He as [_ ?]. Qed.

(** The headers of a request replace those of the client name by name: a name the request
    gives has exactly the values of the request, in their order, and any other name exactly those
    of the client; no header that governs a connection is ever among them. *)
Theorem merge_headers_exact {urls : Urls} {clk : Clock} now max_permits (c : HttpClientConfig) request merged :
  merge_headers now max_permits c request = Ok merged ->
  (forall name, header_get_all merged name =
     if bool_decide (name ∈ header_keys request) then header_get_all request name else header_get_all (common_headers c) name) /\
  Forall (fun e => is_hop_by_hop e.1 = false) merged.
Proof.
  unfold merge_headers. destruct (config_validate now max_permits c) as [[]|] eqn:Hc; [|done].
  destruct (validate_headers request) as [[]|] eqn:Hr; [|done]. intros [= <-].
  set (merged := foldl _ _ _).
  assert (Hall : forall name, header_get_all merged name =
    if bool_decide (name ∈ header_keys request) then header_get_all request name else header_get_all (common_headers c) name)
    by (intros name; apply merge_fold_get_all).
  split; [done|]. apply validate_names_ok in Hr.
  assert (Hcc : Forall (fun name => is_hop_by_hop name = false) (header_keys (common_headers c))).
  { apply validate_names_ok. revert Hc. clear. unfold config_validate, validate_headers. repeat (case_match; try done). }
  apply Forall_forall. intros [name value] He. simpl.
  apply get_all_elem in He. rewrite Hall in He. case_bool_decide as Hk; [by apply (proj1 (Forall_forall _ _) Hr)|].
  apply (proj1 (Forall_forall _ _) Hcc), header_keys_elem, list_elem_of_fmap. exists (name, value). split; [done|]. by apply get_all_elem.
Qed.

(** C37. A request path never leaves the server it was configured for: whatever text the request
    gives, the URL it is resolved to has the origin of the base URL, no credentials and no
    fragment. *)
Theorem request_path_confined {urls : Urls} {laws : UrlLaws} {clk : Clock} now max_permits (c : HttpClientConfig) path url :
  config_validate now max_permits c = Ok tt -> resolve_request_path c path = Ok url ->
  origin url = origin (base_url c) /\ username url = ""%string /\ password url = None /\ url_fragment url = None.
Proof.
  intros Hc Hp. assert (Hs : http_scheme (base_url c) = true).
  { revert Hc. unfold config_validate. by destruct (http_scheme (base_url c)). }
  revert Hp. unfold resolve_request_path. destruct (_ || existsb is_control _); [done|].
  destruct (is_some_and _ _); [done|]. destruct (url_join _ _) as [joined|]; simpl; [|done].
  destruct (_ || is_some (url_fragment joined)) eqn:Hg; [done|]. intros [= <-].
  rewrite !orb_false_iff, !negb_false_iff, !bool_decide_eq_true in Hg.
  destruct Hg as [[[[[Hsch Hh] Hport] Hu] Hpw] Hf].
  split_and!; [|done|by destruct (password joined)|by destruct (url_fragment joined)].
  apply origin_tuple; [|done..]. rewrite Hsch. unfold http_scheme in Hs.
  apply orb_true_iff in Hs as [Hs|Hs]; apply bool_decide_eq_true in Hs; rewrite Hs; set_solver.
Qed.

(** ** A concrete instance *)

Definition ascii_of (t : Text) : string := String.string_of_list_ascii ((fun c => Ascii.ascii_of_N (Z.to_N c)) <$> t).

Definition text_of (s : string) : Text := (fun c => Z.of_N (Ascii.N_of_ascii c)) <$> String.list_ascii_of_string s.

(** URLs of a scheme, a host and a path, with the scheme's port. *)
Record PlainUrl := mkPlainUrl { pu_scheme : string; pu_host : string; pu_path : string }.

Definition host_part (t : Text) : Text := match from_slash t with Some tail => take (length t - length tail) t | None => t end.

Definition plain_parse (t : Text) : option PlainUrl :=
  rest ← after_scheme t;
  Some (mkPlainUrl (ascii_of (take (length t - length rest - 3) t)) (ascii_of (host_part rest))
    (ascii_of (default [SLASH] (from_slash rest)))).

Definition plain_port (u : PlainUrl) : option Z :=
  if bool_decide (pu_scheme u = "https"%string) then Some 443 else if bool_decide (pu_scheme u = "http"%string) then Some 80 else None.

#[export] Instance plain_urls : Urls := {
  Url := PlainUrl;
  Origin := string * string;
  url_parse := plain_parse;
  url_join u t := match plain_parse t with Some v => Some v | None => Some (mkPlainUrl (pu_scheme u) (pu_host u) (ascii_of t)) end;
  without_fragment u := u;
  scheme := pu_scheme;
  host_str u := Some (pu_host u);
  port_or_known_default := plain_port;
  username _ := ""%string;
  password _ := None;
  url_path := pu_path;
  url_query _ := None;
  url_fragment _ := None;
  origin u := (pu_scheme u, pu_host u);
  header_str v := Some (text_of (hv_text v));
}.

#[export] Instance plain_laws : UrlLaws (urls := plain_urls).
Proof.
  constructor. intros a b _ Hs Hh _. simpl in *. injection Hh as Hh. congruence.
Qed.

Definition sample_max_permits : Z := 2 ^ 61 - 1.

Definition sample_config : HttpClientConfig :=
  mkHttpClientConfig (mkPlainUrl "https" "api.example" "/") [("accept"%string, mkHeaderValue "text/plain" false); ("x-trace"%string, mkHeaderValue "client" false)]
    (from_secs 30) None HttpTimeouts_new
    (mkRedirectPolicy true [mkPlainUrl "https" "cdn.example" "/"] 2) HttpTransportSecurity.PreventDowngrade None 100 4 4 4
    standard_policy true true CookieLimits_default HttpVersionPolicy.Auto Http2Config_default.

Definition sample_headers : HeaderMap :=
  [("x-trace"%string, mkHeaderValue "request" false); ("authorization"%string, mkHeaderValue "secret" true);
   ("x-trace"%string, mkHeaderValue "again" false)].

Lemma merge_headers_exact_witness :
  merge_headers (clk := linux_clock) 0 sample_max_permits sample_config sample_headers =
    Ok [("accept"%string, mkHeaderValue "text/plain" false); ("x-trace"%string, mkHeaderValue "request" false);
        ("x-trace"%string, mkHeaderValue "again" false); ("authorization"%string, mkHeaderValue "secret" true)] /\
  forall merged, merge_headers (clk := linux_clock) 0 sample_max_permits sample_config sample_headers = Ok merged ->
    header_get_all merged "x-trace" = header_get_all sample_headers "x-trace".
Proof.
  split; [vm_compute; reflexivity|]. intros merged H.
  destruct (merge_headers_exact (clk := linux_clock) 0 sample_max_permits sample_config sample_headers merged H) as [Hall _].
  rewrite Hall. vm_compute. reflexivity.
Defined.

Lemma request_path_confined_witness :
  resolve_request_path sample_config (text_of "v1/items") = Ok (mkPlainUrl "https" "api.example" "v1/items") /\
  origin (mkPlainUrl "https" "api.example" "v1/items") = origin (base_url sample_config).
Proof.
  split; [vm_compute; reflexivity|].
  apply (request_path_confined (clk := linux_clock) 0 sample_max_permits sample_config (text_of "v1/items")); vm_compute; reflexivity.
Defined.
