(* ===== verification/RetryAfter.v ===== *)
(** * The [Retry-After] header

    src/module/http/retry_after.rs: a number of seconds, an HTTP date, or a
    date in the older forms of mail headers, which is rewritten to an HTTP date
    and handed to the parser of the [httpdate] library, the class [HttpDates].
    A time of the system clock is its distance in nanoseconds from the start of
    1970. *)

From S2P Require Import Prelude F64 Backoff RetrySchedule RetryState Errors HttpTimeouts HttpRetry HttpConfig.

(** ** Text *)

Definition is_ascii_digit (c : Z) : bool := (48 <=? c) && (c <=? 57).

Definition to_ascii_lowercase (c : Z) : Z := if (65 <=? c) && (c <=? 90) then c + 32 else c.

Definition eq_ignore_ascii_case (a b : Text) : bool := bool_decide ((to_ascii_lowercase <$> a) = (to_ascii_lowercase <$> b)).

Definition digits_value (t : Text) : Z := foldl (fun n c => n * 10 + (c - 48)) 0 t.

(** [str::parse] of an unsigned integer up to [max]. *)
Definition parse_unsigned (max : Z) (t : Text) : option Z :=
  let digits := match t with 43 :: rest => rest | _ => t end in
  if bool_decide (digits = []) || negb (forallb is_ascii_digit digits) then None
  else if digits_value digits <=? max then Some (digits_value digits) else None.

Fixpoint split_once (sep : Z) (t : Text) : option (Text * Text) :=
  match t with
  | [] => None
  | c :: rest => if c =? sep then Some ([], rest) else (fun p => (c :: p.1, p.2)) <$> split_once sep rest
  end.

(** [str::split] *)
Fixpoint split (sep : Z) (t : Text) : list Text :=
  match t with
  | [] => [[]]
  | c :: rest =>
      if c =? sep then [] :: split sep rest
      else match split sep rest with part :: parts => (c :: part) :: parts | [] => [[c]] end
  end.

Definition is_ascii_whitespace (c : Z) : bool := bool_decide (c ∈ [9; 10; 12; 13; 32]).

Definition strip_suffix (suffix : Z) (t : Text) : option Text :=
  match reverse t with c :: rest => if c =? suffix then Some (reverse rest) else None | [] => None end.

Definition trim_end (t : Text) : Text := reverse (trim_start (reverse t)).

(** [str::split_ascii_whitespace]; [word] is the word being read. *)
Fixpoint words_loop (t word : Text) : list Text :=
  match t with
  | [] => if bool_decide (word = []) then [] else [word]
  | c :: rest =>
      if is_ascii_whitespace c then (if bool_decide (word = []) then words_loop rest [] else word :: words_loop rest [])
      else words_loop rest (word ++ [c])
  end.

Definition split_ascii_whitespace (t : Text) : list Text := words_loop t [].

(** The decimal digits of [n], at least [width] of them; [fuel] bounds their number. *)
Fixpoint decimal_loop (fuel : nat) (n : Z) : Text :=
  match fuel with
  | O => []
  | S fuel => if n <? 10 then [n + 48] else decimal_loop fuel (n / 10) ++ [n mod 10 + 48]
  end.

Definition print_decimal (n : Z) : Text := decimal_loop 20 n.

Definition padded (width : nat) (n : Z) : Text :=
  let digits := print_decimal n in replicate (width - length digits) 48 ++ digits.

(** ** Dates *)

Definition WEEKDAYS : list Text := text_of <$> ["Mon"; "Tue"; "Wed"; "Thu"; "Fri"; "Sat"; "Sun"]%string.

Definition MONTHS : list Text :=
  text_of <$> ["Jan"; "Feb"; "Mar"; "Apr"; "May"; "Jun"; "Jul"; "Aug"; "Sep"; "Oct"; "Nov"; "Dec"]%string.

Definition canonical (value : Text) (names : list Text) : option Text := List.find (eq_ignore_ascii_case value) names.

Definition decimal (value : Text) : option Z :=
  if bool_decide (value = []) || negb (forallb is_ascii_digit value) then None else parse_unsigned u16_max value.

Definition compatible_year (value : Text) : option Z :=
  year ← decimal value;
  match length value with
  | 2%nat => if year <? 50 then Some (year + 2000) else Some (year + 1900)
  | 3%nat => Some (year + 1900)
  | 4%nat => Some year
  | _ => None
  end.

Definition two_digits (value : Text) : option Z := if (length value =? 2)%nat then decimal value else None.

Definition clock_time (value : Text) : option (Z * Z * Z) :=
  match split COLON value with
  | h :: m :: rest =>
      hour ← two_digits h;
      minute ← two_digits m;
      match rest with
      | [] => Some (hour, minute, 0)
      | [s] => second ← two_digits s; Some (hour, minute, second)
      | _ => None
      end
  | _ => None
  end.

Definition ZONES : list (Text * Z) :=
  (fun z => (text_of z.1, z.2)) <$>
  [("GMT"%string, 0); ("UT"%string, 0); ("UTC"%string, 0); ("EST"%string, -5); ("EDT"%string, -4); ("CST"%string, -6);
   ("CDT"%string, -5); ("MST"%string, -7); ("MDT"%string, -6); ("PST"%string, -8); ("PDT"%string, -7)].

Definition timezone_offset (value : Text) : option Z :=
  match List.find (fun z => eq_ignore_ascii_case value z.1) ZONES with
  | Some z => Some (z.2 * 3600)
  | None =>
      signed ← match value with
               | 43 :: rest => Some (true, rest)
               | 45 :: rest => Some (false, rest)
               | _ => None
               end;
      let '(positive, value) := signed in
      if negb (text_len value =? 4) then None
      else
        digits ← decimal value;
        let hours := digits / 100 in
        let minutes := digits mod 100 in
        if (24 <=? hours) || (60 <=? minutes) then None
        else let seconds := hours * 3600 + minutes * 60 in Some (if positive : bool then seconds else - seconds)
  end.

Definition without_simple_comment (value : Text) : option Text :=
  match split_once 40 value with
  | Some (date, comment) =>
      comment ← strip_suffix 41 comment;
      if existsb (contains comment) [40; 41; BACKSLASH] then None else Some (trim_end date)
  | None => Some value
  end.

(** The text handed to the parser of HTTP dates. *)
Definition http_date (weekday : Text) (day : Z) (month : Text) (year hour minute second : Z) : Text :=
  weekday ++ text_of ", " ++ padded 2 day ++ text_of " " ++ month ++ text_of " " ++ padded 4 year ++ text_of " " ++
  padded 2 hour ++ text_of ":" ++ padded 2 minute ++ text_of ":" ++ padded 2 second ++ text_of " GMT".

Definition div_ceil (a b : Z) : Z := (a + b - 1) / b.

(** The parser of the [httpdate] library, and the range of the system clock. *)
Class HttpDates := {
  parse_http_date : Text -> option Z;
  system_min : Z;
  system_max : Z;
}.

Section Dates.
Context {dates : HttpDates}.

Definition system_checked_add (t d : Z) : option Z := if t + d <=? system_max then Some (t + d) else None.
Definition system_checked_sub (t d : Z) : option Z := if system_min <=? t - d then Some (t - d) else None.

Definition parse_compatible_date (value : Text) : option Z :=
  value ← without_simple_comment value;
  split ← match split_once 44 value with
          | Some (weekday, rest) => weekday ← canonical (trim weekday) WEEKDAYS; Some (Some weekday, rest)
          | None => Some (None, value)
          end;
  let '(weekday, value) := split in
  match split_ascii_whitespace value with
  | [day_text; month_text; year_text; time_text; zone_text] =>
      if negb ((1 <=? text_len day_text) && (text_len day_text <=? 2)) then None
      else
        day ← decimal day_text;
        month ← canonical month_text MONTHS;
        year ← compatible_year year_text;
        '(hour, minute, second) ← clock_time time_text;
        let leap_second := second =? 60 in
        let second := if leap_second then 59 else second in
        offset ← timezone_offset zone_text;
        let cycles := if year <? 1970 then div_ceil (1970 - year) 400 else 0 in
        let validation_year := year + cycles * 400 in
        let validate := fun weekday => parse_http_date (http_date weekday day month validation_year hour minute second) in
        local ← match weekday with
                | Some weekday => validate weekday
                | None => head (omap validate WEEKDAYS)
                end;
        local ← system_checked_sub local (from_secs (cycles * 146097 * 86400));
        local ← system_checked_add local (from_secs (if leap_second then 1 else 0));
        let offset_duration := from_secs (Z.abs offset) in
        if 0 <=? offset then system_checked_sub local offset_duration else system_checked_add local offset_duration
  | _ => None
  end.

(** [parse_retry_after_at] *)
Definition parse_retry_after_at {urls : Urls} (headers : HeaderMap) (now : Z) : option Duration :=
  value ← header_get headers "retry-after";
  text ← header_str value;
  let value := trim text in
  match parse_unsigned u64_max value with
  | Some seconds => Some (from_secs seconds)
  | None => date ← option_or (parse_http_date value) (parse_compatible_date value); Some (Z.max 0 (date - now))
  end.

End Dates.

(** ** Numbers *)

Lemma digits_value_app a c : digits_value (a ++ [c]) = digits_value a * 10 + (c - 48).
Proof. unfold digits_value. by rewrite foldl_app. Qed.

Lemma decimal_loop_spec fuel n :
  0 <= n < 10 ^ Z.of_nat fuel -> (0 < fuel)%nat ->
  digits_value (decimal_loop fuel n) = n /\ Forall (fun c => is_ascii_digit c = true) (decimal_loop fuel n) /\
  decimal_loop fuel n <> [].
Proof.
  revert n. induction fuel as [|fuel IH]; intros n Hn Hf; [lia|]. simpl.
  destruct (Z.ltb_spec n 10).
  { split_and!; [unfold digits_value; simpl; lia| |done]. constructor; [|done]. unfold is_ascii_digit. lia. }
  rewrite Nat2Z.inj_succ, Z.pow_succ_r in Hn by lia.
  assert (0 < fuel)%nat by (destruct fuel; [simpl in Hn; lia|lia]).
  destruct (IH (n / 10)) as (Hv & Hd & _); [split; [apply Z.div_pos; lia|apply Z.div_lt_upper_bound; lia]|done|].
  pose proof (Z.mod_pos_bound n 10). split_and!.
  - rewrite digits_value_app, Hv. pose proof (Z.div_mod n 10). lia.
  - apply Forall_app. split; [done|]. constructor; [|done]. unfold is_ascii_digit. lia.
  - by destruct (decimal_loop fuel (n / 10)).
Qed.

Lemma digit_not_whitespace c : is_ascii_digit c = true -> is_whitespace c = false.
Proof.
  unfold is_ascii_digit. rewrite andb_true_iff, !Z.leb_le. intros [? ?]. unfold is_whitespace.
  rewrite !orb_false_iff, bool_decide_eq_false. split_and!; [lia| |lia]. rewrite !elem_of_cons, elem_of_nil. lia.
Qed.

Lemma trim_start_digits t : Forall (fun c => is_ascii_digit c = true) t -> trim_start t = t.
Proof. destruct 1 as [|c t Hc]; [done|]. simpl. by rewrite digit_not_whitespace. Qed.

Lemma trim_digits t : Forall (fun c => is_ascii_digit c = true) t -> trim t = t.
Proof.
  intros H. unfold trim. rewrite (trim_start_digits t) by done. rewrite trim_start_digits by by apply Forall_reverse.
  apply reverse_involutive.
Qed.

Lemma parse_print_decimal n : 0 <= n <= u64_max -> parse_unsigned u64_max (print_decimal n) = Some n.
Proof.
  intros Hn. destruct (decimal_loop_spec 20 n) as (Hv & Hd & Hne); [unfold u64_max in Hn; lia|lia|].
  fold (print_decimal n) in Hv, Hd, Hne. unfold parse_unsigned.
  assert (Hplus : match print_decimal n with 43 :: rest => rest | _ => print_decimal n end = print_decimal n).
  { destruct Hd as [|c t Hc _]; [done|]. unfold is_ascii_digit in Hc.
    apply andb_true_iff in Hc as [Hc _]. apply Z.leb_le in Hc. by repeat case_match. }
  rewrite Hplus, bool_decide_eq_false_2 by done. rewrite (proj2 (forallb_forall _ _)).
  2: { intros c Hc. by apply (proj1 (Forall_forall _ _) Hd), list_elem_of_In. }
  simpl. rewrite Hv. destruct (Z.leb_spec n u64_max); [done|lia].
Qed.

(** Every number of seconds a server can ask for arrives as it was written: a [Retry-After]
    header with the decimal digits of a 64-bit number is a delay of exactly that many seconds, and
    no date is tried. *)
Theorem retry_after_seconds {urls : Urls} {dates : HttpDates} headers value now n :
  0 <= n <= u64_max -> header_get headers "retry-after" = Some value -> header_str value = Some (print_decimal n) ->
  parse_retry_after_at headers now = Some (from_secs n).
Proof.
  intros Hn Hh Hs. unfold parse_retry_after_at. rewrite Hh. simpl. rewrite Hs. simpl.
  rewrite trim_digits, parse_print_decimal; [done|done|].
  apply (decimal_loop_spec 20 n); [unfold u64_max in Hn; lia|lia].
Qed.

(** The zones of a mail header. *)
Definition numeric_zone (positive : bool) (h m : Z) : Text := (if positive then 43 else 45) :: padded 2 h ++ padded 2 m.

Definition zone_exact (h m : nat) : bool :=
  let seconds := Z.of_nat h * 3600 + Z.of_nat m * 60 in
  bool_decide (timezone_offset (numeric_zone true (Z.of_nat h) (Z.of_nat m)) = Some seconds) &&
  bool_decide (timezone_offset (numeric_zone false (Z.of_nat h) (Z.of_nat m)) = Some (- seconds)).

(** Every numeric zone that a day has is read as its distance from Greenwich. *)
Lemma timezone_offset_numeric positive h m :
  0 <= h < 24 -> 0 <= m < 60 ->
  timezone_offset (numeric_zone positive h m) = Some (if positive then h * 3600 + m * 60 else - (h * 3600 + m * 60)).
Proof.
  intros Hh Hm. assert (Hall : forallb (fun h => forallb (zone_exact h) (seq 0 60)) (seq 0 24) = true) by (vm_compute; reflexivity).
  rewrite forallb_forall in Hall. specialize (Hall (Z.to_nat h)). rewrite forallb_forall in Hall.
  specialize (fun H => Hall H (Z.to_nat m)). unfold zone_exact in Hall. rewrite !Z2Nat.id in Hall by lia.
  rewrite andb_true_iff, !bool_decide_eq_true in Hall. destruct Hall as [Hp Hn]; [apply in_seq; lia..|].
  by destruct positive.
Qed.

(** A parser that knows no date. *)
Definition no_dates : HttpDates := {| parse_http_date _ := None; system_min := 0; system_max := 2 ^ 63 * NANOS_PER_SEC |}.

Definition wait_headers : HeaderMap := [("retry-after"%string, mkHeaderValue "18446744073709551615" false)].

Lemma retry_after_seconds_witness :
  parse_retry_after_at (dates := no_dates) wait_headers 5 = Some (from_secs u64_max).
Proof.
  apply (retry_after_seconds (dates := no_dates) wait_headers (mkHeaderValue "18446744073709551615" false));
    [unfold u64_max; lia|vm_compute; reflexivity..].
Defined.
