(* ===== verification/HttpCookies.v ===== *)
(** * Cookies of an HTTP client

    The cookie jar (src/api/http/cookies.rs) and the calls of a cookie store
    around an exchange (src/module/http/cookie_hooks.rs).  A jar is the list of
    its cookies in the order of their creation, which is the table behind its
    lock; every operation is one lock scope.  Parsing of [Set-Cookie] values,
    hosts and the public suffix list are those of other libraries, the class
    [CookieLibs].  The clock of the system is in seconds; [set_response_cookies]
    reads it once per cookie, so its readings are the function [times].  The
    decoding of a serialized snapshot is left out. *)

From S2P Require Import Prelude F64 Backoff RetrySchedule RetryState Errors HttpTimeouts HttpRetry HttpConfig.

(** ** Strings *)

Definition str_len (s : string) : Z := Z.of_nat (String.length s).

Fixpoint strip_prefix (p s : string) : option string :=
  match p, s with
  | EmptyString, _ => Some s
  | String a p, String b s => if bool_decide (a = b) then strip_prefix p s else None
  | String _ _, EmptyString => None
  end.

Fixpoint str_strip_suffix (p s : string) : option string :=
  if bool_decide (s = p) then Some EmptyString
  else match s with String a s => String a <$> str_strip_suffix p s | EmptyString => None end.

Definition starts_with (s p : string) : bool := is_some (strip_prefix p s).
Definition ends_with (s p : string) : bool := is_some (str_strip_suffix p s).

Fixpoint all_bytes (p : Z -> bool) (s : string) : bool :=
  match s with
  | EmptyString => true
  | String a s => p (Z.of_nat (Ascii.nat_of_ascii a)) && all_bytes p s
  end.

Definition between (a b c : Z) : bool := (a <=? c) && (c <=? b).

(** [u8::is_ascii_alphanumeric] *)
Definition is_ascii_alphanumeric (c : Z) : bool := between 48 57 c || between 65 90 c || between 97 122 c.

(** ** Other libraries *)

Module SameSite.
Inductive SameSite := Strict | Lax | None_.
End SameSite.
Abbreviation SameSite := SameSite.SameSite.

#[export] Instance SameSite_eq_dec : EqDecision SameSite.
Proof. solve_decision. Defined.

(** A host; addresses are as they are printed. *)
Module Host.
Inductive Host := Domain (name : string) | Ipv4 (address : string) | Ipv6 (address : string).
End Host.
Abbreviation Host := Host.Host.

(** The domain [cookie_store] gives a cookie; [NoDomain] stands for its other cases. *)
Module CookieDomain.
Inductive CookieDomain := HostOnly (domain : string) | Suffix (domain : string) | NoDomain.
End CookieDomain.
Abbreviation CookieDomain := CookieDomain.CookieDomain.

Record ParsedCookie := mkParsedCookie { pc_domain : CookieDomain; pc_path : string; pc_expires : option Z }.

Class CookieLibs {urls : Urls} := {
  url_host : Url -> option Host;
  host_parse : string -> option Host;
  host_display : Host -> string;
  (** [psl::suffix] finds a suffix, and it is known; [psl::domain_str] *)
  known_suffix : string -> bool;
  domain_str : string -> option string;
  (** [cookie::Cookie] *)
  RawCookie : Type;
  raw_parse : string -> option RawCookie;
  raw_name : RawCookie -> string;
  raw_value : RawCookie -> string;
  raw_secure : RawCookie -> option bool;
  raw_http_only : RawCookie -> option bool;
  raw_same_site : RawCookie -> option SameSite;
  raw_domain : RawCookie -> option string;
  raw_path : RawCookie -> option string;
  (** [cookie_store::Cookie::try_from_raw_cookie] *)
  try_from_raw_cookie : RawCookie -> Url -> option ParsedCookie;
  (** [OffsetDateTime::from_unix_timestamp] succeeds *)
  valid_timestamp : Z -> bool;
  (** [HeaderValue::to_str], and whether [HeaderValue::from_str] succeeds *)
  header_to_str : HeaderValue -> option string;
  header_from_str : string -> bool;
}.

Section Cookies.
Context {urls : Urls} {libs : CookieLibs}.

(** ** Errors *)

Definition snapshot_error : NetError := with_stage (NetError_new ErrorKind.InvalidInput) ErrorStage.Provider.
Definition provider_error : NetError := with_stage (NetError_new ErrorKind.ProviderFailed) ErrorStage.Provider.
Definition resource_error : NetError := with_stage (NetError_new ErrorKind.ResourceExhausted) ErrorStage.Provider.
Definition header_size_error : NetError := with_stage (NetError_new ErrorKind.ItemTooLarge) ErrorStage.RequestBuild.

(** ** Cookies *)

Record StoredCookie := mkStoredCookie {
  sc_name : string;
  sc_value : string;
  sc_domain : string;
  sc_host_only : bool;
  sc_path : string;
  sc_secure : bool;
  sc_http_only : bool;
  sc_same_site : option SameSite;
  sc_expires : option Z;
}.

Definition cookie_expired (c : StoredCookie) (now : Z) : bool := is_some_and (sc_expires c) (fun expiry => expiry <=? now).

Definition prune_expired (now : Z) (entries : list StoredCookie) : list StoredCookie :=
  filter (fun c => cookie_expired c now = false) entries.

Definition http_url (url : Url) : bool := bool_decide (scheme url ∈ ["http"; "https"]%string) && is_some (url_host url).

Definition domain_matches (host domain : string) : bool :=
  bool_decide (host = domain) || is_some_and (str_strip_suffix domain host) (fun prefix => ends_with prefix ".").

Definition path_matches (request cookie : string) : bool :=
  bool_decide (request = cookie) ||
  is_some_and (strip_prefix cookie request) (fun remaining => ends_with cookie "/" || starts_with remaining "/").

(** [StoredCookie::matches] *)
Definition cookie_matches (c : StoredCookie) (url : Url) : bool :=
  match host_str url with
  | None => false
  | Some host =>
      (bool_decide (sc_domain c = host) || (negb (sc_host_only c) && domain_matches host (sc_domain c))) &&
      path_matches (url_path url) (sc_path c) && (negb (sc_secure c) || bool_decide (scheme url = "https"%string))
  end.

Definition QUOTE : string := String (Ascii.ascii_of_nat 34) EmptyString.

Definition valid_name (name : string) : bool :=
  negb (bool_decide (name = EmptyString)) &&
  all_bytes (fun b => is_ascii_alphanumeric b || bool_decide (b ∈ [33; 35; 36; 37; 38; 39; 42; 43; 45; 46; 94; 95; 96; 124; 126])) name.

Definition valid_pair (name value : string) : bool :=
  let value := default value (strip_prefix QUOTE value ≫= str_strip_suffix QUOTE) in
  valid_name name &&
  all_bytes (fun b => (b =? 33) || between 35 43 b || between 45 58 b || between 60 91 b || between 93 126 b) value.

Definition valid_path (path : string) : bool :=
  starts_with path "/" && all_bytes (fun b => between 32 58 b || between 60 126 b) path.

Definition valid_prefix (name : string) (secure host_only root_path : bool) : bool :=
  (negb (starts_with name "__Secure-") || secure) && (negb (starts_with name "__Host-") || (secure && host_only && root_path)).

Definition valid_domain_scope (domain : string) : bool :=
  match host_parse domain with Some (Host.Domain _) => true | _ => false end && negb (ends_with domain ".") &&
  is_some (domain_str domain).

Definition bounded_fields (name value domain path : string) (limit : Z) : bool :=
  (Z.min usize_max (Z.min usize_max (str_len name + str_len value) + 1) <=? limit) && (str_len domain <=? 253) &&
  (str_len path <=? limit).

(** ** Sites *)

Inductive SiteRelation := Same | Cross | Unknown.

Record CookieRequestContext := mkCookieRequestContext { ctx_site : option Url; ctx_top_level : bool }.

Definition known_registrable_domain (host : string) : option string :=
  if known_suffix host then domain_str host else None.

Definition schemeful_site (url : Url) : option (string * string) :=
  if negb (http_url url) then None
  else
    match url_host url with
    | None => None
    | Some (Host.Domain host) => (fun d => (scheme url, d)) <$> known_registrable_domain host
    | Some (Host.Ipv4 ip) | Some (Host.Ipv6 ip) => Some (scheme url, ip)
    end.

Definition site_relation (target : Url) (ctx : CookieRequestContext) : SiteRelation :=
  match ctx_site ctx with
  | None => Same
  | Some site =>
      match schemeful_site site, schemeful_site target with
      | Some site, Some target => if bool_decide (site = target) then Same else Cross
      | _, _ => Unknown
      end
  end.

Definition same_site_allowed (c : StoredCookie) (relation : SiteRelation) (m : Method) (ctx : CookieRequestContext) : bool :=
  match sc_same_site c with
  | Some SameSite.Strict => match relation with Same => true | _ => false end
  | Some SameSite.Lax =>
      match relation with
      | Same => true
      | Cross => ctx_top_level ctx && match m with Method.GET | Method.HEAD | Method.OPTIONS | Method.TRACE => true | _ => false end
      | Unknown => false
      end
  | Some SameSite.None_ => sc_secure c
  | None => true
  end.

(** ** The jar *)

(** [sort_by_key] with [Reverse(path.len())], a stable sort. *)
Fixpoint insert_longest (c : StoredCookie) (l : list StoredCookie) : list StoredCookie :=
  match l with
  | [] => [c]
  | d :: rest => if str_len (sc_path d) <=? str_len (sc_path c) then c :: l else d :: insert_longest c rest
  end.

Definition sort_longest (l : list StoredCookie) : list StoredCookie := foldr insert_longest [] l.

(** The loop that writes the header; [reserve] is the answer of the allocator for its i-th cookie. *)
Fixpoint write_header (limit : Z) (reserve : nat -> bool) (i : nat) (header : string) (l : list StoredCookie) : Result string NetError :=
  match l with
  | [] => Ok header
  | c :: rest =>
      let separator := if bool_decide (header = EmptyString) then 0 else 2 in
      let? added := ok_or (checked_add usize_max separator (str_len (sc_name c)) ≫= (fun size =>
                             checked_add usize_max size 1 ≫= (fun size => checked_add usize_max size (str_len (sc_value c)))))
                      header_size_error in
      let? size := ok_or (checked_add usize_max (str_len header) added) header_size_error in
      if limit <? size then Err header_size_error
      else if negb (reserve i) then Err resource_error
      else
        let header := if separator =? 0 then header else (header ++ "; ")%string in
        write_header limit reserve (S i) (header ++ sc_name c ++ "=" ++ sc_value c)%string rest
  end.

Definition matching_cookies (entries : list StoredCookie) (url : Url) (m : Method) (ctx : CookieRequestContext) : list StoredCookie :=
  filter (fun c => cookie_matches c url && same_site_allowed c (site_relation url ctx) m ctx = true) entries.

(** [CookieStore::cookies_for_request] of a jar *)
Definition cookies_for_request (limits : CookieLimits) (now : Z) (reserve_list : bool) (reserve : nat -> bool)
    (entries : list StoredCookie) (url : Url) (m : Method) (ctx : CookieRequestContext) :
    list StoredCookie * Result (option HeaderValue) NetError :=
  let entries := prune_expired now entries in
  (entries,
   if negb (http_url url) then Ok None
   else if negb reserve_list then Err resource_error
   else
     let? header := write_header (max_cookie_header_bytes limits) reserve 0 EmptyString
                      (sort_longest (matching_cookies entries url m ctx)) in
     if bool_decide (header = EmptyString) then Ok None
     else if negb (header_from_str header) then Err provider_error
     else Ok (Some (mkHeaderValue header true))).

(** [parse_cookie] *)
Definition parse_cookie (value : string) (url : Url) : option StoredCookie :=
  match raw_parse value with
  | None => None
  | Some raw =>
      let secure := bool_decide (raw_secure raw = Some true) in
      if negb (valid_pair (raw_name raw) (raw_value raw)) || (secure && negb (bool_decide (scheme url = "https"%string))) ||
         (bool_decide (raw_same_site raw = Some SameSite.None_) && negb secure) ||
         negb (valid_prefix (raw_name raw) secure (is_none (raw_domain raw)) (bool_decide (raw_path raw = Some "/"%string)))
      then None
      else
        match try_from_raw_cookie raw url with
        | None => None
        | Some parsed =>
            match match pc_domain parsed with
                  | CookieDomain.HostOnly domain => Some (domain, true)
                  | CookieDomain.Suffix domain => if valid_domain_scope domain then Some (domain, false) else None
                  | CookieDomain.NoDomain => None
                  end with
            | None => None
            | Some (domain, host_only) =>
                if negb (valid_path (pc_path parsed)) then None
                else Some (mkStoredCookie (raw_name raw) (raw_value raw) domain host_only (pc_path parsed) secure
                             (bool_decide (raw_http_only raw = Some true)) (raw_same_site raw) (pc_expires parsed))
            end
        end
  end.

Definition same_key (a b : StoredCookie) : bool :=
  bool_decide (sc_name a = sc_name b) && bool_decide (sc_domain a = sc_domain b) && bool_decide (sc_path a = sc_path b).

(** Does an insecure cookie overlap a secure one? *)
Definition shadows_secure (entry old : StoredCookie) : bool :=
  sc_secure old && bool_decide (sc_name old = sc_name entry) &&
  (domain_matches (sc_domain old) (sc_domain entry) || domain_matches (sc_domain entry) (sc_domain old)) &&
  path_matches (sc_path entry) (sc_path old).

Definition position (p : StoredCookie -> bool) (entries : list StoredCookie) : option nat :=
  fst <$> list_find (fun c => p c = true) entries.

(** One accepted cookie of a response. *)
Definition store_cookie (limits : CookieLimits) (now : Z) (reserve : bool) (url : Url) (entry : StoredCookie)
    (entries : list StoredCookie) : list StoredCookie * Result () NetError :=
  if negb (bool_decide (scheme url = "https"%string)) && existsb (shadows_secure entry) entries then (entries, Ok tt)
  else
    let existing := position (fun old => same_key old entry) entries in
    if cookie_expired entry now then
      match existing with Some index => (delete index entries, Ok tt) | None => (entries, Ok tt) end
    else
      match existing with
      | Some index => if bool_decide (is_Some (entries !! index)) then (<[index := entry]> entries, Ok tt) else (entries, Err provider_error)
      | None =>
          if Z.of_nat (length entries) <? max_cookies limits
          then if reserve then (entries ++ [entry], Ok tt) else (entries, Err resource_error)
          else (entries, Ok tt)
      end.

(** One [Set-Cookie] value within the budget of its response. *)
Definition set_cookie (limits : CookieLimits) (now : Z) (reserve : bool) (url : Url) (header : HeaderValue) (entries : list StoredCookie) :
    list StoredCookie * Result () NetError :=
  if bool_decide (hv_text header = EmptyString) || (max_cookie_bytes limits <? str_len (hv_text header)) then (entries, Ok tt)
  else
    match header_to_str header ≫= (fun value => parse_cookie value url) with
    | None => (entries, Ok tt)
    | Some entry =>
        if negb (bounded_fields (sc_name entry) (sc_value entry) (sc_domain entry) (sc_path entry) (max_cookie_bytes limits))
        then (entries, Ok tt)
        else store_cookie limits now reserve url entry entries
    end.

Fixpoint set_cookies (limits : CookieLimits) (times : nat -> Z) (reserve : nat -> bool) (url : Url) (i : nat) (total : Z)
    (headers : list HeaderValue) (entries : list StoredCookie) : list StoredCookie * Result () NetError :=
  match headers with
  | [] => (entries, Ok tt)
  | header :: rest =>
      match checked_add usize_max total (str_len (hv_text header)) with
      | Some total =>
          if total <=? max_set_cookie_bytes limits then
            match set_cookie limits (times i) (reserve i) url header entries with
            | (entries, Err e) => (entries, Err e)
            | (entries, Ok _) => set_cookies limits times reserve url (S i) total rest entries
            end
          else (entries, Ok tt)
      | None => (entries, Ok tt)
      end
  end.

(** [CookieStore::set_response_cookies] of a jar *)
Definition set_response_cookies (limits : CookieLimits) (now : Z) (times : nat -> Z) (reserve : nat -> bool) (entries : list StoredCookie)
    (url : Url) (headers : HeaderMap) : list StoredCookie * Result () NetError :=
  let entries := prune_expired now entries in
  if negb (http_url url) then (entries, Ok tt)
  else set_cookies limits times reserve url 0 0 (snd <$> header_get_all headers "set-cookie") entries.

(** ** Snapshots *)

(** A [SnapshotRecord]: the fields of a cookie and its expiry, which replaces the optional one;
    [SnapshotSameSite] has the cases of [SameSite]. *)
Record SnapshotRecord := mkSnapshotRecord { sr_cookie : StoredCookie; sr_expires : Z }.

Record CookieJarSnapshot := mkCookieJarSnapshot { schema_version : Z; cookies : list SnapshotRecord }.

(** [SnapshotRecord::valid], on the fields of the cookie and on the expiry. *)
Definition fields_valid (maximum_bytes : Z) (c : StoredCookie) : bool :=
  bounded_fields (sc_name c) (sc_value c) (sc_domain c) (sc_path c) maximum_bytes && valid_pair (sc_name c) (sc_value c) &&
  is_some_and (host_parse (sc_domain c)) (fun host => bool_decide (host_display host = sc_domain c)) &&
  negb (bool_decide (sc_domain c = EmptyString)) && (sc_host_only c || valid_domain_scope (sc_domain c)) && valid_path (sc_path c) &&
  (negb (bool_decide (sc_same_site c = Some SameSite.None_)) || sc_secure c) &&
  valid_prefix (sc_name c) (sc_secure c) (sc_host_only c) (bool_decide (sc_path c = "/"%string)).

Definition record_valid (maximum_bytes : Z) (r : SnapshotRecord) : bool :=
  fields_valid maximum_bytes (sr_cookie r) && valid_timestamp (sr_expires r).

Fixpoint records_valid (maximum_bytes : Z) (before : list SnapshotRecord) (records : list SnapshotRecord) : bool :=
  match records with
  | [] => true
  | r :: rest =>
      record_valid maximum_bytes r && negb (existsb (fun other => same_key (sr_cookie other) (sr_cookie r)) before) &&
      records_valid maximum_bytes (before ++ [r]) rest
  end.

Definition snapshot_validate (s : CookieJarSnapshot) : Result () NetError :=
  if negb (schema_version s =? 1) || (max_cookies CookieLimits_default <? Z.of_nat (length (cookies s))) then Err snapshot_error
  else if records_valid (max_cookie_bytes CookieLimits_default) [] (cookies s) then Ok tt
  else Err snapshot_error.

(** [CookieJar::snapshot] *)
Definition jar_snapshot (now : Z) (reserve : nat -> bool) (entries : list StoredCookie) :
    list StoredCookie * Result CookieJarSnapshot NetError :=
  let entries := prune_expired now entries in
  let records := omap (fun c => mkSnapshotRecord c <$> sc_expires c) entries in
  (entries, if forallb reserve (seq 0 (length records)) then Ok (mkCookieJarSnapshot 1 records) else Err resource_error).

(** [CookieJar::from_snapshot] *)
Definition from_snapshot (now : Z) (reserve : bool) (s : CookieJarSnapshot) : Result (list StoredCookie) NetError :=
  let? _ := snapshot_validate s in
  if negb reserve then Err resource_error
  else
    let restore r :=
      let c := sr_cookie r in
      mkStoredCookie (sc_name c) (sc_value c) (sc_domain c) (sc_host_only c) (sc_path c) (sc_secure c) (sc_http_only c)
        (sc_same_site c) (Some (sr_expires r)) in
    Ok (prune_expired now (restore <$> cookies s)).

(** ** Jars *)

Record CookieJar := mkCookieJar { jar_state : list StoredCookie; jar_limits : CookieLimits }.

Definition CookieJar_new : CookieJar := mkCookieJar [] CookieLimits_default.

Definition jar_with_limits (limits : CookieLimits) : Result CookieJar NetError :=
  let? _ := cookie_limits_validate limits in Ok (mkCookieJar [] limits).

(** The calls on a jar, of any number of threads. *)
Inductive JarOp :=
| SetCookies (url : Url) (headers : HeaderMap) (now : Z) (times : nat -> Z) (reserve : nat -> bool)
| RequestCookies (url : Url) (m : Method) (ctx : CookieRequestContext) (now : Z) (reserve_list : bool) (reserve : nat -> bool)
| TakeSnapshot (now : Z) (reserve : nat -> bool)
| ClearJar.

Definition jar_step (j : CookieJar) (op : JarOp) : CookieJar :=
  let keep entries := mkCookieJar entries (jar_limits j) in
  match op with
  | SetCookies url headers now times reserve => keep (set_response_cookies (jar_limits j) now times reserve (jar_state j) url headers).1
  | RequestCookies url m ctx now reserve_list reserve =>
      keep (cookies_for_request (jar_limits j) now reserve_list reserve (jar_state j) url m ctx).1
  | TakeSnapshot now reserve => keep (jar_snapshot now reserve (jar_state j)).1
  | ClearJar => keep []
  end.

Definition jar_run (j : CookieJar) (ops : list JarOp) : CookieJar := foldl jar_step j ops.

(** ** The calls of a store around an exchange (src/module/http/cookie_hooks.rs) *)

Definition hook_failure (kind_ : ErrorKind) (at_ : ErrorStage) (request_id : Z) : NetError :=
  with_http_request_id (with_stage (NetError_new kind_) at_) request_id.

Definition provider_failure (request_id : Z) : NetError := hook_failure ErrorKind.ProviderFailed ErrorStage.Provider request_id.
Definition header_limit (request_id : Z) : NetError := hook_failure ErrorKind.ItemTooLarge ErrorStage.RequestBuild request_id.

Definition check_cancelled (cancelled : bool) (request_id : Z) : Result () NetError :=
  if cancelled then Err (hook_failure ErrorKind.Cancelled ErrorStage.Dispatch request_id) else Ok tt.

Definition mark_sensitive (name : string) (h : HeaderMap) : HeaderMap :=
  (fun e => if bool_decide (e.1 = name) then (e.1, mkHeaderValue (hv_text e.2) true) else e) <$> h.

(** The bytes of the explicit values with their separators. *)
Fixpoint explicit_bytes (limit : Z) (first : bool) (bytes : Z) (values : list HeaderValue) : bool :=
  match values with
  | [] => true
  | v :: rest =>
      let bytes := Z.min usize_max (bytes + str_len (hv_text v)) in
      let bytes := if first then bytes else Z.min usize_max (bytes + 2) in
      if limit <? bytes then false else explicit_bytes limit false bytes rest
  end.

(** [apply_cookie_header]; [answer] is what the store answers, nothing when it unwinds. *)
Definition apply_cookie_header (store : bool) (limits : CookieLimits) (answer : option (Result (option HeaderValue) NetError))
    (headers : HeaderMap) (request_id : Z) : Result HeaderMap NetError :=
  if negb store then Ok headers
  else if is_some (header_get headers "cookie") then
    if explicit_bytes (max_cookie_header_bytes limits) true 0 (snd <$> header_get_all headers "cookie")
    then Ok (mark_sensitive "cookie" headers) else Err (header_limit request_id)
  else
    match answer with
    | None => Err (provider_failure request_id)
    | Some (Err error) =>
        if bool_decide (kind error = ErrorKind.ItemTooLarge) && bool_decide (stage (econtext error) = Some ErrorStage.RequestBuild)
        then Err (header_limit request_id) else Err (provider_failure request_id)
    | Some (Ok None) => Ok headers
    | Some (Ok (Some value)) =>
        if max_cookie_header_bytes limits <? str_len (hv_text value) then Err (header_limit request_id)
        else Ok (header_insert headers "cookie" (mkHeaderValue (hv_text value) true))
    end.

(** The [Set-Cookie] values that are handed to the store. *)
Fixpoint within_budget (limits : CookieLimits) (total : Z) (values : list HeaderValue) : list HeaderValue :=
  match values with
  | [] => []
  | v :: rest =>
      let total := Z.min usize_max (total + str_len (hv_text v)) in
      if max_set_cookie_bytes limits <? total then []
      else if negb (bool_decide (hv_text v = EmptyString)) && (str_len (hv_text v) <=? max_cookie_bytes limits)
      then v :: within_budget limits total rest
      else within_budget limits total rest
  end.

Definition store_headers (limits : CookieLimits) (h : HeaderMap) : HeaderMap :=
  header_remove h "set-cookie" ++ ((fun v => ("set-cookie"%string, v)) <$> within_budget limits 0 (snd <$> header_get_all h "set-cookie")).

(** [update_response_cookies]: the headers of the response, those given to the store, and the
    result; [cancelled] are the readings of the signal before and after the store. *)
Definition update_response_cookies (store : bool) (limits : CookieLimits) (answer : HeaderMap -> option (Result () NetError))
    (cancelled : bool * bool) (headers : HeaderMap) (request_id : Z) : HeaderMap * Result () NetError :=
  if negb store then (headers, Ok tt)
  else
    match check_cancelled cancelled.1 request_id with
    | Err e => (headers, Err e)
    | Ok _ =>
        let headers := mark_sensitive "set-cookie" headers in
        let result := answer (store_headers limits headers) in
        (headers,
         let? _ := check_cancelled cancelled.2 request_id in
         match result with Some (Ok _) => Ok tt | _ => Err (provider_failure request_id) end)
    end.

End Cookies.
