(* ===== verification/HttpHops.v ===== *)
(** * One exchange: budgets, and the redirects of a response

    [check_budget], [arbitrate_result] and [run_budget]
    (src/module/http/http_client_inner.rs) and the redirect loop
    (src/module/http/response_hops.rs), with the calls of the cookie store
    around each request.  A computation reads the clock and the
    cancellation signal of the request as it goes; both, the transport, the
    builder of requests, the authentication provider and the cookie store are
    the class [Surroundings], indexed by the number of observations made
    before.  A computation that waits goes on or is dropped by the [select!]
    around it, and a body is a finite list of chunks: waits and bodies that never
    end are not modelled. *)

From S2P Require Import Prelude F64 Backoff RetrySchedule RetryState Errors HttpTimeouts HttpRetry HttpConfig HttpCookies.

(** ** Computations *)

(** Why the [select!] around a computation dropped it. *)
Module Interrupt.
Inductive Interrupt := Cancelled | Timer.
End Interrupt.
Abbreviation Interrupt := Interrupt.Interrupt.

Module AuthAction.
Inductive AuthAction := RetryWithFreshCredentials | DoNotRetry.
End AuthAction.
Abbreviation AuthAction := AuthAction.AuthAction.

Inductive Stop :=
| Failed (error : NetError)
| Interrupted (by_ : Interrupt).

Section Exchange.
Context {urls : Urls}.

(** A request handed to the transport. *)
Record HopRequest := mkHopRequest {
  q_method : Method;
  q_url : Url;
  q_headers : HeaderMap;
  q_body : option string;
}.

(** A response: its head, and what reading its body yields. *)
Record Response := mkResponse {
  rs_url : Url;
  rs_status : StatusCode;
  rs_headers : HeaderMap;
  rs_chunks : list (Result string ReqwestError);
}.

(** What an authentication provider does with a request: the headers it writes, the generation of
    the credentials, and whether it succeeds. *)
Record AuthAnswer := mkAuthAnswer {
  aa_headers : list (string * HeaderValue);
  aa_generation : Z;
  aa_ok : bool;
}.

Class Surroundings := {
  cancelled_at : nat -> bool;
  clock_at : nat -> Instant;
  awaited : nat -> option Interrupt;
  (** Did a sleep end before the cancellation? *)
  slept : nat -> Duration -> bool;
  transport_reply : nat -> HopRequest -> Result Response ReqwestError;
  build_failure : nat -> HopRequest -> option ReqwestError;
  auth_apply : nat -> Method -> Url -> HeaderMap -> AuthAnswer;
  on_unauthorized : nat -> StatusCode -> option HeaderValue -> Z -> Z -> option AuthAction;
  (** The cookie store of the application: the header for a request, and the response it is
      shown; nothing when it unwinds. *)
  cookie_request : nat -> Url -> Method -> CookieRequestContext -> option (Result (option HeaderValue) NetError);
  cookie_update : nat -> Url -> HeaderMap -> option (Result () NetError);
  system_at : nat -> Z;
  max_permits : Z;
}.

(** The observations made, and the requests handed to the transport with their counter. *)
Record Net := mkNet { tick : nat; sent : list HopRequest; sends : Z }.

(** A computation that may fail with an [E]. *)
Definition M (E A : Type) : Type := Net -> Net * Result A E.

Definition ret {E A} (a : A) : M E A := fun w => (w, Ok a).
Definition stop {E A} (e : E) : M E A := fun w => (w, Err e).
Definition bind {E A B} (m : M E A) (k : A -> M E B) : M E B :=
  fun w => match m w with (w, Ok a) => k a w | (w, Err e) => (w, Err e) end.

(** The error of a computation that cannot be dropped, and of one that can. *)
Class Raise (E : Type) := raise : NetError -> E.
#[global] Instance raise_error : Raise NetError := fun e => e.
#[global] Instance raise_stop : Raise Stop := Failed.

Definition fail {E} `{Raise E} {A} (e : NetError) : M E A := stop (raise e).
Definition lift {E} `{Raise E} {A} (r : Result A NetError) : M E A := match r with Ok a => ret a | Err e => fail e end.

Notation "'let*' x ':=' m 'in' k" := (bind m (fun x => k)) (at level 10, x pattern, m at level 200, k at level 200).

(** The number of the next observation. *)
Definition observe {E} : M E nat := fun w => (mkNet (S (tick w)) (sent w) (sends w), Ok (tick w)).

Context {surroundings : Surroundings} {graph : ErrorGraph} {clk : Clock}.

Definition is_cancelled {E} : M E bool := let* n := observe in ret (cancelled_at n).
Definition now {E} : M E Instant := let* n := observe in ret (clock_at n).

(** A point where the computation waits: it goes on, or it is dropped there. *)
Definition wait_point : M Stop () := let* n := observe in match awaited n with Some i => stop (Interrupted i) | None => ret tt end.

(** ** Budgets *)

Definition check_budget {E} `{Raise E} (b : HttpBudget) (at_ : ErrorStage) : M E () :=
  let* cancelled := is_cancelled in
  if cancelled : bool then fail (with_stage (NetError_new ErrorKind.Cancelled) at_)
  else
    let* t := now in
    match budget_expired b t at_ with Some error => fail error | None => ret tt end.

Definition check_stream_start (b : HttpBudget) : M Stop () := check_budget b ErrorStage.Response.

(** [arbitrate_result] *)
Definition arbitrate_result {A} (b : HttpBudget) (at_ : ErrorStage) (result : Result A NetError) : M NetError A :=
  let* cancelled := is_cancelled in
  if cancelled : bool then fail (with_stage (NetError_new ErrorKind.Cancelled) at_)
  else
    let candidate :=
      match result with
      | Ok _ => None
      | Err error => option_or (timeout_deadline error) ((fun d => (d, TimeoutPhase.Connect)) <$> connect_timeout_deadline error)
      end in
    if is_some_and candidate (fun c => candidate_wins b c.1 c.2) then lift result
    else fun w =>
      match check_budget b at_ w with
      | (w, Err error) =>
          let head := match result with Ok _ => None | Err e => http_response_head e end in
          match head with
          | Some head => if bool_decide (kind error = ErrorKind.Cancelled) then fail error w
                         else fail (with_http_response_head error head) w
          | None => fail error w
          end
      | (w, Ok _) => lift result w
      end.

(** The arms of the [select!] of [run_budget], and the arbitration of what they give. *)
Definition budget_outcome {A} (b : HttpBudget) (at_ : ErrorStage) (result : Result A Stop) : M NetError A :=
  match result with
  | Ok a => arbitrate_result b at_ (Ok a)
  | Err (Failed error) => arbitrate_result b at_ (Err error)
  | Err (Interrupted Interrupt.Cancelled) => arbitrate_result b at_ (Err (with_stage (NetError_new ErrorKind.Cancelled) at_))
  | Err (Interrupted Interrupt.Timer) =>
      let* t := now in
      arbitrate_result b at_ (Err match budget_expired b t at_ with
                                  | Some error => error
                                  | None => with_stage (NetError_new ErrorKind.Internal) at_
                                  end)
  end.

(** [run_budget] *)
Definition run_budget {A} (b : HttpBudget) (at_ : ErrorStage) (future : M Stop A) : M NetError A :=
  let* _ := check_budget b at_ in
  let* cancelled := is_cancelled in
  fun w =>
    let '(w, result) := (if cancelled : bool then stop (Interrupted Interrupt.Cancelled) else future) w in
    budget_outcome b at_ result w.

(** [map_err] on the error of a computation. *)
Definition on_error {A} (f : NetError -> NetError) (m : M NetError A) : M NetError A :=
  fun w => match m w with (w, r) => (w, map_err f r) end.

(** ** Requests *)

(** [CancellationSignal::record_transport_send] *)
Definition signal_record_send : M Stop () := fun w =>
  match checked_add u64_max (sends w) 1 with
  | Some n => (mkNet (tick w) (sent w) n, Ok tt)
  | None => fail (with_stage (NetError_new ErrorKind.Internal) ErrorStage.Dispatch) w
  end.

(** [execute_request] *)
Definition execute_request (q : HopRequest) : M Stop Response :=
  fun w =>
    let w := mkNet (tick w) (sent w ++ [q]) (sends w) in
    (let* _ := wait_point in
     let* n := observe in
     lift (map_err map_execute_error (transport_reply n q))) w.

(** The request of a builder with headers and perhaps a body. *)
Definition build_hop (m : Method) (url : Url) (headers : HeaderMap) (body : option string) : M Stop HopRequest :=
  let headers := match body with
                 | Some EmptyString => header_append headers "content-length" (mkHeaderValue "0" false)
                 | _ => headers
                 end in
  let q := mkHopRequest m url headers body in
  let* n := observe in
  match build_failure n q with
  | Some error => fail (map_reqwest_error error ErrorStage.RequestBuild)
  | None => ret q
  end.

Definition provider_failed : NetError := with_stage (NetError_new ErrorKind.ProviderFailed) ErrorStage.Provider.

(** The headers after the writes of a provider; a refused write leaves them as they are. *)
Definition auth_headers (h : HeaderMap) (writes : list (string * HeaderValue)) : HeaderMap :=
  foldl (fun h e => match set_header h e.1 e.2 with Ok h => h | Err _ => h end) h writes.

Definition apply_auth (m : Method) (url : Url) (headers : HeaderMap) : M Stop AuthAnswer :=
  let* _ := wait_point in
  let* n := observe in
  ret (auth_apply n m url headers).

(** The store is asked for the cookies of a request, between two looks at the signal. *)
Definition request_cookies (c : HttpClientConfig) (m : Method) (url : Url) (context : CookieRequestContext) (request_id : Z)
    (headers : HeaderMap) : M Stop HeaderMap :=
  let* cancelled := is_cancelled in
  let* _ := lift (check_cancelled cancelled request_id) in
  let* n := observe in
  let applied := apply_cookie_header (cookie_store c) (cookie_limits c) (cookie_request n url m context) headers request_id in
  let* cancelled := is_cancelled in
  let* _ := lift (check_cancelled cancelled request_id) in
  lift applied.

(** The store is shown a response, which it may not refuse. *)
Definition response_cookies (c : HttpClientConfig) (request_id : Z) (response : Response) : M Stop Response :=
  if negb (cookie_store c) then ret response
  else
  let* before := is_cancelled in
  let* n := observe in
  let* after := is_cancelled in
  let '(headers, result) := update_response_cookies (cookie_store c) (cookie_limits c) (cookie_update n (rs_url response))
                              (before, after) (rs_headers response) request_id in
  let* _ := lift result in
  ret (mkResponse (rs_url response) (rs_status response) headers (rs_chunks response)).

(** [build_request] *)
Definition build_request (c : HttpClientConfig) (m : Method) (path : Text) (request_headers : HeaderMap) (body : string)
    (body_present : bool) (request_id : Z) (context : CookieRequestContext) : M Stop (HopRequest * Z) :=
  let* url := lift (resolve_request_path c path) in
  let* t := now in
  let* headers := lift (merge_headers t max_permits c request_headers) in
  let* answer := (if auth c then
                    let* answer := apply_auth m url headers in
                    if aa_ok answer then ret (auth_headers headers (aa_headers answer), aa_generation answer)
                    else fail provider_failed
                  else ret (headers, 0)) in
  let sends_body := body_present || match m with Method.POST | Method.PUT | Method.PATCH => true | _ => false end in
  let* headers := request_cookies c m url context request_id answer.1 in
  let* q := build_hop m url headers (if sends_body then Some body else None) in
  ret (q, answer.2).

(** ** Redirects *)

Definition redirect_error (reason : HttpRedirectError) : NetError :=
  with_stage (with_source ErrorKind.Protocol (RedirectSource reason)) ErrorStage.Receive.

Definition redirect_method (status : StatusCode) (m : Method) : Method * bool :=
  if bool_decide (status ∈ [301; 302]) && bool_decide (m = Method.POST) then (Method.GET, false)
  else if status =? 303 then (if bool_decide (m = Method.HEAD) then Method.HEAD else Method.GET, false)
  else (m, true).

Definition is_redirect_status (status : StatusCode) : bool := bool_decide (status ∈ [301; 302; 303; 307; 308]).

(** What the redirects of a response need of its request. *)
Record ResponseHops := mkResponseHops {
  rh_headers : HeaderMap;
  rh_body : string;
  rh_body_present : bool;
  rh_replayable : bool;
  rh_method : Method;
  rh_request_id : Z;
  rh_attempt : Z;
  rh_generation : Z;
  rh_budget : HttpBudget;
  rh_cookies : CookieRequestContext;
}.

(** What the loop of [follow] carries from one response to the next. *)
Record Hop := mkHop {
  h_response : Response;
  h_generation : Z;
  h_auth : bool;
  h_headers : HeaderMap;
  h_method : Method;
  h_body : bool;
}.

Definition hop_outcome (h : Hop) : Response * Z * bool := (h_response h, h_generation h, h_auth h).

(** HTTP/2 without fallback needs TLS on every hop. *)
Definition hop_security (c : HttpClientConfig) : HttpTransportSecurity :=
  if bool_decide (http_version_policy c = HttpVersionPolicy.Http2Only) then HttpTransportSecurity.HttpsOnly else transport_security c.

(** The authorized target of a response, if it is to be followed. *)
Definition hop_target (c : HttpClientConfig) (original : Url) (h : Hop) (followed : Z) : Result (option Url) NetError :=
  let response := h_response h in
  if negb (enabled (redirect_policy c)) || negb (is_redirect_status (rs_status response)) then Ok None
  else
    match header_get (rs_headers response) "location" with
    | None => Ok None
    | Some location =>
        let invalid := redirect_error HttpRedirectError.InvalidLocation in
        let? location := ok_or (header_str location) invalid in
        let? next_url := ok_or (url_join (rs_url response) location) invalid in
        let next_url := without_fragment next_url in
        let? _ := map_err redirect_error
                    (check_redirect (redirect_policy c) original (rs_url response) next_url followed (hop_security c)) in
        Ok (Some next_url)
    end.

Definition CONTENT_HEADERS : list string := ["content-length"; "content-type"; "content-encoding"; "transfer-encoding"]%string.

(** The request that follows a response, before the provider sees it. *)
Definition hop_prepare (h : Hop) (next_url : Url) : Hop :=
  let '(next_method, preserve_body) := redirect_method (rs_status (h_response h)) (h_method h) in
  let headers := if preserve_body then h_headers h else foldl header_remove (h_headers h) CONTENT_HEADERS in
  let body := if preserve_body then h_body h else false in
  let same_origin := bool_decide (origin (rs_url (h_response h)) = origin next_url) in
  mkHop (h_response h) (h_generation h) (if same_origin then h_auth h else false)
    (if same_origin then headers else strip_sensitive_headers headers) next_method body.

(** One authorized hop: the provider, the cookies, the request and its response. *)
Definition hop_execute (c : HttpClientConfig) (hops : ResponseHops) (h : Hop) (next_url : Url) : M Stop Hop :=
  let* answer :=
    (if h_auth h then
       let* answer := apply_auth (h_method h) next_url (h_headers h) in
       let* _ := check_stream_start (rh_budget hops) in
       if aa_ok answer then ret (auth_headers (h_headers h) (aa_headers answer), aa_generation answer) else fail provider_failed
     else ret (h_headers h, h_generation h)) in
  let* headers := request_cookies c (h_method h) next_url (rh_cookies hops) (rh_request_id hops) answer.1 in
  let* _ := check_stream_start (rh_budget hops) in
  let* q := build_hop (h_method h) next_url headers (if h_body h then Some (rh_body hops) else None) in
  let* _ := signal_record_send in
  let* response := execute_request q in
  ret (mkHop response answer.2 (h_auth h) (h_headers h) (h_method h) (h_body h)).

(** The loop of [follow]: [fuel] responses are left to look at. *)
Fixpoint follow_loop (fuel : nat) (c : HttpClientConfig) (hops : ResponseHops) (original : Url) (followed : Z) (h : Hop) :
    M Stop (Response * Z * bool) :=
  match fuel with
  | O => fail (redirect_error HttpRedirectError.TooManyRedirects)
  | S fuel =>
      let* _ := check_stream_start (rh_budget hops) in
      let* response := response_cookies c (rh_request_id hops) (h_response h) in
      let h := mkHop response (h_generation h) (h_auth h) (h_headers h) (h_method h) (h_body h) in
      let* _ := check_stream_start (rh_budget hops) in
      let* target := lift (hop_target c original h followed) in
      match target with
      | None => ret (hop_outcome h)
      | Some next_url =>
          let preserve_body := (redirect_method (rs_status (h_response h)) (h_method h)).2 in
          if preserve_body && h_body h && negb (rh_replayable hops) then ret (hop_outcome h)
          else
            let* h := hop_execute c hops (hop_prepare h next_url) next_url in
            follow_loop fuel c hops original (followed + 1) h
      end
  end.

(** [follow]: the loop looks at [0..=max_redirects] responses. *)
Definition follow (c : HttpClientConfig) (hops : ResponseHops) (response : Response) : M Stop (Response * Z * bool) :=
  let* t := now in
  let* headers := lift (merge_headers t max_permits c (rh_headers hops)) in
  follow_loop (S (Z.to_nat (max_redirects (redirect_policy c)))) c hops (rs_url response) 0
    (mkHop response (rh_generation hops) (auth c) headers (rh_method hops) (rh_body_present hops)).

Definition follow_response_hops (c : HttpClientConfig) (hops : ResponseHops) (response : Response) : M NetError (Response * Z * bool) :=
  on_error (fun e => with_http_attempt (with_http_request_id e (rh_request_id hops)) (rh_attempt hops))
    (run_budget (rh_budget hops) ErrorStage.Response (follow c hops response)).

End Exchange.

Notation "'let*' x ':=' m 'in' k" := (bind m (fun x => k)) (at level 10, x pattern, m at level 200, k at level 200).

(** ** What a computation sends *)

Section Sending.
Context {urls : Urls} {surroundings : Surroundings} {graph : ErrorGraph} {clk : Clock}.

(** [m] hands at most [n] requests to the transport, all with [P], and counts each of them; what it
    returns has [Q]. *)
Definition emits {E A} (P : HopRequest -> Prop) (n : nat) (Q : A -> Prop) (m : M E A) : Prop :=
  forall w, exists qs,
    sent (m w).1 = sent w ++ qs /\ sends (m w).1 = sends w + Z.of_nat (length qs) /\
    Forall P qs /\ (length qs <= n)%nat /\
    match (m w).2 with Ok a => Q a | Err _ => True end.

(** A computation that sends nothing. *)
Definition quiet {E A} (m : M E A) : Prop := forall w, sent (m w).1 = sent w /\ sends (m w).1 = sends w.

Lemma quiet_emits {E A} P n (Q : A -> Prop) (m : M E A) : quiet m -> (forall w a, (m w).2 = Ok a -> Q a) -> emits P n Q m.
Proof.
  intros Hm HQ w. destruct (Hm w) as [Hs Hc]. exists []. rewrite Hs, Hc, app_nil_r. simpl.
  split_and!; [done|lia|done|lia|]. destruct ((m w).2) eqn:Hr; [by eapply HQ|done].
Qed.

Lemma emits_mono {E A} (P P' : HopRequest -> Prop) n n' (Q Q' : A -> Prop) (m : M E A) :
  emits P n Q m -> (forall q, P q -> P' q) -> (n <= n')%nat -> (forall a, Q a -> Q' a) -> emits P' n' Q' m.
Proof.
  intros Hm HP Hn HQ w. destruct (Hm w) as (qs & Hs & Hc & Hq & Hl & Hr). exists qs.
  split_and!; [done|done|by eapply Forall_impl|lia|]. destruct ((m w).2); auto.
Qed.

Lemma emits_ret {E A} P n (Q : A -> Prop) a : Q a -> emits P n Q (ret (E := E) a).
Proof. intros HQ. apply quiet_emits; [done|]. by intros w b [= <-]. Qed.

Lemma emits_stop {E A} P n (Q : A -> Prop) (s : E) : emits P n Q (stop s).
Proof. by apply quiet_emits. Qed.

Lemma emits_bind {E A B} P n n' (Q : A -> Prop) (Q' : B -> Prop) (m : M E A) k :
  emits P n Q m -> (forall a, Q a -> emits P n' Q' (k a)) -> emits P (n + n') Q' (bind m k).
Proof.
  intros Hm Hk w. unfold bind. destruct (Hm w) as (qs & Hs & Hc & Hq & Hl & Hr).
  destruct (m w) as [w1 [a|s]]; simpl in *.
  - destruct (Hk a Hr w1) as (qs' & Hs' & Hc' & Hq' & Hl' & Hr'). exists (qs ++ qs').
    rewrite Hs', Hs, Hc', Hc, length_app, app_assoc. split_and!; [done|lia|by apply Forall_app|lia|done].
  - exists qs. split_and!; [done..|lia|done].
Qed.

Lemma emits_bind_quiet {E A B} P n (Q : A -> Prop) (Q' : B -> Prop) (m : M E A) k :
  emits P 0 Q m -> (forall a, Q a -> emits P n Q' (k a)) -> emits P n Q' (bind m k).
Proof. apply (emits_bind P 0 n). Qed.

Lemma emits_lift {E} `{Raise E} {A} P n (Q : A -> Prop) r : (forall a, r = Ok a -> Q a) -> emits P n Q (lift (E := E) r).
Proof. destruct r; intros Hr; [by apply emits_ret, Hr|apply emits_stop]. Qed.

Lemma quiet_bind {E A B} (m : M E A) (k : A -> M E B) : quiet m -> (forall a, quiet (k a)) -> quiet (bind m k).
Proof.
  intros Hm Hk w. unfold bind. destruct (Hm w) as [Hs Hc]. destruct (m w) as [w1 [a|s]]; simpl in *; [|done].
  destruct (Hk a w1) as [Hs' Hc']. by rewrite Hs', Hc'.
Qed.

Lemma quiet_lift {E} `{Raise E} {A} (r : Result A NetError) : quiet (lift (E := E) r).
Proof. by destruct r. Qed.

Lemma observe_quiet {E} : quiet (observe (E := E)).
Proof. done. Qed.

Lemma is_cancelled_quiet {E} : quiet (is_cancelled (E := E)).
Proof. done. Qed.

Lemma now_quiet {E} : quiet (now (E := E)).
Proof. done. Qed.

Lemma wait_point_quiet : quiet wait_point.
Proof. apply quiet_bind; [done|]. intros n. by destruct (awaited n). Qed.

Lemma check_budget_quiet {E} `{Raise E} b at_ : quiet (check_budget (E := E) b at_).
Proof.
  apply quiet_bind; [done|]. intros [|]; [done|]. apply quiet_bind; [done|]. intros t. by destruct (budget_expired b t at_).
Qed.

Lemma arbitrate_quiet {A} b at_ (r : Result A NetError) : quiet (arbitrate_result b at_ r).
Proof.
  apply quiet_bind; [done|]. intros [|]; [done|]. cbv beta zeta.
  match goal with |- context [is_some_and ?o ?p] => destruct (is_some_and o p) end; [apply quiet_lift|].
  intros w. destruct (check_budget_quiet (E := NetError) b at_ w) as [Hs Hc]. destruct (check_budget b at_ w) as [w' [[]|e]]; simpl in *.
  - destruct (quiet_lift (E := NetError) r w') as [H1 H2]. by rewrite H1, H2.
  - by repeat case_match.
Qed.

Lemma arbitrate_ok {A} b at_ (r : Result A NetError) w a : (arbitrate_result b at_ r w).2 = Ok a -> r = Ok a.
Proof.
  unfold arbitrate_result, bind. destruct (is_cancelled w) as [w1 [[|]|]]; [done| |done].
  match goal with |- context [is_some_and ?o ?p] => destruct (is_some_and o p) end; [by destruct r; intros [= ->]|].
  destruct (check_budget b at_ w1) as [w2 [[]|e]]; [by destruct r; intros [= ->]|].
  by repeat case_match.
Qed.

Lemma budget_outcome_quiet {A} b at_ (r : Result A Stop) : quiet (budget_outcome b at_ r).
Proof.
  destruct r as [a|[e|[]]]; simpl; try apply arbitrate_quiet.
  apply quiet_bind; [done|]. intros t. apply arbitrate_quiet.
Qed.

Lemma budget_outcome_ok {A} b at_ (r : Result A Stop) w a : (budget_outcome b at_ r w).2 = Ok a -> r = Ok a.
Proof. destruct r as [x|[e|[]]]; simpl; intros H; by apply arbitrate_ok in H as [= ->]. Qed.

Lemma run_budget_emits {A} P n (Q : A -> Prop) b at_ (m : M Stop A) : emits P n Q m -> emits P n Q (run_budget b at_ m).
Proof.
  intros Hm. apply (emits_bind_quiet P n (fun _ => True)); [by apply quiet_emits; [apply check_budget_quiet|]|]. intros _ _.
  apply (emits_bind_quiet P n (fun _ => True)); [by apply quiet_emits|]. intros cancelled _ w.
  assert (Hm' : emits P n Q (if cancelled then stop (Interrupted Interrupt.Cancelled) else m))
    by (destruct cancelled; [apply emits_stop|done]).
  destruct (Hm' w) as (qs & Hs & Hc & Hq & Hl & Hr). revert Hs Hc Hr.
  destruct ((if cancelled then stop (Interrupted Interrupt.Cancelled) else m) w) as [w1 r]. cbn [fst snd]. intros Hs Hc Hr.
  destruct (budget_outcome_quiet b at_ r w1) as [Hs1 Hc1]. exists qs. rewrite Hs1, Hc1. split_and!; [done..|].
  destruct ((budget_outcome b at_ r w1).2) eqn:E; [|done]. by apply budget_outcome_ok in E as ->.
Qed.

Lemma on_error_emits {A} P n (Q : A -> Prop) f m : emits P n Q m -> emits P n Q (on_error f m).
Proof.
  intros Hm w. destruct (Hm w) as (qs & H). exists qs. unfold on_error. by destruct (m w) as [w' [a|e]].
Qed.

(** The transport answers with the URL of the request: it follows no redirect itself. *)
Class TransportLaws : Prop := {
  reply_url : forall n q r, transport_reply n q = Ok r -> rs_url r = q_url q;
}.

Context {transport_laws : TransportLaws}.

(** A request that is counted and sent. *)
Lemma emits_send {A} (P : HopRequest -> Prop) n (Q : A -> Prop) q k :
  P q -> (forall r, rs_url r = q_url q -> emits P n Q (k r)) ->
  emits P (S n) Q (let* _ := signal_record_send in let* r := execute_request q in k r).
Proof.
  intros HP Hk w. set (m := let* _ := signal_record_send in let* r := execute_request q in k r).
  destruct (checked_add u64_max (sends w) 1) as [c|] eqn:Hadd.
  2: { assert (E : exists s, m w = (w, Err s)) by (subst m; unfold bind, signal_record_send; rewrite Hadd; by eexists).
       destruct E as [s E]. destruct (emits_stop P (S n) Q s w) as (qs & H). exists qs. by rewrite E. }
  assert (c = sends w + 1) as -> by (revert Hadd; unfold checked_add; case_match; congruence).
  set (w1 := mkNet (tick w) (sent w ++ [q]) (sends w + 1)).
  assert (E : m w = (let* r := (let* _ := wait_point in let* n := observe in
    lift (map_err map_execute_error (transport_reply n q))) in k r) w1)
    by (subst m; unfold bind at 1, signal_record_send; rewrite Hadd; done).
  rewrite E.
  assert (Hrest : emits P n Q (let* r := (let* _ := wait_point in let* n := observe in
    lift (map_err map_execute_error (transport_reply n q))) in k r)).
  { apply (emits_bind_quiet P n (fun r => rs_url r = q_url q)); [|done].
    apply (emits_bind_quiet P 0 (fun _ => True)); [by apply quiet_emits; [apply wait_point_quiet|]|]. intros _ _.
    apply (emits_bind_quiet P 0 (fun _ => True)); [by apply quiet_emits|]. intros t _. apply emits_lift.
    intros r. destruct (transport_reply t q) eqn:Hr; simpl; [intros [= <-]; by eapply reply_url|done]. }
  destruct (Hrest w1) as (qs & Hs & Hc & Hq & Hl & Hr). exists (q :: qs).
  split_and!.
  - etransitivity; [exact Hs|]. simpl. by rewrite <- app_assoc.
  - etransitivity; [exact Hc|]. simpl. lia.
  - by constructor.
  - simpl. lia.
  - exact Hr.
Qed.

(** ** Redirects *)

(** No credentials but cookies the store released for this request. *)
Definition store_cookies_only (c : HttpClientConfig) (context : CookieRequestContext) (m : Method) (url : Url) (h : HeaderMap) : Prop :=
  forall e, e ∈ h ->
    (hv_sensitive e.2 = false /\ e.1 ∉ CREDENTIAL_HEADERS) \/
    (e.1 = "cookie"%string /\ cookie_store c = true /\
     exists n value, cookie_request n url m context = Some (Ok (Some value)) /\ hv_text e.2 = hv_text value).

(** What a policy grants to a request that follows a response to a request for [original]. *)
Record hop_granted (c : HttpClientConfig) (context : CookieRequestContext) (replayable : bool) (original : Url) (q : HopRequest) : Prop := {
  granted_origin : origin (q_url q) = origin original \/
    exists allowed, allowed ∈ allowed_origins (redirect_policy c) /\ origin allowed = origin (q_url q);
  granted_scheme : http_scheme (q_url q) = true;
  granted_anonymous : username (q_url q) = ""%string /\ password (q_url q) = None;
  granted_secure : scheme original = "https"%string \/ hop_security c = HttpTransportSecurity.HttpsOnly ->
    scheme (q_url q) = "https"%string;
  granted_headers : origin (q_url q) <> origin original -> store_cookies_only c context (q_method q) (q_url q) (q_headers q);
  granted_body : is_some (q_body q) = true -> replayable = true;
}.

(** What [check_redirect] lets through. *)
Lemma check_redirect_ok policy original current next followed security :
  check_redirect policy original current next followed security = Ok tt ->
  http_scheme next = true /\ username next = ""%string /\ password next = None /\
  (scheme current = "https"%string \/ security = HttpTransportSecurity.HttpsOnly -> scheme next = "https"%string) /\
  (origin next = origin original \/ exists allowed, allowed ∈ allowed_origins policy /\ origin allowed = origin next) /\
  followed < max_redirects policy.
Proof.
  unfold check_redirect. destruct (negb (http_scheme next) || _ || _ || _) eqn:H1; [done|].
  destruct (negb (bool_decide (scheme next = _)) && _) eqn:H2; [done|].
  destruct (negb (bool_decide (origin next = _)) && _) eqn:H3; [done|].
  destruct (Z.leb_spec (max_redirects policy) followed) as [|H4]; [done|]. intros _.
  rewrite !orb_false_iff, !negb_false_iff, bool_decide_eq_true in H1. destruct H1 as [[[Hs _] Hu] Hp].
  split_and!; [done|done|by destruct (password next)| | |done].
  - intros Hor. apply andb_false_iff in H2 as [H2|H2]; [by apply negb_false_iff, bool_decide_eq_true in H2|].
    rewrite orb_false_iff, !bool_decide_eq_false in H2. tauto.
  - apply andb_false_iff in H3 as [H3|H3]; [left; by apply negb_false_iff, bool_decide_eq_true in H3|right].
    apply negb_false_iff, existsb_exists in H3 as (a & Ha & Ho). apply bool_decide_eq_true in Ho.
    exists a. split; [by apply list_elem_of_In|done].
Qed.

Lemma hop_target_ok c original h followed next :
  hop_target c original h followed = Ok (Some next) ->
  check_redirect (redirect_policy c) original (rs_url (h_response h)) next followed (hop_security c) = Ok tt.
Proof.
  unfold hop_target. destruct (_ || _); [done|]. destruct (header_get _ _) as [l|]; [|done].
  destruct (header_str l) as [t|]; simpl; [|done]. destruct (url_join _ t) as [u|]; simpl; [|done].
  destruct (check_redirect _ _ _ _ _ _) as [[]|] eqn:E; simpl; [|done]. by intros [= <-].
Qed.

(** What a hop keeps: away from the original origin it carries no credentials and asks no provider. *)
Record hop_ok (c : HttpClientConfig) (original : Url) (h : Hop) (url : Url) : Prop := {
  hop_secure : scheme original = "https"%string -> scheme url = "https"%string;
  hop_anonymous : origin url = origin original \/ (h_auth h = false /\ credential_free (h_headers h));
}.

Lemma hop_prepare_ok c original h next followed :
  hop_ok c original h (rs_url (h_response h)) -> hop_target c original h followed = Ok (Some next) ->
  hop_ok c original (hop_prepare h next) next.
Proof.
  intros [Hs Ha] Ht. apply hop_target_ok, check_redirect_ok in Ht as (_ & _ & _ & Hsec & _ & _).
  split; [intros; apply Hsec; left; by apply Hs|].
  unfold hop_prepare. destruct (redirect_method _ _) as [m preserve]. simpl.
  case_bool_decide as Ho; [|right; split; [done|apply strip_credential_free]].
  destruct Ha as [Ha|[Ha Hc]]; [left; congruence|right]. split; [done|].
  destruct preserve; [done|]. simpl. by repeat apply remove_credential_free.
Qed.

Lemma build_hop_spec m url headers body P n :
  emits P n (fun q => q_url q = url /\ q_method q = m /\ q_body q = body /\
      forall c context, store_cookies_only c context m url headers -> store_cookies_only c context m url (q_headers q))
    (build_hop m url headers body).
Proof.
  apply (emits_bind_quiet P n (fun _ => True)); [by apply quiet_emits|]. intros t _.
  destruct (build_failure _ _); [apply emits_stop|]. apply emits_ret. simpl. split_and!; [done..|].
  intros c context Hc. destruct body as [[|]|]; [|done..]. unfold header_append. intros e He.
  apply elem_of_app in He as [He|He%list_elem_of_singleton]; [by apply Hc|]. subst e. simpl. left. split; [done|].
  unfold CREDENTIAL_HEADERS. set_solver.
Qed.

(** Headers without credentials get at most the cookie of the store. *)
Lemma apply_cookie_header_only c context m url n headers request_id headers' :
  credential_free headers ->
  apply_cookie_header (cookie_store c) (cookie_limits c) (cookie_request n url m context) headers request_id = Ok headers' ->
  store_cookies_only c context m url headers'.
Proof.
  intros Hc. assert (store_cookies_only c context m url headers) as Hh by (intros e He; left; by apply Hc).
  unfold apply_cookie_header. destruct (cookie_store c) eqn:Hs; simpl; [|by intros [= <-]].
  destruct (header_get headers "cookie") as [v|] eqn:Hg; simpl.
  { exfalso. unfold header_get in Hg. destruct (List.find _ headers) as [e|] eqn:Hf; [|done].
    apply find_some in Hf as [He%list_elem_of_In Hn%bool_decide_eq_true]. destruct (Hc e He) as [_ Hnot].
    apply Hnot. rewrite Hn. unfold CREDENTIAL_HEADERS. set_solver. }
  destruct (cookie_request n url m context) as [[[value|]|error]|] eqn:Hr; [| | |done].
  - destruct (_ <? _); [done|]. intros [= <-]. unfold header_insert. intros e [He|He%list_elem_of_singleton]%elem_of_app.
    + apply Hh. unfold header_remove in He. by apply list_elem_of_filter in He as [_ ?].
    + subst e. right. simpl. split_and!; [done|done|]. by exists n, value.
  - by intros [= <-].
  - by destruct (_ && _).
Qed.

Lemma request_cookies_spec c m url context request_id headers P n :
  emits P n (fun h => credential_free headers -> store_cookies_only c context m url h) (request_cookies c m url context request_id headers).
Proof.
  apply (emits_bind_quiet P n (fun _ => True)); [by apply quiet_emits|]. intros b _.
  apply (emits_bind_quiet P n (fun _ => True)); [by apply emits_lift|]. intros _ _.
  apply (emits_bind_quiet P n (fun _ => True)); [by apply quiet_emits|]. intros t _.
  apply (emits_bind_quiet P n (fun _ => True)); [by apply quiet_emits|]. intros b' _.
  apply (emits_bind_quiet P n (fun _ => True)); [by apply emits_lift|]. intros _ _.
  apply emits_lift. intros h Hh Hc. by eapply apply_cookie_header_only.
Qed.

Lemma response_cookies_spec c request_id response P n :
  emits P n (fun r => rs_url r = rs_url response /\ rs_status r = rs_status response /\ rs_chunks r = rs_chunks response)
    (response_cookies c request_id response).
Proof.
  unfold response_cookies. destruct (negb _); [by apply emits_ret|].
  apply (emits_bind_quiet P n (fun _ => True)); [by apply quiet_emits|]. intros b _.
  apply (emits_bind_quiet P n (fun _ => True)); [by apply quiet_emits|]. intros t _.
  apply (emits_bind_quiet P n (fun _ => True)); [by apply quiet_emits|]. intros b' _.
  destruct (update_response_cookies _ _ _ _ _ _) as [headers result].
  apply (emits_bind_quiet P n (fun _ => True)); [by apply emits_lift|]. intros _ _. by apply emits_ret.
Qed.

(** A hop that was authorized sends one request that the policy grants. *)
Lemma hop_execute_ok c hops original h followed next :
  hop_ok c original h (rs_url (h_response h)) -> hop_target c original h followed = Ok (Some next) ->
  ((redirect_method (rs_status (h_response h)) (h_method h)).2 && h_body h && negb (rh_replayable hops) = false) ->
  emits (hop_granted c (rh_cookies hops) (rh_replayable hops) original) 1 (fun h' => hop_ok c original h' (rs_url (h_response h')))
    (hop_execute c hops (hop_prepare h next) next).
Proof.
  intros Hh Ht Hb. pose proof (hop_prepare_ok _ _ _ _ _ Hh Ht) as [Hsec Hanon].
  assert (Hbody : h_body (hop_prepare h next) = true -> rh_replayable hops = true).
  { revert Hb. unfold hop_prepare. destruct (redirect_method _ _) as [m [|]]; simpl; [|done].
    destruct (h_body h), (rh_replayable hops); done. }
  apply hop_target_ok, check_redirect_ok in Ht as (Hsch & Hu & Hp & Hs & Ho & _).
  set (P := hop_granted _ _ _ _). unfold hop_execute. set (h1 := hop_prepare h next) in *.
  apply (emits_bind_quiet P 1 (fun a => h_auth h1 = false -> a.1 = h_headers h1)).
  { destruct (h_auth h1); [|by apply emits_ret].
    apply (emits_bind_quiet P 0 (fun _ => True)).
    { apply quiet_emits; [|done]. apply quiet_bind; [apply wait_point_quiet|done]. }
    intros answer _. apply (emits_bind_quiet P 0 (fun _ => True)); [by apply quiet_emits; [apply check_budget_quiet|]|].
    intros _ _. destruct (aa_ok answer); [by apply emits_ret|apply emits_stop]. }
  intros answer Hans. eapply (emits_bind_quiet P 1); [apply request_cookies_spec|]. intros headers Hcook.
  apply (emits_bind_quiet P 1 (fun _ => True)); [by apply quiet_emits; [apply check_budget_quiet|]|].
  intros _ _. eapply (emits_bind_quiet P 1); [apply build_hop_spec|]. intros q (Hqu & Hqm & Hqb & Hqc).
  apply emits_send.
  - constructor; rewrite ?Hqu; [by destruct Ho; [left|right]|done|done| | |].
    + intros [?|?]; [by apply Hsec|]. apply Hs. by right.
    + intros Hne. destruct Hanon as [?|[Ha Hc]]; [done|]. rewrite Hqm. apply Hqc, Hcook. by rewrite Hans.
    + rewrite Hqb. destruct (h_body h1) eqn:?; [intros; by apply Hbody|done].
  - intros r Hr. apply emits_ret. rewrite Hqu in Hr. simpl. rewrite Hr. by split.
Qed.

Lemma follow_loop_ok fuel c hops original followed h :
  hop_ok c original h (rs_url (h_response h)) ->
  emits (hop_granted c (rh_cookies hops) (rh_replayable hops) original) (Z.to_nat (max_redirects (redirect_policy c) - followed)) (fun _ => True)
    (follow_loop fuel c hops original followed h).
Proof.
  set (P := hop_granted _ _ _ _). revert followed h. induction fuel as [|fuel IH]; intros followed h0 Hh0; simpl; [apply emits_stop|].
  apply (emits_bind_quiet P _ (fun _ => True)); [by apply quiet_emits; [apply check_budget_quiet|]|]. intros _ _.
  eapply (emits_bind_quiet P); [apply response_cookies_spec|]. intros response (Hurl & _). set (h := mkHop response _ _ _ _ _).
  assert (hop_ok c original h (rs_url (h_response h))) as Hh by (destruct Hh0 as [Hs Ha]; split; simpl; by rewrite Hurl).
  apply (emits_bind_quiet P _ (fun _ => True)); [by apply quiet_emits; [apply check_budget_quiet|]|]. intros _ _.
  apply (emits_bind_quiet P _ (fun t => hop_target c original h followed = Ok t)); [by apply emits_lift|].
  intros [next|] Ht; [|by apply emits_ret].
  destruct ((redirect_method _ _).2 && _ && _) eqn:Hb; [by apply emits_ret|].
  pose proof (hop_target_ok _ _ _ _ _ Ht) as Hc. apply check_redirect_ok in Hc as (_ & _ & _ & _ & _ & Hf).
  eapply emits_mono; [eapply (emits_bind P 1); [by eapply hop_execute_ok|]|done| |done].
  { intros h' Hh'. by apply IH. }
  lia.
Qed.

Lemma follow_ok c hops response :
  emits (hop_granted c (rh_cookies hops) (rh_replayable hops) (rs_url response)) (Z.to_nat (max_redirects (redirect_policy c))) (fun _ => True)
    (follow_response_hops c hops response).
Proof.
  apply on_error_emits, run_budget_emits. set (P := hop_granted _ _ _ _).
  apply (emits_bind_quiet P _ (fun _ => True)); [by apply quiet_emits|]. intros t _.
  apply (emits_bind_quiet P _ (fun _ => True)); [by apply emits_lift|]. intros headers _.
  rewrite <- (Z.sub_0_r (max_redirects _)) at 1. apply follow_loop_ok. split; [done|by left].
Qed.

End Sending.

(** Whatever a server answers, a followed redirect leads only where the policy grants: every
    request the redirects of a response send goes to the origin of the response or to an allowed
    origin, by HTTP or HTTPS and without credentials in its URL; away from the first origin it has
    no sensitive header and no credential header but a cookie the store gave for that very URL; it is
    never downgraded from HTTPS; it repeats the body only of a replayable request; and there are
    at most [max_redirects] of them. *)
Theorem redirects_confined {urls : Urls} {surroundings : Surroundings} {transport_laws : TransportLaws} {graph : ErrorGraph}
    {clk : Clock} c hops response w w' result :
  follow_response_hops c hops response w = (w', result) ->
  exists qs, sent w' = sent w ++ qs /\ sends w' = sends w + Z.of_nat (length qs) /\
    Forall (hop_granted c (rh_cookies hops) (rh_replayable hops) (rs_url response)) qs /\
    (length qs <= Z.to_nat (max_redirects (redirect_policy c)))%nat.
Proof.
  intros Hf. destruct (follow_ok c hops response w) as (qs & Hs & Hc & Hq & Hl & _). rewrite Hf in Hs, Hc. by exists qs.
Qed.

(** ** A concrete instance *)

(** A server that redirects to another host, which answers; the provider writes a secret. *)
Definition redirect_reply (q : HopRequest) : Result Response ReqwestError :=
  if bool_decide (pu_host (q_url q) = "api.example"%string)
  then Ok (mkResponse (q_url q) 302 [("location"%string, mkHeaderValue "https://cdn.example/file" false)] [])
  else Ok (mkResponse (q_url q) 200 [] [Ok "da"%string; Ok "ta"%string]).

(** A store with a cookie for that other host. *)
Definition sample_store (url : Url) (m : Method) (context : CookieRequestContext) : option (Result (option HeaderValue) NetError) :=
  Some (Ok (if bool_decide (pu_host url = "cdn.example"%string) then Some (mkHeaderValue "sid=1" true) else None)).

#[export] Instance sample_surroundings : Surroundings := {
  cancelled_at _ := false;
  clock_at n := Z.of_nat n;
  awaited _ := None;
  slept _ _ := true;
  transport_reply _ q := redirect_reply q;
  build_failure _ _ := None;
  auth_apply _ _ _ _ := mkAuthAnswer [("authorization"%string, mkHeaderValue "secret" false)] 7 true;
  on_unauthorized _ _ _ _ _ := None;
  cookie_request _ := sample_store;
  cookie_update _ _ _ := Some (Ok tt);
  system_at _ := 0;
  max_permits := sample_max_permits;
}.

#[export] Instance sample_transport : TransportLaws.
Proof. constructor. intros n q r. simpl. unfold redirect_reply. case_bool_decide; by intros [= <-]. Qed.

Definition sample_hops : ResponseHops :=
  mkResponseHops sample_headers "" false true Method.GET 1 1 7 budget_none (mkCookieRequestContext None false).

Definition api_response : Response :=
  mkResponse (mkPlainUrl "https" "api.example" "/") 302 [("location"%string, mkHeaderValue "https://cdn.example/file" false)] [].

Definition redirected : Net * Result (Response * Z * bool) NetError :=
  follow_response_hops (clk := linux_clock) sample_config sample_hops api_response (mkNet 0 [] 0).

Lemma redirects_confined_witness :
  (fun q => header_get (q_headers q) "cookie") <$> sent redirected.1 = [Some (mkHeaderValue "sid=1" true)] /\
  exists qs, sent redirected.1 = [] ++ qs /\ sends redirected.1 = 0 + Z.of_nat (length qs) /\
    Forall (hop_granted sample_config (rh_cookies sample_hops) true (rs_url api_response)) qs /\ (length qs <= 2)%nat.
Proof.
  split; [vm_compute; reflexivity|].
  apply (redirects_confined (clk := linux_clock) sample_config sample_hops api_response (mkNet 0 [] 0) redirected.1 redirected.2).
  vm_compute. reflexivity.
Defined.
