(* ===== verification/HttpRequest.v ===== *)
(** * A buffered HTTP request: its attempts, its retries and its report

    [run_request] with what it calls (src/module/http/http_client_inner.rs):
    the lifecycle that feeds the retry observer and freezes the report, one
    attempt with its budgets, redirects and body, and the decision to repeat
    it.  The getters of the request are functions of the application, read anew
    by every attempt.  Of HTTP/2 the demand for TLS is modelled, not the
    description of the connection a response carries; middleware and the quality
    diagnosis are left out. *)

From S2P Require Import Prelude F64 Backoff RetrySchedule RetryState Errors HttpTimeouts HttpRetry HttpConfig HttpCookies RetryAfter HttpHops.

(** ** The lifecycle *)

(** [RetryObserverLifecycle], with what it writes elsewhere: the report and the deferred
    observation of the signal, and the events its observer received. *)
Record Lifecycle := mkLifecycle {
  lf_observer : bool;
  lf_start : Instant;
  lf_state : RetryState;
  lf_current : option Z;
  lf_completed : bool;
  lf_frozen : option RetryReport;
  lf_deferred : bool;
  lf_report : option RetryReport;
  lf_pending : option (option Z * RetryReport);
  lf_events : list RetryEvent;
}.

#[export] Instance Lifecycle_settable : Settable Lifecycle :=
  fields! mkLifecycle [ lf_observer; lf_start; lf_state; lf_current; lf_completed; lf_frozen; lf_deferred; lf_report; lf_pending;
    lf_events ].

Definition lifecycle_new (observer : bool) (start : Instant) (sched : RetrySchedule) (seed : Z) (deferred : bool) : Lifecycle :=
  mkLifecycle observer start (with_seed sched seed) None false None deferred None None [].

Definition retry_state_error (error : RetryStateError) : NetError :=
  with_stage (with_source ErrorKind.Internal (RetryStateSource error)) ErrorStage.Dispatch.

Definition notify (lf : Lifecycle) (events : list RetryEvent) : Lifecycle :=
  if lf_observer lf then lf <| lf_events ::= (fun l => l ++ events) |> else lf.

Definition lifecycle_attempt_started (lf : Lifecycle) : Lifecycle * Result Z NetError :=
  match begin_attempt (lf_state lf) with
  | (st, Err error) => (lf <| lf_state := st |>, Err (retry_state_error error))
  | (st, Ok attempt) =>
      (notify (lf <| lf_state := st; lf_current := Some attempt |>) [RetryEvent.AttemptStarted attempt], Ok attempt)
  end.

Definition lifecycle_retry_scheduled (lf : Lifecycle) (attempt : Z) (delay : Duration) : Lifecycle :=
  (notify lf [RetryEvent.RetryScheduled attempt delay; RetryEvent.AttemptFinished attempt false]) <| lf_current := None |>.

Definition lifecycle_report (lf : Lifecycle) (t : Instant) (count : Z) : RetryReport :=
  match lf_frozen lf with
  | Some report => report
  | None =>
      let r := report (lf_state lf) (saturating_duration_since t (lf_start lf)) in
      mkRetryReport (rep_attempts r) (rep_retry_count r) count (rep_elapsed r) (rep_stop_reason r)
  end.

Definition lifecycle_stop (lf : Lifecycle) (reason : RetryStopReason) : Lifecycle :=
  lf <| lf_state := (finish (lf_state lf) reason).1 |>.

(** [PendingRetryObservation::emit] *)
Definition terminal_events (attempt : option Z) (r : RetryReport) : list RetryEvent :=
  match attempt with Some attempt => [RetryEvent.AttemptFinished attempt true] | None => [] end ++ [RetryEvent.Completed r].

Definition emit_terminal (lf : Lifecycle) (t : Instant) (count : Z) : Lifecycle :=
  let r := lifecycle_report lf t count in
  let lf := lf <| lf_frozen := Some r; lf_report := Some r |> in
  if negb (lf_observer lf) then lf
  else
    let attempt := lf_current lf in
    let lf := lf <| lf_current := None |> in
    if lf_deferred lf then lf <| lf_pending := Some (attempt, r) |>
    else notify lf (terminal_events attempt r).

Definition is_success (status : StatusCode) : bool := (200 <=? status) && (status <? 300).

(** [complete_summary] *)
Definition lifecycle_complete (lf : Lifecycle) (t : Instant) (count : Z) (result : HttpResult) (exhausted : bool) : Lifecycle :=
  if lf_completed lf then lf
  else
    let reason := match result with
                  | Err error => stop_for_error error
                  | Ok response => if is_success (rp_status response) then RetryStopReason.Completed
                                   else if exhausted then RetryStopReason.AttemptsExhausted else RetryStopReason.NotRetryable
                  end in
    emit_terminal (lifecycle_stop (lf <| lf_completed := true |>) reason) t count.

(** [Drop for RetryObserverLifecycle] *)
Definition lifecycle_drop (lf : Lifecycle) (t : Instant) (count : Z) : Lifecycle :=
  if lf_completed lf then lf
  else emit_terminal (lifecycle_stop (lf <| lf_completed := true |>) RetryStopReason.Cancelled) t count.

(** [finish_http_result] *)
Definition finish_http_result (lf : Lifecycle) (t : Instant) (count : Z) (result : HttpResult) (reason : RetryStopReason) :
    Lifecycle * HttpResult :=
  let lf := lifecycle_complete (lifecycle_stop lf reason) t count result false in
  let r := lifecycle_report lf t count in
  (lf, match result with
       | Ok response => Ok (response <| rp_retry_report := Some r |>)
       | Err error => Err (with_retry_report error r)
       end).

(** ** One attempt *)

(** What the getters of the request return to an attempt. *)
Record RequestView := mkRequestView { rv_path : Text; rv_headers : HeaderMap; rv_body : string; rv_has_body : bool }.

Record SendJob {urls : Urls} := mkSendJob {
  job_method : Result Method NetError;
  job_view : Z -> RequestView;
  job_retry : RetrySetting HttpRetryPolicy;
  job_timeouts : HttpTimeouts;
  job_replayable : bool;
  job_request_id : Z;
  job_start : Instant;
  job_seed : Z;
  job_deferred : bool;
  job_cookies : CookieRequestContext;
}.

Arguments mkSendJob {urls}.

Section Attempt.
Context {urls : Urls} {surroundings : Surroundings} {graph : ErrorGraph} {clk : Clock} {dates : HttpDates}.

(** The result of a computation, as a value. *)
Definition catch {A} (m : M NetError A) : M NetError (Result A NetError) := fun w => match m w with (w, r) => (w, Ok r) end.

(** The loop of [read_response]. *)
Fixpoint read_chunks (chunks : list (Result string ReqwestError)) (c : HttpClientConfig) (b : HttpBudget) (idle : option Duration)
    (read_budget : HttpBudget) (body : string) : M NetError string :=
  let next := match chunks with
              | [] => Ok None
              | Ok chunk :: _ => Ok (Some chunk)
              | Err error :: _ => Err (map_body_error error)
              end in
  let* next := run_budget read_budget ErrorStage.Receive (let* _ := wait_point in lift next) in
  match chunks, next with
  | _ :: rest, Some chunk =>
      let* read_budget := (if bool_decide (chunk = ""%string) then ret read_budget
                           else let* t := now in lift (budget_with_phase b t idle TimeoutPhase.IdleRead)) in
      let total := Z.min usize_max (Z.of_nat (String.length body) + Z.of_nat (String.length chunk)) in
      if max_response_bytes c <? total
      then fail (with_stage (NetError_new ErrorKind.ItemTooLarge) ErrorStage.Receive)
      else read_chunks rest c b idle read_budget (String.append body chunk)
  | _, _ => ret body
  end.

Definition read_response (c : HttpClientConfig) (b : HttpBudget) (idle : option Duration) (attempts request_id : Z) (r : Response) :
    M NetError HttpResponse :=
  let* read := catch (let* t := now in
                      let* read_budget := lift (budget_with_phase b t idle TimeoutPhase.IdleRead) in
                      read_chunks (rs_chunks r) c b idle read_budget "") in
  match read with
  | Ok body => ret (mkHttpResponse (rs_status r) (rs_headers r) body attempts request_id None)
  | Err error => if bool_decide (kind error = ErrorKind.Cancelled) then fail error
                 else fail (with_http_response_head error (mkHttpResponseHead (rs_status r) (rs_headers r)))
  end.

(** The outcome of an attempt. *)
Record Exchange := mkExchange {
  ex_budget : HttpBudget;
  ex_result : HttpResult;
  ex_server_delay : option Duration;
  ex_generation : Z;
  ex_auth : bool;
}.

Definition writes_body (m : Method) : bool := match m with Method.POST | Method.PUT | Method.PATCH => true | _ => false end.

(** An attempt, from its budget to the arbitration of its result; it fails only where the code
    returns early with [?]. *)
Definition attempt_exchange (c : HttpClientConfig) (job : SendJob) (m : Method) (resolved : ResolvedTimeouts) (total : HttpBudget)
    (attempt : Z) : M NetError Exchange :=
  let* t := now in
  let* b := lift (budget_with_phase total t (res_attempt resolved) TimeoutPhase.Attempt) in
  let view := job_view job attempt in
  let body_present := negb (bool_decide (rv_body view = ""%string)) || rv_has_body view in
  let* prepared := catch (run_budget b ErrorStage.Provider
    (build_request c m (rv_path view) (rv_headers view) (rv_body view) body_present (job_request_id job)
       (job_cookies job))) in
  let* t := now in
  let* headers_budget := lift (budget_with_phase b t (res_headers resolved) TimeoutPhase.Headers) in
  let* replied := match prepared with
                  | Ok (q, generation) =>
                      catch (let* r := run_budget headers_budget ErrorStage.Response
                                         (let* _ := signal_record_send in let* r := execute_request q in ret r) in
                             ret (r, generation))
                  | Err error => ret (Err error)
                  end in
  let* followed := match replied with
                   | Ok (r, generation) =>
                       catch (follow_response_hops c
                         (mkResponseHops (rv_headers view) (rv_body view) (body_present || writes_body m) (job_replayable job) m
                            (job_request_id job) attempt generation headers_budget (job_cookies job)) r)
                   | Err error => ret (Err error)
                   end in
  let* n := observe in
  let server_delay := match followed with
                      | Ok (r, _, _) => parse_retry_after_at (rs_headers r) (system_at n)
                      | Err _ => None
                      end in
  let* result := match followed with
                 | Ok (r, _, _) => catch (read_response c b (res_idle_read resolved) attempt (job_request_id job) r)
                 | Err error => ret (Err error)
                 end in
  let* result := catch (arbitrate_result b ErrorStage.Receive result) in
  let '(generation, allowed) := match followed with Ok (_, generation, allowed) => (generation, allowed) | Err _ => (0, auth c) end in
  ret (mkExchange b result server_delay generation allowed).

(** ** The decision to repeat an attempt *)

(** What the loop remembers of the authentication provider. *)
Record AuthMemory := mkAuthMemory { retry_used : bool; do_not_retry : bool }.

(** The asynchronous part of the decision: what the provider answers to a 401. *)
Definition ask_provider (b : HttpBudget) (status : StatusCode) (challenge : option HeaderValue) (attempt generation : Z) :
    M NetError AuthAction :=
  run_budget b ErrorStage.Provider
    (let* _ := wait_point in
     let* n := observe in
     match on_unauthorized n status challenge attempt generation with
     | Some action => ret action
     | None => fail provider_failed
     end).

(** A 401 asks the provider once for each answer it gave; the result tells whether the attempt is
    repeated with fresh credentials. *)
Definition auth_decision (c : HttpClientConfig) (retry_allowed can : bool) (attempt : Z) (ex : Exchange) (memory : AuthMemory) :
    M NetError (bool * AuthMemory) :=
  match ex_result ex with
  | Ok response =>
      if (rp_status response =? 401) && negb (retry_used memory) && ex_auth ex && retry_allowed && can && auth c then
        let* action := ask_provider (ex_budget ex) (rp_status response) (header_get (rp_headers response) "www-authenticate") attempt
                         (ex_generation ex) in
        match action with
        | AuthAction.RetryWithFreshCredentials => ret (true, mkAuthMemory true (do_not_retry memory))
        | AuthAction.DoNotRetry => ret (false, mkAuthMemory (retry_used memory) true)
        end
      else ret (false, memory)
  | Err _ => ret (false, memory)
  end.

(** Is another attempt asked for? *)
Definition retry_requested (p : HttpRetryPolicy) (decision : RetryDecision) (auth_retry : bool) (memory : AuthMemory)
    (result : HttpResult) : bool :=
  let blocked_auth := negb auth_retry && (retry_used memory || do_not_retry memory) &&
                      match result with Ok response => rp_status response =? 401 | Err _ => false end in
  auth_retry ||
  (negb blocked_auth &&
   match decision with
   | RetryDecision.Retry => true
   | RetryDecision.Default =>
       match result with
       | Ok response => should_retry_status p (rp_status response)
       | Err error => http_should_retry_error p error
       end
   | RetryDecision.Stop => false
   end).

(** The reason a result that asks for no further attempt ends with. *)
Definition final_reason (result : HttpResult) : RetryStopReason :=
  match result with
  | Ok response => if is_success (rp_status response) then RetryStopReason.Completed else RetryStopReason.NotRetryable
  | Err error => stop_for_error error
  end.

(** [wait_for_retry] *)
Definition wait_for_retry (delay : Duration) (deadline : option Instant) : M NetError bool :=
  let* delay := match deadline with
                | Some limit => let* t := now in ret (if t <=? limit then Some (Z.min (limit - t) delay) else None)
                | None => ret (Some delay)
                end in
  match delay with
  | None => ret false
  | Some delay =>
      let* n := observe in
      if negb (slept n delay) then ret false
      else
        let* cancelled := is_cancelled in
        if cancelled : bool then ret false
        else match deadline with Some limit => let* t := now in ret (t <? limit) | None => ret true end
  end.

Inductive Round :=
| Finished (lf : Lifecycle) (result : HttpResult)
| Again (lf : Lifecycle) (memory : AuthMemory).

Definition finish_round (lf : Lifecycle) (result : HttpResult) (reason : RetryStopReason) (w : Net) : Net * Round :=
  let w' := mkNet (S (tick w)) (sent w) (sends w) in
  let '(lf, result) := finish_http_result lf (clock_at (tick w)) (sends w) result reason in
  (w', Finished lf result).

(** [terminal_error] *)
Definition terminal_error (lf : Lifecycle) (error : NetError) (w : Net) : Net * Round :=
  finish_round lf (Err error) (stop_for_error error) w.

(** An early return: the lifecycle is dropped before it completed. *)
Definition abandon (lf : Lifecycle) (error : NetError) (w : Net) : Net * Round :=
  (mkNet (S (tick w)) (sent w) (sends w), Finished (lifecycle_drop lf (clock_at (tick w)) (sends w)) (Err error)).

Context {libm : Libm}.

(** What [run_request] computes before its loop. *)
Record Plan := mkPlan {
  pl_policy : HttpRetryPolicy;
  pl_method : Method;
  pl_allowed : bool;
  pl_resolved : ResolvedTimeouts;
  pl_total : HttpBudget;
}.

(** The end of a round: the delay of the next attempt, and the wait. *)
Definition schedule_retry (job : SendJob) (pl : Plan) (attempt : Z) (ex : Exchange) (memory : AuthMemory) (lf : Lifecycle) (w : Net) :
    Net * Round :=
  let w1 := mkNet (S (tick w)) (sent w) (sends w) in
  let '(st, delay) := next_delay (clock_at (tick w)) (lf_state lf) in
  let lf := lf <| lf_state := st |> in
  match delay with
  | Err error => abandon lf (retry_state_error error) w1
  | Ok None => finish_round lf (ex_result ex) RetryStopReason.AttemptsExhausted w1
  | Ok (Some base) =>
      let delay := retry_after_select (hr_retry_after (pl_policy pl)) (ex_server_delay ex) base in
      let lf := lifecycle_retry_scheduled lf attempt delay in
      match wait_for_retry delay (budget_deadline (pl_total pl)) w1 with
      | (w, Ok true) => (w, Again lf memory)
      | (w, _) =>
          let cancelled := cancelled_at (tick w) in
          let w := mkNet (S (tick w)) (sent w) (sends w) in
          terminal_error lf
            (if cancelled then with_stage (NetError_new ErrorKind.Cancelled) ErrorStage.Receive
             else with_stage (with_timeout_phase (NetError_new ErrorKind.DeadlineExceeded) TimeoutPhase.Total) ErrorStage.Receive) w
      end
  end.

(** The decision after an attempt. *)
Definition decide_round (c : HttpClientConfig) (job : SendJob) (pl : Plan) (attempt : Z) (ex : Exchange) (memory : AuthMemory)
    (lf : Lifecycle) (w : Net) : Net * Round :=
  let result := ex_result ex in
  let ineligible := match result with
                    | Err error => if negb (retry_error_is_eligible error) then Some (stop_for_error error) else None
                    | Ok _ => None
                    end in
  match ineligible with
  | Some reason => finish_round lf result reason w
  | None =>
      let elapsed := saturating_duration_since (clock_at (tick w)) (job_start job) in
      let remaining := (fun deadline => saturating_duration_since deadline (clock_at (S (tick w)))) <$> budget_deadline (pl_total pl) in
      let w := mkNet (S (S (tick w))) (sent w) (sends w) in
      match policy_classify (pl_policy pl) (mkHttpRetryContext result attempt elapsed remaining) with
      | Err error => terminal_error lf error w
      | Ok decision =>
          match check_budget (pl_total pl) ErrorStage.Provider w with
          | (w, Err error) => terminal_error lf error w
          | (w, Ok _) =>
              if match decision with RetryDecision.Stop => true | _ => false end
              then finish_round lf result RetryStopReason.ClassifierStopped w
              else
                match auth_decision c (pl_allowed pl) (can_retry (lf_state lf)) attempt ex memory w with
                | (w, Err error) => terminal_error lf error w
                | (w, Ok (auth_retry, memory)) =>
                    if negb (retry_requested (pl_policy pl) decision auth_retry memory result)
                    then finish_round lf result (final_reason result) w
                    else if negb (pl_allowed pl) then finish_round lf result RetryStopReason.UnsafeToReplay w
                    else if negb (can_retry (lf_state lf)) then finish_round lf result RetryStopReason.AttemptsExhausted w
                    else schedule_retry job pl attempt ex memory lf w
                end
          end
      end
  end.

(** One turn of the loop of [run_request]. *)
Definition run_round (c : HttpClientConfig) (job : SendJob) (pl : Plan) (memory : AuthMemory) (lf : Lifecycle) (w : Net) : Net * Round :=
  match check_budget (pl_total pl) ErrorStage.Dispatch w with
  | (w, Err error) => terminal_error lf error w
  | (w, Ok _) =>
      if (0 <? attempts (lf_state lf)) && negb (job_replayable job)
      then terminal_error lf (with_stage (NetError_new ErrorKind.BodyNotReplayable) ErrorStage.RequestBuild) w
      else
        match lifecycle_attempt_started lf with
        | (lf, Err error) => abandon lf error w
        | (lf, Ok attempt) =>
            match attempt_exchange c job (pl_method pl) (pl_resolved pl) (pl_total pl) attempt w with
            | (w, Err error) => abandon lf error w
            | (w, Ok ex) => decide_round c job pl attempt ex memory lf w
            end
        end
  end.

Fixpoint run_loop (fuel : nat) (c : HttpClientConfig) (job : SendJob) (pl : Plan) (memory : AuthMemory) (lf : Lifecycle) (w : Net) :
    option (Net * Lifecycle * HttpResult) :=
  match fuel with
  | O => None
  | S fuel =>
      match run_round c job pl memory lf w with
      | (w, Finished lf result) => Some (w, lf, result)
      | (w, Again lf memory) => run_loop fuel c job pl memory lf w
      end
  end.

Definition job_policy (c : HttpClientConfig) (job : SendJob) : HttpRetryPolicy :=
  resolve (job_retry job) (default_retry_policy c) HttpRetryPolicy_no_retry.

(** The policy, the method and the budgets of a request; the error says whether the code completes
    the lifecycle with it or drops it. *)
Definition job_plan (c : HttpClientConfig) (job : SendJob) (t : Instant) : Result Plan (bool * NetError) :=
  let policy := job_policy c job in
  match job_method job with
  | Err error => Err (true, error)
  | Ok m =>
      match timeouts_resolve t (timeouts c) (job_timeouts job) (timeout c) with
      | Err error => Err (true, error)
      | Ok resolved =>
          match budget_total (job_start job) (res_total resolved) with
          | Err error => Err (false, error)
          | Ok total => Ok (mkPlan policy m (allows_method policy m (job_replayable job)) resolved total)
          end
      end
  end.

(** [run_request] *)
Definition run_request (fuel : nat) (c : HttpClientConfig) (job : SendJob) (w : Net) : option (Net * Lifecycle * HttpResult) :=
  let policy := job_policy c job in
  let lf := lifecycle_new (hr_observer policy) (job_start job) (hr_schedule policy) (job_seed job) (job_deferred job) in
  let ended := fun r : Net * Round => match r with (w, Finished lf result) => Some (w, lf, result) | _ => None end in
  let w1 := mkNet (S (tick w)) (sent w) (sends w) in
  match job_plan c job (clock_at (tick w)) with
  | Err (true, error) => ended (terminal_error lf error w1)
  | Err (false, error) => ended (abandon lf error w1)
  | Ok pl => run_loop fuel c job pl (mkAuthMemory false false) lf w1
  end.

End Attempt.

(** ** What a request sends *)

Section Sends.
Context {urls : Urls} {url_laws : UrlLaws} {surroundings : Surroundings} {transport_laws : TransportLaws} {graph : ErrorGraph}
  {clk : Clock} {dates : HttpDates} {libm : Libm}.

(** A request stays with the configured server and the origins its policy allows; elsewhere it
    carries no credentials but what the cookie store gave for it, and it is never downgraded. *)
Record request_confined (c : HttpClientConfig) (context : CookieRequestContext) (q : HopRequest) : Prop := {
  confined_origin : origin (q_url q) = origin (base_url c) \/
    exists allowed, allowed ∈ allowed_origins (redirect_policy c) /\ origin allowed = origin (q_url q);
  confined_headers : origin (q_url q) <> origin (base_url c) ->
    store_cookies_only c context (q_method q) (q_url q) (q_headers q);
  confined_secure : scheme (base_url c) = "https"%string -> scheme (q_url q) = "https"%string;
}.

Lemma emits_catch {A} P n (Q : A -> Prop) (m : M NetError A) :
  emits P n Q m -> emits P n (fun r => match r with Ok a => Q a | Err _ => True end) (catch m).
Proof. intros Hm w. destruct (Hm w) as (qs & H). exists qs. unfold catch. by destruct (m w). Qed.

Lemma resolve_path_base c path url :
  resolve_request_path c path = Ok url ->
  scheme url = scheme (base_url c) /\ host_str url = host_str (base_url c) /\
  port_or_known_default url = port_or_known_default (base_url c).
Proof.
  unfold resolve_request_path. destruct (_ || existsb is_control _); [done|].
  destruct (is_some_and _ _); [done|]. destruct (url_join _ _) as [joined|]; simpl; [|done].
  destruct (_ || is_some (url_fragment joined)) eqn:Hg; [done|]. intros [= <-].
  rewrite !orb_false_iff, !negb_false_iff, !bool_decide_eq_true in Hg. naive_solver.
Qed.

Lemma merge_headers_scheme t c h merged : merge_headers t max_permits c h = Ok merged -> scheme (base_url c) ∈ ["http"; "https"]%string.
Proof.
  unfold merge_headers, config_validate. destruct (http_scheme (base_url c)) eqn:Hs; [|done]. intros _.
  apply orb_true_iff in Hs as [Hs|Hs]; apply bool_decide_eq_true in Hs; rewrite Hs; set_solver.
Qed.

(** The request that opens an attempt is for the configured server. *)
Lemma build_request_emits P c m path headers body present id context :
  emits P 0 (fun a => origin (q_url a.1) = origin (base_url c) /\ scheme (q_url a.1) = scheme (base_url c))
    (build_request c m path headers body present id context).
Proof.
  unfold build_request.
  apply (emits_bind_quiet P 0 (fun url => resolve_request_path c path = Ok url)); [by apply emits_lift|]. intros url Hurl.
  apply (emits_bind_quiet P 0 (fun _ => True)); [by apply quiet_emits|]. intros t _.
  apply (emits_bind_quiet P 0 (fun _ => scheme (base_url c) ∈ ["http"; "https"]%string)).
  { apply emits_lift. intros merged. apply merge_headers_scheme. }
  intros merged Hs. apply (emits_bind_quiet P 0 (fun _ => True)).
  { destruct (auth c); [|by apply emits_ret]. apply (emits_bind_quiet P 0 (fun _ => True)).
    { apply quiet_emits; [|done]. apply quiet_bind; [apply wait_point_quiet|done]. }
    intros answer _. destruct (aa_ok answer); [by apply emits_ret|apply emits_stop]. }
  intros answer _. eapply (emits_bind_quiet P 0); [apply request_cookies_spec|]. intros cooked _.
  eapply (emits_bind_quiet P 0); [apply build_hop_spec|]. intros q (Hq & _). apply emits_ret. simpl. rewrite Hq.
  destruct (resolve_path_base _ _ _ Hurl) as (H1 & H2 & H3). split; [|done]. apply origin_tuple; [by rewrite H1|done..].
Qed.

Lemma read_chunks_emits P chunks c b idle rb body : emits P 0 (fun _ => True) (read_chunks chunks c b idle rb body).
Proof.
  revert rb body. induction chunks as [|chunk rest IH]; intros rb body; cbn [read_chunks].
  all: apply (emits_bind_quiet P 0 (fun _ => True)).
  1, 3: apply run_budget_emits, (emits_bind_quiet P 0 (fun _ => True));
    [by apply quiet_emits; [apply wait_point_quiet|]|intros _ _; by apply emits_lift].
  { intros _ _. by apply emits_ret. }
  intros [next|] _; [|by apply emits_ret]. apply (emits_bind_quiet P 0 (fun _ => True)).
  { case_bool_decide; [by apply emits_ret|]. apply (emits_bind_quiet P 0 (fun _ => True)); [by apply quiet_emits|].
    intros t _. by apply emits_lift. }
  intros rb' _. destruct (max_response_bytes c <? _); [apply emits_stop|apply IH].
Qed.

Lemma read_response_emits P c b idle attempt id r : emits P 0 (fun _ => True) (read_response c b idle attempt id r).
Proof.
  eapply (emits_bind_quiet P 0).
  { apply emits_catch, (emits_bind_quiet P 0 (fun _ => True)); [by apply quiet_emits|]. intros t _.
    apply (emits_bind_quiet P 0 (fun _ => True)); [by apply emits_lift|]. intros rb _. apply read_chunks_emits. }
  intros [body|e] _; [by apply emits_ret|]. case_bool_decide; apply emits_stop.
Qed.

(** The requests of one attempt. *)
Definition hops_of (c : HttpClientConfig) : nat := S (Z.to_nat (max_redirects (redirect_policy c))).

Lemma attempt_exchange_emits c job m resolved total attempt :
  emits (request_confined c (job_cookies job)) (hops_of c) (fun _ => True) (attempt_exchange c job m resolved total attempt).
Proof.
  set (P := request_confined c (job_cookies job)). unfold attempt_exchange.
  apply (emits_bind_quiet P _ (fun _ => True)); [by apply quiet_emits|]. intros t _.
  apply (emits_bind_quiet P _ (fun _ => True)); [by apply emits_lift|]. intros b _.
  eapply (emits_bind_quiet P); [apply emits_catch, run_budget_emits, build_request_emits|]. intros prepared Hprep.
  apply (emits_bind_quiet P _ (fun _ => True)); [by apply quiet_emits|]. intros t' _.
  apply (emits_bind_quiet P _ (fun _ => True)); [by apply emits_lift|]. intros hb _.
  apply (emits_bind P 1 (Z.to_nat (max_redirects (redirect_policy c)))
    (fun r => match r with
              | Ok p => origin (rs_url p.1) = origin (base_url c) /\ scheme (rs_url p.1) = scheme (base_url c)
              | Err _ => True
              end)).
  { destruct prepared as [[q g]|e]; [|by apply emits_ret]. apply emits_catch.
    apply (emits_bind P 1 0 (fun r => rs_url r = q_url q)); [apply run_budget_emits, emits_send|].
    - destruct Hprep as [Ho Hs]. simpl in Ho, Hs. split; [by left|done|by rewrite Hs].
    - intros r Hr. by apply emits_ret.
    - intros r Hr. apply emits_ret. simpl in *. by rewrite Hr. }
  intros replied Hrep. rewrite <- (Nat.add_0_r (Z.to_nat _)).
  apply (emits_bind P _ 0 (fun _ => True)).
  { destruct replied as [[r g]|e]; [|by apply emits_ret]. simpl in Hrep.
    eapply emits_mono; [apply emits_catch, follow_ok| |done|done].
    intros q [Ho _ _ Hsec Hh _]. destruct Hrep as [Hro Hrs]. rewrite Hro in Ho, Hh. rewrite Hrs in Hsec.
    split; [done|done|]. intros. apply Hsec. by left. }
  intros followed _. apply (emits_bind_quiet P _ (fun _ => True)); [by apply quiet_emits|]. intros n _.
  apply (emits_bind_quiet P _ (fun _ => True)).
  { destruct followed as [[[r g] a]|e]; [|by apply emits_ret].
    eapply emits_mono; [apply emits_catch, read_response_emits|done|done|done]. }
  intros result _. apply (emits_bind_quiet P _ (fun _ => True)).
  { apply quiet_emits; [|done]. intros w. unfold catch. pose proof (arbitrate_quiet b ErrorStage.Receive result w) as H.
    by destruct (arbitrate_result b ErrorStage.Receive result w). }
  intros result' _. destruct followed as [[[r g] a]|e]; by apply emits_ret.
Qed.

End Sends.

(** ** Bodies *)

Section Bodies.
Context {urls : Urls} {surroundings : Surroundings} {graph : ErrorGraph} {clk : Clock}.

Lemma chunk_read {A} b at_ (next : Result A NetError) w w' x :
  run_budget b at_ (let* _ := wait_point in lift next) w = (w', Ok x) -> next = Ok x.
Proof.
  intros H. assert (He : emits (fun _ => True) 0 (fun x => next = Ok x) (run_budget b at_ (let* _ := wait_point in lift next))).
  { apply run_budget_emits, (emits_bind_quiet _ _ (fun _ => True)); [by apply quiet_emits; [apply wait_point_quiet|]|].
    intros _ _. by apply emits_lift. }
  destruct (He w) as (qs & _ & _ & _ & _ & Hr). by rewrite H in Hr.
Qed.

Lemma append_length a b : String.length (String.append a b) = (String.length a + String.length b)%nat.
Proof. induction a as [|c a IH]; [done|]. change (S (String.length (String.append a b)) = S (String.length a + String.length b)). by rewrite IH. Qed.

(** The chunks that were read, appended to what was read before. *)
Lemma read_chunks_whole chunks c b idle rb body w w' body' :
  read_chunks chunks c b idle rb body w = (w', Ok body') ->
  0 <= max_response_bytes c < usize_max -> Z.of_nat (String.length body) <= max_response_bytes c ->
  exists cs, chunks = Ok <$> cs /\ body' = foldl String.append body cs /\ Z.of_nat (String.length body') <= max_response_bytes c.
Proof.
  intros H Hmax. revert rb body w H. induction chunks as [|chunk rest IH]; intros rb body w; cbn [read_chunks]; unfold bind at 1.
  - destruct (run_budget _ _ _ w) as [w1 [next|e]] eqn:Hn; [|done]. intros H. injection H as _ <-. intros. by exists [].
  - destruct (run_budget _ _ _ w) as [w1 [next|e]] eqn:Hn; [|done]. apply chunk_read in Hn.
    destruct chunk as [chunk|e]; [|done]. injection Hn as <-. unfold bind at 1.
    match goal with |- context [match ?m w1 with _ => _ end] => destruct (m w1) as [w2 [rb'|e]] end; [|done].
    destruct (Z.ltb_spec (max_response_bytes c) (Z.min usize_max (Z.of_nat (String.length body) + Z.of_nat (String.length chunk))))
      as [|Hle]; [done|].
    intros H Hb. destruct (IH _ _ _ H) as (cs & -> & -> & Hc); [rewrite append_length; lia|]. by exists (chunk :: cs).
Qed.

End Bodies.

(** ** The lifecycle of a request *)

(** What an observer sees of an attempt that was repeated after [delay]. *)
Definition repeated_events (i : nat) (delay : Duration) : list RetryEvent :=
  let n := Z.of_nat (S i) in [RetryEvent.AttemptStarted n; RetryEvent.RetryScheduled n delay; RetryEvent.AttemptFinished n false].

(** What an observer sees of the attempts that were repeated after [delays]. *)
Definition repeated_log (delays : list Duration) : list RetryEvent := concat (imap repeated_events delays).

Lemma repeated_log_snoc delays d : repeated_log (delays ++ [d]) = repeated_log delays ++ repeated_events (length delays) d.
Proof. unfold repeated_log. rewrite imap_app, concat_app. simpl. by rewrite Nat.add_0_r. Qed.

(** The number of attempts after [delays], the running one included. *)
Definition attempts_of (delays : list Duration) (running : bool) : Z := Z.of_nat (length delays) + (if running then 1 else 0).

Definition running_attempt (delays : list Duration) (running : bool) : option Z :=
  if running then Some (attempts_of delays true) else None.

Definition running_events (delays : list Duration) (running : bool) : list RetryEvent :=
  repeated_log delays ++ (if running then [RetryEvent.AttemptStarted (attempts_of delays true)] else []).

(** A lifecycle before its end. *)
Record live (sched : RetrySchedule) (observer deferred : bool) (delays : list Duration) (running : bool) (lf : Lifecycle) : Prop := {
  live_open : lf_completed lf = false /\ lf_frozen lf = None;
  live_flags : lf_observer lf = observer /\ lf_deferred lf = deferred;
  live_state : schedule (lf_state lf) = sched /\ stop_reason (lf_state lf) = None /\
    attempts (lf_state lf) = attempts_of delays running;
  live_current : lf_current lf = running_attempt delays running;
  live_events : lf_events lf = if observer then running_events delays running else [];
}.

(** A lifecycle after its end: one report, which counts the attempts and the requests, was frozen
    and given to the signal and, after all the attempts, to the observer. *)
Record ended (observer deferred : bool) (delays : list Duration) (running : bool) (count : Z) (r : RetryReport) (lf : Lifecycle) : Prop := {
  ended_report : lf_completed lf = true /\ lf_frozen lf = Some r /\ lf_report lf = Some r;
  ended_counts : rep_attempts r = attempts_of delays running /\ rep_retry_count r = saturating_sub (attempts_of delays running) 1 /\
    rep_transport_sends r = count /\ is_some (rep_stop_reason r) = true;
  ended_events : lf_events lf =
    if observer then running_events delays running ++
                     (if deferred then [] else terminal_events (running_attempt delays running) r)
    else [];
  ended_pending : observer = true -> deferred = true -> lf_pending lf = Some (running_attempt delays running, r);
}.

Section Lifecycles.
Context {sched : RetrySchedule} {observer deferred : bool}.

Lemma live_new start seed : live sched observer deferred [] false (lifecycle_new observer start sched seed deferred).
Proof. split; try done. by destruct observer. Qed.

Lemma live_stop delays running lf reason :
  live sched observer deferred delays running lf ->
  let st := lf_state (lifecycle_stop lf reason) in
  attempts st = attempts_of delays running /\ stop_reason st = Some reason.
Proof. intros [_ _ (_ & Hs & Ha) _ _]. simpl. unfold finish. rewrite Hs. simpl. by rewrite Ha. Qed.

(** Ending a lifecycle, with any first reason. *)
Lemma emit_terminal_ended delays running lf st t count :
  live sched observer deferred delays running lf ->
  attempts st = attempts_of delays running -> is_some (stop_reason st) = true ->
  exists r, ended observer deferred delays running count r (emit_terminal (lf <| lf_completed := true; lf_state := st |>) t count).
Proof.
  intros [[_ Hf] [Ho Hd] _ Hc He] Ha Hs. destruct lf as [obs start st0 cur comp frozen def rep pend events]. simpl in *. subst.
  unfold emit_terminal, lifecycle_report, notify. simpl. eexists. destruct observer; [destruct deferred|]; split; simpl.
  all: rewrite ?Ha, ?app_nil_r; try done.
Qed.

Lemma finish_result_ended delays running lf t count result reason lf' result' :
  live sched observer deferred delays running lf ->
  finish_http_result lf t count result reason = (lf', result') ->
  exists r, ended observer deferred delays running count r lf' /\
    match result' with Ok response => rp_retry_report response = Some r | Err e => retry_report e = Some r end.
Proof.
  intros Hl. pose proof (live_stop _ _ _ reason Hl) as [Ha Hs]. pose proof Hl as [[Hc Hf] _ _ _ _].
  unfold finish_http_result, lifecycle_complete.
  assert (lf_completed (lifecycle_stop lf reason) = false) as -> by done.
  set (reason' := match result with Ok _ => _ | Err _ => _ end).
  set (st := (finish (lf_state (lifecycle_stop lf reason)) reason').1).
  assert (Hst : st = lf_state (lifecycle_stop lf reason)) by (subst st; unfold finish at 1; by rewrite Hs).
  destruct (emit_terminal_ended delays running lf st t count Hl) as [r Hr]; [by rewrite Hst|by rewrite Hst, Hs|].
  change (lifecycle_stop ((lifecycle_stop lf reason) <| lf_completed := true |>) reason') with (lf <| lf_completed := true; lf_state := st |>).
  pose proof Hr as [(_ & Hfz & _) _ _ _].
  assert (Hrep : lifecycle_report (emit_terminal (lf <| lf_completed := true; lf_state := st |>) t count) t count = r)
    by (unfold lifecycle_report; by rewrite Hfz).
  rewrite Hrep. intros [= <- <-]. exists r. split; [done|]. by destruct result.
Qed.

Lemma drop_ended delays running lf t count :
  live sched observer deferred delays running lf ->
  exists r, ended observer deferred delays running count r (lifecycle_drop lf t count).
Proof.
  intros Hl. pose proof (live_stop _ _ _ RetryStopReason.Cancelled Hl) as [Ha Hs]. pose proof Hl as [[Hc _] _ _ _ _].
  unfold lifecycle_drop. rewrite Hc. set (st := lf_state (lifecycle_stop lf RetryStopReason.Cancelled)) in *.
  change (lifecycle_stop (lf <| lf_completed := true |>) RetryStopReason.Cancelled) with (lf <| lf_completed := true; lf_state := st |>).
  apply emit_terminal_ended; [done|exact Ha|by rewrite Hs].
Qed.

(** An attempt begins, unless the schedule has no further one. *)
Lemma attempt_started_live delays lf lf' res :
  live sched observer deferred delays false lf -> lifecycle_attempt_started lf = (lf', res) ->
  match res with
  | Ok n => live sched observer deferred delays true lf' /\ n = attempts_of delays true /\ n <= max_attempts sched
  | Err e => live sched observer deferred delays false lf' /\ kind e = ErrorKind.Internal
  end.
Proof.
  intros [[Hc Hf] [Ho Hd] (Hsch & Hs & Ha) Hcur He]. unfold lifecycle_attempt_started, begin_attempt. rewrite Hs, Ha, Hsch. simpl.
  destruct (Z.leb_spec (max_attempts sched) (attempts_of delays false)); [by intros [= <- <-]|].
  destruct (checked_add _ _ _) as [n|] eqn:Hadd; [|by intros [= <- <-]].
  assert (n = attempts_of delays true) as ->.
  { revert Hadd. unfold checked_add, attempts_of. destruct (_ <=? _); [|done]. intros Hadd. injection Hadd as Hadd. lia. }
  intros [= <- <-]. split; [|split; [done|unfold attempts_of in *; lia]].
  unfold notify. destruct lf as [obs start st0 cur comp frozen def rep pend events]. simpl in *. subst.
  destruct observer; split; simpl; try done. unfold running_events. by rewrite app_nil_r.
Qed.

(** A repeated attempt. *)
Lemma retry_scheduled_live delays lf st d :
  live sched observer deferred delays true lf -> schedule st = sched -> stop_reason st = None -> attempts st = attempts_of delays true ->
  live sched observer deferred (delays ++ [d]) false
    (lifecycle_retry_scheduled (lf <| lf_state := st |>) (attempts_of delays true) d).
Proof.
  intros [[Hc Hf] [Ho Hd] _ Hcur He] H1 H2 H3. unfold lifecycle_retry_scheduled, notify.
  destruct lf as [obs start st0 cur comp frozen def rep pend events]. simpl in *. subst.
  assert (Hn : attempts_of (delays ++ [d]) false = attempts_of delays true) by (unfold attempts_of; rewrite length_app; simpl; lia).
  destruct observer; split; simpl; rewrite ?Hn; try done.
  unfold running_events. rewrite repeated_log_snoc, app_nil_r, <- app_assoc. unfold repeated_events, attempts_of. simpl.
  repeat f_equal; lia.
Qed.

End Lifecycles.

(** ** Rounds *)

Section Rounds.
Context {urls : Urls} {url_laws : UrlLaws} {surroundings : Surroundings} {transport_laws : TransportLaws} {graph : ErrorGraph}
  {clk : Clock} {dates : HttpDates} {libm : Libm}.
Context (sched : RetrySchedule) (observer deferred allowed : bool).

(** The report a result carries; only a request that could not be timed or counted carries none. *)
Definition carries (r : RetryReport) (result : HttpResult) : Prop :=
  match result with
  | Ok response => rp_retry_report response = Some r
  | Err e => retry_report e = Some r \/ kind e = ErrorKind.InvalidConfig \/ kind e = ErrorKind.Internal
  end.

(** What a round that began after [delays] leaves; [started] tells whether it began an attempt. *)
Definition round_ends (started : bool) (delays : list Duration) (count : Z) (rd : Round) : Prop :=
  match rd with
  | Finished lf result =>
      exists delays' running r, ended observer deferred delays' running count r lf /\ carries r result /\
        attempts_of delays' running = attempts_of delays started
  | Again lf _ =>
      exists d, live sched observer deferred (delays ++ [d]) false lf /\ allowed = true /\ started = true /\
        attempts_of (delays ++ [d]) false < max_attempts sched
  end.

(** A step that sends nothing and ends the round that began after [delays]. *)
Definition round_post (started : bool) (delays : list Duration) (w : Net) (p : Net * Round) : Prop :=
  sent p.1 = sent w /\ sends p.1 = sends w /\ round_ends started delays (sends w) p.2.

Lemma finish_round_post started delays delays' running lf result reason w :
  live sched observer deferred delays' running lf -> attempts_of delays' running = attempts_of delays started ->
  round_post started delays w (finish_round lf result reason w).
Proof.
  intros Hl H1. unfold finish_round.
  destruct (finish_http_result _ _ _ _ _) as [lf' result'] eqn:Hf.
  destruct (finish_result_ended _ _ _ _ _ _ _ _ _ Hl Hf) as (r & Hr & Hres).
  split; [done|split; [done|]]. exists delays', running, r. split_and!; [done| |done].
  unfold carries. destruct result'; [done|by left].
Qed.

Lemma terminal_error_post started delays delays' running lf e w :
  live sched observer deferred delays' running lf -> attempts_of delays' running = attempts_of delays started -> round_post started delays w (terminal_error lf e w).
Proof. apply finish_round_post. Qed.

Lemma abandon_post started delays delays' running lf e w :
  live sched observer deferred delays' running lf -> attempts_of delays' running = attempts_of delays started ->
  kind e = ErrorKind.InvalidConfig \/ kind e = ErrorKind.Internal -> round_post started delays w (abandon lf e w).
Proof.
  intros Hl H1 Hk. split; [done|split; [done|]].
  destruct (drop_ended _ _ _ (clock_at (tick w)) (sends w) Hl) as [r Hr]. exists delays', running, r.
  split_and!; [done| |done]. by right.
Qed.

(** Steps before a round ends. *)
Lemma round_post_after started delays w w1 p : sent w1 = sent w -> sends w1 = sends w -> round_post started delays w1 p -> round_post started delays w p.
Proof. intros H1 H2 (H3 & H4 & H5). unfold round_post. by rewrite H3, H4, <- H1, <- H2. Qed.

Lemma next_delay_keeps t st st' d :
  next_delay t st = (st', d) -> schedule st' = schedule st /\ stop_reason st' = stop_reason st /\ attempts st' = attempts st.
Proof.
  unfold next_delay. destruct (attempts st =? 0); [by intros [= <- _]|]. destruct (negb _); [by intros [= <- _]|].
  destruct (pending_delay st); [by intros [= <- _]|]. simpl. destruct (sampled_delay _ _ _ _); by intros [= <- _].
Qed.

Lemma wait_for_retry_quiet d deadline : quiet (wait_for_retry d deadline).
Proof.
  apply quiet_bind; [destruct deadline; [apply quiet_bind; [done|]|]; done|]. intros [d'|]; [|done].
  apply quiet_bind; [done|]. intros n. destruct (slept n d'); [|done]. simpl.
  apply quiet_bind; [done|]. intros [|]; [done|]. by destruct deadline.
Qed.

Lemma schedule_retry_post job pl delays ex memory lf w :
  live sched observer deferred delays true lf -> attempts_of delays true <= max_attempts sched ->
  can_retry (lf_state lf) = true -> allowed = true ->
  round_post true delays w (schedule_retry job pl (attempts_of delays true) ex memory lf w).
Proof.
  intros Hl Hm Hcan Hal.
  pose proof Hl as [Hopen Hflags (Hsch & Hs & Ha) Hcur Hev]. unfold schedule_retry.
  destruct (next_delay _ _) as [st delay] eqn:Hd. apply next_delay_keeps in Hd as (H1 & H2 & H3).
  rewrite Hsch in H1. rewrite Hs in H2. rewrite Ha in H3.
  assert (Hl' : live sched observer deferred delays true (lf <| lf_state := st |>)) by (by split).
  set (w1 := mkNet _ _ _). apply (round_post_after true delays w w1); [done|done|]. destruct delay as [[base|]|e].
  2: by eapply finish_round_post.
  2: { eapply abandon_post; [done|done|by right]. }
  set (d := retry_after_select _ _ _).
  pose proof (retry_scheduled_live delays lf st d Hl H1 H2 H3) as Hnext.
  assert (Hat' : attempts_of (delays ++ [d]) false = attempts_of delays true) by (unfold attempts_of; rewrite length_app; simpl; lia).
  destruct (wait_for_retry_quiet d (budget_deadline (pl_total pl)) w1) as [Hq1 Hq2].
  destruct (wait_for_retry _ _ w1) as [w2 [[|]|e]]; simpl in Hq1, Hq2.
  - split; [done|split; [done|]]. exists d. split_and!; [done..|].
    apply can_retry_true in Hcan. rewrite Hsch, Ha in Hcan. unfold attempts_of in *. rewrite length_app. simpl. lia.
  - apply (round_post_after true delays w1 (mkNet (S (tick w2)) (sent w2) (sends w2))); [done|done|by eapply terminal_error_post].
  - apply (round_post_after true delays w1 (mkNet (S (tick w2)) (sent w2) (sends w2))); [done|done|by eapply terminal_error_post].
Qed.

Lemma auth_decision_quiet c can attempt ex memory : quiet (auth_decision c allowed can attempt ex memory).
Proof.
  unfold auth_decision. destruct (ex_result ex) as [response|]; [|done]. destruct (_ && auth c); [|done].
  apply quiet_bind; [|by intros []].
  assert (H : emits (fun _ => False) 0 (fun _ => True) (ask_provider (ex_budget ex) (rp_status response)
    (header_get (rp_headers response) "www-authenticate") attempt (ex_generation ex))).
  { apply run_budget_emits, (emits_bind_quiet _ _ (fun _ => True)); [by apply quiet_emits; [apply wait_point_quiet|]|]. intros _ _.
    apply (emits_bind_quiet _ _ (fun _ => True)); [by apply quiet_emits|]. intros n _.
    destruct (on_unauthorized _ _ _ _ _); [by apply emits_ret|apply emits_stop]. }
  intros w. destruct (H w) as (qs & Hs & Hc & _ & Hl & _). destruct qs; [|simpl in Hl; lia].
  rewrite app_nil_r in Hs. simpl in Hc. split; [done|lia].
Qed.

Lemma decide_round_post c job pl delays ex memory lf w :
  live sched observer deferred delays true lf -> attempts_of delays true <= max_attempts sched -> allowed = pl_allowed pl ->
  round_post true delays w (decide_round c job pl (attempts_of delays true) ex memory lf w).
Proof.
  intros Hl Hm Hal. unfold decide_round.
  destruct (match ex_result ex with Ok _ => _ | Err _ => _ end); [by eapply finish_round_post|].
  set (w1 := mkNet _ _ _). apply (round_post_after true delays w w1); [done|done|].
  destruct (policy_classify _ _) as [decision|e]; [|by eapply terminal_error_post].
  destruct (check_budget_quiet (E := NetError) (pl_total pl) ErrorStage.Provider w1) as [Hq1 Hq2].
  destruct (check_budget _ _ w1) as [w2 [u|e]]; simpl in Hq1, Hq2; (eapply round_post_after; [exact Hq1|exact Hq2|]).
  2: by eapply terminal_error_post.
  destruct (match decision with RetryDecision.Stop => _ | _ => _ end); [by eapply finish_round_post|].
  rewrite <- Hal. destruct (auth_decision_quiet c (can_retry (lf_state lf)) (attempts_of delays true) ex memory w2) as [Hq3 Hq4].
  destruct (auth_decision _ _ _ _ _ _ w2) as [w3 [[retry memory']|e]]; simpl in Hq3, Hq4;
    (eapply round_post_after; [exact Hq3|exact Hq4|]).
  2: by eapply terminal_error_post.
  destruct (negb (retry_requested _ _ _ _ _)); [by eapply finish_round_post|].
  destruct (negb allowed) eqn:Hna; [by eapply finish_round_post|]. apply negb_false_iff in Hna.
  destruct (can_retry (lf_state lf)) eqn:Hcan; simpl; [|by eapply finish_round_post].
  by apply schedule_retry_post.
Qed.

(** The errors of a computation. *)
Definition fails {A} (F : NetError -> Prop) (m : M NetError A) : Prop := forall w e, (m w).2 = Err e -> F e.

Lemma fails_bind {A B} F (m : M NetError A) (k : A -> M NetError B) : fails F m -> (forall a, fails F (k a)) -> fails F (bind m k).
Proof.
  intros Hm Hk w e. unfold bind. specialize (Hm w). destruct (m w) as [w1 [a|e1]]; simpl; [by apply Hk|]. intros [= ->]. by apply Hm.
Qed.

Lemma with_phase_fails b t d phase :
  fails (fun e => kind e = ErrorKind.InvalidConfig) (lift (budget_with_phase b t d phase)).
Proof.
  intros w e. unfold budget_with_phase. destruct d as [d|]; [|done]. destruct (d =? 0); [by intros [= <-]|].
  destruct (instant_checked_add t d) as [deadline|]; simpl; [|by intros [= <-]].
  destruct (earliest b); [by destruct (deadline_le _ _)|done].
Qed.

Lemma attempt_exchange_fails c job m resolved total attempt :
  fails (fun e => kind e = ErrorKind.InvalidConfig) (attempt_exchange c job m resolved total attempt).
Proof.
  assert (Hcatch : forall A (m : M NetError A), fails (fun e => kind e = ErrorKind.InvalidConfig) (catch m)).
  { intros A m' w e. unfold catch. by destruct (m' w). }
  repeat match goal with
  | |- fails _ (lift (budget_with_phase _ _ _ _)) => apply with_phase_fails
  | |- fails _ (catch _) => apply Hcatch
  | |- fails _ (match ?x with _ => _ end) => destruct x
  | |- fails _ _ => done
  | |- fails _ _ => apply fails_bind; [|intros ?]
  end.
Qed.

(** A round sends what one attempt may send. *)
Lemma run_round_post c job pl delays memory lf w w' rd :
  live sched observer deferred delays false lf -> allowed = pl_allowed pl ->
  run_round c job pl memory lf w = (w', rd) ->
  exists started qs, sent w' = sent w ++ qs /\ sends w' = sends w + Z.of_nat (length qs) /\ Forall (request_confined c (job_cookies job)) qs /\
    (length qs <= if started : bool then hops_of c else 0)%nat /\ (started = true -> attempts_of delays true <= max_attempts sched) /\
    round_ends started delays (sends w') rd.
Proof.
  intros Hl Hal Hrun.
  assert (Hsilent : forall w1 p, sent w1 = sent w -> sends w1 = sends w -> round_post false delays w1 p -> p = (w', rd) ->
    exists started qs,
    sent w' = sent w ++ qs /\ sends w' = sends w + Z.of_nat (length qs) /\ Forall (request_confined c (job_cookies job)) qs /\
    (length qs <= if started : bool then hops_of c else 0)%nat /\ (started = true -> attempts_of delays true <= max_attempts sched) /\
    round_ends started delays (sends w') rd).
  { intros w1 p H1 H2 (H3 & H4 & H5) ->. simpl in *. exists false, []. rewrite app_nil_r. simpl. rewrite <- H4 in H5.
    split_and!; [congruence|lia|done|lia|done|done]. }
  unfold run_round in Hrun.
  destruct (check_budget_quiet (E := NetError) (pl_total pl) ErrorStage.Dispatch w) as [Hq1 Hq2].
  destruct (check_budget _ _ w) as [w1 [u|e]]; simpl in Hq1, Hq2.
  2: { eapply Hsilent; [exact Hq1|exact Hq2| |exact Hrun]. by eapply terminal_error_post. }
  destruct (_ && _).
  { eapply Hsilent; [exact Hq1|exact Hq2| |exact Hrun]. by eapply terminal_error_post. }
  destruct (lifecycle_attempt_started lf) as [lf1 started] eqn:Hst. pose proof (attempt_started_live delays _ _ _ Hl Hst) as Hres. clear Hst.
  destruct started as [n|e].
  2: { destruct Hres as [Hl1 Hk]. eapply Hsilent; [exact Hq1|exact Hq2| |exact Hrun]. eapply abandon_post; [done|done|by right]. }
  destruct Hres as (Hl1 & -> & Hmax). set (n := attempts_of delays true) in *.
  pose proof (attempt_exchange_fails c job (pl_method pl) (pl_resolved pl) (pl_total pl) n w1) as Hf.
  destruct (attempt_exchange_emits c job (pl_method pl) (pl_resolved pl) (pl_total pl) n w1) as (qs & Hs & Hc & Hq & Hlen & _).
  destruct (attempt_exchange _ _ _ _ _ _ w1) as [w2 [ex|e]]; cbn [fst snd] in Hs, Hc, Hf.
  all: exists true, qs; match type of Hrun with ?p = _ => assert (Hp : round_post true delays w2 p) end.
  1: by apply decide_round_post.
  2: { eapply abandon_post; [done|done|left; by apply Hf]. }
  all: rewrite Hrun in Hp; destruct Hp as (H1 & H2 & H3); simpl in H1, H2, H3; rewrite <- H2 in H3.
  all: split_and!; [by rewrite H1, Hs, Hq1|by rewrite H2, Hc, Hq2|done..].
Qed.

(** The loop: what it sends, that it ends, and how. *)
Lemma run_loop_post fuel c job pl delays memory lf w :
  live sched observer deferred delays false lf -> allowed = pl_allowed pl -> (delays = [] \/ allowed = true) ->
  attempts_of delays false <= max_attempts sched -> max_attempts sched < attempts_of delays false + Z.of_nat fuel ->
  exists w' lf' result qs delays' running r,
    run_loop fuel c job pl memory lf w = Some (w', lf', result) /\
    sent w' = sent w ++ qs /\ sends w' = sends w + Z.of_nat (length qs) /\ Forall (request_confined c (job_cookies job)) qs /\
    Z.of_nat (length qs) <= (attempts_of delays' running - attempts_of delays false) * Z.of_nat (hops_of c) /\
    ended observer deferred delays' running (sends w') r lf' /\ carries r result /\
    attempts_of delays' running <= max_attempts sched /\ (allowed = false -> attempts_of delays' running <= 1).
Proof.
  revert delays memory lf w. induction fuel as [|fuel IH]; intros delays memory lf w Hl Hal Hfirst Hmax Hfuel; [lia|].
  simpl. destruct (run_round c job pl memory lf w) as [w1 rd] eqn:Hrun.
  destruct (run_round_post c job pl delays memory lf w w1 rd Hl Hal Hrun) as (started & qs & Hs & Hc & Hq & Hlen & Hst & Hend).
  destruct rd as [lf1 result|lf1 memory1].
  - destruct Hend as (delays' & running & r & He & Hr & Ha). exists w1, lf1, result, qs, delays', running, r.
    rewrite Ha. split_and!; try done; unfold attempts_of in *; destruct started; try lia.
    all: intros Hna; destruct Hfirst as [->|?]; [simpl; lia|congruence].
  - destruct Hend as (d & Hl1 & Ha & -> & Hd). specialize (Hst eq_refl).
    assert (Hn : attempts_of (delays ++ [d]) false = attempts_of delays false + 1) by (unfold attempts_of; rewrite length_app; simpl; lia).
    destruct (IH (delays ++ [d]) memory1 lf1 w1 Hl1 Hal (or_intror Ha)) as
      (w2 & lf2 & result & qs' & delays' & running & r & Hrun' & Hs' & Hc' & Hq' & Hlen' & He & Hr & Hle & _); [lia|lia|].
    exists w2, lf2, result, (qs ++ qs'), delays', running, r. rewrite length_app. split_and!; try done.
    + by rewrite Hs', Hs, app_assoc.
    + lia.
    + by apply Forall_app.
    + nia.
    + congruence.
Qed.

End Rounds.

(** ** Requests *)

Section Requests.
Context {urls : Urls} {url_laws : UrlLaws} {surroundings : Surroundings} {transport_laws : TransportLaws} {graph : ErrorGraph}
  {clk : Clock} {dates : HttpDates} {libm : Libm}.

(** The turns the loop needs. *)
Definition enough (p : HttpRetryPolicy) : nat := S (Z.to_nat (max_attempts (hr_schedule p))).

Definition job_allowed (c : HttpClientConfig) (job : SendJob) : bool :=
  match job_method job with Ok m => allows_method (job_policy c job) m (job_replayable job) | Err _ => false end.

Lemma job_plan_spec c job t :
  match job_plan c job t with
  | Ok pl => job_allowed c job = pl_allowed pl
  | Err (true, _) => True
  | Err (false, e) => kind e = ErrorKind.InvalidConfig
  end.
Proof.
  unfold job_plan, job_allowed. destruct (job_method job) as [m|]; [|done]. destruct (timeouts_resolve _ _ _ _) as [res|]; [|done].
  pose proof (with_phase_fails budget_none (job_start job) (res_total res) TimeoutPhase.Total (mkNet 0 [] 0)) as Hf.
  fold (budget_total (job_start job) (res_total res)) in Hf. destruct (budget_total _ _) as [total|e]; [done|]. by apply Hf.
Qed.

Lemma run_request_post c job w :
  let p := job_policy c job in
  schedule_wf (hr_schedule p) ->
  exists w' lf result qs delays running r,
    run_request (enough p) c job w = Some (w', lf, result) /\
    sent w' = sent w ++ qs /\ sends w' = sends w + Z.of_nat (length qs) /\ Forall (request_confined c (job_cookies job)) qs /\
    Z.of_nat (length qs) <= attempts_of delays running * Z.of_nat (hops_of c) /\
    ended (hr_observer p) (job_deferred job) delays running (sends w') r lf /\ carries r result /\
    attempts_of delays running <= max_attempts (hr_schedule p) /\ (job_allowed c job = false -> attempts_of delays running <= 1).
Proof.
  intros p Hwf. assert (Hmax : 1 <= max_attempts (hr_schedule p)) by apply Hwf.
  set (sched := hr_schedule p) in *. set (lf := lifecycle_new (hr_observer p) (job_start job) sched (job_seed job) (job_deferred job)).
  pose proof (live_new (sched := sched) (observer := hr_observer p) (deferred := job_deferred job) (job_start job) (job_seed job)) as Hl.
  fold lf in Hl. unfold run_request. fold p sched lf. set (w1 := mkNet (S (tick w)) (sent w) (sends w)).
  assert (Hended : forall f, round_post sched (hr_observer p) (job_deferred job) true false [] w1 (f w1) ->
    exists w' lf' result qs delays running r,
      match f w1 with (w', Finished lf' result) => Some (w', lf', result) | _ => None end = Some (w', lf', result) /\
      sent w' = sent w ++ qs /\ sends w' = sends w + Z.of_nat (length qs) /\ Forall (request_confined c (job_cookies job)) qs /\
      Z.of_nat (length qs) <= attempts_of delays running * Z.of_nat (hops_of c) /\
      ended (hr_observer p) (job_deferred job) delays running (sends w') r lf' /\ carries r result /\
      attempts_of delays running <= max_attempts sched /\ (job_allowed c job = false -> attempts_of delays running <= 1)).
  { intros f (Hs & Hc & He). destruct (f w1) as [w2 [lf2 result|lf2 memory]]; [|by destruct He as (d & _ & _ & ? & _)].
    destruct He as (delays & running & r & He & Hr & Ha). exists w2, lf2, result, [], delays, running, r.
    simpl in *. rewrite Ha, app_nil_r, Hs, Hc. unfold attempts_of. simpl. split_and!; try done; lia. }
  destruct (job_plan c job (clock_at (tick w))) as [pl|[[|] e]] eqn:Hplan.
  - pose proof (job_plan_spec c job (clock_at (tick w))) as Hal. rewrite Hplan in Hal. unfold enough. fold sched.
    destruct (run_loop_post sched (hr_observer p) (job_deferred job) (job_allowed c job) (S (Z.to_nat (max_attempts sched))) c job pl []
      (mkAuthMemory false false) lf w1) as (w' & lf' & result & qs & delays & running & r & H);
      [done|done|by left|unfold attempts_of; simpl; lia|unfold attempts_of; simpl; lia|].
    exists w', lf', result, qs, delays, running, r. unfold attempts_of at 2 in H. simpl in H. by rewrite Z.sub_0_r in H.
  - apply (Hended (terminal_error lf e)). by eapply terminal_error_post.
  - apply (Hended (abandon lf e)). eapply abandon_post; [done|done|]. left. pose proof (job_plan_spec c job (clock_at (tick w))) as Hal. by rewrite Hplan in Hal.
Qed.

(** What a response that is returned was checked against: the signal, and then the clock. *)
Definition in_time (total : HttpBudget) (n : nat) : Prop :=
  cancelled_at n = false /\ forall d, budget_deadline total = Some d -> clock_at (S n) < d.

Lemma check_budget_ok b at_ w w' : check_budget (E := NetError) b at_ w = (w', Ok tt) -> in_time b (tick w) /\ tick w' = S (S (tick w)).
Proof.
  unfold check_budget, bind, is_cancelled, observe, now, in_time, budget_deadline. simpl. destruct (cancelled_at (tick w)); [done|].
  unfold budget_expired. destruct (earliest b) as [[d phase]|]; simpl.
  - destruct (Z.ltb_spec (clock_at (S (tick w))) d); [|done]. intros [= <-]. split; [|done]. split; [done|]. by intros d' [= <-].
  - intros [= <-]. done.
Qed.

Lemma finish_round_result lf result reason w w' lf' response :
  finish_round lf result reason w = (w', Finished lf' (Ok response)) ->
  exists r, result = Ok r /\ response = r <| rp_retry_report := rp_retry_report response |>.
Proof.
  unfold finish_round, finish_http_result. destruct result as [r|e]; [|done]. intros H. injection H as _ _ <-. exists r. by destruct r.
Qed.

Lemma terminal_error_no_response lf e w w' lf' response : terminal_error lf e w <> (w', Finished lf' (Ok response)).
Proof. intros H. by apply finish_round_result in H as (? & ? & _). Qed.

(** A response comes from an attempt, and only after the check that follows it. *)
Lemma decide_round_in_time c job pl attempt ex memory lf w w' lf' response :
  decide_round c job pl attempt ex memory lf w = (w', Finished lf' (Ok response)) ->
  in_time (pl_total pl) (S (S (tick w))) /\
  exists r, ex_result ex = Ok r /\ response = r <| rp_retry_report := rp_retry_report response |>.
Proof.
  unfold decide_round. destruct (match ex_result ex with Ok _ => _ | Err _ => _ end) as [reason|] eqn:Hin.
  { intros (r & Hr & _)%finish_round_result. by rewrite Hr in Hin. }
  destruct (policy_classify _ _) as [decision|e]; [|by intros ?%terminal_error_no_response].
  set (w1 := mkNet _ _ _). destruct (check_budget _ _ w1) as [w2 [[]|e]] eqn:Hb; [|by intros ?%terminal_error_no_response].
  apply check_budget_ok in Hb as [Hb _]. intros H. split; [exact Hb|]. revert H.
  destruct (match decision with RetryDecision.Stop => _ | _ => _ end); [apply finish_round_result|].
  destruct (auth_decision _ _ _ _ _ _ w2) as [w3 [[retry memory']|e]]; [|by intros ?%terminal_error_no_response].
  destruct (negb (retry_requested _ _ _ _ _)); [apply finish_round_result|].
  destruct (negb (pl_allowed pl)); [apply finish_round_result|].
  destruct (negb (can_retry (lf_state lf))); [apply finish_round_result|].
  unfold schedule_retry. destruct (next_delay _ _) as [st [[base|]|e]]; [|apply finish_round_result|done].
  destruct (wait_for_retry _ _ _) as [w4 [[|]|e]]; [done|by intros ?%terminal_error_no_response..].
Qed.

Lemma run_loop_in_time fuel c job pl memory lf w w' lf' response :
  run_loop fuel c job pl memory lf w = Some (w', lf', Ok response) ->
  exists attempt w1 w2 ex r, attempt_exchange c job (pl_method pl) (pl_resolved pl) (pl_total pl) attempt w1 = (w2, Ok ex) /\
    ex_result ex = Ok r /\ response = r <| rp_retry_report := rp_retry_report response |> /\ in_time (pl_total pl) (S (S (tick w2))).
Proof.
  revert memory lf w. induction fuel as [|fuel IH]; intros memory lf w; [done|]. simpl.
  destruct (run_round c job pl memory lf w) as [w1 [lf1 result|lf1 memory1]] eqn:Hr; [|apply IH].
  intros H. injection H as -> -> ->. revert Hr. unfold run_round.
  destruct (check_budget _ _ w) as [w2 [u|e]]; [|by intros ?%terminal_error_no_response].
  destruct (_ && _); [by intros ?%terminal_error_no_response|].
  destruct (lifecycle_attempt_started lf) as [lf2 [n|e]]; [|done].
  destruct (attempt_exchange _ _ _ _ _ _ w2) as [w3 [ex|e]] eqn:Hex; [|done]. intros (Ht & r & H1 & H2)%decide_round_in_time.
  by exists n, w2, w3, ex, r.
Qed.

End Requests.

(** C2. A request takes a bounded number of steps and stays with its server, whatever the server,
    the network, the provider and the cookie store answer.  When every wait ends, by an answer, a
    cancellation or a timer, and no body is endless, [run_request] returns within as many turns as the schedule has
    attempts.  Every request handed to the transport meanwhile goes to the configured origin or to
    one the redirect policy allows, and none is downgraded from HTTPS when the configured URL has
    it.  Away from the configured origin it has no sensitive and no credential header of the
    application or the provider: the only one it may have is a cookie the store returned for that
    URL, method and context.  There are at most [max_attempts * (1 + max_redirects)] of them. *)
Theorem request_sends_confined {urls : Urls} {url_laws : UrlLaws} {surroundings : Surroundings} {transport_laws : TransportLaws}
    {graph : ErrorGraph} {clk : Clock} {dates : HttpDates} {libm : Libm} c job w :
  schedule_wf (hr_schedule (job_policy c job)) ->
  exists w' lf result qs,
    run_request (enough (job_policy c job)) c job w = Some (w', lf, result) /\ sent w' = sent w ++ qs /\
    Forall (request_confined c (job_cookies job)) qs /\
    Z.of_nat (length qs) <= max_attempts (hr_schedule (job_policy c job)) * Z.of_nat (hops_of c).
Proof.
  intros Hwf. destruct (run_request_post c job w Hwf) as (w' & lf & result & qs & delays & running & r & Hrun & Hs & _ & Hq & Hl & _ & _ & Hm & _).
  exists w', lf, result, qs. split_and!; [done..|]. nia.
Qed.


(** C17. A request that may not be repeated is not: when the policy does not allow the method, or
    the body cannot be replayed, one attempt is made at most, whatever the classifier, the
    authentication provider and the outcome ask for. *)
Theorem unsafe_request_sent_once {urls : Urls} {url_laws : UrlLaws} {surroundings : Surroundings} {transport_laws : TransportLaws}
    {graph : ErrorGraph} {clk : Clock} {dates : HttpDates} {libm : Libm} c job w w' lf result :
  schedule_wf (hr_schedule (job_policy c job)) -> job_allowed c job = false ->
  run_request (enough (job_policy c job)) c job w = Some (w', lf, result) ->
  (length (sent w') <= length (sent w) + hops_of c)%nat /\ exists r, lf_report lf = Some r /\ rep_attempts r <= 1.
Proof.
  intros Hwf Ha Hrun. destruct (run_request_post c job w Hwf) as
    (w1 & lf1 & result1 & qs & delays & running & r & Hrun1 & Hs & _ & _ & Hl & [(_ & _ & Hrep) (Hat & _) _ _] & _ & _ & H1).
  rewrite Hrun in Hrun1. injection Hrun1 as <- <- <-. specialize (H1 Ha). split.
  - rewrite Hs, length_app. nia.
  - exists r. split; [done|]. by rewrite Hat.
Qed.

(** No response is delivered late, and none is altered: a response that [run_request] returns is
    that of an attempt, with the report added, and right after that attempt the request was found
    not cancelled and then the clock to be before the deadline of the whole request. *)
Theorem response_not_late {urls : Urls} {surroundings : Surroundings} {graph : ErrorGraph} {clk : Clock} {dates : HttpDates}
    {libm : Libm} fuel c job w w' lf response pl :
  job_plan c job (clock_at (tick w)) = Ok pl -> run_request fuel c job w = Some (w', lf, Ok response) ->
  exists attempt w1 w2 ex r, attempt_exchange c job (pl_method pl) (pl_resolved pl) (pl_total pl) attempt w1 = (w2, Ok ex) /\
    ex_result ex = Ok r /\ response = r <| rp_retry_report := rp_retry_report response |> /\ in_time (pl_total pl) (S (S (tick w2))).
Proof. intros Hp. unfold run_request. rewrite Hp. apply run_loop_in_time. Qed.

(** A response body is whole and within its limit: [read_response] succeeds only when every
    chunk of the stream was read without error; the body is the chunks in their order, and it is
    not longer than [max_response_bytes]. *)
Theorem response_body_whole {urls : Urls} {surroundings : Surroundings} {graph : ErrorGraph} {clk : Clock}
    c b idle attempt id r w w' response :
  0 <= max_response_bytes c < usize_max -> read_response c b idle attempt id r w = (w', Ok response) ->
  exists chunks, rs_chunks r = Ok <$> chunks /\ rp_body response = foldl String.append ""%string chunks /\
    Z.of_nat (String.length (rp_body response)) <= max_response_bytes c /\
    rp_status response = rs_status r /\ rp_headers response = rs_headers r.
Proof.
  intros Hmax. unfold read_response, bind at 1, catch.
  match goal with |- context [match ?m w with _ => _ end] => destruct (m w) as [w1 [body|e]] eqn:Hread end; [|by destruct (bool_decide _)].
  intros H. injection H as _ <-. simpl.
  assert (Hc : exists w0 rb, read_chunks (rs_chunks r) c b idle rb "" w0 = (w1, Ok body)).
  { revert Hread. unfold bind, now, observe. simpl. destruct (budget_with_phase _ _ _ _) as [rb|]; [|done]. simpl. by eexists _, rb. }
  destruct Hc as (w0 & rb & Hc). apply read_chunks_whole in Hc as (chunks & H1 & H2 & H3); [|done|simpl; lia]. by exists chunks.
Qed.

(** ** A concrete instance *)

(** A server that is overloaded at first. *)
Definition flaky_reply (n : nat) (q : HopRequest) : Result Response ReqwestError :=
  if (n <? 30)%nat then Ok (mkResponse (q_url q) 503 [] []) else redirect_reply q.

Definition flaky_surroundings : Surroundings := {|
  cancelled_at _ := false;
  clock_at n := Z.of_nat n;
  awaited _ := None;
  slept _ _ := true;
  transport_reply := flaky_reply;
  build_failure _ _ := None;
  auth_apply _ _ _ _ := mkAuthAnswer [("authorization"%string, mkHeaderValue "secret" false)] 7 true;
  on_unauthorized _ _ _ _ _ := None;
  cookie_request _ := sample_store;
  cookie_update _ _ _ := Some (Ok tt);
  system_at _ := 0;
  max_permits := sample_max_permits;
|}.

Lemma flaky_laws : TransportLaws (surroundings := flaky_surroundings).
Proof.
  constructor. intros n q r. simpl. unfold flaky_reply, redirect_reply. repeat case_match; by intros [= <-].
Qed.

Definition observed_policy : HttpRetryPolicy :=
  mkHttpRetryPolicy sample_schedule RetryOn_standard RetryAfterMode.Respect RequestSafety.Automatic true None.

Definition sample_job (m : Method) : SendJob :=
  mkSendJob (Ok m) (fun _ => mkRequestView (text_of "v1/items") sample_headers "" false) (RetrySetting.Policy observed_policy)
    HttpTimeouts_new true 1 0 42 false (mkCookieRequestContext None false).

Abbreviation sample_request m :=
  (run_request (surroundings := flaky_surroundings) (clk := linux_clock) (dates := no_dates) (libm := sample_libm)
    (enough (job_policy sample_config (sample_job m))) sample_config (sample_job m) (mkNet 0 [] 0)) (only parsing).

Definition sample_outcome (m : Method) : option (nat * list RetryEvent * option (string * StatusCode)) :=
  match sample_request m with
  | Some (w, lf, r) => Some (length (sent w), lf_events lf, match r with Ok x => Some (rp_body x, rp_status x) | Err _ => None end)
  | None => None
  end.

Lemma request_sends_confined_witness :
  (fst <$> (fst <$> sample_outcome Method.GET)) = Some 3%nat /\
  exists w' lf result qs,
    sample_request Method.GET = Some (w', lf, result) /\ sent w' = [] ++ qs /\
    Forall (request_confined (surroundings := flaky_surroundings) sample_config (job_cookies (sample_job Method.GET))) qs /\ Z.of_nat (length qs) <= 4 * 3.
Proof.
  split; [vm_compute; reflexivity|].
  apply (request_sends_confined (transport_laws := flaky_laws) sample_config (sample_job Method.GET) (mkNet 0 [] 0)).
  apply sample_schedule_wf.
Defined.


Lemma unsafe_request_sent_once_witness :
  exists w' lf result,
    sample_request Method.POST = Some (w', lf, result) /\
    (length (sent w') <= 0 + hops_of sample_config)%nat /\ exists r, lf_report lf = Some r /\ rep_attempts r <= 1.
Proof.
  assert (Hsome : is_some (sample_request Method.POST) = true) by (vm_compute; reflexivity).
  destruct (sample_request Method.POST) as [[[w lf] result]|] eqn:Hrun; [|discriminate Hsome].
  exists w, lf, result. split; [reflexivity|].
  pose proof (unsafe_request_sent_once (transport_laws := flaky_laws) (clk := linux_clock) (dates := no_dates) (libm := sample_libm)
    sample_config (sample_job Method.POST) (mkNet 0 [] 0) w lf result sample_schedule_wf) as H.
  exact (H eq_refl Hrun).
Defined.

Lemma response_not_late_witness :
  exists pl, job_plan (clk := linux_clock) sample_config (sample_job Method.GET) 0 = Ok pl /\
  exists attempt w1 w2 ex r,
    attempt_exchange (surroundings := flaky_surroundings) (clk := linux_clock) (dates := no_dates) sample_config (sample_job Method.GET)
      (pl_method pl) (pl_resolved pl) (pl_total pl) attempt w1 = (w2, Ok ex) /\
    ex_result ex = Ok r /\ rp_body r = "data"%string /\ in_time (surroundings := flaky_surroundings) (pl_total pl) (S (S (tick w2))).
Proof.
  eexists. split; [vm_compute; reflexivity|].
  assert (Hdata : match sample_request Method.GET with Some (_, _, Ok response) => rp_body response | _ => ""%string end = "data"%string)
    by (vm_compute; reflexivity).
  destruct (sample_request Method.GET) as [[[w lf] [response|e]]|] eqn:Hrun; [|discriminate Hdata..].
  destruct (response_not_late (surroundings := flaky_surroundings) (clk := linux_clock) (dates := no_dates) (libm := sample_libm)
    (enough (job_policy sample_config (sample_job Method.GET))) sample_config (sample_job Method.GET) (mkNet 0 [] 0) w lf response _ eq_refl Hrun)
    as (attempt & w1 & w2 & ex & r & H1 & H2 & H3 & H4).
  exists attempt, w1, w2, ex, r. split_and!; [exact H1|exact H2| |exact H4]. rewrite <- Hdata, H3. reflexivity.
Defined.

Definition cdn_response : Response := mkResponse (mkPlainUrl "https" "cdn.example" "/file") 200 [] [Ok "da"%string; Ok "ta"%string].

Lemma response_body_whole_witness :
  exists w' response chunks,
    read_response (clk := linux_clock) sample_config budget_none None 1 1 cdn_response (mkNet 0 [] 0) = (w', Ok response) /\
    rp_body response = "data"%string /\ rs_chunks cdn_response = Ok <$> chunks /\ rp_body response = foldl String.append ""%string chunks.
Proof.
  assert (Hdata : match read_response (clk := linux_clock) sample_config budget_none None 1 1 cdn_response (mkNet 0 [] 0) with
                  | (_, Ok response) => rp_body response | _ => ""%string end = "data"%string) by (vm_compute; reflexivity).
  destruct (read_response _ _ _ _ _ cdn_response _) as [w' [response|e]] eqn:Hread; [|discriminate Hdata].
  destruct (response_body_whole (clk := linux_clock) sample_config budget_none None 1 1 cdn_response (mkNet 0 [] 0) w' response) as (chunks & H1 & H2 & _);
    [vm_compute; split; [discriminate|reflexivity]|exact Hread|].
  exists w', response, chunks. split; [reflexivity|]. split; [exact Hdata|]. split; [exact H1|exact H2].
Defined.
