(* ===== verification/HttpRegistry.v ===== *)
(** * The operations of an HTTP client: identifiers, capacity, cancellation and completion

    The registry of requests with its guards and leases, the cancellation
    signal of a request, the admission of requests, the delivery of results and
    the shutdown (src/module/http/http_client_inner.rs, admission.rs and
    request_completion.rs).  The operations of a client share its store and
    are interleaved one [client_step] at a time: a call under the admission
    gate, an atomic of a signal, or the drop of an owner, whose releases (the
    permit, then the registration, then the completion) are one step.  An
    admission that waits for capacity and is interrupted is dropped.  A signal
    is an address, which is what [Arc::ptr_eq] compares.  Middleware and the quality diagnosis are left out. *)

From S2P Require Import Prelude F64 Backoff RetrySchedule RetryState Errors WsRetry WsOptions Cancellation WsTask IndexedHeap OperationControl NativePending PriorityWriteQueue QueueTheory.
From S2P Require Import HttpTimeouts HttpRetry HttpConfig RetryAfter HttpHops HttpRequest.

(** ** Signals *)

Record HttpCompletion := mkHttpCompletion {
  cp_report : RetryReport;
  cp_request_id : Z;
  cp_response : Result (StatusCode * Z) NetError;
  cp_callback : Result () NetError;
}.

(** [CancellationSignal]; [sg_events] are those its observer received from it. *)
Record Signal := mkSignal {
  sg_phase : Z;
  sg_completion : option HttpCompletion;
  sg_report : option RetryReport;
  sg_attempt : Z;
  sg_pending : option (option Z * RetryReport);
  sg_events : list RetryEvent;
}.

#[export] Instance Signal_settable : Settable Signal :=
  fields! mkSignal [ sg_phase; sg_completion; sg_report; sg_attempt; sg_pending; sg_events ].

Definition signal_new : Signal := mkSignal 0 None None 0 None [].

Module HttpCancelOutcome.
Inductive HttpCancelOutcome := Requested | AlreadyRequested | TooLate.
End HttpCancelOutcome.
Abbreviation HttpCancelOutcome := HttpCancelOutcome.HttpCancelOutcome.

Definition CANCELLED : Z := 1.
Definition CALLBACK_OR_COMPLETE : Z := 2.

Definition signal_is_cancelled (g : Signal) : bool := negb (Z.land (sg_phase g) 1 =? 0).

Definition signal_request_cancel (g : Signal) : Signal * HttpCancelOutcome :=
  if negb (Z.land (sg_phase g) CALLBACK_OR_COMPLETE =? 0) then (g, HttpCancelOutcome.TooLate)
  else if negb (Z.land (sg_phase g) CANCELLED =? 0) then (g, HttpCancelOutcome.AlreadyRequested)
  else (g <| sg_phase := Z.lor (sg_phase g) CANCELLED |>, HttpCancelOutcome.Requested).

Definition enter_callback (g : Signal) : Signal * bool :=
  (g <| sg_phase := Z.lor (sg_phase g) 2 |>, signal_is_cancelled g).

(** [publish_completion]: the cell is written once. *)
Definition publish_completion (g : Signal) (c : HttpCompletion) : Signal :=
  let g := g <| sg_phase := Z.lor (sg_phase g) 2 |> in
  match sg_completion g with None => g <| sg_completion := Some c |> | Some _ => g end.

Definition emit_pending_observation (g : Signal) (r : RetryReport) : Signal :=
  match sg_pending g with
  | Some (attempt, _) => g <| sg_pending := None; sg_events ::= (fun l => l ++ terminal_events attempt r) |>
  | None => g
  end.

(** [RetryReport::new] *)
Definition RetryReport_new : RetryReport := mkRetryReport 0 0 0 0 None.

Definition report_with_reason (r : RetryReport) (reason : RetryStopReason) : RetryReport :=
  mkRetryReport (rep_attempts r) (rep_retry_count r) (rep_transport_sends r) (rep_elapsed r) (Some reason).

(** ** The registry *)

Abbreviation SignalId := nat (only parsing).

Record Registry := mkRegistry {
  entries : gmap Z SignalId;
  reserved : gmap Z SignalId;
  next_id : option Z;
}.

#[export] Instance Registry_settable : Settable Registry := fields! mkRegistry [ entries; reserved; next_id ].

Definition registry_new : Registry := mkRegistry ∅ ∅ (Some 1).

Definition registered (r : Registry) (id : Z) : bool := is_some (entries r !! id) || is_some (reserved r !! id).

(** The loop of [reserve]: the first identifier that is free; [fuel] bounds the taken ones. *)
Fixpoint next_free (fuel : nat) (r : Registry) : Registry * option Z :=
  match fuel with
  | O => (r, None)
  | S fuel =>
      match next_id r with
      | None => (r, None)
      | Some value =>
          let r := r <| next_id := checked_add u64_max value 1 |> in
          if registered r value then next_free fuel r else (r, Some value)
      end
  end.

Definition resource_exhausted (at_ : ErrorStage) : NetError := with_stage (NetError_new ErrorKind.ResourceExhausted) at_.

(** [RequestRegistry::reserve]; [alloc] tells whether the table can grow. *)
Definition registry_reserve (r : Registry) (requested : option Z) (s : SignalId) (alloc : bool) : Registry * Result Z NetError :=
  let '(r, id) := match requested with
                  | Some id => (r, if registered r id
                                   then Err (with_stage (NetError_new ErrorKind.DuplicateRequestId) ErrorStage.Queue) else Ok id)
                  | None => let '(r, id) := next_free (S (size (entries r) + size (reserved r))) r in
                            (r, ok_or id (resource_exhausted ErrorStage.Queue))
                  end in
  match id with
  | Err e => (r, Err e)
  | Ok id => if negb alloc then (r, Err (resource_exhausted ErrorStage.Queue))
             else (r <| reserved ::= <[id := s]> |>, Ok id)
  end.

(** [RequestRegistry::activate] *)
Definition registry_activate (r : Registry) (id : Z) (s : SignalId) (alloc : bool) : Registry * Result () NetError :=
  if bool_decide (entries r !! id = Some s) then (r, Ok tt)
  else if negb (bool_decide (reserved r !! id = Some s))
  then (r, Err (with_stage (NetError_new ErrorKind.Internal) ErrorStage.Admission))
  else if negb alloc then (r, Err (resource_exhausted ErrorStage.Admission))
  else (r <| reserved ::= delete id; entries ::= <[id := s]> |>, Ok tt).

(** [RequestRegistry::finish] *)
Definition registry_finish (r : Registry) (id : Z) (s : SignalId) : Registry :=
  if bool_decide (entries r !! id = Some s) then r <| entries ::= delete id |>
  else if bool_decide (reserved r !! id = Some s) then r <| reserved ::= delete id |>
  else r.

Definition registry_is_empty (r : Registry) : bool := bool_decide (entries r = ∅) && bool_decide (reserved r = ∅).

(** ** The client *)

(** Who owns an operation: an admission without a permit and with one, an accepted admission, a
    job with its completion lease, the same in its callback, and a stream. *)
Module Stage.
Inductive Stage :=
| Pending
| Holding
| Granted
| Published
| Delivering (response : Result (StatusCode * Z) NetError)
| Streaming
| Ended.
End Stage.
Abbreviation Stage := Stage.Stage.

Record Operation := mkOperation { op_id : Z; op_stage : Stage }.

Section Client.
Context {sem : Semaphores}.

Record Client := mkClient {
  registry : Registry;
  signals : gmap SignalId Signal;
  operations : gmap SignalId Operation;
  fresh : SignalId;
  shutdown_sent : bool;
  in_flight : Sem;
}.

#[export] Instance Client_settable : Settable Client :=
  fields! mkClient [ registry; signals; operations; fresh; shutdown_sent; in_flight ].

Definition client_new (capacity : Z) : Client := mkClient registry_new ∅ ∅ 0 false (sem_new capacity).

Definition set_signal (c : Client) (s : SignalId) (g : Signal) : Client := c <| signals ::= <[s := g]> |>.

Definition set_stage (c : Client) (s : SignalId) (o : Operation) (st : Stage) : Client :=
  c <| operations ::= <[s := mkOperation (op_id o) st]> |>.

Definition signal_of (c : Client) (s : SignalId) : Signal := default signal_new (signals c !! s).

(** Dropping the last clone of a permit. *)
Definition drop_permit (c : Client) : Client := c <| in_flight ::= (fun q => sem_release q 1) |>.

Definition finish (c : Client) (s : SignalId) (o : Operation) : Client :=
  (set_stage c s o Stage.Ended) <| registry ::= (fun r => registry_finish r (op_id o) s) |>.

(** [admission_error] *)
Definition admission_error (error : NetError) (id : option Z) : NetError :=
  let report := report_with_reason RetryReport_new (stop_for_error error) in
  let error := with_http_attempt (with_stage (with_retry_report error report) ErrorStage.Admission) 0 in
  match id with Some id => with_http_request_id error id | None => error end.

Inductive Out :=
| Reserved (s : SignalId)
| Refused (error : NetError)
| Accepted
| Cancel (outcome : HttpCancelOutcome)
| Done.

(** [reserve_request] *)
Definition reserve_request (c : Client) (requested : option Z) (alloc : bool) : Client * Out :=
  if shutdown_sent c
  then (c, Refused (admission_error (with_stage (NetError_new ErrorKind.QueueClosed) ErrorStage.Admission) requested))
  else
    let s := fresh c in
    match registry_reserve (registry c) requested s alloc with
    | (r, Err e) => (c <| registry := r |>, Refused (admission_error e requested))
    | (r, Ok id) =>
        (c <| registry := r; signals ::= <[s := signal_new]>; operations ::= <[s := mkOperation id Stage.Pending]>; fresh := S s |>,
         Reserved s)
    end.

(** [check_budget] of an admission; [expired] is what its deadlines say. *)
Definition admission_check (c : Client) (s : SignalId) (expired : option NetError) : Result () NetError :=
  if signal_is_cancelled (signal_of c s) then Err (with_stage (NetError_new ErrorKind.Cancelled) ErrorStage.Admission)
  else match expired with Some e => Err e | None => Ok tt end.

(** Dropping an admission: its permit, then its uncommitted guard. *)
Definition drop_admission (c : Client) (s : SignalId) (o : Operation) : Client :=
  let c := match op_stage o with Stage.Holding | Stage.Granted => drop_permit c | _ => c end in
  finish c s o.

(** [try_admission] up to its permit. *)
Definition acquire (c : Client) (s : SignalId) (o : Operation) (expired : option NetError) : Client * Out :=
  let refuse e := (drop_admission c s o, Refused (admission_error e (Some (op_id o)))) in
  match admission_check c s expired with
  | Err e => refuse e
  | Ok _ =>
      match try_acquire_many (in_flight c) 1 with
      | Ok q => ((set_stage c s o Stage.Holding) <| in_flight := q |>, Done)
      | Err e =>
          refuse (with_stage (NetError_new match e with
                                           | TryAcquireError.NoPermits => ErrorKind.QueueFull
                                           | TryAcquireError.Closed => ErrorKind.QueueClosed
                                           end) ErrorStage.Queue)
      end
  end.

(** [try_admission] when its lane gives it no slot. *)
Definition refuse_slot (c : Client) (s : SignalId) (o : Operation) (closed : bool) : Client * Out :=
  (drop_admission c s o,
   Refused (admission_error (NetError_new (if closed then ErrorKind.QueueClosed else ErrorKind.QueueFull)) (Some (op_id o)))).

(** [accept_admission] *)
Definition accept_admission (c : Client) (s : SignalId) (o : Operation) (expired : option NetError) (lane_closed alloc : bool) :
    Client * Out :=
  let refuse e := (drop_admission c s o, Refused (admission_error e (Some (op_id o)))) in
  match admission_check c s expired with
  | Err e => refuse e
  | Ok _ =>
      if shutdown_sent c || lane_closed then refuse (NetError_new ErrorKind.QueueClosed)
      else
        match registry_activate (registry c) (op_id o) s alloc with
        | (_, Err e) => refuse e
        | (r, Ok _) => ((set_stage c s o Stage.Granted) <| registry := r |>, Accepted)
        end
  end.

(** [Drop for CompletionLease] *)
Definition completion_drop (c : Client) (s : SignalId) (o : Operation) (response : option (Result (StatusCode * Z) NetError))
    (callback : option (Result () NetError)) : Client :=
  let g := signal_of c s in
  let fallback := with_http_attempt (with_http_request_id (with_stage (NetError_new ErrorKind.Internal) ErrorStage.Dispatch) (op_id o))
                    (sg_attempt g) in
  let report := default RetryReport_new (sg_report g) in
  let report := if is_none (rep_stop_reason report) then report_with_reason report RetryStopReason.PolicyFailed else report in
  let result := mkHttpCompletion report (op_id o)
    (map_err (fun e => with_retry_report e report) (default (Err fallback) response))
    (map_err (fun e => with_retry_report e report) (default (Err fallback) callback)) in
  let c := finish (drop_permit c) s o in
  set_signal c s (emit_pending_observation (publish_completion g result) report).

(** The result of [run_callback]: a request that was cancelled in time delivers no response. *)
Definition delivered_result (g : Signal) (id : Z) (cancelled : bool) (result : HttpResult) : HttpResult :=
  if cancelled && match result with Ok _ => true | Err e => is_none (http_timeout_phase (econtext e)) end
  then Err (with_http_attempt (with_http_request_id (with_stage (NetError_new ErrorKind.Cancelled) ErrorStage.Dispatch) id) (sg_attempt g))
  else result.

(** [run_callback] up to the callback of the request. *)
Definition deliver (c : Client) (s : SignalId) (o : Operation) (result : HttpResult) : Client * HttpResult :=
  let '(g, cancelled) := enter_callback (signal_of c s) in
  let result := delivered_result g (op_id o) cancelled result in
  let report := default RetryReport_new (sg_report g) in
  let report := match result with
                | Err e => if is_none (retry_report e) then report_with_reason report (stop_for_error e) else report
                | Ok _ => report
                end in
  let g := emit_pending_observation (g <| sg_report := Some report |>) report in
  let result := match result with
                | Ok response => Ok (response <| rp_retry_report := Some report |>)
                | Err e => Err (with_retry_report e report)
                end in
  let summary := match result with Ok response => Ok (rp_status response, rp_attempts response) | Err e => Err e end in
  (set_signal (set_stage c s o (Stage.Delivering summary)) s g, result).

(** The end of [run_callback]. *)
Definition callback_returned (c : Client) (s : SignalId) (o : Operation) (response : Result (StatusCode * Z) NetError) (panicked : bool) :
    Client :=
  let g := signal_of c s in
  let error := with_http_attempt (with_http_request_id (with_stage
                 (with_retry_report (NetError_new ErrorKind.CallbackPanicked) (default RetryReport_new (sg_report g)))
                 ErrorStage.Dispatch) (op_id o)) (sg_attempt g) in
  completion_drop c s o (Some response) (Some (if panicked then Err error else Ok tt)).

(** [CancellationSignal::cancel] *)
Definition cancel_signal (c : Client) (s : SignalId) : Client * Out :=
  let '(g, outcome) := signal_request_cancel (signal_of c s) in (set_signal c s g, Cancel outcome).

(** [RequestRegistry::cancel] *)
Definition cancel_id (c : Client) (id : Z) : Client * Out :=
  match entries (registry c) !! id with Some s => cancel_signal c s | None => (c, Done) end.

(** [RequestRegistry::cancel_all] *)
Definition cancel_all (c : Client) : Client :=
  foldl (fun c s => (cancel_signal c s).1) c
    ((map_to_list (entries (registry c))).*2 ++ (map_to_list (reserved (registry c))).*2).

(** [request_shutdown], under the admission gate and after it. *)
Definition request_shutdown (c : Client) : Client := c <| shutdown_sent := true |>.

Definition close_capacity (c : Client) : Client := if shutdown_sent c then c <| in_flight ::= sem_close |> else c.

(** ** Steps *)

Inductive ClientOp :=
| Reserve (requested : option Z) (alloc : bool)
| Acquire (s : SignalId) (expired : option NetError)
| Accept (s : SignalId) (expired : option NetError) (lane_closed alloc : bool)
| DropAdmission (s : SignalId)
| RefuseSlot (s : SignalId) (closed : bool)
| Publish (s : SignalId)
| OpenStream (s : SignalId)
| EndStream (s : SignalId)
| WorkerNote (s : SignalId) (attempt : Z) (report : option RetryReport) (pending : option (option Z * RetryReport))
| Deliver (s : SignalId) (result : HttpResult)
| Return (s : SignalId) (panicked : bool)
| DropJob (s : SignalId)
| CancelSignal (s : SignalId)
| CancelId (id : Z)
| CancelAll
| Shutdown
| CloseCapacity.

(** A step of the owner of an operation; only the owner of its stage can take it. *)
Definition operation_step (c : Client) (s : SignalId) (o : Operation) (op : ClientOp) : Client * Out :=
  match op, op_stage o with
  | Acquire _ expired, Stage.Pending => acquire c s o expired
  | Accept _ expired lane_closed alloc, Stage.Holding => accept_admission c s o expired lane_closed alloc
  | RefuseSlot _ closed, Stage.Holding => refuse_slot c s o closed
  | DropAdmission _, (Stage.Pending | Stage.Holding | Stage.Granted) => (drop_admission c s o, Done)
  | Publish _, Stage.Granted => (set_stage c s o Stage.Published, Done)
  | OpenStream _, Stage.Granted => (set_stage c s o Stage.Streaming, Done)
  | EndStream _, Stage.Streaming => (finish (drop_permit c) s o, Done)
  | WorkerNote _ attempt report pending, Stage.Published =>
      (set_signal c s ((signal_of c s) <| sg_attempt := attempt; sg_report := report; sg_pending := pending |>), Done)
  | Deliver _ result, Stage.Published => ((deliver c s o result).1, Done)
  | Return _ panicked, Stage.Delivering response => (callback_returned c s o response panicked, Done)
  | DropJob _, Stage.Published => (completion_drop c s o None None, Done)
  | DropJob _, Stage.Delivering response => (completion_drop c s o (Some response) None, Done)
  | CancelSignal _, _ => cancel_signal c s
  | _, _ => (c, Done)
  end.

Definition client_step (c : Client) (op : ClientOp) : Client * Out :=
  match op with
  | Reserve requested alloc => reserve_request c requested alloc
  | CancelId id => cancel_id c id
  | CancelAll => (cancel_all c, Done)
  | Shutdown => (request_shutdown c, Done)
  | CloseCapacity => (close_capacity c, Done)
  | Acquire s _ | Accept s _ _ _ | DropAdmission s | RefuseSlot s _ | Publish s | OpenStream s | EndStream s | WorkerNote s _ _ _ | Deliver s _ | Return s _
  | DropJob s | CancelSignal s =>
      match operations c !! s with Some o => operation_step c s o op | None => (c, Done) end
  end.

Definition client_run (c : Client) (ops : list ClientOp) : Client := foldl (fun c op => (client_step c op).1) c ops.

End Client.
