(* ===== verification/RegistryTheory.v ===== *)
(** * Invariants of the operations of an HTTP client

    What every interleaving of the operations of [HttpRegistry] keeps: the
    registry holds exactly the live operations under distinct identifiers, the
    permits are conserved, a completion is published once and after the
    resources were returned, a shutdown lets no operation in, and a
    cancellation that came in time is what is delivered. *)

From S2P Require Import Prelude F64 Backoff RetrySchedule RetryState Errors WsRetry WsOptions Cancellation WsTask IndexedHeap OperationControl NativePending PriorityWriteQueue QueueTheory.
From S2P Require Import HttpTimeouts HttpRetry HttpConfig RetryAfter HttpHops HttpRequest HttpRegistry.

(** ** Counting *)

Section Counting.
Context {A : Type} (P : A -> bool).

(** How many values of a map satisfy [P]. *)
Definition count_values (m : gmap nat A) : nat := size (filter (fun p => P p.2 = true) m).

Lemma count_insert_new m s x : m !! s = None -> count_values (<[s := x]> m) = (count_values m + (if P x then 1 else 0))%nat.
Proof.
  intros Hs. unfold count_values. rewrite map_filter_insert. simpl. destruct (P x) eqn:Hp.
  - rewrite decide_True by done. rewrite map_size_insert_None; [lia|]. apply map_lookup_filter_None. by left.
  - rewrite decide_False by done. rewrite delete_id by done. lia.
Qed.

Lemma count_insert m s x y :
  m !! s = Some y -> (count_values (<[s := x]> m) + (if P y then 1 else 0) = count_values m + (if P x then 1 else 0))%nat.
Proof.
  intros Hs. assert (Hd : delete s m !! s = None) by apply lookup_delete_eq.
  rewrite <- (insert_delete_eq m s x), count_insert_new by done.
  assert (Hm : count_values m = (count_values (delete s m) + (if P y then 1 else 0))%nat).
  { rewrite <- (insert_delete_id m s y Hs) at 1. by apply count_insert_new. }
  lia.
Qed.

End Counting.

(** ** The invariant *)

(** The stages an operation is reserved in, those it is active in, and those it holds a permit in. *)
Definition is_reserved (st : Stage) : bool := match st with Stage.Pending | Stage.Holding => true | _ => false end.

Definition is_active (st : Stage) : bool :=
  match st with Stage.Granted | Stage.Published | Stage.Delivering _ | Stage.Streaming => true | _ => false end.

Definition holds_permit (st : Stage) : bool := match st with Stage.Pending | Stage.Ended => false | _ => true end.

Section Invariant.
Context {sem : Semaphores} {laws : SemaphoreLaws}.

Definition holders (c : Client) : nat := count_values (fun o => holds_permit (op_stage o)) (operations c).

Record client_inv (capacity : Z) (c : Client) : Prop := {
  inv_fresh : forall s, is_Some (operations c !! s) -> (s < fresh c)%nat;
  inv_entries : forall id s, entries (registry c) !! id = Some s <->
    exists o, operations c !! s = Some o /\ op_id o = id /\ is_active (op_stage o) = true;
  inv_reserved : forall id s, reserved (registry c) !! id = Some s <->
    exists o, operations c !! s = Some o /\ op_id o = id /\ is_reserved (op_stage o) = true;
  inv_disjoint : forall id, entries (registry c) !! id = None \/ reserved (registry c) !! id = None;
  inv_capacity : available (in_flight c) + Z.of_nat (holders c) = capacity;
  inv_available : 0 <= capacity -> 0 <= available (in_flight c);
  inv_completion : forall s x, sg_completion (signal_of c s) = Some x ->
    exists o, operations c !! s = Some o /\ op_stage o = Stage.Ended /\ cp_request_id x = op_id o;
}.

Lemma client_new_inv capacity : client_inv capacity (client_new capacity).
Proof.
  split; simpl.
  - intros s [o Ho]. by rewrite lookup_empty in Ho.
  - intros id s. rewrite lookup_empty. split; [done|]. intros (o & Ho & _). by rewrite lookup_empty in Ho.
  - intros id s. rewrite lookup_empty. split; [done|]. intros (o & Ho & _). by rewrite lookup_empty in Ho.
  - intros id. left. apply lookup_empty.
  - rewrite new_available. unfold holders, count_values. simpl. rewrite map_filter_empty, map_size_empty. lia.
  - by rewrite new_available.
  - intros s x. unfold signal_of. simpl. rewrite lookup_empty. done.
Qed.

(** A change of a signal that publishes nothing. *)
Lemma signal_inv capacity c s g :
  client_inv capacity c -> sg_completion g = sg_completion (signal_of c s) -> client_inv capacity (set_signal c s g).
Proof.
  intros [H1 H2 H3 H4 H5 H6 H7] Hg. split; try done. intros s' x. unfold signal_of, set_signal. simpl.
  destruct (decide (s' = s)) as [->|Hne]; [rewrite lookup_insert_eq|rewrite lookup_insert_ne by done]; simpl; [rewrite Hg|]; apply H7.
Qed.

(** A change of the stage of an operation within its class. *)
Lemma stage_inv capacity c s o st q :
  client_inv capacity c -> operations c !! s = Some o ->
  is_reserved st = is_reserved (op_stage o) -> is_active st = is_active (op_stage o) -> op_stage o <> Stage.Ended ->
  (available q + (if holds_permit st then 1 else 0) = available (in_flight c) + (if holds_permit (op_stage o) then 1 else 0)) ->
  (0 <= available (in_flight c) -> 0 <= available q) ->
  client_inv capacity ((set_stage c s o st) <| in_flight := q |>).
Proof.
  intros [H1 H2 H3 H4 H5 H6 H7] Ho Hr Ha Hne Hq Hpos.
  assert (Hlook : forall s' (p : Operation -> Prop), (forall o', op_id o' = op_id o -> op_stage o' = st -> p o' <-> p o) ->
    (exists o', <[s := mkOperation (op_id o) st]> (operations c) !! s' = Some o' /\ p o') <->
    (exists o', operations c !! s' = Some o' /\ p o')).
  { intros s' p Hp. destruct (decide (s' = s)) as [->|Hn]; [|by rewrite lookup_insert_ne].
    rewrite lookup_insert_eq, Ho. split; intros (o' & [= <-] & Hpo); (eexists; split; [done|]); [|by apply Hp].
    by apply Hp in Hpo. }
  split; simpl.
  - intros s' Hs'. destruct (decide (s' = s)) as [->|Hn]; [apply H1; by rewrite Ho|apply H1; by rewrite lookup_insert_ne in Hs'].
  - intros id s'. rewrite H2. symmetry. apply Hlook. intros o' Hid Hst. by rewrite Hid, Hst, Ha.
  - intros id s'. rewrite H3. symmetry. apply Hlook. intros o' Hid Hst. by rewrite Hid, Hst, Hr.
  - done.
  - unfold holders in *. simpl. pose proof (count_insert (fun o => holds_permit (op_stage o)) (operations c) s (mkOperation (op_id o) st) o Ho) as Hc.
    simpl in Hc. destruct (holds_permit st), (holds_permit (op_stage o)); lia.
  - auto.
  - intros s' x Hx. destruct (H7 s' x Hx) as (o' & Ho' & He & Hid). destruct (decide (s' = s)) as [->|Hn]; [congruence|].
    exists o'. by rewrite lookup_insert_ne.
Qed.

(** The end of an operation, its permit returned. *)
Lemma finish_inv capacity c s o q :
  client_inv capacity c -> operations c !! s = Some o -> op_stage o <> Stage.Ended ->
  (available q = available (in_flight c) + (if holds_permit (op_stage o) then 1 else 0)) ->
  client_inv capacity (finish (c <| in_flight := q |>) s o).
Proof.
  intros [H1 H2 H3 H4 H5 H6 H7] Ho Hne Hq.
  assert (Hent : forall id s', entries (registry_finish (registry c) (op_id o) s) !! id = Some s' <->
    s' <> s /\ entries (registry c) !! id = Some s').
  { intros id s'. pose proof (H2 (op_id o) s) as Hi. unfold registry_finish. case_bool_decide as He; simpl.
    - rewrite lookup_delete_Some. split; [|intros [Hn Hs']; split; [|done]; intros <-; congruence].
      intros [Hn Hs']. split; [|done]. intros ->. apply H2 in Hs' as (o' & Ho' & <- & _). congruence.
    - assert (Hs' : entries (registry c) !! id = Some s' -> s' <> s).
      { intros Hs' ->. apply H2 in Hs' as (o' & Ho' & Hid & Ha). rewrite Ho in Ho'. injection Ho' as <-. apply He, H2. by exists o. }
      case_bool_decide; simpl; naive_solver. }
  assert (Hres : forall id s', reserved (registry_finish (registry c) (op_id o) s) !! id = Some s' <->
    s' <> s /\ reserved (registry c) !! id = Some s').
  { intros id s'. unfold registry_finish. case_bool_decide as He; simpl.
    - assert (Hs' : reserved (registry c) !! id = Some s' -> s' <> s); [|naive_solver].
      intros Hs' ->. apply H2 in He as (o1 & Ho1 & _ & Ha). apply H3 in Hs' as (o2 & Ho2 & _ & Hr).
      assert (o1 = o2) as -> by congruence. by destruct (op_stage o2).
    - case_bool_decide as Hr; simpl.
      + rewrite lookup_delete_Some. split; [|intros [Hn Hs']; split; [|done]; intros <-; congruence].
        intros [Hn Hs']. split; [|done]. intros ->. apply H3 in Hs' as (o' & Ho' & <- & _). congruence.
      + assert (Hs' : reserved (registry c) !! id = Some s' -> s' <> s); [|naive_solver].
        intros Hs' ->. apply H3 in Hs' as (o' & Ho' & Hid & Ha). rewrite Ho in Ho'. injection Ho' as <-. apply Hr, H3. by exists o. }
  assert (Hlook : forall s' (p : Operation -> Prop), (forall o', op_stage o' = Stage.Ended -> ~ p o') ->
    (exists o', <[s := mkOperation (op_id o) Stage.Ended]> (operations c) !! s' = Some o' /\ p o') <->
    s' <> s /\ exists o', operations c !! s' = Some o' /\ p o').
  { intros s' p Hp. destruct (decide (s' = s)) as [->|Hn]; [|rewrite lookup_insert_ne by done; naive_solver].
    rewrite lookup_insert_eq. split; [|by intros [? _]]. intros (o' & [= <-] & Hpo). by apply Hp in Hpo. }
  split; simpl.
  - intros s' Hs'. destruct (decide (s' = s)) as [->|Hn]; [apply H1; by rewrite Ho|apply H1; by rewrite lookup_insert_ne in Hs'].
  - intros id s'. rewrite Hent, H2. symmetry. apply Hlook. intros o' Hst [_ Ha]. by rewrite Hst in Ha.
  - intros id s'. rewrite Hres, H3. symmetry. apply Hlook. intros o' Hst [_ Ha]. by rewrite Hst in Ha.
  - intros id. destruct (H4 id) as [Hn|Hn]; [left|right]; apply eq_None_not_Some; intros [s' Hs'];
      [apply Hent in Hs' as [_ ?]|apply Hres in Hs' as [_ ?]]; congruence.
  - unfold holders in *. simpl.
    pose proof (count_insert (fun o => holds_permit (op_stage o)) (operations c) s (mkOperation (op_id o) Stage.Ended) o Ho) as Hc.
    simpl in Hc. destruct (holds_permit (op_stage o)); lia.
  - intros Hcap. specialize (H6 Hcap). destruct (holds_permit (op_stage o)); lia.
  - intros s' x Hx. destruct (H7 s' x Hx) as (o' & Ho' & He & Hid). destruct (decide (s' = s)) as [->|Hn]; [congruence|].
    exists o'. by rewrite lookup_insert_ne.
Qed.

(** An accepted admission becomes active. *)
Lemma activate_inv capacity c s o alloc r :
  client_inv capacity c -> operations c !! s = Some o -> op_stage o = Stage.Holding ->
  registry_activate (registry c) (op_id o) s alloc = (r, Ok tt) ->
  client_inv capacity ((set_stage c s o Stage.Granted) <| registry := r |>).
Proof.
  intros [H1 H2 H3 H4 H5 H6 H7] Ho Hst. unfold registry_activate.
  case_bool_decide as He.
  { apply H2 in He as (o' & Ho' & _ & Ha). rewrite Ho in Ho'. injection Ho' as <-. by rewrite Hst in Ha. }
  case_bool_decide as Hr; simpl; [|done]. destruct alloc; simpl; [|done]. intros [= <-].
  assert (Hne : entries (registry c) !! op_id o = None) by (destruct (H4 (op_id o)); [done|congruence]).
  split; simpl.
  - intros s' Hs'. destruct (decide (s' = s)) as [->|Hn]; [apply H1; by rewrite Ho|apply H1; by rewrite lookup_insert_ne in Hs'].
  - intros id s'. destruct (decide (id = op_id o)) as [->|Hid].
    + rewrite lookup_insert_eq. split.
      * intros [= <-]. exists (mkOperation (op_id o) Stage.Granted). by rewrite lookup_insert_eq.
      * intros (o' & Ho' & Hid & Ha). destruct (decide (s' = s)) as [->|Hn]; [done|]. rewrite lookup_insert_ne in Ho' by done.
        assert (entries (registry c) !! op_id o = Some s') by (apply H2; by exists o'). congruence.
    + rewrite lookup_insert_ne, H2 by done. destruct (decide (s' = s)) as [->|Hn]; [|by rewrite lookup_insert_ne].
      rewrite lookup_insert_eq, Ho. split; intros (o' & [= <-] & Hid' & _); by rewrite <- Hid' in Hid.
  - intros id s'. rewrite lookup_delete_Some, H3. destruct (decide (s' = s)) as [->|Hn].
    + rewrite lookup_insert_eq, Ho. split; [|by intros (o' & [= <-] & _ & ?)]. intros [Hn (o' & [= <-] & ? & _)]. congruence.
    + rewrite lookup_insert_ne by done. split; [by intros [_ ?]|]. intros Hex. split; [|done]. intros <-.
      assert (reserved (registry c) !! op_id o = Some s') by by apply H3. congruence.
  - intros id. destruct (decide (id = op_id o)) as [->|Hid]; [right; apply lookup_delete_eq|].
    rewrite lookup_insert_ne, lookup_delete_ne by done. apply H4.
  - unfold holders in *. simpl.
    pose proof (count_insert (fun o => holds_permit (op_stage o)) (operations c) s (mkOperation (op_id o) Stage.Granted) o Ho) as Hc.
    simpl in Hc. rewrite Hst in Hc. simpl in Hc. lia.
  - done.
  - intros s' x Hx. destruct (H7 s' x Hx) as (o' & Ho' & He' & Hid). destruct (decide (s' = s)) as [->|Hn]; [congruence|].
    exists o'. by rewrite lookup_insert_ne.
Qed.

(** The completion of an operation that ended. *)
Lemma publish_inv capacity c s o g x :
  client_inv capacity c -> operations c !! s = Some o -> op_stage o = Stage.Ended ->
  sg_completion g = Some x -> cp_request_id x = op_id o -> client_inv capacity (set_signal c s g).
Proof.
  intros [H1 H2 H3 H4 H5 H6 H7] Ho Hst Hg Hid. split; try done. intros s' x'. unfold signal_of, set_signal. simpl.
  destruct (decide (s' = s)) as [->|Hne]; [rewrite lookup_insert_eq|rewrite lookup_insert_ne by done; apply H7].
  simpl. rewrite Hg. intros [= <-]. by exists o.
Qed.

(** ** Identifiers *)

Lemma next_free_spec fuel r r' id :
  next_free fuel r = (r', id) ->
  entries r' = entries r /\ reserved r' = reserved r /\ (forall v, id = Some v -> registered r v = false).
Proof.
  revert r. induction fuel as [|fuel IH]; intros r; simpl; [by intros [= <- <-]|].
  destruct (next_id r) as [v|]; [|by intros [= <- <-]].
  set (r1 := mkRegistry (entries r) (reserved r) (checked_add u64_max v 1)). destruct (registered r1 v) eqn:Hv.
  - intros H. apply IH in H as (H1 & H2 & H3). split_and!; [done..|]. exact H3.
  - intros [= <- <-]. split_and!; [done..|]. by intros v' [= <-].
Qed.

(** The fuel is enough: the loop gives up only when the identifiers are exhausted. *)
Lemma next_free_total fuel r v :
  next_id r = Some v -> v + Z.of_nat fuel <= u64_max + 1 ->
  (next_free fuel r).2 = None -> forall i, (i < fuel)%nat -> registered r (v + Z.of_nat i) = true.
Proof.
  revert r v. induction fuel as [|fuel IH]; intros r v Hv Hle; [lia|]. simpl. rewrite Hv.
  set (r1 := mkRegistry (entries r) (reserved r) (checked_add u64_max v 1)). destruct (registered r1 v) eqn:Hreg; [|done]. intros Hn i Hi.
  destruct i as [|i]; [by rewrite Z.add_0_r|].
  destruct (decide (v = u64_max)) as [->|Hmax]; [lia|].
  assert (Hnext : next_id r1 = Some (v + 1)).
  { simpl. unfold checked_add. destruct (Z.leb_spec (v + 1) u64_max); [done|lia]. }
  pose proof (IH r1 (v + 1) Hnext ltac:(lia) Hn i ltac:(lia)) as Hi'.
  replace (v + Z.of_nat (S i)) with (v + 1 + Z.of_nat i) by lia. exact Hi'.
Qed.

(** An identifier is found while there are as many left as are taken. *)
Lemma next_free_found r v :
  next_id r = Some v -> v + Z.of_nat (size (entries r) + size (reserved r)) <= u64_max ->
  is_some (next_free (S (size (entries r) + size (reserved r))) r).2 = true.
Proof.
  intros Hv Hle. destruct (next_free _ r).2 as [id|] eqn:Hn; [done|exfalso].
  set (n := (size (entries r) + size (reserved r))%nat) in *.
  pose proof (next_free_total (S n) r v Hv ltac:(lia) Hn) as Hall.
  set (ids := (fun i => v + Z.of_nat i) <$> seq 0 (S n)).
  assert (Hnd : NoDup ids) by (apply NoDup_fmap_2; [intros i j; lia|apply NoDup_seq]).
  assert (Hsub : list_to_set (C := gset Z) ids ⊆ dom (entries r) ∪ dom (reserved r)).
  { intros id Hid. apply elem_of_list_to_set, list_elem_of_fmap in Hid as (i & -> & Hi%elem_of_seq).
    specialize (Hall i ltac:(lia)). unfold registered in Hall. apply elem_of_union. rewrite !elem_of_dom.
    apply orb_true_iff in Hall as [H|H]; [left|right]; by destruct (_ !! _). }
  apply subseteq_size in Hsub. rewrite size_list_to_set in Hsub by done. unfold ids in Hsub. rewrite length_fmap, length_seq in Hsub.
  pose proof (size_union_alt (dom (entries r)) (dom (reserved r))) as Hu.
  pose proof (subseteq_size (dom (reserved r) ∖ dom (entries r)) (dom (reserved r)) ltac:(set_solver)) as Hd.
  rewrite !size_dom in *. lia.
Qed.

(** ** Steps *)

Lemma reserve_inv capacity c requested alloc : client_inv capacity c -> client_inv capacity (reserve_request c requested alloc).1.
Proof.
  intros Hinv. pose proof Hinv as [H1 H2 H3 H4 H5 H6 H7]. unfold reserve_request. destruct (shutdown_sent c) eqn:Hsd; [done|].
  unfold registry_reserve.
  assert (Hsame : forall r, entries r = entries (registry c) -> reserved r = reserved (registry c) -> client_inv capacity (c <| registry := r |>)).
  { intros r He Hr. split; simpl; rewrite ?He, ?Hr; [exact H1|exact H2|exact H3|exact H4|exact H5|exact H6|exact H7]. }
  assert (Hgo : forall r id, entries r = entries (registry c) -> reserved r = reserved (registry c) -> registered (registry c) id = false ->
    client_inv capacity (c <| registry := r <| reserved ::= <[id := fresh c]> |>; signals ::= <[fresh c := signal_new]>;
      operations ::= <[fresh c := mkOperation id Stage.Pending]>; fresh := S (fresh c) |>)).
  { intros r id He Hr Hid. apply orb_false_iff in Hid as [Hid1 Hid2].
    assert (Hide : entries (registry c) !! id = None) by (by destruct (entries (registry c) !! id)).
    assert (Hidr : reserved (registry c) !! id = None) by (by destruct (reserved (registry c) !! id)).
    assert (Hfresh : operations c !! fresh c = None).
    { apply eq_None_not_Some. intros Hs. apply H1 in Hs. lia. }
    split; simpl; rewrite ?He, ?Hr.
    - intros s Hs. destruct (decide (s = fresh c)) as [->|Hn]; [lia|]. rewrite lookup_insert_ne in Hs by done. apply H1 in Hs. lia.
    - intros id' s. rewrite H2. destruct (decide (s = fresh c)) as [->|Hn]; [|by rewrite lookup_insert_ne].
      rewrite lookup_insert_eq, Hfresh. split; [by intros (? & ? & _)|]. by intros (o & [= <-] & _ & ?).
    - intros id' s. destruct (decide (id' = id)) as [->|Hid].
      + rewrite lookup_insert_eq. split; [intros [= <-]; exists (mkOperation id Stage.Pending); by rewrite lookup_insert_eq|].
        intros (o & Ho & Hio & Ha). destruct (decide (s = fresh c)) as [->|Hn]; [done|]. rewrite lookup_insert_ne in Ho by done.
        assert (reserved (registry c) !! id = Some s) by (apply H3; by exists o). congruence.
      + rewrite lookup_insert_ne, H3 by done. destruct (decide (s = fresh c)) as [->|Hn]; [|by rewrite lookup_insert_ne].
        rewrite lookup_insert_eq, Hfresh. split; [by intros (? & ? & _)|]. intros (o & [= <-] & Hio & _). by simpl in Hio.
    - intros id'. destruct (decide (id' = id)) as [->|Hid]; [by left|]. rewrite lookup_insert_ne by done. apply H4.
    - unfold holders in *. simpl. rewrite count_insert_new by done. simpl. lia.
    - done.
    - intros s x. unfold signal_of. simpl. destruct (decide (s = fresh c)) as [->|Hn]; [by rewrite lookup_insert_eq|].
      rewrite lookup_insert_ne by done. intros Hx. apply H7 in Hx as (o & Ho & ?). exists o. by rewrite lookup_insert_ne. }
  destruct requested as [id|].
  - destruct (registered (registry c) id) eqn:Hid; simpl; [by apply Hsame|]. destruct alloc; simpl; [by apply Hgo|by apply Hsame].
  - destruct (next_free _ _) as [r id] eqn:Hn. apply next_free_spec in Hn as (He & Hr & Hfree).
    destruct id as [id|]; simpl; [|by apply Hsame]. destruct alloc; simpl; [apply Hgo; auto|by apply Hsame].
Qed.

Lemma in_flight_eta (c : Client) : c <| in_flight := in_flight c |> = c.
Proof. by destruct c. Qed.

Lemma finish_permit_inv capacity c s o :
  client_inv capacity c -> operations c !! s = Some o -> op_stage o <> Stage.Ended -> holds_permit (op_stage o) = true ->
  client_inv capacity (finish (drop_permit c) s o).
Proof.
  intros Hinv Ho Hne Hh. apply (finish_inv capacity c s o (sem_release (in_flight c) 1)); [done..|].
  by rewrite Hh, release_available.
Qed.

Lemma drop_admission_inv capacity c s o :
  client_inv capacity c -> operations c !! s = Some o ->
  op_stage o = Stage.Pending \/ op_stage o = Stage.Holding \/ op_stage o = Stage.Granted ->
  client_inv capacity (drop_admission c s o).
Proof.
  intros Hinv Ho [Hst|[Hst|Hst]]; unfold drop_admission; rewrite Hst.
  - rewrite <- (in_flight_eta c). by apply finish_inv; rewrite ?Hst; simpl; [..|lia].
  - by apply finish_permit_inv; rewrite ?Hst.
  - by apply finish_permit_inv; rewrite ?Hst.
Qed.

Lemma acquire_inv capacity c s o expired :
  client_inv capacity c -> operations c !! s = Some o -> op_stage o = Stage.Pending -> client_inv capacity (acquire c s o expired).1.
Proof.
  intros Hinv Ho Hst. pose proof (drop_admission_inv capacity c s o Hinv Ho (or_introl Hst)) as Hdrop.
  unfold acquire. destruct (admission_check c s expired) as [u|e]; [|done].
  destruct (try_acquire_many (in_flight c) 1) as [q|e] eqn:Hq; [|done]. simpl.
  assert (Hok : available q = available (in_flight c) - 1 /\ 1 <= available (in_flight c)).
  { destruct (sem_closed (in_flight c)) eqn:Hcl; [by rewrite acquire_closed in Hq|].
    destruct (Z.lt_ge_cases (available (in_flight c)) 1) as [Hlt|Hge]; [by rewrite acquire_empty in Hq|].
    destruct (acquire_ok _ _ Hcl Hge) as (q' & Hq' & ? & ?). rewrite Hq in Hq'. by injection Hq' as <-. }
  destruct Hok as (Ha & Hc). apply stage_inv; rewrite ?Hst; simpl; [done..|lia|lia].
Qed.

Lemma accept_inv capacity c s o expired lane alloc :
  client_inv capacity c -> operations c !! s = Some o -> op_stage o = Stage.Holding ->
  client_inv capacity (accept_admission c s o expired lane alloc).1.
Proof.
  intros Hinv Ho Hst. pose proof (drop_admission_inv capacity c s o Hinv Ho (or_intror (or_introl Hst))) as Hdrop.
  unfold accept_admission. destruct (admission_check c s expired); [|done]. destruct (_ || lane); [done|].
  destruct (registry_activate _ _ _ _) as [r [[]|e]] eqn:Ha; [|done]. by eapply activate_inv.
Qed.

Lemma emit_pending_completion g r : sg_completion (emit_pending_observation g r) = sg_completion g.
Proof. unfold emit_pending_observation. by destruct (sg_pending g) as [[? ?]|]. Qed.

(** A completion is published for an operation that has ended, its permit and its identifier
    returned. *)
Lemma completion_drop_inv capacity c s o response callback :
  client_inv capacity c -> operations c !! s = Some o -> op_stage o <> Stage.Ended -> holds_permit (op_stage o) = true ->
  client_inv capacity (completion_drop c s o response callback).
Proof.
  intros Hinv Ho Hne Hh. unfold completion_drop. set (x := mkHttpCompletion _ _ _ _).
  apply (publish_inv capacity _ s (mkOperation (op_id o) Stage.Ended) _ x).
  - by apply finish_permit_inv.
  - simpl. apply lookup_insert_eq.
  - done.
  - rewrite emit_pending_completion. unfold publish_completion. simpl.
    destruct (sg_completion (signal_of c s)) as [y|] eqn:Hy; [|done].
    apply Hinv in Hy as (o' & Ho' & He & _). congruence.
  - done.
Qed.

Lemma stage_only_inv capacity c s o st :
  client_inv capacity c -> operations c !! s = Some o -> is_active (op_stage o) = true -> is_active st = true ->
  client_inv capacity (set_stage c s o st).
Proof.
  intros Hinv Ho Ha Hst. rewrite <- (in_flight_eta (set_stage c s o st)).
  apply (stage_inv capacity c s o st (in_flight c)); [done|done|..]; destruct (op_stage o), st; done.
Qed.

Lemma deliver_step_inv capacity c s o result :
  client_inv capacity c -> operations c !! s = Some o -> op_stage o = Stage.Published -> client_inv capacity (deliver c s o result).1.
Proof.
  intros Hinv Ho Hst. unfold deliver. simpl. apply signal_inv.
  - apply stage_only_inv; [done|done|by rewrite Hst|done].
  - by rewrite emit_pending_completion.
Qed.

Lemma cancel_completion g : sg_completion (signal_request_cancel g).1 = sg_completion g.
Proof. unfold signal_request_cancel. by repeat case_match. Qed.

Lemma cancel_signal_inv capacity c s : client_inv capacity c -> client_inv capacity (cancel_signal c s).1.
Proof.
  intros Hinv. unfold cancel_signal. pose proof (cancel_completion (signal_of c s)) as Hg.
  destruct (signal_request_cancel _) as [g outcome]. by apply signal_inv.
Qed.

Lemma operation_step_inv capacity c s o op :
  client_inv capacity c -> operations c !! s = Some o -> client_inv capacity (operation_step c s o op).1.
Proof.
  intros Hinv Ho. destruct op; simpl; try done; try (by apply cancel_signal_inv).
  all: destruct (op_stage o) as [| | | |response| |] eqn:Hst; simpl; try done.
  all: try (apply drop_admission_inv; [done|done|by auto]).
  all: try (apply stage_only_inv; [done|done|by rewrite Hst|done]).
  all: try (apply completion_drop_inv; [done|done|by rewrite Hst|by rewrite Hst]).
  - by apply acquire_inv.
  - by apply accept_inv.
  - apply finish_permit_inv; [done|done|by rewrite Hst|by rewrite Hst].
  - by apply signal_inv.
  - by apply deliver_step_inv.
Qed.

Lemma client_step_inv capacity c op : client_inv capacity c -> client_inv capacity (client_step c op).1.
Proof.
  intros Hinv. destruct op; cbn [client_step]; try (destruct (operations c !! s) as [o|] eqn:Ho; [by apply operation_step_inv|done]).
  - by apply reserve_inv.
  - unfold cancel_id. destruct (entries (registry c) !! id); [by apply cancel_signal_inv|done].
  - unfold cancel_all. generalize ((map_to_list (entries (registry c))).*2 ++ (map_to_list (reserved (registry c))).*2) as l.
    intros l. revert c Hinv. induction l as [|s l IH]; intros c Hinv; [done|]. simpl. by apply IH, cancel_signal_inv.
  - destruct Hinv. by split.
  - unfold close_capacity. destruct (shutdown_sent c); [|done]. destruct Hinv as [H1 H2 H3 H4 H5 H6 H7].
    split; simpl; try done; by rewrite close_available.
Qed.

Lemma client_run_inv capacity c ops : client_inv capacity c -> client_inv capacity (client_run c ops).
Proof. revert c. induction ops as [|op ops IH]; intros c Hinv; [done|]. by apply IH, client_step_inv. Qed.

End Invariant.

(** ** What a step does to an operation *)

Lemma cancelled_odd g : signal_is_cancelled g = Z.odd (sg_phase g).
Proof.
  unfold signal_is_cancelled. rewrite (Z.land_ones _ 1) by lia. change (2 ^ 1) with 2. rewrite Zmod_odd.
  by destruct (Z.odd (sg_phase g)).
Qed.

Lemma odd_lor a b : Z.odd (Z.lor a b) = Z.odd a || Z.odd b.
Proof. by rewrite <- !Z.bit0_odd, Z.lor_spec. Qed.

(** The stages whose end publishes a completion. *)
Definition is_leased (st : Stage) : bool := match st with Stage.Published | Stage.Delivering _ => true | _ => false end.

Section Steps.
Context {sem : Semaphores} {laws : SemaphoreLaws}.

(** What a step from [c] to [c'] does to an operation [o]. *)
Record step_ok (c c' : Client) (s : nat) (o o' : Operation) : Prop := {
  ok_lookup : operations c' !! s = Some o';
  ok_id : op_id o' = op_id o;
  ok_active : is_active (op_stage o') = true -> is_active (op_stage o) = true \/ shutdown_sent c = false;
  ok_completion : forall x, sg_completion (signal_of c s) = Some x -> sg_completion (signal_of c' s) = Some x;
  ok_published : is_leased (op_stage o) = true -> is_leased (op_stage o') = true \/
    op_stage o' = Stage.Ended /\ exists x, sg_completion (signal_of c' s) = Some x /\ cp_request_id x = op_id o /\
      is_some (rep_stop_reason (cp_report x)) = true;
  ok_cancelled : signal_is_cancelled (signal_of c s) = true -> signal_is_cancelled (signal_of c' s) = true;
}.

Lemma step_ok_same c c' s o :
  operations c' !! s = Some o -> sg_completion (signal_of c' s) = sg_completion (signal_of c s) ->
  (signal_is_cancelled (signal_of c s) = true -> signal_is_cancelled (signal_of c' s) = true) -> step_ok c c' s o o.
Proof. intros Ho Hg Hc. split; [done|done|by left|by rewrite Hg|by left|done]. Qed.

Lemma step_ok_refl c s o : operations c !! s = Some o -> step_ok c c s o o.
Proof. intros Ho. by apply step_ok_same. Qed.

(** A stage that is reached without publishing anything. *)
Lemma step_ok_stage c c' s o st :
  operations c' !! s = Some (mkOperation (op_id o) st) -> signal_of c' s = signal_of c s ->
  (is_active st = true -> is_active (op_stage o) = true \/ shutdown_sent c = false) -> is_leased (op_stage o) = false ->
  step_ok c c' s o (mkOperation (op_id o) st).
Proof. intros Ho Hg Ha Hl. split; rewrite ?Hg; try done. by rewrite Hl. Qed.

Lemma signal_of_set c s g : signal_of (set_signal c s g) s = g.
Proof. unfold signal_of, set_signal. simpl. by rewrite lookup_insert_eq. Qed.

Lemma drop_admission_ok c s o :
  is_leased (op_stage o) = false -> step_ok c (drop_admission c s o) s o (mkOperation (op_id o) Stage.Ended).
Proof.
  intros Hl. assert (signal_of (drop_admission c s o) s = signal_of c s) by (unfold drop_admission; by destruct (op_stage o)).
  apply step_ok_stage; [|done|done|done]. unfold drop_admission. destruct (op_stage o); simpl; apply lookup_insert_eq.
Qed.

Lemma acquire_step_ok c s o expired : op_stage o = Stage.Pending -> exists o', step_ok c (acquire c s o expired).1 s o o'.
Proof.
  intros Hst. unfold acquire.
  destruct (admission_check c s expired); [destruct (try_acquire_many _ _)|]; simpl; [|eexists; apply drop_admission_ok; by rewrite Hst..].
  eexists. apply (step_ok_stage c _ s o Stage.Holding); [simpl; apply lookup_insert_eq|done|done|by rewrite Hst].
Qed.

Lemma accept_ok c s o expired lane alloc :
  op_stage o = Stage.Holding -> exists o', step_ok c (accept_admission c s o expired lane alloc).1 s o o'.
Proof.
  intros Hst. unfold accept_admission.
  destruct (admission_check c s expired); [|eexists; apply drop_admission_ok; by rewrite Hst].
  destruct (shutdown_sent c) eqn:Hsd; simpl; [eexists; apply drop_admission_ok; by rewrite Hst|].
  destruct lane; [eexists; apply drop_admission_ok; by rewrite Hst|].
  destruct (registry_activate _ _ _ _) as [r [[]|e]]; [|eexists; apply drop_admission_ok; by rewrite Hst].
  eexists. apply (step_ok_stage c _ s o Stage.Granted); [simpl; apply lookup_insert_eq|done|by right|by rewrite Hst].
Qed.

Lemma emit_pending_cancelled g r : signal_is_cancelled (emit_pending_observation g r) = signal_is_cancelled g.
Proof. unfold emit_pending_observation. by destruct (sg_pending g) as [[? ?]|]. Qed.

Lemma completion_drop_ok capacity c s o response callback :
  client_inv capacity c -> operations c !! s = Some o -> is_leased (op_stage o) = true ->
  step_ok c (completion_drop c s o response callback) s o (mkOperation (op_id o) Stage.Ended).
Proof.
  intros Hinv Ho Hl. unfold completion_drop. set (report := if is_none _ then _ else _). set (x := mkHttpCompletion _ _ _ _).
  assert (Hnone : sg_completion (signal_of c s) = None).
  { destruct (sg_completion (signal_of c s)) as [y|] eqn:Hy; [|done]. apply Hinv in Hy as (o' & Ho' & He & _).
    rewrite Ho in Ho'. injection Ho' as <-. by rewrite He in Hl. }
  set (g' := emit_pending_observation _ _).
  assert (Hg : sg_completion g' = Some x).
  { subst g'. rewrite emit_pending_completion. unfold publish_completion. simpl. by rewrite Hnone. }
  assert (Hc : signal_is_cancelled (signal_of c s) = true -> signal_is_cancelled g' = true).
  { subst g'. rewrite emit_pending_cancelled, !cancelled_odd. unfold publish_completion. simpl. intros Hodd.
    rewrite Hnone. simpl. by rewrite odd_lor, Hodd. }
  assert (Hreason : is_some (rep_stop_reason report) = true) by (subst report; by destruct (rep_stop_reason (default _ _)) eqn:Hr; simpl; rewrite ?Hr).
  split; rewrite ?signal_of_set.
  - simpl. apply lookup_insert_eq.
  - done.
  - done.
  - by rewrite Hnone.
  - intros _. right. split; [done|]. by exists x.
  - done.
Qed.

Lemma deliver_step_ok c s o result :
  op_stage o = Stage.Published -> exists o', step_ok c (deliver c s o result).1 s o o'.
Proof.
  intros Hst. unfold deliver. simpl. eexists. set (g' := emit_pending_observation _ _).
  assert (Hg : sg_completion g' = sg_completion (signal_of c s)) by (subst g'; by rewrite emit_pending_completion).
  assert (Hc : signal_is_cancelled (signal_of c s) = true -> signal_is_cancelled g' = true).
  { subst g'. rewrite emit_pending_cancelled, !cancelled_odd. simpl. intros Hodd. by rewrite odd_lor, Hodd. }
  split; rewrite ?signal_of_set.
  - simpl. apply lookup_insert_eq.
  - done.
  - rewrite Hst. by left.
  - by rewrite Hg.
  - by left.
  - done.
Qed.

Lemma cancel_keeps_cancelled g : signal_is_cancelled g = true -> signal_is_cancelled (signal_request_cancel g).1 = true.
Proof.
  intros Hg. unfold signal_request_cancel. repeat case_match; try done. simpl. revert Hg. rewrite !cancelled_odd. simpl. intros Hg.
  by rewrite odd_lor, Hg.
Qed.

Lemma cancel_signal_ok c s s' o : operations c !! s = Some o -> step_ok c (cancel_signal c s').1 s o o.
Proof.
  intros Ho. unfold cancel_signal. pose proof (cancel_completion (signal_of c s')) as H1. pose proof (cancel_keeps_cancelled (signal_of c s')) as H2.
  destruct (signal_request_cancel (signal_of c s')) as [g outcome]. simpl in *. destruct (decide (s = s')) as [->|Hn].
  - apply step_ok_same; rewrite ?signal_of_set; done.
  - assert (signal_of (set_signal c s' g) s = signal_of c s) as Hs by (unfold signal_of, set_signal; simpl; by rewrite lookup_insert_ne).
    apply step_ok_same; rewrite ?Hs; done.
Qed.

Lemma step_ok_trans c c1 c2 s o o1 o2 :
  step_ok c c1 s o o1 -> step_ok c1 c2 s o1 o2 -> (shutdown_sent c = true -> shutdown_sent c1 = true) -> is_leased (op_stage o) = is_leased (op_stage o1) ->
  step_ok c c2 s o o2.
Proof.
  intros [H1 H2 H3 H4 H5 H6] [K1 K2 K3 K4 K5 K6] Hs Hl. split; [done|congruence| |auto| |auto].
  - intros Ha. apply K3 in Ha as [Ha|Ha]; [auto|]. right. destruct (shutdown_sent c); [|done]. rewrite Hs in Ha; done.
  - rewrite Hl, <- H2. exact K5.
Qed.

(** The owner of an operation changes no other one. *)
Lemma operation_step_frame c s s' o op :
  s <> s' -> operations (operation_step c s' o op).1 !! s = operations c !! s /\ signal_of (operation_step c s' o op).1 s = signal_of c s.
Proof.
  intros Hn. assert (Hdrop : operations (drop_admission c s' o) !! s = operations c !! s /\ signal_of (drop_admission c s' o) s = signal_of c s).
  { unfold drop_admission, signal_of. destruct (op_stage o); simpl; by rewrite lookup_insert_ne. }
  assert (Hsig : forall c1 g, operations c1 !! s = operations c !! s -> signals c1 !! s = signals c !! s ->
    operations (set_signal c1 s' g) !! s = operations c !! s /\ signal_of (set_signal c1 s' g) s = signal_of c s).
  { intros c1 g H1 H2. unfold signal_of. simpl. rewrite lookup_insert_ne by done. by rewrite H1, H2. }
  assert (Hst : forall st, operations (set_stage c s' o st) !! s = operations c !! s) by (intros st; simpl; by rewrite lookup_insert_ne).
  assert (Hcan : operations (cancel_signal c s').1 !! s = operations c !! s /\ signal_of (cancel_signal c s').1 s = signal_of c s).
  { unfold cancel_signal. destruct (signal_request_cancel _) as [g outcome]. by apply Hsig. }
  destruct op; cbn [operation_step]; try done; destruct (op_stage o); cbn [fst]; try done; try apply Hdrop; try (by apply Hsig);
    try (by split; [apply Hst|]).
  - unfold acquire. destruct (admission_check _ _ _); [destruct (try_acquire_many _ _)|]; simpl; [by split; [apply Hst|]|apply Hdrop..].
  - unfold accept_admission. destruct (admission_check _ _ _); [|apply Hdrop]. destruct (_ || lane_closed); [apply Hdrop|].
    destruct (registry_activate _ _ _ _) as [r [[]|e]]; [by split; [apply Hst|]|apply Hdrop].
  - unfold deliver, enter_callback. cbv beta iota zeta. cbn [fst]. apply Hsig; [apply Hst|done].
  - unfold callback_returned, completion_drop. apply Hsig; [apply Hst|done].
  - unfold completion_drop. apply Hsig; [apply Hst|done].
Qed.

Lemma operation_step_ok capacity c s o op :
  client_inv capacity c -> operations c !! s = Some o -> exists o', step_ok c (operation_step c s o op).1 s o o'.
Proof.
  intros Hinv Ho. pose proof (ex_intro (step_ok c c s o) o (step_ok_refl c s o Ho)) as Hrefl.
  pose proof (ex_intro (step_ok c (cancel_signal c s).1 s o) o (cancel_signal_ok c s s o Ho)) as Hcan.
  destruct op; cbn [operation_step]; try done; destruct (op_stage o) as [| | | |response| |] eqn:Hst; try done.
  all: try (eexists; apply drop_admission_ok; by rewrite Hst).
  all: try (eexists; eapply completion_drop_ok; [done|done|by rewrite Hst]).
  - by apply acquire_step_ok.
  - by apply accept_ok.
  - eexists. apply (step_ok_stage c _ s o Stage.Published); [simpl; apply lookup_insert_eq|done|rewrite Hst; by left|by rewrite Hst].
  - eexists. apply (step_ok_stage c _ s o Stage.Streaming); [simpl; apply lookup_insert_eq|done|rewrite Hst; by left|by rewrite Hst].
  - eexists. apply (step_ok_stage c _ s o Stage.Ended); [simpl; apply lookup_insert_eq|done|done|by rewrite Hst].
  - exists o. cbn [fst]. apply step_ok_same; rewrite ?signal_of_set; [exact Ho|reflexivity|intros Hg; exact Hg].
  - by apply deliver_step_ok.
Qed.

Lemma cancel_all_ok l c s o : operations c !! s = Some o -> step_ok c (foldl (fun c s => (cancel_signal c s).1) c l) s o o.
Proof.
  revert c. induction l as [|s' l IH]; intros c Ho; [by apply step_ok_refl|]. simpl.
  pose proof (cancel_signal_ok c s s' o Ho) as H1. eapply step_ok_trans; [exact H1|apply IH, H1| |done].
  unfold cancel_signal. by destruct (signal_request_cancel _).
Qed.

Lemma client_step_ok capacity c op s o :
  client_inv capacity c -> operations c !! s = Some o -> exists o', step_ok c (client_step c op).1 s o o'.
Proof.
  intros Hinv Ho. assert (Hfresh : s <> fresh c) by (intros ->; assert (H : is_Some (operations c !! fresh c)) by (by rewrite Ho); apply Hinv in H; lia).
  destruct op; cbn [client_step].
  1: { exists o. unfold reserve_request. destruct (shutdown_sent c); [by apply step_ok_refl|].
       destruct (registry_reserve _ _ _ _) as [r [id|e]]; simpl; apply step_ok_same; simpl; rewrite ?lookup_insert_ne by done; try done.
       all: unfold signal_of; simpl; rewrite ?lookup_insert_ne by done; done. }
  13: { exists o. unfold cancel_id. destruct (entries _ !! _); [by apply cancel_signal_ok|by apply step_ok_refl]. }
  13: { exists o. by apply cancel_all_ok. }
  13: { exists o. by apply step_ok_same. }
  13: { exists o. unfold close_capacity. destruct (shutdown_sent c); [by apply step_ok_same|by apply step_ok_refl]. }
  all: destruct (operations c !! s0) as [o0|] eqn:Ho0; [|exists o; by apply step_ok_refl].
  all: destruct (decide (s = s0)) as [<-|Hn].
  all: try (rewrite Ho in Ho0; injection Ho0 as <-; by eapply operation_step_ok).
  all: exists o; match goal with Hn : ?s <> ?s0 |- context [operation_step ?c ?s0 ?o0 ?op] => destruct (operation_step_frame c s s0 o0 op Hn) as [H1 H2] end.
  all: apply step_ok_same; rewrite ?H1, ?H2; done.
Qed.

(** Nothing reopens a client, and only [Reserve] of an open client adds an operation. *)
Lemma client_step_shutdown c op : shutdown_sent c = true -> shutdown_sent (client_step c op).1 = true.
Proof.
  intros Hs. assert (Hcan : forall s c, shutdown_sent (cancel_signal c s).1 = shutdown_sent c)
    by (intros s c1; unfold cancel_signal; by destruct (signal_request_cancel _)).
  assert (Hop : forall s o op, shutdown_sent (operation_step c s o op).1 = true).
  { intros s o op'. destruct op'; simpl; try done; destruct (op_stage o) eqn:Hst; simpl; rewrite ?Hcan; try done.
    1: { unfold acquire, drop_admission. rewrite Hst. destruct (admission_check _ _ _); [destruct (try_acquire_many _ _)|]; done. }
    1: { unfold accept_admission, drop_admission. rewrite Hst, Hs. destruct (admission_check _ _ _); done. }
    all: unfold drop_admission; by rewrite Hst. }
  destruct op; cbn [client_step]; try (destruct (operations c !! s); [apply Hop|done]).
  - unfold reserve_request. by rewrite Hs.
  - unfold cancel_id. destruct (entries _ !! _); [by rewrite Hcan|done].
  - unfold cancel_all. generalize ((map_to_list (entries (registry c))).*2 ++ (map_to_list (reserved (registry c))).*2) as l.
    intros l. clear Hop. revert c Hs. induction l as [|s l IH]; intros c Hs; [done|]. simpl. apply IH. by rewrite Hcan.
  - done.
  - unfold close_capacity. by rewrite Hs.
Qed.

(** A closed client gets no operation. *)
Lemma client_step_none c op s :
  shutdown_sent c = true -> operations c !! s = None -> operations (client_step c op).1 !! s = None.
Proof.
  intros Hs Hn. assert (Hcan : forall s1 c1, operations (cancel_signal c1 s1).1 = operations c1)
    by (intros s1 c1; unfold cancel_signal; by destruct (signal_request_cancel _)).
  destruct op; cbn [client_step].
  1: { unfold reserve_request. by rewrite Hs. }
  13: { unfold cancel_id. destruct (entries _ !! _); [by rewrite Hcan|done]. }
  13: { unfold cancel_all. generalize ((map_to_list (entries (registry c))).*2 ++ (map_to_list (reserved (registry c))).*2) as l.
        intros l. revert c Hs Hn. induction l as [|s' l IH]; intros c Hs Hn; [done|]. simpl. apply IH; [|by rewrite Hcan].
        unfold cancel_signal. by destruct (signal_request_cancel _). }
  13: { done. }
  13: { unfold close_capacity. by rewrite Hs. }
  all: destruct (operations c !! s0) as [o0|] eqn:Ho0; [|done].
  all: assert (Hne : s <> s0) by congruence.
  all: match goal with H : ?s <> ?s0 |- context [operation_step ?c ?s0 ?o0 ?op] => destruct (operation_step_frame c s s0 o0 op H) as [H1 _] end.
  all: by rewrite H1.
Qed.

(** An operation that ended stays so. *)
Lemma ended_stays capacity c op s o o' :
  client_inv capacity c -> operations c !! s = Some o -> op_stage o = Stage.Ended ->
  operations (client_step c op).1 !! s = Some o' -> op_stage o' = Stage.Ended.
Proof.
  intros Hinv Ho He. assert (Hcan : forall s1 c1, operations (cancel_signal c1 s1).1 = operations c1)
    by (intros s1 c1; unfold cancel_signal; by destruct (signal_request_cancel _)).
  assert (Hkeep : forall c1, operations c1 !! s = Some o -> operations c1 !! s = Some o' -> op_stage o' = Stage.Ended) by (intros; congruence).
  assert (Hfresh : s <> fresh c) by (intros ->; assert (H : is_Some (operations c !! fresh c)) by (by rewrite Ho); apply Hinv in H; lia).
  destruct op; cbn [client_step].
  1: { apply Hkeep. unfold reserve_request. destruct (shutdown_sent c); [done|].
       destruct (registry_reserve _ _ _ _) as [r [id|e]]; simpl; [by rewrite lookup_insert_ne|done]. }
  13: { apply Hkeep. unfold cancel_id. destruct (entries _ !! _); [by rewrite Hcan|done]. }
  13: { apply Hkeep. unfold cancel_all. generalize ((map_to_list (entries (registry c))).*2 ++ (map_to_list (reserved (registry c))).*2) as l.
        intros l. clear Hinv Hfresh. revert c Ho. induction l as [|s' l IH]; intros c Ho; [done|]. simpl. apply IH. by rewrite Hcan. }
  13: { by apply Hkeep. }
  13: { apply Hkeep. unfold close_capacity. by destruct (shutdown_sent c). }
  all: apply Hkeep; destruct (operations c !! s0) as [o0|] eqn:Ho0; [|done].
  all: destruct (decide (s = s0)) as [<-|Hn].
  all: try (rewrite Ho in Ho0; injection Ho0 as <-; cbn [operation_step]; rewrite ?He, ?Hcan; done).
  all: match goal with H : ?s <> ?s0 |- context [operation_step ?c ?s0 ?o0 ?op] => destruct (operation_step_frame c s s0 o0 op H) as [H1 _] end.
  all: by rewrite H1.
Qed.

(** Runs: what [step_ok] says of each step. *)
Lemma client_run_operation capacity ops c s o :
  client_inv capacity c -> operations c !! s = Some o ->
  let c' := client_run c ops in
  exists o', operations c' !! s = Some o' /\ op_id o' = op_id o /\
    (forall x, sg_completion (signal_of c s) = Some x -> sg_completion (signal_of c' s) = Some x) /\
    (is_leased (op_stage o) = true -> is_leased (op_stage o') = true \/
      op_stage o' = Stage.Ended /\ exists x, sg_completion (signal_of c' s) = Some x /\ cp_request_id x = op_id o /\
        is_some (rep_stop_reason (cp_report x)) = true) /\
    (op_stage o = Stage.Ended -> op_stage o' = Stage.Ended) /\
    (shutdown_sent c = true -> is_active (op_stage o') = true -> is_active (op_stage o) = true) /\
    (signal_is_cancelled (signal_of c s) = true -> signal_is_cancelled (signal_of c' s) = true).
Proof.
  revert c o. induction ops as [|op ops IH]; intros c o Hinv Ho; simpl; [exists o; naive_solver|].
  destruct (client_step_ok capacity c op s o Hinv Ho) as [o1 [H1 H2 H3 H4 H5 H6]].
  pose proof (client_step_inv capacity c op Hinv) as Hinv1. set (c1 := (client_step c op).1) in *.
  destruct (IH c1 o1 Hinv1 H1) as (o' & K1 & K2 & K3 & K4 & K5 & K6 & K7). rewrite H2 in K2, K4.
  exists o'. split_and!; [done|done|auto| | | |auto].
  - intros Hl. apply H5 in Hl as [Hl|(He & x & Hx & Hid & Hrep)]; [by apply K4|]. right. split; [by apply K5|]. exists x. auto.
  - intros He. apply K5. exact (ended_stays capacity c op s o o1 Hinv Ho He H1).
  - intros Hs Ha. destruct (H3 (K6 (client_step_shutdown c op Hs) Ha)); [done|congruence].
Qed.

End Steps.

(** C14. The registry of a client is exact, whatever the interleaving: it holds exactly the operations
    that have not ended, reserved or active as they are; no two of them share an identifier, so
    that the end of one never removes another; and it is empty, which is what a shutdown waits for,
    just when every operation has ended. *)
Theorem registry_exact {sem : Semaphores} {laws : SemaphoreLaws} capacity ops :
  let c := client_run (client_new capacity) ops in
  (forall id s, entries (registry c) !! id = Some s <->
     exists o, operations c !! s = Some o /\ op_id o = id /\ is_active (op_stage o) = true) /\
  (forall id s, reserved (registry c) !! id = Some s <->
     exists o, operations c !! s = Some o /\ op_id o = id /\ is_reserved (op_stage o) = true) /\
  (forall s1 s2 o1 o2, operations c !! s1 = Some o1 -> operations c !! s2 = Some o2 ->
     op_stage o1 <> Stage.Ended -> op_stage o2 <> Stage.Ended -> op_id o1 = op_id o2 -> s1 = s2) /\
  (registry_is_empty (registry c) = true <-> forall s o, operations c !! s = Some o -> op_stage o = Stage.Ended).
Proof.
  intros c. destruct (client_run_inv capacity _ ops (client_new_inv capacity)) as [_ H2 H3 H4 _ _ _]. fold c in H2, H3, H4.
  assert (Hlive : forall s o, operations c !! s = Some o -> op_stage o <> Stage.Ended ->
    entries (registry c) !! op_id o = Some s \/ reserved (registry c) !! op_id o = Some s).
  { intros s o Ho Hne. destruct (is_active (op_stage o)) eqn:Ha; [left; apply H2; by exists o|right]. apply H3. exists o.
    split_and!; [done|done|]. by destruct (op_stage o). }
  split_and!; [done|done| |].
  - intros s1 s2 o1 o2 Ho1 Ho2 Hn1 Hn2 Hid. pose proof (Hlive s1 o1 Ho1 Hn1) as L1. pose proof (Hlive s2 o2 Ho2 Hn2) as L2.
    rewrite Hid in L1. destruct (H4 (op_id o2)), L1, L2; congruence.
  - unfold registry_is_empty. rewrite andb_true_iff, !bool_decide_eq_true. split.
    + intros [He Hr] s o Ho. assert (Hdec : op_stage o = Stage.Ended \/ op_stage o <> Stage.Ended)
        by (destruct (op_stage o); auto; right; discriminate). destruct Hdec as [|Hne]; [done|].
      destruct (Hlive s o Ho Hne) as [H|H]; [rewrite He in H|rewrite Hr in H]; by rewrite lookup_empty in H.
    + intros Hall. split; apply map_eq; intros id; rewrite lookup_empty; apply eq_None_not_Some; intros [s Hs].
      * apply H2 in Hs as (o & Ho & _ & Ha). by rewrite (Hall s o Ho) in Ha.
      * apply H3 in Hs as (o & Ho & _ & Ha). by rewrite (Hall s o Ho) in Ha.
Qed.

(** C28. Permits are conserved: under every interleaving the free permits and the operations that
    hold one make up the capacity, so that no more operations than that are ever admitted, and all
    permits are back when every operation has ended. *)
Theorem client_permits_conserved {sem : Semaphores} {laws : SemaphoreLaws} capacity ops :
  0 <= capacity ->
  let c := client_run (client_new capacity) ops in
  available (in_flight c) + Z.of_nat (holders c) = capacity /\ Z.of_nat (holders c) <= capacity /\
  ((forall s o, operations c !! s = Some o -> op_stage o = Stage.Ended) -> available (in_flight c) = capacity).
Proof.
  intros Hcap c. destruct (client_run_inv capacity _ ops (client_new_inv capacity)) as [_ _ _ _ H5 H6 _]. fold c in H5, H6.
  specialize (H6 Hcap). split_and!; [done|lia|]. intros Hall.
  assert (Hz : holders c = 0%nat); [|lia]. unfold holders, count_values. apply map_size_empty_iff, map_eq. intros s.
  rewrite lookup_empty. apply map_lookup_filter_None. destruct (operations c !! s) as [o|] eqn:Ho; [right|by left].
  intros o' [= <-]. simpl. by rewrite (Hall s o Ho).
Qed.

(** C16. An accepted request completes once: whatever else happens, its job stays with its lease
    until it has ended, and when it has ended it has a completion, with its identifier and the
    reason it stopped, its registration is gone, and the completion never changes. *)
Theorem completion_published_once {sem : Semaphores} {laws : SemaphoreLaws} capacity ops ops' s o :
  let c := client_run (client_new capacity) ops in
  let c' := client_run c ops' in
  operations c !! s = Some o ->
  (forall x, sg_completion (signal_of c s) = Some x -> sg_completion (signal_of c' s) = Some x) /\
  (is_leased (op_stage o) = true -> exists o', operations c' !! s = Some o' /\ op_id o' = op_id o /\
    (is_leased (op_stage o') = true \/
     exists x, sg_completion (signal_of c' s) = Some x /\ cp_request_id x = op_id o /\ is_some (rep_stop_reason (cp_report x)) = true /\
       entries (registry c') !! op_id o <> Some s /\ reserved (registry c') !! op_id o <> Some s)).
Proof.
  intros c c' Ho. pose proof (client_run_inv capacity _ ops (client_new_inv capacity)) as Hinv. fold c in Hinv.
  destruct (client_run_operation capacity ops' c s o Hinv Ho) as (o' & K1 & K2 & K3 & K4 & _). fold c' in K1, K3, K4.
  split; [done|]. intros Hl. exists o'. split_and!; [done|done|]. destruct (K4 Hl) as [?|(He & x & Hx & Hid & Hr)]; [by left|right].
  exists x. destruct (client_run_inv capacity _ ops' Hinv) as [_ H2 H3 _ _ _ _]. fold c' in H2, H3.
  split_and!; [done..| |].
  - intros Hs. apply H2 in Hs as (o1 & Ho1 & _ & Ha). rewrite K1 in Ho1. injection Ho1 as <-. by rewrite He in Ha.
  - intros Hs. apply H3 in Hs as (o1 & Ho1 & _ & Ha). rewrite K1 in Ho1. injection Ho1 as <-. by rewrite He in Ha.
Qed.

(** A shutdown is final: after it no operation is reserved, and none that was not active before
    it becomes so. *)
Theorem shutdown_admits_none {sem : Semaphores} {laws : SemaphoreLaws} capacity ops ops' s o' :
  let c := client_run (client_new capacity) ops in
  let c' := client_run c ops' in
  shutdown_sent c = true -> operations c' !! s = Some o' ->
  shutdown_sent c' = true /\
  exists o, operations c !! s = Some o /\ op_id o = op_id o' /\ (is_active (op_stage o') = true -> is_active (op_stage o) = true).
Proof.
  intros c c' Hs Ho'. pose proof (client_run_inv capacity _ ops (client_new_inv capacity)) as Hinv. fold c in Hinv. split.
  { subst c'. clear Ho' Hinv. clearbody c. revert c Hs. induction ops' as [|op ops' IH]; intros c Hs; [done|]. by apply IH, client_step_shutdown. }
  destruct (operations c !! s) as [o|] eqn:Ho.
  - destruct (client_run_operation capacity ops' c s o Hinv Ho) as (o1 & K1 & K2 & _ & _ & _ & K6 & _). fold c' in K1.
    rewrite Ho' in K1. injection K1 as <-. exists o. split_and!; [done|done|]. by apply K6.
  - exfalso. assert (Hnone : operations c' !! s = None); [|congruence].
    subst c'. clear Ho' Hinv. clearbody c. revert c Hs Ho. induction ops' as [|op ops' IH]; intros c Hs Ho; [done|].
    apply IH; [by apply client_step_shutdown|by apply client_step_none].
Qed.

(** The errors that a request that was cancelled in time is given. *)
Definition cancels_delivery (e : NetError) : Prop :=
  kind e = ErrorKind.Cancelled \/ is_some (http_timeout_phase (econtext e)) = true.

(** C27. A cancellation that was accepted is what is delivered: when a request was told that its
    cancellation is recorded, then, however its transport goes on, its callback receives no
    response but a cancellation, or the timeout that ended it. *)
Theorem cancel_is_delivered {sem : Semaphores} {laws : SemaphoreLaws} capacity ops ops' s o c1 outcome o' result :
  let c := client_run (client_new capacity) ops in
  operations c !! s = Some o -> cancel_signal c s = (c1, Cancel outcome) -> outcome <> HttpCancelOutcome.TooLate ->
  let c' := client_run c1 ops' in
  operations c' !! s = Some o' -> op_stage o' = Stage.Published ->
  exists e, (deliver c' s o' result).2 = Err e /\ cancels_delivery e.
Proof.
  intros c Ho Hcan Hout c' Ho' Hst. pose proof (client_run_inv capacity _ ops (client_new_inv capacity)) as Hinv. fold c in Hinv.
  assert (Hc1 : operations c1 !! s = Some o /\ signal_is_cancelled (signal_of c1 s) = true).
  { revert Hcan. unfold cancel_signal, signal_request_cancel. destruct (negb (Z.land _ CALLBACK_OR_COMPLETE =? 0)); [by intros [= _ <-]|].
    destruct (negb (Z.land _ CANCELLED =? 0)) eqn:Hb; intros [= <- _]; rewrite signal_of_set; (split; [done|]); [done|].
    rewrite cancelled_odd. simpl. by rewrite odd_lor, orb_true_r. }
  destruct Hc1 as [Ho1 Hg1]. pose proof (cancel_signal_inv capacity c s Hinv) as Hinv1. rewrite Hcan in Hinv1. simpl in Hinv1.
  destruct (client_run_operation capacity ops' c1 s o Hinv1 Ho1) as (o2 & K1 & _ & _ & _ & _ & _ & K7). fold c' in K1, K7.
  specialize (K7 Hg1). unfold deliver, enter_callback. rewrite K7. unfold delivered_result. simpl.
  destruct result as [response|e]; simpl; [eexists; split; [done|by left]|].
  destruct (http_timeout_phase (econtext e)) as [phase|] eqn:Hp; simpl; (eexists; split; [done|]); [right; simpl; by rewrite Hp|by left].
Qed.

(** ** Examples *)

(** Two requests on a client of capacity two, the first of which is published and delivered. *)
Abbreviation sample_ops :=
  [Reserve None true; Reserve (Some 7) true; Acquire 0%nat None; Accept 0%nat None false true; Publish 0%nat; Acquire 1%nat None] (only parsing).

Abbreviation late_ops :=
  [Shutdown; Reserve None true; CloseCapacity; Accept 1%nat None false true; Deliver 0%nat (Err (NetError_new ErrorKind.Io)); Return 0%nat true] (only parsing).

Abbreviation sample_client := (client_run (sem := counting_semaphores) (client_new (sem := counting_semaphores) 2) sample_ops).

Lemma registry_exact_witness :
  entries (registry sample_client) !! 1 = Some 0%nat /\ reserved (registry sample_client) !! 7 = Some 1%nat /\
  (registry_is_empty (registry sample_client) = true <-> forall s o, operations sample_client !! s = Some o -> op_stage o = Stage.Ended).
Proof.
  split; [vm_compute; reflexivity|]. split; [vm_compute; reflexivity|].
  exact (proj2 (proj2 (proj2 (registry_exact (laws := counting_laws) 2 sample_ops)))).
Defined.

Lemma client_permits_conserved_witness :
  holders sample_client = 2%nat /\ available (Semaphores := counting_semaphores) (in_flight sample_client) + Z.of_nat (holders sample_client) = 2.
Proof.
  split; [vm_compute; reflexivity|].
  refine (proj1 (client_permits_conserved (laws := counting_laws) 2 sample_ops _)). lia.
Defined.

Lemma completion_published_once_witness :
  exists o', operations (client_run (sem := counting_semaphores) sample_client late_ops) !! 0%nat = Some o' /\ op_id o' = 1.
Proof.
  pose proof (proj2 (completion_published_once (laws := counting_laws) 2 sample_ops late_ops 0%nat (mkOperation 1 Stage.Published)
    ltac:(vm_compute; reflexivity)) eq_refl) as (o' & H1 & H2 & _).
  exists o'. split; [exact H1|exact H2].
Defined.

Abbreviation closed_ops := (sample_ops ++ [Shutdown]) (only parsing).
Abbreviation closed_client := (client_run (sem := counting_semaphores) (client_new (sem := counting_semaphores) 2) closed_ops).

Lemma shutdown_admits_none_witness :
  shutdown_sent (client_run (sem := counting_semaphores) closed_client late_ops) = true.
Proof.
  refine (proj1 (shutdown_admits_none (laws := counting_laws) 2 closed_ops late_ops 1%nat (mkOperation 7 Stage.Ended) _ _)).
  - vm_compute; reflexivity.
  - vm_compute; reflexivity.
Defined.

Lemma cancel_is_delivered_witness :
  exists c1, cancel_signal sample_client 0%nat = (c1, Cancel HttpCancelOutcome.Requested) /\
  exists e, (deliver (sem := counting_semaphores) (client_run c1 [Reserve None true]) 0%nat (mkOperation 1 Stage.Published)
    (Err (NetError_new ErrorKind.Io))).2 = Err e /\ cancels_delivery e.
Proof.
  eexists. split; [reflexivity|].
  refine (cancel_is_delivered (laws := counting_laws) 2 sample_ops [Reserve None true] 0%nat (mkOperation 1 Stage.Published) _
    HttpCancelOutcome.Requested (mkOperation 1 Stage.Published) (Err (NetError_new ErrorKind.Io)) _ _ _ _ _).
  - vm_compute; reflexivity.
  - reflexivity.
  - discriminate.
  - vm_compute; reflexivity.
  - reflexivity.
Defined.
