(* ===== verification/CookieTheory.v ===== *)
(** * Theorems about cookies

    Every run of a jar keeps its cookies valid, within its limits and one per
    name, domain and path; a request is given exactly the cookies whose scope
    it is in; an insecure response leaves secure cookies alone; a snapshot
    restores what it was taken of. *)

From stdpp Require Import sorting.
From S2P Require Import Prelude F64 Backoff RetrySchedule RetryState Errors HttpTimeouts HttpRetry HttpConfig HttpCookies.

(** ** Strings *)

Lemma append_cons x (a b : string) : (String x a ++ b)%string = String x (a ++ b).
Proof. done. Qed.

Lemma append_assoc (a b c : string) : ((a ++ b) ++ c = a ++ (b ++ c))%string.
Proof. induction a as [|x a IH]; [done|]. by rewrite !append_cons, IH. Qed.

Lemma append_empty_r (a : string) : (a ++ "" = a)%string.
Proof. induction a as [|x a IH]; [done|]. by rewrite append_cons, IH. Qed.

Lemma str_len_append (a b : string) : str_len (a ++ b)%string = str_len a + str_len b.
Proof. induction a as [|x a IH]; [done|]. rewrite append_cons. unfold str_len in *. simpl. lia. Qed.

Lemma strip_prefix_spec p s r : strip_prefix p s = Some r <-> s = (p ++ r)%string.
Proof.
  revert s. induction p as [|a p IH]; intros s; simpl; [naive_solver|].
  destruct s as [|b s]; [naive_solver|]. case_bool_decide as Hab; [subst b; rewrite IH, append_cons|rewrite append_cons]; naive_solver.
Qed.

Lemma append_self_l a s : s = (a ++ s)%string -> a = ""%string.
Proof.
  intros H. apply (f_equal str_len) in H. rewrite str_len_append in H. destruct a as [|x a]; [done|]. unfold str_len in H. simpl in H. lia.
Qed.

Lemma str_strip_suffix_spec p s r : str_strip_suffix p s = Some r <-> s = (r ++ p)%string.
Proof.
  revert r. induction s as [|a s IH]; intros r; simpl; case_bool_decide as Hs.
  - subst p. split; [by intros [= <-]|]. intros H. f_equal. destruct r as [|x r]; [done|]. by rewrite append_cons in H.
  - split; [done|]. intros H. destruct r as [|x r]; [done|]. by rewrite append_cons in H.
  - subst p. split; [by intros [= <-]|]. intros H. f_equal. symmetry. by apply (append_self_l r (String a s)).
  - rewrite fmap_Some. split.
    + intros (r' & Hr & ->). apply IH in Hr. by rewrite Hr.
    + intros H. destruct r as [|x r]; [done|]. rewrite append_cons in H. injection H as -> Hs'. exists r. split; [by apply IH|done].
Qed.

Lemma starts_with_spec s p : starts_with s p = true <-> exists r, s = (p ++ r)%string.
Proof.
  unfold starts_with. split.
  - destruct (strip_prefix p s) as [r|] eqn:H; [|done]. intros _. exists r. by apply strip_prefix_spec.
  - intros [r H]. apply strip_prefix_spec in H. by rewrite H.
Qed.

Lemma ends_with_spec s p : ends_with s p = true <-> exists r, s = (r ++ p)%string.
Proof.
  unfold ends_with. split.
  - destruct (str_strip_suffix p s) as [r|] eqn:H; [|done]. intros _. exists r. by apply str_strip_suffix_spec.
  - intros [r H]. apply str_strip_suffix_spec in H. by rewrite H.
Qed.

(** ** Scopes *)

Section Scopes.
Context {urls : Urls} {libs : CookieLibs}.

(** A host is the domain or below it. *)
Definition below (host domain : string) : Prop := host = domain \/ exists p, host = (p ++ "." ++ domain)%string.

(** A path is the cookie path or below it, at a slash. *)
Definition path_below (request cookie : string) : Prop :=
  request = cookie \/ exists rest, request = (cookie ++ rest)%string /\
    ((exists q, cookie = (q ++ "/")%string) \/ exists q, rest = ("/" ++ q)%string).

Lemma domain_matches_spec host domain : domain_matches host domain = true <-> below host domain.
Proof.
  unfold domain_matches, below. rewrite orb_true_iff, bool_decide_eq_true. f_equiv. split.
  - destruct (str_strip_suffix domain host) as [prefix|] eqn:H; [|done]. simpl. rewrite ends_with_spec. intros [q Hq].
    apply str_strip_suffix_spec in H. exists q. subst. by rewrite append_assoc.
  - intros [q Hq]. rewrite <- append_assoc in Hq. apply str_strip_suffix_spec in Hq. rewrite Hq. simpl. apply ends_with_spec. by exists q.
Qed.

Lemma path_matches_spec request cookie : path_matches request cookie = true <-> path_below request cookie.
Proof.
  unfold path_matches, path_below. rewrite orb_true_iff, bool_decide_eq_true. f_equiv. split.
  - destruct (strip_prefix cookie request) as [rest|] eqn:H; [|done]. simpl. rewrite orb_true_iff, ends_with_spec, starts_with_spec.
    intros Hq. apply strip_prefix_spec in H. by exists rest.
  - intros (rest & H & Hq). apply strip_prefix_spec in H. rewrite H. simpl. by rewrite orb_true_iff, ends_with_spec, starts_with_spec.
Qed.

(** The requests a cookie is meant for, as RFC 6265 and its SameSite extension put it. *)
Record in_scope (now : Z) (url : Url) (m : Method) (ctx : CookieRequestContext) (c : StoredCookie) : Prop := {
  scope_live : forall t, sc_expires c = Some t -> now < t;
  scope_host : exists host, host_str url = Some host /\
    (host = sc_domain c \/ sc_host_only c = false /\ below host (sc_domain c));
  scope_path : path_below (url_path url) (sc_path c);
  scope_secure : sc_secure c = true -> scheme url = "https"%string;
  scope_strict : sc_same_site c = Some SameSite.Strict -> site_relation url ctx = Same;
  scope_lax : sc_same_site c = Some SameSite.Lax -> site_relation url ctx = Same \/
    (site_relation url ctx = Cross /\ ctx_top_level ctx = true /\ m ∈ [Method.GET; Method.HEAD; Method.OPTIONS; Method.TRACE]);
  scope_none : sc_same_site c = Some SameSite.None_ -> sc_secure c = true;
}.

Lemma cookie_live c now : cookie_expired c now = false <-> forall t, sc_expires c = Some t -> now < t.
Proof. unfold cookie_expired. destruct (sc_expires c) as [t|]; simpl; [rewrite Z.leb_gt|]; naive_solver. Qed.

Lemma same_site_spec c url m ctx :
  same_site_allowed c (site_relation url ctx) m ctx = true <->
  (sc_same_site c = Some SameSite.Strict -> site_relation url ctx = Same) /\
  (sc_same_site c = Some SameSite.Lax -> site_relation url ctx = Same \/
    (site_relation url ctx = Cross /\ ctx_top_level ctx = true /\ m ∈ [Method.GET; Method.HEAD; Method.OPTIONS; Method.TRACE])) /\
  (sc_same_site c = Some SameSite.None_ -> sc_secure c = true).
Proof.
  unfold same_site_allowed. generalize (site_relation url ctx) as relation. intros relation.
  destruct (sc_same_site c) as [[]|]; [| | |naive_solver].
  - destruct relation; naive_solver.
  - destruct relation; [naive_solver| |naive_solver]. rewrite andb_true_iff.
    assert (Hm : match m with Method.GET | Method.HEAD | Method.OPTIONS | Method.TRACE => true | _ => false end = true <->
                 m ∈ [Method.GET; Method.HEAD; Method.OPTIONS; Method.TRACE]); [|naive_solver].
    rewrite !elem_of_cons, elem_of_nil. destruct m; naive_solver.
  - naive_solver.
Qed.

Lemma cookie_matches_spec c url :
  cookie_matches c url = true <->
  (exists host, host_str url = Some host /\ (host = sc_domain c \/ sc_host_only c = false /\ below host (sc_domain c))) /\
  path_below (url_path url) (sc_path c) /\ (sc_secure c = true -> scheme url = "https"%string).
Proof.
  unfold cookie_matches. destruct (host_str url) as [host|]; [|naive_solver].
  rewrite !andb_true_iff, path_matches_spec, !orb_true_iff, andb_true_iff, domain_matches_spec, !bool_decide_eq_true, !negb_true_iff.
  destruct (sc_secure c); naive_solver.
Qed.

Lemma matching_scope entries now url m ctx c :
  c ∈ matching_cookies (prune_expired now entries) url m ctx <-> c ∈ entries /\ in_scope now url m ctx c.
Proof.
  unfold matching_cookies, prune_expired. rewrite !list_elem_of_filter, andb_true_iff, cookie_matches_spec, same_site_spec, cookie_live.
  split; [intros (((H1 & H2 & H3) & H4 & H5 & H6) & H7 & H8); split; [done|by split]|].
  intros [? []]. naive_solver.
Qed.

(** ** The order of the header *)

Definition path_length (c : StoredCookie) : Z := str_len (sc_path c).

Lemma insert_longest_perm c l : insert_longest c l ≡ₚ c :: l.
Proof.
  induction l as [|d l IH]; [done|]. simpl. destruct (_ <=? _); [done|]. rewrite IH. apply Permutation_swap.
Qed.

Lemma sort_longest_perm l : sort_longest l ≡ₚ l.
Proof. induction l as [|c l IH]; [done|]. simpl. by rewrite insert_longest_perm, IH. Qed.

Lemma insert_longest_sorted c l :
  StronglySorted (fun a b => path_length b <= path_length a) l ->
  StronglySorted (fun a b => path_length b <= path_length a) (insert_longest c l).
Proof.
  induction 1 as [|d l Hs IH Hd]; simpl; [repeat constructor|]. destruct (_ <=? _) eqn:E.
  - apply Z.leb_le in E. constructor; [by constructor|]. constructor; [done|]. eapply Forall_impl; [exact Hd|].
    unfold path_length in *. simpl. intros x Hx. lia.
  - apply Z.leb_gt in E. constructor; [done|]. rewrite insert_longest_perm. constructor; [unfold path_length; lia|done].
Qed.

Lemma sort_longest_sorted l : StronglySorted (fun a b => path_length b <= path_length a) (sort_longest l).
Proof. induction l as [|c l IH]; [constructor|]. by apply insert_longest_sorted. Qed.

(** The sort is stable. *)
Lemma sort_longest_stable l k : filter (fun c => path_length c = k) (sort_longest l) = filter (fun c => path_length c = k) l.
Proof.
  induction l as [|c l IH]; [done|]. simpl sort_longest. rewrite filter_cons, <- IH.
  generalize (sort_longest l) as s. clear l IH. induction s as [|d s IH]; simpl; [by rewrite filter_cons|].
  destruct (_ <=? _) eqn:E; [by rewrite filter_cons|]. apply Z.leb_gt in E.
  rewrite !filter_cons, IH. unfold path_length in *. repeat case_decide; try done. lia.
Qed.

End Scopes.

(** ** The text of the header *)

Section Header.
Context {urls : Urls} {libs : CookieLibs}.

Definition cookie_pair (c : StoredCookie) : string := (sc_name c ++ "=" ++ sc_value c)%string.

Definition add_pair (header : string) (c : StoredCookie) : string :=
  if bool_decide (header = ""%string) then cookie_pair c else (header ++ "; " ++ cookie_pair c)%string.

Lemma write_header_spec limit reserve l i header h :
  write_header limit reserve i header l = Ok h ->
  h = foldl add_pair header l /\ (str_len header <= limit -> str_len h <= limit).
Proof.
  revert i header. induction l as [|c l IH]; intros i header; simpl; [by intros [= ->]|].
  set (separator := if bool_decide (header = ""%string) then 0 else 2).
  destruct (checked_add usize_max separator _ ≫= _) as [added|] eqn:Ha; simpl; [|done].
  destruct (checked_add usize_max (str_len header) added) as [size|] eqn:Hs; simpl; [|done].
  destruct (limit <? size) eqn:Hl; [done|]. destruct (negb (reserve i)); [done|]. intros Hh. apply IH in Hh as [-> Hlen].
  assert (Hpair : ((if (separator =? 0)%Z then header else header ++ "; ") ++ sc_name c ++ "=" ++ sc_value c)%string = add_pair header c).
  { unfold add_pair, cookie_pair, separator. case_bool_decide as He; simpl; [by subst header|]. by rewrite append_assoc. }
  rewrite Hpair in *. split; [done|]. intros _. apply Hlen. apply Z.ltb_ge in Hl.
  apply checked_add_Some in Hs as [-> _].
  apply bind_Some in Ha as (s1 & H1 & Ha). apply bind_Some in Ha as (s2 & H2 & H3).
  apply checked_add_Some in H1 as [-> _], H2 as [-> _], H3 as [-> _].
  unfold add_pair, cookie_pair, separator in *. case_bool_decide as He; [subst header|]; rewrite !str_len_append in *.
  - change (str_len "="%string) with 1. change (str_len ""%string) with 0 in Hl. lia.
  - change (str_len "="%string) with 1. change (str_len "; "%string) with 2. lia.
Qed.

Lemma add_pair_nonempty header c : add_pair header c <> ""%string.
Proof.
  unfold add_pair, cookie_pair. case_bool_decide as He.
  - destruct (sc_name c); [done|]. by rewrite append_cons.
  - destruct header as [|x header]; [done|]. by rewrite append_cons.
Qed.

Lemma add_pairs_concat l header :
  header <> ""%string ->
  foldl add_pair header l = (header ++ foldr (fun c s => "; " ++ cookie_pair c ++ s) "" l)%string.
Proof.
  revert header. induction l as [|c l IH]; intros header Hne; simpl; [by rewrite append_empty_r|].
  rewrite IH by apply add_pair_nonempty. unfold add_pair. rewrite bool_decide_eq_false_2 by done. by rewrite !append_assoc.
Qed.

(** The pairs with their separators. *)
Definition header_text (l : list StoredCookie) : string := String.concat "; " (cookie_pair <$> l).

Lemma header_text_foldl l : foldl add_pair ""%string l = header_text l.
Proof.
  destruct l as [|c l]; [done|]. simpl foldl. rewrite add_pairs_concat by apply add_pair_nonempty.
  unfold add_pair. rewrite bool_decide_eq_true_2 by done. unfold header_text. revert c.
  induction l as [|d l IH]; intros c; simpl; [by rewrite append_empty_r|]. simpl in IH. by rewrite <- IH.
Qed.

Lemma header_text_empty l : header_text l = ""%string -> l = [].
Proof.
  rewrite <- header_text_foldl. destruct l as [|c l]; [done|]. simpl. intros H. exfalso. revert H.
  rewrite add_pairs_concat by apply add_pair_nonempty. destruct (add_pair "" c) as [|x t] eqn:E; [by apply add_pair_nonempty in E|].
  by rewrite append_cons.
Qed.

End Header.

(** ** The invariant of a jar *)

(** What the code relies on of the parsers: a domain is a host as it is printed, a cookie without
    a domain attribute belongs to its host alone, the path [/] is kept, and expiries are times. *)
Class CookieLaws {urls : Urls} {libs : CookieLibs} : Prop := {
  parsed_host : forall raw url p d, try_from_raw_cookie raw url = Some p ->
    pc_domain p = CookieDomain.HostOnly d \/ pc_domain p = CookieDomain.Suffix d ->
    d <> ""%string /\ exists host, host_parse d = Some host /\ host_display host = d;
  parsed_host_only : forall raw url p, try_from_raw_cookie raw url = Some p -> raw_domain raw = None ->
    exists d, pc_domain p = CookieDomain.HostOnly d;
  parsed_root : forall raw url p, try_from_raw_cookie raw url = Some p -> raw_path raw = Some "/"%string -> pc_path p = "/"%string;
  parsed_time : forall raw url p t, try_from_raw_cookie raw url = Some p -> pc_expires p = Some t -> valid_timestamp t = true;
}.

Section Jar.
Context {urls : Urls} {libs : CookieLibs}.

Definition cookie_key (c : StoredCookie) : string * string * string := (sc_name c, sc_domain c, sc_path c).

Lemma same_key_spec a b : same_key a b = true <-> cookie_key a = cookie_key b.
Proof.
  unfold same_key, cookie_key. rewrite !andb_true_iff, !bool_decide_eq_true. split; [by intros [[-> ->] ->]|by intros [= -> -> ->]].
Qed.

Record jar_wf (limits : CookieLimits) (entries : list StoredCookie) : Prop := {
  wf_keys : NoDup (cookie_key <$> entries);
  wf_count : Z.of_nat (length entries) <= max_cookies limits;
  wf_fields : Forall (fun c => fields_valid (max_cookie_bytes limits) c = true) entries;
  wf_times : Forall (fun c => forall t, sc_expires c = Some t -> valid_timestamp t = true) entries;
}.

Lemma sublist_fmap {A B} (f : A -> B) l k : l `sublist_of` k -> f <$> l `sublist_of` f <$> k.
Proof. induction 1; simpl; by constructor. Qed.

Lemma sublist_wf limits entries entries' : entries' `sublist_of` entries -> jar_wf limits entries -> jar_wf limits entries'.
Proof.
  intros Hs [H1 H2 H3 H4]. assert (Hin : forall c, c ∈ entries' -> c ∈ entries) by (intros c Hc; by eapply elem_of_sublist).
  rewrite Forall_forall in H3, H4. split.
  - eapply sublist_NoDup; [exact H1|]. by apply sublist_fmap.
  - apply sublist_length in Hs. lia.
  - apply Forall_forall. intros c Hc. by apply H3, Hin.
  - apply Forall_forall. intros c Hc. by apply H4, Hin.
Qed.

Lemma prune_sublist now entries : prune_expired now entries `sublist_of` entries.
Proof. apply sublist_filter. Qed.

(** The first cookie of a key. *)
Lemma position_Some p entries i :
  position p entries = Some i -> exists c, entries !! i = Some c /\ p c = true.
Proof. unfold position. intros H. apply fmap_Some in H as ([j c] & Hf & ->). apply list_find_Some in Hf as (? & ? & _). by exists c. Qed.

Lemma position_None p entries : position p entries = None -> Forall (fun c => p c = false) entries.
Proof.
  unfold position. intros H. apply fmap_None, list_find_None in H. eapply Forall_impl; [exact H|]. intros c Hc. simpl in Hc. by apply not_true_is_false.
Qed.

Lemma replace_keys (entries : list StoredCookie) i c d :
  entries !! i = Some c -> cookie_key c = cookie_key d -> cookie_key <$> <[i := d]> entries = cookie_key <$> entries.
Proof. intros Hc Hk. rewrite list_fmap_insert, <- Hk. apply list_insert_id. by rewrite list_lookup_fmap, Hc. Qed.

(** A cookie that is stored: where, and what else changes. *)
Lemma store_cookie_cases limits now reserve url entry entries entries' r :
  store_cookie limits now reserve url entry entries = (entries', r) ->
  entries' `sublist_of` entries \/
  (exists i c, entries !! i = Some c /\ cookie_key c = cookie_key entry /\ entries' = <[i := entry]> entries) \/
  ((cookie_key entry ∉ (cookie_key <$> entries)) /\ Z.of_nat (length entries) < max_cookies limits /\ entries' = entries ++ [entry]).
Proof.
  unfold store_cookie. destruct (negb _ && _); [intros [= <- _]; by left|]. destruct (position _ entries) as [i|] eqn:Hp.
  - apply position_Some in Hp as (c & Hc & Hk). apply same_key_spec in Hk.
    destruct (cookie_expired entry now); [intros [= <- _]; left; apply sublist_delete|].
    case_bool_decide; intros [= <- _]; [right; left; by exists i, c|by left].
  - destruct (cookie_expired entry now); [intros [= <- _]; by left|].
    destruct (_ <? _) eqn:Hl; [|intros [= <- _]; by left]. apply Z.ltb_lt in Hl.
    destruct reserve; intros [= <- _]; [|by left]. right; right. split_and!; [|done|done].
    intros Hin. apply list_elem_of_fmap in Hin as (c & Hk & Hc). apply position_None in Hp. rewrite Forall_forall in Hp.
    specialize (Hp c Hc). symmetry in Hk. apply same_key_spec in Hk. congruence.
Qed.

Definition entry_valid (limits : CookieLimits) (c : StoredCookie) : Prop :=
  fields_valid (max_cookie_bytes limits) c = true /\ forall t, sc_expires c = Some t -> valid_timestamp t = true.

Lemma store_cookie_wf limits now reserve url entry entries :
  entry_valid limits entry -> jar_wf limits entries -> jar_wf limits (store_cookie limits now reserve url entry entries).1.
Proof.
  intros [He1 He2] Hwf. destruct (store_cookie _ _ _ _ _ _) as [entries' r] eqn:H. simpl.
  apply store_cookie_cases in H as [Hs|[(i & c & Hc & Hk & ->)|(Hn & Hl & ->)]]; [by eapply sublist_wf|..]; destruct Hwf as [H1 H2 H3 H4].
  - split; [by rewrite (replace_keys _ _ c)|by rewrite length_insert|by apply Forall_insert..].
  - split; [|rewrite length_app; simpl; lia|apply Forall_app; auto using Forall_cons..].
    rewrite fmap_app. apply NoDup_app. split_and!; [done| |by apply NoDup_singleton].
    intros k Hk Hk'. apply list_elem_of_singleton in Hk' as ->. done.
Qed.

Lemma parse_cookie_valid {laws : CookieLaws} limits value url c :
  parse_cookie value url = Some c ->
  bounded_fields (sc_name c) (sc_value c) (sc_domain c) (sc_path c) (max_cookie_bytes limits) = true -> entry_valid limits c.
Proof.
  unfold parse_cookie. destruct (raw_parse value) as [raw|]; [|done]. set (secure := bool_decide (raw_secure raw = Some true)).
  destruct (_ || negb (valid_prefix _ _ _ _)) eqn:Hok; [done|]. destruct (try_from_raw_cookie raw url) as [p|] eqn:Hp; [|done].
  apply orb_false_iff in Hok as [Hok Hpre]. apply orb_false_iff in Hok as [Hok Hnone]. apply orb_false_iff in Hok as [Hpair _].
  apply negb_false_iff in Hpair, Hpre.
  destruct (match pc_domain p with CookieDomain.HostOnly _ => _ | _ => _ end) as [[domain host_only]|] eqn:Hd; [|done].
  destruct (negb (valid_path (pc_path p))) eqn:Hpath; [done|]. apply negb_false_iff in Hpath. intros [= <-]. simpl. intros Hb.
  assert (Hdom : domain <> ""%string /\ (exists host, host_parse domain = Some host /\ host_display host = domain) /\
                 host_only || valid_domain_scope domain = true).
  { destruct (pc_domain p) as [d|d|] eqn:Hpd; [injection Hd as <- <-|destruct (valid_domain_scope d) eqn:Hv; [injection Hd as <- <-|done]|done].
    all: destruct (parsed_host raw url p d Hp) as [? ?]; [by auto|]. all: by rewrite ?Hv. }
  destruct Hdom as (Hne & (host & Hhost & Hdisp) & Hscope).
  assert (Hprefix : valid_prefix (raw_name raw) secure host_only (bool_decide (pc_path p = "/"%string)) = true).
  { revert Hpre. unfold valid_prefix. rewrite !andb_true_iff, !orb_true_iff, !andb_true_iff. intros [? [?|[[? Hdn] Hroot]]]; [by auto|].
    split; [done|right]. apply bool_decide_eq_true in Hroot. split_and!; [done| |].
    - destruct (raw_domain raw) eqn:Hrd; [done|]. destruct (parsed_host_only raw url p Hp Hrd) as [d' Hd']. rewrite Hd' in Hd. by injection Hd as _ <-.
    - apply bool_decide_eq_true. by apply (parsed_root raw url). }
  split; [|intros t; apply (parsed_time raw url p t Hp)].
  unfold fields_valid. cbn [sc_name sc_value sc_domain sc_path sc_host_only sc_same_site sc_secure]. rewrite Hb, Hpair, Hhost, Hscope, Hpath, Hprefix. simpl. rewrite Hdisp.
  rewrite bool_decide_eq_true_2, bool_decide_eq_false_2 by done. simpl. rewrite andb_true_r.
  apply andb_false_iff in Hnone as [Hn|Hn]; [by rewrite Hn|]. apply negb_false_iff in Hn. by rewrite Hn, orb_true_r.
Qed.

(** What a [Set-Cookie] value does: nothing, or it stores the cookie it was parsed to. *)
Lemma set_cookie_cases limits now reserve url header entries entries' r :
  set_cookie limits now reserve url header entries = (entries', r) ->
  entries' = entries \/
  exists value entry, parse_cookie value url = Some entry /\ store_cookie limits now reserve url entry entries = (entries', r) /\
    bounded_fields (sc_name entry) (sc_value entry) (sc_domain entry) (sc_path entry) (max_cookie_bytes limits) = true.
Proof.
  unfold set_cookie. destruct (_ || _); [intros [= <- _]; by left|].
  destruct (header_to_str header ≫= _) as [entry|] eqn:Hh; [|intros [= <- _]; by left].
  apply bind_Some in Hh as (value & _ & Hp). destruct (negb (bounded_fields _ _ _ _ _)) eqn:Hb; [intros [= <- _]; by left|].
  apply negb_false_iff in Hb. intros H. right. by exists value, entry.
Qed.

(** What holds of every jar that the cookies of a response go through. *)
Lemma set_cookies_ind limits times reserve url headers (P : list StoredCookie -> Prop) :
  (forall i header entries, P entries -> P (set_cookie limits (times i) (reserve i) url header entries).1) ->
  forall i total entries, P entries -> P (set_cookies limits times reserve url i total headers entries).1.
Proof.
  intros Hstep. induction headers as [|header headers IH]; intros i total entries HP; simpl; [done|].
  destruct (checked_add _ _ _) as [total'|]; [|done]. destruct (total' <=? _); [|done].
  specialize (Hstep i header entries HP). destruct (set_cookie _ _ _ _ _ _) as [entries' [u|e]]; [|done]. by apply IH.
Qed.

Lemma jar_step_wf {laws : CookieLaws} j op : 0 <= max_cookies (jar_limits j) ->
  jar_wf (jar_limits j) (jar_state j) -> jar_wf (jar_limits (jar_step j op)) (jar_state (jar_step j op)).
Proof.
  intros Hpos Hwf. destruct op as [url headers now times reserve|url m ctx now rl reserve|now reserve|]; simpl.
  - unfold set_response_cookies. destruct (negb (http_url url)); [by eapply sublist_wf; [apply prune_sublist|]|].
    apply set_cookies_ind; [|by eapply sublist_wf; [apply prune_sublist|]]. intros i header entries Hw.
    destruct (set_cookie _ _ _ _ _ _) as [entries' r] eqn:Hs. apply set_cookie_cases in Hs as [->|(value & entry & Hp & Hst & Hb)]; [done|].
    simpl. replace entries' with (store_cookie (jar_limits j) (times i) (reserve i) url entry entries).1 by (by rewrite Hst).
    apply store_cookie_wf; [by eapply parse_cookie_valid|done].
  - by eapply sublist_wf; [apply prune_sublist|].
  - by eapply sublist_wf; [apply prune_sublist|].
  - split; simpl; [constructor|lia|constructor..].
Qed.

Lemma jar_run_limits ops j : jar_limits (jar_run j ops) = jar_limits j.
Proof. revert j. induction ops as [|op ops IH]; intros j; [done|]. simpl. rewrite IH. by destruct op. Qed.

Lemma jar_run_wf {laws : CookieLaws} ops j : 0 <= max_cookies (jar_limits j) ->
  jar_wf (jar_limits j) (jar_state j) -> jar_wf (jar_limits j) (jar_state (jar_run j ops)).
Proof.
  revert j. induction ops as [|op ops IH]; intros j Hpos Hwf; [done|]. simpl.
  pose proof (jar_run_limits [op] j) as Hl. simpl in Hl. pose proof (jar_step_wf j op Hpos Hwf) as Hs.
  specialize (IH (jar_step j op)). rewrite Hl in IH, Hs. by apply IH.
Qed.

End Jar.

(** ** Theorems *)

Section Theorems.
Context {urls : Urls} {libs : CookieLibs}.

(** A filter does not see an element it rejects. *)
Lemma filter_delete {A} (P : A -> bool) (l : list A) i x :
  l !! i = Some x -> P x = false -> filter (fun y => P y = true) (delete i l) = filter (fun y => P y = true) l.
Proof.
  intros Hx Hp. rewrite <- (take_drop_middle l i x Hx) at 2. rewrite delete_take_drop, !filter_app, filter_cons, Hp. by rewrite decide_False.
Qed.

Lemma filter_insert {A} (P : A -> bool) (l : list A) i x y :
  l !! i = Some x -> P x = false -> P y = false -> filter (fun y => P y = true) (<[i := y]> l) = filter (fun y => P y = true) l.
Proof.
  intros Hx Hp Hq. assert (Hi : (i < length l)%nat) by (by eapply lookup_lt_Some).
  rewrite <- (take_drop_middle l i x Hx) at 2. rewrite insert_take_drop, !filter_app, !filter_cons, Hp, Hq by done. by rewrite !decide_False.
Qed.

Lemma below_refl s : below s s.
Proof. by left. Qed.

Lemma path_below_refl s : path_below s s.
Proof. by left. Qed.

(** A cookie of an insecure response leaves the secure cookies as they are. *)
Lemma store_cookie_insecure limits now reserve url entry entries :
  scheme url <> "https"%string -> sc_secure entry = false ->
  filter (fun c => sc_secure c = true) (store_cookie limits now reserve url entry entries).1 = filter (fun c => sc_secure c = true) entries.
Proof.
  intros Hs He. unfold store_cookie. rewrite (bool_decide_eq_false_2 (scheme url = _)) by done. simpl.
  destruct (existsb (shadows_secure entry) entries) eqn:Hsh; [done|].
  assert (Hplain : forall i c, entries !! i = Some c -> cookie_key c = cookie_key entry -> sc_secure c = false).
  { intros i c Hc [= Hn Hd Hp]. apply not_true_is_false. intros Hsec. apply not_true_iff_false in Hsh. apply Hsh, existsb_exists. exists c.
    split; [by apply list_elem_of_In, list_elem_of_lookup_2 with i|]. unfold shadows_secure.
    rewrite Hsec, Hn, Hd, Hp, bool_decide_eq_true_2 by done. simpl.
    rewrite (proj2 (domain_matches_spec _ _) (below_refl _)), (proj2 (path_matches_spec _ _) (path_below_refl _)). done. }
  destruct (position _ entries) as [i|] eqn:Hpos.
  - apply position_Some in Hpos as (c & Hc & Hk). apply same_key_spec in Hk. pose proof (Hplain i c Hc Hk) as Hsec.
    destruct (cookie_expired entry now); [by apply (filter_delete sc_secure _ _ c)|].
    case_bool_decide; [|done]. by apply (filter_insert sc_secure _ _ c).
  - destruct (cookie_expired entry now); [done|]. destruct (_ <? _); [|done]. destruct reserve; [|done]. simpl.
    rewrite filter_app, filter_cons, He, decide_False by done. by rewrite app_nil_r.
Qed.

Lemma parse_cookie_insecure value url c : scheme url <> "https"%string -> parse_cookie value url = Some c -> sc_secure c = false.
Proof.
  intros Hs. unfold parse_cookie. destruct (raw_parse value) as [raw|]; [|done]. destruct (_ || negb (valid_prefix _ _ _ _)) eqn:Hok; [done|].
  destruct (try_from_raw_cookie raw url) as [p|]; [|done]. destruct (match pc_domain p with CookieDomain.HostOnly _ => _ | _ => _ end) as [[d h]|]; [|done].
  destruct (negb (valid_path (pc_path p))); [done|]. intros [= <-]. simpl. apply orb_false_iff in Hok as [Hok _]. apply orb_false_iff in Hok as [Hok _].
  apply orb_false_iff in Hok as [_ Hok]. rewrite (bool_decide_eq_false_2 (scheme url = _)) in Hok by done. by rewrite andb_true_r in Hok.
Qed.

End Theorems.

(** Every jar stays well formed, whatever responses, requests and snapshots it goes through:
    it holds at most one cookie for a name, domain and path, no more cookies than its limit, and
    only cookies whose fields are valid and bounded, so that a cookie of a domain never has a
    public suffix for a scope, [SameSite=None] is secure, and the name prefixes keep their word. *)
Theorem jar_stays_valid {urls : Urls} {libs : CookieLibs} {laws : CookieLaws} limits ops :
  0 <= max_cookies limits -> jar_wf limits (jar_state (jar_run (mkCookieJar [] limits) ops)).
Proof.
  intros Hpos. apply (jar_run_wf ops (mkCookieJar [] limits)); [done|]. split; simpl; [constructor|lia|constructor..].
Qed.

(** C15. A request carries exactly the cookies it is in the scope of: when a jar answers, its answer
    lists the cookies of the jar whose host, path, security, lifetime and SameSite rule admit the
    request, each once, the longer paths first and otherwise in the order of creation, within the
    limit of the header; the value is marked sensitive, and there is none when no cookie qualifies. *)
Theorem cookies_sent_in_scope {urls : Urls} {libs : CookieLibs} {laws : CookieLaws} limits ops now reserve_list reserve url m ctx entries' answer :
  0 <= max_cookies limits -> 0 <= max_cookie_header_bytes limits ->
  let entries := jar_state (jar_run (mkCookieJar [] limits) ops) in
  cookies_for_request limits now reserve_list reserve entries url m ctx = (entries', Ok answer) ->
  exists l, NoDup l /\ StronglySorted (fun a b => path_length b <= path_length a) l /\
    (forall k, filter (fun c => path_length c = k) l `sublist_of` entries) /\
    (forall c, c ∈ l <-> http_url url = true /\ c ∈ entries /\ in_scope now url m ctx c) /\
    match answer with
    | Some v => hv_text v = header_text l /\ hv_sensitive v = true /\ str_len (hv_text v) <= max_cookie_header_bytes limits
    | None => l = []
    end.
Proof.
  intros Hpos Hmax entries. unfold cookies_for_request. destruct (http_url url) eqn:Hurl; simpl.
  2: { intros [= _ <-]. exists []. split_and!; [constructor|constructor|intros k; apply sublist_nil_l| |done].
       intros c. split; [intros H; by apply not_elem_of_nil in H|by intros [? _]]. }
  set (l := matching_cookies (prune_expired now entries) url m ctx). assert (Hsub : l `sublist_of` entries).
  { etrans; [apply sublist_filter|apply prune_sublist]. }
  pose proof (jar_run_wf ops (mkCookieJar [] limits)) as Hwf. simpl in Hwf. specialize (Hwf Hpos). fold entries in Hwf.
  assert (Hkeys : NoDup (cookie_key <$> entries)) by (apply Hwf; split; simpl; [constructor|lia|constructor..]).
  intros [= _ H]. exists (sort_longest l). split_and!.
  - rewrite sort_longest_perm. eapply NoDup_fmap_1, sublist_NoDup; [exact Hkeys|by apply sublist_fmap].
  - apply sort_longest_sorted.
  - intros k. rewrite sort_longest_stable. etrans; [apply sublist_filter|done].
  - intros c. rewrite (sort_longest_perm l). unfold l. rewrite matching_scope. naive_solver.
  - destruct reserve_list; [|done]. simpl in H. destruct (write_header _ _ _ _ _) as [h|e] eqn:Hw; [|done].
    apply write_header_spec in Hw as [-> Hlen]. rewrite header_text_foldl in *. case_bool_decide as He.
    + injection H as <-. by apply header_text_empty.
    + destruct (negb _); [done|]. injection H as <-. simpl. split_and!; [done|done|by apply Hlen].
Qed.

(** The secure cookies of a list, in their order. *)
Definition secure_part (l : list StoredCookie) : list StoredCookie := filter (fun c => sc_secure c = true) l.

(** C30. An insecure response cannot touch a secure cookie: whatever [Set-Cookie] values come over
    plain HTTP, the secure cookies of the jar are afterwards what they were, in their order, and
    there are no others. *)
Theorem secure_cookies_kept {urls : Urls} {libs : CookieLibs} limits now times reserve entries url headers :
  scheme url <> "https"%string ->
  secure_part (set_response_cookies limits now times reserve entries url headers).1 = secure_part (prune_expired now entries).
Proof.
  intros Hs. unfold secure_part, set_response_cookies. destruct (negb (http_url url)); [done|].
  apply (set_cookies_ind limits times reserve url _
    (fun e => filter (fun c => sc_secure c = true) e = filter (fun c => sc_secure c = true) (prune_expired now entries))); [|done].
  intros i header e IH. destruct (set_cookie _ _ _ _ _ _) as [e' r] eqn:Hset.
  apply set_cookie_cases in Hset as [->|(value & entry & Hp & Hst & _)]; [done|]. simpl.
  pose proof (store_cookie_insecure limits (times i) (reserve i) url entry e Hs (parse_cookie_insecure value url entry Hs Hp)) as Hk.
  rewrite Hst in Hk. simpl in Hk. by rewrite Hk.
Qed.

(** ** Snapshots *)

Section Snapshots.
Context {urls : Urls} {libs : CookieLibs}.

Definition persistent (c : StoredCookie) : bool := is_some (sc_expires c).

Lemma fields_valid_mono a b c : a <= b -> fields_valid a c = true -> fields_valid b c = true.
Proof.
  unfold fields_valid, bounded_fields. rewrite !andb_true_iff, !Z.leb_le. intros Hab H. repeat (destruct H as [H ?]). split_and!; try done; lia.
Qed.

(** The records of the persistent cookies, and their cookies. *)
Lemma record_cookies (entries : list StoredCookie) :
  sr_cookie <$> omap (fun c => mkSnapshotRecord c <$> sc_expires c) entries = filter (fun c => persistent c = true) entries.
Proof.
  induction entries as [|c entries IH]; [done|]. rewrite filter_cons. destruct c as [? ? ? ? ? ? ? ? [t|]]; simpl; [|exact IH].
  f_equal. exact IH.
Qed.

Lemma record_restored (entries : list StoredCookie) :
  (fun r => let c := sr_cookie r in
     mkStoredCookie (sc_name c) (sc_value c) (sc_domain c) (sc_host_only c) (sc_path c) (sc_secure c) (sc_http_only c)
       (sc_same_site c) (Some (sr_expires r))) <$> omap (fun c => mkSnapshotRecord c <$> sc_expires c) entries =
  filter (fun c => persistent c = true) entries.
Proof.
  induction entries as [|c entries IH]; [done|]. rewrite filter_cons. destruct c as [? ? ? ? ? ? ? ? [t|]]; simpl; [|exact IH].
  f_equal. exact IH.
Qed.

Lemma records_valid_ok limit records before :
  Forall (fun r => record_valid limit r = true) records ->
  NoDup (cookie_key <$> ((sr_cookie <$> before) ++ (sr_cookie <$> records))) -> records_valid limit before records = true.
Proof.
  revert before. induction records as [|r records IH]; intros before Hv Hk; [done|]. apply Forall_cons in Hv as [Hr Hv]. cbn [records_valid].
  rewrite Hr, IH; [|done|by rewrite (fmap_app sr_cookie), <- app_assoc]. rewrite andb_true_r. cbn [andb]. apply negb_true_iff, not_true_is_false.
  intros Hex. apply existsb_exists in Hex as (other & Hin & Hsame). apply same_key_spec in Hsame. apply list_elem_of_In in Hin.
  rewrite fmap_app in Hk. apply NoDup_app in Hk as (_ & Hk & _). apply (Hk (cookie_key (sr_cookie r))).
  - rewrite <- Hsame. apply list_elem_of_fmap_2, list_elem_of_fmap_2. done.
  - simpl. left.
Qed.

Lemma snapshot_records_valid limits limit (entries : list StoredCookie) :
  max_cookie_bytes limits <= limit -> jar_wf limits entries ->
  Forall (fun r => record_valid limit r = true) (omap (fun c => mkSnapshotRecord c <$> sc_expires c) entries).
Proof.
  intros Hb [_ _ H3 H4]. rewrite Forall_forall in H3, H4. apply Forall_forall. intros r Hr.
  apply list_elem_of_omap in Hr as (c & Hc & Hr). apply fmap_Some in Hr as (t & Ht & ->). unfold record_valid. cbn [sr_cookie sr_expires].
  rewrite (H4 c Hc t Ht), andb_true_r. by apply (fields_valid_mono (max_cookie_bytes limits)), H3.
Qed.

End Snapshots.

(** C39. A snapshot restores what it was taken of: a jar whose [max_cookies] and [max_cookie_bytes] are
    not above the default ones can always be restored from its snapshot, at any later time and when
    memory can be allocated, to exactly its persistent cookies that have not expired, with all their
    fields and in their order. *)
Theorem snapshot_restores_jar {urls : Urls} {libs : CookieLibs} {laws : CookieLaws} limits ops now reserve entries' s later :
  0 <= max_cookies limits <= max_cookies CookieLimits_default -> max_cookie_bytes limits <= max_cookie_bytes CookieLimits_default ->
  let entries := jar_state (jar_run (mkCookieJar [] limits) ops) in
  jar_snapshot now reserve entries = (entries', Ok s) -> now <= later ->
  from_snapshot later true s = Ok (prune_expired later (filter (fun c => persistent c = true) entries)).
Proof.
  intros Hcount Hbytes entries. unfold jar_snapshot. destruct (forallb _ _); [|done]. intros [= _ <-] Hlater.
  assert (Hwf : jar_wf limits entries).
  { apply (jar_run_wf ops (mkCookieJar [] limits)); simpl; [lia|]. split; simpl; [constructor|lia|constructor..]. }
  assert (Hwf' : jar_wf limits (prune_expired now entries)) by (by eapply sublist_wf; [apply prune_sublist|]).
  unfold from_snapshot, snapshot_validate. cbn [schema_version cookies].
  assert (Hlen : Z.of_nat (length (omap (fun c => mkSnapshotRecord c <$> sc_expires c) (prune_expired now entries))) <= max_cookies limits).
  { rewrite <- (length_fmap sr_cookie), record_cookies. etrans; [|apply (wf_count _ _ Hwf')].
    apply inj_le, sublist_length, sublist_filter. }
  rewrite (proj2 (Z.ltb_ge _ _)) by lia. simpl orb. rewrite records_valid_ok; [|by eapply snapshot_records_valid|].
  - cbn [negb]. rewrite record_restored. f_equal. unfold prune_expired. rewrite !list_filter_filter. apply list_filter_iff.
    intros c. rewrite !cookie_live. split; [naive_solver|]. intros [Hc Hp]. split_and!; [done|done|]. intros t Ht. specialize (Hc t Ht). lia.
  - simpl. rewrite record_cookies. eapply sublist_NoDup; [exact (wf_keys _ _ Hwf')|]. apply sublist_fmap, sublist_filter.
Qed.

(** ** Examples *)

(** Cookies of the form [name=value], perhaps followed by [; Secure], which last until the time 1000. *)
Record PlainCookie := mkPlainCookie { plain_name : string; plain_value : string; plain_secure : bool }.

Fixpoint split_equals (s : string) : option (string * string) :=
  match s with
  | EmptyString => None
  | String a s => if bool_decide (String a EmptyString = "="%string) then Some (EmptyString, s)
                  else (fun p => (String a p.1, p.2)) <$> split_equals s
  end.

Definition plain_cookie (s : string) : option PlainCookie :=
  let '(s, secure) := match str_strip_suffix "; Secure" s with Some s => (s, true) | None => (s, false) end in
  (fun p => mkPlainCookie p.1 p.2 secure) <$> split_equals s.

#[export] Instance plain_libs : CookieLibs (urls := plain_urls) := {
  url_host u := Some (Host.Domain (pu_host u));
  host_parse s := Some (Host.Domain s);
  host_display h := match h with Host.Domain s | Host.Ipv4 s | Host.Ipv6 s => s end;
  known_suffix _ := true;
  domain_str s := Some s;
  RawCookie := PlainCookie;
  raw_parse := plain_cookie;
  raw_name := plain_name;
  raw_value := plain_value;
  raw_secure c := if plain_secure c then Some true else None;
  raw_http_only _ := None;
  raw_same_site _ := None;
  raw_domain _ := None;
  raw_path _ := None;
  try_from_raw_cookie c u :=
    if bool_decide (pu_host u = EmptyString) then None
    else Some (mkParsedCookie (CookieDomain.HostOnly (pu_host u)) (pu_path u) (Some 1000));
  valid_timestamp _ := true;
  header_to_str v := Some (hv_text v);
  header_from_str _ := true;
}.

#[export] Instance plain_cookie_laws : CookieLaws (libs := plain_libs).
Proof.
  split.
  - intros raw url p d. simpl. case_bool_decide as Hh; [done|]. intros [= <-]. simpl. intros [[= <-]|?]; [|done]. split; [done|]. by exists (Host.Domain (pu_host url)).
  - intros raw url p. simpl. case_bool_decide; [done|]. intros [= <-] _. by exists (pu_host url).
  - done.
  - done.
Qed.

Definition api (path : string) : Url (Urls := plain_urls) := mkPlainUrl "https" "api.example" path.

Definition plain_api : Url (Urls := plain_urls) := mkPlainUrl "http" "api.example" "/".

Definition set_header_of (value : string) : HeaderMap := [("set-cookie"%string, mkHeaderValue value false)].

Abbreviation jar_ops :=
  [SetCookies (api "/") (set_header_of "id=1; Secure") 0 (fun _ => 0) (fun _ => true);
   SetCookies (api "/v1") (set_header_of "page=2") 0 (fun _ => 0) (fun _ => true);
   SetCookies plain_api (set_header_of "id=3") 0 (fun _ => 0) (fun _ => true)] (only parsing).

Abbreviation filled_jar := (jar_run (mkCookieJar [] CookieLimits_default) jar_ops).

Lemma jar_stays_valid_witness : length (jar_state filled_jar) = 2%nat /\ jar_wf CookieLimits_default (jar_state filled_jar).
Proof.
  split; [vm_compute; reflexivity|]. apply (jar_stays_valid (laws := plain_cookie_laws) CookieLimits_default jar_ops). simpl. lia.
Defined.

Abbreviation sent_cookies :=
  (cookies_for_request CookieLimits_default 5 true (fun _ => true) (jar_state filled_jar) (api "/v1") Method.GET (mkCookieRequestContext None false)).

Lemma cookies_sent_in_scope_witness :
  (sent_cookies).2 = Ok (Some (mkHeaderValue "page=2; id=1" true)) /\
  exists l, header_text l = "page=2; id=1"%string /\ forall c, c ∈ l <-> http_url (api "/v1") = true /\ c ∈ jar_state filled_jar /\
    in_scope 5 (api "/v1") Method.GET (mkCookieRequestContext None false) c.
Proof.
  split; [vm_compute; reflexivity|].
  destruct (cookies_sent_in_scope (laws := plain_cookie_laws) CookieLimits_default jar_ops 5 true (fun _ => true) (api "/v1") Method.GET
    (mkCookieRequestContext None false) (sent_cookies).1 (Some (mkHeaderValue "page=2; id=1" true))) as (l & _ & _ & _ & Hin & Hl & _).
  - simpl. lia.
  - simpl. lia.
  - vm_compute. reflexivity.
  - exists l. split; [by rewrite <- Hl|exact Hin].
Defined.

Lemma secure_cookies_kept_witness :
  secure_part (set_response_cookies CookieLimits_default 5 (fun _ => 5) (fun _ => true) (jar_state filled_jar)
    plain_api (set_header_of "id=4")).1 = secure_part (prune_expired 5 (jar_state filled_jar)).
Proof. apply secure_cookies_kept. discriminate. Defined.

Lemma snapshot_restores_jar_witness :
  exists s, (jar_snapshot 5 (fun _ => true) (jar_state filled_jar)).2 = Ok s /\ length (cookies s) = 2%nat /\
    from_snapshot 7 true s = Ok (prune_expired 7 (filter (fun c => persistent c = true) (jar_state filled_jar))).
Proof.
  eexists. split; [reflexivity|]. split; [vm_compute; reflexivity|].
  eapply (snapshot_restores_jar (laws := plain_cookie_laws) CookieLimits_default jar_ops 5 (fun _ => true)).
  - simpl. lia.
  - simpl. lia.
  - reflexivity.
  - lia.
Defined.
