(* ===== verification/HttpAuth.v ===== *)
(** * Bearer authentication

    Cached credentials with a single refresh in flight
    (src/api/http/auth.rs).  [Bearer] is the state behind the lock of a
    [BearerAuth] with the gates its callers wait at; a gate is an address.
    Every definition is one lock scope.  The token source is code of the
    application that runs in a task of its own, so its answer arrives at any
    time; a caller may be dropped while it waits. *)

From S2P Require Import Prelude F64 Backoff RetrySchedule RetryState Errors HttpTimeouts HttpRetry HttpConfig RetryAfter HttpHops.

(** ** Credentials *)

Definition auth_input (field reason : string) : NetError := with_stage (NetError_input field reason) ErrorStage.Provider.

Definition bearer_failure : NetError := with_stage (NetError_new ErrorKind.ProviderFailed) ErrorStage.Provider.

(** [sanitize_provider_error] *)
Definition sanitize_provider_error (e : NetError) : NetError := with_stage (NetError_new (kind e)) ErrorStage.Provider.

Definition is_ascii (t : Text) : bool := forallb (fun c => c <? 128) t.

Record AccessToken := mkAccessToken { tok_value : Text; tok_expires : option Z }.

(** [AccessToken::new] *)
Definition AccessToken_new (value : Text) (expires_at : option Z) : Result AccessToken NetError :=
  if bool_decide (value = []) || (16 * 1024 <? text_len value) || negb (is_ascii value) || existsb is_control value ||
     existsb is_whitespace value
  then Err (auth_input "auth.token" "token is empty or invalid")
  else Ok (mkAccessToken value expires_at).

Definition token_expired (t : AccessToken) (now : Z) : bool := is_some_and (tok_expires t) (fun at_ => at_ <=? now).

Record BasicAuth := mkBasicAuth { ba_username : Text; ba_password : Text }.

(** [BasicAuth::new] *)
Definition BasicAuth_new (username password : Text) : Result BasicAuth NetError :=
  if bool_decide (username = []) || (4096 <? text_len username) || (4096 <? text_len password) || contains username COLON ||
     negb (is_ascii username) || negb (is_ascii password) || existsb is_control username || existsb is_control password
  then Err (auth_input "auth.basic" "credentials are invalid")
  else Ok (mkBasicAuth username password).

(** ** The provider *)

Abbreviation GateId := nat (only parsing).

(** The result of a [RefreshGate], nothing before it is completed. *)
Abbreviation GateResult := (option (Result () ErrorKind)) (only parsing).

Record Bearer := mkBearer {
  b_allow_refresh : bool;
  b_token : option AccessToken;
  b_generation : Z;
  b_in_flight : option GateId;
  b_failure : option Z;
  b_gates : gmap GateId GateResult;
  b_fresh : GateId;
}.

#[export] Instance Bearer_settable : Settable Bearer :=
  fields! mkBearer [ b_allow_refresh; b_token; b_generation; b_in_flight; b_failure; b_gates; b_fresh ].

Definition Bearer_new (allow_refresh : bool) : Bearer := mkBearer allow_refresh None 0 None None ∅ 0.

(** A call returns, or waits at a gate; the first to wait at one fetches a token. *)
Inductive Entered (A : Type) :=
| Returned (answer : A)
| Waits (gate : GateId) (fetches : bool).
Arguments Returned {A} answer.
Arguments Waits {A} gate fetches.

(** The gate in flight, or a new one. *)
Definition enter_gate {A} (b : Bearer) : Bearer * Entered A :=
  match b_in_flight b with
  | Some gate => (b, Waits gate false)
  | None =>
      let gate := b_fresh b in
      (b <| b_gates ::= <[gate := None]>; b_fresh := S gate; b_in_flight := Some gate |>, Waits gate true)
  end.

(** [current_token], up to its wait and after it. *)
Definition current_token_begin (b : Bearer) (now : Z) : Bearer * Entered (Result (AccessToken * Z) NetError) :=
  match b_token b with
  | Some token => if negb (token_expired token now) then (b, Returned (Ok (token, b_generation b))) else enter_gate b
  | None => enter_gate b
  end.

(** [wait_for_gate], once the gate is completed. *)
Definition gate_error (k : ErrorKind) : NetError := with_stage (NetError_new k) ErrorStage.Provider.

Definition current_token_end (b : Bearer) (result : Result () ErrorKind) : Result (AccessToken * Z) NetError :=
  match result with
  | Err k => Err (gate_error k)
  | Ok _ => match b_token b with Some token => Ok (token, b_generation b) | None => Err bearer_failure end
  end.

(** [refresh_if_needed], up to its wait and after it; [None] is another turn of its loop. *)
Definition is_newer (b : Bearer) (generation : Z) : bool := (generation <? b_generation b) && is_some (b_token b).

Definition refresh_begin (b : Bearer) (generation : Z) : Bearer * Entered (Result AuthAction NetError) :=
  if negb (b_allow_refresh b) then (b, Returned (Ok AuthAction.DoNotRetry))
  else if is_newer b generation then (b, Returned (Ok AuthAction.RetryWithFreshCredentials))
  else if bool_decide (b_failure b = Some generation) then (b, Returned (Err bearer_failure))
  else enter_gate b.

Definition refresh_end (b : Bearer) (generation : Z) (result : Result () ErrorKind) : option (Result AuthAction NetError) :=
  match result with
  | Err k => Some (Err (gate_error k))
  | Ok _ => if is_newer b generation then Some (Ok AuthAction.RetryWithFreshCredentials) else None
  end.

(** [complete_token_fetch] under the lock of the state; [refresh] is the generation a refresh was asked for. *)
Definition complete_state (b : Bearer) (gate : GateId) (loaded : Result AccessToken NetError) (now : Z) (refresh : option Z) :
    Bearer * Result () ErrorKind :=
  let outcome := match loaded with
                 | Ok token => if token_expired token now then Err bearer_failure else Ok token
                 | Err e => Err e
                 end in
  let '(b, outcome) :=
    match outcome with
    | Ok token =>
        match checked_add u64_max (b_generation b) 1 with
        | Some generation => (b <| b_token := Some token; b_generation := generation; b_failure := None |>, Ok tt)
        | None => (b, Err bearer_failure)
        end
    | Err e => (b, Err e)
    end in
  let result := match outcome with Ok _ => Ok tt | Err e => Err (kind e) end in
  let b := match refresh, result with Some generation, Err _ => b <| b_failure := Some generation |> | _, _ => b end in
  let b := if bool_decide (b_in_flight b = Some gate) then b <| b_in_flight := None |> else b in
  (b, result).

(** The gate, after it. *)
Definition complete_gate (b : Bearer) (gate : GateId) (result : Result () ErrorKind) : Bearer :=
  b <| b_gates ::= <[gate := Some result]> |>.

(** [guarded_source_load] and [guarded_source_refresh]: what the source answered, nothing when it unwound or took too long. *)
Inductive SourceAnswer := Answered (result : Result AccessToken NetError) | Panicked | TookTooLong.

Definition guarded_source (a : SourceAnswer) : Result AccessToken NetError :=
  match a with
  | TookTooLong => Err (with_stage (NetError_new ErrorKind.TimedOut) ErrorStage.Provider)
  | Panicked => Err bearer_failure
  | Answered result => map_err sanitize_provider_error result
  end.

(** [BearerAuth::on_unauthorized] of a response with this status *)
Definition bearer_on_unauthorized (b : Bearer) (status : Z) (generation : Z) : Bearer * Entered (Result AuthAction NetError) :=
  if negb (status =? 401) then (b, Returned (Ok AuthAction.DoNotRetry)) else refresh_begin b generation.

(** ** Callers and fetches *)

Inductive AuthCall := TokenCall (gate : GateId) | RefreshCall (generation : Z) (gate : GateId).

Definition call_gate (c : AuthCall) : GateId := match c with TokenCall gate | RefreshCall _ gate => gate end.

Inductive AuthReply := TokenReply (r : Result (AccessToken * Z) NetError) | RefreshReply (generation : Z) (r : Result AuthAction NetError).

(** A provider with its callers that wait, its fetches that run or are about to complete their
    gate, the tokens that were installed and the replies that were given. *)
Record AuthWorld := mkAuthWorld {
  bearer : Bearer;
  calls : gmap nat AuthCall;
  fetches : gmap GateId (option Z);
  completing : gmap GateId (Result () ErrorKind);
  installed : list AccessToken;
  replies : list AuthReply;
}.

#[export] Instance AuthWorld_settable : Settable AuthWorld :=
  fields! mkAuthWorld [ bearer; calls; fetches; completing; installed; replies ].

Definition auth_world (allow_refresh : bool) : AuthWorld := mkAuthWorld (Bearer_new allow_refresh) ∅ ∅ ∅ [] [].

(** The end of a fetch under the lock of the state. *)
Definition finish_fetch (w : AuthWorld) (gate : GateId) (loaded : Result AccessToken NetError) (now : Z) (refresh : option Z) : AuthWorld :=
  let '(b, result) := complete_state (bearer w) gate loaded now refresh in
  let tokens := match loaded, result with Ok token, Ok _ => [token] | _, _ => [] end in
  w <| bearer := b; fetches ::= delete gate; completing ::= <[gate := result]>; installed ::= (fun l => l ++ tokens) |>.

(** A caller after its first lock scope; [spawned] tells whether the task of its fetch could be started. *)
Definition enter_call {A} (w : AuthWorld) (id : nat) (entered : Bearer * Entered A) (reply : A -> AuthReply) (call : GateId -> AuthCall)
    (now : Z) (spawned : bool) (refresh : option Z) : AuthWorld :=
  let w := w <| bearer := entered.1 |> in
  match entered.2 with
  | Returned answer => w <| replies ::= (fun l => l ++ [reply answer]) |>
  | Waits gate new =>
      let w := w <| calls ::= <[id := call gate]> |> in
      if negb new then w
      else if spawned then w <| fetches ::= <[gate := refresh]> |>
      else finish_fetch w gate (Err bearer_failure) now refresh
  end.

Inductive AuthOp :=
| CurrentToken (id : nat) (now : Z) (spawned : bool)
| RefreshIfNeeded (id : nat) (generation : Z) (now : Z) (spawned : bool)
| FetchDone (gate : GateId) (answer : SourceAnswer) (now : Z)
| CompleteGate (gate : GateId)
| WakeCall (id : nat) (now : Z) (spawned : bool)
| DropCall (id : nat).

Definition enter_refresh (w : AuthWorld) (id : nat) (generation : Z) (now : Z) (spawned : bool) : AuthWorld :=
  enter_call w id (refresh_begin (bearer w) generation) (RefreshReply generation) (RefreshCall generation) now spawned (Some generation).

(** A caller that refreshes names a generation it was given. *)
Definition auth_step (w : AuthWorld) (op : AuthOp) : AuthWorld :=
  match op with
  | CurrentToken id now spawned =>
      if is_some (calls w !! id) then w
      else enter_call w id (current_token_begin (bearer w) now) TokenReply TokenCall now spawned None
  | RefreshIfNeeded id generation now spawned =>
      if is_some (calls w !! id) || negb (generation <=? b_generation (bearer w)) then w else enter_refresh w id generation now spawned
  | FetchDone gate answer now =>
      match fetches w !! gate with Some refresh => finish_fetch w gate (guarded_source answer) now refresh | None => w end
  | CompleteGate gate =>
      match completing w !! gate with
      | Some result => w <| bearer := complete_gate (bearer w) gate result; completing ::= delete gate |>
      | None => w
      end
  | WakeCall id now spawned =>
      match calls w !! id with
      | None => w
      | Some call =>
          match b_gates (bearer w) !! call_gate call with
          | Some (Some result) =>
              let done r := w <| calls ::= delete id; replies ::= (fun l => l ++ [r]) |> in
              match call with
              | TokenCall _ => done (TokenReply (current_token_end (bearer w) result))
              | RefreshCall generation _ =>
                  match refresh_end (bearer w) generation result with
                  | Some r => done (RefreshReply generation r)
                  | None => enter_refresh (w <| calls ::= delete id |>) id generation now spawned
                  end
              end
          | _ => w
          end
      end
  | DropCall id => w <| calls ::= delete id |>
  end.

Definition auth_run (w : AuthWorld) (ops : list AuthOp) : AuthWorld := foldl auth_step w ops.

(** ** Invariants *)

Definition result_of (w : AuthWorld) (gate : GateId) : GateResult :=
  match completing w !! gate with Some r => Some r | None => default None (b_gates (bearer w) !! gate) end.

(** A token that was given out is the one its generation counts, and a caller is told to try
    again only with a newer one. *)
Definition reply_ok (tokens : list AccessToken) (r : AuthReply) : Prop :=
  match r with
  | TokenReply (Ok (token, generation)) => 0 < generation /\ tokens !! (Z.to_nat generation - 1)%nat = Some token
  | RefreshReply generation (Ok AuthAction.RetryWithFreshCredentials) => generation < Z.of_nat (length tokens)
  | _ => True
  end.

Record auth_inv (w : AuthWorld) : Prop := {
  auth_fresh : forall g, is_Some (b_gates (bearer w) !! g) -> (g < b_fresh (bearer w))%nat;
  auth_flight : forall g, b_in_flight (bearer w) = Some g <-> is_Some (fetches w !! g);
  auth_fetch : forall g, is_Some (fetches w !! g) -> b_gates (bearer w) !! g = Some None /\ completing w !! g = None;
  auth_completing : forall g, is_Some (completing w !! g) -> b_gates (bearer w) !! g = Some None;
  auth_open : forall g, b_gates (bearer w) !! g = Some None -> is_Some (fetches w !! g) \/ is_Some (completing w !! g);
  auth_waits : forall id c, calls w !! id = Some c -> is_Some (b_gates (bearer w) !! call_gate c);
  auth_count : b_generation (bearer w) = Z.of_nat (length (installed w));
  auth_token : b_token (bearer w) = last (installed w);
  auth_refresh : forall id n g, calls w !! id = Some (RefreshCall n g) -> n <= b_generation (bearer w) /\
    (result_of w g = Some (Ok tt) -> n < b_generation (bearer w));
  auth_loaded : forall g, result_of w g = Some (Ok tt) -> 0 < b_generation (bearer w);
  auth_replies : Forall (reply_ok (installed w)) (replies w);
}.

Lemma auth_world_inv allow : auth_inv (auth_world allow).
Proof.
  split; simpl; try done.
  - intros g [x Hx]. by rewrite lookup_empty in Hx.
  - intros g. rewrite lookup_empty. split; [done|by intros [? ?]].
  - intros g [x Hx]. by rewrite lookup_empty in Hx.
  - intros g [x Hx]. by rewrite lookup_empty in Hx.
Qed.

Lemma reply_ok_app tokens more r : reply_ok tokens r -> reply_ok (tokens ++ more) r.
Proof.
  destruct r as [[[token n]|e]|n [[]|e]]; simpl; try done; [intros [Hn Ht]; split; [done|by apply lookup_app_l_Some]|].
  rewrite length_app. lia.
Qed.

(** The current token, as a reply. *)
Lemma current_reply_ok w token : auth_inv w -> b_token (bearer w) = Some token -> reply_ok (installed w) (TokenReply (Ok (token, b_generation (bearer w)))).
Proof.
  intros Hinv Ht. rewrite (auth_token w Hinv), last_lookup in Ht. rewrite (auth_count w Hinv). simpl.
  assert (length (installed w) <> 0%nat) by (intros Hz; rewrite Hz in Ht; destruct (installed w); done).
  split; [lia|]. rewrite Nat2Z.id. by replace (length (installed w) - 1)%nat with (pred (length (installed w))) by lia.
Qed.

Lemma replies_inv w r : auth_inv w -> reply_ok (installed w) r -> auth_inv (w <| replies ::= (fun l => l ++ [r]) |>).
Proof. intros [] Hr. split; simpl; try done. apply Forall_app. auto using Forall_cons. Qed.

Lemma drop_call_inv w id : auth_inv w -> auth_inv (w <| calls ::= delete id |>).
Proof.
  intros []. split; simpl; try done.
  - intros id' c Hc. apply lookup_delete_Some in Hc as [_ Hc]. eauto.
  - intros id' n g Hc. apply lookup_delete_Some in Hc as [_ Hc]. eauto.
Qed.

Lemma add_call_inv w id c :
  auth_inv w -> is_Some (fetches w !! call_gate c) -> (forall n g, c = RefreshCall n g -> n <= b_generation (bearer w)) ->
  auth_inv (w <| calls ::= <[id := c]> |>).
Proof.
  intros Hinv Hf Hn. destruct (auth_fetch w Hinv _ Hf) as [Hg Hc]. destruct Hinv. split; simpl; try done.
  - intros id' c' H. apply lookup_insert_Some in H as [[_ <-]|[_ H]]; [by rewrite Hg|eauto].
  - intros id' n g H. apply lookup_insert_Some in H as [[_ ->]|[_ H]]; [|eauto]. simpl in Hg, Hc. split; [by apply (Hn n g)|].
    unfold result_of. simpl. by rewrite Hc, Hg.
Qed.

Lemma new_gate_inv w refresh :
  auth_inv w -> b_in_flight (bearer w) = None ->
  auth_inv (w <| bearer := ((bearer w) <| b_gates ::= <[b_fresh (bearer w) := None]>; b_fresh := S (b_fresh (bearer w));
                                         b_in_flight := Some (b_fresh (bearer w)) |>);
               fetches ::= <[b_fresh (bearer w) := refresh]> |>).
Proof.
  intros Hinv Hnone. set (g0 := b_fresh (bearer w)).
  assert (Hg0 : b_gates (bearer w) !! g0 = None).
  { destruct (b_gates (bearer w) !! g0) eqn:E; [|done]. assert (g0 < b_fresh (bearer w))%nat by (apply (auth_fresh w Hinv); by rewrite E). unfold g0 in *. lia. }
  assert (Hc0 : completing w !! g0 = None).
  { destruct (completing w !! g0) eqn:E; [|done]. assert (H : b_gates (bearer w) !! g0 = Some None) by (apply (auth_completing w Hinv); by rewrite E). congruence. }
  assert (Hno : forall g, fetches w !! g = None).
  { intros g. destruct (fetches w !! g) eqn:E; [|done]. assert (H : b_in_flight (bearer w) = Some g) by (apply (auth_flight w Hinv); by rewrite E). congruence. }
  assert (Hres : forall w' g, completing w' = completing w -> b_gates (bearer w') = <[g0 := None]> (b_gates (bearer w)) -> result_of w' g = result_of w g).
  { intros w' g H1 H2. unfold result_of. rewrite H1, H2. destruct (completing w !! g); [done|]. destruct (decide (g = g0)) as [->|Hn];
      [by rewrite lookup_insert_eq, Hg0|by rewrite lookup_insert_ne]. }
  pose proof (auth_loaded w Hinv) as Hload. pose proof (auth_refresh w Hinv) as Hrefresh. destruct Hinv. split; simpl; try done.
  - intros g Hg. destruct (decide (g = g0)) as [->|Hn]; [lia|]. rewrite lookup_insert_ne in Hg by done. specialize (auth_fresh0 g Hg). fold g0 in auth_fresh0. lia.
  - intros g. rewrite lookup_insert_is_Some. rewrite Hno. split; [intros [= <-]; by left|]. intros [->|[_ [x Hx]]]; [done|done].
  - intros g. rewrite lookup_insert_is_Some, Hno. intros [<-|[_ [x Hx]]]; [|done]. by rewrite lookup_insert_eq.
  - intros g Hg. destruct (decide (g = g0)) as [->|Hn]; [by rewrite Hc0 in Hg; destruct Hg|]. rewrite lookup_insert_ne by done. auto.
  - intros g Hg. destruct (decide (g = g0)) as [->|Hn]; [left; by rewrite lookup_insert_eq|]. rewrite lookup_insert_ne in Hg by done.
    destruct (auth_open0 g Hg) as [H|H]; [|by right]. rewrite Hno in H. by destruct H.
  - intros id c Hc. destruct (decide (call_gate c = g0)) as [->|Hn]; [by rewrite lookup_insert_eq|]. rewrite lookup_insert_ne by done. eauto.
  - intros id n g Hc. rewrite Hres by done. eauto.
  - intros g. rewrite Hres by done. eauto.
Qed.

(** What a completed fetch leaves of the state. *)
Lemma complete_state_spec b gate loaded now refresh :
  b_in_flight b = Some gate ->
  let '(b', r) := complete_state b gate loaded now refresh in
  b_in_flight b' = None /\ b_gates b' = b_gates b /\ b_fresh b' = b_fresh b /\
  ((exists token, r = Ok tt /\ loaded = Ok token /\ b_token b' = Some token /\ b_generation b' = b_generation b + 1) \/
   (exists k, r = Err k /\ b_token b' = b_token b /\ b_generation b' = b_generation b)).
Proof.
  intros Hf. unfold complete_state.
  destruct (match loaded with Ok _ => _ | Err _ => _ end) as [token|e] eqn:Ho.
  - assert (Hl : loaded = Ok token) by (destruct loaded as [t|e]; [destruct (token_expired t now); by simplify_eq|done]).
    destruct (checked_add u64_max (b_generation b) 1) as [n|] eqn:Hn.
    + apply checked_add_Some in Hn as [-> _]. destruct refresh as [x|]; simpl; rewrite Hf, bool_decide_eq_true_2 by done; simpl.
      all: split_and!; [done|done|done|left; by exists token].
    + destruct refresh as [x|]; simpl; rewrite Hf, bool_decide_eq_true_2 by done; simpl. all: split_and!; [done|done|done|right; by eexists].
  - destruct refresh as [x|]; simpl; rewrite Hf, bool_decide_eq_true_2 by done; simpl. all: split_and!; [done|done|done|right; by eexists].
Qed.

Lemma finish_fetch_inv w gate loaded now refresh :
  auth_inv w -> is_Some (fetches w !! gate) -> auth_inv (finish_fetch w gate loaded now refresh).
Proof.
  intros Hinv Hf. destruct (auth_fetch w Hinv gate Hf) as [Hg Hc]. pose proof (proj2 (auth_flight w Hinv gate) Hf) as Hfl.
  pose proof (complete_state_spec (bearer w) gate loaded now refresh Hfl) as Hspec. unfold finish_fetch.
  destruct (complete_state (bearer w) gate loaded now refresh) as [b' r]. destruct Hspec as (H1 & H2 & H3 & H4).
  set (tokens := match loaded, r with Ok token, Ok _ => [token] | _, _ => [] end).
  assert (Hgen : b_generation b' = b_generation (bearer w) + Z.of_nat (length tokens) /\ b_token b' = last (installed w ++ tokens) /\
                 (r = Ok tt -> length tokens = 1%nat)).
  { subst tokens. destruct H4 as [(token & -> & -> & -> & ->)|(k & -> & -> & ->)]; simpl.
    - split_and!; [done|by rewrite last_snoc|done].
    - destruct loaded; simpl; rewrite app_nil_r, (auth_token w Hinv); split_and!; [lia|done|done|lia|done|done]. }
  clearbody tokens. destruct Hgen as (Hgen & Htok & Hone).
  assert (Hres : forall w' g, completing w' = <[gate := r]> (completing w) -> b_gates (bearer w') = b_gates (bearer w) ->
    result_of w' g = if decide (g = gate) then Some r else result_of w g).
  { intros w' g E1 E2. unfold result_of. rewrite E1, E2. destruct (decide (g = gate)) as [->|Hn]; [by rewrite lookup_insert_eq|by rewrite lookup_insert_ne]. }
  pose proof (auth_loaded w Hinv) as Hload. pose proof (auth_refresh w Hinv) as Hrefresh. destruct Hinv. split; simpl; rewrite ?H1, ?H2, ?H3.
  - done.
  - intros g. split; [done|]. intros Hx. destruct (decide (g = gate)) as [->|Hn]; [by rewrite lookup_delete_eq in Hx; destruct Hx|].
    rewrite lookup_delete_ne in Hx by done. apply auth_flight0 in Hx. congruence.
  - intros g Hx. destruct (decide (g = gate)) as [->|Hn]; [by rewrite lookup_delete_eq in Hx; destruct Hx|].
    rewrite lookup_delete_ne in Hx by done. apply auth_flight0 in Hx. congruence.
  - intros g Hx. destruct (decide (g = gate)) as [->|Hn]; [done|]. rewrite lookup_insert_ne in Hx by done. auto.
  - intros g Hx. destruct (decide (g = gate)) as [->|Hn]; [right; by rewrite lookup_insert_eq|].
    rewrite lookup_delete_ne, lookup_insert_ne by done. auto.
  - done.
  - rewrite length_app. lia.
  - done.
  - intros id n g Hid. destruct (Hrefresh id n g Hid) as [Hn Hok]. split; [lia|]. rewrite Hres by done. destruct (decide (g = gate)) as [->|_].
    + intros [= Hr]. specialize (Hone Hr). lia.
    + intros Hr. specialize (Hok Hr). lia.
  - intros g. rewrite Hres by done. destruct (decide (g = gate)) as [->|_]; [intros [= Hr]; specialize (Hone Hr); lia|].
    intros Hr. specialize (Hload g Hr). lia.
  - eapply Forall_impl; [exact auth_replies0|]. intros x. apply reply_ok_app.
Qed.

Lemma complete_gate_inv w gate result :
  auth_inv w -> completing w !! gate = Some result ->
  auth_inv (w <| bearer := complete_gate (bearer w) gate result; completing ::= delete gate |>).
Proof.
  intros Hinv Hc. pose proof (auth_completing w Hinv gate) as Hg. rewrite Hc in Hg. specialize (Hg (ex_intro _ _ eq_refl)).
  assert (Hres : forall w' g, completing w' = delete gate (completing w) ->
    b_gates (bearer w') = <[gate := Some result]> (b_gates (bearer w)) -> result_of w' g = result_of w g).
  { intros w' g E1 E2. unfold result_of. rewrite E1, E2. destruct (decide (g = gate)) as [->|Hn].
    - by rewrite lookup_delete_eq, Hc, lookup_insert_eq.
    - by rewrite lookup_delete_ne, lookup_insert_ne. }
  assert (Hne : forall g, is_Some (fetches w !! g) -> g <> gate).
  { intros g Hx ->. destruct (auth_fetch w Hinv gate Hx) as [_ E]. congruence. }
  pose proof (auth_loaded w Hinv) as Hload. pose proof (auth_refresh w Hinv) as Hrefresh. destruct Hinv. split; simpl; try done.
  - intros g Hx. destruct (decide (g = gate)) as [->|Hn]; [apply auth_fresh0; by rewrite Hg|]. rewrite lookup_insert_ne in Hx by done. auto.
  - intros g Hx. rewrite lookup_insert_ne, lookup_delete_ne by (by apply not_eq_sym, Hne). auto.
  - intros g Hx. destruct (decide (g = gate)) as [->|Hn]; [by rewrite lookup_delete_eq in Hx; destruct Hx|].
    rewrite lookup_delete_ne in Hx by done. rewrite lookup_insert_ne by done. auto.
  - intros g Hx. destruct (decide (g = gate)) as [->|Hn]; [by rewrite lookup_insert_eq in Hx|].
    rewrite lookup_insert_ne in Hx by done. rewrite lookup_delete_ne by done. auto.
  - intros id c Hid. destruct (decide (call_gate c = gate)) as [->|Hn]; [by rewrite lookup_insert_eq|]. rewrite lookup_insert_ne by done. eauto.
  - intros id n g Hid. rewrite Hres by done. eauto.
  - intros g. rewrite Hres by done. eauto.
Qed.

(** A fetch that could not be started ends like one that was. *)
Lemma finish_fetch_known w gate known loaded now refresh :
  fetches w !! gate = None -> finish_fetch (w <| fetches ::= <[gate := known]> |>) gate loaded now refresh = finish_fetch w gate loaded now refresh.
Proof.
  intros Hno. unfold finish_fetch. change (bearer (w <| fetches ::= <[gate := known]> |>)) with (bearer w).
  destruct (complete_state (bearer w) gate loaded now refresh) as [b r]. cbn. by rewrite delete_insert_eq.
Qed.

(** A caller enters: it returns a sound reply, or waits at the gate in flight. *)
Lemma enter_call_inv {A} w id (entered : Bearer * Entered A) reply call now spawned refresh :
  auth_inv w ->
  (exists a, entered = (bearer w, Returned a) /\ reply_ok (installed w) (reply a)) \/ entered = enter_gate (bearer w) ->
  (forall g, call_gate (call g) = g) -> (forall g n g', call g = RefreshCall n g' -> n <= b_generation (bearer w)) ->
  auth_inv (enter_call w id entered reply call now spawned refresh).
Proof.
  intros Hinv He Hgate Hgen. unfold enter_call. destruct He as [(a & -> & Hr)| ->]; cbn [fst snd].
  { replace (w <| bearer := bearer w |>) with w by (by destruct w). by apply replies_inv. }
  unfold enter_gate. destruct (b_in_flight (bearer w)) as [g|] eqn:Hfl; cbn [fst snd negb].
  - replace (w <| bearer := bearer w |>) with w by (by destruct w). apply add_call_inv; [done| |by intros n g'; apply Hgen].
    rewrite Hgate. by apply (auth_flight w Hinv).
  - set (g0 := b_fresh (bearer w)).
    pose proof (new_gate_inv w refresh Hinv Hfl) as Hnew. fold g0 in Hnew.
    assert (Hadd : auth_inv ((w <| bearer := ((bearer w) <| b_gates ::= <[g0 := None]>; b_fresh := S g0; b_in_flight := Some g0 |>);
                                   fetches ::= <[g0 := refresh]> |>) <| calls ::= <[id := call g0]> |>)).
    { apply add_call_inv; [done|rewrite Hgate; simpl; by rewrite lookup_insert_eq|]. intros n g'. apply Hgen. }
    destruct spawned; [exact Hadd|].
    assert (Hno : fetches w !! g0 = None).
    { destruct (fetches w !! g0) eqn:E; [|done]. assert (H : b_in_flight (bearer w) = Some g0) by (apply (auth_flight w Hinv); by rewrite E). congruence. }
    set (w1 := (w <| bearer := _ |>) <| calls ::= _ |>). rewrite <- (finish_fetch_known w1 g0 refresh) by exact Hno.
    apply finish_fetch_inv; [exact Hadd|]. simpl. by rewrite lookup_insert_eq.
Qed.

Lemma current_begin_entered w now :
  auth_inv w -> (exists a, current_token_begin (bearer w) now = (bearer w, Returned a) /\ reply_ok (installed w) (TokenReply a)) \/
  current_token_begin (bearer w) now = enter_gate (bearer w).
Proof.
  intros Hinv. unfold current_token_begin. destruct (b_token (bearer w)) as [token|] eqn:Ht; [|by right].
  destruct (negb (token_expired token now)); [left|by right]. eexists. split; [done|]. by apply current_reply_ok.
Qed.

Lemma newer_reply w n : auth_inv w -> is_newer (bearer w) n = true -> reply_ok (installed w) (RefreshReply n (Ok AuthAction.RetryWithFreshCredentials)).
Proof. intros Hinv Hn. apply andb_true_iff in Hn as [Hn _]. apply Z.ltb_lt in Hn. simpl. rewrite (auth_count w Hinv) in Hn. done. Qed.

Lemma enter_refresh_inv w id n now spawned :
  auth_inv w -> n <= b_generation (bearer w) -> auth_inv (enter_refresh w id n now spawned).
Proof.
  intros Hinv Hn. apply enter_call_inv; [done| |done|by intros g n' g' [= <- _]]. unfold refresh_begin.
  destruct (negb (b_allow_refresh (bearer w))); [left; by eexists|].
  destruct (is_newer (bearer w) n) eqn:Hnew; [left; eexists; split; [done|by apply newer_reply]|]. case_bool_decide; [left; by eexists|by right].
Qed.

Lemma current_end_ok w result : auth_inv w -> reply_ok (installed w) (TokenReply (current_token_end (bearer w) result)).
Proof.
  intros Hinv. unfold current_token_end. destruct result; [|done]. destruct (b_token (bearer w)) eqn:Ht; [by apply current_reply_ok|done].
Qed.

Lemma refresh_end_ok w n result r :
  auth_inv w -> refresh_end (bearer w) n result = Some r -> reply_ok (installed w) (RefreshReply n r).
Proof.
  intros Hinv. unfold refresh_end. destruct result; [|by intros [= <-]]. destruct (is_newer (bearer w) n) eqn:Hn; [|done].
  intros [= <-]. by apply newer_reply.
Qed.

Lemma auth_step_inv w op : auth_inv w -> auth_inv (auth_step w op).
Proof.
  intros Hinv. destruct op as [id now spawned|id n now spawned|gate answer now|gate|id now spawned|id]; cbn [auth_step].
  - destruct (is_some (calls w !! id)); [done|]. apply enter_call_inv; [done|by apply current_begin_entered|done|done].
  - destruct (is_some (calls w !! id)); [done|]. cbn [orb]. destruct (n <=? _) eqn:Hn; [|done]. apply Z.leb_le in Hn. by apply enter_refresh_inv.
  - destruct (fetches w !! gate) eqn:Hf; [|done]. apply finish_fetch_inv; [done|by rewrite Hf].
  - destruct (completing w !! gate) as [result|] eqn:Hc; [|done]. by apply complete_gate_inv.
  - destruct (calls w !! id) as [call|] eqn:Hid; [|done]. destruct (b_gates (bearer w) !! call_gate call) as [[result|]|]; [|done|done].
    pose proof (drop_call_inv w id Hinv) as Hdrop. destruct call as [g|n g].
    + apply (replies_inv _ _ Hdrop). exact (current_end_ok w result Hinv).
    + destruct (refresh_end (bearer w) n result) as [r|] eqn:Hr; [apply (replies_inv _ _ Hdrop); exact (refresh_end_ok w n result r Hinv Hr)|].
      apply enter_refresh_inv; [done|]. by apply (auth_refresh w Hinv id n g).
  - by apply drop_call_inv.
Qed.

Lemma auth_run_inv ops w : auth_inv w -> auth_inv (auth_run w ops).
Proof. revert w. induction ops as [|op ops IH]; intros w Hinv; [done|]. by apply IH, auth_step_inv. Qed.

(** At most one call of the token source is ever running, however many requests need a token or
    a fresh one at once, and every caller that waits, waits for the outcome of a call that runs or
    has ended. *)
Theorem token_fetch_single allow ops :
  let w := auth_run (auth_world allow) ops in
  (forall g1 g2, is_Some (fetches w !! g1) -> is_Some (fetches w !! g2) -> g1 = g2) /\
  (forall id c, calls w !! id = Some c -> is_Some (fetches w !! call_gate c) \/ is_Some (result_of w (call_gate c))).
Proof.
  intros w. pose proof (auth_run_inv ops _ (auth_world_inv allow)) as Hinv. fold w in Hinv. split.
  - intros g1 g2 H1 H2. apply (auth_flight w Hinv) in H1, H2. congruence.
  - intros id c Hc. destruct (auth_waits w Hinv id c Hc) as [r Hr]. destruct r as [r|].
    + right. unfold result_of. rewrite Hr. by destruct (completing w !! call_gate c).
    + destruct (auth_open w Hinv _ Hr) as [H|[x Hx]]; [by left|right]. unfold result_of. by rewrite Hx.
Qed.

(** Every token that is given out is the one its generation stands for: the tokens the source
    supplied, and that had not expired when they arrived, are counted from one, and a caller gets
    the token with its count; a caller whose token was refused is told to try again only when a
    later token than its own is there. *)
Theorem token_generations_exact allow ops :
  let w := auth_run (auth_world allow) ops in
  b_token (bearer w) = last (installed w) /\ b_generation (bearer w) = Z.of_nat (length (installed w)) /\
  Forall (reply_ok (installed w)) (replies w).
Proof.
  intros w. pose proof (auth_run_inv ops _ (auth_world_inv allow)) as Hinv. fold w in Hinv.
  split_and!; [apply (auth_token w Hinv)|apply (auth_count w Hinv)|apply (auth_replies w Hinv)].
Qed.

(** A fetch that ends leaves its outcome to its callers. *)
Lemma finish_fetch_result w gate loaded now refresh :
  exists r, completing (finish_fetch w gate loaded now refresh) !! gate = Some r /\ calls (finish_fetch w gate loaded now refresh) = calls w.
Proof.
  unfold finish_fetch. destruct (complete_state _ _ _ _ _) as [b r]. exists r. simpl. by rewrite lookup_insert_eq.
Qed.

Lemma fetch_done_result w gate answer now :
  auth_inv w -> is_Some (b_gates (bearer w) !! gate) ->
  let w' := auth_step (auth_step w (FetchDone gate answer now)) (CompleteGate gate) in
  calls w' = calls w /\ exists r, b_gates (bearer w') !! gate = Some (Some r).
Proof.
  intros Hinv [g Hg]. cbn [auth_step].
  assert (Hdone : forall w1 r, completing w1 !! gate = Some r ->
    let w' := auth_step w1 (CompleteGate gate) in calls w' = calls w1 /\ exists r, b_gates (bearer w') !! gate = Some (Some r)).
  { intros w1 r Hr. cbn [auth_step]. rewrite Hr. simpl. split; [done|]. exists r. by rewrite lookup_insert_eq. }
  destruct (fetches w !! gate) as [refresh|] eqn:Hf.
  - destruct (finish_fetch_result w gate (guarded_source answer) now refresh) as (r & Hr & Hcalls). rewrite <- Hcalls. by apply (Hdone _ r).
  - destruct (completing w !! gate) as [r|] eqn:Hc; [pose proof (Hdone w r Hc) as H; cbn [auth_step] in H; by rewrite Hc in H|].
    split; [done|]. destruct g as [r|]; [by exists r|]. destruct (auth_open w Hinv gate Hg) as [[x Hx]|[x Hx]]; congruence.
Qed.

(** C33. No caller waits for ever: when the source answers, in whatever way, the caller that waits
    for it is answered as soon as it wakes, and a refresh does not go round its loop again. *)
Theorem auth_caller_answered allow ops id call answer now spawned :
  let w := auth_run (auth_world allow) ops in
  calls w !! id = Some call ->
  let w' := auth_run w [FetchDone (call_gate call) answer now; CompleteGate (call_gate call); WakeCall id now spawned] in
  calls w' !! id = None /\ exists r, replies w' = replies (auth_run w [FetchDone (call_gate call) answer now]) ++ [r].
Proof.
  intros w Hc. pose proof (auth_run_inv ops _ (auth_world_inv allow)) as Hinv. fold w in Hinv. unfold auth_run. cbn [foldl].
  destruct (fetch_done_result w (call_gate call) answer now Hinv (auth_waits w Hinv id call Hc)) as (Hcalls & r & Hr).
  set (w1 := auth_step w (FetchDone (call_gate call) answer now)) in *.
  assert (Hrep : replies (auth_step w1 (CompleteGate (call_gate call))) = replies w1)
    by (cbn [auth_step]; by destruct (completing w1 !! call_gate call)).
  assert (Hinv2 : auth_inv (auth_step w1 (CompleteGate (call_gate call)))) by (by apply auth_step_inv, auth_step_inv).
  set (w2 := auth_step w1 (CompleteGate (call_gate call))) in *. clearbody w2. cbn [auth_step]. rewrite Hcalls, Hc, Hr.
  rewrite <- Hrep. destruct call as [g|n g]; [simpl; rewrite lookup_delete_eq; by eauto|].
  assert (Hend : exists x, refresh_end (bearer w2) n r = Some x).
  { unfold refresh_end. destruct r as [[]|k]; [|by eexists]. rewrite <- Hcalls in Hc. destruct (auth_refresh w2 Hinv2 id n g Hc) as [_ Hnew].
    assert (Hok : result_of w2 g = Some (Ok tt)).
    { unfold result_of. simpl in Hr. destruct (completing w2 !! g) as [x|] eqn:E; [|by rewrite Hr].
      assert (H : b_gates (bearer w2) !! g = Some None) by (apply (auth_completing w2 Hinv2); by rewrite E). congruence. }
    specialize (Hnew Hok). unfold is_newer. rewrite (proj2 (Z.ltb_lt _ _) Hnew), (auth_token w2 Hinv2), last_lookup. rewrite (auth_count w2 Hinv2) in Hnew.
    destruct (auth_refresh w2 Hinv2 id n g Hc) as [Hle _]. pose proof (auth_loaded w2 Hinv2 g Hok) as Hpos. rewrite (auth_count w2 Hinv2) in Hpos.
    destruct (lookup_lt_is_Some_2 (installed w2) (pred (length (installed w2)))) as [t Ht]; [lia|]. rewrite Ht. by eexists. }
  destruct Hend as [x ->]. simpl. rewrite lookup_delete_eq. by eauto.
Qed.

(** ** Examples *)

Definition sample_token (c : Z) (at_ : Z) : AccessToken := mkAccessToken [c] (Some at_).

(** Two requests share the first token and its refresh. *)
Definition auth_ops : list AuthOp :=
  [CurrentToken 0 5 true; CurrentToken 1 5 true; FetchDone 0 (Answered (Ok (sample_token 65 9))) 6; CompleteGate 0; WakeCall 0 6 true;
   WakeCall 1 6 true; RefreshIfNeeded 2 1 7 true; RefreshIfNeeded 3 1 7 true].

Lemma auth_caller_answered_witness :
  let w := auth_run (auth_world true) auth_ops in
  calls w !! 3%nat = Some (RefreshCall 1 1) /\
  calls (auth_run w [FetchDone 1 Panicked 8; CompleteGate 1; WakeCall 3 8 true]) !! 3%nat = None.
Proof.
  split; [vm_compute; reflexivity|]. refine (proj1 (auth_caller_answered true auth_ops 3 (RefreshCall 1 1) Panicked 8 true _)). vm_compute. reflexivity.
Defined.
