(* ===== verification/LanAddress.v ===== *)
(** * The LAN address of a host

    The choice of the IPv4 address a host advertises to its peers
    (src/module/net_status/lan_addr.rs, lan_snapshot.rs and
    src/api/network/lan_ipv4.rs).  The interfaces and what the platform knows of
    them are collected from the operating system and are arguments here.  An
    address is a 32-bit number; [linux] and [windows] are the targets of the
    build. *)

From Stdlib Require Import Strings.String Sorting.Sorted.
From S2P Require Import Prelude F64 Backoff RetrySchedule RetryState Errors.

(** ** Addresses *)

Abbreviation Ipv4Addr := Z (only parsing).

(** The number of four octets, and an octet of a number. *)
Definition from_octets (a b c d : Z) : Ipv4Addr := Z.shiftl a 24 + Z.shiftl b 16 + Z.shiftl c 8 + d.
Definition octet (ip : Ipv4Addr) (i : Z) : Z := Z.land (Z.shiftr ip (24 - 8 * i)) 255.

Definition is_loopback (ip : Ipv4Addr) : bool := octet ip 0 =? 127.
Definition is_link_local (ip : Ipv4Addr) : bool := (octet ip 0 =? 169) && (octet ip 1 =? 254).
Definition is_unspecified (ip : Ipv4Addr) : bool := ip =? 0.
Definition is_broadcast (ip : Ipv4Addr) : bool := ip =? u32_max.
Definition is_multicast (ip : Ipv4Addr) : bool := (224 <=? octet ip 0) && (octet ip 0 <=? 239).
Definition is_private (ip : Ipv4Addr) : bool :=
  (octet ip 0 =? 10) || ((octet ip 0 =? 172) && (16 <=? octet ip 1) && (octet ip 1 <=? 31)) || ((octet ip 0 =? 192) && (octet ip 1 =? 168)).

(** [in_cidr] *)
Definition in_cidr (ip base : Ipv4Addr) (prefix : Z) : bool :=
  if prefix =? 0 then true
  else
    let mask := Z.land (Z.shiftl u32_max (32 - prefix)) u32_max in
    Z.land ip mask =? Z.land base mask.

(** ** The preferred address by subnet *)

Module LanScore.
Inductive LanScore := PrivateClassC | PrivateClassA | PrivateClassB | OtherRoutable.
End LanScore.
Abbreviation LanScore := LanScore.LanScore.

Definition rank (s : LanScore) : Z :=
  match s with
  | LanScore.PrivateClassC => 4
  | LanScore.PrivateClassA => 3
  | LanScore.PrivateClassB => 2
  | LanScore.OtherRoutable => 1
  end.

Definition classify_lan_ipv4 (ip : Ipv4Addr) : option LanScore :=
  if is_loopback ip || is_link_local ip || is_unspecified ip || is_broadcast ip then None
  else if in_cidr ip (from_octets 198 18 0 0) 15 || in_cidr ip (from_octets 100 64 0 0) 10 then None
  else if in_cidr ip (from_octets 192 168 0 0) 16 then Some LanScore.PrivateClassC
  else if in_cidr ip (from_octets 10 0 0 0) 8 then Some LanScore.PrivateClassA
  else if in_cidr ip (from_octets 172 16 0 0) 12 then Some LanScore.PrivateClassB
  else Some LanScore.OtherRoutable.

(** [str::to_ascii_lowercase], [starts_with] and [contains] *)
Definition lower_ascii (a : Ascii.ascii) : Ascii.ascii :=
  let n := Ascii.nat_of_ascii a in if ((65 <=? n) && (n <=? 90))%nat then Ascii.ascii_of_nat (n + 32) else a.

Fixpoint lowercase (s : string) : string :=
  match s with EmptyString => EmptyString | String a s => String (lower_ascii a) (lowercase s) end.

Fixpoint name_contains (s hint : string) : bool :=
  String.prefix hint s || match s with EmptyString => false | String _ s => name_contains s hint end.

Definition VIRTUAL_IFACE_NAME_HINTS : list string :=
  ["clash"; "wintun"; "tun"; "tap"; "utun"; "vpn"; "wireguard"; "wg"; "tailscale"; "zerotier"; "hyper-v"; "vethernet"; "vmware";
   "virtualbox"; "vbox"; "loopback"; "wsl"; "docker"]%string.

Definition looks_like_virtual_iface (linux : bool) (name : string) : bool :=
  let lower := lowercase name in
  if linux && existsb (fun p => String.prefix p lower) ["veth"; "virbr"; "br-"; "cni"; "flannel"]%string then true
  else existsb (name_contains lower) VIRTUAL_IFACE_NAME_HINTS.

Record IfaceCandidate := mkIfaceCandidate { if_name : string; if_ip : Ipv4Addr; if_oper_up : bool; if_is_p2p : bool }.

(** The rank of a candidate that is not dropped. *)
Definition iface_rank (linux : bool) (c : IfaceCandidate) : option Z :=
  if negb (if_oper_up c) then None
  else if if_is_p2p c then None
  else if looks_like_virtual_iface linux (if_name c) then None
  else rank <$> classify_lan_ipv4 (if_ip c).

(** One turn of the loop of [pick_lan_ipv4_from] *)
Definition pick_turn (linux : bool) (best : option (Z * Ipv4Addr)) (c : IfaceCandidate) : option (Z * Ipv4Addr) :=
  match iface_rank linux c with
  | None => best
  | Some r =>
      match best with
      | Some (best_rank, _) => if r <=? best_rank then best else Some (r, if_ip c)
      | None => Some (r, if_ip c)
      end
  end.

Definition pick_lan_ipv4_from (linux : bool) (candidates : list IfaceCandidate) : option Ipv4Addr :=
  snd <$> foldl (pick_turn linux) None candidates.

(** An interface of the enumeration; [None] is an address that is not IPv4. *)
Record Interface := mkInterface { iface_name : string; iface_v4 : option Ipv4Addr; iface_up : bool; iface_p2p : bool }.

(** [select_interface_address] *)
Definition select_interface_address (linux : bool) (interfaces : Result (list Interface) NetError) : Result (option Ipv4Addr) NetError :=
  let? ifaces := interfaces in
  Ok (pick_lan_ipv4_from linux (omap (fun i => (fun ip => mkIfaceCandidate (iface_name i) ip (iface_up i) (iface_p2p i)) <$> iface_v4 i) ifaces)).

(** ** The recommendation by evidence *)

Module LanInterfaceKind.
Inductive LanInterfaceKind := Wifi | Ethernet | Bridge | Tunnel | Virtual | Loopback | Unknown.
End LanInterfaceKind.
Abbreviation LanInterfaceKind := LanInterfaceKind.LanInterfaceKind.

Module LanIpv4Exclusion.
Inductive LanIpv4Exclusion :=
| InterfaceDown | InterfaceStateUnknown | PointToPoint | PointToPointStateUnknown | VirtualInterfaceNameHint | PlatformVirtualOrTunnel
| LinkInactive | Loopback | LinkLocal | Unspecified | Broadcast | Multicast | ThisNetwork | Reserved | SharedAddressSpace | BenchmarkRange.
End LanIpv4Exclusion.
Abbreviation LanIpv4Exclusion := LanIpv4Exclusion.LanIpv4Exclusion.

Module LanIpv4RecommendationReason.
Inductive LanIpv4RecommendationReason :=
| ActiveLanDefaultRoute | ActiveWifiOrEthernet | ActiveBridge | LanLinkUnknown | MetadataUnknown | BridgeLinkUnknown.
End LanIpv4RecommendationReason.
Abbreviation LanIpv4RecommendationReason := LanIpv4RecommendationReason.LanIpv4RecommendationReason.

Record LanIpv4Candidate := mkLanIpv4Candidate {
  interface_id : string;
  interface_name : string;
  interface_index : option Z;
  address : Ipv4Addr;
  netmask : Ipv4Addr;
  prefix_len : Z;
  interface_kind : LanInterfaceKind;
  oper_up : option bool;
  point_to_point : option bool;
  link_active : option bool;
  default_route : option bool;
  lan_exclusions : list LanIpv4Exclusion;
  recommendation : option LanIpv4RecommendationReason;
}.

#[export] Instance LanIpv4Candidate_settable : Settable LanIpv4Candidate :=
  fields! mkLanIpv4Candidate [ interface_id; interface_name; interface_index; address; netmask; prefix_len; interface_kind; oper_up;
    point_to_point; link_active; default_route; lan_exclusions; recommendation ].

(** [on_link_netmask] *)
Definition on_link_netmask (prefix : Z) : option Ipv4Addr :=
  match checked_sub 32 prefix with
  | None => None
  | Some shift => Some (if shift <? 32 then Z.land (Z.shiftl u32_max shift) u32_max else 0)
  end.

(** [exclusions] *)
Definition exclusions (linux : bool) (c : LanIpv4Candidate) : list LanIpv4Exclusion :=
  let ip := address c in
  let when (b : bool) x := if b then [x] else [] in
  match oper_up c with
  | Some false => [LanIpv4Exclusion.InterfaceDown]
  | None => [LanIpv4Exclusion.InterfaceStateUnknown]
  | Some true => []
  end ++
  match point_to_point c with
  | Some true => [LanIpv4Exclusion.PointToPoint]
  | None => [LanIpv4Exclusion.PointToPointStateUnknown]
  | Some false => []
  end ++
  when (looks_like_virtual_iface linux (interface_name c)) LanIpv4Exclusion.VirtualInterfaceNameHint ++
  when match interface_kind c with LanInterfaceKind.Tunnel | LanInterfaceKind.Virtual => true | _ => false end
    LanIpv4Exclusion.PlatformVirtualOrTunnel ++
  when match link_active c with Some false => true | _ => false end LanIpv4Exclusion.LinkInactive ++
  when (is_loopback ip || match interface_kind c with LanInterfaceKind.Loopback => true | _ => false end) LanIpv4Exclusion.Loopback ++
  when (is_link_local ip) LanIpv4Exclusion.LinkLocal ++
  (if is_unspecified ip then [LanIpv4Exclusion.Unspecified] else when (octet ip 0 =? 0) LanIpv4Exclusion.ThisNetwork) ++
  (if is_broadcast ip then [LanIpv4Exclusion.Broadcast] else when (240 <=? octet ip 0) LanIpv4Exclusion.Reserved) ++
  when (is_multicast ip) LanIpv4Exclusion.Multicast ++
  when (in_cidr ip (from_octets 100 64 0 0) 10) LanIpv4Exclusion.SharedAddressSpace ++
  when (in_cidr ip (from_octets 198 18 0 0) 15) LanIpv4Exclusion.BenchmarkRange.

(** [evidence] *)
Definition evidence (c : LanIpv4Candidate) : Z * LanIpv4RecommendationReason :=
  let active := match link_active c with Some true => true | _ => false end in
  let wired := match interface_kind c with LanInterfaceKind.Wifi | LanInterfaceKind.Ethernet => true | _ => false end in
  let bridge := match interface_kind c with LanInterfaceKind.Bridge => true | _ => false end in
  if (wired || bridge) && active && match default_route c with Some true => true | _ => false end
  then (5, LanIpv4RecommendationReason.ActiveLanDefaultRoute)
  else if wired && active then (4, LanIpv4RecommendationReason.ActiveWifiOrEthernet)
  else if bridge && active then (3, LanIpv4RecommendationReason.ActiveBridge)
  else if wired then (2, LanIpv4RecommendationReason.LanLinkUnknown)
  else if bridge then (0, LanIpv4RecommendationReason.BridgeLinkUnknown)
  else (1, LanIpv4RecommendationReason.MetadataUnknown).

(** The comparison of [select]: a chain of [then_with]. *)
Definition then_with (a b : comparison) : comparison := match a with Eq => b | _ => a end.

Definition compare_index (a b : option Z) : comparison :=
  match a, b with
  | None, None => Eq
  | None, Some _ => Lt
  | Some _, None => Gt
  | Some x, Some y => (x ?= y)
  end.

Definition compare_candidates (a b : LanIpv4Candidate) : comparison :=
  then_with (String.compare (interface_id a) (interface_id b))
    (then_with (address a ?= address b)
      (then_with (compare_index (interface_index a) (interface_index b))
        (then_with (String.compare (interface_name a) (interface_name b)) (netmask a ?= netmask b)))).

(** A stable sort. *)
Section Sort.
Context {A : Type} (cmp : A -> A -> comparison).

Fixpoint insert_sorted (x : A) (l : list A) : list A :=
  match l with
  | [] => [x]
  | y :: rest => match cmp x y with Gt => y :: insert_sorted x rest | _ => x :: l end
  end.

Definition sort_by (l : list A) : list A := foldr insert_sorted [] l.
End Sort.

(** [Vec::dedup] *)
Fixpoint dedup (l : list string) : list string :=
  match l with
  | x :: ((y :: _) as rest) => if bool_decide (x = y) then dedup rest else x :: dedup rest
  | _ => l
  end.

(** [rank > best_rank] on pairs *)
Definition rank_above (a b : Z * bool) : bool := (b.1 <? a.1) || ((a.1 =? b.1) && a.2 && negb b.2).

Definition recommend_turn (linux : bool) (best : option (nat * (Z * bool))) (index : nat) (c : LanIpv4Candidate) : option (nat * (Z * bool)) :=
  if negb (bool_decide (length (exclusions linux c) = 0%nat)) then best
  else
    let r := ((evidence c).1, is_private (address c)) in
    if match best with None => true | Some (_, best_rank) => rank_above r best_rank end then Some (index, r) else best.

Fixpoint recommend_loop (linux : bool) (best : option (nat * (Z * bool))) (index : nat) (l : list LanIpv4Candidate) :
    option (nat * (Z * bool)) :=
  match l with
  | [] => best
  | c :: rest => recommend_loop linux (recommend_turn linux best index c) (S index) rest
  end.

Record LanIpv4Snapshot := mkLanIpv4Snapshot {
  candidates : list LanIpv4Candidate;
  complete : bool;
  diagnostics : list string;
  query_started_at : Z;
  observed_at : Z;
}.

(** [select] *)
Definition select (linux : bool) (cs : list LanIpv4Candidate) (ds : list string) (started observed : Z) : LanIpv4Snapshot :=
  let cs := sort_by compare_candidates cs in
  let best := recommend_loop linux None 0 cs in
  let cs := (fun c => c <| recommendation := None; lan_exclusions := exclusions linux c |>) <$> cs in
  let cs := match best with
            | Some (index, _) => alter (fun c => c <| recommendation := Some (evidence c).2 |>) index cs
            | None => cs
            end in
  let ds := dedup (sort_by String.compare ds) in
  mkLanIpv4Snapshot cs (bool_decide (ds = [])) ds started observed.

(** [LanIpv4Snapshot::recommended] *)
Definition recommended (s : LanIpv4Snapshot) : option LanIpv4Candidate :=
  snd <$> list_find (fun c => is_some (recommendation c) = true) (candidates s).

(** ** Networks *)

Lemma mask_bit k n : 0 <= k <= 32 -> 0 <= n -> Z.testbit (Z.land (Z.shiftl u32_max k) u32_max) n = (k <=? n) && (n <? 32).
Proof.
  intros Hk Hn. rewrite Z.land_spec, Z.shiftl_spec by done. change u32_max with (Z.ones 32).
  rewrite (Z.testbit_ones_nonneg 32 n) by lia. destruct (Z.leb_spec k n).
  - rewrite Z.testbit_ones_nonneg by lia. destruct (Z.ltb_spec n 32); simpl; [|by rewrite andb_false_r]. rewrite andb_true_r. apply Z.ltb_lt. lia.
  - rewrite Z.testbit_neg_r by lia. done.
Qed.

Lemma masked k ip : 0 <= k <= 32 -> 0 <= ip <= u32_max -> Z.land ip (Z.land (Z.shiftl u32_max k) u32_max) = Z.shiftl (Z.shiftr ip k) k.
Proof.
  intros Hk Hip. apply Z.bits_inj'. intros n Hn. rewrite Z.land_spec, mask_bit, Z.shiftl_spec by done.
  destruct (Z.leb_spec k n).
  - rewrite Z.shiftr_spec by lia. replace (n - k + k) with n by lia. destruct (Z.ltb_spec n 32); simpl; [by rewrite andb_true_r|].
    rewrite andb_false_r. symmetry. destruct (decide (ip = 0)) as [->|Hnz]; [apply Z.testbit_0_l|]. apply Z.bits_above_log2; [lia|].
    assert (Z.log2 ip < 32) by (apply Z.log2_lt_pow2; unfold u32_max in Hip; lia). lia.
  - rewrite andb_false_r, Z.testbit_neg_r by lia. done.
Qed.

(** An address is in a network when its leading bits are those of the network. *)
Lemma in_cidr_spec ip base prefix :
  0 <= ip <= u32_max -> 0 <= base <= u32_max -> 0 <= prefix <= 32 ->
  in_cidr ip base prefix = true <-> ip / 2 ^ (32 - prefix) = base / 2 ^ (32 - prefix).
Proof.
  intros Hip Hbase Hp. unfold in_cidr. destruct (Z.eqb_spec prefix 0) as [->|Hne].
  - split; [intros _|done]. simpl. unfold u32_max in *. rewrite !Z.div_small by lia. done.
  - rewrite !masked by lia. rewrite Z.eqb_eq. rewrite <- !Z.shiftr_div_pow2 by lia. split; [|by intros ->].
    intros H. apply (f_equal (fun x => Z.shiftr x (32 - prefix))) in H. by rewrite !Z.shiftr_shiftl_l, !Z.sub_diag, !Z.shiftl_0_r in H by lia.
Qed.

(** ** The first of the best *)

(** [i] is the place of the first of the elements whose score is highest. *)
Definition first_best {A} (score : A -> option Z) (l : list A) (i : nat) : Prop :=
  exists x r, l !! i = Some x /\ score x = Some r /\
    forall j y s, l !! j = Some y -> score y = Some s -> s <= r /\ ((j < i)%nat -> s < r).

Lemma first_best_snoc {A} (score : A -> option Z) l x i :
  first_best score l i -> (forall r s y, score x = Some r -> l !! i = Some y -> score y = Some s -> r <= s) -> first_best score (l ++ [x]) i.
Proof.
  intros (y & r & Hy & Hr & Hall) Hx. assert (Hi : (i < length l)%nat) by (by eapply lookup_lt_Some).
  exists y, r. split; [by apply lookup_app_l_Some|]. split; [done|]. intros j z s Hz Hs.
  apply lookup_app_Some in Hz as [Hz|[Hl Hz]]; [by eapply Hall|]. apply list_lookup_singleton_Some in Hz as [_ <-].
  split; [by eapply Hx|lia].
Qed.

Lemma first_best_new {A} (score : A -> option Z) l x r :
  score x = Some r -> (forall j y s, l !! j = Some y -> score y = Some s -> s < r) -> first_best score (l ++ [x]) (length l).
Proof.
  intros Hr Hall. exists x, r. rewrite lookup_app_r, Nat.sub_diag by done. split; [done|]. split; [done|]. intros j z s Hz Hs.
  apply lookup_app_Some in Hz as [Hz|[Hl Hz]]; [specialize (Hall j z s Hz Hs); lia|].
  apply list_lookup_singleton_Some in Hz as [Hj <-]. assert (s = r) as -> by congruence. lia.
Qed.

(** The address a host advertises is the best there is: an address is chosen whenever one
    qualifies, it is that of an interface that is up, not point to point and not virtual, no
    qualifying address has a better class of network, and among equals the first wins. *)
Theorem lan_address_best linux cs :
  match pick_lan_ipv4_from linux cs with
  | Some ip => exists i c, cs !! i = Some c /\ if_ip c = ip /\ first_best (iface_rank linux) cs i
  | None => Forall (fun c => iface_rank linux c = None) cs
  end.
Proof.
  assert (H : match foldl (pick_turn linux) None cs with
              | Some (r, ip) => exists i c, cs !! i = Some c /\ if_ip c = ip /\ iface_rank linux c = Some r /\ first_best (iface_rank linux) cs i
              | None => Forall (fun c => iface_rank linux c = None) cs
              end).
  2: { unfold pick_lan_ipv4_from. destruct (foldl _ None cs) as [[r ip]|]; simpl; [|done]. destruct H as (i & c & H1 & H2 & _ & H3). by exists i, c. }
  induction cs as [|c cs IH] using rev_ind; [simpl; constructor|]. rewrite foldl_app. cbn [foldl]. unfold pick_turn.
  destruct (iface_rank linux c) as [r|] eqn:Hr.
  2: { destruct (foldl _ None cs) as [[b ip]|]; [|apply Forall_app; auto]. destruct IH as (i & d & H1 & H2 & H3 & H4). exists i, d.
       split; [by apply lookup_app_l_Some|]. split; [done|]. split; [done|]. apply first_best_snoc; [done|]. congruence. }
  destruct (foldl _ None cs) as [[b ip]|].
  - destruct IH as (i & d & H1 & H2 & H3 & H4). destruct (Z.leb_spec r b).
    + exists i, d. split; [by apply lookup_app_l_Some|]. split; [done|]. split; [done|]. apply first_best_snoc; [done|].
      intros r' s y E1 E2 E3. assert (r' = r) as -> by congruence. assert (y = d) as -> by congruence. assert (s = b) as -> by congruence. done.
    + exists (length cs), c. rewrite lookup_app_r, Nat.sub_diag by done. split; [done|]. split; [done|]. split; [done|].
      apply (first_best_new _ _ _ r); [done|]. intros j y s E1 E2. destruct H4 as (x & r' & F1 & F2 & F3). destruct (F3 j y s E1 E2) as [F4 _].
      assert (x = d) as -> by congruence. assert (r' = b) as -> by congruence. lia.
  - exists (length cs), c. rewrite lookup_app_r, Nat.sub_diag by done. split; [done|]. split; [done|]. split; [done|].
    apply (first_best_new _ _ _ r); [done|]. intros j y s E1 E2. rewrite Forall_lookup in IH. specialize (IH j y E1). congruence.
Qed.

(** ** The recommendation *)

(** The evidence for a candidate that is not excluded, a private address before another one. *)
Definition rank_value (r : Z * bool) : Z := 2 * r.1 + (if r.2 then 1 else 0).

Definition lan_score (linux : bool) (c : LanIpv4Candidate) : option Z :=
  if bool_decide (length (exclusions linux c) = 0%nat) then Some (rank_value ((evidence c).1, is_private (address c))) else None.

Lemma rank_above_value a b : rank_above a b = (rank_value b <? rank_value a).
Proof.
  destruct a as [x p], b as [y q]. unfold rank_above, rank_value. simpl.
  destruct (Z.ltb_spec y x), (Z.eqb_spec x y), p, q; simpl; symmetry; try apply Z.ltb_lt; try apply Z.ltb_ge; lia.
Qed.

Definition best_ok (linux : bool) (pre : list LanIpv4Candidate) (best : option (nat * (Z * bool))) : Prop :=
  match best with
  | Some (i, r) => exists c, pre !! i = Some c /\ lan_score linux c = Some (rank_value r) /\ first_best (lan_score linux) pre i
  | None => Forall (fun c => lan_score linux c = None) pre
  end.

Lemma recommend_turn_ok linux pre best c :
  best_ok linux pre best -> best_ok linux (pre ++ [c]) (recommend_turn linux best (length pre) c).
Proof.
  intros Hb. unfold recommend_turn. case_bool_decide as He; cbn [negb].
  2: { assert (Hs : lan_score linux c = None) by (unfold lan_score; by rewrite bool_decide_eq_false_2).
       destruct best as [[i r]|]; simpl in *; [|apply Forall_app; auto]. destruct Hb as (d & H1 & H2 & H3). exists d.
       split; [by apply lookup_app_l_Some|]. split; [done|]. apply first_best_snoc; [done|]. congruence. }
  set (r := ((evidence c).1, is_private (address c))).
  assert (Hs : lan_score linux c = Some (rank_value r)) by (unfold lan_score; by rewrite bool_decide_eq_true_2).
  destruct best as [[i b]|]; simpl in *.
  - destruct Hb as (d & H1 & H2 & H3). rewrite rank_above_value. destruct (Z.ltb_spec (rank_value b) (rank_value r)).
    + simpl. exists c. rewrite lookup_app_r, Nat.sub_diag by done. split; [done|]. split; [done|].
      apply (first_best_new _ _ _ (rank_value r)); [done|]. intros j y s E1 E2. destruct H3 as (x & r' & F1 & F2 & F3). destruct (F3 j y s E1 E2) as [F4 _].
      assert (x = d) as -> by congruence. assert (r' = rank_value b) as -> by congruence. lia.
    + simpl. exists d. split; [by apply lookup_app_l_Some|]. split; [done|]. apply first_best_snoc; [done|]. intros r' s y E1 E2 E3.
      assert (y = d) as -> by congruence. assert (s = rank_value b) as -> by congruence. assert (r' = rank_value r) as -> by congruence. done.
  - exists c. rewrite lookup_app_r, Nat.sub_diag by done. split; [done|]. split; [done|].
    apply (first_best_new _ _ _ (rank_value r)); [done|]. intros j y s E1 E2. rewrite Forall_lookup in Hb. specialize (Hb j y E1). congruence.
Qed.

Lemma recommend_loop_ok linux l pre best :
  best_ok linux pre best -> best_ok linux (pre ++ l) (recommend_loop linux best (length pre) l).
Proof.
  revert pre best. induction l as [|c l IH]; intros pre best Hb; simpl; [by rewrite app_nil_r|].
  apply (recommend_turn_ok _ _ _ c) in Hb. specialize (IH _ _ Hb). rewrite length_app in IH. simpl in IH.
  rewrite Nat.add_1_r, <- app_assoc in IH. exact IH.
Qed.

Lemma first_best_ext {A} (score : A -> option Z) l k i : score <$> l = score <$> k -> first_best score l i -> first_best score k i.
Proof.
  intros Heq (x & r & Hx & Hr & Hall). assert (Hto : forall j y, k !! j = Some y -> exists z, l !! j = Some z /\ score z = score y).
  { intros j y Hy. apply (f_equal (fun m => m !! j)) in Heq. rewrite !list_lookup_fmap, Hy in Heq. simpl in Heq.
    destruct (l !! j) as [z|]; [|done]. exists z. simpl in Heq. by injection Heq. }
  assert (Hk : exists y, k !! i = Some y /\ score y = Some r).
  { apply (f_equal (fun m => m !! i)) in Heq. rewrite !list_lookup_fmap, Hx in Heq. simpl in Heq. destruct (k !! i) as [y|]; [|done].
    exists y. simpl in Heq. injection Heq as Heq. split; [done|congruence]. }
  destruct Hk as (y & Hy & Hs). exists y, r. split; [done|]. split; [done|]. intros j z s Hz Hsz.
  destruct (Hto j z Hz) as (z' & Hz' & E). eapply Hall; [exact Hz'|congruence].
Qed.

Lemma first_best_unique {A} (score : A -> option Z) l i j : first_best score l i -> first_best score l j -> i = j.
Proof.
  intros (x & r & Hx & Hr & H1) (y & s & Hy & Hs & H2). destruct (H1 j y s Hy Hs) as [A1 A2]. destruct (H2 i x r Hx Hr) as [B1 B2].
  destruct (decide (i < j)%nat); [specialize (B2 ltac:(lia)); lia|]. destruct (decide (j < i)%nat); [specialize (A2 ltac:(lia)); lia|]. lia.
Qed.

(** ** Sorting *)

Lemma insert_sorted_perm {A} (cmp : A -> A -> comparison) x l : insert_sorted cmp x l ≡ₚ x :: l.
Proof. induction l as [|y l IH]; [done|]. simpl. destruct (cmp x y); [done|done|]. rewrite IH. apply Permutation_swap. Qed.

Lemma sort_by_perm {A} (cmp : A -> A -> comparison) l : sort_by cmp l ≡ₚ l.
Proof. induction l as [|x l IH]; [done|]. simpl. by rewrite insert_sorted_perm, IH. Qed.

Lemma sort_by_sorted {A} (cmp : A -> A -> comparison) l :
  (forall x y, cmp x y = Gt -> cmp y x <> Gt) -> Sorted (fun x y => cmp x y <> Gt) (sort_by cmp l).
Proof.
  intros Htot. induction l as [|x l IH]; simpl; [constructor|]. revert IH. generalize (sort_by cmp l) as k. clear l.
  induction k as [|y k IH]; intros Hk; simpl; [repeat constructor|]. destruct (cmp x y) eqn:E.
  1,2: constructor; [done|constructor; by rewrite E].
  apply Sorted_inv in Hk as [Hk Hy]. constructor; [by apply IH|]. destruct k as [|z k]; simpl; [constructor; by apply Htot|].
  destruct (cmp x z); constructor; try (by apply Htot). by apply HdRel_inv in Hy.
Qed.

Lemma then_with_opp a b : then_with (CompOpp a) (CompOpp b) = CompOpp (then_with a b).
Proof. by destruct a. Qed.

Lemma compare_candidates_total a b : compare_candidates a b = Gt -> compare_candidates b a <> Gt.
Proof.
  assert (H : compare_candidates b a = CompOpp (compare_candidates a b)).
  { unfold compare_candidates. rewrite (String.compare_antisym (interface_id b)), (String.compare_antisym (interface_name b)).
    rewrite (Z.compare_antisym (address a)), (Z.compare_antisym (netmask a)).
    replace (compare_index (interface_index b) (interface_index a)) with (CompOpp (compare_index (interface_index a) (interface_index b))).
    - by rewrite !then_with_opp.
    - destruct (interface_index a), (interface_index b); simpl; try done. by rewrite <- Z.compare_antisym. }
  rewrite H. by intros ->.
Qed.

(** What [select] does not decide of a candidate. *)
Definition facts_of (c : LanIpv4Candidate) : LanIpv4Candidate := c <| recommendation := None; lan_exclusions := [] |>.

Lemma sorted_facts k l :
  facts_of <$> k = facts_of <$> l -> Sorted (fun a b => compare_candidates a b <> Gt) l -> Sorted (fun a b => compare_candidates a b <> Gt) k.
Proof.
  assert (Hcmp : forall a b, compare_candidates a b = compare_candidates (facts_of a) (facts_of b)) by done.
  intros Heq Hs. revert k Heq. induction Hs as [|x l Hs IH Hx]; intros [|y k] Heq; try done. change (facts_of y :: (facts_of <$> k) = facts_of x :: (facts_of <$> l)) in Heq.
  pose proof (f_equal (fun m => default x (head m)) Heq) as Hy. apply (f_equal tail) in Heq. simpl in Hy. cbn [tail] in Heq.
  constructor; [by apply IH|]. destruct Hx as [|z l Hz]; destruct k as [|v k]; try done.
  pose proof (f_equal (fun m => default x (head m)) Heq) as Hv. simpl in Hv.
  constructor. by rewrite Hcmp, Hy, Hv, <- Hcmp.
Qed.

(** C40. A snapshot of the LAN addresses keeps every address, in a fixed order and with all the
    reasons against it, and recommends at most one: among those that no reason speaks against, the first
    of those with the strongest evidence, private addresses before public ones of equal evidence,
    with that evidence for a reason.  One is recommended whenever one qualifies. *)
Theorem lan_recommendation_exact linux cs ds started observed :
  let s := select linux cs ds started observed in
  (facts_of <$> candidates s) ≡ₚ (facts_of <$> cs) /\ Sorted (fun a b => compare_candidates a b <> Gt) (candidates s) /\
  (forall i c, candidates s !! i = Some c -> lan_exclusions c = exclusions linux c /\
     recommendation c = if bool_decide (is_some (recommendation c) = true) then Some (evidence c).2 else None) /\
  (forall i c, candidates s !! i = Some c -> is_some (recommendation c) = true <-> first_best (lan_score linux) (candidates s) i) /\
  (Forall (fun c => recommendation c = None) (candidates s) -> Forall (fun c => lan_score linux c = None) (candidates s)).
Proof.
  unfold select. cbn [candidates]. set (l := sort_by compare_candidates cs).
  set (f := fun c : LanIpv4Candidate => c <| recommendation := None; lan_exclusions := exclusions linux c |>).
  set (g := fun c : LanIpv4Candidate => c <| recommendation := Some (evidence c).2 |>).
  pose proof (recommend_loop_ok linux l [] None (Forall_nil_2 _)) as Hbest. simpl in Hbest.
  set (k := match recommend_loop linux None 0 l with Some (index, _) => alter g index (f <$> l) | None => f <$> l end).
  assert (Hk : forall i, k !! i = (if bool_decide (Some i = fst <$> recommend_loop linux None 0 l) then g else id) ∘ f <$> l !! i).
  { intros i. subst k. destruct (recommend_loop linux None 0 l) as [[b r]|]; simpl.
    - case_bool_decide as Hb; [injection Hb as ->; by rewrite list_lookup_alter_eq, list_lookup_fmap, <- option_fmap_compose|].
      rewrite list_lookup_alter_ne, list_lookup_fmap by congruence. by destruct (l !! i).
    - rewrite list_lookup_fmap. by destruct (l !! i). }
  assert (Hmap : forall B (h : LanIpv4Candidate -> B), (forall c, h (f c) = h c) -> (forall c, h (g c) = h c) -> h <$> k = h <$> l).
  { intros B h Hf Hg. apply list_eq. intros i. rewrite !list_lookup_fmap, Hk. destruct (l !! i) as [c|]; simpl; [|done].
    case_bool_decide; simpl; by rewrite ?Hg, Hf. }
  assert (Hscore : lan_score linux <$> k = lan_score linux <$> l) by (by apply Hmap).
  clearbody k. split_and!.
  - rewrite (Hmap _ facts_of) by done. apply fmap_Permutation, sort_by_perm.
  - apply (sorted_facts k l); [by rewrite (Hmap _ facts_of)|]. apply sort_by_sorted. intros x y. apply compare_candidates_total.
  - intros i c Hc. rewrite Hk in Hc. apply fmap_Some in Hc as (d & Hd & ->). case_bool_decide; by split.
  - intros i c Hc. rewrite Hk in Hc. apply fmap_Some in Hc as (d & Hd & ->).
    assert (Hfb : is_Some (l !! i)) by (by rewrite Hd). case_bool_decide as Hb; simpl.
    + split; [intros _|done]. destruct (recommend_loop linux None 0 l) as [[b r]|]; [|done]. injection Hb as ->.
      destruct Hbest as (x & _ & _ & H). by eapply first_best_ext.
    + split; [done|]. intros H. exfalso. symmetry in Hscore. apply (first_best_ext _ _ _ _ (eq_sym Hscore)) in H.
      destruct (recommend_loop linux None 0 l) as [[b r]|]; simpl in *.
      * destruct Hbest as (x & _ & _ & H'). apply Hb. by rewrite (first_best_unique _ _ _ _ H H').
      * destruct H as (x & r & Hx & Hr & _). rewrite Forall_lookup in Hbest. specialize (Hbest i x Hx). congruence.
  - intros Hnone. assert (Hall : Forall (fun c => lan_score linux c = None) l).
    { destruct (recommend_loop linux None 0 l) as [[b r]|]; [|exact Hbest]. destruct Hbest as (x & Hx & _). exfalso.
      rewrite Forall_lookup in Hnone. assert (Hb : k !! b = Some (g (f x))) by (by rewrite Hk, Hx, bool_decide_eq_true_2).
      by specialize (Hnone b _ Hb). }
    rewrite Forall_lookup in *. intros i c Hc. apply (f_equal (fun m => m !! i)) in Hscore.
    rewrite !list_lookup_fmap, Hc in Hscore. destruct (l !! i) as [d|] eqn:Hd; [|done]. simpl in Hscore. injection Hscore as ->. by apply (Hall i).
Qed.
