(* ===== verification/NetworkSource.v ===== *)
(** * Network status: the shared source and its named views

    The monitor of the network publishes snapshots to one shared source
    (src/module/net_status/inner/network_status_snapshot.rs); every named client is
    a view of it with a lifecycle and revisions of its own (network_view.rs), which
    turns what it imports into ordered events for its observers
    (coordinated_view.rs).  The source and its views change under the lock of the
    source; what they publish is handed out after it is released ([PendingView]).

    [Net] is the source with the objects it shares: the store of views, in which a
    [Weak] is looked up, the store of event queues, and the publications that
    are prepared but not dispatched.  The platform, the allocator and the clock
    are arguments.  Leases that delay a shutdown, and logs, are left out. *)

From S2P Require Import Prelude F64 Backoff RetrySchedule RetryState Errors Dispatch EventStream StateStream.

(** ** Facts *)

Module NetworkStatus.
Inductive NetworkStatus := Unavailable | Available.
End NetworkStatus.
Abbreviation NetworkStatus := NetworkStatus.NetworkStatus.

#[export] Instance NetworkStatus_eq_dec : EqDecision NetworkStatus.
Proof. solve_decision. Defined.

Module IpStack.
Inductive IpStack := None | V4Only | V6Only | DualStack.
End IpStack.
Abbreviation IpStack := IpStack.IpStack.

#[export] Instance IpStack_eq_dec : EqDecision IpStack.
Proof. solve_decision. Defined.

(** [IpStack::from_flags], [has_ipv4] and [has_ipv6] *)
Definition from_flags (have_v4 have_v6 : bool) : IpStack :=
  match have_v4, have_v6 with
  | true, true => IpStack.DualStack
  | true, false => IpStack.V4Only
  | false, true => IpStack.V6Only
  | false, false => IpStack.None
  end.

Definition has_ipv4 (s : IpStack) : bool := match s with IpStack.V4Only | IpStack.DualStack => true | _ => false end.

Definition has_ipv6 (s : IpStack) : bool := match s with IpStack.V6Only | IpStack.DualStack => true | _ => false end.

Module MonitorState.
Inductive MonitorState := Stopped | Starting | Running | Failed (error : NetError) | Closed.
End MonitorState.
Abbreviation MonitorState := MonitorState.MonitorState.

(** [matches!] and [std::mem::discriminant] of a state. *)
Definition discriminant (s : MonitorState) : Z :=
  match s with
  | MonitorState.Stopped => 0
  | MonitorState.Starting => 1
  | MonitorState.Running => 2
  | MonitorState.Failed _ => 3
  | MonitorState.Closed => 4
  end.

Definition is_closed (s : MonitorState) : bool := match s with MonitorState.Closed => true | _ => false end.
Definition is_running (s : MonitorState) : bool := match s with MonitorState.Running => true | _ => false end.
Definition is_stopped (s : MonitorState) : bool := match s with MonitorState.Stopped => true | _ => false end.

Record NetworkSnapshot := mkNetworkSnapshot {
  ns_revision : Z;
  ns_loss_epoch : Z;
  ns_state : MonitorState;
  ns_reachability : option NetworkStatus;
  ns_ip_stack : option IpStack;
  ns_observed_at : option Z;
  ns_network_name : option string;
}.

#[export] Instance NetworkSnapshot_settable : Settable NetworkSnapshot :=
  fields! mkNetworkSnapshot [ ns_revision; ns_loss_epoch; ns_state; ns_reachability; ns_ip_stack; ns_observed_at; ns_network_name ].

(** A state without an observation. *)
Definition bare_snapshot (revision loss_epoch : Z) (state : MonitorState) : NetworkSnapshot :=
  mkNetworkSnapshot revision loss_epoch state None None None None.

Module NetworkEventKind.
Inductive NetworkEventKind :=
| Initial
| ObservationReady
| ReachabilityChanged (previous current : NetworkStatus)
| LifecycleChanged.
End NetworkEventKind.
Abbreviation NetworkEventKind := NetworkEventKind.NetworkEventKind.

Record NetworkEvent := mkNetworkEvent {
  ne_sequence : Z;
  ne_generation : Z;
  ne_source_revision : Z;
  ne_snapshot : NetworkSnapshot;
  ne_kind : NetworkEventKind;
}.

(** The size of a [NetworkEvent] is the compiler's. *)
Class EventLayout := { size_of_event : Z }.

Definition event_size {layout : EventLayout} (event : NetworkEvent) : Z :=
  Z.min usize_max (size_of_event + match ns_network_name (ne_snapshot event) with
                                   | Some name => Z.of_nat (String.length name)
                                   | None => 0
                                   end).

(** ** A view: its lifecycle and what it imported *)

Record NetworkView := mkNetworkView {
  v_snapshot : NetworkSnapshot;
  v_generation : Z;
  v_active : bool;
  v_source_revision : option Z;
  v_projected : option Z;
}.

#[export] Instance NetworkView_settable : Settable NetworkView :=
  fields! mkNetworkView [ v_snapshot; v_generation; v_active; v_source_revision; v_projected ].

Definition NetworkView_new : NetworkView := mkNetworkView (bare_snapshot 0 0 MonitorState.Stopped) 0 false None None.

Definition view_closed (v : NetworkView) : bool := is_closed (ns_state (v_snapshot v)).

Definition exhausted : NetError := NetError_new ErrorKind.ResourceExhausted.

(** [NetworkView::stop] *)
Definition view_stop (v : NetworkView) (permanent : bool) : NetworkView * Result bool NetError :=
  if view_closed v || (negb permanent && negb (v_active v) && is_stopped (ns_state (v_snapshot v))) then (v, Ok false)
  else
    match checked_add u64_max (ns_revision (v_snapshot v)) 1 with
    | None => (v, Err exhausted)
    | Some revision =>
        (v <| v_active := false; v_projected := None;
              v_snapshot := bare_snapshot revision (ns_loss_epoch (v_snapshot v))
                              (if permanent then MonitorState.Closed else MonitorState.Stopped) |>, Ok true)
    end.

(** [NetworkView::import] *)
Definition view_import (v : NetworkView) (source : NetworkSnapshot) (force : bool) : NetworkView * Result bool NetError :=
  if view_closed v then (v, Ok false)
  else if is_closed (ns_state source) then view_stop v true
  else if negb force && (negb (v_active v) || is_some_and (v_source_revision v) (fun revision => ns_revision source <=? revision))
  then (v, Ok false)
  else if is_some_and (v_source_revision v) (fun revision => ns_revision source <? revision) then (v, Ok false)
  else
    match checked_add u64_max (ns_revision (v_snapshot v)) 1 with
    | None => (v, Err exhausted)
    | Some revision =>
        (v <| v_source_revision := Some (ns_revision source); v_projected := Some (ns_revision source);
              v_snapshot := source <| ns_revision := revision |> |>, Ok true)
    end.

(** [NetworkView::activate]: a refused activation leaves the view as it was. *)
Definition view_activate (v : NetworkView) (source : NetworkSnapshot) : NetworkView * Result bool NetError :=
  if view_closed v || is_closed (ns_state source) then (v, Err (NetError_new ErrorKind.Closed))
  else
    match checked_add u64_max (v_generation v) 1 with
    | None => (v, Err exhausted)
    | Some generation =>
        match view_import (v <| v_generation := generation; v_active := true |>) source true with
        | (next, Ok changed) => (next, Ok changed)
        | (_, Err error) => (v, Err error)
        end
    end.

(** [NetworkView::refresh] *)
Definition view_refresh (v : NetworkView) (source : NetworkSnapshot) : NetworkView * Result bool NetError :=
  if bool_decide (v_projected v = Some (ns_revision source)) && negb (is_closed (ns_state source)) then (v, Ok false)
  else view_import v source true.

(** ** Observers: the event queues of a view *)

Abbreviation ViewId := nat (only parsing).
Abbreviation ObserverId := nat (only parsing).

(** [ob_accepted] are the events the queue ever took, [ob_received] those the receiver was
    given; the statements speak of them, the code does not keep them. *)
Record Observer := mkObserver {
  ob_registration : EventRegistration;
  ob_state : EventState NetworkEvent ();
  ob_accepted : list NetworkEvent;
  ob_received : list NetworkEvent;
}.

#[export] Instance Observer_settable : Settable Observer :=
  fields! mkObserver [ ob_registration; ob_state; ob_accepted; ob_received ].

Abbreviation Observers := (gmap ObserverId Observer) (only parsing).
Abbreviation EventNotice := (EventPublication NetworkEvent ()) (only parsing).

(** [EventPublication::result] *)
Definition event_result (p : EventNotice) : Result () NetError := let? accepted := ep_result p in admission_result accepted.

(** [prepare_try_publish] *)
Definition observer_publish {layout : EventLayout} (o : Observer) (event : NetworkEvent) : Observer * EventNotice :=
  let '(state, p) := commit_publish (ob_registration o) true (ob_state o) (mkEntry event (event_size event) None) in
  (o <| ob_state := state; ob_accepted ::= fun l => if is_ok (event_result p) then l ++ [event] else l |>, p).

(** [prepare_fail] and [prepare_finish] *)
Definition observer_finish (o : Observer) (failure : option NetError) : Observer * EventNotice :=
  let '(state, p) := prepare_finish (ob_state o) failure in (o <| ob_state := state |>, p).

Definition finish_observer (os : Observers) (id : ObserverId) (failure : option NetError) : Observers * list (ObserverId * EventNotice) :=
  match os !! id with
  | Some o => let '(o, p) := observer_finish o failure in (<[id := o]> os, [(id, p)])
  | None => (os, [])
  end.

Fixpoint finish_observers (os : Observers) (ids : list ObserverId) (failure : option NetError) :
    Observers * list (ObserverId * EventNotice) :=
  match ids with
  | [] => (os, [])
  | id :: ids =>
      let '(os, ps) := finish_observer os id failure in
      let '(os, qs) := finish_observers os ids failure in
      (os, ps ++ qs)
  end.

(** ** A coordinated view *)

Record CoordinatedView := mkCoordinatedView {
  cv_view : NetworkView;
  cv_source_revision : Z;
  cv_sequence : Z;
  cv_failure : option NetError;
  cv_publisher : SourceState NetworkSnapshot;
  cv_events : list ObserverId;
  cv_invalidation_epoch : Z;
  cv_invalidated : Z;
}.

#[export] Instance CoordinatedView_settable : Settable CoordinatedView :=
  fields! mkCoordinatedView [ cv_view; cv_source_revision; cv_sequence; cv_failure; cv_publisher; cv_events;
    cv_invalidation_epoch; cv_invalidated ].

Definition CoordinatedView_new : CoordinatedView :=
  mkCoordinatedView NetworkView_new 0 0 None (source_new (v_snapshot NetworkView_new)) [] 0 0.

(** [ViewPublication]: what is dispatched when the locks are released. *)
Record ViewPublication := mkViewPublication {
  vp_state : option (StatePublication NetworkSnapshot);
  vp_terminal : option (StatePublication NetworkSnapshot);
  vp_events : list (ObserverId * EventNotice);
  vp_retired : list ObserverId;
  vp_terminal_publishers : option (list ObserverId);
  vp_terminal_failure : option NetError;
  vp_invalidation : option Z;
}.

#[export] Instance ViewPublication_settable : Settable ViewPublication :=
  fields! mkViewPublication [ vp_state; vp_terminal; vp_events; vp_retired; vp_terminal_publishers; vp_terminal_failure;
    vp_invalidation ].

Definition ViewPublication_empty : ViewPublication := mkViewPublication None None [] [] None None None.

(** [CoordinatedView::event] *)
Definition cv_event (cv : CoordinatedView) (kind : NetworkEventKind) : NetworkEvent :=
  mkNetworkEvent (cv_sequence cv) (v_generation (cv_view cv)) (cv_source_revision cv) (v_snapshot (cv_view cv)) kind.

(** [CoordinatedView::invalidate] *)
Definition cv_invalidate (cv : CoordinatedView) (p : ViewPublication) : CoordinatedView * ViewPublication :=
  let epoch := Z.min u64_max (cv_invalidation_epoch cv + 1) in
  (cv <| cv_invalidation_epoch := epoch |>, p <| vp_invalidation := Some epoch |>).

(** [CoordinatedView::fail] *)
Definition cv_fail (cv : CoordinatedView) (error : NetError) (p : ViewPublication) : CoordinatedView * ViewPublication :=
  if is_some (cv_failure cv) then (cv, p)
  else
    let '(cv, p) := cv_invalidate cv p in
    let '(publisher, terminal) := prepare_failure (cv_publisher cv) error in
    let s := v_snapshot (cv_view cv) in
    (cv <| cv_failure := Some error; cv_publisher := publisher; cv_events := [];
           cv_view := (cv_view cv) <| v_active := false;
             v_snapshot := bare_snapshot (ns_revision s) (ns_loss_epoch s) MonitorState.Closed |> |>,
     p <| vp_terminal := Some terminal; vp_terminal_publishers := Some (cv_events cv); vp_terminal_failure := Some error |>).

(** The kind of the event [prepare] publishes for a new snapshot, if any. *)
Definition event_kind_of (previous current : NetworkSnapshot) (activated : bool) : option NetworkEventKind :=
  if is_running (ns_state current) then
    match ns_reachability previous, ns_reachability current with
    | before, Some now =>
        if activated || negb (is_running (ns_state previous)) then Some NetworkEventKind.ObservationReady
        else match before with
             | Some before => if bool_decide (before <> now) then Some (NetworkEventKind.ReachabilityChanged before now) else None
             | None => None
             end
    | _, None => None
    end
  else if activated || negb (discriminant (ns_state previous) =? discriminant (ns_state current))
  then Some NetworkEventKind.LifecycleChanged
  else None.

(** The loop of [prepare] over the queues: those that stay, what is dispatched, those retired. *)
Fixpoint offer_event {layout : EventLayout} (os : Observers) (event : NetworkEvent) (ids : list ObserverId) :
    Observers * list ObserverId * list (ObserverId * EventNotice) * list ObserverId :=
  match ids with
  | [] => (os, [], [], [])
  | id :: ids =>
      match os !! id with
      | None => offer_event os event ids
      | Some o =>
          if negb (eactive (ob_state o)) then
            let '(os, kept, ps, retired) := offer_event os event ids in (os, kept, ps, id :: retired)
          else
            let '(o, queued) := observer_publish o event in
            match event_result queued with
            | Ok _ =>
                let '(os, kept, ps, retired) := offer_event (<[id := o]> os) event ids in
                (os, id :: kept, (id, queued) :: ps, retired)
            | Err error =>
                let '(o, failed) := observer_finish o (Some error) in
                let '(os, kept, ps, retired) := offer_event (<[id := o]> os) event ids in
                (os, kept, (id, queued) :: (id, failed) :: ps, id :: retired)
            end
      end
  end.

(** [prepare] for the snapshot itself: a closed view publishes its last one. *)
Definition publish_snapshot (reserve : bool) (cv : CoordinatedView) (p : ViewPublication) :
    CoordinatedView * ViewPublication * option NetError :=
  let snapshot := v_snapshot (cv_view cv) in
  let '(publisher, state) := if view_closed (cv_view cv) then prepare_finish_value (cv_publisher cv) snapshot
                             else prepare_value reserve (cv_publisher cv) snapshot in
  (cv <| cv_publisher := publisher |>, p <| vp_state := Some state |>,
   match sp_result state with Err error => Some error | Ok _ => None end).

(** [prepare] for the event. *)
Definition publish_event {layout : EventLayout} (os : Observers) (cv : CoordinatedView) (kind : NetworkEventKind)
    (p : ViewPublication) : Observers * CoordinatedView * ViewPublication * bool :=
  match checked_add u64_max (cv_sequence cv) 1 with
  | None => let '(cv, p) := cv_fail cv exhausted p in (os, cv, p, false)
  | Some sequence =>
      let cv := cv <| cv_sequence := sequence |> in
      let '(os, kept, ps, retired) := offer_event os (cv_event cv kind) (cv_events cv) in
      (os, cv <| cv_events := kept |>, p <| vp_events ::= (fun l => l ++ ps); vp_retired ::= (fun l => l ++ retired) |>, true)
  end.

(** [CoordinatedView::prepare] *)
Definition cv_prepare {layout : EventLayout} (reserve : bool) (os : Observers) (cv : CoordinatedView)
    (previous : NetworkSnapshot) (activated : bool) (p : ViewPublication) : Observers * CoordinatedView * ViewPublication :=
  let '(cv, p) := if activated || negb (is_running (ns_state (v_snapshot (cv_view cv)))) then cv_invalidate cv p else (cv, p) in
  let '(cv, p, failed) := publish_snapshot reserve cv p in
  match failed with
  | Some error => let '(cv, p) := cv_fail cv error p in (os, cv, p)
  | None =>
      let '(os, cv, p, goes_on) :=
        match event_kind_of previous (v_snapshot (cv_view cv)) activated with
        | Some kind => publish_event os cv kind p
        | None => (os, cv, p, true)
        end in
      if goes_on && view_closed (cv_view cv) then
        let '(os, ps) := finish_observers os (cv_events cv) None in
        (os, cv <| cv_events := [] |>,
         p <| vp_events ::= (fun l => l ++ ps); vp_retired ::= (fun l => l ++ cv_events cv) |>)
      else (os, cv, p)
  end.

(** ** The shared source *)

(** [NetworkStatusSnapshot]: what WebSocket tasks wait on. *)
Record Gating := mkGating { g_revision : Z; g_loss_epoch : Z; g_status : option NetworkStatus }.

Definition Gating_default : Gating := mkGating 0 0 None.

(** [SourceState] of network_status_snapshot.rs. *)
Record NetSource := mkNetSource {
  s_generation : Z;
  s_active : bool;
  s_revision : Z;
  s_loss_epoch : Z;
  s_snapshot : NetworkSnapshot;
  s_gating : Gating;
  s_error : option NetError;
  s_views : list ViewId;
  s_last_sample_id : Z;
}.

#[export] Instance NetSource_settable : Settable NetSource :=
  fields! mkNetSource [ s_generation; s_active; s_revision; s_loss_epoch; s_snapshot; s_gating; s_error; s_views;
    s_last_sample_id ].

(** [NetworkStatusSource] with the stores: [n_gate], [n_facts] and [n_failure] are the values of
    its watch channels.  [n_history] are the snapshots it committed and [n_samples] the samples it
    took, for the statements. *)
Record Net := mkNet {
  n_source : NetSource;
  n_publisher : SourceState NetworkSnapshot;
  n_gate : Gating;
  n_facts : NetworkSnapshot;
  n_failed : option NetError;
  n_views : gmap ViewId CoordinatedView;
  n_observers : Observers;
  n_history : list NetworkSnapshot;
  n_samples : list Z;
}.

#[export] Instance Net_settable : Settable Net :=
  fields! mkNet [ n_source; n_publisher; n_gate; n_facts; n_failed; n_views; n_observers; n_history; n_samples ].

Definition first_snapshot : NetworkSnapshot := bare_snapshot 0 0 MonitorState.Stopped.

(** [NetworkStatusSource::new] *)
Definition Net_new : Net :=
  mkNet (mkNetSource 0 false 0 0 first_snapshot Gating_default None [] 0) (source_new first_snapshot) Gating_default first_snapshot
    None ∅ ∅ [first_snapshot] [].

(** The answers of the allocator: for the state of the source, and for the publication and the
    state of each view. *)
Record Alloc := mkAlloc { al_source : bool; al_reserve : ViewId -> bool; al_state : ViewId -> bool }.

(** [NetworkPublication] *)
Record NetworkPublication := mkNetworkPublication {
  np_state : option (StatePublication NetworkSnapshot);
  np_terminal : option (StatePublication NetworkSnapshot);
  np_result : Result () NetError;
  np_views : list (ViewId * ViewPublication);
}.

Definition NetworkPublication_empty : NetworkPublication := mkNetworkPublication None None (Ok tt) [].

Definition increment (value : Z) : Result Z NetError := ok_or (checked_add u64_max value 1) (NetError_new ErrorKind.Internal).

Definition same_observation (s : NetworkSnapshot) (reachability : NetworkStatus) (ip_stack : option IpStack) : bool :=
  is_running (ns_state s) && bool_decide (ns_reachability s = Some reachability) && bool_decide (ns_ip_stack s = ip_stack) &&
  is_none (ns_network_name s).

Definition next_snapshot (s : NetSource) (target : MonitorState) (reachability : option NetworkStatus) (ip_stack : option IpStack)
    (observed_at : option Z) : Result NetworkSnapshot NetError :=
  let? revision := increment (s_revision s) in
  let? loss_epoch :=
    if bool_decide (reachability = Some NetworkStatus.Unavailable) && bool_decide (ns_reachability (s_snapshot s) <> reachability)
    then increment (s_loss_epoch s) else Ok (s_loss_epoch s) in
  Ok (mkNetworkSnapshot revision loss_epoch target reachability ip_stack observed_at None).

Section Source.
Context {layout : EventLayout}.

(** One view of [project_views]. *)
Definition project_view (al : Alloc) (source : NetSource) (failure : option NetError) (os : Observers) (id : ViewId)
    (cv : CoordinatedView) : Observers * CoordinatedView * ViewPublication :=
  let p := ViewPublication_empty in
  if view_closed (cv_view cv) then (os, cv, p)
  else
    let previous := v_snapshot (cv_view cv) in
    if negb (al_reserve al id) then let '(cv, p) := cv_fail cv allocation_error p in (os, cv, p)
    else
      match failure with
      | Some error => let '(cv, p) := cv_fail cv error p in (os, cv, p)
      | None =>
          let '(v, result) := view_import (cv_view cv) (s_snapshot source) false in
          let cv := cv <| cv_view := v |> in
          match result with
          | Ok true => cv_prepare (al_state al id) os (cv <| cv_source_revision := s_revision source |>) previous false p
          | Ok false => (os, cv, p)
          | Err error => let '(cv, p) := cv_fail cv error p in (os, cv, p)
          end
      end.

Fixpoint project_loop (al : Alloc) (failure : option NetError) (n : Net) (ids : list ViewId) : Net * list (ViewId * ViewPublication) :=
  match ids with
  | [] => (n, [])
  | id :: ids =>
      match n_views n !! id with
      | None => project_loop al failure n ids
      | Some cv =>
          let '(os, cv, p) := project_view al (n_source n) failure (n_observers n) id cv in
          let '(n, ps) := project_loop al failure (n <| n_observers := os; n_views ::= <[id := cv]> |>) ids in
          (n, (id, p) :: ps)
      end
  end.

(** [project_views]: views that are gone are forgotten. *)
Definition project_views (al : Alloc) (failure : option NetError) (n : Net) : Net * list (ViewId * ViewPublication) :=
  let alive := filter (fun id => is_Some (n_views n !! id)) (s_views (n_source n)) in
  let n := n <| n_source ::= (fun s => s <| s_views := alive |>) |> in
  project_loop al failure n alive.

(** [fail_publication] *)
Definition fail_publication (al : Alloc) (n : Net) (error : NetError) (original : option (StatePublication NetworkSnapshot)) :
    Net * NetworkPublication :=
  let '(publisher, terminal) := prepare_failure (n_publisher n) error in
  let s := n_source n in
  let gating := if is_some (g_status (s_gating s))
                then mkGating (default (g_revision (s_gating s)) (checked_add u64_max (g_revision (s_gating s)) 1)) (s_loss_epoch s) None
                else s_gating s in
  let n := n <| n_publisher := publisher; n_failed := Some error;
                n_source := s <| s_active := false; s_error := Some error; s_gating := gating |>;
                n_gate := if is_some (g_status (s_gating s)) then gating else n_gate n |> in
  let '(n, views) := project_views al (Some error) n in
  (n, mkNetworkPublication original (Some terminal) (Err error) views).

(** The gating of [commit]: a new version when the reachability changes. *)
Definition next_gating (s : NetSource) (next : NetworkSnapshot) : Result (option Gating) NetError :=
  if bool_decide (g_status (s_gating s) <> ns_reachability next) then
    let? revision := increment (g_revision (s_gating s)) in
    Ok (Some (mkGating revision (ns_loss_epoch next) (ns_reachability next)))
  else Ok None.

(** [commit] *)
Definition net_commit (al : Alloc) (n : Net) (next : NetworkSnapshot) (closing : bool) : Net * NetworkPublication :=
  match next_gating (n_source n) next with
  | Err error => fail_publication al n error None
  | Ok gating =>
      let '(publisher, publication) := if closing then prepare_finish_value (n_publisher n) next
                                       else prepare_value (al_source al) (n_publisher n) next in
      let n := n <| n_publisher := publisher |> in
      match sp_result publication with
      | Err error => fail_publication al n error (Some publication)
      | Ok _ =>
          let n := n <| n_source ::= (fun s => s <| s_revision := ns_revision next; s_loss_epoch := ns_loss_epoch next;
                                                   s_snapshot := next; s_gating := default (s_gating s) gating |>);
                        n_gate := default (n_gate n) gating; n_history ::= (fun l => l ++ [next]) |> in
          let '(n, views) := project_views al None n in
          (n <| n_facts := s_snapshot (n_source n) |>, mkNetworkPublication (Some publication) None (Ok tt) views)
      end
  end.

(** [NetworkStatusSource::fail] *)
Definition source_fail (al : Alloc) (n : Net) (error : NetError) : Net * NetworkPublication :=
  if is_closed (ns_state (s_snapshot (n_source n))) then (n, NetworkPublication_empty) else fail_publication al n error None.

(** [NetworkStatusSource::snapshot] *)
Definition source_snapshot (n : Net) : Result NetworkSnapshot NetError :=
  match s_error (n_source n) with Some error => Err error | None => Ok (s_snapshot (n_source n)) end.

(** [new_view]; [reserve] answers for the vector of views. *)
Definition new_view (reserve : bool) (n : Net) (id : ViewId) : Net * Result () NetError :=
  let s := n_source n in
  if is_closed (ns_state (s_snapshot s)) then (n, Err (NetError_new ErrorKind.Closed))
  else
    match s_error s with
    | Some error => (n, Err error)
    | None =>
        let alive := filter (fun id => is_Some (n_views n !! id)) (s_views s) in
        if negb reserve then (n <| n_source := s <| s_views := alive |> |>, Err allocation_error)
        else (n <| n_source := s <| s_views := alive ++ [id] |>; n_views ::= <[id := CoordinatedView_new]> |>, Ok tt)
    end.

(** [begin_generation]: the generation of the publisher it hands out. *)
Definition begin_generation (al : Alloc) (n : Net) : Net * Result (Z * NetworkPublication) NetError :=
  let s := n_source n in
  match s_error s with
  | Some error => (n, Err error)
  | None =>
      if is_closed (ns_state (s_snapshot s)) then (n, Err (NetError_new ErrorKind.Closed))
      else
        match (let? generation := increment (s_generation s) in
               let? next := next_snapshot s MonitorState.Starting None None None in
               Ok (generation, next)) with
        | Err error => (n, Err error)
        | Ok (generation, next) =>
            let '(n, publication) := net_commit al (n <| n_source := s <| s_generation := generation |> |>) next false in
            let n := if is_ok (np_result publication) then n <| n_source ::= (fun s => s <| s_active := true |>) |>
                     else n <| n_source ::= (fun s' => s' <| s_generation := s_generation s |>) |> in
            (n, Ok (generation, publication))
        end
  end.

(** [prepare_terminal] *)
Definition prepare_terminal (al : Alloc) (n : Net) (permanent : bool) : Net * NetworkPublication :=
  let s := n_source n in
  match s_error s with
  | Some error => (n, mkNetworkPublication None None (Err error) [])
  | None =>
      if is_closed (ns_state (s_snapshot s)) || (negb permanent && is_stopped (ns_state (s_snapshot s)))
      then (n, NetworkPublication_empty)
      else
        match next_snapshot s (if permanent then MonitorState.Closed else MonitorState.Stopped) None None None with
        | Err error => fail_publication al n error None
        | Ok next =>
            let '(n, publication) := net_commit al n next permanent in
            (n <| n_source ::= (fun s => s <| s_active := false |>) |>, publication)
        end
  end.

(** ** Publishers of a generation *)

(** A publisher of an older generation, or of one that ended, is ignored. *)
Definition stale (s : NetSource) (generation : Z) : bool :=
  negb (s_generation s =? generation) || negb (s_active s) || is_closed (ns_state (s_snapshot s)).

(** [prepare_observation] *)
Definition prepare_observation (al : Alloc) (n : Net) (generation : Z) (reachability : NetworkStatus) (ip_stack : option IpStack)
    (now : Z) : Net * NetworkPublication :=
  let s := n_source n in
  if stale s generation then (n, NetworkPublication_empty)
  else if is_running (ns_state (s_snapshot s)) && bool_decide (ns_reachability (s_snapshot s) = Some reachability) &&
          bool_decide (ns_ip_stack (s_snapshot s) = ip_stack)
  then (n, NetworkPublication_empty)
  else
    match next_snapshot s MonitorState.Running (Some reachability) ip_stack (Some now) with
    | Err error => fail_publication al n error None
    | Ok next => net_commit al n next false
    end.

(** The end of [prepare_sampled_observation] and of [commit_refresh]: a sample is taken. *)
Definition take_sample (al : Alloc) (n : Net) (sample_id : Z) (reachability : NetworkStatus) (ip_stack : option IpStack)
    (observed_at : Z) : Net * Result NetworkPublication NetError :=
  let n := n <| n_source ::= (fun s => s <| s_last_sample_id := sample_id |>); n_samples ::= (fun l => l ++ [sample_id]) |> in
  if same_observation (s_snapshot (n_source n)) reachability ip_stack then (n, Ok NetworkPublication_empty)
  else
    match next_snapshot (n_source n) MonitorState.Running (Some reachability) ip_stack (Some observed_at) with
    | Err error => (n, Err error)
    | Ok next => let '(n, publication) := net_commit al n next false in (n, Ok publication)
    end.

(** [prepare_sampled_observation]; [validate] is the answer of the closure. *)
Definition prepare_sampled_observation (al : Alloc) (n : Net) (generation sample_id : Z) (reachability : NetworkStatus)
    (ip_stack : option IpStack) (observed_at : Z) (validate : Result bool NetError) :
    Net * Result (option NetworkPublication) NetError :=
  let s := n_source n in
  if stale s generation || (sample_id <=? s_last_sample_id s) then (n, Ok None)
  else
    match validate with
    | Err error => (n, Err error)
    | Ok false => (n, Ok None)
    | Ok true =>
        let '(n, result) := take_sample al n sample_id reachability ip_stack observed_at in
        (n, let? publication := result in Ok (Some publication))
    end.

(** [NetworkStatusPublisher::prepare_finish] *)
Definition observation_finish (al : Alloc) (n : Net) (generation : Z) (target : MonitorState) : Net * NetworkPublication :=
  let s := n_source n in
  match target with
  | MonitorState.Stopped | MonitorState.Failed _ =>
      if stale s generation then (n, NetworkPublication_empty)
      else
        match next_snapshot s target None None None with
        | Err error => fail_publication al n error None
        | Ok next =>
            let '(n, publication) := net_commit al n next false in
            (n <| n_source ::= (fun s => s <| s_active := false |>) |>, publication)
        end
  | _ => (n, mkNetworkPublication None None (Err (NetError_new ErrorKind.InvalidInput)) [])
  end.

(** ** Handles of a view *)

(** [current] *)
Definition handle_current (cv : CoordinatedView) : Result NetworkView NetError :=
  match cv_failure cv with Some error => Err error | None => Ok (cv_view cv) end.

Definition set_view (n : Net) (id : ViewId) (os : Observers) (cv : CoordinatedView) : Net :=
  n <| n_observers := os; n_views ::= <[id := cv]> |>.

(** [activate] *)
Definition handle_activate (al : Alloc) (n : Net) (id : ViewId) (cv : CoordinatedView) : Net * Result (Z * ViewPublication) NetError :=
  let s := n_source n in
  match s_error s, cv_failure cv with
  | Some error, _ => (n, Err error)
  | None, Some error => (n, Err error)
  | None, None =>
      if negb (al_reserve al id) then (n, Err allocation_error)
      else
        let previous := v_snapshot (cv_view cv) in
        match view_activate (cv_view cv) (s_snapshot s) with
        | (v, Err error) => (n, Err error)
        | (v, Ok _) =>
            let '(os, cv, p) := cv_prepare (al_state al id) (n_observers n)
                                  (cv <| cv_view := v; cv_source_revision := s_revision s |>) previous true ViewPublication_empty in
            (set_view n id os cv, Ok (v_generation (cv_view cv), p))
        end
  end.

(** [retire] *)
Definition handle_retire (al : Alloc) (n : Net) (id : ViewId) (cv : CoordinatedView) (permanent : bool) (failure : option NetError) :
    Net * ViewPublication :=
  if view_closed (cv_view cv) then (n, ViewPublication_empty)
  else
    let previous := v_snapshot (cv_view cv) in
    let p := ViewPublication_empty in
    let '(os, cv, p) :=
      if negb (al_reserve al id) then let '(cv, p) := cv_fail cv allocation_error p in (n_observers n, cv, p)
      else
        match failure with
        | Some error => let '(cv, p) := cv_fail cv error p in (n_observers n, cv, p)
        | None =>
            let '(v, result) := view_stop (cv_view cv) permanent in
            let cv := cv <| cv_view := v |> in
            match result with
            | Ok true => cv_prepare (al_state al id) (n_observers n) cv previous false p
            | Ok false => (n_observers n, cv, p)
            | Err error => let '(cv, p) := cv_fail cv error p in (n_observers n, cv, p)
            end
        end in
    (set_view n id os cv, p).

(** [refresh_latest] *)
Definition handle_refresh (al : Alloc) (n : Net) (id : ViewId) (cv : CoordinatedView) : Net * Result ViewPublication NetError :=
  let p := ViewPublication_empty in
  match cv_failure cv with
  | Some error => (n, Err error)
  | None =>
      if view_closed (cv_view cv) then (n, Ok p)
      else
        match s_error (n_source n) with
        | Some error => (n, Err error)
        | None =>
            match view_refresh (cv_view cv) (s_snapshot (n_source n)) with
            | (_, Err error) => (n, Err error)
            | (v, Ok false) => (set_view n id (n_observers n) (cv <| cv_view := v |>), Ok p)
            | (v, Ok true) =>
                let '(cv, p, failed) := publish_snapshot (al_state al id)
                                          (cv <| cv_view := v; cv_source_revision := s_revision (n_source n) |>) p in
                let '(cv, p) := match failed with Some error => cv_fail cv error p | None => (cv, p) end in
                (set_view n id (n_observers n) cv, Ok p)
            end
        end
  end.

(** The queues that still have a receiver. *)
Definition live_observers (os : Observers) (ids : list ObserverId) : list ObserverId :=
  filter (fun id => is_Some (os !! id) /\ is_some_and (os !! id) (fun o => eactive (ob_state o)) = true) ids.

(** [subscribe_events]: [permit] answers for the quota, [max_permits] is the bound of the
    semaphores, [reserve] the answers of the allocator for the channel, for the publication and
    for the list of queues. *)
Definition handle_subscribe (max_permits : Z) (permit : bool) (reserve : bool * bool * bool) (n : Net) (id : ViewId) (cv : CoordinatedView)
    (capacity max_bytes : Z) (observer : ObserverId) : Net * Result () NetError :=
  if negb permit then (n, Err (NetError_new ErrorKind.SubscriptionLimitReached))
  else
    match event_channel (T := NetworkEvent) (R := ()) max_permits reserve.1.1 (mkEventQueueLimit capacity max_bytes)
            EventOverflow.Disconnect true with
    | Err error => (n, Err error)
    | Ok (registration, state) =>
        let closed := view_closed (cv_view cv) in
        if negb reserve.1.2 then (n, Err allocation_error)
        else
          let cv := cv <| cv_events ::= live_observers (n_observers n) |> in
          if negb closed && negb reserve.2 then (set_view n id (n_observers n) cv, Err allocation_error)
          else
            let initial := cv_event cv NetworkEventKind.Initial in
            let '(state, prepared) := commit_seed registration state
                (mkEventSeed [(initial, event_size initial)] 0 closed (cv_failure cv)) in
            match event_result prepared with
            | Err error => (set_view n id (n_observers n) cv, Err error)
            | Ok _ =>
                let o := mkObserver registration state [initial] [] in
                (set_view n id (<[observer := o]> (n_observers n))
                   (if closed then cv else cv <| cv_events ::= (fun l => l ++ [observer]) |>), Ok tt)
            end
    end.

(** [NetworkRefreshTarget] *)
Record RefreshTarget := mkRefreshTarget { rt_owner_generation : Z; rt_source_generation : Z; rt_invalidation_epoch : Z }.

(** What [refresh_target] and [commit_refresh] require of a view and of the source. *)
Definition both_running (s : NetSource) (cv : CoordinatedView) : bool :=
  v_active (cv_view cv) && s_active s && is_running (ns_state (v_snapshot (cv_view cv))) && is_running (ns_state (s_snapshot s)).

(** [refresh_target] *)
Definition refresh_target (n : Net) (cv : CoordinatedView) : Result RefreshTarget NetError :=
  let s := n_source n in
  match cv_failure cv with
  | Some error => Err error
  | None =>
      if view_closed (cv_view cv) || is_closed (ns_state (s_snapshot s)) then Err (NetError_new ErrorKind.Closed)
      else if negb (both_running s cv) then Err (NetError_new ErrorKind.NotRunning)
      else Ok (mkRefreshTarget (v_generation (cv_view cv)) (s_generation s) (cv_invalidation_epoch cv))
  end.

(** [NetworkRefreshTarget::invalidated], once polled. *)
Definition target_invalidated (target : RefreshTarget) (cv : CoordinatedView) : bool := rt_invalidation_epoch target <? cv_invalidated cv.

(** [commit_refresh]; [validate] is the answer of the closure.  The stack the platform reports is
    not used. *)
Definition commit_refresh (al : Alloc) (n : Net) (id : ViewId) (cv : CoordinatedView) (target : RefreshTarget) (sample_id : Z)
    (reachability : NetworkStatus) (observed_at : Z) (validate : Result () NetError) :
    Net * Result (Result NetworkSnapshot NetError * NetworkPublication) NetError :=
  let s := n_source n in
  match cv_failure cv with
  | Some error => (n, Err error)
  | None =>
      if view_closed (cv_view cv) || is_closed (ns_state (s_snapshot s)) then (n, Err (NetError_new ErrorKind.Closed))
      else if negb (rt_owner_generation target =? v_generation (cv_view cv)) || negb (rt_source_generation target =? s_generation s) ||
              negb (both_running s cv) || (sample_id <=? s_last_sample_id s)
      then (n, Err (NetError_new ErrorKind.Cancelled))
      else
        match validate with
        | Err error => (n, Err error)
        | Ok _ =>
            let '(n, result) := take_sample al n sample_id reachability (ns_ip_stack (s_snapshot s)) observed_at in
            match result with
            | Err error => (n, Err error)
            | Ok publication =>
                let snapshot := match n_views n !! id with
                                | Some cv => let? v := handle_current cv in Ok (v_snapshot v)
                                | None => Err (NetError_new ErrorKind.Internal)
                                end in
                (n, Ok (snapshot, publication))
            end
        end
  end.

(** ** After the locks *)

(** [notify_invalidation] *)
Definition notify_invalidation (cv : CoordinatedView) (p : ViewPublication) : CoordinatedView :=
  match vp_invalidation p with
  | Some epoch => if epoch <=? cv_invalidated cv then cv else cv <| cv_invalidated := epoch |>
  | None => cv
  end.

(** [ViewPublication::dispatch]: the observers of a failed view end with its error, and the
    publishers that were retired are dropped.  Receivers of the state are told in StateStream. *)
Definition dispatch_view (n : Net) (id : ViewId) (p : ViewPublication) : Net :=
  let n := n <| n_views ::= alter (fun cv => notify_invalidation cv p) id |> in
  let '(os, _) := finish_observers (n_observers n) (default [] (vp_terminal_publishers p)) (vp_terminal_failure p) in
  let '(os, _) := finish_observers os (vp_retired p) None in
  n <| n_observers := os |>.

(** The last handle of a view is gone, and its publishers with it. *)
Definition drop_view (n : Net) (id : ViewId) : Net :=
  match n_views n !! id with
  | Some cv =>
      let '(os, _) := finish_observers (n_observers n) (cv_events cv) None in
      n <| n_views ::= delete id; n_observers := os |>
  | None => n
  end.

(** A receiver polls, or is dropped. *)
Definition observer_poll (o : Observer) : Observer :=
  let '(state, _, received) := poll_next (ob_state o) in
  o <| ob_state := state; ob_received ::= fun l => match received with RItem event => l ++ [event] | _ => l end |>.

Definition observer_drop (o : Observer) : Observer := o <| ob_state ::= fun s => (unsubscribe s).1.1 |>.

(** ** Everything that happens to the source, in any order *)

Inductive NetOp :=
| NNewView (reserve : bool)
| NDropView (id : ViewId)
| NFail (al : Alloc) (error : NetError)
| NBegin (al : Alloc)
| NTerminate (al : Alloc) (permanent : bool)
| NObserve (al : Alloc) (generation : Z) (reachability : NetworkStatus) (ip_stack : option IpStack) (now : Z)
| NSample (al : Alloc) (generation sample_id : Z) (reachability : NetworkStatus) (ip_stack : option IpStack) (observed_at : Z)
    (validate : Result bool NetError)
| NFinish (al : Alloc) (generation : Z) (target : MonitorState)
| NActivate (al : Alloc) (id : ViewId)
| NRetire (al : Alloc) (id : ViewId) (permanent : bool) (failure : option NetError)
| NRefreshLatest (al : Alloc) (id : ViewId)
| NSubscribe (max_permits : Z) (permit : bool) (reserve : bool * bool * bool) (id : ViewId) (capacity max_bytes : Z)
| NCommitRefresh (al : Alloc) (id : ViewId) (target : RefreshTarget) (sample_id : Z) (reachability : NetworkStatus) (observed_at : Z)
    (validate : Result () NetError)
| NDispatch (index : nat)
| NPoll (observer : ObserverId)
| NDropReceiver (observer : ObserverId).

(** [w_next] is the next unused address. *)
Record NetWorld := mkNetWorld { w_net : Net; w_pending : list (ViewId * ViewPublication); w_next : nat }.

#[export] Instance NetWorld_settable : Settable NetWorld := fields! mkNetWorld [ w_net; w_pending; w_next ].

Definition NetWorld_new : NetWorld := mkNetWorld Net_new [] 0.

Definition with_views (w : NetWorld) (n : Net) (views : list (ViewId * ViewPublication)) : NetWorld :=
  w <| w_net := n; w_pending ::= fun l => l ++ views |>.

(** An operation of a handle needs its view, which the handle keeps alive. *)
Definition on_view (w : NetWorld) (id : ViewId) (f : CoordinatedView -> NetWorld) : NetWorld :=
  match n_views (w_net w) !! id with Some cv => f cv | None => w end.

Definition net_step (w : NetWorld) (op : NetOp) : NetWorld :=
  let n := w_net w in
  match op with
  | NNewView reserve => w <| w_net := (new_view reserve n (w_next w)).1; w_next ::= S |>
  | NDropView id => w <| w_net := drop_view n id |>
  | NFail al error => let '(n, p) := source_fail al n error in with_views w n (np_views p)
  | NBegin al =>
      let '(n, r) := begin_generation al n in
      with_views w n (match r with Ok (_, p) => np_views p | Err _ => [] end)
  | NTerminate al permanent => let '(n, p) := prepare_terminal al n permanent in with_views w n (np_views p)
  | NObserve al generation reachability ip_stack now =>
      let '(n, p) := prepare_observation al n generation reachability ip_stack now in with_views w n (np_views p)
  | NSample al generation sample_id reachability ip_stack observed_at validate =>
      let '(n, r) := prepare_sampled_observation al n generation sample_id reachability ip_stack observed_at validate in
      with_views w n (match r with Ok (Some p) => np_views p | _ => [] end)
  | NFinish al generation target => let '(n, p) := observation_finish al n generation target in with_views w n (np_views p)
  | NActivate al id =>
      on_view w id (fun cv =>
        let '(n, r) := handle_activate al n id cv in with_views w n (match r with Ok (_, p) => [(id, p)] | Err _ => [] end))
  | NRetire al id permanent failure =>
      on_view w id (fun cv => let '(n, p) := handle_retire al n id cv permanent failure in with_views w n [(id, p)])
  | NRefreshLatest al id =>
      on_view w id (fun cv =>
        let '(n, r) := handle_refresh al n id cv in with_views w n (match r with Ok p => [(id, p)] | Err _ => [] end))
  | NSubscribe max_permits permit reserve id capacity max_bytes =>
      on_view w id (fun cv =>
        w <| w_net := (handle_subscribe max_permits permit reserve n id cv capacity max_bytes (w_next w)).1; w_next ::= S |>)
  | NCommitRefresh al id target sample_id reachability observed_at validate =>
      on_view w id (fun cv =>
        let '(n, r) := commit_refresh al n id cv target sample_id reachability observed_at validate in
        with_views w n (match r with Ok (_, p) => np_views p | Err _ => [] end))
  | NDispatch index =>
      match w_pending w !! index with
      | Some (id, p) => w <| w_net := dispatch_view n id p; w_pending ::= delete index |>
      | None => w
      end
  | NPoll observer => w <| w_net := n <| n_observers ::= alter observer_poll observer |> |>
  | NDropReceiver observer => w <| w_net := n <| n_observers ::= alter observer_drop observer |> |>
  end.

Definition net_run (w : NetWorld) (ops : list NetOp) : NetWorld := foldl net_step w ops.

End Source.
