(* ===== verification/NetworkEvents.v ===== *)
(** * Network status: events and their queues

    What may follow what among the snapshots of the source and the events of a
    view, the invariants of a view and of an observer, and what publishing, ending
    and polling do to the queues of the observers. *)

From S2P Require Import Prelude F64 Backoff RetrySchedule RetryState Errors Dispatch EventStream StateStream NetworkSource.

(** ** What may follow what *)

(** An observation is there exactly while the monitor runs. *)
Definition observed (s : NetworkSnapshot) : Prop := is_some (ns_reachability s) = is_running (ns_state s).

(** A snapshot shows the network unavailable and the one before it did not: it showed the network
    available, or nothing was known of it (before the first observation, after a restart). *)
Definition newly_unavailable (a b : option NetworkStatus) : bool :=
  match a, b with
  | Some NetworkStatus.Unavailable, _ => false
  | _, Some NetworkStatus.Unavailable => true
  | _, _ => false
  end.

Record fact_follows (a b : NetworkSnapshot) : Prop := {
  ff_revision : ns_revision b = ns_revision a + 1;
  ff_loss : ns_loss_epoch b = ns_loss_epoch a + (if newly_unavailable (ns_reachability a) (ns_reachability b) then 1 else 0);
  ff_observed : observed b;
  ff_open : is_closed (ns_state a) = false;
}.

(** What an event says of the change since the event before it.  A lifecycle event reports
    another activation or another state of the monitor; the one exception is a stop of a view that
    was stopped already and imported a snapshot without an event in between ([refresh_latest] while it
    is inactive), which skips a revision. *)
Definition kind_truthful (a b : NetworkEvent) : Prop :=
  let before := ne_snapshot a in
  let now := ne_snapshot b in
  match ne_kind b with
  | NetworkEventKind.Initial => False
  | NetworkEventKind.ObservationReady =>
      is_running (ns_state now) = true /\ (is_running (ns_state before) = false \/ ne_generation a < ne_generation b)
  | NetworkEventKind.ReachabilityChanged p c =>
      p <> c /\ ne_generation a = ne_generation b /\ ns_reachability before = Some p /\ ns_reachability now = Some c /\
      (c = NetworkStatus.Unavailable -> ns_loss_epoch before < ns_loss_epoch now)
  | NetworkEventKind.LifecycleChanged =>
      is_running (ns_state now) = false /\
      (ne_generation a < ne_generation b \/ discriminant (ns_state before) <> discriminant (ns_state now) \/
       (is_stopped (ns_state now) = true /\ ns_revision before + 1 < ns_revision now))
  end.

Record event_follows (a b : NetworkEvent) : Prop := {
  ef_sequence : ne_sequence b = ne_sequence a + 1;
  ef_generation : ne_generation a <= ne_generation b;
  ef_source : ne_source_revision a <= ne_source_revision b;
  ef_revision : ns_revision (ne_snapshot a) < ns_revision (ne_snapshot b);
  ef_loss : ns_loss_epoch (ne_snapshot a) <= ns_loss_epoch (ne_snapshot b);
  ef_observed : observed (ne_snapshot b);
  ef_kind : kind_truthful a b;
}.

(** Every element follows the one before it. *)
Definition chain {A} (R : A -> A -> Prop) (l : list A) : Prop :=
  forall i a b, l !! i = Some a -> l !! S i = Some b -> R a b.

Lemma chain_snoc {A} (R : A -> A -> Prop) l a b : chain R l -> last l = Some a -> R a b -> chain R (l ++ [b]).
Proof.
  intros Hl Ha Hab i x y Hx Hy. apply lookup_snoc_Some in Hy as [[Hi Hy]|[Hi ->]].
  - rewrite lookup_app_l in Hx by (apply lookup_lt_Some in Hy; lia). by eapply Hl.
  - rewrite lookup_app_l in Hx by lia. rewrite last_lookup, <- Hi in Ha. simpl in Ha. by simplify_eq.
Qed.

Lemma chain_singleton {A} (R : A -> A -> Prop) a : chain R [a].
Proof. intros i x y _ Hy. by destruct i. Qed.

(** ** The invariant of a view *)

Record view_ok (snap : NetworkSnapshot) (failed : bool) (cv : CoordinatedView) : Prop := {
  vo_active : v_active (cv_view cv) = true ->
    v_snapshot (cv_view cv) = snap <| ns_revision := ns_revision (v_snapshot (cv_view cv)) |> /\
    v_source_revision (cv_view cv) = Some (ns_revision snap) /\ v_projected (cv_view cv) = Some (ns_revision snap) /\
    cv_source_revision cv = ns_revision snap;
  vo_closed : view_closed (cv_view cv) = true -> v_active (cv_view cv) = false /\ cv_events cv = [];
  vo_failure : is_some (cv_failure cv) = true -> view_closed (cv_view cv) = true;
  vo_ended : failed || is_closed (ns_state snap) = true -> view_closed (cv_view cv) = true;
  vo_imported : default 0 (v_source_revision (cv_view cv)) <= ns_revision snap;
  vo_source : cv_source_revision cv <= ns_revision snap;
  vo_loss : ns_loss_epoch (v_snapshot (cv_view cv)) <= ns_loss_epoch snap;
  vo_observed : observed (v_snapshot (cv_view cv));
}.

(** The last event of an observer, against its view. *)
Record linked (cv : CoordinatedView) (e : NetworkEvent) : Prop := {
  li_sequence : ne_sequence e = cv_sequence cv;
  li_generation : ne_generation e <= v_generation (cv_view cv);
  li_source : ne_source_revision e <= cv_source_revision cv;
  li_revision : ns_revision (ne_snapshot e) <= ns_revision (v_snapshot (cv_view cv));
  li_same : ns_revision (ne_snapshot e) = ns_revision (v_snapshot (cv_view cv)) -> ne_snapshot e = v_snapshot (cv_view cv);
  li_open : view_closed (cv_view cv) = false -> is_closed (ns_state (ne_snapshot e)) = false;
  li_loss : ns_loss_epoch (ne_snapshot e) <= ns_loss_epoch (v_snapshot (cv_view cv));
  li_active : v_active (cv_view cv) = true ->
    ne_generation e = v_generation (cv_view cv) /\ ns_reachability (ne_snapshot e) = ns_reachability (v_snapshot (cv_view cv)) /\
    discriminant (ns_state (ne_snapshot e)) = discriminant (ns_state (v_snapshot (cv_view cv)));
}.

(** ** The invariant of an observer *)

Record observer_ok (o : Observer) : Prop := {
  oo_policy : ereg_overflow (ob_registration o) = EventOverflow.Disconnect;
  oo_chain : chain event_follows (ob_accepted o);
  oo_first : exists e l, ob_accepted o = e :: l /\ ne_kind e = NetworkEventKind.Initial;
  oo_lagged : lagged (ob_state o) = 0;
  oo_queue : eactive (ob_state o) = true -> ob_received o ++ map value (equeue (ob_state o)) = ob_accepted o;
  oo_detached : eactive (ob_state o) = false -> equeue (ob_state o) = [];
  oo_prefix : exists rest, ob_accepted o = ob_received o ++ rest;
}.

(** The queues of a view that have a receiver hold its last event, of which [P] speaks. *)
Record holds_last (P : NetworkEvent -> Prop) (os : gmap nat Observer) (ids : list nat) : Prop := {
  hl_nodup : NoDup ids;
  hl_last : forall id, id ∈ ids -> exists o, os !! id = Some o /\
    (eactive (ob_state o) = true -> exists e, last (ob_accepted o) = Some e /\ P e);
}.

Definition observers_ok (os : gmap nat Observer) : Prop := map_Forall (fun _ o => observer_ok o) os.

(** Only the queues [ids] change. *)
Definition only_queues (ids : list nat) (os os' : gmap nat Observer) : Prop :=
  (forall id, id ∉ ids -> os' !! id = os !! id) /\ dom os' = dom os.

Lemma only_queues_refl ids os : only_queues ids os os.
Proof. by split. Qed.

Lemma only_queues_trans ids os1 os2 os3 : only_queues ids os1 os2 -> only_queues ids os2 os3 -> only_queues ids os1 os3.
Proof. intros [H1 D1] [H2 D2]. split; [|congruence]. intros id Hid. by rewrite H2, H1. Qed.

Lemma only_queues_mono ids ids' os os' : ids ⊆ ids' -> only_queues ids os os' -> only_queues ids' os os'.
Proof. intros Hs [H D]. split; [|done]. intros id Hid. apply H. set_solver. Qed.

Lemma only_queues_insert ids os id o : id ∈ ids -> is_Some (os !! id) -> only_queues ids os (<[id := o]> os).
Proof.
  intros Hid Hs. split; [intros id' Hn; rewrite lookup_insert_ne; [done|set_solver]|].
  rewrite dom_insert_L. apply elem_of_dom in Hs. set_solver.
Qed.

(** ** Queues *)

Lemma publish_ok {layout : EventLayout} o event o' p :
  observer_ok o -> eactive (ob_state o) = true -> observer_publish o event = (o', p) ->
  (forall e, last (ob_accepted o) = Some e -> event_follows e event) ->
  observer_ok o' /\ eactive (ob_state o') = true /\
  (event_result p = Ok tt -> last (ob_accepted o') = Some event).
Proof.
  intros [Hp Hc Hf Hl Hq Hd Hpre] Ha Hpub Hfol. unfold observer_publish, commit_publish, push_entry in Hpub. simpl in Hpub. rewrite Hp, Ha in Hpub.
  assert (exists e, last (ob_accepted o) = Some e) as [e He].
  { destruct Hf as (e & l & -> & _). rewrite last_cons. destruct (last l); eauto. }
  specialize (Hfol e He). specialize (Hq Ha).
  repeat (case_match; simplify_eq/=; try done);
    try (split; [constructor; simpl; try done; intros; congruence|]; by split).
  split; [|split; [done|intros _; apply last_snoc]].
  constructor; simpl; try done.
  - by eapply chain_snoc.
  - destruct Hf as (e0 & l & -> & ?). by exists e0, (l ++ [event]).
  - intros _. rewrite map_app. simpl. by rewrite app_assoc, Hq.
  - destruct Hpre as [rest ->]. exists (rest ++ [event]). by rewrite app_assoc.
Qed.

(** Ending a queue keeps what it took. *)
Lemma finish_same o failure : observer_ok o ->
  let o' := (observer_finish o failure).1 in
  observer_ok o' /\ ob_accepted o' = ob_accepted o /\ eactive (ob_state o') = eactive (ob_state o).
Proof.
  intros [Hp Hc Hf Hl Hq Hd Hpre]. unfold observer_finish, prepare_finish.
  destruct (eactive (ob_state o)) eqn:Ha, (source_closed (ob_state o)) eqn:Hs; simpl;
    (split; [constructor; simpl; rewrite ?Ha; try done; by auto|by rewrite ?Ha]).
Qed.

Lemma finish_observers_ok P ids' failure ids : forall os, observers_ok os ->
  let os' := (finish_observers os ids failure).1 in
  observers_ok os' /\ only_queues ids os os' /\ (holds_last P os ids' -> holds_last P os' ids').
Proof.
  induction ids as [|id ids IH]; intros os Hos; simpl.
  { split_and!; [done|apply only_queues_refl|done]. }
  unfold finish_observer. destruct (os !! id) as [o|] eqn:Ho.
  - destruct (finish_same o failure (Hos _ _ Ho)) as (Hok & Hacc & Hact).
    destruct (observer_finish o failure) as [o' p]. simpl in *.
    destruct (IH (<[id := o']> os)) as (H1 & H2 & H3); [by apply map_Forall_insert_2|].
    destruct (finish_observers _ ids failure) as [os' ps]. simpl in *. split_and!; [done| |].
    + apply (only_queues_trans _ _ (<[id := o']> os)); [apply only_queues_insert; [set_solver|by rewrite Ho]|]. eapply only_queues_mono; [|exact H2]. set_solver.
    + intros [Hn Hh]. apply H3. split; [done|]. intros x Hx. destruct (Hh x Hx) as (ox & Hox & Hlast).
      destruct (decide (x = id)) as [->|]; [|rewrite lookup_insert_ne by done; eauto].
      exists o'. rewrite lookup_insert_eq. simplify_eq. by rewrite Hacc, Hact.
  - destruct (IH os Hos) as (H1 & H2 & H3). destruct (finish_observers os ids failure) as [os' ps]. simpl in *.
    split_and!; [done| |done]. eapply only_queues_mono; [|exact H2]. set_solver.
Qed.

(** An event is offered to the queues of a view: those that stay have taken it. *)
Lemma offer_event_ok {layout : EventLayout} P event ids : forall os os' kept ps retired,
  observers_ok os -> holds_last P os ids -> (forall e, P e -> event_follows e event) ->
  offer_event os event ids = (os', kept, ps, retired) ->
  observers_ok os' /\ only_queues ids os os' /\ kept ⊆ ids /\ holds_last (eq event) os' kept.
Proof.
  induction ids as [|id ids IH]; intros os os' kept ps retired Hos [Hn Hh] Hfol Hoff; simpl in Hoff.
  { simplify_eq. split_and!; [done|apply only_queues_refl|done|]. split; [constructor|set_solver]. }
  apply NoDup_cons in Hn as [Hid Hn]. destruct (Hh id) as (o & Ho & Hlast); [set_solver|]. rewrite Ho in Hoff.
  assert (forall o', holds_last P (<[id := o']> os) ids) as Hrest.
  { intros o'. split; [done|]. intros x Hx. destruct (Hh x) as (ox & ? & ?); [set_solver|].
    exists ox. by rewrite lookup_insert_ne by set_solver. }
  assert (forall o' os', only_queues ids (<[id := o']> os) os' -> only_queues (id :: ids) os os') as Hfr.
  { intros o' osx Hx. apply (only_queues_trans _ _ (<[id := o']> os)); [apply only_queues_insert; [set_solver|by rewrite Ho]|]. eapply only_queues_mono; [|exact Hx]. set_solver. }
  assert (forall o', observer_ok o' -> observers_ok (<[id := o']> os)) as Hins by (intros; by apply map_Forall_insert_2).
  destruct (eactive (ob_state o)) eqn:Ha; simpl in Hoff.
  - destruct (observer_publish o event) as [o1 queued] eqn:Hpub.
    destruct (publish_ok o event o1 queued (Hos _ _ Ho) Ha Hpub) as (Hok & Ha1 & Hl1).
    { intros e He. destruct Hlast as (e' & He' & HP); [done|]. simplify_eq. by apply Hfol. }
    destruct (event_result queued) as [[]|error] eqn:Hr.
    + destruct (offer_event _ event ids) as [[[os1 k1] p1] r1] eqn:Hrec. simplify_eq.
      destruct (IH _ _ _ _ _ (Hins o1 Hok) (Hrest o1) Hfol Hrec) as (G1 & G2 & G3 & G4 & G5).
      split_and!; [done|by eapply Hfr|set_solver|]. split; [apply NoDup_cons; split; [set_solver|done]|].
      intros x [->|Hx]%elem_of_cons; [|by apply G5]. exists o1. rewrite (proj1 G2 id Hid), lookup_insert_eq. split; [done|].
      intros _. exists event. by rewrite Hl1.
    + destruct (finish_same o1 (Some error) Hok) as (Hok2 & _ & _).
      destruct (observer_finish o1 (Some error)) as [o2 failed]. simpl in Hok2.
      destruct (offer_event _ event ids) as [[[os1 k1] p1] r1] eqn:Hrec. simplify_eq.
      destruct (IH _ _ _ _ _ (Hins o2 Hok2) (Hrest o2) Hfol Hrec) as (G1 & G2 & G3 & G4).
      split_and!; [done|by eapply Hfr|set_solver|done].
  - destruct (offer_event _ event ids) as [[[os1 k1] p1] r1] eqn:Hrec. simplify_eq.
    destruct (IH os os' kept ps r1 Hos) as (G1 & G2 & G3 & G4); [|done|done|].
    { rewrite <- (insert_id _ _ _ Ho). apply Hrest. }
    split_and!; [done|eapply only_queues_mono; [|exact G2]; set_solver|set_solver|done].
Qed.

Lemma poll_ok o : observer_ok o ->
  observer_ok (observer_poll o) /\ ob_accepted (observer_poll o) = ob_accepted o /\
  (eactive (ob_state (observer_poll o)) = true -> eactive (ob_state o) = true).
Proof.
  intros [Hp Hc Hf Hl Hq Hd Hpre]. unfold observer_poll, poll_next, event_next, NetworkSource.observer_poll. simpl.
  destruct (eactive (ob_state o)) eqn:Ha; simpl.
  - rewrite Hl. simpl. specialize (Hq eq_refl). destruct (equeue (ob_state o)) as [|entry rest] eqn:Hqq; simpl.
    + destruct (pending_error (ob_state o)); simpl; [|destruct (source_closed (ob_state o)); simpl].
      * split_and!; [constructor; simpl; try done; intros; congruence|done|done].
      * unfold unsubscribe. simpl. rewrite ?Ha. simpl. split_and!; [constructor; simpl; try done|done|done].
      * split_and!; [constructor; simpl; try done; by rewrite Hqq|done|done].
    + split_and!; [constructor; simpl; try done|done|done].
      * intros _. rewrite <- Hq. by rewrite <- app_assoc.
      * exists (map value rest). rewrite <- Hq. by rewrite <- app_assoc.
  - unfold unsubscribe. simpl. rewrite ?Ha. simpl. split_and!; [constructor; simpl; try done|done|congruence].
Qed.

Lemma drop_ok o : observer_ok o ->
  observer_ok (observer_drop o) /\ ob_accepted (observer_drop o) = ob_accepted o /\ eactive (ob_state (observer_drop o)) = false.
Proof.
  intros [Hp Hc Hf Hl Hq Hd Hpre].
  assert (eactive (unsubscribe (ob_state o)).1.1 = false /\ equeue (unsubscribe (ob_state o)).1.1 = [] /\
          lagged (unsubscribe (ob_state o)).1.1 = 0) as (H1 & H2 & H3).
  { unfold unsubscribe. destruct (eactive (ob_state o)) eqn:Ha; [done|]. simpl. rewrite Ha. by split_and!; [|apply Hd|]. }
  unfold observer_drop. split_and!; [|done|done]. constructor; try done. simpl. intros. congruence.
Qed.
