(* ===== verification/NetworkTheory.v ===== *)
(** * Network status: what the views and their observers show

    The facts of the source follow each other lawfully; an active view shows the
    facts of the source; the observers of a view are given its events without a
    gap, and the events tell the truth about the change they report; a refresh
    takes effect only in the generations it was started in. *)

From S2P Require Import Prelude F64 Backoff RetrySchedule RetryState Errors Dispatch EventStream StateStream NetworkSource NetworkEvents.

(** ** Views *)

Lemma checked_succ x y : checked_add u64_max x 1 = Some y -> y = x + 1.
Proof. unfold checked_add. case_match; by intros; simplify_eq. Qed.

(** A stop, or a refusal that changes nothing. *)
Lemma view_stop_cases v permanent v' r : view_stop v permanent = (v', r) ->
  (r <> Ok true /\ v' = v /\ (permanent = true -> view_closed v = false -> is_err r = true)) \/
  (r = Ok true /\ view_closed v = false /\
   v' = v <| v_active := false; v_projected := None;
             v_snapshot := bare_snapshot (ns_revision (v_snapshot v) + 1) (ns_loss_epoch (v_snapshot v))
                             (if permanent then MonitorState.Closed else MonitorState.Stopped) |>).
Proof.
  unfold view_stop. intros H. destruct (view_closed v) eqn:Hc; simpl in H; [by left; simplify_eq|].
  destruct (negb permanent && _ && _) eqn:Hs; [left; simplify_eq; split_and!; [done|done|by intros ->]|].
  destruct (checked_add _ _ _) eqn:Ha; [right|by left; simplify_eq]. apply checked_succ in Ha. by simplify_eq.
Qed.

(** An import installs the snapshot of the source, or changes nothing. *)
Lemma view_import_cases v source force v' r : is_closed (ns_state source) = false -> view_import v source force = (v', r) ->
  (r <> Ok true /\ v' = v /\
   (r = Ok false -> view_closed v = true \/ (force = false /\ v_active v = false) \/
                    exists revision, v_source_revision v = Some revision /\ ns_revision source < revision + (if force then 0 else 1))) \/
  (r = Ok true /\ view_closed v = false /\ (force = true \/ v_active v = true) /\
   v' = v <| v_source_revision := Some (ns_revision source); v_projected := Some (ns_revision source);
             v_snapshot := source <| ns_revision := ns_revision (v_snapshot v) + 1 |> |>).
Proof.
  unfold view_import. intros Hs H. rewrite Hs in H. destruct (view_closed v) eqn:Hc; [left; simplify_eq; by auto|].
  destruct (negb force && _) eqn:Hf.
  { left. simplify_eq. split_and!; [done|done|]. intros _. destruct force; [done|]. simpl in Hf. right.
    destruct (v_active v'); [right|by left]. simpl in Hf. destruct (v_source_revision v') as [revision|]; [|done].
    simpl in Hf. exists revision. split; [done|]. lia. }
  destruct (is_some_and _ (fun revision => ns_revision source <? revision)) eqn:Ho.
  { left. simplify_eq. split_and!; [done|done|]. intros _. right. right. destruct (v_source_revision v') as [revision|]; [|done].
    simpl in Ho. exists revision. split; [done|]. destruct force; lia. }
  destruct (checked_add _ _ _) eqn:Ha; [|left; by simplify_eq]. right. apply checked_succ in Ha. simplify_eq. split_and!; try done.
  destruct force; [by left|]. right. by destruct (v_active v).
Qed.

(** A view that failed. *)
Record cv_failed (cv cv' : CoordinatedView) : Prop := {
  cf_failure : is_some (cv_failure cv') = true;
  cf_active : v_active (cv_view cv') = false;
  cf_snapshot : v_snapshot (cv_view cv') =
    bare_snapshot (ns_revision (v_snapshot (cv_view cv))) (ns_loss_epoch (v_snapshot (cv_view cv))) MonitorState.Closed;
  cf_events : cv_events cv' = [];
  cf_generation : v_generation (cv_view cv') = v_generation (cv_view cv);
  cf_imported : v_source_revision (cv_view cv') = v_source_revision (cv_view cv);
  cf_source : cv_source_revision cv' = cv_source_revision cv;
}.

Lemma cv_fail_ok cv error p : cv_failure cv = None -> cv_failed cv (cv_fail cv error p).1.
Proof. intros Hf. unfold cv_fail, prepare_failure. rewrite Hf. simpl. destruct (source_prepare _ _ _ _ _). by constructor. Qed.

(** The parts of a view that an observer is linked to. *)
Definition same_view (cv cv' : CoordinatedView) : Prop :=
  cv_view cv' = cv_view cv /\ cv_source_revision cv' = cv_source_revision cv /\ cv_failure cv' = cv_failure cv.

Lemma linked_same cv cv' e : same_view cv cv' -> cv_sequence cv' = cv_sequence cv -> linked cv e -> linked cv' e.
Proof. intros (Hv & Hs & _) Hq []. by constructor; rewrite ?Hv, ?Hs, ?Hq. Qed.

Lemma cv_event_linked cv kind : linked cv (cv_event cv kind).
Proof. by constructor. Qed.

Lemma holds_last_nil P os : holds_last P os [].
Proof. split; [constructor|set_solver]. Qed.

Lemma holds_last_impl (P Q : NetworkEvent -> Prop) os ids : holds_last P os ids -> (forall e, P e -> Q e) -> holds_last Q os ids.
Proof. intros [Hn Hh] HPQ. split; [done|]. intros id Hid. destruct (Hh id Hid) as (o & ? & Hl). exists o. naive_solver. Qed.

(** What [prepare] makes of a view. *)
Definition prepared (cv cv' : CoordinatedView) : Prop :=
  cv_failed cv cv' \/ (same_view cv cv' /\ (view_closed (cv_view cv) = true -> cv_events cv' = [])).

(** The event of a change follows what the observers had; without one they are still right. *)
Record announces (P : NetworkEvent -> Prop) (cv : CoordinatedView) (previous : NetworkSnapshot) (activated : bool) : Prop := {
  an_event kind e : event_kind_of previous (v_snapshot (cv_view cv)) activated = Some kind -> P e ->
    event_follows e (cv_event (cv <| cv_sequence := cv_sequence cv + 1 |>) kind);
  an_silent e : event_kind_of previous (v_snapshot (cv_view cv)) activated = None -> P e -> linked cv e;
}.

Record view_result (os : gmap nat Observer) (cv : CoordinatedView) (os' : gmap nat Observer) (cv' : CoordinatedView) : Prop := {
  vr_observers : observers_ok os';
  vr_frame : only_queues (cv_events cv) os os';
  vr_events : cv_events cv' ⊆ cv_events cv;
  vr_last : holds_last (linked cv') os' (cv_events cv');
}.

Lemma failed_result os cv cv' : observers_ok os -> cv_failed cv cv' -> view_result os cv os cv'.
Proof. intros Hos []. constructor; [done|apply only_queues_refl|..]; rewrite cf_events0; [set_solver|apply holds_last_nil]. Qed.

Lemma cv_fail_result os cv error p : observers_ok os -> cv_failure cv = None ->
  cv_failed cv (cv_fail cv error p).1 /\ view_result os cv os (cv_fail cv error p).1.
Proof. intros Hos Hf. split; [by apply cv_fail_ok|]. by apply failed_result, cv_fail_ok. Qed.

Lemma publish_snapshot_same reserve cv p cv' p' failed : publish_snapshot reserve cv p = (cv', p', failed) ->
  same_view cv cv' /\ cv_sequence cv' = cv_sequence cv /\ cv_events cv' = cv_events cv.
Proof. unfold publish_snapshot. destruct (if view_closed _ then _ else _). intros. by simplify_eq. Qed.

Section Layout.
Context {layout : EventLayout}.

Lemma publish_event_ok P os cv kind p os' cv' p' goes_on :
  cv_failure cv = None -> observers_ok os -> holds_last P os (cv_events cv) ->
  (forall e, P e -> event_follows e (cv_event (cv <| cv_sequence := cv_sequence cv + 1 |>) kind)) ->
  publish_event os cv kind p = (os', cv', p', goes_on) ->
  view_result os cv os' cv' /\ (if goes_on then same_view cv cv' else cv_failed cv cv').
Proof.
  intros Hf Hos Hh Hfol. unfold publish_event. destruct (checked_add _ _ _) as [sequence|] eqn:Hs.
  - apply checked_succ in Hs as ->. simpl. destruct (offer_event _ _ _) as [[[os1 kept] ps] retired] eqn:Ho. intros H. simplify_eq.
    destruct (offer_event_ok P _ _ _ _ _ _ _ Hos Hh Hfol Ho) as (H1 & H2 & H3 & H4). split; [|done].
    constructor; [done|done|done|]. simpl. eapply holds_last_impl; [exact H4|]. intros e <-. by constructor.
  - destruct (cv_fail_result os cv exhausted p Hos Hf) as [H1 H2].
    destruct (cv_fail cv exhausted p) as [cv1 p1]. intros H. by simplify_eq.
Qed.

Lemma view_result_trans os cv os1 cv1 os2 cv2 : view_result os cv os1 cv1 -> view_result os1 cv1 os2 cv2 -> view_result os cv os2 cv2.
Proof.
  intros [] []. constructor; [done| |set_solver|done]. eapply only_queues_trans; [done|]. by eapply only_queues_mono.
Qed.

Lemma finish_result os cv failure os' ps : observers_ok os -> finish_observers os (cv_events cv) failure = (os', ps) ->
  view_result os cv os' (cv <| cv_events := [] |>).
Proof.
  intros Hos H. destruct (finish_observers_ok (fun _ => True) [] failure (cv_events cv) os Hos) as (H1 & H2 & _). rewrite H in H1, H2.
  constructor; [done|done|set_solver|apply holds_last_nil].
Qed.

Lemma cv_prepare_ok P reserve os cv previous activated p os' cv' p' :
  cv_failure cv = None -> observers_ok os -> holds_last P os (cv_events cv) -> announces P cv previous activated ->
  cv_prepare reserve os cv previous activated p = (os', cv', p') -> prepared cv cv' /\ view_result os cv os' cv'.
Proof.
  intros Hf Hos Hh [Hev Hsil]. unfold cv_prepare.
  destruct (if activated || _ then cv_invalidate cv p else (cv, p)) as [cv1 p1] eqn:Hi.
  assert (same_view cv cv1 /\ cv_sequence cv1 = cv_sequence cv /\ cv_events cv1 = cv_events cv) as (S1 & Q1 & E1).
  { destruct (activated || _); unfold cv_invalidate in Hi; by simplify_eq. }
  destruct (publish_snapshot reserve cv1 p1) as [[cv2 p2] failed] eqn:Hp. apply publish_snapshot_same in Hp as (S2 & Q2 & E2).
  assert (same_view cv cv2) as Hsame by (destruct S1 as (? & ? & ?), S2 as (? & ? & ?); split_and!; congruence).
  assert (cv_sequence cv2 = cv_sequence cv) as Hseq by congruence. assert (cv_events cv2 = cv_events cv) as He by congruence.
  clear cv1 p1 Hi S1 Q1 E1 S2 Q2 E2. pose proof Hsame as (Hv & Hs & Hfl).
  assert (forall cv3, cv_failed cv2 cv3 -> cv_failed cv cv3) as Hfail.
  { intros cv3 []. constructor; congruence. }
  assert (forall os3 cv3, view_result os cv2 os3 cv3 -> view_result os cv os3 cv3) as Hres.
  { intros os3 cv3 []. constructor; rewrite <- ?He; done. }
  destruct failed as [error|].
  { destruct (cv_fail_result os cv2 error p2 Hos) as [H1 H2]; [congruence|]. destruct (cv_fail cv2 error p2) as [cv3 p3].
    intros H. simplify_eq. split; [left; by apply Hfail|by apply Hres]. }
  destruct (match event_kind_of _ _ _ with Some kind => _ | None => _ end) as [[[os3 cv3] p3] goes_on] eqn:Hk.
  assert (view_result os cv2 os3 cv3 /\ (if goes_on then same_view cv2 cv3 else cv_failed cv2 cv3)) as [R3 S3].
  { rewrite Hv in Hk. destruct (event_kind_of _ _ _) as [kind|] eqn:Hkind.
    - eapply publish_event_ok in Hk; [done|congruence|done|by rewrite He|].
      intros e HP. specialize (Hev kind e eq_refl HP). unfold cv_event in *. simpl in *. by rewrite Hv, Hs, Hseq.
    - simplify_eq. split; [|done]. constructor; [done|apply only_queues_refl|done|]. rewrite He. eapply holds_last_impl; [exact Hh|].
      intros e HP. eapply linked_same; [done|done|]. by apply Hsil. }
  destruct goes_on; simpl.
  - assert (same_view cv cv3) as Hsame3 by (destruct S3 as (? & ? & ?); split_and!; congruence).
    destruct (view_closed (cv_view cv3)) eqn:Hc.
    + destruct (finish_observers os3 (cv_events cv3) None) as [os4 ps] eqn:Hfin. intros H. simplify_eq. split; [right; split; [|done]|].
      * destruct Hsame3 as (? & ? & ?). by split_and!.
      * apply Hres. eapply view_result_trans; [exact R3|]. eapply finish_result; [apply R3|done].
    + intros H. simplify_eq. split; [|by apply Hres]. right. split; [done|]. destruct Hsame3 as (<- & _). congruence.
  - intros H. simplify_eq. split; [left; by apply Hfail|by apply Hres].
Qed.

(** ** A view keeps its invariant *)

Lemma observed_bare revision loss s : is_running s = false -> observed (bare_snapshot revision loss s).
Proof. intros H. unfold observed. simpl. by rewrite H. Qed.

Lemma failed_ok snap failed cv cv' : cv_failed cv cv' ->
  default 0 (v_source_revision (cv_view cv)) <= ns_revision snap -> cv_source_revision cv <= ns_revision snap ->
  ns_loss_epoch (v_snapshot (cv_view cv)) <= ns_loss_epoch snap -> view_ok snap failed cv'.
Proof.
  intros [Hf Ha Hs He Hg Hi Hc] H1 H2 H3.
  assert (view_closed (cv_view cv') = true) as Hcl by (unfold view_closed; by rewrite Hs).
  constructor; rewrite ?Hi, ?Hc; try done.
  - congruence.
  - rewrite Hs. done.
  - rewrite Hs. by apply observed_bare.
Qed.

(** A closed view stays right whatever the source does. *)
Lemma closed_ok snap failed snap' failed' cv : view_ok snap failed cv -> view_closed (cv_view cv) = true ->
  ns_revision snap <= ns_revision snap' -> ns_loss_epoch snap <= ns_loss_epoch snap' -> view_ok snap' failed' cv.
Proof. intros [_ Hcl _ _ Hi Hs Hl Ho] Hc H1 H2. destruct (Hcl Hc) as [Ha He]. constructor; try done; try lia. congruence. Qed.

(** [prepare] keeps the invariant of a view whose queues are not looked at. *)
Lemma prepared_ok snap failed cv cv' : view_ok snap failed (cv <| cv_events := [] |>) -> prepared cv cv' -> view_ok snap failed cv'.
Proof.
  intros [Ha Hcl Hfl He Hi Hsr Hl Ho] [Hf|[(Hv & Hs & Hf) Hc]]; simpl in *; [by eapply failed_ok|].
  constructor; rewrite ?Hv, ?Hs, ?Hf; try done. intros H. split; [by apply Hcl|by apply Hc].
Qed.

Lemma fact_follows_loss a b : fact_follows a b -> ns_loss_epoch a <= ns_loss_epoch b.
Proof. intros [_ H _ _]. rewrite H. case_match; lia. Qed.

(** The announcement of a stop, whatever the view showed. *)
Lemma announces_stop (cv : CoordinatedView) (v : NetworkView) (permanent : bool) (revision : Z) :
  view_closed (cv_view cv) = false -> cv_source_revision cv <= revision ->
  v = (cv_view cv) <| v_active := false; v_projected := None;
        v_snapshot := bare_snapshot (ns_revision (v_snapshot (cv_view cv)) + 1) (ns_loss_epoch (v_snapshot (cv_view cv)))
                        (if permanent then MonitorState.Closed else MonitorState.Stopped) |> ->
  announces (linked cv) (cv <| cv_view := v; cv_source_revision := revision |>) (v_snapshot (cv_view cv)) false.
Proof.
  intros Hc Hr ->. constructor; simpl.
  - intros kind e Hk [Lq Lg Ls Lr Lm Lo Ll La]. constructor; simpl; try lia.
    + by apply observed_bare; destruct permanent.
    + unfold event_kind_of in Hk. simpl in Hk. unfold kind_truthful. simpl.
      replace (is_running (if permanent then MonitorState.Closed else MonitorState.Stopped)) with false in Hk |- * by (by destruct permanent).
      simpl in Hk. destruct (negb _) eqn:Hd; simplify_eq. apply negb_true_iff, Z.eqb_neq in Hd. split; [done|right].
      destruct permanent; simpl in *; [left|].
      * specialize (Lo Hc). by destruct (ns_state (ne_snapshot e)).
      * destruct (decide (ns_revision (ne_snapshot e) = ns_revision (v_snapshot (cv_view cv)))) as [Hr'|]; [|right; lia].
        left. by rewrite (Lm Hr').
  - intros e _ [Lq Lg Ls Lr Lm Lo Ll La]. constructor; simpl; try done; try lia. intros _. by apply Lo.
Qed.

(** The announcement of an imported snapshot by an active view. *)
Lemma announces_import (snap snap' : NetworkSnapshot) (cv : CoordinatedView) (v : NetworkView) :
  fact_follows snap snap' -> view_ok snap false cv -> v_active (cv_view cv) = true -> v_active v = true ->
  v_generation v = v_generation (cv_view cv) ->
  v_snapshot v = snap' <| ns_revision := ns_revision (v_snapshot (cv_view cv)) + 1 |> ->
  announces (linked cv) (cv <| cv_view := v; cv_source_revision := ns_revision snap' |>) (v_snapshot (cv_view cv)) false.
Proof.
  intros Hff [Hact _ _ _ _ Hsrc Hloss Hobs] Ha Hav Hg Hs. pose proof (fact_follows_loss _ _ Hff) as Hl. destruct Hff as [Hr Hlo Hob Hop].
  destruct (Hact Ha) as (Hsn & _ & _ & Hc). clear Hact.
  assert (ns_state (v_snapshot (cv_view cv)) = ns_state snap) as Hst by (by rewrite Hsn).
  assert (ns_reachability (v_snapshot (cv_view cv)) = ns_reachability snap) as Hre by (by rewrite Hsn).
  assert (ns_loss_epoch (v_snapshot (cv_view cv)) = ns_loss_epoch snap) as Hlx by (by rewrite Hsn).
  unfold observed in Hobs, Hob. rewrite Hst, Hre in Hobs.
  constructor; simpl; rewrite ?Hs; unfold event_kind_of; simpl; rewrite Hst, Hre.
  - intros kind e Hk [Lq Lg Ls Lr Lm Lo Ll La]. destruct (La Ha) as (La1 & La2 & La3). rewrite Hre in La2. rewrite Hst in La3.
    constructor; simpl; rewrite ?Hs; simpl; try lia; [done|]. unfold kind_truthful. simpl. rewrite Hs. simpl.
    destruct (is_running (ns_state snap')) eqn:Hrun.
    + destruct (ns_reachability snap') as [now|] eqn:Hnow; [|done]. destruct (is_running (ns_state snap)) eqn:Hrs; simpl in Hk.
      * destruct (ns_reachability snap) as [before|] eqn:Hb; [|done]. case_bool_decide; simplify_eq. simpl.
        split_and!; [done|congruence|done|done|]. intros ->.
        destruct before; [done|]. simpl in Hlo. lia.
      * simplify_eq. split; [done|left]. destruct (ns_state (ne_snapshot e)), (ns_state snap); simpl in *; try done; lia.
    + simpl in Hk. destruct (negb _) eqn:Hd; simplify_eq. apply negb_true_iff, Z.eqb_neq in Hd. split; [done|right; left]. by rewrite La3.
  - intros e Hk [Lq Lg Ls Lr Lm Lo Ll La]. destruct (La Ha) as (La1 & La2 & La3). rewrite Hre in La2. rewrite Hst in La3.
    assert (is_closed (ns_state (ne_snapshot e)) = false) as Hopen by (by destruct (ns_state (ne_snapshot e)), (ns_state snap)).
    constructor; simpl; rewrite ?Hs; simpl; try lia; try done. intros _. rewrite La1, La2, La3, Hg. split; [done|].
    destruct (is_running (ns_state snap')) eqn:Hrun.
    + destruct (ns_reachability snap') as [now|] eqn:Hnow; [|done]. destruct (is_running (ns_state snap)) eqn:Hrs; simpl in Hk; [|done].
      destruct (ns_reachability snap) as [before|] eqn:Hb; [|done]. case_bool_decide as Hne; [done|].
      split; [f_equal; destruct (decide (before = now)); [done|by destruct Hne]|].
      destruct (ns_state snap), (ns_state snap'); simpl in *; done.
    + simpl in Hk. case_match eqn:Hd; [done|]. apply negb_false_iff, Z.eqb_eq in Hd. split; [|done].
      destruct (ns_reachability snap'); [done|]. destruct (ns_state snap), (ns_state snap'); simpl in *; try done; by destruct (ns_reachability snap).
Qed.

(** The announcement of an activation. *)
Lemma announces_activate (snap : NetworkSnapshot) (failed : bool) (cv : CoordinatedView) (v : NetworkView) :
  observed snap -> view_ok snap failed cv -> v_generation v = v_generation (cv_view cv) + 1 ->
  v_snapshot v = snap <| ns_revision := ns_revision (v_snapshot (cv_view cv)) + 1 |> ->
  announces (linked cv) (cv <| cv_view := v; cv_source_revision := ns_revision snap |>) (v_snapshot (cv_view cv)) true.
Proof.
  intros Hob [_ _ _ _ _ Hsrc Hloss _] Hg Hs. unfold observed in Hob. constructor; simpl; rewrite Hs; unfold event_kind_of; simpl.
  - intros kind e Hk [Lq Lg Ls Lr _ _ Ll _]. constructor; simpl; rewrite ?Hs; simpl; try lia; [done|]. unfold kind_truthful. simpl. rewrite Hs.
    simpl. destruct (is_running (ns_state snap)) eqn:Hrun; [|simplify_eq; split; [done|left; lia]].
    destruct (ns_reachability snap); simplify_eq. split; [done|right]. lia.
  - intros e Hk. destruct (is_running (ns_state snap)); [|done]. by destruct (ns_reachability snap).
Qed.

(** What an operation on one view keeps. *)
Record view_step (snap : NetworkSnapshot) (failed : bool) (os : gmap nat Observer) (cv : CoordinatedView)
    (os' : gmap nat Observer) (cv' : CoordinatedView) : Prop := {
  vs_ok : view_ok snap failed cv';
  vs_result : view_result os cv os' cv';
  vs_generation : v_generation (cv_view cv) <= v_generation (cv_view cv');
}.

Lemma result_refl os cv : observers_ok os -> holds_last (linked cv) os (cv_events cv) -> view_result os cv os cv.
Proof. intros Hos Hh. constructor; [done|apply only_queues_refl|done|done]. Qed.

(** The step that fails a view. *)
Lemma fail_step snap failed snap' failed' os cv cv0 error p :
  view_ok snap failed cv -> cv_failure cv0 = None -> cv_events cv0 = cv_events cv -> cv_view cv0 = cv_view cv ->
  cv_source_revision cv0 = cv_source_revision cv ->
  ns_revision snap <= ns_revision snap' -> ns_loss_epoch snap <= ns_loss_epoch snap' -> observers_ok os ->
  view_step snap' failed' os cv os (cv_fail cv0 error p).1.
Proof.
  intros [_ _ _ _ Hi Hs Hl _] Hf He Hv Hsr H1 H2 Hos. destruct (cv_fail_result os cv0 error p Hos Hf) as [Hcf [R1 R2 R3 R4]].
  constructor; [eapply failed_ok; [exact Hcf|rewrite ?Hv, ?Hsr; lia..]|constructor; rewrite <- ?He; done|].
  destruct Hcf. rewrite cf_generation0, Hv. lia.
Qed.

(** The step that prepares an announced change. *)
Lemma prepare_step snap failed reserve os cv cv1 previous activated p os' cv' p' :
  cv_failure cv1 = None -> cv_events cv1 = cv_events cv -> observers_ok os -> holds_last (linked cv) os (cv_events cv) ->
  announces (linked cv) cv1 previous activated -> view_ok snap failed (cv1 <| cv_events := [] |>) ->
  v_generation (cv_view cv) <= v_generation (cv_view cv1) ->
  cv_prepare reserve os cv1 previous activated p = (os', cv', p') -> view_step snap failed os cv os' cv'.
Proof.
  intros Hf He Hos Hh Han Hok Hg Hp.
  destruct (cv_prepare_ok (linked cv) reserve os cv1 previous activated p os' cv' p') as [Hpre [R1 R2 R3 R4]]; [done|done|by rewrite He|done|done|].
  constructor; [by eapply prepared_ok|constructor; rewrite <- ?He; done|].
  destruct Hpre as [[]|[(-> & _) _]]; [|done]. by rewrite cf_generation0.
Qed.

Lemma stop_ok (snap : NetworkSnapshot) (failed : bool) (cv : CoordinatedView) (v : NetworkView) (permanent : bool) (revision : Z) :
  cv_failure cv = None -> default 0 (v_source_revision (cv_view cv)) <= ns_revision snap ->
  ns_loss_epoch (v_snapshot (cv_view cv)) <= ns_loss_epoch snap -> revision <= ns_revision snap ->
  (permanent = false -> failed || is_closed (ns_state snap) = false) ->
  v = (cv_view cv) <| v_active := false; v_projected := None;
        v_snapshot := bare_snapshot (ns_revision (v_snapshot (cv_view cv)) + 1) (ns_loss_epoch (v_snapshot (cv_view cv)))
                        (if permanent then MonitorState.Closed else MonitorState.Stopped) |> ->
  view_ok snap failed ((cv <| cv_view := v; cv_source_revision := revision |>) <| cv_events := [] |>).
Proof.
  intros Hf Hi Hl Hr Hp ->. constructor; simpl; rewrite ?Hf; try done.
  - intros H. destruct permanent; [done|]. rewrite Hp in H; done.
  - by apply observed_bare; destruct permanent.
Qed.

Lemma open_failure snap failed cv : view_ok snap failed cv -> view_closed (cv_view cv) = false -> cv_failure cv = None.
Proof. intros [_ _ Hfl _ _ _ _ _] Hc. destruct (cv_failure cv); [|done]. simpl in Hfl. rewrite Hfl in Hc; done. Qed.

Lemma view_id cv : cv <| cv_view := cv_view cv |> = cv.
Proof. by destruct cv. Qed.

Ltac by_failing Hfail :=
  match goal with
  | |- context [cv_fail ?cv ?error ?p] =>
      let Hf := fresh in pose proof (Hfail cv error p) as Hf; destruct (cv_fail cv error p); intros; simplify_eq; by apply Hf
  end.

(** The projection of a new fact on a view. *)
Lemma project_view_ok snap al source os id cv os' cv' p :
  fact_follows snap (s_snapshot source) -> s_revision source = ns_revision (s_snapshot source) ->
  view_ok snap false cv -> observers_ok os -> holds_last (linked cv) os (cv_events cv) ->
  project_view al source None os id cv = (os', cv', p) -> view_step (s_snapshot source) false os cv os' cv'.
Proof.
  intros Hff Hrev Hok Hos Hh. pose proof (ff_revision _ _ Hff) as Hr. pose proof (fact_follows_loss _ _ Hff) as Hl.
  unfold project_view. destruct (view_closed (cv_view cv)) eqn:Hc.
  { intros H. simplify_eq. constructor; [eapply closed_ok; [done|done|lia|lia]|by apply result_refl|lia]. }
  pose proof (open_failure _ _ _ Hok Hc) as Hnf.
  assert (forall cv0 error p, same_view cv cv0 /\ cv_events cv0 = cv_events cv ->
    view_step (s_snapshot source) false os cv os (cv_fail cv0 error p).1) as Hfail.
  { intros cv0 error p0 ((? & ? & ?) & ?). eapply fail_step; try done; try lia. congruence. }
  destruct (al_reserve al id); cbn [negb]; [|by_failing Hfail].
  destruct (view_import (cv_view cv) (s_snapshot source) false) as [v r] eqn:Him.
  pose proof (vo_imported _ _ _ Hok) as Hi. pose proof (vo_source _ _ _ Hok) as Hs. pose proof (vo_loss _ _ _ Hok) as Hlo.
  destruct (is_closed (ns_state (s_snapshot source))) eqn:Hcl.
  - unfold view_import in Him. rewrite Hc, Hcl in Him. apply view_stop_cases in Him as [(Hn & -> & He)|(-> & _ & Hv)].
    + specialize (He eq_refl Hc). destruct r as [[]|error]; [done|done|]. by_failing Hfail.
    + eapply (prepare_step _ _ _ _ cv); [done|done|done|done| | |by rewrite Hv].
      * apply (announces_stop cv v true (s_revision source)); [done|lia|done].
      * apply (stop_ok _ _ cv v true (s_revision source)); [done|lia|lia|lia|done|done].
  - apply view_import_cases in Him as [(Hn & -> & Hi')|(-> & _ & Hact & Hv)]; [| |done].
    + destruct r as [[]|error]; [done| |by_failing Hfail]. rewrite view_id. intros H. injection H as <- <- <-.
      assert (v_active (cv_view cv) = false) as Ha.
      { destruct (Hi' eq_refl) as [?|[[_ ?]|(revision & Hre & Hlt)]]; [congruence|done|]. destruct (v_active (cv_view cv)) eqn:Ha; [|done].
        destruct (vo_active _ _ _ Hok Ha) as (_ & Hx & _). simplify_eq. lia. }
      constructor; [|by apply result_refl|done]. destruct Hok as [_ Hb Hcx Hd _ _ _ Hob]. constructor; simpl; try done; try lia; congruence.
    + destruct Hact as [|Hact]; [done|]. destruct (vo_active _ _ _ Hok Hact) as (Hsn & _).
      eapply (prepare_step _ _ _ _ cv); [done|done|done|done| | |by rewrite Hv].
      * rewrite Hrev. eapply announces_import; by rewrite ?Hv.
      * rewrite Hv. constructor; simpl; try done; try lia.
        -- unfold view_closed. simpl. congruence.
        -- by rewrite Hnf.
        -- apply Hff.
Qed.

(** The projection of a failure on a view. *)
Lemma project_failure_ok snap failed al source error os id cv os' cv' p :
  view_ok snap failed cv -> observers_ok os -> holds_last (linked cv) os (cv_events cv) ->
  project_view al source (Some error) os id cv = (os', cv', p) -> view_step snap true os cv os' cv'.
Proof.
  intros Hok Hos Hh. unfold project_view. destruct (view_closed (cv_view cv)) eqn:Hc.
  { intros H. simplify_eq. constructor; [eapply closed_ok; [done|done|lia|lia]|by apply result_refl|lia]. }
  pose proof (open_failure _ _ _ Hok Hc) as Hnf.
  assert (forall cv0 error p, cv0 = cv -> view_step snap true os cv os (cv_fail cv0 error p).1) as Hfail.
  { intros cv0 error0 p0 ->. eapply fail_step; try done; lia. }
  destruct (al_reserve al id); simpl; by_failing Hfail.
Qed.

(** ** All views together *)

(** The views, each with its own condition, and the queues they share the store of. *)
Record shared_ok (ok : nat -> CoordinatedView -> Prop) (views : gmap nat CoordinatedView) (os : gmap nat Observer) : Prop := {
  so_observers : observers_ok os;
  so_views id cv : views !! id = Some cv -> ok id cv;
  so_last id cv : views !! id = Some cv -> holds_last (linked cv) os (cv_events cv);
  so_disjoint i j cvi cvj : views !! i = Some cvi -> views !! j = Some cvj -> i <> j -> cv_events cvi ## cv_events cvj;
}.

(** Views and queues stay where they are, and generations do not go back. *)
Record views_grow (views views' : gmap nat CoordinatedView) (os os' : gmap nat Observer) : Prop := {
  vg_views : dom views' = dom views;
  vg_observers : dom os' = dom os;
  vg_generation id cv cv' : views !! id = Some cv -> views' !! id = Some cv' -> v_generation (cv_view cv) <= v_generation (cv_view cv');
}.

Lemma grow_refl views os : views_grow views views os os.
Proof. constructor; [done|done|]. intros. by simplify_eq. Qed.

Lemma grow_trans views1 views2 views3 os1 os2 os3 :
  views_grow views1 views2 os1 os2 -> views_grow views2 views3 os2 os3 -> views_grow views1 views3 os1 os3.
Proof.
  intros [V1 O1 G1] [V2 O2 G2]. constructor; [congruence|congruence|]. intros id cv cv' H1 H3.
  assert (is_Some (views2 !! id)) as [cv2 H2] by (apply elem_of_dom; rewrite V1; by apply elem_of_dom_2 in H1).
  specialize (G1 _ _ _ H1 H2). specialize (G2 _ _ _ H2 H3). lia.
Qed.

Lemma shared_impl (ok ok' : nat -> CoordinatedView -> Prop) views os :
  shared_ok ok views os -> (forall id cv, views !! id = Some cv -> ok id cv -> ok' id cv) -> shared_ok ok' views os.
Proof. intros [] H. constructor; eauto. Qed.

(** A step of one view leaves the queues of the others alone. *)
Lemma set_view_ok (ok : nat -> CoordinatedView -> Prop) snap failed views os id cv os' cv' :
  shared_ok ok views os -> views !! id = Some cv -> view_step snap failed os cv os' cv' ->
  shared_ok (fun j c => if decide (j = id) then view_ok snap failed c else ok j c) (<[id := cv']> views) os' /\
  views_grow views (<[id := cv']> views) os os'.
Proof.
  intros [Hos Hok Hl Hd] Hid [Hv [R1 R2 R3 R4] Hg]. split; constructor.
  - done.
  - intros j c Hj. destruct (decide (j = id)) as [->|]; simplify_map_eq; eauto.
  - intros j c Hj. destruct (decide (j = id)) as [->|Hne]; simplify_map_eq; [done|].
    destruct (Hl j c Hj) as [Hn Hh]. split; [done|]. intros x Hx. destruct (Hh x Hx) as (o & Ho & He). exists o.
    rewrite (proj1 R2); [done|]. intros Hc. eapply (Hd j id); eauto.
  - intros i j ci cj Hi Hj Hne. destruct (decide (i = id)) as [->|], (decide (j = id)) as [->|]; simplify_map_eq; [|..|by eapply (Hd i j)].
    + pose proof (Hd id j cv cj Hid Hj Hne). set_solver.
    + pose proof (Hd i id ci cv Hi Hid Hne). set_solver.
  - rewrite dom_insert_L. apply elem_of_dom_2 in Hid. set_solver.
  - apply R2.
  - intros j c c' Hj Hj'. destruct (decide (j = id)) as [->|]; simplify_map_eq; lia.
Qed.

(** Only the views and the queues change. *)
Definition only_views (n n' : Net) : Prop := n' = n <| n_views := n_views n'; n_observers := n_observers n' |>.

Lemma only_views_refl n : only_views n n.
Proof. by destruct n. Qed.

(** The loop of [project_views] brings every view to the new facts. *)
Lemma project_loop_ok snap failed snap' failed' al failure source ids : forall n n' ps,
  (forall os id cv os' cv' p, view_ok snap failed cv -> observers_ok os -> holds_last (linked cv) os (cv_events cv) ->
     project_view al source failure os id cv = (os', cv', p) -> view_step snap' failed' os cv os' cv') ->
  n_source n = source -> NoDup ids ->
  shared_ok (fun id cv => if decide (id ∈ ids) then view_ok snap failed cv else view_ok snap' failed' cv) (n_views n) (n_observers n) ->
  project_loop al failure n ids = (n', ps) ->
  shared_ok (fun _ cv => view_ok snap' failed' cv) (n_views n') (n_observers n') /\ only_views n n' /\
  views_grow (n_views n) (n_views n') (n_observers n) (n_observers n').
Proof.
  induction ids as [|id ids IH]; intros n n' ps Hstep Hsrc Hnd Hsh; simpl.
  { intros H. simplify_eq. split_and!; [|apply only_views_refl|apply grow_refl].
    eapply shared_impl; [exact Hsh|]. intros id cv _. cbv beta. case_decide as Hin; [by apply elem_of_nil in Hin|done]. }
  apply NoDup_cons in Hnd as [Hid Hnd]. destruct (n_views n !! id) as [cv|] eqn:Hcv.
  - destruct (project_view _ _ _ _ _ _) as [[os1 cv1] p1] eqn:Hp.
    destruct (project_loop _ _ _ ids) as [n1 ps1] eqn:Hloop. intros H. simplify_eq.
    assert (view_step snap' failed' (n_observers n) cv os1 cv1) as Hv.
    { eapply Hstep; [|apply Hsh|by eapply (so_last _ _ _ Hsh)|exact Hp]. pose proof (so_views _ _ _ Hsh id cv Hcv) as Hx.
      cbv beta in Hx. rewrite decide_True in Hx by set_solver. done. }
    destruct (set_view_ok _ _ _ _ _ _ _ _ _ Hsh Hcv Hv) as [Hsh1 Hg1].
    eapply (IH _ _ _ Hstep) in Hloop as (H1 & H2 & H3); [|done|done|].
    + split_and!; [done| |by eapply grow_trans]. unfold only_views in *. simpl in H2. by rewrite H2.
    + simpl. eapply shared_impl; [exact Hsh1|]. intros j c _. cbv beta. repeat case_decide; subst; try done; set_solver.
  - intros H. eapply (IH _ _ _ Hstep) in H as (H1 & H2 & H3); [done|done|done|].
    eapply shared_impl; [exact Hsh|]. intros j c Hj. cbv beta. repeat case_decide; subst; try done; [|set_solver].
    destruct (decide (j = id)); [congruence|set_solver].
Qed.

(** ** The source *)

(** How many neighbours in a list stand in a relation. *)
Fixpoint count_steps {A} (f : A -> A -> bool) (l : list A) : Z :=
  match l with
  | a :: ((b :: _) as rest) => (if f a b then 1 else 0) + count_steps f rest
  | _ => 0
  end.

Lemma count_steps_snoc {A} (f : A -> A -> bool) l a b : last l = Some a ->
  count_steps f (l ++ [b]) = count_steps f l + (if f a b then 1 else 0).
Proof.
  revert a. induction l as [|x l IH]; intros a Hl; [done|]. destruct l as [|y l]; simpl in *; [simplify_eq; lia|].
  specialize (IH a Hl). simpl in IH. rewrite IH. lia.
Qed.

(** The snapshots that newly show the network unavailable, and the changes of the reachability. *)
Definition losses : list NetworkSnapshot -> Z := count_steps (fun a b => newly_unavailable (ns_reachability a) (ns_reachability b)).

Definition changes : list NetworkSnapshot -> Z := count_steps (fun a b => bool_decide (ns_reachability a <> ns_reachability b)).

Record net_core (next : nat) (n : Net) : Prop := {
  nc_revision : s_revision (n_source n) = ns_revision (s_snapshot (n_source n));
  nc_loss : s_loss_epoch (n_source n) = ns_loss_epoch (s_snapshot (n_source n));
  nc_first : head (n_history n) = Some first_snapshot;
  nc_last : last (n_history n) = Some (s_snapshot (n_source n));
  nc_history : chain fact_follows (n_history n);
  nc_losses : ns_loss_epoch (s_snapshot (n_source n)) = losses (n_history n);
  nc_observed : observed (s_snapshot (n_source n));
  nc_gate : n_gate n = s_gating (n_source n);
  nc_status : g_status (s_gating (n_source n)) =
    if is_some (s_error (n_source n)) then None else ns_reachability (s_snapshot (n_source n));
  nc_changes : s_error (n_source n) = None -> g_revision (s_gating (n_source n)) = changes (n_history n);
  nc_facts : s_error (n_source n) = None -> n_facts n = s_snapshot (n_source n);
  nc_failed : n_failed n = s_error (n_source n);
  nc_samples : Forall (fun i => i <= s_last_sample_id (n_source n)) (n_samples n);
  nc_nodup : NoDup (s_views (n_source n));
  nc_registered id cv : n_views n !! id = Some cv -> id ∈ s_views (n_source n);
  nc_fresh_views id : id ∈ s_views (n_source n) -> (id < next)%nat;
  nc_fresh_observers id : is_Some (n_observers n !! id) -> (id < next)%nat;
  nc_shared : shared_ok (fun _ cv => view_ok (s_snapshot (n_source n)) (is_some (s_error (n_source n))) cv) (n_views n) (n_observers n);
}.

Definition active_ok (n : Net) : Prop :=
  s_active (n_source n) = true -> s_error (n_source n) = None /\ is_closed (ns_state (s_snapshot (n_source n))) = false.

Definition net_ok (next : nat) (n : Net) : Prop := net_core next n /\ active_ok n.

(** Generations do not go back; a view that was there before is the same view. *)
Record moved (next : nat) (n n' : Net) : Prop := {
  mv_generation : s_generation (n_source n) <= s_generation (n_source n');
  mv_views id cv' : n_views n' !! id = Some cv' -> (id < next)%nat ->
    exists cv, n_views n !! id = Some cv /\ v_generation (cv_view cv) <= v_generation (cv_view cv');
}.

Lemma moved_refl next n : moved next n n.
Proof. constructor; [done|]. eauto with lia. Qed.

Lemma moved_trans next next' n1 n2 n3 : (next <= next')%nat -> moved next n1 n2 -> moved next' n2 n3 -> moved next n1 n3.
Proof.
  intros Hn [G1 V1] [G2 V2]. constructor; [lia|]. intros id cv3 H3 Hid. destruct (V2 id cv3 H3) as (cv2 & H2 & ?); [lia|].
  destruct (V1 id cv2 H2 Hid) as (cv1 & H1 & ?). exists cv1. split; [done|lia].
Qed.

Lemma grow_moved next n n' : s_generation (n_source n) <= s_generation (n_source n') ->
  views_grow (n_views n) (n_views n') (n_observers n) (n_observers n') -> moved next n n'.
Proof.
  intros Hg [V O G]. constructor; [done|]. intros id cv' H' _.
  assert (is_Some (n_views n !! id)) as [cv H] by (apply elem_of_dom; rewrite <- V; by apply elem_of_dom_2 in H'). eauto.
Qed.

(** The parts of a source that the invariant does not speak of may change. *)
Lemma net_core_update next n n' : net_core next n ->
  s_revision (n_source n') = s_revision (n_source n) -> s_loss_epoch (n_source n') = s_loss_epoch (n_source n) ->
  s_snapshot (n_source n') = s_snapshot (n_source n) -> s_gating (n_source n') = s_gating (n_source n) ->
  s_error (n_source n') = s_error (n_source n) -> s_views (n_source n') = s_views (n_source n) ->
  n_gate n' = n_gate n -> n_facts n' = n_facts n -> n_failed n' = n_failed n -> n_views n' = n_views n ->
  n_observers n' = n_observers n -> n_history n' = n_history n ->
  (Forall (fun i => i <= s_last_sample_id (n_source n)) (n_samples n) ->
   Forall (fun i => i <= s_last_sample_id (n_source n')) (n_samples n')) -> net_core next n'.
Proof.
  intros [] E1 E2 E3 E4 E5 E6 E7 E8 E9 E10 E11 E12 E13.
  constructor; rewrite ?E1, ?E2, ?E3, ?E4, ?E5, ?E6, ?E7, ?E8, ?E9, ?E10, ?E11, ?E12; auto.
Qed.

(** [project_views] over all views. *)
Lemma project_views_ok snap failed snap' failed' al failure n n' ps :
  NoDup (s_views (n_source n)) -> (forall id cv, n_views n !! id = Some cv -> id ∈ s_views (n_source n)) ->
  shared_ok (fun _ cv => view_ok snap failed cv) (n_views n) (n_observers n) ->
  (forall source os id cv os' cv' p, s_snapshot source = s_snapshot (n_source n) -> s_revision source = s_revision (n_source n) ->
     view_ok snap failed cv -> observers_ok os -> holds_last (linked cv) os (cv_events cv) ->
     project_view al source failure os id cv = (os', cv', p) -> view_step snap' failed' os cv os' cv') ->
  project_views al failure n = (n', ps) ->
  exists views, NoDup views /\ views ⊆ s_views (n_source n) /\ (forall id cv, n_views n' !! id = Some cv -> id ∈ views) /\
  shared_ok (fun _ cv => view_ok snap' failed' cv) (n_views n') (n_observers n') /\
  only_views (n <| n_source ::= (fun s => s <| s_views := views |>) |>) n' /\
  views_grow (n_views n) (n_views n') (n_observers n) (n_observers n').
Proof.
  intros Hnd Hreg Hsh Hstep. unfold project_views. set (alive := filter _ _). intros Hp. exists alive.
  assert (forall id cv, n_views n !! id = Some cv -> id ∈ alive) as Hin.
  { intros id cv Hid. apply list_elem_of_filter. split; [by eexists|by eapply Hreg]. }
  assert (NoDup alive) as Hna by (by apply NoDup_filter).
  eapply (project_loop_ok snap failed snap' failed' al failure ((n_source n) <| s_views := alive |>)) in Hp as (H1 & H2 & H3);
    [|intros; by eapply (Hstep ((n_source n) <| s_views := alive |>))|done|done|].
  - split_and!; [done| | |done|done|done].
    + intros id Hid. by apply list_elem_of_filter in Hid as [_ ?].
    + intros id cv Hid. apply elem_of_dom_2 in Hid. destruct H3 as [V3 _ _]. rewrite V3 in Hid.
      apply elem_of_dom in Hid as [cv0 Hid]. by eapply Hin.
  - eapply shared_impl; [exact Hsh|]. intros id cv Hid Hx. cbv beta. rewrite decide_True; [done|by eapply Hin].
Qed.

Lemma fail_publication_ok next al n error original n' p :
  net_core next n -> fail_publication al n error original = (n', p) ->
  net_ok next n' /\ moved next n n' /\ s_error (n_source n') = Some error /\ s_generation (n_source n') = s_generation (n_source n) /\
  np_result p = Err error.
Proof.
  intros Hc. unfold fail_publication. destruct (prepare_failure _ _) as [publisher terminal]. set (n1 := n <| n_publisher := _; n_failed := _; n_source := _; n_gate := _ |>).
  destruct (project_views al (Some error) n1) as [n2 views] eqn:Hp. intros H. injection H as <- <-.
  pose proof (nc_shared _ _ Hc) as Hsh.
  eapply (project_views_ok _ _ (s_snapshot (n_source n)) true) in Hp as (vs & Hnd & Hsub & Hreg & Hsh2 & Hov & Hgr);
    [|apply Hc|apply Hc|exact Hsh|by intros; eapply project_failure_ok].
  unfold only_views in Hov. pose proof (nc_status _ _ Hc) as Hst.
  assert (n_source n2 = (n_source n1) <| s_views := vs |>) as Hs by (by rewrite Hov).
  split_and!; [|apply grow_moved; [by rewrite Hs|done]|by rewrite Hs|by rewrite Hs|done].
  split; [|unfold active_ok; rewrite Hs; done].
  destruct Hc. constructor; rewrite ?Hs; simpl; try done; try (rewrite Hov; simpl; done).
  - rewrite Hov. simpl. rewrite nc_gate0. by destruct (g_status (s_gating (n_source n))).
  - by destruct (g_status (s_gating (n_source n))) eqn:Hg.
  - intros id Hid. apply nc_fresh_views0. by apply Hsub.
  - intros id Hid. apply nc_fresh_observers0. apply elem_of_dom. apply elem_of_dom in Hid. destruct Hgr. by rewrite vg_observers0 in Hid.
Qed.

Lemma increment_ok x y : increment x = Ok y -> y = x + 1.
Proof. unfold increment. destruct (checked_add _ _ _) eqn:H; simpl; intros; simplify_eq. by apply checked_succ. Qed.

(** The test of [next_snapshot]. *)
Lemma newly_unavailable_spec a b :
  bool_decide (b = Some NetworkStatus.Unavailable) && bool_decide (a <> b) = newly_unavailable a b.
Proof. by destruct a as [[]|], b as [[]|]. Qed.

Lemma next_snapshot_ok next n target reachability ip_stack at_ s :
  net_core next n -> is_closed (ns_state (s_snapshot (n_source n))) = false -> is_some reachability = is_running target ->
  next_snapshot (n_source n) target reachability ip_stack at_ = Ok s ->
  fact_follows (s_snapshot (n_source n)) s /\ ns_state s = target /\ ns_reachability s = reachability /\ ns_ip_stack s = ip_stack.
Proof.
  intros Hc Hcl Ho. unfold next_snapshot. rewrite (nc_revision _ _ Hc), (nc_loss _ _ Hc).
  destruct (increment _) as [revision|] eqn:Hr; [|done]. apply increment_ok in Hr as ->.
  set (b := bool_decide _ && _). destruct (if b then _ else _) as [loss|] eqn:Hl; [|done]. intros H. injection H as <-.
  split; [|done]. constructor; simpl; try done. rewrite <- newly_unavailable_spec. fold b. destruct b; [by apply increment_ok in Hl|]. simplify_eq. lia.
Qed.

(** A commit installs the snapshot everywhere, or the source fails. *)
Lemma commit_ok next al n s closing n' p :
  net_core next n -> s_error (n_source n) = None -> fact_follows (s_snapshot (n_source n)) s -> net_commit al n s closing = (n', p) ->
  net_core next n' /\ moved next n n' /\ s_generation (n_source n') = s_generation (n_source n) /\
  ((s_error (n_source n') = None /\ np_result p = Ok tt /\ s_snapshot (n_source n') = s /\ s_active (n_source n') = s_active (n_source n)) \/
   (is_some (s_error (n_source n')) = true /\ is_err (np_result p) = true /\ s_active (n_source n') = false)).
Proof.
  intros Hc He Hff. unfold net_commit. destruct (next_gating (n_source n) s) as [gating|error] eqn:Hg.
  2: { intros H. apply (fail_publication_ok next) in H as ([Hc' Ha] & Hm & Herr & Hgen & Hr); [|done].
       split_and!; [done|done|done|right]. rewrite Herr, Hr. split_and!; [done|done|].
       destruct (s_active (n_source n')) eqn:Hx; [|done]. unfold active_ok in Ha. rewrite Herr in Ha. destruct Ha; done. }
  destruct (if closing then _ else _) as [publisher publication]. set (n0 := n <| n_publisher := publisher |>).
  assert (net_core next n0) as Hc0 by (by eapply net_core_update).
  destruct (sp_result publication) as [[]|error].
  2: { intros H. apply (fail_publication_ok next) in H as ([Hc' Ha] & Hm & Herr & Hgen & Hr); [|done].
       split_and!; [done| |done|right].
       - destruct Hm. by constructor.
       - rewrite Herr, Hr. split_and!; [done|done|].
         destruct (s_active (n_source n')) eqn:Hx; [|done]. unfold active_ok in Ha. rewrite Herr in Ha. destruct Ha; done. }
  set (n1 := n0 <| n_source ::= _; n_gate := _; n_history ::= _ |>).
  destruct (project_views al None n1) as [n2 views] eqn:Hp. intros H. injection H as <- <-.
  pose proof (nc_shared _ _ Hc) as Hsh. rewrite He in Hsh. simpl in Hsh.
  eapply (project_views_ok (s_snapshot (n_source n)) false s false) in Hp as (vs & Hnd & Hsub & Hreg & Hsh2 & Hov & Hgr);
    [|apply Hc|apply Hc|exact Hsh|].
  2: { intros source os id cv os' cv' p Hss Hsr ? ? ? ?. simpl in Hss, Hsr. rewrite <- Hss in Hff. rewrite <- Hss.
       eapply project_view_ok; try done. by rewrite Hsr, Hss. }
  unfold only_views in Hov.
  assert (n_source n2 = (n_source n1) <| s_views := vs |>) as Hs by (by rewrite Hov).
  split_and!; [|apply grow_moved; [by rewrite Hs|done]|by rewrite Hs|left; by rewrite Hs].
  assert (default (s_gating (n_source n)) gating = mkGating (changes (n_history n ++ [s])) 
            (if bool_decide (ns_reachability (s_snapshot (n_source n)) <> ns_reachability s) then ns_loss_epoch s else g_loss_epoch (s_gating (n_source n)))
            (ns_reachability s)) as Hgate.
  { unfold changes. rewrite (count_steps_snoc _ _ (s_snapshot (n_source n))) by apply Hc. fold changes.
    pose proof (nc_changes _ _ Hc He) as Hch. pose proof (nc_status _ _ Hc) as Hst. rewrite He in Hst. simpl in Hst.
    unfold next_gating in Hg. rewrite Hst in Hg. case_bool_decide as Hd.
    - destruct (increment _) as [r|] eqn:Hi; simplify_eq. apply increment_ok in Hi as ->. simpl. by rewrite Hch.
    - simplify_eq. simpl. destruct (s_gating (n_source n)) as [gr gl gs]. simpl in *. rewrite Hch, Hst. f_equal; [lia|].
      destruct (decide (ns_reachability (s_snapshot (n_source n)) = ns_reachability s)); [done|]. by destruct Hd. }
  destruct Hc. constructor; simpl; rewrite ?Hs; simpl; rewrite ?Hgate, ?He; simpl; try done; try (rewrite Hov; simpl; rewrite ?Hgate; done).
  - rewrite Hov. simpl. by destruct (n_history n).
  - rewrite Hov. simpl. by rewrite last_snoc.
  - rewrite Hov. simpl. by eapply chain_snoc.
  - rewrite Hov. simpl. unfold losses. rewrite (count_steps_snoc _ _ (s_snapshot (n_source n))) by done. fold losses. rewrite <- nc_losses0. apply Hff.
  - apply Hff.
  - rewrite Hov. simpl. rewrite nc_gate0. by rewrite Hgate.
  - rewrite Hov. simpl. by rewrite nc_failed0.
  - intros id Hid. apply nc_fresh_views0. by apply Hsub.
  - intros id Hid. apply nc_fresh_observers0. apply elem_of_dom. apply elem_of_dom in Hid. destruct Hgr. by rewrite vg_observers0 in Hid.
Qed.

Lemma fresh_weaken next next' n : (next <= next')%nat -> net_ok next n -> net_ok next' n.
Proof.
  intros Hle [[] Ha]. split; [|done]. constructor; try done.
  - intros id Hid. specialize (nc_fresh_views0 id Hid). lia.
  - intros id Hid. specialize (nc_fresh_observers0 id Hid). lia.
Qed.

Lemma moved_same next n n' : s_generation (n_source n) <= s_generation (n_source n') -> n_views n' = n_views n -> moved next n n'.
Proof. intros Hg Hv. constructor; [done|]. rewrite Hv. eauto with lia. Qed.

(** A commit of a source that stays open. *)
Lemma commit_open next al n s n' p :
  net_ok next n -> s_error (n_source n) = None -> fact_follows (s_snapshot (n_source n)) s -> is_closed (ns_state s) = false ->
  net_commit al n s false = (n', p) -> net_ok next n' /\ moved next n n'.
Proof.
  intros [Hc Ha] He Hff Hcl H. destruct (commit_ok _ _ _ _ _ _ _ Hc He Hff H) as (Hc' & Hm & _ & Hx). split; [|done]. split; [done|].
  intros Hact. destruct Hx as [(Hx1 & _ & Hx2 & _)|(_ & _ & Hx)]; [by rewrite Hx1, Hx2|congruence].
Qed.

(** A commit after which the source is not active. *)
Lemma commit_inactive next al n s closing n' p :
  net_core next n -> s_error (n_source n) = None -> fact_follows (s_snapshot (n_source n)) s -> net_commit al n s closing = (n', p) ->
  net_ok next (n' <| n_source ::= (fun s => s <| s_active := false |>) |>) /\
  moved next n (n' <| n_source ::= (fun s => s <| s_active := false |>) |>).
Proof.
  intros Hc He Hff H. destruct (commit_ok _ _ _ _ _ _ _ Hc He Hff H) as (Hc' & Hm & _ & _). split; [|by destruct Hm].
  split; [by eapply net_core_update|done].
Qed.

(** An operation that is refused changes nothing. *)
Ltac refused := intros; simplify_eq; split; [done|apply moved_refl].

Lemma source_fail_ok next al n error n' p : net_ok next n -> source_fail al n error = (n', p) -> net_ok next n' /\ moved next n n'.
Proof.
  intros Hok. unfold source_fail. destruct (is_closed _); [refused|intros H].
  eapply fail_publication_ok in H as (? & ? & _); [done|apply Hok].
Qed.

Lemma begin_generation_ok next al n n' r : net_ok next n -> begin_generation al n = (n', r) -> net_ok next n' /\ moved next n n'.
Proof.
  intros Hok. pose proof Hok as [Hc Ha]. unfold begin_generation. destruct (s_error (n_source n)) as [e|] eqn:He.
  { refused. }
  destruct (is_closed _) eqn:Hcl. { refused. }
  destruct (increment (s_generation _)) as [generation|error] eqn:Hg. 2: { refused. }
  destruct (next_snapshot _ _ _ _ _) as [s|error] eqn:Hn. 2: { refused. }
  apply increment_ok in Hg as ->. eapply next_snapshot_ok in Hn as (Hff & Hst & _); [|done|done|done].
  set (n0 := n <| n_source := _ |>). destruct (net_commit al n0 s false) as [n1 p] eqn:Hcom.
  assert (net_core next n0) as Hc0 by (by eapply net_core_update).
  destruct (commit_ok _ _ _ _ _ _ _ Hc0 He Hff Hcom) as (Hc1 & [Hmg Hmv] & Hgen & Hx). intros H. injection H as <- <-. simpl in Hgen.
  destruct Hx as [(Hx1 & Hx2 & Hx3 & _)|(Hx1 & Hx2 & Hx3)].
  - rewrite Hx2. simpl. split; [split; [by eapply net_core_update|]|].
    + intros _. simpl. rewrite Hx1, Hx3, Hst. done.
    + constructor; simpl; [lia|done].
  - destruct (np_result p); [done|]. simpl. split; [split; [by eapply net_core_update|]|].
    + intros Hact. simpl in Hact. congruence.
    + constructor; simpl; [lia|done].
Qed.

Lemma prepare_terminal_ok next al n permanent n' p : net_ok next n -> prepare_terminal al n permanent = (n', p) ->
  net_ok next n' /\ moved next n n'.
Proof.
  intros Hok. pose proof Hok as [Hc Ha]. unfold prepare_terminal. destruct (s_error (n_source n)) as [e|] eqn:He.
  { refused. }
  destruct (is_closed _) eqn:Hcl; simpl. { refused. }
  destruct (negb permanent && _). { refused. }
  destruct (next_snapshot _ _ _ _ _) as [s|error] eqn:Hn.
  2: { intros H. eapply fail_publication_ok in H as (? & ? & _); [done|apply Hok]. }
  eapply next_snapshot_ok in Hn as (Hff & Hst & _); [|done|done|by destruct permanent].
  destruct (net_commit al n s permanent) as [n1 p1] eqn:Hcom. intros H. injection H as <- <-. by eapply commit_inactive.
Qed.

Lemma stale_active next n generation : net_ok next n -> stale (n_source n) generation = false ->
  s_error (n_source n) = None /\ is_closed (ns_state (s_snapshot (n_source n))) = false.
Proof.
  intros [_ Ha]. unfold stale. rewrite !orb_false_iff, !negb_false_iff. intros [[_ Hact] Hcl]. split; [by apply Ha|done].
Qed.

Lemma prepare_observation_ok next al n generation reachability ip_stack now n' p : net_ok next n ->
  prepare_observation al n generation reachability ip_stack now = (n', p) -> net_ok next n' /\ moved next n n'.
Proof.
  intros Hok. unfold prepare_observation. destruct (stale _ _) eqn:Hs. { refused. }
  eapply stale_active in Hs as [He Hcl]; [|done]. destruct (_ && _). { refused. }
  destruct (next_snapshot _ _ _ _ _) as [s|error] eqn:Hn.
  2: { intros H. eapply fail_publication_ok in H as (? & ? & _); [done|apply Hok]. }
  eapply next_snapshot_ok in Hn as (Hff & Hst & _); [|apply Hok|done|done]. intros H. eapply commit_open; try done. by rewrite Hst.
Qed.

(** A newer sample is noted. *)
Lemma sample_noted next n sample_id : net_core next n -> s_last_sample_id (n_source n) < sample_id ->
  net_core next (n <| n_source ::= (fun s => s <| s_last_sample_id := sample_id |>); n_samples ::= (fun l => l ++ [sample_id]) |>).
Proof.
  intros Hc Hlt. eapply net_core_update; try done. simpl. intros Hs. apply Forall_app. split; [|by constructor].
  eapply Forall_impl; [exact Hs|]. simpl. lia.
Qed.

Lemma take_sample_ok next al n sample_id reachability ip_stack at_ n' r : net_ok next n -> s_error (n_source n) = None ->
  s_last_sample_id (n_source n) < sample_id ->
  is_closed (ns_state (s_snapshot (n_source n))) = false ->
  take_sample al n sample_id reachability ip_stack at_ = (n', r) -> net_ok next n' /\ moved next n n'.
Proof.
  intros [Hc Ha] He Hlt Hcl. unfold take_sample. set (n0 := n <| n_source ::= _; n_samples ::= _ |>).
  assert (net_ok next n0 /\ moved next n n0) as [Hok0 Hm0].
  { split; [split; [by apply sample_noted|done]|by apply moved_same]. }
  destruct (same_observation _ _ _). { intros H. injection H as <- <-. done. }
  destruct (next_snapshot _ _ _ _ _) as [s|error] eqn:Hn. 2: { intros H. injection H as <- <-. done. }
  eapply next_snapshot_ok in Hn as (Hff & Hst & _); [|apply Hok0|done|done].
  destruct (net_commit al n0 s false) as [n1 p1] eqn:Hcom. intros H. injection H as <- <-.
  eapply commit_open in Hcom as [? ?]; [|done|done|done|by rewrite Hst]. split; [done|]. by eapply moved_trans.
Qed.

Lemma sampled_ok next al n generation sample_id reachability ip_stack at_ validate n' r : net_ok next n ->
  prepare_sampled_observation al n generation sample_id reachability ip_stack at_ validate = (n', r) -> net_ok next n' /\ moved next n n'.
Proof.
  intros Hok. unfold prepare_sampled_observation. destruct (stale _ _) eqn:Hs; simpl. { refused. }
  eapply stale_active in Hs as [He Hcl]; [|done]. destruct (Z.leb_spec sample_id (s_last_sample_id (n_source n))) as [|Hlt]. { refused. }
  destruct validate as [[]|error]; [|refused..].
  destruct (take_sample _ _ _ _ _ _) as [n1 r1] eqn:Ht. intros H. injection H as <- <-. by eapply take_sample_ok.
Qed.

Lemma observation_finish_ok next al n generation target n' p : net_ok next n -> observation_finish al n generation target = (n', p) ->
  net_ok next n' /\ moved next n n'.
Proof.
  intros Hok. unfold observation_finish.
  assert (forall n1 p1, is_running target = false ->
    (if stale (n_source n) generation then (n, NetworkPublication_empty)
     else match next_snapshot (n_source n) target None None None with
          | Ok next => let '(n, publication) := net_commit al n next false in
                       (n <| n_source ::= (fun s => s <| s_active := false |>) |>, publication)
          | Err error => fail_publication al n error None
          end) = (n1, p1) -> net_ok next n1 /\ moved next n n1) as Hmain.
  { intros n1 p1 Hrun. destruct (stale _ _) eqn:Hs. { refused. }
    eapply stale_active in Hs as [He Hcl]; [|done]. destruct (next_snapshot _ _ _ _ _) as [s|error] eqn:Hn.
    2: { intros H. eapply fail_publication_ok in H as (? & ? & _); [done|apply Hok]. }
    eapply next_snapshot_ok in Hn as (Hff & Hst & _); [|apply Hok|done|done].
    destruct (net_commit al n s false) as [n2 p2] eqn:Hcom. intros H. injection H as <- <-. eapply commit_inactive; try done. apply Hok. }
  destruct target; try (refused); by apply Hmain.
Qed.

(** ** Operations of one view *)

Lemma set_view_net next n id cv os' cv' : net_ok next n -> n_views n !! id = Some cv ->
  view_step (s_snapshot (n_source n)) (is_some (s_error (n_source n))) (n_observers n) cv os' cv' ->
  net_ok next (set_view n id os' cv') /\ moved next n (set_view n id os' cv').
Proof.
  intros [Hc Ha] Hid Hv. pose proof (nc_shared _ _ Hc) as Hsh. destruct (set_view_ok _ _ _ _ _ _ _ _ _ Hsh Hid Hv) as [Hsh' Hg].
  split; [|by apply grow_moved]. split; [|done]. destruct Hc. constructor; simpl; try done.
  - intros j c Hj. destruct (decide (j = id)) as [->|]; simplify_map_eq; eauto.
  - intros j Hj. apply nc_fresh_observers0. apply elem_of_dom. apply elem_of_dom in Hj. destruct Hg. by rewrite vg_observers0 in Hj.
  - eapply shared_impl; [exact Hsh'|]. intros j c _. cbv beta. by case_decide.
Qed.

Lemma view_of next n id cv : net_ok next n -> n_views n !! id = Some cv ->
  view_ok (s_snapshot (n_source n)) (is_some (s_error (n_source n))) cv /\ observers_ok (n_observers n) /\
  holds_last (linked cv) (n_observers n) (cv_events cv).
Proof. intros [Hc _] Hid. destruct (nc_shared _ _ Hc). eauto. Qed.

Lemma handle_activate_ok next al n id cv n' r : net_ok next n -> n_views n !! id = Some cv -> handle_activate al n id cv = (n', r) ->
  net_ok next n' /\ moved next n n'.
Proof.
  intros Hok Hid. destruct (view_of _ _ _ _ Hok Hid) as (Hv & Hos & Hh). pose proof Hok as [Hc _]. unfold handle_activate.
  destruct (s_error (n_source n)) eqn:He; [refused|]. destruct (cv_failure cv) eqn:Hf; [refused|]. destruct (al_reserve al id); cbn [negb]; [|refused].
  unfold view_activate. destruct (view_closed (cv_view cv)) eqn:Hcl; cbn [orb]; [refused|].
  destruct (is_closed (ns_state (s_snapshot (n_source n)))) eqn:Hsc; [refused|].
  destruct (checked_add _ _ _) as [generation|] eqn:Hg; [|refused]. apply checked_succ in Hg as ->.
  set (v0 := (cv_view cv) <| v_generation := _; v_active := true |>).
  destruct (view_import v0 _ true) as [v [changed|error]] eqn:Him; [|refused].
  apply view_import_cases in Him as [(Hn & -> & Hi)|(Hr & _ & _ & Hvv)]; [| |done].
  { destruct changed; [done|]. destruct (Hi eq_refl) as [Hx|[[? _]|(revision & Hre & Hlt)]]; [|done|].
    - unfold v0, view_closed in Hx. simpl in Hx. unfold view_closed in Hcl. congruence.
    - pose proof (vo_imported _ _ _ Hv) as Hx. unfold v0 in Hre. simpl in Hre. rewrite Hre in Hx. simpl in Hx. lia. }
  destruct (cv_prepare _ _ _ _ _ _) as [[os1 cv1] p1] eqn:Hp. intros H. injection H as <- <-.
  eapply set_view_net; [done|done|]. rewrite He. simpl. eapply (prepare_step _ _ _ _ cv); try exact Hp; try done.
  - rewrite (nc_revision _ _ Hc). eapply announces_activate; [apply Hc|done|by rewrite Hvv|by rewrite Hvv].
  - rewrite (nc_revision _ _ Hc), Hvv. destruct Hv. constructor; simpl; rewrite ?Hf, ?Hsc; try done.
    + unfold view_closed. simpl. congruence.
    + apply Hc.
  - rewrite Hvv. simpl. lia.
Qed.

Lemma handle_retire_ok next al n id cv permanent failure n' p : net_ok next n -> n_views n !! id = Some cv ->
  handle_retire al n id cv permanent failure = (n', p) -> net_ok next n' /\ moved next n n'.
Proof.
  intros Hok Hid. destruct (view_of _ _ _ _ Hok Hid) as (Hv & Hos & Hh). unfold handle_retire.
  destruct (view_closed (cv_view cv)) eqn:Hcl; [refused|]. pose proof (open_failure _ _ _ Hv Hcl) as Hf.
  destruct (let '(os, cv', p') := _ in _) as [n1 p1] eqn:Hmain. intros H. injection H as <- <-.
  destruct (if negb (al_reserve al id) then _ else _) as [[os1 cv1] p2] eqn:Hcv. injection Hmain as <- <-. eapply set_view_net; [done|done|].
  assert (forall cv0 error p, same_view cv cv0 /\ cv_events cv0 = cv_events cv ->
    view_step (s_snapshot (n_source n)) (is_some (s_error (n_source n))) (n_observers n) cv (n_observers n) (cv_fail cv0 error p).1) as Hfail.
  { intros cv0 error p0 ((? & ? & ?) & ?). eapply fail_step; try done; try lia. congruence. }
  revert Hcv. destruct (al_reserve al id); cbn [negb]; [|by_failing Hfail]. destruct failure as [error|]; [by_failing Hfail|].
  destruct (view_stop (cv_view cv) permanent) as [v r] eqn:Hst. apply view_stop_cases in Hst as [(Hn & -> & He)|(-> & _ & Hvv)].
  - destruct r as [[]|error]; [done| |by_failing Hfail]. rewrite view_id. intros H. injection H as <- <- <-.
    constructor; [done|by apply result_refl|done].
  - assert (cv <| cv_view := v |> = cv <| cv_view := v; cv_source_revision := cv_source_revision cv |>) as -> by (by destruct cv).
    eapply (prepare_step _ _ _ _ cv); [done|done|done|done| | |by rewrite Hvv].
    + by apply (announces_stop cv v permanent).
    + apply (stop_ok _ _ cv v permanent); [done|apply Hv|apply Hv|apply Hv| |done].
      intros _. destruct (is_some (s_error (n_source n)) || _) eqn:He; [|done]. rewrite (vo_ended _ _ _ Hv He) in Hcl. done.
Qed.

Lemma handle_refresh_ok next al n id cv n' r : net_ok next n -> n_views n !! id = Some cv -> handle_refresh al n id cv = (n', r) ->
  net_ok next n' /\ moved next n n'.
Proof.
  intros Hok Hid. destruct (view_of _ _ _ _ Hok Hid) as (Hv & Hos & Hh). pose proof Hok as [Hc _]. unfold handle_refresh.
  destruct (cv_failure cv) eqn:Hf; [refused|]. destruct (view_closed (cv_view cv)) eqn:Hcl; [refused|].
  destruct (s_error (n_source n)) eqn:He; [refused|]. simpl in Hv.
  assert (is_closed (ns_state (s_snapshot (n_source n))) = false) as Hsc.
  { destruct (is_closed _) eqn:Hsc; [|done]. rewrite (vo_ended _ _ _ Hv) in Hcl; [done|by rewrite Hsc]. }
  assert (view_step (s_snapshot (n_source n)) false (n_observers n) cv (n_observers n) cv) as Hsame.
  { constructor; [done|by apply result_refl|done]. }
  unfold view_refresh. rewrite Hsc. cbn [negb]. rewrite andb_true_r. case_bool_decide as Hpr.
  { intros H. injection H as <- <-. pose proof (view_id cv) as Hvi. simpl in Hvi. rewrite Hvi. eapply set_view_net; [done|done|by rewrite He]. }
  assert (v_active (cv_view cv) = false) as Ha.
  { destruct (v_active (cv_view cv)) eqn:Ha; [|done]. destruct (vo_active _ _ _ Hv Ha) as (_ & _ & Hx & _). congruence. }
  destruct (view_import (cv_view cv) _ true) as [v [[]|error]] eqn:Him; [| |refused].
  - apply view_import_cases in Him as [(Hn & _)|(_ & _ & _ & Hvv)]; [done| |done].
    rewrite (nc_revision _ _ Hc). set (cv0 := cv <| cv_view := v; cv_source_revision := ns_revision (s_snapshot (n_source n)) |>).
    destruct (publish_snapshot _ cv0 _) as [[cv1 p1] failed] eqn:Hps. apply publish_snapshot_same in Hps as (Hsv & Hsq & Hse).
    assert (view_ok (s_snapshot (n_source n)) false cv1) as Hv1.
    { eapply prepared_ok; [|right; split; [exact Hsv|]].
      - unfold cv0. rewrite Hvv. destruct Hv. constructor; simpl; rewrite ?Hf, ?Hsc, ?Ha; try done. apply Hc.
      - unfold cv0. rewrite Hvv. unfold view_closed. simpl. by rewrite Hsc. }
    assert (view_step (s_snapshot (n_source n)) false (n_observers n) cv (n_observers n) cv1) as Hst1.
    { destruct Hsv as (Hsv1 & Hsv2 & Hsv3). unfold cv0 in Hsv1, Hsv2, Hsq, Hse. simpl in *. constructor; [done| |by rewrite Hsv1, Hvv].
      constructor; [done|apply only_queues_refl|by rewrite Hse|]. rewrite Hse. eapply holds_last_impl; [exact Hh|]. intros e [Lq Lg Ls Lr Lm Lo Ll La].
      destruct Hv. constructor; rewrite ?Hsv1, ?Hsv2, ?Hsq, ?Hvv; simpl; try done; try lia; [|congruence]. intros _. by apply Lo. }
    destruct failed as [error|]; intros H.
    + destruct (cv_fail cv1 error p1) as [cv2 p2] eqn:Hcf. injection H as <- <-. eapply set_view_net; [done|done|]. rewrite He. simpl.
      destruct (cv_fail_result (n_observers n) cv1 error p1) as [Hx Hy]; [done|by destruct Hsv as (_ & _ & ->)|]. rewrite Hcf in Hx, Hy. simpl in *.
      destruct Hv1, Hst1. constructor; [by eapply failed_ok|by eapply view_result_trans|]. destruct Hx. lia.
    + injection H as <- <-. eapply set_view_net; [done|done|]. by rewrite He.
  - apply view_import_cases in Him as [(_ & -> & _)|(Hr & _)]; [|done|done].
    intros H. injection H as <- <-. pose proof (view_id cv) as Hvi. simpl in Hvi. rewrite Hvi. eapply set_view_net; [done|done|by rewrite He].
Qed.

(** ** Queues and views come and go *)

(** The queues take nothing and keep their receivers, or lose them. *)
Definition keeps_last (os os' : gmap nat Observer) : Prop := forall P ids, holds_last P os ids -> holds_last P os' ids.

Lemma observers_net next n os' : net_ok next n -> observers_ok os' -> dom os' = dom (n_observers n) -> keeps_last (n_observers n) os' ->
  net_ok next (n <| n_observers := os' |>).
Proof.
  intros [[] Ha] Hos Hd Hk. split; [|done]. constructor; simpl; try done.
  - intros id Hid. apply nc_fresh_observers0. apply elem_of_dom. apply elem_of_dom in Hid. by rewrite Hd in Hid.
  - destruct nc_shared0. constructor; try done. intros id cv Hid. by apply Hk, (so_last0 id).
Qed.

Lemma finish_keeps os ids failure : observers_ok os ->
  let os' := (finish_observers os ids failure).1 in observers_ok os' /\ dom os' = dom os /\ keeps_last os os'.
Proof.
  intros Hos. destruct (finish_observers_ok (fun _ => True) [] failure ids os Hos) as (H1 & [_ H2] & _). split_and!; [done|done|].
  intros P ids'. by apply (finish_observers_ok P ids' failure ids os Hos).
Qed.

Lemma alter_keeps (f : Observer -> Observer) os id : observers_ok os ->
  (forall o, observer_ok o -> observer_ok (f o) /\ ob_accepted (f o) = ob_accepted o /\
     (eactive (ob_state (f o)) = true -> eactive (ob_state o) = true)) ->
  observers_ok (alter f id os) /\ dom (alter f id os) = dom os /\ keeps_last os (alter f id os).
Proof.
  intros Hos Hf. split_and!; [|by rewrite dom_alter_L|].
  - intros j o Hj. destruct (decide (j = id)) as [->|]; [|rewrite lookup_alter_ne in Hj by done; by eapply Hos].
    rewrite lookup_alter_eq in Hj. destruct (os !! id) as [o0|] eqn:Ho; simplify_eq/=. apply Hf. by eapply Hos.
  - intros P ids [Hn Hh]. split; [done|]. intros j Hj. destruct (Hh j Hj) as (o & Ho & He).
    destruct (decide (j = id)) as [->|]; [|rewrite lookup_alter_ne by done; eauto].
    exists (f o). rewrite lookup_alter_eq, Ho. split; [done|]. destruct (Hf o) as (_ & -> & Hx); [by eapply Hos|]. intros H. by apply He, Hx.
Qed.

Lemma poll_step next n id : net_ok next n -> net_ok next (n <| n_observers ::= alter observer_poll id |>).
Proof.
  intros Hok. destruct (alter_keeps observer_poll (n_observers n) id) as (H1 & H2 & H3).
  - apply Hok.
  - intros o Ho. by apply poll_ok.
  - exact (observers_net next n _ Hok H1 H2 H3).
Qed.

Lemma receiver_drop_step next n id : net_ok next n -> net_ok next (n <| n_observers ::= alter observer_drop id |>).
Proof.
  intros Hok. destruct (alter_keeps observer_drop (n_observers n) id) as (H1 & H2 & H3).
  - apply Hok.
  - intros o Ho. destruct (drop_ok o Ho) as (? & ? & ->). done.
  - exact (observers_net next n _ Hok H1 H2 H3).
Qed.

Lemma drop_view_ok next n id : net_ok next n -> net_ok next (drop_view n id) /\ moved next n (drop_view n id).
Proof.
  intros Hok. unfold drop_view. destruct (n_views n !! id) as [cv|] eqn:Hid; [|split; [done|apply moved_refl]].
  destruct (view_of _ _ _ _ Hok Hid) as (_ & Hos & _).
  destruct (finish_keeps (n_observers n) (cv_events cv) None Hos) as (H1 & H2 & H3).
  destruct (finish_observers _ _ _) as [os ps]. simpl in *. pose proof (observers_net next n os Hok H1 H2 H3) as [[] Ha].
  split; [|constructor; simpl; [done|]; intros j c Hj _; apply lookup_delete_Some in Hj as [_ Hj]; by exists c].
  split; [|done]. constructor; simpl in *; try done.
  - intros j c Hj. apply lookup_delete_Some in Hj as [_ Hj]. eauto.
  - destruct nc_shared0. constructor; try done.
    + intros j c Hj. apply lookup_delete_Some in Hj as [_ Hj]. eauto.
    + intros j c Hj. apply lookup_delete_Some in Hj as [_ Hj]. eauto.
    + intros i j ci cj Hi Hj. apply lookup_delete_Some in Hj as [_ Hj]. apply lookup_delete_Some in Hi as [_ Hi]. eauto.
Qed.

(** A view whose linked parts are the same. *)
Lemma same_step snap failed os cv cv' : view_ok snap failed cv -> observers_ok os -> holds_last (linked cv) os (cv_events cv) ->
  same_view cv cv' -> cv_sequence cv' = cv_sequence cv -> cv_events cv' = cv_events cv -> view_step snap failed os cv os cv'.
Proof.
  intros Hv Hos Hh Hs Hq He. constructor.
  - eapply prepared_ok; [|right; split; [exact Hs|]].
    + pose proof (vo_closed _ _ _ Hv) as Hvc. destruct Hv. constructor; try done. intros H. split; [by apply Hvc|done].
    + intros H. rewrite He. by apply Hv.
  - constructor; [done|apply only_queues_refl|by rewrite He|]. rewrite He. eapply holds_last_impl; [exact Hh|]. intros e. by apply linked_same.
  - destruct Hs as (-> & _). done.
Qed.

Lemma alter_present {A} (f : A -> A) (m : gmap nat A) i x : m !! i = Some x -> alter f i m = <[i := f x]> m.
Proof.
  intros Hx. apply map_eq. intros j. destruct (decide (j = i)) as [->|].
  - by rewrite lookup_alter_eq, lookup_insert_eq, Hx.
  - by rewrite lookup_alter_ne, lookup_insert_ne.
Qed.

Lemma alter_missing {A} (f : A -> A) (m : gmap nat A) i : m !! i = None -> alter f i m = m.
Proof.
  intros Hx. apply map_eq. intros j. destruct (decide (j = i)) as [->|]; [by rewrite lookup_alter_eq, Hx|by rewrite lookup_alter_ne].
Qed.

Lemma dispatch_view_ok next n id p : net_ok next n -> net_ok next (dispatch_view n id p) /\ moved next n (dispatch_view n id p).
Proof.
  intros Hok. unfold dispatch_view. set (n0 := n <| n_views ::= _ |>).
  assert (net_ok next n0 /\ moved next n n0) as [Hok0 Hm0].
  { destruct (n_views n !! id) as [cv|] eqn:Hid.
    - destruct (view_of _ _ _ _ Hok Hid) as (Hv & Hos & Hh).
      assert (n0 = set_view n id (n_observers n) (notify_invalidation cv p)) as ->.
      { unfold n0, set_view. simpl. by rewrite (alter_present _ _ _ _ Hid). }
      eapply set_view_net; [done|done|]. unfold notify_invalidation.
      by destruct (vp_invalidation p) as [epoch|]; [destruct (epoch <=? _)|]; apply same_step.
    - assert (n0 = n) as -> by (unfold n0; simpl; rewrite (alter_missing _ _ _ Hid); by destruct n). split; [done|apply moved_refl]. }
  clearbody n0. pose proof (nc_shared _ _ (proj1 Hok0)) as [Hos _ _ _].
  destruct (finish_keeps (n_observers n0) (default [] (vp_terminal_publishers p)) (vp_terminal_failure p) Hos) as (A1 & A2 & A3).
  destruct (finish_observers (n_observers n0) _ _) as [os1 ps1]. simpl in *.
  destruct (finish_keeps os1 (vp_retired p) None A1) as (B1 & B2 & B3). destruct (finish_observers os1 _ _) as [os2 ps2]. simpl in *.
  split; [apply observers_net; [done|done|congruence|]|by destruct Hm0]. intros P ids H. by apply B3, A3.
Qed.

Lemma count_steps_nonneg {A} (f : A -> A -> bool) l : 0 <= count_steps f l.
Proof.
  induction l as [|a l IH]; [done|]. destruct l as [|b l]; [done|]. simpl in *. destruct (f a b); lia.
Qed.

(** The revisions of the history count it. *)
Lemma history_revisions l : head l = Some first_snapshot -> chain fact_follows l ->
  forall i s, l !! i = Some s -> ns_revision s = Z.of_nat i.
Proof.
  intros Hh Hc i. induction i as [|i IH]; intros s Hs.
  - rewrite head_lookup in Hh. by simplify_eq.
  - destruct (l !! i) as [a|] eqn:Ha.
    + pose proof (ff_revision _ _ (Hc i a s Ha Hs)). specialize (IH a eq_refl). lia.
    + apply lookup_ge_None in Ha. apply lookup_lt_Some in Hs. lia.
Qed.

Lemma source_nonneg next n : net_core next n ->
  0 <= ns_revision (s_snapshot (n_source n)) /\ 0 <= ns_loss_epoch (s_snapshot (n_source n)).
Proof.
  intros []. split; [|rewrite nc_losses0; apply count_steps_nonneg]. rewrite last_lookup in nc_last0.
  rewrite (history_revisions _ nc_first0 nc_history0 _ _ nc_last0). lia.
Qed.

Lemma new_view_ok next reserve n n' r : net_ok next n -> new_view reserve n next = (n', r) -> net_ok (S next) n' /\ moved next n n'.
Proof.
  intros Hok. pose proof (fresh_weaken next (S next) n) as Hw. unfold new_view.
  destruct (is_closed _) eqn:Hcl. { intros H. simplify_eq. split; [by apply Hw; [lia|]|apply moved_refl]. }
  destruct (s_error (n_source n)) eqn:He. { intros H. simplify_eq. split; [by apply Hw; [lia|]|apply moved_refl]. }
  destruct (source_nonneg next n) as [Hnr Hnl]; [apply Hok|].
  set (alive := filter _ _). pose proof Hok as [[] Ha]. rewrite He in *.
  assert (forall id, id ∈ alive -> id ∈ s_views (n_source n)) as Hal by (intros id Hid; by apply list_elem_of_filter in Hid as [_ ?]).
  assert (forall id cv, n_views n !! id = Some cv -> id ∈ alive) as Hin.
  { intros id cv Hid. apply list_elem_of_filter. split; [by eexists|by eapply nc_registered0]. }
  assert (NoDup alive) as Hna by (by apply NoDup_filter).
  assert (n_views n !! next = None) as Hnone.
  { destruct (n_views n !! next) eqn:Hx; [|done]. apply nc_registered0, nc_fresh_views0 in Hx. lia. }
  assert (next ∉ alive) as Hni by (intros Hx; apply Hal, nc_fresh_views0 in Hx; lia).
  destruct reserve; simpl; intros H; injection H as <- <-.
  - split.
    + split; [|intros Hact; simpl in *; by rewrite He]. constructor; simpl; rewrite ?He; simpl; try done.
      * apply NoDup_app. split_and!; [done|set_solver|apply NoDup_singleton].
      * intros id cv Hid. apply elem_of_app. destruct (decide (id = next)) as [->|]; simplify_map_eq; [right; set_solver|left; eauto].
      * intros id [Hid|Hid]%elem_of_app; [specialize (nc_fresh_views0 id (Hal id Hid)); lia|apply list_elem_of_singleton in Hid; lia].
      * intros id Hid. specialize (nc_fresh_observers0 id Hid). lia.
      * destruct nc_shared0. constructor; [done|..].
        -- intros id cv Hid. destruct (decide (id = next)) as [->|]; simplify_map_eq; [|eauto].
           constructor; simpl; try done. by rewrite Hcl.
        -- intros id cv Hid. destruct (decide (id = next)) as [->|]; simplify_map_eq; [apply holds_last_nil|eauto].
        -- intros i j ci cj Hi Hj Hne. destruct (decide (i = next)) as [->|], (decide (j = next)) as [->|]; simplify_map_eq; try set_solver.
    + constructor; simpl; [done|]. intros id cv Hid Hlt. rewrite lookup_insert_ne in Hid by lia. by exists cv.
  - split; [|by apply moved_same]. split; [|done]. constructor; simpl; rewrite ?He; simpl; try done.
    + intros id Hid. specialize (nc_fresh_views0 id (Hal id Hid)). lia.
    + intros id Hid. specialize (nc_fresh_observers0 id Hid). lia.
Qed.

(** ** Subscriptions *)

(** A channel that took its seed. *)
Lemma seed_ok max_permits reserve limit registration state initial size closed failure state' p :
  event_channel (T := NetworkEvent) (R := ()) max_permits reserve limit EventOverflow.Disconnect true = Ok (registration, state) ->
  commit_seed registration state (mkEventSeed [(initial, size)] 0 closed failure) = (state', p) -> event_result p = Ok tt ->
  ne_kind initial = NetworkEventKind.Initial -> observer_ok (mkObserver registration state' [initial] []).
Proof.
  intros Hch Hs Hr Hk. assert (ereg_overflow registration = EventOverflow.Disconnect /\ state = event_state_new true) as [Hov ->].
  { unfold event_channel in Hch. repeat case_match; by simplify_eq/=. }
  assert (eactive state' = true /\ lagged state' = 0 /\ map value (equeue state') = [initial]) as (Ha & Hl & Hq).
  { unfold commit_seed in Hs. repeat (case_match; simplify_eq/=; try done). }
  constructor; simpl; try done.
  - by exists initial, [].
  - congruence.
  - by exists [initial].
Qed.

(** Queues without a receiver are forgotten. *)
Lemma prune_step snap failed os cv : view_ok snap failed cv -> observers_ok os -> holds_last (linked cv) os (cv_events cv) ->
  view_step snap failed os cv os (cv <| cv_events ::= live_observers os |>).
Proof.
  intros Hv Hos Hh. assert (forall id, id ∈ live_observers os (cv_events cv) -> id ∈ cv_events cv) as Hsub.
  { intros id Hid. by apply list_elem_of_filter in Hid as [_ ?]. }
  constructor; [|constructor; [done|apply only_queues_refl|done|]|done].
  - pose proof (vo_closed _ _ _ Hv) as Hvc. destruct Hv. constructor; simpl; try done. intros H. destruct (Hvc H) as [? He]. split; [done|].
    by rewrite He.
  - destruct Hh as [Hn Hl]. split; [by apply NoDup_filter|]. intros id Hid. destruct (Hl id (Hsub id Hid)) as (o & Ho & He).
    exists o. split; [done|]. intros Ha. destruct (He Ha) as (e & ? & []). exists e. split; [done|]. by constructor.
Qed.

(** A new queue, which an open view serves from now on. *)
Lemma add_observer next n id cv o : net_ok next n -> n_views n !! id = Some cv -> observer_ok o ->
  last (ob_accepted o) = Some (cv_event cv NetworkEventKind.Initial) ->
  net_ok (S next) (set_view n id (<[next := o]> (n_observers n))
    (if view_closed (cv_view cv) then cv else cv <| cv_events ::= (fun l => l ++ [next]) |>)).
Proof.
  intros Hok Hid Ho Hlast. set (cv' := if view_closed (cv_view cv) then _ else _). pose proof Hok as [[] Ha].
  assert (n_observers n !! next = None) as Hnone.
  { destruct (n_observers n !! next) eqn:Hx; [|done]. specialize (nc_fresh_observers0 next). rewrite Hx in nc_fresh_observers0.
    assert (next < next)%nat by (apply nc_fresh_observers0; by eexists). lia. }
  destruct nc_shared0 as [Sos Sv Sl Sd].
  assert (forall i ci x, n_views n !! i = Some ci -> x ∈ cv_events ci -> x <> next) as Hold.
  { intros i ci x Hi Hx ->. destruct (hl_last _ _ _ (Sl i ci Hi) next Hx) as (ox & Hox & _). congruence. }
  assert (same_view cv cv' /\ cv_sequence cv' = cv_sequence cv) as [Hsv Hsq] by (unfold cv'; by destruct (view_closed _)).
  assert (forall x, x ∈ cv_events cv' -> x ∈ cv_events cv \/ x = next) as Hev.
  { unfold cv'. destruct (view_closed _); [by left|]. simpl. intros x [Hx|Hx]%elem_of_app; [by left|right; by apply list_elem_of_singleton in Hx]. }
  assert (forall P i ci, n_views n !! i = Some ci -> holds_last P (n_observers n) (cv_events ci) ->
    holds_last P (<[next := o]> (n_observers n)) (cv_events ci)) as Hkeep.
  { intros P i ci Hi [Hn Hh]. split; [done|]. intros x Hx. rewrite lookup_insert_ne; [by apply Hh|]. intros <-. by eapply Hold. }
  assert (view_closed (cv_view cv) = true -> cv_events cv' = []) as Hcl.
  { intros Hcl. unfold cv'. rewrite Hcl. by apply (vo_closed _ _ _ (Sv id cv Hid)). }
  assert (holds_last (linked cv) (<[next := o]> (n_observers n)) (cv_events cv')) as Hnew.
  { unfold cv'. destruct (view_closed _); [by eapply Hkeep, Sl|]. simpl. destruct (Hkeep _ id cv Hid (Sl id cv Hid)) as [Hn Hh].
    split; [apply NoDup_app; split_and!; [done| |apply NoDup_singleton]|].
    - intros x Hx Hy. apply list_elem_of_singleton in Hy. by eapply Hold.
    - intros x [Hx|Hx]%elem_of_app; [by apply Hh|]. apply list_elem_of_singleton in Hx as ->. exists o. rewrite lookup_insert_eq.
      split; [done|]. intros _. exists (cv_event cv NetworkEventKind.Initial). split; [done|apply cv_event_linked]. }
  clearbody cv'.
  assert (forall i ci, <[id := cv']> (n_views n) !! i = Some ci -> (i = id /\ ci = cv') \/ (i <> id /\ n_views n !! i = Some ci)) as Hins.
  { intros i ci [[-> <-]|[? ?]]%lookup_insert_Some; [by left|by right]. }
  split; [|done]. constructor; simpl; try done.
  - intros i ci [[-> _]|[_ Hi]]%Hins; eauto.
  - intros i Hi. specialize (nc_fresh_views0 i Hi). lia.
  - intros i Hi. destruct (decide (i = next)) as [->|]; [lia|]. rewrite lookup_insert_ne in Hi by done. specialize (nc_fresh_observers0 i Hi). lia.
  - constructor.
    + by apply map_Forall_insert_2.
    + intros i ci [[-> ->]|[_ Hi]]%Hins; [|by eapply Sv]. eapply prepared_ok; [|right; by split].
      pose proof (vo_closed _ _ _ (Sv id cv Hid)) as Hvc. destruct (Sv id cv Hid). constructor; try done. intros H. split; [by apply Hvc|done].
    + intros i ci [[-> ->]|[_ Hi]]%Hins; [|by eapply Hkeep, Sl]. eapply holds_last_impl; [exact Hnew|]. intros e. by apply linked_same.
    + intros i j ci cj [[-> ->]|[Hi' Hi]]%Hins [[-> ->]|[Hj' Hj]]%Hins Hne x Hxi Hxj; [done| | |by eapply (Sd i j)].
      * apply Hev in Hxi as [Hxi| ->]; [by eapply (Sd id j)|by eapply Hold].
      * apply Hev in Hxj as [Hxj| ->]; [by eapply (Sd i id)|by eapply Hold].
Qed.

Lemma handle_subscribe_ok next max_permits permit reserve n id cv capacity max_bytes n' r : net_ok next n -> n_views n !! id = Some cv ->
  handle_subscribe max_permits permit reserve n id cv capacity max_bytes next = (n', r) -> net_ok (S next) n' /\ moved next n n'.
Proof.
  intros Hok Hid. assert (net_ok (S next) n /\ moved next n n) as Hsame by (split; [eapply fresh_weaken; [|done]; lia|apply moved_refl]).
  unfold handle_subscribe. destruct permit; cbn [negb]; [|by intros; simplify_eq].
  destruct (event_channel _ _ _ _ _) as [[registration state]|error] eqn:Hch; [|by intros; simplify_eq].
  destruct reserve as [[r1 r2] r3]. cbn [fst snd]. destruct r2; cbn [negb]; [|by intros; simplify_eq].
  set (cv1 := cv <| cv_events ::= live_observers (n_observers n) |>).
  destruct (view_of _ _ _ _ Hok Hid) as (Hv & Hos & Hh).
  destruct (set_view_net next n id cv (n_observers n) cv1 Hok Hid) as [Hok1 Hm1]; [by apply prune_step|].
  assert (net_ok (S next) (set_view n id (n_observers n) cv1)) as Hok1' by (eapply fresh_weaken; [|done]; lia).
  destruct (negb (view_closed (cv_view cv)) && negb r3); [by intros; simplify_eq|].
  destruct (commit_seed _ _ _) as [state' prepared] eqn:Hs. destruct (event_result prepared) as [[]|error] eqn:Hr; [|by intros; simplify_eq].
  intros H. injection H as <- <-. set (o := mkObserver _ _ _ _).
  assert (observer_ok o) as Ho by (by eapply seed_ok).
  pose proof (add_observer next (set_view n id (n_observers n) cv1) id cv1 o Hok1) as Hadd.
  unfold set_view in Hadd. simpl in Hadd. rewrite lookup_insert_eq in Hadd. specialize (Hadd eq_refl Ho eq_refl).
  rewrite insert_insert_eq in Hadd. split; [exact Hadd|].
  constructor; [done|]. simpl. intros i ci Hi Hlt. destruct (decide (i = id)) as [->|]; simplify_map_eq; [|by exists ci].
  exists cv. split; [done|]. by destruct (view_closed _).
Qed.

Lemma commit_refresh_ok next al n id cv target sample_id reachability at_ validate n' r : net_ok next n ->
  commit_refresh al n id cv target sample_id reachability at_ validate = (n', r) -> net_ok next n' /\ moved next n n'.
Proof.
  intros Hok. unfold commit_refresh. destruct (cv_failure cv); [refused|].
  destruct (view_closed (cv_view cv)); cbn [orb]; [refused|]. destruct (is_closed _) eqn:Hcl; [refused|].
  destruct (_ || (sample_id <=? _)) eqn:Hx; [refused|]. destruct validate as [[]|error]; [|refused].
  assert (s_active (n_source n) = true /\ s_last_sample_id (n_source n) < sample_id) as [Hact Hlt].
  { unfold both_running in Hx. rewrite !orb_false_iff, !negb_false_iff, !andb_true_iff, Z.leb_gt in Hx. tauto. }
  destruct (take_sample _ _ _ _ _ _) as [n1 [p1|error]] eqn:Ht; intros H; injection H as <- <-;
    (eapply take_sample_ok; [done|by apply Hok|done|done|exact Ht]).
Qed.

(** ** Runs *)

Definition world_ok (w : NetWorld) : Prop := net_ok (w_next w) (w_net w).

Record world_moved (w w' : NetWorld) : Prop := {
  wm_ok : world_ok w';
  wm_next : (w_next w <= w_next w')%nat;
  wm_net : moved (w_next w) (w_net w) (w_net w');
}.

Lemma with_views_moved w n views : net_ok (w_next w) n /\ moved (w_next w) (w_net w) n -> world_moved w (with_views w n views).
Proof. intros [? ?]. by constructor. Qed.

Lemma on_view_moved w id f : world_ok w -> (forall cv, n_views (w_net w) !! id = Some cv -> world_moved w (f cv)) ->
  world_moved w (on_view w id f).
Proof.
  intros Hw Hf. unfold on_view. destruct (n_views (w_net w) !! id) eqn:Hid; [by apply Hf|]. constructor; [done|done|apply moved_refl].
Qed.

Ltac settle_op lemma :=
  match goal with
  | |- context [let '(_, _) := ?call in _] => destruct call eqn:?; apply with_views_moved; by eapply lemma
  end.

Lemma net_step_ok w op : world_ok w -> world_moved w (net_step w op).
Proof.
  intros Hw. pose proof Hw as Hok. unfold world_ok in Hok. destruct op; cbn [net_step].
  - destruct (new_view _ _ _) as [n r] eqn:H. eapply new_view_ok in H as [? ?]; [|done]. by constructor; [|simpl; lia|].
  - destruct (drop_view_ok (w_next w) (w_net w) id Hok). by constructor.
  - settle_op source_fail_ok.
  - settle_op begin_generation_ok.
  - settle_op prepare_terminal_ok.
  - settle_op prepare_observation_ok.
  - settle_op sampled_ok.
  - settle_op observation_finish_ok.
  - apply on_view_moved; [done|]. intros cv Hid. settle_op handle_activate_ok.
  - apply on_view_moved; [done|]. intros cv Hid. settle_op handle_retire_ok.
  - apply on_view_moved; [done|]. intros cv Hid. settle_op handle_refresh_ok.
  - apply on_view_moved; [done|]. intros cv Hid. destruct (handle_subscribe _ _ _ _ _ _ _ _ _) as [n r] eqn:H.
    eapply handle_subscribe_ok in H as [? ?]; [|done|done]. by constructor; [|simpl; lia|].
  - apply on_view_moved; [done|]. intros cv Hid. settle_op commit_refresh_ok.
  - destruct (w_pending w !! index) as [[id p]|]; [|constructor; [done|done|apply moved_refl]].
    destruct (dispatch_view_ok (w_next w) (w_net w) id p Hok). by constructor.
  - constructor; [by apply poll_step|done|by apply moved_same].
  - constructor; [by apply receiver_drop_step|done|by apply moved_same].
Qed.

Lemma net_run_ok ops : forall w, world_ok w -> world_moved w (net_run w ops).
Proof.
  induction ops as [|op ops IH]; intros w Hw; [constructor; [done|done|apply moved_refl]|].
  destruct (net_step_ok w op Hw) as [H1 H2 H3]. destruct (IH _ H1) as [G1 G2 G3]. constructor; [done|simpl; lia|]. by eapply moved_trans.
Qed.

Lemma world_new_ok : world_ok NetWorld_new.
Proof.
  split; [|done]. constructor; try done.
  - constructor.
  - intros id Hid. by apply elem_of_nil in Hid.
  - intros id [o Ho]. done.
Qed.

Lemma reached ops : world_ok (net_run NetWorld_new ops).
Proof. apply (net_run_ok ops), world_new_ok. Qed.

(** C31. The facts of the network are lawful in every interleaving.  The snapshots the source
    commits have the revisions 0, 1, 2 and so on, carry an observation exactly while the monitor
    runs, and their loss epoch rises by one with exactly those that show the network unavailable
    when the snapshot before did not (because it showed it available, or knew nothing of it); nothing
    follows a closed snapshot.  What WebSocket tasks wait on is the reachability of the last snapshot,
    with a revision that counts its changes, and nothing at all once the source has failed. *)
Theorem network_facts_lawful ops :
  let n := w_net (net_run NetWorld_new ops) in
  chain fact_follows (n_history n) /\ last (n_history n) = Some (s_snapshot (n_source n)) /\
  (forall i s, n_history n !! i = Some s -> ns_revision s = Z.of_nat i) /\
  ns_loss_epoch (s_snapshot (n_source n)) = losses (n_history n) /\
  match source_snapshot n with
  | Ok s => n_facts n = s /\ g_status (n_gate n) = ns_reachability s /\ g_revision (n_gate n) = changes (n_history n)
  | Err _ => g_status (n_gate n) = None
  end.
Proof.
  destruct (reached ops) as [[] _]. cbv zeta. split_and!; try done.
  - by apply history_revisions.
  - unfold source_snapshot. rewrite nc_gate0. destruct (s_error _); simpl in *; [done|]. split_and!; auto.
Qed.

(** C21. A named view that is active shows the facts of the shared source: its snapshot is the
    current one of the source but for the revision, which is its own, and it was taken over at the
    revision the view reports.  When the source has failed or closed, every view is closed, and a
    closed view neither is active nor has observers. *)
Theorem network_views_current ops :
  let n := w_net (net_run NetWorld_new ops) in
  map_Forall (fun _ cv =>
    (v_active (cv_view cv) = true ->
       handle_current cv = Ok (cv_view cv) /\
       v_snapshot (cv_view cv) = (s_snapshot (n_source n)) <| ns_revision := ns_revision (v_snapshot (cv_view cv)) |> /\
       cv_source_revision cv = s_revision (n_source n)) /\
    (is_err (source_snapshot n) || is_closed (ns_state (s_snapshot (n_source n))) = true -> view_closed (cv_view cv) = true) /\
    (view_closed (cv_view cv) = true -> v_active (cv_view cv) = false /\ cv_events cv = [])) (n_views n).
Proof.
  cbv zeta. intros id cv Hid. destruct (reached ops) as [Hc _]. pose proof (so_views _ _ _ (nc_shared _ _ Hc) id cv Hid) as Hv. cbv beta in Hv.
  split_and!.
  - intros Ha. destruct (vo_active _ _ _ Hv Ha) as (Hs & _ & _ & Hr). rewrite (nc_revision _ _ Hc). split_and!; [|done|done].
    unfold handle_current. destruct (cv_failure cv) eqn:Hf; [|done]. pose proof (vo_failure _ _ _ Hv) as Hx. rewrite Hf in Hx.
    destruct (vo_closed _ _ _ Hv (Hx eq_refl)). congruence.
  - intros H. apply (vo_ended _ _ _ Hv). revert H. unfold source_snapshot. by destruct (s_error _).
  - apply Hv.
Qed.

(** C7. An observer of a view is given its events without a gap.  What it received is a prefix of
    what its queue took; that begins with the baseline of the subscription, and every event
    has the next sequence number, a newer snapshot, and tells the truth about the change since the
    event before it: a reported change of reachability starts from what that event showed, within
    one activation, and one to unavailable raises the loss epoch; a lifecycle event shows a monitor
    that does not run, and another activation or another state than the event before it, but for
    a second stop of a view that took a snapshot silently while it was inactive, which skips a
    revision.  As long as the view serves the queue of a receiver, the last event in it is the
    last one of the view, and while the view is active it shows the reachability of the view. *)
Theorem network_observers_exact ops :
  let n := w_net (net_run NetWorld_new ops) in
  map_Forall (fun _ o =>
    (exists rest, ob_accepted o = ob_received o ++ rest) /\ chain event_follows (ob_accepted o) /\
    exists e l, ob_accepted o = e :: l /\ ne_kind e = NetworkEventKind.Initial) (n_observers n) /\
  map_Forall (fun _ cv =>
    forall id, id ∈ cv_events cv -> exists o, n_observers n !! id = Some o /\
      (eactive (ob_state o) = true -> ob_received o ++ map value (equeue (ob_state o)) = ob_accepted o /\
         exists e, last (ob_accepted o) = Some e /\ linked cv e)) (n_views n).
Proof.
  cbv zeta. destruct (reached ops) as [Hc _]. destruct (nc_shared _ _ Hc) as [Hos _ Hl _]. split.
  - intros id o Ho. by destruct (Hos id o Ho).
  - intros id cv Hid x Hx. destruct (hl_last _ _ _ (Hl id cv Hid) x Hx) as (o & Ho & He). exists o. split; [done|]. intros Ha. split; [|by apply He].
    by apply (Hos x o Ho).
Qed.

(** Publishing leaves the samples alone. *)
Definition same_samples (n n' : Net) : Prop :=
  n_samples n' = n_samples n /\ s_last_sample_id (n_source n') = s_last_sample_id (n_source n).

Lemma project_loop_samples al failure ids : forall n n' ps, project_loop al failure n ids = (n', ps) -> same_samples n n'.
Proof.
  induction ids as [|id ids IH]; intros n n' ps; simpl; [by intros; simplify_eq|].
  destruct (n_views n !! id) as [cv|]; [|apply IH]. destruct (project_view _ _ _ _ _ _) as [[os cv1] p].
  destruct (project_loop _ _ _ ids) as [n1 ps1] eqn:Hl. intros H. simplify_eq. by apply IH in Hl.
Qed.

Lemma fail_samples al n error original n' p : fail_publication al n error original = (n', p) -> same_samples n n'.
Proof.
  unfold fail_publication. destruct (prepare_failure _ _). destruct (project_views _ _ _) as [n1 views] eqn:Hp. intros H. simplify_eq.
  by apply project_loop_samples in Hp.
Qed.

Lemma commit_samples al n s closing n' p : net_commit al n s closing = (n', p) -> same_samples n n'.
Proof.
  unfold net_commit. destruct (next_gating _ _) as [gating|error]; [|apply fail_samples].
  destruct (if closing then _ else _) as [publisher publication]. destruct (sp_result publication); [|by intros H%fail_samples].
  destruct (project_views _ _ _) as [n1 views] eqn:Hp. intros H. simplify_eq. by apply project_loop_samples in Hp.
Qed.

Lemma take_sample_result next al n sample_id reachability ip_stack at_ n' p : net_ok next n -> s_error (n_source n) = None ->
  s_last_sample_id (n_source n) < sample_id -> is_closed (ns_state (s_snapshot (n_source n))) = false ->
  take_sample al n sample_id reachability ip_stack at_ = (n', Ok p) ->
  n_samples n' = n_samples n ++ [sample_id] /\ s_last_sample_id (n_source n') = sample_id /\
  (np_result p = Ok tt -> ns_reachability (s_snapshot (n_source n')) = Some reachability).
Proof.
  intros [Hc Ha] He Hlt Hcl. unfold take_sample. set (n0 := n <| n_source ::= _; n_samples ::= _ |>).
  assert (net_core next n0) as Hc0 by (by apply sample_noted).
  destruct (same_observation _ _ _) eqn:Hs.
  { intros H. injection H as <- <-. split_and!; [done|done|]. intros _. unfold same_observation in Hs.
    rewrite !andb_true_iff, !bool_decide_eq_true in Hs. tauto. }
  destruct (next_snapshot _ _ _ _ _) as [s|error] eqn:Hn; [|done]. eapply next_snapshot_ok in Hn as (Hff & _ & Hre & _); [|done|done|done].
  destruct (net_commit al n0 s false) as [n1 p1] eqn:Hcom. intros H. injection H as <- <-.
  destruct (commit_samples _ _ _ _ _ _ Hcom) as [-> ->]. split_and!; [done|done|]. intros Hr.
  destruct (commit_ok _ _ _ _ _ _ _ Hc0 He Hff Hcom) as (_ & _ & _ & [(_ & _ & -> & _)|(_ & Hx & _)]); [done|]. by rewrite Hr in Hx.
Qed.

(** C32. A refresh that was started in one activation of a view and one generation of the monitor
    takes effect only while both last: when its sample is committed, no step since the refresh
    was started began another activation of the view or another generation of the source.  The
    sample is newer than every sample the source ever took, it is the last one now, and when
    publishing it succeeded the source shows the reachability it found. *)
Theorem refresh_in_generation ops1 ops2 id cv target al cv' sample_id reachability at_ validate n' snapshot p :
  let w := net_run NetWorld_new ops1 in
  let w' := net_run w ops2 in
  n_views (w_net w) !! id = Some cv -> refresh_target (w_net w) cv = Ok target -> n_views (w_net w') !! id = Some cv' ->
  commit_refresh al (w_net w') id cv' target sample_id reachability at_ validate = (n', Ok (snapshot, p)) ->
  (forall a b, ops2 = a ++ b ->
     s_generation (n_source (w_net (net_run w a))) = rt_source_generation target /\
     exists c, n_views (w_net (net_run w a)) !! id = Some c /\ v_generation (cv_view c) = rt_owner_generation target) /\
  Forall (fun i => i < sample_id) (n_samples (w_net w')) /\
  n_samples n' = n_samples (w_net w') ++ [sample_id] /\ s_last_sample_id (n_source n') = sample_id /\
  (np_result p = Ok tt -> ns_reachability (s_snapshot (n_source n')) = Some reachability).
Proof.
  intros w w' Hid Ht Hid' Hcom. pose proof (reached ops1) as Hw. fold w in Hw. destruct (net_run_ok ops2 w Hw) as [Hw' _ _]. fold w' in Hw'.
  assert (rt_owner_generation target = v_generation (cv_view cv) /\ rt_source_generation target = s_generation (n_source (w_net w))) as [Ho Hs].
  { revert Ht. unfold refresh_target. repeat case_match; intros; by simplify_eq. }
  assert (id < w_next w)%nat as Hlt.
  { destruct Hw as [Hc _]. by eapply (nc_fresh_views _ _ Hc), (nc_registered _ _ Hc). }
  revert Hcom. unfold commit_refresh. destruct (cv_failure cv'); [done|]. destruct (view_closed (cv_view cv')); cbn [orb]; [done|].
  destruct (is_closed _) eqn:Hcl; [done|]. destruct (_ || (sample_id <=? _)) eqn:Hx; [done|].
  unfold both_running in Hx. rewrite !orb_false_iff, !negb_false_iff, !andb_true_iff, !Z.eqb_eq, Z.leb_gt in Hx.
  destruct Hx as (((Ho' & Hs') & (((_ & Hact) & _) & _)) & Hsample). destruct validate; [|done].
  destruct (take_sample _ _ _ _ _ _) as [n1 [p1|error]] eqn:Hts; [|done]. intros H. injection H as <- <- <-. split.
  - intros a b ->. destruct (net_run_ok a w Hw) as [Hwa Hna [Hga Hva]].
    assert (net_run (net_run w a) b = w') as Hab by (unfold w', net_run; by rewrite foldl_app).
    destruct (net_run_ok b _ Hwa) as [_ _ [Hgb Hvb]]. rewrite Hab in Hgb, Hvb. split; [lia|].
    destruct (Hvb id cv' Hid') as (c & Hc & Hcg); [lia|]. exists c. split; [done|]. destruct (Hva id c Hc Hlt) as (c0 & Hc0 & Hcg0). simplify_eq. lia.
  - pose proof Hw' as [Hc' Ha']. split; [|eapply take_sample_result; [exact Hw'|by apply Ha'|done|done|exact Hts]].
    eapply Forall_impl; [exact (nc_samples _ _ Hc')|]. simpl. lia.
Qed.

End Layout.

(** ** A concrete run *)

#[local] Instance sample_layout : EventLayout := {| size_of_event := 160 |}.

Definition plenty : Alloc := mkAlloc true (fun _ => true) (fun _ => true).

(** A view is opened and activated, the monitor starts, an observer subscribes, the network is found
    and lost. *)
Definition watch_ops : list NetOp :=
  [ NNewView true; NActivate plenty 0; NBegin plenty; NSubscribe 1000000 true (true, true, true) 0 8 4096;
    NObserve plenty 1 NetworkStatus.Available (Some IpStack.DualStack) 10 ].

Definition watched : NetWorld := net_run NetWorld_new watch_ops.

Definition watched_view : CoordinatedView := default CoordinatedView_new (n_views (w_net watched) !! 0%nat).

Definition late_ops : list NetOp :=
  [ NSample plenty 1 5 NetworkStatus.Unavailable (Some IpStack.None) 20 (Ok true); NPoll 1; NPoll 1; NPoll 1 ].

(** The observer of the run receives the baseline, the first observation and the loss. *)
Example watch_run :
  option_map (fun o => map ne_kind (ob_received o)) (n_observers (w_net (net_run watched late_ops)) !! 1%nat) =
  Some [ NetworkEventKind.Initial; NetworkEventKind.ObservationReady;
         NetworkEventKind.ReachabilityChanged NetworkStatus.Available NetworkStatus.Unavailable ].
Proof. vm_compute. reflexivity. Qed.

Lemma refresh_in_generation_witness :
  exists n' snapshot p cv',
  commit_refresh plenty (w_net (net_run watched late_ops)) 0 cv' (mkRefreshTarget 1 1 2) 7 NetworkStatus.Available 30 (Ok tt) =
    (n', Ok (snapshot, p)) /\ n_samples n' = n_samples (w_net (net_run watched late_ops)) ++ [7] /\
  Forall (fun i => i < 7) (n_samples (w_net (net_run watched late_ops))) /\
  ns_reachability (s_snapshot (n_source n')) = Some NetworkStatus.Available.
Proof.
  eexists _, _, _, (default CoordinatedView_new (n_views (w_net (net_run watched late_ops)) !! 0%nat)).
  split; [vm_compute; reflexivity|].
  edestruct (refresh_in_generation watch_ops late_ops 0 watched_view (mkRefreshTarget 1 1 2) plenty
    (default CoordinatedView_new (n_views (w_net (net_run watched late_ops)) !! 0%nat)) 7 NetworkStatus.Available 30 (Ok tt)) as (_ & Hf & Hs & _ & Hr);
    [vm_compute; reflexivity..|].
  split; [exact Hs|]. split; [exact Hf|]. apply Hr. vm_compute. reflexivity.
Defined.
